(* ===== verification/_CoqProject ===== *)
-Q . S2P
Prelude.v
Logger.v
Socket.v
Text.v
Command.v
Protocol.v
Router.v
ConnPool.v
Descriptors.v
PoolStreams.v
ThreadPool.v
Config.v
Json.v
JsonText.v
Codec.v
Dispatcher.v
RaftTypes.v
RaftNode.v
RaftLog.v
RaftInv.v
RaftCluster.v
RaftElection.v
RaftLiveness.v
RaftReplication.v
RaftCommit.v
RaftLocal.v
RaftTransports.v
RaftRpc.v
RaftSend.v
Storage.v
Engine.v
Connection.v
Session.v
Network.v
NetworkElection.v
Sharding.v
RaftStale.v
Health.v
Server.v
System.v
SystemRaft.v
Isolation.v
Main.v
