(* ===== verification/Prelude.v ===== *)
(** * yolo_server: a verification development

    yolo_server stores the detections of an object detector.  Each process of a
    cluster runs the same program (sources under src/src/): clients speak a
    length-prefixed text protocol to any node, a rendezvous hash on the image id
    picks the node that owns a frame, requests for other nodes are forwarded,
    frames are kept in RocksDB, and the nodes run a Raft instance.

    ** The parts, their files and the code they model

    Shared ground:
    - [Prelude]: machine integers at their width, vectors with out-of-range
      reads, the tactics and lemmas every file uses.
    - [Logger]: common/logger, the choice of spdlog's level and the set-up of its default
      logger; spdlog is a parameter ([Spdlog], [SpdlogLaws]).
    - [Socket]: bytes, and the operating system's stream sockets as an interface
      ([SocketOps]) with the laws POSIX gives a non-blocking socket
      ([SocketLaws]); the instance [nb_stream] evaluates on concrete input.
    - [Text]: the string functions of the standard library the code calls.
    - [Json]: the values of nlohmann::json and the accesses the code makes, with
      their exceptions ([Throw]) and failed assertions ([Crash]) as the [result] type;
      floating-point numbers ([Floats]) and the text of JSON ([JsonText]) are
      interfaces with the laws that are relied on.  [JsonText] (the file) gives them an
      instance, a printer and parser of compact JSON over integer-valued
      floats, so the laws hold together and examples evaluate.

    Messages and requests:
    - [Command]: server/Command.cpp and the tokeniser of server/Connection.cpp.
    - [Protocol]: server/Protocol.cpp, the framing of messages on a socket.
    - [Codec]: common/codec/YoloCodec.cpp and storage/YoloTypes.h.
    - [Dispatcher]: server/Dispatcher.cpp (not called by the server).
    - [Connection]: the client handlers of server/Connection.cpp, [forwardToNode]
      and common/error/ErrorCode.h.  A handler's result is what it sends to its client,
      the store and the process.
    - [Session]: [Connection::handle], the switch over all messages, and the
      connection's construction and destruction.
    - [RaftRpc]: the Raft messages on the wire, at both ends:
      [handleRaftRequestVote] and [handleRaftAppendEntries] of Connection.cpp, and
      the requests and replies of raft/RaftNode.cpp.

    Placement, resources, start-up:
    - [Router]: cluster/ShardRouter.cpp, the rendezvous hash ([std::hash] is a
      parameter) and the insertion of nodes.
    - [Health]: [checkNodeHealth] of cluster/ShardRouter.cpp, and what the server
      that is checked does.
    - [ConnPool]: raft/RaftConnectionPool.cpp over an interface of the
      descriptor calls ([PoolOS]).  The ghost map of lent descriptors records what callers
      hold; [pool_reach] is every use of the pool in which a connection is given
      back once, with arbitrary activity of the rest of the process between.
    - [Descriptors]: the descriptor table ([FdTable]) that joins [ConnPool]'s
      descriptors with [Socket]'s streams; [process] is a concrete one.  A process may
      stand beside other state, on which the network acts: what it may do is [network_moves]
      (bytes arrive, peers close, nothing that was sent changes).
    - [PoolStreams]: the streams the connection pool leaves alone.
    - [ThreadPool]: common/thread/ThreadPool.cpp as a concurrent program:
      [tp_step] has one event per action of a worker, a submitter or the
      destructor between two points where another thread can intervene.
    - [Config]: common/config/Config.cpp.
    - [Storage]: storage/RocksDBStorage.cpp over RocksDB as a parameter
      ([RocksDB], [RocksDBLaws]); it is the [KVStore] of the Raft node.
    - [Engine]: datebase/, the interface and the implementation that storage/
      replaced: a class with its contract, discharged by the implementation.
    - [Server]: server/Server.cpp, from the configuration to the accept loop and
      stop, over the listening calls ([ListenOS]); the two configurations of the
      repository as an example.
    - [System]: all threads of a running server over one process, as a step
      relation: thread pool, sessions, Raft threads, connection pool, accept loop,
      stop and network, each with the definitions of its own file.
    - [Isolation]: what its steps do to the sockets of clients, and that its
      sessions are runs of [handle].
    - [SystemRaft]: that a turn of a Raft thread with all its calls is a sequence of these
      steps, call by call ([call_labels]).
    - [Main]: main.cpp.

    Consensus:
    - [RaftTypes], [RaftNode]: raft/RaftTypes.h and raft/RaftNode.cpp, one
      definition per method, the two background threads as one turn of their
      loops.  Every method runs under [m_mutex], so it is one function of the
      state.  The peers are reached through [RaftTransport] and the store
      through [KVStore].
    - [RaftLog]: well-formed logs and the reference definition of the merge of
      [handleAppendEntries].
    - [RaftInv]: the invariant of a node, [node_step] (every method as an event)
      and [node_reach].
    - [RaftCluster]: the nodes together.  A step of [cluster_step] is one method
      of one node, or one exchange of an election under way, so elections of
      several nodes interleave with each other and with every handler;
      replies may be lost at any point.  The relation has the append messages
      that may arrive as a parameter, all of them ([any_append]) or those the program
      builds ([sent_by_program]).  [cluster_inv] relates nodes, votes given
      and votes counted.
    - [RaftElection]: a transport that runs the other nodes' handlers, by which
      the code's [startElection] is shown to be a path of [cluster_step];
      election safety; voting.
    - [RaftLiveness]: elections that are won, and a timeout that is not over.
    - [RaftReplication]: [ae_spec], the receiver's specification without
      loops, log matching, what reaches the store.
    - [RaftCommit]: the leader's commit rule and what heartbeats carry.
    - [RaftLocal]: what the program's own append messages can replicate.
    - [RaftSend]: [sendRequestVote] and [sendAppendEntries] below the address
      lookup, over [ConnPool], [Descriptors], [Protocol] and [RaftRpc]; this is the
      transport the program has ([pool_transport]).
    - [RaftTransports]: two transports that answer alike; a node's elections and
      heartbeats over the one are those over the other ([transport_sim]).
    - [Network]: the members of a cluster as processes, each with its node, pool, store and
      descriptors; a call goes through [RaftSend] at one end and is accepted and served by
      [handle] of [Session] at the other.  When the answer is there before it is read
      ([prompt_transport]) this is [cluster_transport] of [RaftElection], so the runs of the processes
      ([net_reach]: turns of the two loops and submissions at any members, by a
      schedule of which exchanges take place) are runs of [cluster_step].
    - [NetworkElection]: an election over [Network] that is won.
    - [RaftStale]: the same processes when answers come late.

    The sharded store:
    - [Sharding]: the servers as processes that reach each other by host and port
      ([wired_os]), a request at any of them ([ask]: accepted, served by [handle], forwarded and
      served at the other end in the same way, as often as its fuel says), and the one
      map from ids to frames that they implement ([spec_step], [implements]).

    ** What the theorems show

    - Raft elections: two leaders of a term are one node; a node's votes in a
      term go to one candidate; a node that was started again votes again; a member that
      reaches a majority free to vote wins in one call; one that has heard from a
      leader does not stand.
    - Raft replication: no execution of a node whose append messages are numbered as a
      leader numbers them indexes its log out of range, and all keep it well formed; one
      message with another numbering, which nothing refuses, makes it read out of range.  The
      append handler implements its specification and keeps logs matching; the store
      receives exactly the entries up to the commit index, in order and once, and returns the
      last one written.
    - Raft commitment: for an odd number of nodes the commit index is the
      largest index a majority holds, for an even number one node fewer is
      enough; a heartbeat carries no entries and still counts them as
      replicated, so no entry is ever in the logs of two nodes, and a run of three
      nodes leaves two stores different.
    - Raft messages: requests and replies cross the wire unchanged; over the pool a call
      gives its connection back and leaves other streams alone on every path, except when
      [dump] throws on a request, which leaves the connection lent.  While peers are prompt, processes that
      talk over pools, frames, JSON and connection handlers are a Raft cluster, and
      no term has two leaders; when an answer is late it is taken for the reply to the
      next call, with which two nodes win one term.  A malformed entry ends the process.
    - Requests: requests that are there are served in order and the connection then
      ends and is closed; what [STORE] and [GET] do to the store and the client; the
      codec round trip; forwarding relays one answer and closes what it opened.
    - The sharded store: with routers that hold the same nodes, the servers answer clients
      as one map does, whichever server is asked.
    - Framing: what is sent is received; a partial read is taken for a whole message; bytes
      that arrive between the two reads do no harm once the header is there.
    - Routing and start-up: the choice of [pickNode], its stability when nodes
      come and go; the health check cannot succeed between servers of this program, so
      a server sees only itself: it has no peers, owns all keys and leads alone.
      Descriptors from start to stop, and the one a failed start leaks; accepted clients are
      all submitted.
    - The running server: each open descriptor has one owner at any time, under
      every interleaving; clients are served in the order of their connections, no
      thread touches the socket of another's session, and a session under any interleaving
      is a run of [handle], which agrees with the system after every round; a turn of a
      Raft thread is a run of the server made of its calls, one per peer.
    - Connection pool: who owns which descriptor, the bound on pooled
      connections, clean-up and shutdown.
    - Thread pool: tasks run once and in order under every interleaving, the
      queue drains before the workers leave, no task is stranded; a reachable
      state in which the destructor never returns.
    - Configuration and commands: files and messages are read back as they
      were written.
    - Logging and the earlier engine: which messages are written, and that the engine is
      a map that may refuse writes, as its successor is.

    ** Fuel and bounds

    Recursion is structural except in a few loops with fuel: [scan_conflict]
    (every turn consumes an entry), [apply_loop] (the distance of the two indices,
    shown to be exact), [recvAll_loop] (every turn receives a byte),
    [load_loop] (every turn consumes a character, [load_loop_fuel]),
    [decimal_loop] ([decimal_fuel_enough]) and [accept_pending] (more than the backlog,
    [accepted_clients_submitted]) and [ask] (the number of times a request may be
    forwarded: one is enough, [sharded_store_refines_map]).  The loops that the program means to be endless
    take a list with one element per turn: [handle] (shown to end, [serve_terminates]),
    [acceptLoop], [server_wait].  A socket of [process] has room for 4096 bytes: a reply takes
    less than 200 ([compact_short]), a request less than 1000 and the member's id
    ([compact_id_ok]).  Vectors are assumed shorter than
    2^63, and a node is assumed not to run through 2^64 - 1 terms ([room_for],
    [event_ok]).

    ** Assumptions to keep in mind

    The cluster model answers a request with the reply to that request or with a
    failure.  The program's own transport does this when every answer arrives before
    it is read, and the peer has closed the connection by then ([prompt_network_refines]), and
    otherwise not ([late_reply_answers_next_request]); the election theorems hold for a transport that
    matches replies to requests.  Descriptors are sockets and epoll instances: the files
    RocksDB opens are not in the table.  A [send] to a connection the peer has closed returns
    -1; that the program neither passes [MSG_NOSIGNAL] nor ignores SIGPIPE, so that the signal may end
    it, is not modelled, nor is the end of the process by an exception that leaves a Raft thread (a
    node id that is not UTF-8): the theorems about turns assume the id.  A step of the operating system
    is atomic, in [System] also one round of a session and one turn of a Raft thread;
    bytes that arrive while a message is being read in two calls give what
    they would had they arrived before ([recvMessage_interleaved], which also says when not: a
    header that is there in part).  [Sharding] has one request at a time, each there when the
    loop reads, and a forwarded one answered before the answer is read; and it starts
    from routers with several nodes, which the constructor does not build as long as its
    health check cannot pass ([isolated_server]).

    ** Not modelled

    The text of log messages (spdlog formats them), sleeps and time-outs of socket calls; the
    benchmark/ folder, which the build leaves out and which cannot be compiled (it calls
    [makeStoreMsg] and [sendAndRecv], defined nowhere), the
    Python clients and the vendored JSON library (its values and accesses are in
    [Json], its text an interface).  *)
From stdpp Require Export base gmap strings list fin_maps sorting.
From Stdlib Require Export ZArith Lia.

Declare Scope yolo_scope.
Delimit Scope yolo_scope with yolo.

(** ** Machine integers

    A [uint64_t] (and a [size_t]) is a [Z] in [[0, 2^64)]; every
    arithmetic operation of the code that can leave the range is followed by
    an explicit [u64].  [u32], [u16], [i32] are the other widths the code uses. *)
Definition u64 (z : Z) : Z := (z mod 2 ^ 64)%Z.
Definition u32 (z : Z) : Z := (z mod 2 ^ 32)%Z.
Definition u16 (z : Z) : Z := (z mod 2 ^ 16)%Z.
Definition i32 (z : Z) : Z := ((z + 2 ^ 31) mod 2 ^ 32 - 2 ^ 31)%Z.

Definition UINT64_MAX : Z := (2 ^ 64 - 1)%Z.

Definition is_u64 (z : Z) : Prop := (0 <= z < 2 ^ 64)%Z.
Definition is_u32 (z : Z) : Prop := (0 <= z < 2 ^ 32)%Z.
Definition is_i32 (z : Z) : Prop := (- 2 ^ 31 <= z < 2 ^ 31)%Z.

#[export] Instance is_u64_dec z : Decision (is_u64 z).
Proof. unfold is_u64. apply _. Defined.
#[export] Instance is_u32_dec z : Decision (is_u32 z).
Proof. unfold is_u32. apply _. Defined.
#[export] Instance is_i32_dec z : Decision (is_i32 z).
Proof. unfold is_i32. apply _. Defined.

(** ** Vectors

    [vec_size v] is [v.size()]; [vec_at v i] is [v[i]] for an unsigned index:
    reading outside the vector is undefined behaviour, modelled as [None]. *)
Definition vec_size {A} (v : list A) : Z := Z.of_nat (length v).

Definition vec_at {A} (v : list A) (i : Z) : option A :=
  if ((0 <=? i) && (i <? vec_size v))%Z then v !! Z.to_nat i else None.

(** [m[k]] on an [unordered_map<std::string, uint64_t>]: a missing key is
    inserted with the value-initialised [0]. *)
Definition map_index (m : gmap string Z) (k : string) : Z * gmap string Z :=
  match m !! k with
  | Some v => (v, m)
  | None => (0%Z, <[k := 0%Z]> m)
  end.

(** ** Lemmas on machine integers *)
Lemma u64_small z : is_u64 z -> u64 z = z.
Proof. intros H. unfold u64, is_u64 in *. apply Z.mod_small. lia. Qed.

Lemma u64_range z : is_u64 (u64 z).
Proof. unfold is_u64, u64. apply Z.mod_pos_bound. lia. Qed.

Lemma u32_small z : is_u32 z -> u32 z = z.
Proof. intros H. unfold u32, is_u32 in *. apply Z.mod_small. lia. Qed.

Lemma u32_range z : is_u32 (u32 z).
Proof. unfold is_u32, u32. apply Z.mod_pos_bound. lia. Qed.

Lemma i32_small z : is_i32 z -> i32 z = z.
Proof. intros H. unfold i32, is_i32 in *. rewrite Z.mod_small; lia. Qed.

Lemma i32_range z : is_i32 (i32 z).
Proof.
  unfold is_i32, i32.
  pose proof (Z.mod_pos_bound (z + 2 ^ 31) (2 ^ 32) ltac:(lia)). lia.
Qed.

(** ** Lemmas on vectors *)
Section vec.
Context {A : Type}.
Implicit Types v w : list A.

Lemma vec_at_Some v i x :
  vec_at v i = Some x <-> (0 <= i < vec_size v)%Z /\ v !! Z.to_nat i = Some x.
Proof.
  unfold vec_at. destruct ((0 <=? i) && (i <? vec_size v))%Z eqn:E.
  - apply andb_true_iff in E as [E1%Z.leb_le E2%Z.ltb_lt]. naive_solver.
  - apply andb_false_iff in E as [E%Z.leb_gt|E%Z.ltb_ge]; naive_solver lia.
Qed.

Lemma vec_at_is_Some v i :
  (0 <= i < vec_size v)%Z -> is_Some (vec_at v i).
Proof.
  intros H. destruct (lookup_lt_is_Some_2 v (Z.to_nat i)) as [x Hx].
  { unfold vec_size in H. lia. }
  exists x. by apply vec_at_Some.
Qed.

Lemma vec_at_None v i :
  vec_at v i = None -> (i < 0 \/ vec_size v <= i)%Z.
Proof.
  intros H. destruct (decide (0 <= i < vec_size v)%Z) as [Hr|Hr]; [|lia].
  destruct (vec_at_is_Some v i Hr); congruence.
Qed.

Lemma vec_at_nat v i : vec_at v (Z.of_nat i) = v !! i.
Proof.
  destruct (v !! i) as [x|] eqn:E.
  - apply vec_at_Some. rewrite Nat2Z.id. split; [|done].
    apply lookup_lt_Some in E. unfold vec_size. lia.
  - destruct (vec_at v (Z.of_nat i)) as [x|] eqn:E'; [|done].
    apply vec_at_Some in E' as [_ E']. rewrite Nat2Z.id in E'. congruence.
Qed.

Lemma vec_size_nonneg v : (0 <= vec_size v)%Z.
Proof. unfold vec_size. lia. Qed.

Lemma vec_size_app v w : vec_size (v ++ w) = (vec_size v + vec_size w)%Z.
Proof. unfold vec_size. rewrite length_app. lia. Qed.

Lemma last_lookup_pred v : last v = v !! (length v - 1).
Proof. rewrite last_lookup. f_equal. lia. Qed.

Lemma last_is_Some_nonempty v : v <> [] -> is_Some (last v).
Proof. intros H. by apply last_is_Some. Qed.

Lemma take_length_take k v : take (length (take k v)) v = take k v.
Proof.
  rewrite length_take. destruct (Nat.le_ge_cases k (length v)).
  - by rewrite Nat.min_l.
  - rewrite Nat.min_r, !take_ge by lia. done.
Qed.

End vec.

Lemma map_index_fst m k : (map_index m k).1 = default 0%Z (m !! k).
Proof. unfold map_index. by destruct (m !! k). Qed.

Lemma map_index_present m k v : m !! k = Some v -> map_index m k = (v, m).
Proof. intros H. unfold map_index. by rewrite H. Qed.

(** ** Tactics *)

(** Break every [match]/[if] of a hypothesis or the goal, keeping equations. *)
Ltac break_match_hyp H :=
  match type of H with
  | context [match ?x with _ => _ end] =>
      lazymatch x with
      | context [match _ with _ => _ end] => fail
      | _ => let E := fresh "E" in destruct x eqn:E
      end
  end.

Ltac break_match :=
  match goal with
  | |- context [match ?x with _ => _ end] =>
      lazymatch x with
      | context [match _ with _ => _ end] => fail
      | _ => let E := fresh "E" in destruct x eqn:E
      end
  end.

(** Turn the boolean comparisons of the code into propositions. *)
Ltac bool_to_prop :=
  repeat match goal with
  | H : (_ && _)%bool = true |- _ => apply andb_true_iff in H as [? ?]
  | H : (_ || _)%bool = false |- _ => apply orb_false_iff in H as [? ?]
  | H : negb _ = true |- _ => apply negb_true_iff in H
  | H : negb _ = false |- _ => apply negb_false_iff in H
  | H : Z.ltb _ _ = true |- _ => apply Z.ltb_lt in H
  | H : Z.ltb _ _ = false |- _ => apply Z.ltb_ge in H
  | H : Z.leb _ _ = true |- _ => apply Z.leb_le in H
  | H : Z.leb _ _ = false |- _ => apply Z.leb_gt in H
  | H : Z.eqb _ _ = true |- _ => apply Z.eqb_eq in H
  | H : Z.eqb _ _ = false |- _ => apply Z.eqb_neq in H
  | H : Nat.ltb _ _ = true |- _ => apply Nat.ltb_lt in H
  | H : Nat.ltb _ _ = false |- _ => apply Nat.ltb_ge in H
  | H : bool_decide _ = true |- _ => apply bool_decide_eq_true in H
  | H : bool_decide _ = false |- _ => apply bool_decide_eq_false in H
  end.

Create HintDb yolo.
#[export] Hint Resolve u64_range u32_range i32_range vec_size_nonneg : yolo.
