(* ===== verification/Logger.v ===== *)
(** * The logger (src/common/logger/Logger.h, Logger.cpp)

    [Logger::log] chooses spdlog's level for each of the program's levels and hands the
    message to spdlog's default logger; [Logger::init] builds a default logger with
    a console and a file sink.  spdlog is a parameter: its calls are the class
    [Spdlog], its documented behaviour [SpdlogLaws].  A message is its formatted text. *)
From S2P Require Import Prelude.
Local Open Scope string_scope.

(** [LogLevel], with the numbers of the enumerators. *)
Inductive LogLevel := DEBUG | INFO | WARN | ERROR.

Definition level_number (l : LogLevel) : Z :=
  match l with DEBUG => 0 | INFO => 1 | WARN => 2 | ERROR => 3 end%Z.

(** [spdlog::source_loc] *)
Record source_loc := mkLoc { loc_file : string; loc_line : Z; loc_func : string }.

(** ** spdlog *)

(** [K]: sinks; [L]: loggers with all they have written. *)
Class Spdlog (K L : Type) := {
  spd_debug : Z;
  spd_info : Z;
  spd_warn : Z;
  spd_err : Z;
  stdout_color_sink : K;
  rotating_file_sink : string -> Z -> Z -> option K;   (* None: spdlog_ex *)
  sink_set_level : Z -> K -> K;
  logger_of : string -> list K -> L;
  logger_set_level : Z -> L -> L;
  logger_flush_on : Z -> L -> L;
  logger_set_pattern : string -> L -> L;
  logger_log : source_loc -> Z -> string -> L -> L;
}.

(** A logger passes a message on when its level is not below the logger's, and a
    sink writes it when it is not below the sink's. *)
Class SpdlogLaws (K L : Type) `{!Spdlog K L} := {
  spd_order : (spd_debug < spd_info < spd_warn)%Z /\ (spd_warn < spd_err)%Z;
  lg_level : L -> Z;
  lg_sinks : L -> list K;
  lg_written : L -> list (list string);     (* by each sink *)
  lg_flushes : L -> Z;                      (* the level from which it flushes *)
  sk_level : K -> Z;
  sk_set_level l k : sk_level (sink_set_level l k) = l;
  lg_new name ks : lg_sinks (logger_of name ks) = ks /\
    lg_written (logger_of name ks) = (fun _ => []) <$> ks;
  lg_set_level l g : lg_level (logger_set_level l g) = l /\
    lg_sinks (logger_set_level l g) = lg_sinks g /\
    lg_written (logger_set_level l g) = lg_written g;
  lg_flush_on l g : lg_flushes (logger_flush_on l g) = l /\
    lg_level (logger_flush_on l g) = lg_level g /\
    lg_sinks (logger_flush_on l g) = lg_sinks g /\
    lg_written (logger_flush_on l g) = lg_written g;
  lg_set_pattern p g : lg_flushes (logger_set_pattern p g) = lg_flushes g /\
    lg_level (logger_set_pattern p g) = lg_level g /\
    lg_sinks (logger_set_pattern p g) = lg_sinks g /\
    lg_written (logger_set_pattern p g) = lg_written g;
  lg_log loc l m g :
    lg_level (logger_log loc l m g) = lg_level g /\
    lg_flushes (logger_log loc l m g) = lg_flushes g /\
    lg_sinks (logger_log loc l m g) = lg_sinks g /\
    lg_written (logger_log loc l m g) =
      zip_with (fun k w => if ((lg_level g <=? l) && (sk_level k <=? l))%Z then (w ++ [m])%list else w)
        (lg_sinks g) (lg_written g);
}.

Section logger.
Context {K L : Type} `{!Spdlog K L}.

(** The [switch] of [log] and of [init]. *)
Definition spd_level_of (level : LogLevel) : Z :=
  match level with
  | DEBUG => spd_debug
  | INFO => spd_info
  | WARN => spd_warn
  | ERROR => spd_err
  end.

(** [log(level, file, line, func, fmt, args...)] on the default logger. *)
Definition log (level : LogLevel) (file : string) (line : Z) (func : string) (text : string)
    (default_logger : L) : L :=
  let loc := mkLoc file line func in
  match level with
  | DEBUG => logger_log loc spd_debug text default_logger
  | INFO => logger_log loc spd_info text default_logger
  | WARN => logger_log loc spd_warn text default_logger
  | ERROR => logger_log loc spd_err text default_logger
  end.

Definition log_pattern : string := "[%Y-%m-%d %H:%M:%S.%e] [%^%l%$] [%s:%# %!] %v".

(** [init(log_file, level, max_file_size, max_files)]: the default logger, and whether
    the exception was reported on [stderr]. *)
Definition init (log_file : string) (level : LogLevel) (max_file_size max_files : Z)
    (default_logger : L) : L * bool :=
  let console_sink := sink_set_level spd_debug stdout_color_sink in
  match rotating_file_sink log_file max_file_size max_files with
  | None => (default_logger, true)
  | Some file_sink0 =>
      let file_sink := sink_set_level spd_debug file_sink0 in
      let logger := logger_of "default" [console_sink; file_sink] in
      let spd_level := spd_level_of level in
      let logger := logger_set_level spd_level logger in
      let logger := logger_flush_on spd_level logger in
      let logger := logger_set_pattern log_pattern logger in
      (logger_log (mkLoc "" 0 "") spd_info ("Logger initialized, file=" +:+ log_file) logger, false)
  end.
End logger.

(** ** What is written *)
Section written.
Context {K L : Type} `{!Spdlog K L, !SpdlogLaws K L}.

Lemma spd_level_mono l1 l2 :
  (spd_level_of (K := K) (L := L) l1 <=? spd_level_of (K := K) (L := L) l2)%Z
  = (level_number l1 <=? level_number l2)%Z.
Proof.
  pose proof (spd_order (K := K) (L := L)) as [[H1 H2] H3].
  destruct l1, l2; simpl; (apply Z.leb_le || apply Z.leb_gt); lia.
Qed.

(** A default logger as [init] leaves it: both sinks have written [lines]. *)
Definition ready (level : LogLevel) (lines : list string) (g : L) : Prop :=
  lg_level g = spd_level_of (K := K) (L := L) level /\
  lg_flushes g = spd_level_of (K := K) (L := L) level /\
  (sk_level <$> lg_sinks g) = [spd_debug (K := K) (L := L); spd_debug (K := K) (L := L)] /\
  lg_written g = [lines; lines].

Lemma log_is_spd level file line func text (g : L) :
  log level file line func text g
  = logger_log (mkLoc file line func) (spd_level_of (K := K) (L := L) level) text g.
Proof. by destruct level. Qed.

Lemma logged level l loc text lines (g : L) :
  ready level lines g ->
  ready level
    (if (level_number level <=? level_number l)%Z then (lines ++ [text])%list else lines)
    (logger_log loc (spd_level_of (K := K) (L := L) l) text g).
Proof.
  intros (Hl & Hf & Hs & Hw).
  destruct (lg_log loc (spd_level_of (K := K) (L := L) l) text g) as (El & Ef & Es & Ew).
  unfold ready. rewrite El, Ef, Es, Ew, Hl, Hf, Hs, Hw. split_and!; [done..|].
  destruct (lg_sinks g) as [|k1 [|k2 [|? ?]]]; try done. injection Hs as H1 H2. simpl.
  rewrite H1, H2, spd_level_mono.
  change (spd_debug (K := K) (L := L)) with (spd_level_of (K := K) (L := L) DEBUG).
  rewrite spd_level_mono. assert ((level_number DEBUG <=? level_number l)%Z = true) as ->
    by (by destruct l). by destruct (level_number level <=? level_number l)%Z.
Qed.

(** [init]: a file sink that cannot be opened leaves the default logger as it was. *)
Lemma init_ready log_file level max_file_size max_files (g : L) :
  if bool_decide (is_Some (rotating_file_sink (K := K) (L := L) log_file max_file_size max_files))
  then exists g', init log_file level max_file_size max_files g = (g', false) /\
    ready level (if (level_number level <=? level_number INFO)%Z
                 then ["Logger initialized, file=" +:+ log_file] else []) g'
  else init log_file level max_file_size max_files g = (g, true).
Proof.
  unfold init. destruct (rotating_file_sink _ _ _) as [k|].
  - rewrite bool_decide_true by eauto. eexists. split; [done|].
    apply (logged level INFO _ _ []). unfold ready.
    set (ks := [_; _]).
    destruct (lg_set_pattern log_pattern (logger_flush_on (spd_level_of (K := K) (L := L) level)
      (logger_set_level (spd_level_of (K := K) (L := L) level) (logger_of "default" ks))))
      as (-> & -> & -> & ->).
    destruct (lg_flush_on (spd_level_of (K := K) (L := L) level)
      (logger_set_level (spd_level_of (K := K) (L := L) level) (logger_of "default" ks)))
      as (-> & -> & -> & ->).
    destruct (lg_set_level (spd_level_of (K := K) (L := L) level) (logger_of "default" ks))
      as (-> & -> & ->).
    destruct (lg_new "default" ks) as [-> ->].
    split_and!; [done|done| |done]. unfold ks. simpl. by rewrite !sk_set_level.
  - by rewrite bool_decide_false by (by intros [? [=]]).
Qed.
End written.

(** The lines a sequence of messages leaves when the level is [level]. *)
Definition kept_lines (level : LogLevel) (ms : list (LogLevel * string)) : list string :=
  snd <$> filter (fun m => (level_number level <= level_number m.1)%Z) ms.

(** After an [init] that succeeded, the console and the file hold the same lines: the
    greeting when the level lets it pass, and of all that is logged exactly the messages
    whose level is not below the one chosen, in order; every message that is written
    is flushed.  After one that failed the program goes on with the default logger it had. *)
Theorem init_then_log {K L : Type} `{!Spdlog K L, !SpdlogLaws K L}
    log_file level max_file_size max_files (g : L) (ms : list (LogLevel * string)) file line func :
  let '(g0, failed) := init log_file level max_file_size max_files g in
  let g1 := foldl (fun g m => log m.1 file line func m.2 g) g0 ms in
  if failed then g0 = g
  else exists lines,
    lines = (kept_lines level [(INFO, "Logger initialized, file=" +:+ log_file)]
             ++ kept_lines level ms)%list /\
    lg_written g1 = [lines; lines] /\ lg_flushes g1 = lg_level g1.
Proof.
  pose proof (init_ready log_file level max_file_size max_files g) as Hi.
  case_bool_decide as Hs; [|by rewrite Hi]. destruct Hi as (g0 & -> & Hr). cbn zeta.
  assert (forall lines, ready level lines g0 ->
    ready level (lines ++ kept_lines level ms)
      (foldl (fun g m => log m.1 file line func m.2 g) g0 ms)) as Hall.
  { clear Hr Hs g. revert g0. induction ms as [|[l m] ms IH]; intros g0 lines Hr; simpl.
    - by rewrite app_nil_r.
    - rewrite log_is_spd. pose proof (IH _ _ (logged level l (mkLoc file line func) m lines g0 Hr)) as Hn.
      unfold kept_lines in *. rewrite filter_cons. cbn [fst].
      destruct (Z.leb_spec (level_number level) (level_number l)).
      + rewrite decide_True by lia. rewrite fmap_cons. by rewrite <- app_assoc in Hn.
      + by rewrite decide_False by lia. }
  destruct (Hall _ Hr) as (Hl & Hf & _ & Hw).
  assert (kept_lines level [(INFO, "Logger initialized, file=" +:+ log_file)]
    = if (level_number level <=? level_number INFO)%Z
      then ["Logger initialized, file=" +:+ log_file] else []) as ->.
  { unfold kept_lines. rewrite filter_cons. cbn [fst].
    destruct (Z.leb_spec (level_number level) (level_number INFO)).
    - by rewrite decide_True by lia.
    - by rewrite decide_False by lia. }
  eexists. split; [done|]. split; [exact Hw|congruence].
Qed.

(** ** Witnesses *)
Module Witness.

(** Sinks by their level; a logger with what its sinks have written. *)
Record toy_logger := mkToy {
  ty_level : Z; ty_flush : Z; ty_sinks : list Z; ty_written : list (list string)
}.

#[export] Instance toy_spdlog : Spdlog Z toy_logger := {|
  spd_debug := 1; spd_info := 2; spd_warn := 3; spd_err := 4;
  stdout_color_sink := 0%Z;
  rotating_file_sink path _ _ := if String.eqb path "" then None else Some 0%Z;
  sink_set_level l _ := l;
  logger_of _ ks := mkToy 2 6 ks ((fun _ => []) <$> ks);
  logger_set_level l g := mkToy l (ty_flush g) (ty_sinks g) (ty_written g);
  logger_flush_on l g := mkToy (ty_level g) l (ty_sinks g) (ty_written g);
  logger_set_pattern _ g := g;
  logger_log _ l m g := mkToy (ty_level g) (ty_flush g) (ty_sinks g)
    (zip_with (fun k w => if ((ty_level g <=? l) && (k <=? l))%Z then (w ++ [m])%list else w)
       (ty_sinks g) (ty_written g));
|}.

#[export] Instance toy_laws : SpdlogLaws Z toy_logger.
Proof.
  refine {| lg_level := ty_level; lg_sinks := ty_sinks; lg_written := ty_written;
            lg_flushes := ty_flush; sk_level k := k |}; try done.
Defined.

Definition greeting : toy_logger := mkToy 2 6 [] [].

Lemma init_then_log_witness :
  let g := (init "server.log" WARN 10 5 greeting).1 in
  ty_written (log ERROR "a.cpp" 1 "f" "bad" (log INFO "a.cpp" 1 "f" "good" g)) = [["bad"]; ["bad"]] /\
  (init "" WARN 10 5 greeting).1 = greeting.
Proof.
  pose proof (@init_then_log Z toy_logger toy_spdlog toy_laws "server.log" WARN 10 5 greeting
    [(INFO, "good"); (ERROR, "bad")] "a.cpp" 1 "f") as H.
  pose proof (@init_then_log Z toy_logger toy_spdlog toy_laws "" WARN 10 5 greeting [] "a.cpp" 1 "f") as H2.
  split; [|exact H2]. destruct (init "server.log" WARN 10 5 greeting) as [g0 failed] eqn:E.
  assert (failed = false) as -> by (vm_compute in E; injection E as _ <-; reflexivity).
  cbn [foldl fst snd] in *. destruct H as (lines & -> & Hw & _). exact Hw.
Defined.
End Witness.
