(* ===== verification/Socket.v ===== *)
(** * Sockets and byte strings

    What the code relies on from the operating system's stream sockets, as an
    interface: [SocketOps] are the calls, [SocketLaws] what POSIX says of them on
    a non-blocking socket (the sockets of clients, of forwarded requests and of the Raft
    pool are made non-blocking; what the network does before a read of an answer is an
    argument of the function that reads).  [nb_stream] is a concrete instance, used to evaluate
    the code on concrete inputs.  Bytes are [Byte.byte]; a [std::string] and a
    [std::vector<char>] hold the same bytes. *)
From S2P Require Import Prelude.
From Stdlib Require Export Init.Byte.
From Stdlib Require Strings.Byte.

(** ** Bytes *)
Definition Z_of_byte (b : byte) : Z := Z.of_N (Byte.to_N b).

Definition byte_of_Z (z : Z) : byte :=
  match Byte.of_N (Z.to_N (z mod 256)) with Some b => b | None => x00 end.

#[export] Instance byte_eq_dec : EqDecision byte.
Proof. intros x y. destruct (Byte.byte_eq_dec x y); [left|right]; done. Defined.

(** [std::vector<char>(s.begin(), s.end())] and back. *)
Definition chars (s : string) : list byte := String.list_byte_of_string s.
Definition text (v : list byte) : string := String.string_of_list_byte v.

(** ** System calls *)
Inductive recv_result :=
  | RecvBytes (bs : list byte)   (* n = length bs; 0 is end of file *)
  | RecvError (again : bool).    (* -1; again: errno is EAGAIN or EWOULDBLOCK *)

Class SocketOps (S : Type) := {
  sk_recv : nat -> S -> recv_result * S;            (* recv, MSG_WAITALL or no flag *)
  sk_peek : nat -> S -> recv_result;                (* recv, MSG_PEEK | MSG_DONTWAIT *)
  sk_send : list byte -> S -> Z * S;                (* send *)
}.

(** The two byte streams of a socket and the laws of the calls. *)
Class SocketLaws (S : Type) `{!SocketOps S} := {
  sk_avail : S -> list byte;     (* bytes received and not yet read *)
  sk_eof : S -> bool;            (* the peer has closed its side *)
  sk_sent : S -> list byte;      (* bytes handed to the kernel so far *)
  sk_recv_none len s : 0 < len -> sk_avail s = [] ->
    sk_recv len s = (if sk_eof s then RecvBytes [] else RecvError true, s);
  sk_recv_some len s : 0 < len -> sk_avail s <> [] ->
    exists s', sk_recv len s = (RecvBytes (take len (sk_avail s)), s') /\
      sk_avail s' = drop len (sk_avail s) /\ sk_sent s' = sk_sent s /\ sk_eof s' = sk_eof s;
  sk_peek_spec len s : 0 < len ->
    sk_peek len s = match sk_avail s with
                    | [] => if sk_eof s then RecvBytes [] else RecvError true
                    | _ => RecvBytes (take len (sk_avail s))
                    end;
  sk_send_spec bs s n s' : sk_send bs s = (n, s') ->
    sk_avail s' = sk_avail s /\ sk_eof s' = sk_eof s /\
    ((n = -1)%Z /\ sk_sent s' = sk_sent s \/
     (0 <= n <= Z.of_nat (length bs))%Z /\ sk_sent s' = sk_sent s ++ take (Z.to_nat n) bs);
}.

(** ** Lemmas on bytes *)
Lemma Z_of_byte_range b : (0 <= Z_of_byte b < 256)%Z.
Proof. unfold Z_of_byte. pose proof (Byte.to_N_bounded b). lia. Qed.

Lemma Z_of_byte_of_Z z : Z_of_byte (byte_of_Z z) = (z mod 256)%Z.
Proof.
  unfold Z_of_byte, byte_of_Z.
  pose proof (Z.mod_pos_bound z 256 ltac:(lia)).
  destruct (Byte.of_N (Z.to_N (z mod 256))) as [b|] eqn:E.
  - apply Byte.to_of_N in E. rewrite E. lia.
  - apply Byte.of_N_None_iff in E. lia.
Qed.

Lemma text_chars s : text (chars s) = s.
Proof. apply String.string_of_list_byte_of_string. Qed.

Lemma chars_text v : chars (text v) = v.
Proof. apply String.list_byte_of_string_of_list_byte. Qed.

Lemma chars_inj s1 s2 : chars s1 = chars s2 -> s1 = s2.
Proof. intros H. by rewrite <- (text_chars s1), H, text_chars. Qed.

(** ** A concrete non-blocking stream *)
Record nb_stream := mkStream {
  nb_in : list byte;
  nb_eof : bool;
  nb_out : list byte;
  nb_room : nat;        (* free space of the send buffer *)
}.

Definition nb_recv (len : nat) (s : nb_stream) : recv_result * nb_stream :=
  match nb_in s with
  | [] => (if nb_eof s then RecvBytes [] else RecvError true, s)
  | _ => (RecvBytes (take len (nb_in s)),
          mkStream (drop len (nb_in s)) (nb_eof s) (nb_out s) (nb_room s))
  end.

Definition nb_peek (len : nat) (s : nb_stream) : recv_result := (nb_recv len s).1.

Definition nb_send (bs : list byte) (s : nb_stream) : Z * nb_stream :=
  let k := Nat.min (length bs) (nb_room s) in
  if bool_decide (k = 0 /\ bs <> [])
  then ((-1)%Z, s)
  else (Z.of_nat k, mkStream (nb_in s) (nb_eof s) (nb_out s ++ take k bs) (nb_room s - k)).

#[export] Instance nb_ops : SocketOps nb_stream :=
  {| sk_recv := nb_recv; sk_peek := nb_peek; sk_send := nb_send |}.

#[export] Instance nb_laws : SocketLaws nb_stream.
Proof.
  refine {| sk_avail := nb_in; sk_eof := nb_eof; sk_sent := nb_out |}.
  - intros len s _ H. simpl. unfold nb_recv. by rewrite H.
  - intros len s _ H. simpl. unfold nb_recv. destruct (nb_in s); [done|]. eauto.
  - intros len s _. simpl. unfold nb_peek, nb_recv. by destruct (nb_in s).
  - intros bs s n s'. simpl. unfold nb_send. case_bool_decide as Hc; intros [= <- <-]; simpl.
    + auto.
    + split_and!; [done..|]. right. rewrite Nat2Z.id. split; [lia|done].
Defined.
