(* ===== verification/Text.v ===== *)
(** * Text

    What the code uses of [std::string], [std::istringstream], [std::stoi] and
    [std::to_string]: white space and tokens, searching and cutting, decimal
    numbers, and the case of letters, all in the "C" locale. *)
From S2P Require Import Prelude.
From Stdlib Require Export Ascii.
Local Open Scope string_scope.

(** [std::isspace] in the "C" locale: space, and tab to carriage return. *)
Definition is_space (c : ascii) : bool :=
  let n := nat_of_ascii c in Nat.eqb n 32 || (Nat.leb 9 n && Nat.leb n 13).

(** [iss >> token]: skip white space, then read up to the next white space;
    the second component is what is left in the stream. *)
Fixpoint skip_spaces (s : string) : string :=
  match s with
  | EmptyString => EmptyString
  | String c s' => if is_space c then skip_spaces s' else s
  end.

Fixpoint take_token (s : string) : string * string :=
  match s with
  | EmptyString => (EmptyString, EmptyString)
  | String c s' =>
      if is_space c then (EmptyString, s)
      else let '(t, r) := take_token s' in (String c t, r)
  end.

Definition read_token (s : string) : string * string := take_token (skip_spaces s).

(** [s.find(' ')] *)
Fixpoint find_char (c : ascii) (s : string) : option nat :=
  match s with
  | EmptyString => None
  | String d s' => if Ascii.eqb d c then Some 0 else S <$> find_char c s'
  end.

(** [s.substr(pos)] with [pos <= size()] *)
Fixpoint substr_from (pos : nat) (s : string) : string :=
  match pos, s with
  | O, _ => s
  | S p, String _ s' => substr_from p s'
  | S _, EmptyString => EmptyString
  end.

(** ** Words *)
Fixpoint no_space (s : string) : bool :=
  match s with EmptyString => true | String c s' => negb (is_space c) && no_space s' end.

Lemma take_token_word w c rest :
  no_space w = true -> is_space c = true ->
  take_token (w +:+ String c rest) = (w, String c rest).
Proof.
  intros Hw Hc. induction w as [|d w IH]; simpl in *; [by rewrite Hc|].
  bool_to_prop. rewrite H. rewrite IH by done. done.
Qed.

Lemma take_token_all w : no_space w = true -> take_token w = (w, "").
Proof.
  induction w as [|d w IH]; simpl; [done|]. intros H. bool_to_prop.
  rewrite H. by rewrite IH.
Qed.

Lemma skip_spaces_word w rest :
  no_space w = true -> w <> "" -> skip_spaces (w +:+ rest) = w +:+ rest.
Proof.
  destruct w as [|d w]; [done|]. simpl. intros H _. bool_to_prop. by rewrite H.
Qed.

Lemma take_token_no_space s : no_space (take_token s).1 = true.
Proof.
  induction s as [|c s IH]; simpl; [done|]. destruct (is_space c) eqn:E; [done|].
  destruct (take_token s) as [t r]. simpl in *. by rewrite E.
Qed.

Lemma find_char_space w rest :
  no_space w = true -> find_char " "%char (w +:+ String " "%char rest) = Some (String.length w).
Proof.
  induction w as [|d w IH]; simpl; [done|]. intros H. bool_to_prop.
  destruct (Ascii.eqb d " ") eqn:E.
  - apply Ascii.eqb_eq in E. subst. done.
  - by rewrite IH.
Qed.

Lemma substr_from_app w rest : substr_from (String.length w) (w +:+ rest) = rest.
Proof. by induction w. Qed.


(** ** Decimal numbers *)
Definition digit_char (d : Z) : ascii := ascii_of_nat (48 + Z.to_nat d).

Definition digit_value (c : ascii) : option Z :=
  let n := nat_of_ascii c in
  if Nat.leb 48 n && Nat.leb n 57 then Some (Z.of_nat n - 48)%Z else None.

(** [std::to_string] of an unsigned integer, the low digits last; [z < 10^fuel]. *)
Fixpoint decimal_loop (fuel : nat) (z : Z) (low : string) : string :=
  match fuel with
  | O => low
  | S fuel' =>
      let s := String (digit_char (z mod 10)) low in
      if (z <? 10)%Z then s else decimal_loop fuel' (z / 10) s
  end.

Definition decimal_fuel (z : Z) : nat := S (Z.to_nat (Z.log2 z)).

Definition to_string (z : Z) : string :=
  if (z <? 0)%Z then String "-" (decimal_loop (decimal_fuel (- z)) (- z) "")
  else decimal_loop (decimal_fuel z) z "".

(** Read the leading digits; the rest of the text is left. *)
Fixpoint read_digits (acc : Z) (s : string) : Z * string :=
  match s with
  | EmptyString => (acc, s)
  | String c s' =>
      match digit_value c with
      | Some d => read_digits (10 * acc + d)%Z s'
      | None => (acc, s)
      end
  end.

(** [std::stoi(s)]: [None] where it throws.  The value [strtol] accumulates is
    compared with the range of [int] at the end, as its saturation does. *)
Definition stoi (s : string) : option Z :=
  let '(sign, s1) :=
    match skip_spaces s with
    | String c s' =>
        if Ascii.eqb c "-" then ((-1)%Z, s')
        else if Ascii.eqb c "+" then (1%Z, s') else (1%Z, String c s')
    | EmptyString => (1%Z, "")
    end in
  match s1 with
  | String c _ =>
      match digit_value c with
      | Some _ =>
          let v := (sign * (read_digits 0 s1).1)%Z in
          if bool_decide (is_i32 v) then Some v else None
      | None => None
      end
  | EmptyString => None
  end.

Lemma digit_value_char d : (0 <= d < 10)%Z -> digit_value (digit_char d) = Some d.
Proof.
  intros Hd. unfold digit_value, digit_char. rewrite nat_ascii_embedding by lia.
  rewrite (proj2 (Nat.leb_le _ _)) by lia. rewrite (proj2 (Nat.leb_le _ _)) by lia.
  simpl. f_equal. lia.
Qed.

Lemma digit_char_not_space d : (0 <= d < 10)%Z -> is_space (digit_char d) = false.
Proof.
  intros Hd. unfold is_space, digit_char. rewrite nat_ascii_embedding by lia.
  destruct (Nat.eqb_spec (48 + Z.to_nat d) 32); [lia|].
  by rewrite (proj2 (Nat.leb_gt (48 + Z.to_nat d) 13)), andb_false_r by lia.
Qed.

Lemma decimal_fuel_enough z : (0 <= z)%Z -> (z < 10 ^ Z.of_nat (decimal_fuel z))%Z.
Proof.
  intros Hz. unfold decimal_fuel. rewrite Nat2Z.inj_succ, Z2Nat.id by apply Z.log2_nonneg.
  destruct (decide (z = 0)%Z) as [->|Hne]; [done|].
  pose proof (Z.log2_spec z ltac:(lia)) as [_ H].
  eapply Z.lt_le_trans; [exact H|]. apply Z.pow_le_mono_l. lia.
Qed.

(** Reading what [decimal_loop] wrote: the digits are read back in order. *)
Lemma read_decimal_loop fuel z low acc :
  (0 <= z)%Z -> (z < 10 ^ Z.of_nat fuel)%Z -> 0 < fuel ->
  exists k, (0 <= k)%Z /\
    read_digits acc (decimal_loop fuel z low) = read_digits (acc * 10 ^ k + z)%Z low.
Proof.
  revert z low acc. induction fuel as [|fuel IH]; intros z low acc Hz Hf Hp; [lia|].
  pose proof (Z.mod_pos_bound z 10 ltac:(lia)) as Hm.
  pose proof (Z.div_mod z 10 ltac:(lia)) as Hd. cbn [decimal_loop].
  destruct (Z.ltb_spec z 10) as [Hlt|Hge].
  - exists 1%Z. split; [lia|]. cbn [read_digits]. rewrite digit_value_char by done.
    rewrite Z.mod_small by lia. f_equal. lia.
  - rewrite Nat2Z.inj_succ, Z.pow_succ_r in Hf by lia.
    assert (z / 10 < 10 ^ Z.of_nat fuel)%Z as Hlt by (apply Z.div_lt_upper_bound; lia).
    assert (0 < fuel) as Hp'.
    { destruct fuel; [|lia]. simpl in Hlt. assert (1 <= z / 10)%Z; [|lia].
      apply Z.div_le_lower_bound; lia. }
    destruct (IH (z / 10)%Z (String (digit_char (z mod 10)) low) acc) as (k & Hk & ->);
      [apply Z.div_pos; lia|done|done|].
    exists (k + 1)%Z. split; [lia|]. cbn [read_digits]. rewrite digit_value_char by done.
    f_equal. rewrite Z.pow_add_r by lia. lia.
Qed.

(** The text starts with a digit. *)
Lemma decimal_loop_head fuel z low :
  0 < fuel -> exists d s, (0 <= d < 10)%Z /\ decimal_loop fuel z low = String (digit_char d) s.
Proof.
  revert z low. induction fuel as [|fuel IH]; intros z low Hp; [lia|]. cbn [decimal_loop].
  pose proof (Z.mod_pos_bound z 10 ltac:(lia)) as Hm.
  destruct (z <? 10)%Z; [eauto|]. destruct fuel as [|fuel]; [simpl; eauto|]. apply IH. lia.
Qed.

(** ** Searching and cutting *)

(** [s.find_first_of]/[find_last_of] for a class of characters. *)
Fixpoint find_first_if (p : ascii -> bool) (s : string) : option nat :=
  match s with
  | EmptyString => None
  | String c s' => if p c then Some 0 else S <$> find_first_if p s'
  end.

Fixpoint find_last_if (p : ascii -> bool) (s : string) : option nat :=
  match s with
  | EmptyString => None
  | String c s' =>
      match find_last_if p s' with
      | Some i => Some (S i)
      | None => if p c then Some 0 else None
      end
  end.

(** [s.substr(pos, n)] with [pos <= size()]. *)
Fixpoint str_take (n : nat) (s : string) : string :=
  match n, s with
  | S n', String c s' => String c (str_take n' s')
  | _, _ => ""
  end.

Definition substr (pos n : nat) (s : string) : string := str_take n (substr_from pos s).

(** Every character is in the class. *)
Fixpoint str_all (p : ascii -> bool) (s : string) : bool :=
  match s with EmptyString => true | String c s' => p c && str_all p s' end.

Lemma str_app_cons c s t : String c s +:+ t = String c (s +:+ t).
Proof. done. Qed.

Lemma str_app_nil_l s : "" +:+ s = s.
Proof. done. Qed.

Lemma str_app_nil_r s : s +:+ "" = s.
Proof. induction s as [|c s IH]; [done|]. by rewrite str_app_cons, IH. Qed.

Lemma str_app_assoc s t u : (s +:+ t) +:+ u = s +:+ t +:+ u.
Proof. induction s as [|c s IH]; [done|]. by rewrite !str_app_cons, IH. Qed.

Lemma str_length_app s t : String.length (s +:+ t) = String.length s + String.length t.
Proof. induction s as [|c s IH]; [done|]. rewrite str_app_cons. simpl. by rewrite IH. Qed.

Lemma str_all_app p s t : str_all p (s +:+ t) = str_all p s && str_all p t.
Proof.
  induction s as [|c s IH]; [done|]. rewrite str_app_cons. simpl. by rewrite IH, andb_assoc.
Qed.

Lemma str_take_app s t : str_take (String.length s) (s +:+ t) = s.
Proof.
  induction s as [|c s IH]; [by destruct t|]. rewrite str_app_cons. simpl. by rewrite IH.
Qed.

Lemma substr_app s t u : substr (String.length s) (String.length t) (s +:+ t +:+ u) = t.
Proof. unfold substr. by rewrite substr_from_app, str_take_app. Qed.

Lemma find_first_if_app p s c t :
  str_all (fun x => negb (p x)) s = true -> p c = true ->
  find_first_if p (s +:+ String c t) = Some (String.length s).
Proof.
  intros Hs Hc. induction s as [|d s IH]; simpl in *; [by rewrite Hc|].
  bool_to_prop. rewrite H. by rewrite IH.
Qed.

Lemma find_first_if_None p s :
  find_first_if p s = None <-> str_all (fun x => negb (p x)) s = true.
Proof.
  induction s as [|d s IH]; simpl; [done|]. destruct (p d); simpl; [done|].
  rewrite fmap_None. done.
Qed.

Lemma find_first_if_Some p s i :
  find_first_if p s = Some i -> exists u c t,
    s = u +:+ String c t /\ i = String.length u /\ p c = true /\
    str_all (fun x => negb (p x)) u = true.
Proof.
  revert i. induction s as [|d s IH]; simpl; [done|]. intros i.
  destruct (p d) eqn:Ed.
  - intros [= <-]. by exists "", d, s.
  - intros (j & Hj & ->)%fmap_Some. destruct (IH _ Hj) as (u & c & t & -> & -> & Hc & Hu).
    exists (String d u), c, t. simpl. by rewrite Ed.
Qed.

Lemma find_last_if_None p s :
  str_all (fun x => negb (p x)) s = true -> find_last_if p s = None.
Proof.
  induction s as [|d s IH]; simpl; [done|]. intros H. bool_to_prop. by rewrite IH, H.
Qed.

Lemma find_last_if_app p s c t :
  p c = true -> str_all (fun x => negb (p x)) t = true ->
  find_last_if p (s +:+ String c t) = Some (String.length s).
Proof.
  intros Hc Ht. induction s as [|d s IH]; simpl.
  - by rewrite find_last_if_None, Hc.
  - by rewrite IH.
Qed.

(** The last character of the class. *)
Lemma last_split p s :
  str_all (fun x => negb (p x)) s = false -> exists u c t,
    s = u +:+ String c t /\ p c = true /\ str_all (fun x => negb (p x)) t = true.
Proof.
  induction s as [|d s IH]; simpl; [done|]. intros H.
  destruct (str_all (fun x => negb (p x)) s) eqn:Es.
  - rewrite andb_true_r in H. apply negb_false_iff in H. by exists "", d, s.
  - destruct (IH eq_refl) as (u & c & t & -> & Hc & Ht). by exists (String d u), c, t.
Qed.

(** ** Numbers in a text *)
(** The text after a number does not go on with a digit. *)
Definition no_digit_head (t : string) : bool :=
  match t with
  | EmptyString => true
  | String c _ => match digit_value c with Some _ => false | None => true end
  end.

Lemma decimal_loop_app fuel z low t :
  decimal_loop fuel z low +:+ t = decimal_loop fuel z (low +:+ t).
Proof.
  revert z low. induction fuel as [|fuel IH]; intros z low; cbn [decimal_loop]; [done|].
  destruct (z <? 10)%Z; [done|]. apply IH.
Qed.

Lemma read_digits_decimal z t :
  (0 <= z)%Z -> no_digit_head t = true ->
  read_digits 0 (decimal_loop (decimal_fuel z) z t) = (z, t).
Proof.
  intros Hz Ht. destruct (read_decimal_loop (decimal_fuel z) z t 0) as (k & _ & ->);
    [done|by apply decimal_fuel_enough|unfold decimal_fuel; lia|].
  destruct t as [|c t]; simpl; [done|]. simpl in Ht.
  by destruct (digit_value c).
Qed.

Lemma skip_spaces_all p s :
  str_all is_space p = true -> skip_spaces (p +:+ s) = skip_spaces s.
Proof.
  induction p as [|c p IH]; [done|]. rewrite str_app_cons. simpl. intros H. bool_to_prop.
  rewrite H. by apply IH.
Qed.

(** [std::stoi] reads a decimal number after white space and ignores what
    follows it; a number that is not an [int] throws. *)
Lemma stoi_decimal p z t :
  str_all is_space p = true -> no_digit_head t = true ->
  stoi (p +:+ to_string z +:+ t) = if bool_decide (is_i32 z) then Some z else None.
Proof.
  intros Hp Ht. unfold stoi. rewrite skip_spaces_all by done. unfold to_string.
  destruct (Z.ltb_spec z 0) as [Hn|Hn].
  - rewrite str_app_cons, decimal_loop_app, str_app_nil_l.
    pose proof (read_digits_decimal (- z) t ltac:(lia) Ht) as Hv.
    destruct (decimal_loop_head (decimal_fuel (- z)) (- z) t) as (d & s & Hd & E);
      [unfold decimal_fuel; lia|].
    rewrite E in *. cbn [skip_spaces]. change (is_space "-"%char) with false. cbv iota.
    change (Ascii.eqb "-"%char "-"%char) with true. cbv iota.
    rewrite digit_value_char, Hv by done. cbn [fst].
    by replace (-1 * - z)%Z with z by lia.
  - rewrite decimal_loop_app, str_app_nil_l.
    pose proof (read_digits_decimal z t Hn Ht) as Hv.
    destruct (decimal_loop_head (decimal_fuel z) z t) as (d & s & Hd & E);
      [unfold decimal_fuel; lia|].
    rewrite E in *. cbn [skip_spaces]. rewrite digit_char_not_space by done.
    assert (forall c, digit_value c = None -> Ascii.eqb (digit_char d) c = false) as Hne.
    { intros c Hc. apply Ascii.eqb_neq. intros <-. by rewrite digit_value_char in Hc. }
    rewrite !Hne by done. rewrite digit_value_char, Hv by done. cbn [fst].
    by rewrite Z.mul_1_l.
Qed.

(** ** Characters that do not occur *)
Lemma no_space_find_char w : no_space w = true -> find_char " "%char w = None.
Proof.
  induction w as [|a w IH]; [done|]. simpl. intros H. bool_to_prop. rewrite IH by done.
  destruct (Ascii.eqb_spec a " "%char) as [->|_]; [by vm_compute in H|done].
Qed.

Lemma find_char_none_app x s t :
  find_char x s = None -> find_char x t = None -> find_char x (s +:+ t) = None.
Proof.
  intros Hs Ht. induction s as [|a s IH]; [done|]. rewrite str_app_cons. simpl in *.
  destruct (Ascii.eqb a x); [done|]. apply fmap_None in Hs. by rewrite IH.
Qed.

Lemma substr_from_next w c rest :
  substr_from (S (String.length w)) (w +:+ String c rest) = rest.
Proof. induction w as [|a w IH]; [done|]. rewrite str_app_cons. exact IH. Qed.
