(* ===== verification/Command.v ===== *)
(** * Commands (src/server/Command.cpp, Command.h; getFirstToken of
    src/server/Connection.cpp) *)
From S2P Require Import Prelude Text.
Local Open Scope string_scope.

Inductive CommandType :=
  | PING | STORE | GET | RAFT_REQUEST_VOTE | RAFT_APPEND_ENTRIES | UNKNOWN.

#[export] Instance CommandType_eq_dec : EqDecision CommandType.
Proof. solve_decision. Defined.

(** [parseCommand(cmd)] *)
Definition parseCommand (cmd : string) : CommandType :=
  if String.eqb cmd "PING" then PING
  else if String.eqb cmd "STORE" then STORE
  else if String.eqb cmd "GET" then GET
  else if String.eqb cmd "RAFT_REQUEST_VOTE" then RAFT_REQUEST_VOTE
  else if String.eqb cmd "RAFT_APPEND_ENTRIES" then RAFT_APPEND_ENTRIES
  else UNKNOWN.

(** [getFirstToken(s)] *)
Definition getFirstToken (s : string) : string := (read_token s).1.

Lemma getFirstToken_word w c rest :
  no_space w = true -> w <> "" -> is_space c = true ->
  getFirstToken (w +:+ String c rest) = w.
Proof.
  intros Hw Hne Hc. unfold getFirstToken, read_token.
  rewrite skip_spaces_word by done. by rewrite take_token_word.
Qed.

(** The words the dispatcher knows. *)
Definition command_word (t : CommandType) : string :=
  match t with
  | PING => "PING" | STORE => "STORE" | GET => "GET"
  | RAFT_REQUEST_VOTE => "RAFT_REQUEST_VOTE"
  | RAFT_APPEND_ENTRIES => "RAFT_APPEND_ENTRIES"
  | UNKNOWN => ""
  end.

Lemma parseCommand_iff cmd t :
  t <> UNKNOWN -> parseCommand cmd = t <-> cmd = command_word t.
Proof.
  intros Ht. split.
  - unfold parseCommand. repeat case_match; intros <-; try done;
      by match goal with H : String.eqb _ _ = true |- _ => apply String.eqb_eq in H end.
  - intros ->. by destruct t.
Qed.

Lemma command_word_ok t : t <> UNKNOWN -> no_space (command_word t) = true /\ command_word t <> "".
Proof. by destruct t. Qed.

(** Dispatch: a message made of a command's word, one space and any payload is
    given to that command's handler, and cutting it at its first space, as the handlers
    do, gives the payload back; a message is unknown exactly when its first token
    is none of the words.  When the separator is some other white space, or when
    white space comes first, the token is the same but the cut at the first
    space is not: the handler finds no payload or takes the whole message for it. *)
Theorem command_dispatch t payload :
  let msg := command_word t +:+ " " +:+ payload in
  (t <> UNKNOWN ->
     parseCommand (getFirstToken msg) = t /\
     exists pos, find_char " " msg = Some pos /\ substr_from (pos + 1) msg = payload) /\
  (forall m, parseCommand (getFirstToken m) = UNKNOWN <->
     forall u, u <> UNKNOWN -> getFirstToken m <> command_word u) /\
  (t <> UNKNOWN ->
     parseCommand (getFirstToken (" " +:+ msg)) = t /\
     find_char " " (" " +:+ msg) = Some 0 /\ substr_from 1 (" " +:+ msg) = msg) /\
  (t <> UNKNOWN -> forall c, is_space c = true -> c <> " "%char ->
     find_char " " payload = None ->
     parseCommand (getFirstToken (command_word t +:+ String c payload)) = t /\
     find_char " " (command_word t +:+ String c payload) = None).
Proof.
  intros msg. split_and!.
  - intros Ht. destruct (command_word_ok t Ht) as [Hw Hne]. split.
    + unfold msg. rewrite str_app_cons, str_app_nil_l, getFirstToken_word by done.
      by apply parseCommand_iff.
    + exists (String.length (command_word t)). split; [by apply find_char_space|].
      rewrite Nat.add_comm. unfold msg. apply substr_from_next.
  - intros m. split.
    + intros Hm u Hu E. rewrite E in Hm. apply Hu. rewrite <- Hm. symmetry.
      by apply parseCommand_iff.
    + intros Hall. destruct (decide (parseCommand (getFirstToken m) = UNKNOWN)) as [?|Hne]; [done|].
      destruct (Hall _ Hne). by apply parseCommand_iff.
  - intros Ht. destruct (command_word_ok t Ht) as [Hw Hne]. split_and!; [|done..].
    unfold getFirstToken, read_token. rewrite skip_spaces_all by done.
    fold (read_token msg). fold (getFirstToken msg). unfold msg.
    rewrite str_app_cons, str_app_nil_l, getFirstToken_word by done. by apply parseCommand_iff.
  - intros Ht c Hc Hne Hp. destruct (command_word_ok t Ht) as [Hw Hwn]. split.
    + rewrite getFirstToken_word by done. by apply parseCommand_iff.
    + apply find_char_none_app; [by apply no_space_find_char|].
      simpl. destruct (Ascii.eqb_spec c " "%char) as [?|_]; [done|]. by rewrite Hp.
Qed.
