(* ===== verification/Protocol.v ===== *)
(** * Message framing (src/server/Protocol.h, src/server/Protocol.cpp)

    [Protocol::sendMessage] writes a 4-byte big-endian length and the bytes;
    [Protocol::recvMessage] reads them back.  Both are translated over the
    [SocketOps] interface, the [n <= 0] tests as written: a short read is
    accepted as a message. *)
From S2P Require Import Prelude Socket.

(** [MAX_MESSAGE_SIZE] *)
Definition MAX_MESSAGE_SIZE : Z := (1024 * 1024)%Z.

(** The memory of [htonl(len)], and [ntohl] of four bytes of memory. *)
Definition htonl_bytes (len : Z) : list byte :=
  [byte_of_Z (len / 2 ^ 24); byte_of_Z (len / 2 ^ 16);
   byte_of_Z (len / 2 ^ 8); byte_of_Z len].

Definition ntohl_bytes (m : list byte) : Z :=
  match m with
  | [b0; b1; b2; b3] =>
      (Z_of_byte b0 * 2 ^ 24 + Z_of_byte b1 * 2 ^ 16 + Z_of_byte b2 * 2 ^ 8 + Z_of_byte b3)%Z
  | _ => 0%Z
  end.

(** What [recv] leaves in a buffer that held [buf]. *)
Definition overwrite (bs buf : list byte) : list byte := bs ++ drop (length bs) buf.

Section protocol.
Context {S : Type} `{!SocketOps S}.

(** [recvAll(fd, buf, len)]; each turn reads at least one byte, so [len] turns
    are enough.  The buffer's bytes are returned. *)
Fixpoint recvAll_loop (fuel len total : nat) (buf : list byte) (s : S)
  : bool * list byte * S :=
  match fuel with
  | O => (Nat.leb len total, buf, s)
  | Datatypes.S fuel' =>
      if Nat.ltb total len then
        let '(r, s1) := sk_recv (len - total) s in
        match r with
        | RecvError _ | RecvBytes [] => (false, buf, s1)
        | RecvBytes bs => recvAll_loop fuel' len (total + length bs) (buf ++ bs) s1
        end
      else (true, buf, s)
  end.

Definition recvAll (len : nat) (s : S) : bool * list byte * S := recvAll_loop len len 0 [] s.

(** [Protocol::recvMessage(fd, out)]: the result, the vector, the socket;
    [between] is what happens to the socket between the two calls of [recv]. *)
Definition recvMessage_around (between : S -> S) (out : list byte) (s : S) : bool * list byte * S :=
  let '(r, s1) := sk_recv 4 s in
  match r with
  | RecvError _ | RecvBytes [] => (false, out, s1)
  | RecvBytes hdr =>
      let len := ntohl_bytes (overwrite hdr [x00; x00; x00; x00]) in
      if ((len =? 0) || (MAX_MESSAGE_SIZE <? len))%Z then (false, out, s1)
      else
        let out1 := resize (Z.to_nat len) x00 out in
        let '(r2, s2) := sk_recv (Z.to_nat len) (between s1) in
        match r2 with
        | RecvError _ | RecvBytes [] => (false, out1, s2)
        | RecvBytes body => (true, overwrite body out1, s2)
        end
  end.

(** Nothing happens in between. *)
Definition recvMessage : list byte -> S -> bool * list byte * S := recvMessage_around (fun s => s).

(** [Protocol::sendMessage(fd, data)]; on a connection the peer has closed, [send] returns -1 here,
    while without [MSG_NOSIGNAL] the signal it raises would end the process. *)
Definition sendMessage (data : list byte) (s : S) : bool * S :=
  let len := u32 (vec_size data) in
  let '(n1, s1) := sk_send (htonl_bytes len) s in
  if negb (n1 =? 4)%Z then (false, s1)
  else
    let '(n2, s2) := sk_send data s1 in
    if negb (n2 =? vec_size data)%Z then (false, s2) else (true, s2).
End protocol.

(** The bytes of one message on the wire. *)
Definition frame (data : list byte) : list byte := htonl_bytes (u32 (vec_size data)) ++ data.

(** A message the protocol can carry. *)
Definition message_ok (data : list byte) : Prop :=
  (1 <= vec_size data <= MAX_MESSAGE_SIZE)%Z.

(** ** Lemmas *)
Lemma ntohl_htonl len : is_u32 len -> ntohl_bytes (htonl_bytes len) = len.
Proof.
  unfold is_u32, ntohl_bytes, htonl_bytes. intros H. rewrite !Z_of_byte_of_Z.
  change 256%Z with (2 ^ 8)%Z.
  rewrite (Z.mod_small (len / 2 ^ 24)) by (split; [apply Z.div_pos; lia|apply Z.div_lt_upper_bound; lia]).
  pose proof (Z.div_mod len (2 ^ 8) ltac:(lia)).
  pose proof (Z.div_mod (len / 2 ^ 8) (2 ^ 8) ltac:(lia)) as H1.
  pose proof (Z.div_mod (len / 2 ^ 16) (2 ^ 8) ltac:(lia)) as H2.
  rewrite Z.div_div in H1 by lia. rewrite Z.div_div in H2 by lia.
  change (2 ^ 8 * 2 ^ 8)%Z with (2 ^ 16)%Z in H1.
  change (2 ^ 16 * 2 ^ 8)%Z with (2 ^ 24)%Z in H2. lia.
Qed.

Lemma ntohl_nonneg m : (0 <= ntohl_bytes m)%Z.
Proof.
  unfold ntohl_bytes. repeat case_match; try lia.
  repeat match goal with |- context [Z_of_byte ?b] =>
    lazymatch goal with H : (0 <= Z_of_byte b < 256)%Z |- _ => fail
    | _ => pose proof (Z_of_byte_range b) end end. lia.
Qed.

Lemma htonl_length len : length (htonl_bytes len) = 4.
Proof. done. Qed.

Lemma overwrite_full bs buf : length buf <= length bs -> overwrite bs buf = bs.
Proof. intros H. unfold overwrite. rewrite drop_ge by done. apply app_nil_r. Qed.

Lemma message_ok_u32 data : message_ok data -> u32 (vec_size data) = vec_size data.
Proof.
  unfold message_ok, MAX_MESSAGE_SIZE. intros H. apply u32_small. unfold is_u32. lia.
Qed.

Section laws.
Context {S : Type} `{!SocketOps S, !SocketLaws S}.

(** Reading when [len] bytes are there. *)
Lemma sk_recv_full len s :
  0 < len -> len <= length (sk_avail s) ->
  exists s', sk_recv len s = (RecvBytes (take len (sk_avail s)), s') /\
    sk_avail s' = drop len (sk_avail s) /\ sk_sent s' = sk_sent s /\ sk_eof s' = sk_eof s.
Proof.
  intros H0 Hl. apply sk_recv_some; [done|]. intros E. rewrite E in Hl. simpl in Hl. lia.
Qed.

Lemma take_nonnil {A} len (l : list A) : 0 < len -> l <> [] -> take len l <> [].
Proof. destruct len, l; done || lia. Qed.

(** [recvMessage] once a whole header is there. *)
Lemma recvMessage_around_header between out s :
  4 <= length (sk_avail s) ->
  let len := ntohl_bytes (take 4 (sk_avail s)) in
  exists s1, sk_avail s1 = drop 4 (sk_avail s) /\ sk_sent s1 = sk_sent s /\
    sk_eof s1 = sk_eof s /\
    recvMessage_around between out s =
      if ((len =? 0) || (MAX_MESSAGE_SIZE <? len))%Z then (false, out, s1)
      else
        let out1 := resize (Z.to_nat len) x00 out in
        let '(r2, s2) := sk_recv (Z.to_nat len) (between s1) in
        match r2 with
        | RecvError _ | RecvBytes [] => (false, out1, s2)
        | RecvBytes body => (true, overwrite body out1, s2)
        end.
Proof.
  intros Hl len. destruct (sk_recv_full 4 s ltac:(lia) Hl) as (s1 & Hr & Ha & Hs & He).
  exists s1. split_and!; try done. unfold recvMessage_around. rewrite Hr.
  assert (length (take 4 (sk_avail s)) = 4) as H4 by (rewrite length_take; lia).
  subst len. destruct (take 4 (sk_avail s)) as [|b bs] eqn:Et; [done|].
  rewrite overwrite_full by (rewrite H4; done). done.
Qed.

Lemma recvMessage_header out s :
  4 <= length (sk_avail s) ->
  let len := ntohl_bytes (take 4 (sk_avail s)) in
  exists s1, sk_avail s1 = drop 4 (sk_avail s) /\ sk_sent s1 = sk_sent s /\
    sk_eof s1 = sk_eof s /\
    recvMessage out s =
      if ((len =? 0) || (MAX_MESSAGE_SIZE <? len))%Z then (false, out, s1)
      else
        let out1 := resize (Z.to_nat len) x00 out in
        let '(r2, s2) := sk_recv (Z.to_nat len) s1 in
        match r2 with
        | RecvError _ | RecvBytes [] => (false, out1, s2)
        | RecvBytes body => (true, overwrite body out1, s2)
        end.
Proof. apply recvMessage_around_header. Qed.

(** What a [recv] gives depends on the unread bytes and the end of file only. *)
Lemma sk_recv_same len s1 s2 :
  0 < len -> sk_avail s1 = sk_avail s2 -> sk_eof s1 = sk_eof s2 ->
  (sk_recv len s1).1 = (sk_recv len s2).1 /\
  sk_avail (sk_recv len s1).2 = sk_avail (sk_recv len s2).2.
Proof.
  intros Hl Ha He. destruct (decide (sk_avail s2 = [])) as [Hn|Hn].
  - rewrite (sk_recv_none len s1), (sk_recv_none len s2) by congruence. by rewrite He.
  - destruct (sk_recv_some len s1 Hl) as (s1' & -> & Ha1 & _); [congruence|].
    destruct (sk_recv_some len s2 Hl Hn) as (s2' & -> & Ha2 & _). simpl. split; congruence.
Qed.

(** The body: [k] of the [len] announced bytes are there. *)
Lemma recv_body len s out1 :
  0 < len -> sk_avail s <> [] -> length out1 = len ->
  exists s2,
    (let '(r2, s2) := sk_recv len s in
     match r2 with
     | RecvError _ | RecvBytes [] => (false, out1, s2)
     | RecvBytes body => (true, overwrite body out1, s2)
     end) = (true, overwrite (take len (sk_avail s)) out1, s2) /\
    sk_avail s2 = drop len (sk_avail s) /\ sk_sent s2 = sk_sent s.
Proof.
  intros H0 Hne Hlen. destruct (sk_recv_some len s H0 Hne) as (s2 & Hr & Ha & Hs & _).
  exists s2. rewrite Hr. pose proof (take_nonnil len _ H0 Hne) as Ht.
  by destruct (take len (sk_avail s)).
Qed.

Lemma recvMessage_frame out s data rest :
  message_ok data -> sk_avail s = frame data ++ rest ->
  exists s', recvMessage out s = (true, data, s') /\ sk_avail s' = rest /\ sk_sent s' = sk_sent s.
Proof.
  intros Hok Ha. pose proof Hok as [Hlo Hhi]. unfold vec_size in Hlo.
  destruct (recvMessage_header out s) as (s1 & Ha1 & Hs1 & _ & ->).
  { rewrite Ha. unfold frame. rewrite !length_app, htonl_length. lia. }
  assert (take 4 (sk_avail s) = htonl_bytes (vec_size data)) as ->.
  { rewrite Ha. unfold frame. by rewrite message_ok_u32. }
  assert (sk_avail s1 = data ++ rest) as Hs1'.
  { rewrite Ha1, Ha. unfold frame. by rewrite <- app_assoc. }
  rewrite ntohl_htonl by (unfold is_u32, MAX_MESSAGE_SIZE, vec_size in *; lia).
  destruct ((vec_size data =? 0) || (MAX_MESSAGE_SIZE <? vec_size data))%Z eqn:E.
  { apply orb_true_iff in E as [E|E]; bool_to_prop; unfold vec_size in *; lia. }
  unfold vec_size. rewrite Nat2Z.id. simpl.
  destruct (recv_body (length data) s1 (resize (length data) x00 out)) as (s2 & -> & Ha2 & Hs2).
  - lia.
  - rewrite Hs1'. destruct data; [simpl in Hlo; lia|done].
  - apply length_resize.
  - exists s2. rewrite Hs1' in *. rewrite take_app_length in *. rewrite drop_app_length in Ha2.
    rewrite overwrite_full by (rewrite length_resize; lia). split; [done|]. split; [done|congruence].
Qed.

(** What [sendMessage] wrote. *)
Lemma sendMessage_spec data s ok s' :
  sendMessage data s = (ok, s') ->
  sk_avail s' = sk_avail s /\ sk_eof s' = sk_eof s /\
  if ok then sk_sent s' = sk_sent s ++ frame data
  else exists k, k <= length (frame data) /\ (data <> [] -> k < length (frame data)) /\
         sk_sent s' = sk_sent s ++ take k (frame data).
Proof.
  unfold sendMessage, frame. set (h := htonl_bytes _). intros H.
  assert (length h = 4) as Hh by done.
  destruct (sk_send h s) as [n1 s1] eqn:E1.
  destruct (sk_send_spec _ _ _ _ E1) as (Ha1 & He1 & Hs1).
  destruct (n1 =? 4)%Z eqn:E4; simpl in H; bool_to_prop; subst.
  - assert (sk_sent s1 = sk_sent s ++ h) as Hs1'.
    { destruct Hs1 as [[? _]|[_ Hs1]]; [lia|]. by rewrite Hs1, take_ge by (rewrite Hh; lia). }
    destruct (sk_send data s1) as [n2 s2] eqn:E2.
    destruct (sk_send_spec _ _ _ _ E2) as (Ha2 & He2 & Hs2).
    destruct (n2 =? vec_size data)%Z eqn:En; simpl in H; bool_to_prop; simplify_eq.
    + split_and!; [congruence..|]. destruct Hs2 as [[Hn _]|[_ Hs2]].
      { unfold vec_size in Hn. lia. }
      rewrite Hs2, Hs1', take_ge by (unfold vec_size; lia). by rewrite app_assoc.
    + split_and!; [congruence..|]. rewrite length_app, Hh. destruct Hs2 as [[_ Hs2]|[Hn Hs2]].
      * exists 4. rewrite Hs2, Hs1'. split_and!; [lia| |by rewrite take_app_length'].
        destruct data; [done|simpl; lia].
      * exists (4 + Z.to_nat n2). unfold vec_size in En. split_and!; [lia|lia|].
        rewrite Hs2, Hs1', <- Hh, take_app_add. by rewrite app_assoc.
  - injection H as <- <-. split_and!; [congruence..|]. rewrite length_app, Hh.
    destruct Hs1 as [[_ Hs1]|[Hn Hs1]].
    + exists 0. split_and!; [lia|lia|]. rewrite Hs1. by rewrite take_0, app_nil_r.
    + exists (Z.to_nat n1). split_and!; [lia|lia|]. rewrite Hs1, take_app_le by lia. done.
Qed.

(** [recvAll] goes on until the buffer is full. *)
Lemma recvAll_loop_spec fuel len total buf s :
  total <= len -> len - total <= fuel -> length buf = total ->
  match recvAll_loop fuel len total buf s with
  | (true, buf', s') => len - total <= length (sk_avail s) /\
      buf' = buf ++ take (len - total) (sk_avail s) /\
      sk_avail s' = drop (len - total) (sk_avail s)
  | (false, _, _) => length (sk_avail s) < len - total
  end.
Proof.
  revert total buf s. induction fuel as [|fuel IH]; intros total buf s Ht Hf Hb; simpl.
  { replace total with len in * by lia. rewrite Nat.leb_refl, Nat.sub_diag. simpl.
    rewrite drop_0, take_0, app_nil_r. split_and!; [lia|done|done]. }
  destruct (Nat.ltb total len) eqn:E; bool_to_prop; last first.
  { replace total with len in * by lia. rewrite Nat.sub_diag. simpl.
    rewrite drop_0, take_0, app_nil_r. split_and!; [lia|done|done]. }
  destruct (decide (sk_avail s = [])) as [He|Hne].
  { rewrite sk_recv_none by (done || lia). rewrite He. destruct (sk_eof s); simpl; lia. }
  destruct (sk_recv_some (len - total) s ltac:(lia) Hne) as (s1 & Hr & Ha & _ & _).
  rewrite Hr. pose proof (take_nonnil (len - total) _ ltac:(lia) Hne) as Htk.
  destruct (take (len - total) (sk_avail s)) as [|b bs] eqn:Et; [done|]. rewrite <- Et.
  assert (length (take (len - total) (sk_avail s)) = Nat.min (len - total) (length (sk_avail s)))
    as Hl by apply length_take.
  assert (0 < length (sk_avail s)) by (destruct (sk_avail s); [done|simpl; lia]).
  specialize (IH (total + length (take (len - total) (sk_avail s)))
                (buf ++ take (len - total) (sk_avail s)) s1).
  rewrite Ha, length_drop, length_app in IH. rewrite Hl in IH at 1 2 3 4.
  destruct (recvAll_loop _ _ _ _ _) as [[[|] buf'] s']; rewrite Hl in IH.
  - destruct IH as (H1 & -> & ->); [lia..|].
    replace (len - (total + _)) with 0 by lia. rewrite take_0, drop_0, app_nil_r.
    split_and!; [lia|done|done].
  - specialize (IH ltac:(lia) ltac:(lia) ltac:(lia)). lia.
Qed.
End laws.

(** The concrete stream: a message that fits the send buffer is taken whole. *)
Lemma nb_sendMessage data i e out room :
  length (frame data) <= room ->
  sendMessage data (mkStream i e out room)
  = (true, mkStream i e (out ++ frame data) (room - length (frame data))).
Proof.
  unfold frame. rewrite length_app, htonl_length. intros Hl.
  unfold sendMessage. set (h := htonl_bytes _). assert (length h = 4) as Hh by done.
  simpl. unfold nb_send at 1. rewrite Hh. cbn [nb_room nb_in nb_eof nb_out].
  rewrite (Nat.min_l 4 room) by lia. rewrite bool_decide_false by lia.
  change (Z.of_nat 4 =? 4)%Z with true. cbn [negb].
  rewrite (take_ge h) by lia. unfold nb_send. cbn [nb_room nb_in nb_eof nb_out].
  rewrite (Nat.min_l (length data) (room - 4)) by lia.
  rewrite bool_decide_false by (intros [E%length_zero_iff_nil ?]; done).
  unfold vec_size. rewrite Z.eqb_refl. cbn [negb]. rewrite take_ge by lia.
  rewrite <- app_assoc. do 2 f_equal. lia.
Qed.

(** Reading frees no room in the send buffer. *)
Lemma recvMessage_room data s ok data' s' :
  recvMessage data s = (ok, data', s') -> nb_room s' = nb_room s.
Proof.
  assert (forall len s r s', nb_recv len s = (r, s') -> nb_room s' = nb_room s) as Hr.
  { clear. intros len s r s'. unfold nb_recv. case_match; by intros [= <- <-]. }
  unfold recvMessage, recvMessage_around. destruct (sk_recv 4 s) as [r s1] eqn:E1. apply Hr in E1.
  destruct r as [[|b hdr]|again]; [by intros [= <- <- <-]| |by intros [= <- <- <-]].
  case_match; [by intros [= <- <- <-]|].
  destruct (sk_recv _ s1) as [r2 s2] eqn:E2. apply Hr in E2.
  destruct r2 as [[|b2 body]|again2]; intros [= <- <- <-]; congruence.
Qed.

(** ** The theorems *)

(** C31. Framing round trip: what a successful [sendMessage] put on the wire is
    read back by one [recvMessage] as the same bytes, whatever the receiver's
    vector held before, and the bytes that follow stay in the socket. *)
Theorem frame_roundtrip {S R : Type} `{!SocketOps S, !SocketLaws S, !SocketOps R, !SocketLaws R}
    data (s s' : S) (r : R) out rest :
  message_ok data -> sendMessage data s = (true, s') ->
  sk_avail r = drop (length (sk_sent s)) (sk_sent s') ++ rest ->
  exists r', recvMessage out r = (true, data, r') /\ sk_avail r' = rest.
Proof.
  intros Hok Hs Hr. destruct (sendMessage_spec _ _ _ _ Hs) as (_ & _ & Hsent).
  rewrite Hsent, drop_app_length in Hr.
  destruct (recvMessage_frame out r data rest Hok Hr) as (r' & ? & ? & _). eauto.
Qed.

(** Length check: a header that announces no bytes, or more than
    [MAX_MESSAGE_SIZE], is refused after its four bytes are consumed; the
    vector is not touched, so no memory is allocated for it. *)
Theorem recvMessage_rejects_length {S : Type} `{!SocketOps S, !SocketLaws S} out (s : S) len rest :
  is_u32 len -> (len = 0 \/ MAX_MESSAGE_SIZE < len)%Z ->
  sk_avail s = htonl_bytes len ++ rest ->
  exists s', recvMessage out s = (false, out, s') /\ sk_avail s' = rest.
Proof.
  intros Hu Hbad Ha.
  destruct (recvMessage_header out s) as (s1 & Ha1 & _ & _ & ->).
  { rewrite Ha, length_app, htonl_length. lia. }
  assert (take 4 (sk_avail s) = htonl_bytes len) as -> by by rewrite Ha.
  rewrite ntohl_htonl by done. exists s1. split; [|by rewrite Ha1, Ha].
  rewrite (proj2 (orb_true_iff _ _)); [done|]. rewrite Z.eqb_eq, Z.ltb_lt. lia.
Qed.

(** C33. Short reads are taken for messages: when only part of the announced body
    has arrived, [recvMessage] succeeds with that part followed by the bytes its
    vector held before (zeros where it held none), and the rest of the body is
    left to be read as the next header.  [recvAll], which the file defines and
    does not call, refuses the same read. *)
Theorem recvMessage_short_read {S : Type} `{!SocketOps S, !SocketLaws S} out (s : S) len body :
  (1 <= len <= MAX_MESSAGE_SIZE)%Z ->
  body <> [] -> (vec_size body < len)%Z ->
  sk_avail s = htonl_bytes len ++ body ->
  (exists s', recvMessage out s
    = (true, body ++ drop (length body) (resize (Z.to_nat len) x00 out), s') /\
    sk_avail s' = []) /\
  (forall s1 : S, sk_avail s1 = body ->
     (recvAll (Z.to_nat len) s1).1.1 = false).
Proof.
  intros Hlen Hne Hshort Ha. unfold vec_size, MAX_MESSAGE_SIZE in *. split.
  - destruct (recvMessage_header out s) as (s1 & Ha1 & _ & _ & ->).
    { rewrite Ha, length_app, htonl_length. lia. }
    assert (take 4 (sk_avail s) = htonl_bytes len) as -> by by rewrite Ha.
    assert (sk_avail s1 = body) as Hs1 by by rewrite Ha1, Ha.
    rewrite ntohl_htonl by (unfold is_u32; lia).
    destruct ((len =? 0) || (MAX_MESSAGE_SIZE <? len))%Z eqn:E.
    { unfold MAX_MESSAGE_SIZE in E. apply orb_true_iff in E as [E|E]; bool_to_prop; lia. }
    destruct (recv_body (Z.to_nat len) s1 (resize (Z.to_nat len) x00 out)) as (s2 & Hr & Ha2 & _).
    + lia.
    + by rewrite Hs1.
    + apply length_resize.
    + exists s2. rewrite Hs1 in *. rewrite take_ge in Hr by lia. rewrite drop_ge in Ha2 by lia.
      split; [exact Hr|done].
  - intros s1 Hs1.
    pose proof (recvAll_loop_spec (Z.to_nat len) (Z.to_nat len) 0 [] s1 ltac:(lia) ltac:(lia) eq_refl) as Hspec.
    unfold recvAll. destruct (recvAll_loop _ _ _ _ _) as [[[|] b] s2]; [|done].
    rewrite Hs1 in Hspec. lia.
Qed.

(** C32. A message that is read in two calls while bytes arrive: with a whole header there, the
    bytes that arrive before the body is read might as well have been there from
    the start; with nothing there, the read fails whatever arrives; but a header that
    is there in part is filled out with zeros, and the bytes that arrive, its own last
    ones first, are taken for the body. *)
Theorem recvMessage_interleaved {S : Type} `{!SocketOps S, !SocketLaws S} between more out (s s0 : S) :
  sk_avail s0 = sk_avail s ++ more ->
  (forall s1, sk_eof s1 = sk_eof s ->
     sk_avail (between s1) = sk_avail s1 ++ more /\ sk_eof (between s1) = sk_eof s0) ->
  let r := recvMessage_around between out s in
  (4 <= length (sk_avail s) ->
     r.1 = (recvMessage out s0).1 /\
     (r.1.1 = true -> sk_avail r.2 = sk_avail (recvMessage out s0).2)) /\
  (sk_avail s = [] -> r = (false, out, s)) /\
  (0 < length (sk_avail s) < 4 -> more <> [] ->
     let len := ntohl_bytes (overwrite (sk_avail s) [x00; x00; x00; x00]) in
     (1 <= len <= MAX_MESSAGE_SIZE)%Z ->
     r.1 = (true, overwrite (take (Z.to_nat len) more) (resize (Z.to_nat len) x00 out)) /\
     sk_avail r.2 = drop (Z.to_nat len) more).
Proof.
  intros Hs0 Hb r. split_and!.
  - intros H4. destruct (recvMessage_around_header between out s H4) as (s1 & Ha1 & _ & He1 & Hr).
    destruct (recvMessage_header out s0) as (s2 & Ha2 & _ & He2 & Hr2);
      [rewrite Hs0, length_app; lia|].
    assert (take 4 (sk_avail s0) = take 4 (sk_avail s)) as Ht by (by rewrite Hs0, take_app_le).
    subst r. rewrite Hr, Hr2, Ht. destruct (_ || _)%bool eqn:E; [done|].
    apply orb_false_iff in E as [E%Z.eqb_neq _].
    destruct (Hb s1 He1) as [Hab Heb].
    assert (0 < Z.to_nat (ntohl_bytes (take 4 (sk_avail s)))) as Hpos
      by (pose proof (ntohl_nonneg (take 4 (sk_avail s))); lia).
    destruct (sk_recv_same _ (between s1) s2 Hpos) as [Hsame Hav].
    { rewrite Hab, Ha1, Ha2, Hs0. by rewrite drop_app_le. }
    { by rewrite Heb, He2. }
    revert Hsame Hav. cbv zeta. generalize (sk_recv (Z.to_nat (ntohl_bytes (take 4 (sk_avail s)))) s2).
    generalize (sk_recv (Z.to_nat (ntohl_bytes (take 4 (sk_avail s)))) (between s1)).
    intros [r1 s1'] [r2 s2']. cbn [fst snd]. intros -> Hav.
    by destruct r2 as [[|b body]|again].
  - intros Hn. subst r. unfold recvMessage_around. rewrite sk_recv_none by (done || lia).
    by destruct (sk_eof s).
  - intros [H0 H4] Hmore len Hlen. subst r. unfold recvMessage_around.
    destruct (sk_recv_some 4 s) as (s1 & -> & Ha1 & _ & He1); [lia|by intros E; rewrite E in H0; simpl in H0; lia|].
    rewrite take_ge by lia. rewrite drop_ge in Ha1 by lia.
    destruct (sk_avail s) as [|b hdr] eqn:Ea; [simpl in H0; lia|]. fold len.
    destruct ((len =? 0) || (MAX_MESSAGE_SIZE <? len))%Z eqn:E.
    { apply orb_true_iff in E as [E|E]; bool_to_prop; lia. }
    destruct (Hb s1 He1) as [Hab _]. rewrite Ha1 in Hab. cbn [app] in Hab.
    destruct (recv_body (Z.to_nat len) (between s1) (resize (Z.to_nat len) x00 out)) as (s2 & Hr & Ha2 & _);
      [lia|by rewrite Hab|apply length_resize|].
    rewrite Hab in Hr, Ha2. cbv zeta. rewrite Hr. by split.
Qed.

(** What [sendMessage] leaves on the wire: on success exactly one frame; on
    failure a prefix of the frame, a proper one unless the message is empty. *)
Theorem sendMessage_wire {S : Type} `{!SocketOps S, !SocketLaws S} data (s : S) ok s' :
  sendMessage data s = (ok, s') ->
  if ok then sk_sent s' = sk_sent s ++ frame data
  else exists k, k <= length (frame data) /\ (data <> [] -> k < length (frame data)) /\
         sk_sent s' = sk_sent s ++ take k (frame data).
Proof. intros H. by destruct (sendMessage_spec _ _ _ _ H) as (_ & _ & ?). Qed.

(** ** Witnesses *)
Module Witness.

Definition empty_stream : nb_stream := mkStream [] false [] 100.
Definition pong : list byte := chars "PONG".

Lemma frame_roundtrip_witness :
  exists r', recvMessage [x01; x02] (mkStream (frame pong ++ [x07]) false [] 100)
             = (true, pong, r') /\ sk_avail r' = [x07].
Proof.
  apply (frame_roundtrip pong empty_stream (sendMessage pong empty_stream).2).
  - vm_compute. split; discriminate.
  - vm_compute. reflexivity.
  - vm_compute. reflexivity.
Defined.

Lemma recvMessage_rejects_length_witness :
  exists s', recvMessage [] (mkStream (htonl_bytes 1048577 ++ pong) false [] 100)
             = (false, [], s') /\ sk_avail s' = pong.
Proof.
  apply (recvMessage_rejects_length [] (mkStream (htonl_bytes 1048577 ++ pong) false [] 100) 1048577).
  - unfold is_u32. lia.
  - right. vm_compute. reflexivity.
  - reflexivity.
Defined.

(** The previous message was ["GET secret"]; of ["GET abcdef"] only ["GET a"]
    has arrived: the server acts on ["GET aecret"]. *)
Lemma recvMessage_short_read_witness :
  exists s', recvMessage (chars "GET secret") (mkStream (htonl_bytes 10 ++ chars "GET a") false [] 100)
             = (true, chars "GET aecret", s') /\ sk_avail s' = [].
Proof.
  destruct (recvMessage_short_read (chars "GET secret")
    (mkStream (htonl_bytes 10 ++ chars "GET a") false [] 100) 10 (chars "GET a")) as [(s' & H1 & H2) _].
  - vm_compute. split; discriminate.
  - discriminate.
  - vm_compute. reflexivity.
  - reflexivity.
  - exists s'. split; [|exact H2]. rewrite H1. vm_compute. reflexivity.
Defined.

(** Of the header that announces 300 bytes three have arrived: they are read as 256, and
    the message begins with the header's last byte. *)
Definition arrive (more : list byte) (s : nb_stream) : nb_stream :=
  mkStream (nb_in s ++ more) (nb_eof s) (nb_out s) (nb_room s).

Lemma recvMessage_interleaved_witness :
  let s := mkStream [x00; x00; x01] false [] 100 in
  exists body s', recvMessage_around (arrive (x2c :: chars "STORE")) [] s = (true, body, s') /\
    take 6 body = x2c :: chars "STORE" /\ length body = 256.
Proof.
  intros s.
  destruct (recvMessage_interleaved (arrive (x2c :: chars "STORE")) (x2c :: chars "STORE") [] s
    (arrive (x2c :: chars "STORE") s)) as (_ & _ & H).
  - reflexivity.
  - intros s1 He. split; [reflexivity|exact He].
  - destruct H as [Hr _].
    + simpl. lia.
    + discriminate.
    + vm_compute. split; discriminate.
    + destruct (recvMessage_around _ [] s) as [[ok body] s']. cbn [fst snd] in Hr.
      injection Hr as -> ->. exists (overwrite (take 256 (x2c :: chars "STORE")) (resize 256 x00 [])), s'.
      split; [reflexivity|]. split; reflexivity.
Defined.

Lemma sendMessage_wire_witness :
  exists k, k <= 8 /\ (pong <> [] -> k < 8) /\
    nb_out (sendMessage pong (mkStream [] false [] 6)).2 = take k (frame pong).
Proof.
  destruct (sendMessage_wire pong (mkStream [] false [] 6) false
    (sendMessage pong (mkStream [] false [] 6)).2) as (k & H1 & H2 & H3).
  - vm_compute. reflexivity.
  - exists k. split; [exact H1|]. split; [exact H2|]. exact H3.
Defined.
End Witness.
