(* ===== verification/Router.v ===== *)
(** * Sharding (src/cluster/NodeInfo.h, ShardRouter.h, ShardRouter.cpp)

    Rendezvous hashing over the healthy nodes.  [std::hash<std::string>] is the
    implementation's own, so it is a variable of the section.  A returned
    reference to no node ([*best_node] with [best_node] null) is undefined
    behaviour, modelled as [None]. *)
From S2P Require Import Prelude.

Record NodeInfo := mkNodeInfo {
  ni_id : string;
  ni_host : string;
  ni_port : Z;
  ni_healthy : bool;
}.

#[export] Instance NodeInfo_eq_dec : EqDecision NodeInfo.
Proof. solve_decision. Defined.

(** [isNodeHealthy(node)] *)
Definition isNodeHealthy (node : NodeInfo) : bool := ni_healthy node.

(** [insertNode(node)]: [m_nodes] is the argument and result. *)
Fixpoint known_id (id : string) (nodes : list NodeInfo) : bool :=
  match nodes with
  | [] => false
  | n :: rest => if bool_decide (ni_id n = id) then true else known_id id rest
  end.

Definition insertNode (node : NodeInfo) (nodes : list NodeInfo) : bool * list NodeInfo :=
  if known_id (ni_id node) nodes then (false, nodes) else (true, nodes ++ [node]).

(** [getNodeCount()]: the [size_t] converted to [int]. *)
Definition getNodeCount (nodes : list NodeInfo) : Z := i32 (vec_size nodes).

Section pick.
Variable hash : string -> Z.

Definition score (key : string) (node : NodeInfo) : Z := hash (key +:+ "#" +:+ ni_id node).

(** One turn of the loop of [pickNode]: [best_score] and [best_node]. *)
Definition pick_turn (key : string) (best : option (Z * NodeInfo)) (node : NodeInfo)
  : option (Z * NodeInfo) :=
  if negb (isNodeHealthy node) then best
  else
    let sc := score key node in
    match best with
    | None => Some (sc, node)
    | Some (best_score, _) => if (best_score <? sc)%Z then Some (sc, node) else best
    end.

(** [pickNode(key)] *)
Definition pickNode (nodes : list NodeInfo) (key : string) : option NodeInfo :=
  snd <$> foldl (pick_turn key) None nodes.
End pick.

(** ** Lemmas: insertion *)
Lemma known_id_spec id nodes : known_id id nodes = true <-> id ∈ ni_id <$> nodes.
Proof.
  induction nodes as [|n nodes IH]; simpl.
  - split; [done|by intros ?%elem_of_nil].
  - case_bool_decide as E; rewrite elem_of_cons; naive_solver.
Qed.

(** ** Lemmas: the pick *)
Section pick_lemmas.
Variable hash : string -> Z.
Variable key : string.

Local Notation sc := (score hash key).
Local Notation best := (foldl (pick_turn hash key) None).

(** [n] is the first of the healthy nodes with the largest score. *)
Definition picked (nodes : list NodeInfo) (n : NodeInfo) : Prop :=
  exists l1 l2, nodes = l1 ++ n :: l2 /\ ni_healthy n = true /\
    (forall m, m ∈ l1 -> ni_healthy m = true -> (sc m < sc n)%Z) /\
    (forall m, m ∈ l2 -> ni_healthy m = true -> (sc m <= sc n)%Z).

Lemma picked_snoc nodes x n :
  picked (nodes ++ [x]) n <->
  (picked nodes n /\ (ni_healthy x = true -> (sc x <= sc n)%Z)) \/
  (n = x /\ ni_healthy x = true /\
   forall m, m ∈ nodes -> ni_healthy m = true -> (sc m < sc x)%Z).
Proof.
  split.
  - intros (l1 & l2 & E & Hh & H1 & H2).
    destruct l2 as [|y l2 _] using rev_ind.
    + apply app_inj_tail in E as [-> ->]. by right.
    + left. rewrite app_comm_cons, app_assoc in E. apply app_inj_tail in E as [-> ->]. split.
      * exists l1, l2. split_and!; try done. intros m Hm. apply H2. set_solver.
      * apply H2. set_solver.
  - intros [[(l1 & l2 & -> & Hh & H1 & H2) Hx]|(-> & Hh & H)].
    + exists l1, (l2 ++ [x]). rewrite <- app_assoc. split_and!; try done.
      intros m [Hm| ->%list_elem_of_singleton]%elem_of_app Hhm; [by apply H2|by apply Hx].
    + exists nodes, []. split_and!; try done. by intros m ?%elem_of_nil.
Qed.

Lemma picked_best nodes :
  (forall s n, best nodes = Some (s, n) <-> s = sc n /\ picked nodes n) /\
  (best nodes = None <-> forall m, m ∈ nodes -> ni_healthy m = false).
Proof.
  induction nodes as [|x nodes [IH1 IH2]] using rev_ind.
  { split; [|by split; [intros _ m ?%elem_of_nil|]]. intros s n. split; [done|].
    intros (_ & l1 & l2 & E & _). by destruct l1. }
  rewrite foldl_snoc. unfold pick_turn at 1 3, isNodeHealthy.
  destruct (ni_healthy x) eqn:Hx; simpl; last first.
  { split.
    - intros s n. rewrite IH1, picked_snoc. split.
      + intros [-> Hp]. split; [done|]. left. split; [done|]. congruence.
      + intros (-> & [[Hp _]|(-> & Hh & _)]); [done|congruence].
    - rewrite IH2. split; intros H m Hm; [|apply H; set_solver].
      apply elem_of_app in Hm as [Hm| ->%list_elem_of_singleton]; [by apply H|done]. }
  destruct (best nodes) as [[s0 n0]|] eqn:Eb.
  - destruct (proj1 (IH1 s0 n0) eq_refl) as [-> Hp0].
    assert (forall n, picked nodes n <-> n = n0) as Hun.
    { intros n. split; [|by intros ->].
      intros Hn. assert (Some (sc n0, n0) = Some (sc n, n)) as H by by apply IH1. by simplify_eq. }
    assert (forall m, m ∈ nodes -> ni_healthy m = true -> (sc m <= sc n0)%Z) as Hmax.
    { destruct Hp0 as (l1 & l2 & -> & _ & H1 & H2). intros m Hm Hh.
      apply elem_of_app in Hm as [Hm|[->|Hm]%elem_of_cons]; [|lia|by apply H2].
      specialize (H1 m Hm Hh). lia. }
    assert (n0 ∈ nodes /\ ni_healthy n0 = true) as [Hin0 Hh0].
    { destruct Hp0 as (l1 & l2 & -> & ? & _). split; [set_solver|done]. }
    split.
    + intros s n. rewrite picked_snoc, Hun.
      destruct (sc n0 <? sc x)%Z eqn:E; bool_to_prop; split.
      * intros [= <- <-]. split; [done|]. right. split_and!; try done.
        intros m Hm Hh. specialize (Hmax m Hm Hh). lia.
      * intros (-> & [[-> Hle]|(-> & _ & _)]); [specialize (Hle Hx); lia|done].
      * intros [= <- <-]. split; [done|]. left. split; [done|lia].
      * intros (-> & [[-> _]|(-> & _ & Hlt)]); [done|]. specialize (Hlt n0 Hin0 Hh0). lia.
    + destruct (sc n0 <? sc x)%Z; (split; [done|]); intros H;
        exfalso; specialize (H x ltac:(set_solver)); congruence.
  - pose proof (proj1 IH2 eq_refl) as Hnone. split.
    + intros s n. rewrite picked_snoc. split.
      * intros [= <- <-]. split; [done|]. right. split_and!; try done.
        intros m Hm Hh. rewrite Hnone in Hh by done. done.
      * intros (-> & [[(l1 & l2 & -> & Hh & _) _]|(-> & _)]); [|done].
        rewrite Hnone in Hh by set_solver. done.
    + split; [done|]. intros H. specialize (H x ltac:(set_solver)). congruence.
Qed.

Lemma pickNode_picked nodes n : pickNode hash nodes key = Some n <-> picked nodes n.
Proof.
  unfold pickNode. destruct (picked_best nodes) as [H1 _].
  rewrite fmap_Some. split.
  - intros ([s m] & Hb & ->). by apply H1 in Hb as [_ ?].
  - intros Hp. exists (sc n, n). split; [by apply H1|done].
Qed.

Lemma pickNode_None nodes :
  pickNode hash nodes key = None <-> forall m, m ∈ nodes -> ni_healthy m = false.
Proof.
  unfold pickNode. rewrite fmap_None. apply picked_best.
Qed.

Lemma picked_max nodes n m :
  picked nodes n -> m ∈ nodes -> ni_healthy m = true -> (sc m <= sc n)%Z.
Proof.
  intros (l1 & l2 & -> & _ & H1 & H2) Hm Hh.
  apply elem_of_app in Hm as [Hm|[->|Hm]%elem_of_cons]; [|lia|by apply H2].
  specialize (H1 m Hm Hh). lia.
Qed.

Lemma picked_in nodes n : picked nodes n -> n ∈ nodes /\ ni_healthy n = true.
Proof. intros (l1 & l2 & -> & ? & _). split; [set_solver|done]. Qed.

Lemma picked_remove l1 x l2 n :
  picked (l1 ++ x :: l2) n -> n <> x -> picked (l1 ++ l2) n.
Proof.
  intros (k1 & k2 & E & Hh & H1 & H2) Hne.
  apply app_eq_inv in E as [(k & Ek & E)|(k & Ek & E)]; subst.
  - destruct k as [|y k]; simpl in E; injection E as E1 E2; subst.
    + done.
    + exists k1, (k ++ l2). rewrite <- app_assoc. split_and!; try done.
      intros m Hm. apply H2. set_solver.
  - destruct k as [|y k]; simpl in E; injection E as E1 E2; subst.
    + done.
    + exists (l1 ++ k), k2. rewrite <- app_assoc. split_and!; try done.
      intros m Hm. apply H1. set_solver.
Qed.
End pick_lemmas.

(** ** The theorems *)

(** C34. [pickNode] is rendezvous hashing: the node it returns is one of the
    router's, healthy, has the largest score [hash(key + "#" + id)] among the
    healthy nodes and is the first with that score; it fails to return a node
    (and dereferences a null pointer) exactly when no node is healthy. *)
Theorem pickNode_spec hash nodes key :
  (forall n, pickNode hash nodes key = Some n ->
     n ∈ nodes /\ ni_healthy n = true /\
     (forall m, m ∈ nodes -> ni_healthy m = true ->
        (score hash key m <= score hash key n)%Z) /\
     exists l1 l2, nodes = l1 ++ n :: l2 /\
       forall m, m ∈ l1 -> ni_healthy m = true -> (score hash key m < score hash key n)%Z) /\
  (pickNode hash nodes key = None <-> forall m, m ∈ nodes -> ni_healthy m = false).
Proof.
  split; [|apply pickNode_None]. intros n Hn%pickNode_picked.
  destruct (picked_in _ _ _ _ Hn). split_and!; try done.
  - intros m. by apply picked_max.
  - destruct Hn as (l1 & l2 & E & _ & H1 & _). by exists l1, l2.
Qed.

(** C35. Minimal disruption: when a node leaves, only the keys it held move;
    when [insertNode] adds one, a key moves to the new node or not at all. *)
Theorem pickNode_minimal_disruption hash key :
  (forall l1 x l2 n, pickNode hash (l1 ++ x :: l2) key = Some n -> n <> x ->
     pickNode hash (l1 ++ l2) key = Some n) /\
  (forall x nodes nodes' n, insertNode x nodes = (true, nodes') ->
     pickNode hash nodes' key = Some n -> n = x \/ pickNode hash nodes key = Some n).
Proof.
  split.
  - intros l1 x l2 n Hn%pickNode_picked Hne. apply pickNode_picked. by eapply picked_remove.
  - intros x nodes nodes' n. unfold insertNode. case_match; [done|].
    intros [= <-] Hn%pickNode_picked. apply picked_snoc in Hn as [[Hn _]|(-> & _)]; [|by left].
    right. by apply pickNode_picked.
Qed.

(** Agreement: two servers that hold the same nodes in different orders route
    every key to the same node, as long as no two healthy nodes have the same
    score for it. *)
Theorem pickNode_order_independent hash key nodes nodes' :
  nodes ≡ₚ nodes' ->
  (forall a b, a ∈ nodes -> b ∈ nodes -> ni_healthy a = true -> ni_healthy b = true ->
     score hash key a = score hash key b -> a = b) ->
  pickNode hash nodes key = pickNode hash nodes' key.
Proof.
  intros Hp Hinj. destruct (pickNode hash nodes key) as [n|] eqn:E; symmetry.
  - apply pickNode_picked in E as Hn. destruct (picked_in _ _ _ _ Hn) as [Hin Hh].
    destruct (pickNode hash nodes' key) as [m|] eqn:E'.
    + apply pickNode_picked in E' as Hm. destruct (picked_in _ _ _ _ Hm) as [Hin' Hh'].
      rewrite <- Hp in Hin'. f_equal. apply Hinj; [done..|].
      pose proof (picked_max _ _ _ _ _ Hn Hin' Hh').
      rewrite Hp in Hin. pose proof (picked_max _ _ _ _ _ Hm Hin Hh). lia.
    + rewrite pickNode_None in E'. rewrite Hp in Hin. rewrite E' in Hh by done. done.
  - apply pickNode_None. rewrite pickNode_None in E. intros m Hm. apply E. by rewrite Hp.
Qed.

(** [insertNode] keeps the ids distinct: it appends a node with a new id and
    refuses, without a change, a known one. *)
Theorem insertNode_distinct node nodes :
  NoDup (ni_id <$> nodes) ->
  NoDup (ni_id <$> (insertNode node nodes).2) /\
  ((insertNode node nodes).1 = true <-> ni_id node ∉ ni_id <$> nodes) /\
  (insertNode node nodes).2
    = (if (insertNode node nodes).1 then nodes ++ [node] else nodes).
Proof.
  intros Hnd. unfold insertNode. destruct (known_id (ni_id node) nodes) eqn:E; simpl.
  - apply known_id_spec in E. split_and!; done.
  - assert (ni_id node ∉ ni_id <$> nodes) as Hn.
    { intros Hin. apply known_id_spec in Hin. congruence. }
    split_and!; try done. rewrite fmap_app. apply NoDup_app. split_and!; [done| |].
    + intros x Hx ->%list_elem_of_singleton. done.
    + apply NoDup_singleton.
Qed.

(** ** Witnesses *)
Module Witness.

(** A stand-in for [std::hash]: the length of the string. *)
Definition length_hash (s : string) : Z := Z.of_nat (String.length s).

Definition n1 := mkNodeInfo "node1" "127.0.0.1" 8080 true.
Definition n2 := mkNodeInfo "node22" "127.0.0.1" 8081 true.
Definition n3 := mkNodeInfo "node333" "127.0.0.1" 8082 false.

Lemma pickNode_order_independent_witness :
  pickNode length_hash [n1; n2; n3] "img" = pickNode length_hash [n3; n2; n1] "img" /\
  pickNode length_hash [n1; n2; n3] "img" = Some n2.
Proof.
  split; [|vm_compute; reflexivity].
  apply (pickNode_order_independent length_hash "img").
  - exact (Permutation_rev [n1; n2; n3]).
  - intros a b Ha Hb Hha Hhb Hs.
    repeat (apply elem_of_cons in Ha as [->|Ha]); [..|by apply elem_of_nil in Ha];
      (repeat (apply elem_of_cons in Hb as [->|Hb]); [..|by apply elem_of_nil in Hb]);
      try reflexivity; try discriminate; vm_compute in Hs; discriminate.
Defined.

Lemma insertNode_distinct_witness :
  NoDup (ni_id <$> (insertNode n2 [n1]).2) /\ (insertNode n2 [n1]).2 = [n1; n2].
Proof.
  split; [|vm_compute; reflexivity].
  apply (insertNode_distinct n2 [n1]). apply NoDup_singleton.
Defined.
End Witness.
