(* ===== verification/ConnPool.v ===== *)
(** * The connection pool of the Raft node
    (src/raft/RaftConnectionPool.h, src/raft/RaftConnectionPool.cpp)

    The pool's two maps, its operations as functions from the pool and the
    operating system to their new states (each operation runs under [m_mutex]),
    and who owns a descriptor: the pool, a caller that was lent it, or nobody
    here.  The operating system is the interface [PoolOS]; what is relied on
    from it is [PoolOSLaws]. *)
From S2P Require Import Prelude Socket.

(** ** The operating system *)
Class PoolOS (O : Type) := {
  os_socket : O -> Z * O;
  os_pton : string -> bool;               (* inet_pton(AF_INET, host) > 0 *)
  os_connect : Z -> string -> Z -> O -> bool * O;   (* connect(...) == 0 *)
  os_close : Z -> O -> O;
  os_peek : Z -> O -> recv_result;        (* recv of 1 byte, MSG_PEEK | MSG_DONTWAIT *)
  os_now : O -> Z;                        (* steady_clock::now(), in nanoseconds *)
}.

(** [os_open] is the process's table of open descriptors. *)
Class PoolOSLaws (O : Type) `{!PoolOS O} := {
  os_open : O -> gset Z;
  os_socket_open o fd o' : os_socket o = (fd, o') ->
    (fd < 0)%Z /\ os_open o' = os_open o \/
    (0 <= fd)%Z /\ fd ∉ os_open o /\ os_open o' = {[ fd ]} ∪ os_open o;
  os_connect_open fd host port o : os_open (os_connect fd host port o).2 = os_open o;
  os_close_open fd o : os_open (os_close fd o) = os_open o ∖ {[ fd ]};
  os_close_peek fd fd' o : fd' <> fd -> os_peek fd' (os_close fd o) = os_peek fd' o;
}.

(** ** The state *)
Record ConnectionInfo := mkConnectionInfo {
  ci_fd : Z;
  ci_host : string;
  ci_port : Z;
  ci_lastUsed : Z;
  ci_inUse : bool;
}.

Record RaftConnectionPool := mkPool {
  m_connectionPools : gmap string (list ConnectionInfo);
  m_fdToPeerMap : gmap Z string;
  cp_running : bool;
}.

Definition CONNECTION_TIMEOUT : Z := 300.
Definition MAX_CONNECTIONS_PER_PEER : nat := 5.

(** [RaftConnectionPool()] and [start()] *)
Definition RaftConnectionPool_new : RaftConnectionPool := mkPool ∅ ∅ false.

Definition pool_start (p : RaftConnectionPool) : RaftConnectionPool :=
  if cp_running p then p else mkPool (m_connectionPools p) (m_fdToPeerMap p) true.

(** [m_connectionPools[peerId]] where a missing key counts as an empty queue. *)
Definition queue_of (p : RaftConnectionPool) (peerId : string) : list ConnectionInfo :=
  default [] (m_connectionPools p !! peerId).

Section pool.
Context {O : Type} `{!PoolOS O}.

(** [isConnectionValid(fd)] *)
Definition isConnectionValid (fd : Z) (o : O) : bool :=
  if (fd <? 0)%Z then false
  else match os_peek fd o with
       | RecvBytes [] => false        (* result == 0 *)
       | RecvError again => again     (* result < 0 *)
       | RecvBytes _ => true
       end.

(** The [for] loop of [createConnection]: [n] attempts. *)
Fixpoint connect_attempts (n : nat) (fd : Z) (host : string) (port : Z) (o : O) : bool * O :=
  match n with
  | 0 => (false, o)
  | S n' =>
      let '(ok, o1) := os_connect fd host port o in
      if ok then (true, o1) else connect_attempts n' fd host port o1
  end.

(** [createConnection(host, port)] *)
Definition createConnection (host : string) (port : Z) (o : O) : Z * O :=
  let '(fd, o1) := os_socket o in
  if (fd <? 0)%Z then ((-1)%Z, o1)
  else if negb (os_pton host) then ((-1)%Z, os_close fd o1)
  else
    let '(connected, o2) := connect_attempts 3 fd host (u16 port) o1 in
    if negb connected then ((-1)%Z, os_close fd o2) else (fd, o2).

(** The first half of [getConnection]: [inl] returns the pooled connection,
    [inr] goes on to create one. *)
Definition reuse_front (peerId : string) (p : RaftConnectionPool) (o : O)
  : (Z * RaftConnectionPool) + (RaftConnectionPool * O) :=
  match m_connectionPools p !! peerId with
  | Some (conn :: rest) =>
      let pools := <[peerId := rest]> (m_connectionPools p) in
      if isConnectionValid (ci_fd conn) o
      then inl (ci_fd conn, mkPool pools (m_fdToPeerMap p) (cp_running p))
      else inr (mkPool pools (delete (ci_fd conn) (m_fdToPeerMap p)) (cp_running p),
                os_close (ci_fd conn) o)
  | _ => inr (p, o)
  end.

(** [getConnection(peerId, host, port)] *)
Definition getConnection (peerId host : string) (port : Z) (p : RaftConnectionPool) (o : O)
  : Z * RaftConnectionPool * O :=
  match reuse_front peerId p o with
  | inl (fd, p1) => (fd, p1, o)
  | inr (p1, o1) =>
      let '(fd, o2) := createConnection host port o1 in
      if (0 <=? fd)%Z
      then (fd, mkPool (m_connectionPools p1) (<[fd := peerId]> (m_fdToPeerMap p1))
                  (cp_running p1), o2)
      else ((-1)%Z, p1, o2)
  end.

(** [releaseConnection(peerId, fd)] *)
Definition releaseConnection (peerId : string) (fd : Z) (p : RaftConnectionPool) (o : O)
  : RaftConnectionPool * O :=
  if negb (bool_decide (m_fdToPeerMap p !! fd = Some peerId)) then (p, os_close fd o)
  else if negb (isConnectionValid fd o) then
    (mkPool (m_connectionPools p) (delete fd (m_fdToPeerMap p)) (cp_running p), os_close fd o)
  else
    let queue := queue_of p peerId in
    if Nat.ltb (length queue) MAX_CONNECTIONS_PER_PEER then
      let conn := mkConnectionInfo fd "" 0 (os_now o) false in
      (mkPool (<[peerId := queue ++ [conn]]> (m_connectionPools p)) (m_fdToPeerMap p)
         (cp_running p), o)
    else
      (mkPool (<[peerId := queue]> (m_connectionPools p)) (delete fd (m_fdToPeerMap p))
         (cp_running p), os_close fd o).

(** The loop of [closePeerConnections]. *)
Fixpoint close_entries (q : list ConnectionInfo) (m : gmap Z string) (o : O)
  : gmap Z string * O :=
  match q with
  | [] => (m, o)
  | conn :: q' =>
      if (0 <=? ci_fd conn)%Z
      then close_entries q' (delete (ci_fd conn) m) (os_close (ci_fd conn) o)
      else close_entries q' m o
  end.

(** [closePeerConnections(peerId)] *)
Definition closePeerConnections (peerId : string) (p : RaftConnectionPool) (o : O)
  : RaftConnectionPool * O :=
  match m_connectionPools p !! peerId with
  | None => (p, o)
  | Some q =>
      let '(m, o1) := close_entries q (m_fdToPeerMap p) o in
      (mkPool (delete peerId (m_connectionPools p)) m (cp_running p), o1)
  end.

(** The loop of [stop] on one queue. *)
Fixpoint close_queue (q : list ConnectionInfo) (o : O) : O :=
  match q with
  | [] => o
  | conn :: q' =>
      close_queue q' (if (0 <=? ci_fd conn)%Z then os_close (ci_fd conn) o else o)
  end.

(** [stop()]; [order] is the iteration order of the [unordered_map]. *)
Definition pool_stop (order : list string) (p : RaftConnectionPool) (o : O)
  : RaftConnectionPool * O :=
  if negb (cp_running p) then (p, o)
  else (mkPool ∅ ∅ false,
        foldl (fun o1 peerId => close_queue (queue_of p peerId) o1) o order).

(** [cleanupLoop]: the inner loop on one queue, the loop over the peers, one
    turn after the wait. *)
Definition expired (now : Z) (conn : ConnectionInfo) : bool :=
  (CONNECTION_TIMEOUT <? Z.quot (now - ci_lastUsed conn) 1000000000)%Z.

Fixpoint sweep_queue (now : Z) (q : list ConnectionInfo) (m : gmap Z string) (o : O)
  : list ConnectionInfo * gmap Z string * O :=
  match q with
  | [] => ([], m, o)
  | conn :: q' =>
      if expired now conn || negb (isConnectionValid (ci_fd conn) o)
      then sweep_queue now q' (delete (ci_fd conn) m) (os_close (ci_fd conn) o)
      else
        let '(newQueue, m1, o1) := sweep_queue now q' m o in
        (conn :: newQueue, m1, o1)
  end.

Definition sweep_peer (now : Z) (st : RaftConnectionPool * O) (peerId : string)
  : RaftConnectionPool * O :=
  let '(p, o) := st in
  let '(newQueue, m, o1) := sweep_queue now (queue_of p peerId) (m_fdToPeerMap p) o in
  (mkPool (<[peerId := newQueue]> (m_connectionPools p)) m (cp_running p), o1).

Definition cleanupLoop_turn (order : list string) (p : RaftConnectionPool) (o : O)
  : RaftConnectionPool * O :=
  if negb (cp_running p) then (p, o)
  else foldl (sweep_peer (os_now o)) (p, o) order.
End pool.

(** ** Ownership of descriptors

    [B] records, for every descriptor lent to a caller and not yet given back,
    the peer it was asked for. *)
Definition fds (q : list ConnectionInfo) : list Z := ci_fd <$> q.

Record pool_inv (p : RaftConnectionPool) (B : gmap Z string) : Prop := mk_pool_inv {
  pi_size peer : length (queue_of p peer) <= MAX_CONNECTIONS_PER_PEER;
  pi_nodup peer : NoDup (fds (queue_of p peer));
  pi_pooled peer fd : fd ∈ fds (queue_of p peer) ->
    (0 <= fd)%Z /\ m_fdToPeerMap p !! fd = Some peer /\ B !! fd = None;
  pi_owner peer fd : m_fdToPeerMap p !! fd = Some peer ->
    B !! fd = Some peer \/ fd ∈ fds (queue_of p peer);
  pi_lent peer fd : B !! fd = Some peer -> (0 <= fd)%Z;
}.

(** The descriptors the pool or its callers hold. *)
Definition owned (p : RaftConnectionPool) (B : gmap Z string) : gset Z :=
  dom (m_fdToPeerMap p) ∪ dom B.

Lemma owned_spec p B fd :
  fd ∈ owned p B <-> is_Some (m_fdToPeerMap p !! fd) \/ is_Some (B !! fd).
Proof. unfold owned. by rewrite elem_of_union, !elem_of_dom. Qed.

Lemma pooled_owned p B peer fd :
  pool_inv p B -> fd ∈ fds (queue_of p peer) -> fd ∈ owned p B.
Proof.
  intros Hi Hfd. destruct (pi_pooled _ _ Hi _ _ Hfd) as (_ & Hm & _).
  apply owned_spec. left. eauto.
Qed.

(** A descriptor is in at most one queue. *)
Lemma pooled_peer p B peer peer' fd :
  pool_inv p B -> fd ∈ fds (queue_of p peer) -> fd ∈ fds (queue_of p peer') -> peer = peer'.
Proof.
  intros Hi H1 H2. destruct (pi_pooled _ _ Hi _ _ H1) as (_ & E1 & _).
  destruct (pi_pooled _ _ Hi _ _ H2) as (_ & E2 & _). congruence.
Qed.

(** Forget the descriptors of [gone]. *)
Definition forget (gone : list ConnectionInfo) (m : gmap Z string) : gmap Z string :=
  foldr (fun c => delete (ci_fd c)) m gone.

Lemma forget_lookup gone m fd :
  forget gone m !! fd = if decide (fd ∈ fds gone) then None else m !! fd.
Proof.
  induction gone as [|c gone IH]; simpl; [done|].
  destruct (decide (ci_fd c = fd)) as [<-|Hne].
  - rewrite lookup_delete_eq. rewrite decide_True; [done|]. by apply list_elem_of_here.
  - rewrite lookup_delete_ne, IH by done. apply decide_ext.
    rewrite elem_of_cons. naive_solver.
Qed.

Lemma forget_app g1 g2 m : forget (g1 ++ g2) m = forget g1 (forget g2 m).
Proof. unfold forget. by rewrite foldr_app. Qed.

(** [p'] is [p] where the connections [gone] of [peer] were closed. *)
Record shrinks (peer : string) (kept gone : list ConnectionInfo)
    (p p' : RaftConnectionPool) : Prop := mk_shrinks {
  sh_perm : queue_of p peer ≡ₚ kept ++ gone;
  sh_queue : queue_of p' peer = kept;
  sh_other peer' : peer' <> peer -> queue_of p' peer' = queue_of p peer';
  sh_map : m_fdToPeerMap p' = forget gone (m_fdToPeerMap p);
}.

Lemma fds_app q1 q2 : fds (q1 ++ q2) = fds q1 ++ fds q2.
Proof. apply fmap_app. Qed.

Lemma shrinks_fds peer kept gone p p' :
  shrinks peer kept gone p p' -> fds (queue_of p peer) ≡ₚ fds kept ++ fds gone.
Proof. intros H. rewrite <- fds_app. unfold fds. by rewrite (sh_perm _ _ _ _ _ H). Qed.

Lemma shrinks_pooled peer kept gone p p' peer' fd :
  shrinks peer kept gone p p' -> fd ∈ fds (queue_of p' peer') -> fd ∈ fds (queue_of p peer').
Proof.
  intros Hs. destruct (decide (peer' = peer)) as [->|Hne].
  - rewrite (sh_queue _ _ _ _ _ Hs), (shrinks_fds _ _ _ _ _ Hs), elem_of_app. auto.
  - by rewrite (sh_other _ _ _ _ _ Hs).
Qed.

Lemma shrinks_not_gone peer kept gone p p' B peer' fd :
  pool_inv p B -> shrinks peer kept gone p p' ->
  fd ∈ fds (queue_of p' peer') -> fd ∉ fds gone.
Proof.
  intros Hi Hs Hin Hg.
  assert (peer' = peer) as ->.
  { eapply pooled_peer; [done|by eapply shrinks_pooled|].
    rewrite (shrinks_fds _ _ _ _ _ Hs), elem_of_app. auto. }
  pose proof (pi_nodup _ _ Hi peer) as Hnd.
  rewrite (shrinks_fds _ _ _ _ _ Hs) in Hnd. rewrite (sh_queue _ _ _ _ _ Hs) in Hin.
  apply NoDup_app in Hnd as (_ & Hd & _). by eapply Hd.
Qed.

Lemma inv_shrinks peer kept gone p p' B :
  pool_inv p B -> shrinks peer kept gone p p' -> pool_inv p' B.
Proof.
  intros Hi Hs. pose proof (shrinks_fds _ _ _ _ _ Hs) as Hf. constructor.
  - intros peer'. destruct (decide (peer' = peer)) as [->|Hne].
    + rewrite (sh_queue _ _ _ _ _ Hs). pose proof (pi_size _ _ Hi peer) as Hl.
      rewrite (sh_perm _ _ _ _ _ Hs), length_app in Hl. lia.
    + rewrite (sh_other _ _ _ _ _ Hs) by done. apply Hi.
  - intros peer'. destruct (decide (peer' = peer)) as [->|Hne].
    + rewrite (sh_queue _ _ _ _ _ Hs). pose proof (pi_nodup _ _ Hi peer) as Hnd.
      rewrite Hf in Hnd. by apply NoDup_app in Hnd as (? & _).
    + rewrite (sh_other _ _ _ _ _ Hs) by done. apply Hi.
  - intros peer' fd Hin.
    destruct (pi_pooled _ _ Hi peer' fd) as (H0 & Hm & HB); [by eapply shrinks_pooled|].
    rewrite (sh_map _ _ _ _ _ Hs), forget_lookup, decide_False; [done|].
    by eapply shrinks_not_gone.
  - intros peer' fd Hm. rewrite (sh_map _ _ _ _ _ Hs), forget_lookup in Hm.
    case_decide as Hg; [done|].
    destruct (pi_owner _ _ Hi _ _ Hm) as [?|Hq]; [auto|right].
    destruct (decide (peer' = peer)) as [->|Hne].
    + rewrite (sh_queue _ _ _ _ _ Hs). rewrite Hf, elem_of_app in Hq. naive_solver.
    + by rewrite (sh_other _ _ _ _ _ Hs).
  - intros peer' fd. apply (pi_lent _ _ Hi).
Qed.

Lemma owned_shrinks peer kept gone p p' B :
  pool_inv p B -> shrinks peer kept gone p p' ->
  owned p' B = owned p B ∖ list_to_set (fds gone).
Proof.
  intros Hi Hs. apply set_eq. intros fd.
  rewrite elem_of_difference, elem_of_list_to_set, !owned_spec.
  rewrite (sh_map _ _ _ _ _ Hs), forget_lookup. case_decide as Hg.
  - split; [|naive_solver]. intros [[? [=]]|[x HB]].
    destruct (pi_pooled _ _ Hi peer fd) as (_ & _ & HN).
    { rewrite (shrinks_fds _ _ _ _ _ Hs), elem_of_app. auto. }
    congruence.
  - naive_solver.
Qed.

(** ** Single changes of ownership *)
Lemma queue_insert pools peer q m r peer' :
  queue_of (mkPool (<[peer := q]> pools) m r) peer' =
  if decide (peer' = peer) then q else default [] (pools !! peer').
Proof.
  unfold queue_of. simpl. case_decide as E.
  - subst. by rewrite lookup_insert_eq.
  - by rewrite lookup_insert_ne by done.
Qed.

Lemma queue_delete pools peer m r peer' :
  queue_of (mkPool (delete peer pools) m r) peer' =
  if decide (peer' = peer) then [] else default [] (pools !! peer').
Proof.
  unfold queue_of. simpl. case_decide as E.
  - subst. by rewrite lookup_delete_eq.
  - by rewrite lookup_delete_ne by done.
Qed.

(** The front of a queue is lent. *)
Lemma inv_lend_front p B peer conn rest p' :
  pool_inv p B -> queue_of p peer = conn :: rest ->
  (forall peer', queue_of p' peer' = if decide (peer' = peer) then rest else queue_of p peer') ->
  m_fdToPeerMap p' = m_fdToPeerMap p ->
  pool_inv p' (<[ci_fd conn := peer]> B) /\ owned p' (<[ci_fd conn := peer]> B) = owned p B.
Proof.
  intros Hi Hq Hq' Hm.
  assert (ci_fd conn ∈ fds (queue_of p peer)) as Hc by (rewrite Hq; apply list_elem_of_here).
  destruct (pi_pooled _ _ Hi _ _ Hc) as (Hc0 & Hcm & HcB).
  pose proof (pi_nodup _ _ Hi peer) as Hnd. rewrite Hq in Hnd.
  apply NoDup_cons in Hnd as [Hnin Hnd].
  split; [constructor|].
  - intros peer'. rewrite Hq'. case_decide as E; [|apply Hi]. subst.
    pose proof (pi_size _ _ Hi peer) as Hl. rewrite Hq in Hl. simpl in Hl. lia.
  - intros peer'. rewrite Hq'. case_decide as E; [done|apply Hi].
  - intros peer' fd Hin. rewrite Hq' in Hin.
    assert (fd ∈ fds (queue_of p peer') /\ fd <> ci_fd conn) as [Hin' Hne].
    { case_decide as E; [subst; rewrite Hq; split; [by apply list_elem_of_further|naive_solver]|].
      split; [done|]. intros ->. by apply E, (pooled_peer p B _ _ (ci_fd conn)). }
    rewrite Hm, lookup_insert_ne by done. by apply Hi.
  - intros peer' fd Hfd. rewrite Hm in Hfd.
    destruct (decide (fd = ci_fd conn)) as [->|Hne].
    { left. rewrite lookup_insert_eq. congruence. }
    rewrite lookup_insert_ne by done. rewrite Hq'.
    destruct (pi_owner _ _ Hi _ _ Hfd) as [?|Hq2]; [auto|right].
    case_decide as E; [|done]. subst. rewrite Hq in Hq2.
    apply elem_of_cons in Hq2 as [?|?]; done.
  - intros peer' fd. destruct (decide (fd = ci_fd conn)) as [->|Hne]; [done|].
    rewrite lookup_insert_ne by done. apply (pi_lent _ _ Hi).
  - unfold owned. rewrite Hm, dom_insert_L.
    assert (ci_fd conn ∈ dom (m_fdToPeerMap p)) by (by eapply elem_of_dom_2). set_solver.
Qed.

(** A new descriptor is registered and lent. *)
Lemma inv_lend_new p B peer fd p' :
  pool_inv p B -> (0 <= fd)%Z -> fd ∉ owned p B ->
  (forall peer', queue_of p' peer' = queue_of p peer') ->
  m_fdToPeerMap p' = <[fd := peer]> (m_fdToPeerMap p) ->
  pool_inv p' (<[fd := peer]> B) /\ owned p' (<[fd := peer]> B) = {[ fd ]} ∪ owned p B.
Proof.
  intros Hi Hfd Hnew Hq Hm. split; [constructor|].
  - intros peer'. rewrite Hq. apply Hi.
  - intros peer'. rewrite Hq. apply Hi.
  - intros peer' fd' Hin. rewrite Hq in Hin.
    assert (fd <> fd') by (intros ->; by apply Hnew, (pooled_owned p B peer')).
    rewrite Hm, !lookup_insert_ne by done. by apply Hi.
  - intros peer' fd'. rewrite Hm, Hq. destruct (decide (fd = fd')) as [->|Hne].
    + rewrite !lookup_insert_eq. auto.
    + rewrite !lookup_insert_ne by done. apply Hi.
  - intros peer' fd'. destruct (decide (fd = fd')) as [->|Hne]; [done|].
    rewrite lookup_insert_ne by done. apply (pi_lent _ _ Hi).
  - unfold owned. rewrite Hm, !dom_insert_L. set_solver.
Qed.

(** A lent descriptor is known under the peer it was lent for, or not at all. *)
Lemma lent_peer p B peer peer' fd :
  pool_inv p B -> B !! fd = Some peer -> m_fdToPeerMap p !! fd = Some peer' -> peer' = peer.
Proof.
  intros Hi HB Hm. destruct (pi_owner _ _ Hi _ _ Hm) as [?|Hq]; [congruence|].
  destruct (pi_pooled _ _ Hi _ _ Hq) as (_ & _ & ?). congruence.
Qed.

(** A lent descriptor is given back and closed. *)
Lemma inv_give_up p B peer fd p' :
  pool_inv p B -> B !! fd = Some peer ->
  (forall peer', queue_of p' peer' = queue_of p peer') ->
  m_fdToPeerMap p' = delete fd (m_fdToPeerMap p) ->
  pool_inv p' (delete fd B) /\ owned p' (delete fd B) = owned p B ∖ {[ fd ]}.
Proof.
  intros Hi HB Hq Hm. split; [constructor|].
  - intros peer'. rewrite Hq. apply Hi.
  - intros peer'. rewrite Hq. apply Hi.
  - intros peer' fd' Hin. rewrite Hq in Hin.
    destruct (pi_pooled _ _ Hi _ _ Hin) as (H0 & H1 & H2).
    assert (fd <> fd') by congruence. rewrite Hm, !lookup_delete_ne by done. done.
  - intros peer' fd'. rewrite Hm, Hq. destruct (decide (fd = fd')) as [->|Hne].
    + by rewrite lookup_delete_eq.
    + rewrite !lookup_delete_ne by done. apply Hi.
  - intros peer' fd' Hl. apply lookup_delete_Some in Hl as [_ Hl]. by eapply (pi_lent _ _ Hi).
  - unfold owned. rewrite Hm, !dom_delete_L. set_solver.
Qed.

(** A lent descriptor goes to the back of its peer's queue. *)
Lemma inv_put_back p B peer conn p' :
  pool_inv p B -> B !! ci_fd conn = Some peer -> m_fdToPeerMap p !! ci_fd conn = Some peer ->
  length (queue_of p peer) < MAX_CONNECTIONS_PER_PEER ->
  (forall peer', queue_of p' peer' =
     if decide (peer' = peer) then queue_of p peer ++ [conn] else queue_of p peer') ->
  m_fdToPeerMap p' = m_fdToPeerMap p ->
  pool_inv p' (delete (ci_fd conn) B) /\ owned p' (delete (ci_fd conn) B) = owned p B.
Proof.
  intros Hi HB Hmp Hl Hq Hm. split; [constructor|].
  - intros peer'. rewrite Hq. case_decide; [rewrite length_app; simpl; lia|apply Hi].
  - intros peer'. rewrite Hq. case_decide as E; [|apply Hi]. rewrite fds_app.
    apply NoDup_app. split_and!; [apply Hi| |apply NoDup_singleton].
    intros fd Hin ->%list_elem_of_singleton.
    destruct (pi_pooled _ _ Hi _ _ Hin) as (_ & _ & ?). congruence.
  - intros peer' fd Hin. rewrite Hq in Hin. rewrite Hm.
    assert (fd ∈ fds (queue_of p peer') \/ fd = ci_fd conn /\ peer' = peer) as [Hin'|[-> ->]].
    { case_decide as E; [|auto]. subst. rewrite fds_app, elem_of_app in Hin.
      destruct Hin as [?|?%list_elem_of_singleton]; auto. }
    + destruct (pi_pooled _ _ Hi _ _ Hin') as (H0 & H1 & H2).
      split_and!; [done..|]. by apply lookup_delete_None; auto.
    + split_and!; [by eapply (pi_lent _ _ Hi)|done|apply lookup_delete_eq].
  - intros peer' fd. rewrite Hm, Hq. intros Hfd.
    destruct (decide (fd = ci_fd conn)) as [->|Hne].
    + right. assert (peer' = peer) as -> by congruence. rewrite decide_True by done.
      rewrite fds_app, elem_of_app. right. apply list_elem_of_here.
    + rewrite lookup_delete_ne by done.
      destruct (pi_owner _ _ Hi _ _ Hfd) as [?|?]; [auto|right].
      case_decide; [|done]. subst. rewrite fds_app, elem_of_app. auto.
  - intros peer' fd Hlk. apply lookup_delete_Some in Hlk as [_ Hlk]. by eapply (pi_lent _ _ Hi).
  - unfold owned. rewrite Hm, dom_delete_L.
    assert (ci_fd conn ∈ dom (m_fdToPeerMap p)) by (by eapply elem_of_dom_2).
    apply set_eq. intros fd. destruct (decide (fd = ci_fd conn)); set_solver.
Qed.

(** ** The operations and the descriptor table *)
Section ownership.
Context {O : Type} `{!PoolOS O, !PoolOSLaws O}.

(** Everything the pool and its callers hold is open; [foreign] is the rest of
    the process's descriptors. *)
Definition pool_ok (p : RaftConnectionPool) (B : gmap Z string) (o : O) : Prop :=
  pool_inv p B /\ owned p B ⊆ os_open o.

Definition foreign (p : RaftConnectionPool) (B : gmap Z string) (o : O) : gset Z :=
  os_open o ∖ owned p B.

(** What every operation owes: the invariant, and other descriptors untouched. *)
Definition preserves p B (o : O) p' B' (o' : O) : Prop :=
  pool_ok p' B' o' /\ foreign p' B' o' = foreign p B o.

Lemma preserves_refl p B o : pool_ok p B o -> preserves p B o p B o.
Proof. done. Qed.

Lemma preserves_trans p1 B1 o1 p2 B2 o2 p3 B3 o3 :
  preserves p1 B1 o1 p2 B2 o2 -> preserves p2 B2 o2 p3 B3 o3 ->
  preserves p1 B1 o1 p3 B3 o3.
Proof. intros [_ E1] [Hok E2]. split; [done|congruence]. Qed.

Lemma preserves_shrinks peer kept gone p p' B o o' :
  pool_ok p B o -> shrinks peer kept gone p p' ->
  os_open o' = os_open o ∖ list_to_set (fds gone) -> preserves p B o p' B o'.
Proof.
  intros [Hi Ho] Hs Hopen. unfold preserves, pool_ok, foreign.
  rewrite (owned_shrinks _ _ _ _ _ _ Hi Hs), Hopen.
  assert (list_to_set (fds gone) ⊆ owned p B) as Hg.
  { intros fd Hfd%elem_of_list_to_set. eapply (pooled_owned p B peer); [done|].
    rewrite (shrinks_fds _ _ _ _ _ Hs), elem_of_app. auto. }
  split_and!; [by eapply inv_shrinks|set_solver|].
  apply set_eq. intros fd. destruct (decide (fd ∈ owned p B)); set_solver.
Qed.

Lemma preserves_same_open p B p' B' (o o' : O) :
  pool_inv p' B' -> owned p' B' = owned p B -> os_open o' = os_open o ->
  pool_ok p B o -> preserves p B o p' B' o'.
Proof.
  intros Hi Hw Ho [_ Hs]. unfold preserves, pool_ok, foreign. by rewrite Hw, Ho.
Qed.

Lemma preserves_closed p B p' B' fd (o : O) :
  pool_inv p' B' -> owned p' B' = owned p B ∖ {[ fd ]} -> fd ∈ owned p B ->
  pool_ok p B o -> preserves p B o p' B' (os_close fd o).
Proof.
  intros Hi Hw Hfd [_ Hs]. unfold preserves, pool_ok, foreign.
  rewrite Hw, os_close_open. split_and!; [done|set_solver|].
  apply set_eq. intros fd'. destruct (decide (fd' = fd)); set_solver.
Qed.

(** *** Creating a connection *)
Lemma connect_attempts_open n fd host port o :
  os_open (connect_attempts n fd host port o).2 = os_open o.
Proof.
  revert o. induction n as [|n IH]; intros o; simpl; [done|].
  destruct (os_connect fd host port o) as [ok o1] eqn:E.
  pose proof (os_connect_open fd host port o) as Ho. rewrite E in Ho. simpl in Ho.
  destruct ok; [done|]. by rewrite IH.
Qed.

Lemma createConnection_open host port o fd o' :
  createConnection host port o = (fd, o') ->
  (fd = -1)%Z /\ os_open o' = os_open o \/
  (0 <= fd)%Z /\ fd ∉ os_open o /\ os_open o' = {[ fd ]} ∪ os_open o.
Proof.
  unfold createConnection. destruct (os_socket o) as [s o1] eqn:Es.
  apply os_socket_open in Es as [[Hs Ho]|(Hs & Hn & Ho)].
  { rewrite (proj2 (Z.ltb_lt s 0)) by lia. intros [= <- <-]. auto. }
  rewrite (proj2 (Z.ltb_ge s 0)) by lia.
  destruct (os_pton host); cbn [negb];
    [|intros [= <- <-]; left; rewrite os_close_open, Ho; split; [done|set_solver]].
  pose proof (connect_attempts_open 3 s host (u16 port) o1) as Hc.
  destruct (connect_attempts 3 s host (u16 port) o1) as [ok o2]. cbn [snd] in Hc.
  destruct ok; cbn [negb]; intros [= <- <-].
  - right. rewrite Hc. auto.
  - left. rewrite os_close_open, Hc, Ho. split; [done|set_solver].
Qed.

(** *** Reusing and getting *)
Lemma queue_of_cons p peer conn rest :
  m_connectionPools p !! peer = Some (conn :: rest) -> queue_of p peer = conn :: rest.
Proof. intros E. unfold queue_of. by rewrite E. Qed.

(** Record what [getConnection] lends: the descriptor it returns, if any. *)
Definition lend (peer : string) (fd : Z) (B : gmap Z string) : gmap Z string :=
  if (0 <=? fd)%Z then <[fd := peer]> B else B.

Lemma reuse_front_preserves peer p B o :
  pool_ok p B o ->
  match reuse_front peer p o with
  | inl (fd, p1) => (0 <= fd)%Z /\ preserves p B o p1 (<[fd := peer]> B) o
  | inr (p1, o1) => preserves p B o p1 B o1
  end.
Proof.
  intros Hok. pose proof Hok as [Hi Ho]. unfold reuse_front.
  destruct (m_connectionPools p !! peer) as [[|conn rest]|] eqn:Eq;
    [by apply preserves_refl| |by apply preserves_refl].
  pose proof (queue_of_cons _ _ _ _ Eq) as Hq.
  assert (ci_fd conn ∈ fds (queue_of p peer)) as Hc by (rewrite Hq; apply list_elem_of_here).
  destruct (isConnectionValid (ci_fd conn) o).
  - edestruct (inv_lend_front p B peer conn rest) as [Hi' Hw]; [done..| | |].
    { intros peer'. by rewrite queue_insert. }
    { done. }
    split; [by eapply (pi_pooled _ _ Hi)|]. by apply preserves_same_open.
  - apply (preserves_shrinks peer rest [conn]); [done| |].
    + constructor; simpl.
      * rewrite Hq. apply Permutation_cons_append.
      * by rewrite queue_insert, decide_True.
      * intros peer' Hne. by rewrite queue_insert, decide_False.
      * done.
    + rewrite os_close_open. set_solver.
Qed.

Lemma getConnection_preserves peer host port p B o fd p' o' :
  pool_ok p B o -> getConnection peer host port p o = (fd, p', o') ->
  preserves p B o p' (lend peer fd B) o' /\ B !! fd = None /\ (-1 <= fd)%Z.
Proof.
  intros Hok. pose proof (reuse_front_preserves peer p B o Hok) as Hr.
  unfold getConnection. destruct (reuse_front peer p o) as [[fd1 p1]|[p1 o1]] eqn:Er.
  - intros [= <- <- <-]. destruct Hr as [H0 Hp]. unfold lend.
    rewrite (proj2 (Z.leb_le 0 fd1)) by lia. split_and!; [done| |lia].
    unfold reuse_front in Er. repeat case_match; simplify_eq.
    eapply (pi_pooled _ _ (proj1 Hok) peer).
    erewrite queue_of_cons by done. apply list_elem_of_here.
  - destruct (createConnection host port o1) as [s o2] eqn:Ec.
    pose proof Hr as [[Hi1 Ho1] _].
    apply createConnection_open in Ec as [[-> Ho]|(Hs & Hn & Ho)].
    + simpl. intros [= <- <- <-]. split_and!; [| |lia].
      * eapply preserves_trans; [done|]. by apply preserves_same_open.
      * apply eq_None_not_Some. intros [x Hx%(pi_lent _ _ Hi1)]. lia.
    + rewrite (proj2 (Z.leb_le 0 s)) by lia. intros [= <- <- <-]. unfold lend.
      rewrite (proj2 (Z.leb_le 0 s)) by lia.
      assert (s ∉ owned p1 B) as Hnew by set_solver.
      split_and!; [|apply eq_None_not_Some; intros HB; apply Hnew, owned_spec; by auto|lia].
      eapply preserves_trans; [done|].
      match goal with |- preserves _ _ _ ?q _ _ =>
        destruct (inv_lend_new p1 B peer s q) as [Hi2 Hw]; [done..|] end.
      unfold preserves, pool_ok, foreign. rewrite Hw, Ho.
      split_and!; [done|set_solver|set_solver].
Qed.

(** *** Giving back *)
Lemma releaseConnection_preserves peer fd p B o p' o' :
  pool_ok p B o -> B !! fd = Some peer ->
  releaseConnection peer fd p o = (p', o') -> preserves p B o p' (delete fd B) o'.
Proof.
  intros Hok HB. pose proof Hok as [Hi Ho]. unfold releaseConnection.
  assert (fd ∈ owned p B) as Hfd by (apply owned_spec; eauto).
  assert (forall q, (forall peer', queue_of q peer' = queue_of p peer') ->
    m_fdToPeerMap q = delete fd (m_fdToPeerMap p) ->
    preserves p B o q (delete fd B) (os_close fd o)) as Hgive.
  { intros q Hq Hm. destruct (inv_give_up p B peer fd q) as [? ?]; [done..|].
    by apply preserves_closed. }
  case_bool_decide as Hm; cbn [negb].
  - destruct (isConnectionValid fd o); cbn [negb].
    + destruct (Nat.ltb_spec (length (queue_of p peer)) MAX_CONNECTIONS_PER_PEER);
        intros [= <- <-].
      * match goal with |- preserves _ _ _ ?q _ _ =>
          destruct (inv_put_back p B peer (mkConnectionInfo fd "" 0 (os_now o) false) q)
            as [? ?]; [done..| |done|] end.
        { intros peer'. by rewrite queue_insert. }
        by apply preserves_same_open.
      * apply Hgive; [|done]. intros peer'. rewrite queue_insert. by case_decide; subst.
    + intros [= <- <-]. by apply Hgive.
  - intros [= <- <-]. apply Hgive; [done|]. symmetry. apply delete_id.
    destruct (m_fdToPeerMap p !! fd) as [x|] eqn:E; [|done].
    assert (x = peer) as -> by (by eapply lent_peer). done.
Qed.

(** *** Closing a peer's queue *)
Lemma forget_delete gone fd m : forget gone (delete fd m) = delete fd (forget gone m).
Proof.
  apply map_eq. intros k. rewrite forget_lookup. destruct (decide (fd = k)) as [->|Hne].
  - rewrite !lookup_delete_eq. by case_decide.
  - by rewrite !lookup_delete_ne, forget_lookup by done.
Qed.

Lemma close_entries_spec q m o m' o' :
  Forall (fun c => 0 <= ci_fd c)%Z q -> close_entries q m o = (m', o') ->
  m' = forget q m /\ os_open o' = os_open o ∖ list_to_set (fds q).
Proof.
  intros Hq. revert m o. induction Hq as [|c q Hc Hq IH]; intros m o; simpl.
  { intros [= <- <-]. split; [done|set_solver]. }
  rewrite (proj2 (Z.leb_le 0 (ci_fd c))) by lia. intros E.
  destruct (IH _ _ E) as [-> ->]. rewrite forget_delete, os_close_open.
  split; [done|set_solver].
Qed.

Lemma close_queue_open q o :
  Forall (fun c => 0 <= ci_fd c)%Z q ->
  os_open (close_queue q o) = os_open o ∖ list_to_set (fds q).
Proof.
  intros Hq. revert o. induction Hq as [|c q Hc Hq IH]; intros o; simpl; [set_solver|].
  rewrite (proj2 (Z.leb_le 0 (ci_fd c))) by lia. rewrite IH, os_close_open. set_solver.
Qed.

Lemma queue_nonneg p B peer : pool_inv p B -> Forall (fun c => 0 <= ci_fd c)%Z (queue_of p peer).
Proof.
  intros Hi. apply Forall_forall. intros c Hc.
  apply (pi_pooled _ _ Hi peer). by apply list_elem_of_fmap_2.
Qed.

Lemma closePeerConnections_preserves peer p B o p' o' :
  pool_ok p B o -> closePeerConnections peer p o = (p', o') ->
  preserves p B o p' B o' /\ queue_of p' peer = [].
Proof.
  intros Hok. unfold closePeerConnections.
  destruct (m_connectionPools p !! peer) as [q|] eqn:Eq.
  - assert (queue_of p peer = q) as Hq by (unfold queue_of; by rewrite Eq).
    destruct (close_entries q (m_fdToPeerMap p) o) as [m o1] eqn:Ec. intros [= <- <-].
    apply close_entries_spec in Ec as [-> Ho];
      [|rewrite <- Hq; eapply queue_nonneg, (proj1 Hok)].
    split; [|by rewrite queue_delete, decide_True].
    apply (preserves_shrinks peer [] q); [done| |done].
    constructor; simpl.
    + by rewrite Hq.
    + by rewrite queue_delete, decide_True.
    + intros peer' Hne. by rewrite queue_delete, decide_False.
    + done.
  - intros [= <- <-]. split; [by apply preserves_refl|]. unfold queue_of. by rewrite Eq.
Qed.

(** *** The sweep *)
Definition kept_by_sweep (now : Z) (o : O) (c : ConnectionInfo) : bool :=
  negb (expired now c) && isConnectionValid (ci_fd c) o.

Lemma isConnectionValid_close fd fd' o :
  fd' <> fd -> isConnectionValid fd' (os_close fd o) = isConnectionValid fd' o.
Proof. intros Hne. unfold isConnectionValid. by rewrite os_close_peek. Qed.

Lemma filter_close now fd o q :
  fd ∉ fds q ->
  filter (kept_by_sweep now (os_close fd o)) q = filter (kept_by_sweep now o) q.
Proof.
  intros Hfd. induction q as [|c q IH]; [done|].
  apply not_elem_of_cons in Hfd as [Hc Hfd]. rewrite !filter_cons, IH by done.
  assert (kept_by_sweep now (os_close fd o) c = kept_by_sweep now o c) as E.
  { unfold kept_by_sweep. by rewrite isConnectionValid_close. }
  by do 2 case_decide; congruence.
Qed.

Lemma sweep_queue_spec now q m o keep m' o' :
  NoDup (fds q) -> sweep_queue now q m o = (keep, m', o') ->
  exists gone, q ≡ₚ keep ++ gone /\ keep = filter (kept_by_sweep now o) q /\
    m' = forget gone m /\ os_open o' = os_open o ∖ list_to_set (fds gone) /\
    (forall fd, fd ∉ fds q -> isConnectionValid fd o' = isConnectionValid fd o).
Proof.
  revert keep m o. induction q as [|c q IH]; intros keep m o Hnd; simpl.
  { intros [= <- <- <-]. exists []. split_and!; [done..|set_solver|done]. }
  apply NoDup_cons in Hnd as [Hc Hnd]. rewrite filter_cons.
  destruct (expired now c || negb (isConnectionValid (ci_fd c) o)) eqn:Eb.
  - intros E. destruct (IH _ _ _ Hnd E) as (gone & Hp & Hk & -> & Ho & Hv).
    exists (c :: gone). split_and!.
    + rewrite Hp at 1. apply Permutation_middle.
    + rewrite decide_False; [by rewrite Hk, filter_close|].
      unfold kept_by_sweep. destruct (expired now c), (isConnectionValid (ci_fd c) o);
        simpl in *; naive_solver.
    + simpl. apply forget_delete.
    + rewrite Ho, os_close_open. set_solver.
    + intros fd Hfd. apply not_elem_of_cons in Hfd as [H1 H2].
      by rewrite Hv, isConnectionValid_close.
  - destruct (sweep_queue now q m o) as [[k1 m1] o1] eqn:E. intros [= <- <- <-].
    destruct (IH _ _ _ Hnd E) as (gone & Hp & Hk & -> & Ho & Hv).
    exists gone. split_and!; [by rewrite Hp at 1| |done..|].
    + rewrite decide_True; [by rewrite Hk|]. unfold kept_by_sweep.
      by destruct (expired now c), (isConnectionValid (ci_fd c) o).
    + intros fd Hfd. apply not_elem_of_cons in Hfd as [H1 H2]. by apply Hv.
Qed.

Lemma filter_valid_ext now o o' q :
  (forall fd, fd ∈ fds q -> isConnectionValid fd o' = isConnectionValid fd o) ->
  filter (kept_by_sweep now o') q = filter (kept_by_sweep now o) q.
Proof.
  intros Hv. induction q as [|c q IH]; [done|]. rewrite !filter_cons.
  rewrite IH by (intros fd Hfd; by apply Hv, list_elem_of_further).
  assert (kept_by_sweep now o' c = kept_by_sweep now o c) as E.
  { unfold kept_by_sweep. rewrite Hv; [done|apply list_elem_of_here]. }
  by do 2 case_decide; congruence.
Qed.

Lemma sweep_peer_spec now p B o peer p' o' :
  pool_ok p B o -> sweep_peer now (p, o) peer = (p', o') ->
  preserves p B o p' B o' /\
  (forall peer', queue_of p' peer' =
     if decide (peer' = peer) then filter (kept_by_sweep now o) (queue_of p peer)
     else queue_of p peer') /\
  (forall fd, fd ∉ fds (queue_of p peer) -> isConnectionValid fd o' = isConnectionValid fd o).
Proof.
  intros Hok. unfold sweep_peer.
  destruct (sweep_queue now (queue_of p peer) (m_fdToPeerMap p) o) as [[k m] o1] eqn:E.
  intros [= <- <-].
  destruct (sweep_queue_spec now _ _ _ _ _ _ (pi_nodup _ _ (proj1 Hok) peer) E)
    as (gone & Hp & Hk & Hm & Ho & Hv).
  split_and!; [|intros peer'; rewrite queue_insert; by rewrite <- Hk|done].
  apply (preserves_shrinks peer k gone); [done| |done].
  constructor; simpl.
  - done.
  - by rewrite queue_insert, decide_True.
  - intros peer' Hne. by rewrite queue_insert, decide_False.
  - done.
Qed.

Lemma sweep_peers_spec now order p B o p' o' :
  NoDup order -> pool_ok p B o -> foldl (sweep_peer now) (p, o) order = (p', o') ->
  preserves p B o p' B o' /\
  forall peer, queue_of p' peer =
    if decide (peer ∈ order) then filter (kept_by_sweep now o) (queue_of p peer)
    else queue_of p peer.
Proof.
  intros Hnd. revert p o. induction Hnd as [|x order Hx Hnd IH]; intros p o Hok E.
  { simpl in E. injection E as <- <-. split; [by apply preserves_refl|].
    intros peer. by rewrite decide_False by (apply not_elem_of_nil). }
  cbn [foldl] in E. destruct (sweep_peer now (p, o) x) as [p1 o1] eqn:E1.
  destruct (sweep_peer_spec now p B o x p1 o1 Hok E1) as (Hp & Hq & Hv).
  destruct (IH p1 o1 (proj1 Hp) E) as [Hp' Hq'].
  split; [by eapply preserves_trans|]. intros peer. rewrite Hq', Hq.
  destruct (decide (peer = x)) as [->|Hne].
  - rewrite decide_False by done. rewrite decide_True by (apply list_elem_of_here). done.
  - destruct (decide (peer ∈ order)) as [Hin|Hin].
    + rewrite decide_True by (by apply list_elem_of_further).
      apply filter_valid_ext. intros fd Hfd. apply Hv. intros Hfd'.
      by eapply Hne, pooled_peer; [apply (proj1 Hok)|..].
    + rewrite decide_False; [done|]. by rewrite elem_of_cons; intros [?|?].
Qed.

(** The iteration order of the hash map: every key once. *)
Definition order_ok (order : list string) (p : RaftConnectionPool) : Prop :=
  NoDup order /\ forall peer, peer ∈ order <-> is_Some (m_connectionPools p !! peer).

Lemma order_ok_queue order p peer :
  order_ok order p -> peer ∉ order -> queue_of p peer = [].
Proof.
  intros [_ Ho] Hn. unfold queue_of. destruct (m_connectionPools p !! peer) eqn:E; [|done].
  exfalso. apply Hn, Ho. eauto.
Qed.

Lemma stop_peers_open p B order o :
  pool_inv p B ->
  os_open (foldl (fun o1 peer => close_queue (queue_of p peer) o1) o order) =
  os_open o ∖ list_to_set (order ≫= fun peer => fds (queue_of p peer)).
Proof.
  intros Hi. revert o. induction order as [|peer order IH]; intros o; [simpl; set_solver|].
  rewrite bind_cons, list_to_set_app_L. cbn [foldl].
  rewrite IH, close_queue_open by (by eapply queue_nonneg). set_solver.
Qed.

Lemma inv_empty B r : (forall fd peer, B !! fd = Some peer -> (0 <= fd)%Z) ->
  pool_inv (mkPool ∅ ∅ r) B.
Proof.
  intros HB. constructor; unfold queue_of; simpl.
  - intros peer. rewrite lookup_empty. simpl. unfold MAX_CONNECTIONS_PER_PEER. lia.
  - intros peer. rewrite lookup_empty. apply NoDup_nil_2.
  - intros peer fd. rewrite lookup_empty. by intros ?%elem_of_nil.
  - intros peer fd. by rewrite lookup_empty.
  - intros peer fd Hfd. by eapply HB.
Qed.

(** Exactly the pooled descriptors are owned without being lent. *)
Lemma owned_pooled p B order fd :
  pool_inv p B -> order_ok order p ->
  fd ∈ owned p B <-> fd ∈ order ≫= (fun peer => fds (queue_of p peer)) \/ is_Some (B !! fd).
Proof.
  intros Hi Ho. rewrite owned_spec, list_elem_of_bind. split.
  - intros [[peer Hm]|?]; [|auto].
    destruct (pi_owner _ _ Hi _ _ Hm) as [?|Hq]; [right; eauto|left].
    exists peer. split; [done|]. destruct (decide (peer ∈ order)) as [?|Hn]; [done|].
    rewrite (order_ok_queue order p peer Ho Hn) in Hq. by apply elem_of_nil in Hq.
  - intros [(peer & Hq & _)|?]; [|auto]. left.
    destruct (pi_pooled _ _ Hi _ _ Hq) as (_ & ? & _). eauto.
Qed.

Lemma pool_stop_preserves order p B o p' o' :
  pool_ok p B o -> order_ok order p -> pool_stop order p o = (p', o') ->
  preserves p B o p' B o' /\
  (cp_running p = true -> p' = RaftConnectionPool_new /\ os_open o' = foreign p B o ∪ dom B).
Proof.
  intros [Hi Ho] Hord. unfold pool_stop. destruct (cp_running p); cbn [negb];
    intros [= <- <-]; [|split; [done|discriminate]].
  pose proof (stop_peers_open p B order o Hi) as Hopen.
  assert (forall fd, fd ∈ dom B -> fd ∉ order ≫= (fun peer => fds (queue_of p peer))) as Hd.
  { intros fd [x HB]%elem_of_dom (peer & Hq & _)%list_elem_of_bind.
    destruct (pi_pooled _ _ Hi _ _ Hq) as (_ & _ & ?). congruence. }
  assert (forall fd, fd ∈ owned p B <->
    fd ∈ order ≫= (fun peer => fds (queue_of p peer)) \/ fd ∈ dom B) as Hw.
  { intros fd. rewrite elem_of_dom. by apply owned_pooled. }
  revert Hopen Hd Hw. generalize (order ≫= fun peer => fds (queue_of p peer)).
  intros pooled Hopen Hd Hw.
  assert (forall fd, fd ∈ dom B -> fd ∈ os_open o) as HB by (intros fd Hfd; apply Ho, Hw; auto).
  assert (owned (mkPool ∅ ∅ false) B = dom B) as E by (unfold owned; simpl; set_solver).
  unfold preserves, pool_ok, foreign. rewrite E, Hopen. split_and!.
  - apply inv_empty. intros fd peer. apply (pi_lent _ _ Hi).
  - intros fd Hfd. rewrite elem_of_difference, elem_of_list_to_set. auto.
  - apply set_eq. intros fd. rewrite !elem_of_difference, elem_of_list_to_set, Hw. tauto.
  - intros _. split; [done|]. apply set_eq. intros fd.
    rewrite elem_of_union, !elem_of_difference, elem_of_list_to_set, Hw.
    destruct (decide (fd ∈ dom B)); [|tauto]. naive_solver.
Qed.
End ownership.

(** ** The pool in use

    The pool, the descriptors lent so far and the operating system; the users
    of the pool (the [send*] methods of [RaftNode]) give a connection back once,
    under the peer they asked it for. *)
Record pool_world (O : Type) := mkPoolWorld {
  pw_pool : RaftConnectionPool;
  pw_lent : gmap Z string;
  pw_os : O;
}.
Arguments mkPoolWorld {O}.
Arguments pw_pool {O}.
Arguments pw_lent {O}.
Arguments pw_os {O}.

Inductive pool_event :=
  | PoolStart
  | PoolStop (order : list string)
  | PoolGet (peer host : string) (port : Z)
  | PoolRelease (peer : string) (fd : Z)
  | PoolClosePeer (peer : string)
  | PoolCleanup (order : list string).

Section pool_world_steps.
Context {O : Type} `{!PoolOS O, !PoolOSLaws O}.
Implicit Types w : pool_world O.

Definition pool_step (ev : pool_event) w : pool_world O :=
  let '(mkPoolWorld p B o) := w in
  match ev with
  | PoolStart => mkPoolWorld (pool_start p) B o
  | PoolStop order => let '(p', o') := pool_stop order p o in mkPoolWorld p' B o'
  | PoolGet peer host port =>
      let '(fd, p', o') := getConnection peer host port p o in mkPoolWorld p' (lend peer fd B) o'
  | PoolRelease peer fd =>
      let '(p', o') := releaseConnection peer fd p o in mkPoolWorld p' (delete fd B) o'
  | PoolClosePeer peer => let '(p', o') := closePeerConnections peer p o in mkPoolWorld p' B o'
  | PoolCleanup order => let '(p', o') := cleanupLoop_turn order p o in mkPoolWorld p' B o'
  end.

Definition pool_event_ok (ev : pool_event) w : Prop :=
  match ev with
  | PoolStop order | PoolCleanup order => order_ok order (pw_pool w)
  | PoolRelease peer fd => pw_lent w !! fd = Some peer
  | _ => True
  end.

(** The rest of the process may do anything with descriptors that are neither
    the pool's nor lent by it. *)
Inductive pool_reach : pool_world O -> Prop :=
  | pool_reach_init o : pool_reach (mkPoolWorld RaftConnectionPool_new ∅ o)
  | pool_reach_op w ev : pool_reach w -> pool_event_ok ev w -> pool_reach (pool_step ev w)
  | pool_reach_env w o' : pool_reach w -> owned (pw_pool w) (pw_lent w) ⊆ os_open o' ->
      pool_reach (mkPoolWorld (pw_pool w) (pw_lent w) o').

Lemma pool_step_preserves ev w :
  pool_ok (pw_pool w) (pw_lent w) (pw_os w) -> pool_event_ok ev w ->
  preserves (pw_pool w) (pw_lent w) (pw_os w) (pw_pool (pool_step ev w))
    (pw_lent (pool_step ev w)) (pw_os (pool_step ev w)).
Proof.
  destruct w as [p B o]. destruct ev; simpl; intros Hok Hev.
  - unfold pool_start. destruct (cp_running p); [by apply preserves_refl|].
    apply preserves_same_open; [|done..]. by destruct Hok as [[] _].
  - destruct (pool_stop order p o) eqn:E. by eapply pool_stop_preserves.
  - destruct (getConnection peer host port p o) as [[fd p'] o'] eqn:E.
    by eapply getConnection_preserves.
  - destruct (releaseConnection peer fd p o) eqn:E. by eapply releaseConnection_preserves.
  - destruct (closePeerConnections peer p o) eqn:E. by eapply closePeerConnections_preserves.
  - destruct (cleanupLoop_turn order p o) eqn:E. unfold cleanupLoop_turn in E.
    destruct (cp_running p); cbn [negb] in E; [|by injection E as <- <-].
    by eapply sweep_peers_spec; [apply Hev|..].
Qed.

Lemma pool_reach_ok w : pool_reach w -> pool_ok (pw_pool w) (pw_lent w) (pw_os w).
Proof.
  induction 1 as [o|w ev Hw IH Hev|w o' Hw IH Ho]; simpl.
  - split; [apply inv_empty; intros fd peer; by rewrite lookup_empty|].
    unfold owned. simpl. set_solver.
  - by apply pool_step_preserves.
  - by split; [apply IH|].
Qed.
End pool_world_steps.

Section getting.
Context {O : Type} `{!PoolOS O, !PoolOSLaws O}.

(** What [getConnection] returns when it succeeds, by the front of the queue. *)
Lemma getConnection_cases peer host port p (o : O) fd p' o' :
  getConnection peer host port p o = (fd, p', o') -> (0 <= fd)%Z ->
  match queue_of p peer with
  | [] => fd ∉ os_open o /\ m_fdToPeerMap p' !! fd = Some peer /\ queue_of p' peer = []
  | front :: rest =>
      queue_of p' peer = rest /\
      if isConnectionValid (ci_fd front) o
      then fd = ci_fd front /\ m_fdToPeerMap p' = m_fdToPeerMap p
      else fd ∉ os_open o ∖ {[ ci_fd front ]} /\ m_fdToPeerMap p' !! fd = Some peer
  end.
Proof.
  unfold getConnection, reuse_front.
  destruct (m_connectionPools p !! peer) as [[|front rest]|] eqn:Eq.
  2: { rewrite (queue_of_cons _ _ _ _ Eq).
    destruct (isConnectionValid (ci_fd front) o).
    - intros [= <- <- <-] _. by rewrite queue_insert, decide_True.
    - destruct (createConnection host port (os_close (ci_fd front) o)) as [s o2] eqn:Ec.
      apply createConnection_open in Ec as [[-> _]|(Hs & Hn & _)]; [by intros [= <- _ _]|].
      rewrite (proj2 (Z.leb_le 0 s)) by lia. intros [= <- <- <-] _. simpl.
      rewrite queue_insert, decide_True by done. rewrite os_close_open in Hn.
      by rewrite lookup_insert_eq. }
  all: assert (queue_of p peer = []) as Hq by (unfold queue_of; by rewrite Eq); rewrite Hq.
  all: destruct (createConnection host port o) as [s o2] eqn:Ec.
  all: apply createConnection_open in Ec as [[-> _]|(Hs & Hn & _)]; [by intros [= <- _ _]|].
  all: rewrite (proj2 (Z.leb_le 0 s)) by lia; intros [= <- <- <-] _; simpl.
  all: rewrite lookup_insert_eq; by split_and!.
Qed.
End getting.

(** ** The properties *)

(** C36. Whatever is done with the pool, no peer's queue is longer than five,
    no descriptor is pooled twice or pooled while it is lent, every descriptor
    the pool holds or has lent is open, and no operation of the pool opens or
    closes a descriptor without accounting for it: the rest of the process's
    descriptors are the same before and after. *)
Theorem pool_descriptors_safe {O : Type} `{!PoolOS O, !PoolOSLaws O} (w : pool_world O) :
  pool_reach w ->
  (forall peer, length (queue_of (pw_pool w) peer) <= 5 /\
     NoDup (fds (queue_of (pw_pool w) peer))) /\
  (forall peer fd, fd ∈ fds (queue_of (pw_pool w) peer) ->
     fd ∈ os_open (pw_os w) /\ pw_lent w !! fd = None /\
     forall peer', fd ∈ fds (queue_of (pw_pool w) peer') -> peer' = peer) /\
  (forall fd peer, pw_lent w !! fd = Some peer -> fd ∈ os_open (pw_os w)) /\
  (forall ev, pool_event_ok ev w ->
     foreign (pw_pool (pool_step ev w)) (pw_lent (pool_step ev w)) (pw_os (pool_step ev w))
     = foreign (pw_pool w) (pw_lent w) (pw_os w)).
Proof.
  intros Hw%pool_reach_ok. pose proof Hw as [Hi Ho]. split_and!.
  - intros peer. split; [apply (pi_size _ _ Hi)|apply (pi_nodup _ _ Hi)].
  - intros peer fd Hfd. split_and!.
    + by eapply Ho, pooled_owned.
    + by eapply (pi_pooled _ _ Hi).
    + intros peer' Hfd'. by eapply pooled_peer.
  - intros fd peer HB. apply Ho, owned_spec. eauto.
  - intros ev Hev. by apply pool_step_preserves.
Qed.

(** A connection handed out by [getConnection] is open, was lent to nobody,
    is registered under the peer, and is no longer pooled: it was either the
    front of the peer's queue, found alive, or a descriptor that neither the pool
    nor its callers held; the only pooled connection that can be lost is a dead front. *)
Theorem getConnection_exclusive {O : Type} `{!PoolOS O, !PoolOSLaws O} (w : pool_world O)
    peer host port fd p' o' :
  pool_reach w -> getConnection peer host port (pw_pool w) (pw_os w) = (fd, p', o') ->
  (fd = -1)%Z \/
  (0 <= fd)%Z /\ fd ∈ os_open o' /\ pw_lent w !! fd = None /\
  m_fdToPeerMap p' !! fd = Some peer /\
  (forall peer', fd ∉ fds (queue_of p' peer')) /\
  match queue_of (pw_pool w) peer with
  | [] => fd ∉ owned (pw_pool w) (pw_lent w) /\ queue_of p' peer = []
  | front :: rest =>
      queue_of p' peer = rest /\
      if isConnectionValid (ci_fd front) (pw_os w) then fd = ci_fd front
      else fd ∉ owned (pw_pool w) (pw_lent w) ∖ {[ ci_fd front ]}
  end.
Proof.
  intros Hw%pool_reach_ok E.
  destruct (getConnection_preserves _ _ _ _ _ _ _ _ _ Hw E) as ([[Hi' Ho'] _] & HB & Hr).
  destruct (decide (fd = -1)%Z) as [?|Hne]; [by left|right].
  assert (0 <= fd)%Z as H0 by lia. unfold lend in Hi', Ho'.
  rewrite (proj2 (Z.leb_le 0 fd)) in Hi', Ho' by lia.
  pose proof (getConnection_cases _ _ _ _ _ _ _ _ E H0) as Hc.
  destruct Hw as [Hi Ho].
  assert (fd ∈ os_open o') as Hopen.
  { apply Ho', owned_spec. right. rewrite lookup_insert_eq. eauto. }
  assert (forall peer', fd ∉ fds (queue_of p' peer')) as Hnp.
  { intros peer' Hfd. destruct (pi_pooled _ _ Hi' _ _ Hfd) as (_ & _ & HN).
    by rewrite lookup_insert_eq in HN. }
  destruct (queue_of (pw_pool w) peer) as [|front rest] eqn:Eq.
  - destruct Hc as (H1 & H2 & H3). split_and!; try done. intros ?. by apply H1, Ho.
  - destruct Hc as [H1 H2]. destruct (isConnectionValid (ci_fd front) (pw_os w)).
    + destruct H2 as [-> Hm]. split_and!; try done. rewrite Hm.
      eapply (pi_pooled _ _ Hi). rewrite Eq. apply list_elem_of_here.
    + destruct H2 as [H2 H3]. split_and!; try done. set_solver.
Qed.

(** A connection given back with the bytes of a late answer still unread
    is taken for alive and goes back to the pool, and when it is the only
    pooled connection of the peer the next [getConnection] for that peer hands it
    out again with those bytes in front: nothing between the two drains it. *)
Theorem unread_reply_is_reused {O : Type} `{!PoolOS O, !PoolOSLaws O} (w : pool_world O)
    peer host port fd b bs :
  pool_reach w -> pw_lent w !! fd = Some peer ->
  m_fdToPeerMap (pw_pool w) !! fd = Some peer ->
  os_peek fd (pw_os w) = RecvBytes (b :: bs) -> queue_of (pw_pool w) peer = [] ->
  let '(p1, o1) := releaseConnection peer fd (pw_pool w) (pw_os w) in
  let '(fd2, p2, o2) := getConnection peer host port p1 o1 in
  fd2 = fd /\ o2 = pw_os w /\ os_peek fd2 o2 = RecvBytes (b :: bs) /\
  m_fdToPeerMap p2 = m_fdToPeerMap (pw_pool w) /\
  forall peer', queue_of p2 peer' = queue_of (pw_pool w) peer'.
Proof.
  intros Hw%pool_reach_ok HB Hm Hp Hq.
  assert (isConnectionValid fd (pw_os w) = true) as Hv.
  { unfold isConnectionValid. rewrite (proj2 (Z.ltb_ge fd 0)); [by rewrite Hp|].
    by eapply (pi_lent _ _ (proj1 Hw)). }
  unfold releaseConnection. rewrite bool_decide_true by done. cbn [negb].
  rewrite Hv, Hq. cbn [negb length Nat.ltb Nat.leb MAX_CONNECTIONS_PER_PEER app].
  unfold getConnection, reuse_front. cbn [m_connectionPools]. rewrite lookup_insert_eq.
  cbn [ci_fd]. rewrite Hv. split_and!; [done..|]. intros peer'.
  rewrite insert_insert_eq. rewrite queue_insert. case_decide; [by subst|done].
Qed.

(** One turn of the clean-up thread leaves in every peer's queue exactly the
    connections that are alive and were used in the last 300 seconds, in their
    order, closes the others, and touches no other descriptor. *)
Theorem cleanup_keeps_fresh {O : Type} `{!PoolOS O, !PoolOSLaws O} (w : pool_world O)
    order p' o' :
  pool_reach w -> order_ok order (pw_pool w) -> cp_running (pw_pool w) = true ->
  cleanupLoop_turn order (pw_pool w) (pw_os w) = (p', o') ->
  (forall peer, queue_of p' peer =
     filter (kept_by_sweep (os_now (pw_os w)) (pw_os w)) (queue_of (pw_pool w) peer)) /\
  pool_ok p' (pw_lent w) o' /\
  foreign p' (pw_lent w) o' = foreign (pw_pool w) (pw_lent w) (pw_os w).
Proof.
  intros Hw%pool_reach_ok Ho Hr. unfold cleanupLoop_turn. rewrite Hr. cbn [negb]. intros E.
  destruct (sweep_peers_spec _ _ _ _ _ _ _ (proj1 Ho) Hw E) as [Hp Hq].
  split; [|exact Hp]. intros peer. rewrite Hq. case_decide as Hin; [done|].
  by rewrite (order_ok_queue _ _ _ Ho Hin).
Qed.

(** Stopping a running pool closes every pooled connection and nothing else:
    what stays open is what the pool never owned and what is still lent. *)
Theorem stop_closes_pooled {O : Type} `{!PoolOS O, !PoolOSLaws O} (w : pool_world O)
    order p' o' :
  pool_reach w -> order_ok order (pw_pool w) -> cp_running (pw_pool w) = true ->
  pool_stop order (pw_pool w) (pw_os w) = (p', o') ->
  p' = RaftConnectionPool_new /\
  os_open o' = foreign (pw_pool w) (pw_lent w) (pw_os w) ∪ dom (pw_lent w).
Proof.
  intros Hw%pool_reach_ok Ho Hr E.
  by apply (pool_stop_preserves order _ _ _ _ _ Hw Ho E).
Qed.


(** ** Witnesses *)
Module Witness.

(** A process with a table of open descriptors, the unread bytes of each, and
    the clock; every [connect] succeeds. *)
Record toy_os := mkToy { toy_open : gset Z; toy_inbox : gmap Z (list byte); toy_now : Z }.

Definition next_fd (s : gset Z) : Z := (1 + foldr Z.max 2 (elements s))%Z.

Lemma next_fd_above s fd : fd ∈ s -> (fd < next_fd s)%Z.
Proof.
  intros H%elem_of_elements. unfold next_fd. induction (elements s) as [|x l IH].
  - by apply elem_of_nil in H.
  - apply elem_of_cons in H as [->|H]; simpl; [lia|specialize (IH H); lia].
Qed.

#[export] Instance toy_ops : PoolOS toy_os := {|
  os_socket o := (next_fd (toy_open o),
                  mkToy ({[ next_fd (toy_open o) ]} ∪ toy_open o) (toy_inbox o) (toy_now o));
  os_pton _ := true;
  os_connect _ _ _ o := (true, o);
  os_close fd o := mkToy (toy_open o ∖ {[ fd ]}) (toy_inbox o) (toy_now o);
  os_peek fd o := match toy_inbox o !! fd with
                  | Some (b :: _) => RecvBytes [b]
                  | Some [] => RecvBytes []
                  | None => RecvError true
                  end;
  os_now := toy_now;
|}.

#[export] Instance toy_laws : PoolOSLaws toy_os.
Proof.
  refine {| os_open := toy_open |}; try done.
  intros o fd o' [= <- <-]. right. split_and!; [| |done].
  - unfold next_fd. assert (2 <= foldr Z.max 2 (elements (toy_open o)))%Z; [|lia].
    induction (elements (toy_open o)); simpl; lia.
  - intros H%next_fd_above. lia.
Defined.

(** Descriptors 0, 1, 2 are open; a late answer is waiting on 3. *)
Definition os0 : toy_os := mkToy {[ 0; 1; 2 ]}%Z {[ 3%Z := [x50] ]} 0.

Definition started : pool_world toy_os :=
  pool_step PoolStart (mkPoolWorld RaftConnectionPool_new ∅ os0).
Definition lent3 : pool_world toy_os := pool_step (PoolGet "node2" "127.0.0.1" 8081) started.
Definition pooled3 : pool_world toy_os := pool_step (PoolRelease "node2" 3) lent3.

Lemma lent3_reach : pool_reach lent3.
Proof. do 2 (apply pool_reach_op; [|exact I]). apply pool_reach_init. Qed.

Lemma pooled3_reach : pool_reach pooled3.
Proof. apply pool_reach_op; [apply lent3_reach|vm_compute; reflexivity]. Qed.

Lemma pooled3_queue peer : m_connectionPools (pw_pool pooled3) !! peer =
  if decide (peer = "node2") then Some [mkConnectionInfo 3 "" 0 0 false] else None.
Proof.
  replace (m_connectionPools (pw_pool pooled3))
    with ({[ "node2" := [mkConnectionInfo 3 "" 0 0 false] ]} :> gmap string _)
    by (vm_compute; reflexivity).
  case_decide as E; [by subst; rewrite lookup_singleton_eq|by rewrite lookup_singleton_ne].
Qed.

Lemma pooled3_order : order_ok ["node2"] (pw_pool pooled3).
Proof.
  split; [apply NoDup_singleton|]. intros peer.
  rewrite list_elem_of_singleton, pooled3_queue. case_decide; naive_solver.
Qed.

Lemma pool_descriptors_safe_witness :
  3%Z ∈ os_open (pw_os pooled3) /\ fds (queue_of (pw_pool pooled3) "node2") = [3%Z].
Proof.
  split; [|vm_compute; reflexivity].
  destruct (pool_descriptors_safe pooled3 pooled3_reach) as (_ & Hp & _).
  apply (Hp "node2"). vm_compute. apply list_elem_of_here.
Defined.

Lemma getConnection_exclusive_witness :
  let '(fd, p', o') := getConnection "node2" "127.0.0.1" 8081 (pw_pool pooled3) (pw_os pooled3) in
  fd = 3%Z /\ (forall peer, fd ∉ fds (queue_of p' peer)).
Proof.
  destruct (getConnection "node2" "127.0.0.1" 8081 (pw_pool pooled3) (pw_os pooled3))
    as [[fd p'] o'] eqn:E.
  destruct (getConnection_exclusive pooled3 _ _ _ _ _ _ pooled3_reach E)
    as [->|(_ & _ & _ & _ & Hn & _)]; [vm_compute in E; discriminate|].
  split; [|done]. vm_compute in E. by injection E.
Defined.

Lemma unread_reply_is_reused_witness :
  os_peek 3 (pw_os lent3) = RecvBytes [x50] /\
  let '(p1, o1) := releaseConnection "node2" 3 (pw_pool lent3) (pw_os lent3) in
  (getConnection "node2" "127.0.0.1" 8081 p1 o1).1.1 = 3%Z.
Proof.
  split; [vm_compute; reflexivity|].
  pose proof (unread_reply_is_reused lent3 "node2" "127.0.0.1" 8081 3 x50 [] lent3_reach
    ltac:(vm_compute; reflexivity) ltac:(vm_compute; reflexivity)
    ltac:(vm_compute; reflexivity) ltac:(vm_compute; reflexivity)) as H.
  destruct (releaseConnection "node2" 3 (pw_pool lent3) (pw_os lent3)) as [p1 o1].
  destruct (getConnection "node2" "127.0.0.1" 8081 p1 o1) as [[fd2 p2] o2]. apply H.
Defined.

(** Six minutes later the connection has expired. *)
Definition later : pool_world toy_os :=
  mkPoolWorld (pw_pool pooled3) (pw_lent pooled3)
    (mkToy (toy_open (pw_os pooled3)) (toy_inbox (pw_os pooled3)) 360000000000).

Lemma later_reach : pool_reach later.
Proof.
  apply pool_reach_env; [apply pooled3_reach|]. exact (proj2 (pool_reach_ok pooled3 pooled3_reach)).
Qed.

Lemma cleanup_keeps_fresh_witness :
  let '(p', o') := cleanupLoop_turn ["node2"] (pw_pool later) (pw_os later) in
  queue_of p' "node2" = [] /\ pool_ok p' ∅ o'.
Proof.
  destruct (cleanupLoop_turn ["node2"] (pw_pool later) (pw_os later)) as [p' o'] eqn:E.
  destruct (cleanup_keeps_fresh later _ _ _ later_reach pooled3_order eq_refl E) as (Hq & Hok & _).
  split; [by rewrite Hq; vm_compute|exact Hok].
Defined.

Lemma stop_closes_pooled_witness :
  let '(p', o') := pool_stop ["node2"] (pw_pool pooled3) (pw_os pooled3) in
  p' = RaftConnectionPool_new /\ 3%Z ∉ os_open o'.
Proof.
  destruct (pool_stop ["node2"] (pw_pool pooled3) (pw_os pooled3)) as [p' o'] eqn:E.
  destruct (stop_closes_pooled pooled3 _ _ _ pooled3_reach pooled3_order eq_refl E) as [Hp Ho].
  split; [exact Hp|]. rewrite Ho.
  apply (bool_decide_eq_true_1 _). vm_compute. reflexivity.
Defined.
End Witness.
