(* ===== verification/Descriptors.v ===== *)
(** * Descriptors

    The process's descriptor table: a descriptor stands for a stream socket, and
    [send] and [recv] on a descriptor are those of its stream.  [PoolOS]
    (in [ConnPool]) gives the calls that make and close descriptors; [FdTable]
    adds the streams, so that the code that names descriptors
    ([Connection::forwardToNode], [RaftNode::sendRequestVote], ...) is the code
    of [Protocol] on them. *)
From S2P Require Import Prelude Socket Protocol ConnPool.

Class FdTable (O S : Type) := {
  fd_stream : Z -> O -> option S;          (* None: EBADF *)
  fd_update : Z -> S -> O -> O;
}.

(** The streams of open descriptors change only by what is done to them. *)
Class FdTableLaws (O S : Type) `{!PoolOS O, !PoolOSLaws O, !FdTable O S, !SocketOps S} := {
  fd_stream_open fd (o : O) : is_Some (fd_stream fd o) <-> fd ∈ os_open o;
  fd_update_same fd (s : S) (o : O) : fd ∈ os_open o -> fd_stream fd (fd_update fd s o) = Some s;
  fd_update_other fd fd' (s : S) (o : O) :
    fd' <> fd -> fd_stream fd' (fd_update fd s o) = fd_stream fd' o;
  fd_update_open fd (s : S) (o : O) : fd ∈ os_open o -> os_open (fd_update fd s o) = os_open o;
  fd_socket_stream fd' (o : O) :
    fd' ∈ os_open o -> fd_stream fd' (os_socket o).2 = fd_stream fd' o;
  fd_connect_stream fd fd' host port (o : O) :
    fd' <> fd -> fd_stream fd' (os_connect fd host port o).2 = fd_stream fd' o;
  fd_close_stream fd fd' (o : O) : fd' <> fd -> fd_stream fd' (os_close fd o) = fd_stream fd' o;
  fd_peek_stream fd (o : O) (s : S) : fd_stream fd o = Some s -> os_peek fd o = sk_peek 1 s;
}.

Section descriptors.
Context {O S : Type} `{!FdTable O S, !SocketOps S}.

(** [send(fd, data)] and [recv(fd, len)] themselves. *)
Definition fd_send (fd : Z) (data : list byte) (o : O) : Z * O :=
  match fd_stream fd o with
  | None => ((-1)%Z, o)
  | Some s => let '(n, s') := sk_send data s in (n, fd_update fd s' o)
  end.

Definition fd_recv (fd : Z) (len : nat) (o : O) : recv_result * O :=
  match fd_stream fd o with
  | None => (RecvError false, o)
  | Some s => let '(r, s') := sk_recv len s in (r, fd_update fd s' o)
  end.

(** [Protocol::sendMessage(fd, data)] and [Protocol::recvMessage(fd, out)]; on a
    descriptor that is not open the first call fails. *)
Definition fd_sendMessage (fd : Z) (data : list byte) (o : O) : bool * O :=
  match fd_stream fd o with
  | None => (false, o)
  | Some s => let '(ok, s') := sendMessage data s in (ok, fd_update fd s' o)
  end.

Definition fd_recvMessage (fd : Z) (out : list byte) (o : O) : bool * list byte * O :=
  match fd_stream fd o with
  | None => (false, out, o)
  | Some s => let '(ok, out', s') := recvMessage out s in (ok, out', fd_update fd s' o)
  end.
End descriptors.

(** ** What the calls leave alone *)
Section laws.
Context {O S : Type} `{!PoolOS O, !PoolOSLaws O, !FdTable O S, !SocketOps S, !FdTableLaws O S}.

(** [o'] has the descriptors of [o], and all streams except [fd]'s. *)
Definition same_but (fd : Z) (o o' : O) : Prop :=
  os_open o' = os_open o /\ forall fd', fd' <> fd -> fd_stream fd' o' = fd_stream fd' o.

Lemma same_but_refl fd o : same_but fd o o.
Proof. done. Qed.

Lemma same_but_trans fd o1 o2 o3 : same_but fd o1 o2 -> same_but fd o2 o3 -> same_but fd o1 o3.
Proof. intros [E1 H1] [E2 H2]. split; [congruence|]. intros fd' Hne. by rewrite H2, H1. Qed.

Lemma fd_stream_is_open fd o s : fd_stream fd o = Some s -> fd ∈ os_open o.
Proof. intros E. apply fd_stream_open. eauto. Qed.

Lemma open_fd_stream fd o : fd ∈ os_open o -> exists s, fd_stream fd o = Some s.
Proof. intros H. by apply fd_stream_open in H as [s Hs]; eauto. Qed.

Lemma fd_update_but fd s o : fd ∈ os_open o -> same_but fd o (fd_update fd s o).
Proof. intros H. split; [by apply fd_update_open|]. intros fd' Hne. by apply fd_update_other. Qed.

Lemma fd_sendMessage_but fd data o : same_but fd o (fd_sendMessage fd data o).2.
Proof.
  unfold fd_sendMessage. destruct (fd_stream fd o) as [s|] eqn:E; [|apply same_but_refl].
  destruct (sendMessage data s) as [ok s']. by eapply fd_update_but, fd_stream_is_open.
Qed.

Lemma fd_recvMessage_but fd out o : same_but fd o (fd_recvMessage fd out o).2.
Proof.
  unfold fd_recvMessage. destruct (fd_stream fd o) as [s|] eqn:E; [|apply same_but_refl].
  destruct (recvMessage out s) as [[ok out'] s']. by eapply fd_update_but, fd_stream_is_open.
Qed.

Lemma fd_send_but fd data o : same_but fd o (fd_send fd data o).2.
Proof.
  unfold fd_send. destruct (fd_stream fd o) as [s|] eqn:E; [|apply same_but_refl].
  destruct (sk_send data s) as [n s']. by eapply fd_update_but, fd_stream_is_open.
Qed.

Lemma fd_recv_but fd len o : same_but fd o (fd_recv fd len o).2.
Proof.
  unfold fd_recv. destruct (fd_stream fd o) as [s|] eqn:E; [|apply same_but_refl].
  destruct (sk_recv len s) as [r s']. by eapply fd_update_but, fd_stream_is_open.
Qed.

(** The descriptors of [o], and the streams of [fds]. *)
Definition kept (fds : gset Z) (o o' : O) : Prop :=
  os_open o' = os_open o /\ forall fd, fd ∈ fds -> fd_stream fd o' = fd_stream fd o.

(** The network opens and closes none of the process's descriptors; that it is
    quiet on [fds] is said where it is needed. *)
Definition quiet_on (fds : gset Z) (relay : O -> O) : Prop := forall o, kept fds o (relay o).

Lemma kept_refl fds o : kept fds o o.
Proof. done. Qed.

Lemma kept_trans fds o1 o2 o3 : kept fds o1 o2 -> kept fds o2 o3 -> kept fds o1 o3.
Proof. intros [E1 H1] [E2 H2]. split; [congruence|]. intros fd Hin. by rewrite H2, H1. Qed.

Lemma same_but_kept fds fd o o' : fd ∉ fds -> same_but fd o o' -> kept fds o o'.
Proof. intros Hn [E H]. split; [done|]. intros fd' Hin. apply H. by intros ->. Qed.

(** What the network may do to a stream of this process: bytes arrive behind those that are
    not read yet, the peer closes its side, and nothing arrives after that; what was
    handed to the kernel stays handed. *)
Definition received `{!SocketLaws S} (s s' : S) : Prop :=
  sk_sent s' = sk_sent s /\
  exists more, sk_avail s' = (sk_avail s ++ more)%list /\
    (sk_eof s = true -> more = [] /\ sk_eof s' = true).

(** Activity of the network: no descriptor is opened or closed, and the streams receive. *)
Definition network_moves `{!SocketLaws S} (o o' : O) : Prop :=
  os_open o' = os_open o /\
  forall fd s, fd_stream fd o = Some s -> exists s', fd_stream fd o' = Some s' /\ received s s'.

Lemma received_refl `{!SocketLaws S} (s : S) : received s s.
Proof. split; [done|]. exists []. by rewrite app_nil_r. Qed.

Lemma network_moves_refl `{!SocketLaws S} o : network_moves o o.
Proof. split; [done|]. intros fd s E. exists s. split; [done|apply received_refl]. Qed.

(** A socket made for one exchange: it is none of [fds], and closing it leaves
    the descriptors as they were. *)
Lemma temporary_socket fds o fd o1 :
  os_socket o = (fd, o1) -> fds ⊆ os_open o ->
  if (fd <? 0)%Z then kept fds o o1
  else fd ∉ fds /\ forall o2, kept fds o1 o2 -> kept fds o (os_close fd o2).
Proof.
  intros Es Hsub.
  assert (forall fd', fd' ∈ fds -> fd_stream fd' o1 = fd_stream fd' o) as Hs1.
  { intros fd' H%Hsub. replace o1 with (os_socket o).2 by by rewrite Es. by apply fd_socket_stream. }
  apply os_socket_open in Es as [[Hfd Ho]|(Hfd & Hnew & Ho)].
  { rewrite (proj2 (Z.ltb_lt fd 0)) by lia. by split. }
  rewrite (proj2 (Z.ltb_ge fd 0)) by lia. split; [set_solver|].
  intros o2 [E Hk]. split; [rewrite os_close_open, E, Ho; set_solver|].
  intros fd' H. assert (fd' <> fd) by (intros ->; by apply Hnew, Hsub).
  by rewrite fd_close_stream, Hk, Hs1.
Qed.

(** The message functions on an open descriptor. *)
Lemma fd_sendMessage_eq fd data o s ok s' :
  fd_stream fd o = Some s -> sendMessage data s = (ok, s') ->
  fd_sendMessage fd data o = (ok, fd_update fd s' o) /\
  fd_stream fd (fd_update fd s' o) = Some s'.
Proof.
  intros E Hs. unfold fd_sendMessage. rewrite E, Hs. split; [done|].
  by eapply fd_update_same, fd_stream_is_open.
Qed.

Lemma fd_recvMessage_eq fd out o s ok out' s' :
  fd_stream fd o = Some s -> recvMessage out s = (ok, out', s') ->
  fd_recvMessage fd out o = (ok, out', fd_update fd s' o) /\
  fd_stream fd (fd_update fd s' o) = Some s'.
Proof.
  intros E Hs. unfold fd_recvMessage. rewrite E, Hs. split; [done|].
  by eapply fd_update_same, fd_stream_is_open.
Qed.
End laws.

(** ** A process beside other state

    The calls act on the process; what stands beside it is for the network. *)
Section beside.
Context {O S X : Type} `{!PoolOS O, !FdTable O S}.

#[export] Instance beside_os : PoolOS (O * X) := {|
  os_socket w := let '(fd, o) := os_socket w.1 in (fd, (o, w.2));
  os_pton := os_pton;
  os_connect fd host port w := let '(ok, o) := os_connect fd host port w.1 in (ok, (o, w.2));
  os_close fd w := (os_close fd w.1, w.2);
  os_peek fd w := os_peek fd w.1;
  os_now w := os_now w.1;
|}.

#[export] Instance beside_table : FdTable (O * X) S := {|
  fd_stream fd w := fd_stream fd w.1;
  fd_update fd s w := (fd_update fd s w.1, w.2);
|}.

Context `{!PoolOSLaws O, !SocketOps S, !FdTableLaws O S}.

#[export] Instance beside_os_laws : PoolOSLaws (O * X).
Proof.
  refine {| os_open w := os_open w.1 |}; simpl.
  - intros [o x] fd [o' x'] E. simpl in *. destruct (os_socket o) as [fd0 o0] eqn:Eo.
    injection E as -> -> ->. by apply os_socket_open.
  - intros fd host port [o x]. simpl. pose proof (os_connect_open fd host port o) as Ho.
    by destruct (os_connect fd host port o).
  - intros fd [o x]. apply os_close_open.
  - intros fd fd' [o x]. apply os_close_peek.
Defined.

#[export] Instance beside_table_laws : FdTableLaws (O * X) S.
Proof.
  constructor; simpl.
  - intros fd [o x]. apply fd_stream_open.
  - intros fd s [o x]. apply fd_update_same.
  - intros fd fd' s [o x]. apply fd_update_other.
  - intros fd s [o x]. apply fd_update_open.
  - intros fd' [o x] Hin. simpl. pose proof (fd_socket_stream fd' o Hin) as Ho.
    by destruct (os_socket o).
  - intros fd fd' host port [o x] Hne. simpl.
    pose proof (fd_connect_stream fd fd' host port o Hne) as Ho.
    by destruct (os_connect fd host port o).
  - intros fd fd' [o x]. apply fd_close_stream.
  - intros fd [o x] s. apply fd_peek_stream.
Defined.
End beside.

(** ** A concrete process

    The streams of the open descriptors, the clock, and what the coming
    [connect] calls find: nobody, or a peer whose side of the new
    connection is given. *)
Record process := mkProcess {
  ps_streams : gmap Z nb_stream;
  ps_connects : list (option nb_stream);
  ps_now : Z;
}.

Definition ps_open (o : process) : gset Z := dom (ps_streams o).

(** The least descriptor above all open ones. *)
Definition new_fd (s : gset Z) : Z := (1 + foldr Z.max 2 (elements s))%Z.

Lemma new_fd_above s fd : fd ∈ s -> (fd < new_fd s)%Z.
Proof.
  intros H%elem_of_elements. unfold new_fd. induction (elements s) as [|x l IH].
  - by apply elem_of_nil in H.
  - apply elem_of_cons in H as [->|H]; simpl; [lia|specialize (IH H); lia].
Qed.

Lemma new_fd_nonneg s : (0 <= new_fd s)%Z.
Proof.
  unfold new_fd. assert (2 <= foldr Z.max 2 (elements s))%Z; [|lia].
  induction (elements s); simpl; lia.
Qed.

Definition idle_stream : nb_stream := mkStream [] false [] 4096.

#[export] Instance process_ops : PoolOS process := {|
  os_socket o := (new_fd (ps_open o),
    mkProcess (<[new_fd (ps_open o) := idle_stream]> (ps_streams o)) (ps_connects o) (ps_now o));
  os_pton _ := true;
  os_connect fd _ _ o :=
    match ps_connects o with
    | Some s :: rest =>
        (true, mkProcess (if decide (fd ∈ ps_open o) then <[fd := s]> (ps_streams o)
                          else ps_streams o) rest (ps_now o))
    | None :: rest => (false, mkProcess (ps_streams o) rest (ps_now o))
    | [] => (false, o)
    end;
  os_close fd o := mkProcess (delete fd (ps_streams o)) (ps_connects o) (ps_now o);
  os_peek fd o := match ps_streams o !! fd with
                  | Some s => nb_peek 1 s
                  | None => RecvError false
                  end;
  os_now := ps_now;
|}.

#[export] Instance process_laws : PoolOSLaws process.
Proof.
  refine {| os_open := ps_open |}.
  - intros o fd o' [= <- <-]. right. split_and!; [apply new_fd_nonneg| |].
    + intros H%new_fd_above. lia.
    + unfold ps_open. simpl. by rewrite dom_insert_L.
  - intros fd host port o. unfold ps_open. simpl.
    destruct (ps_connects o) as [|[s|] rest]; simpl; [done| |done].
    case_decide as Hd; [|done]. rewrite dom_insert_L. set_solver.
  - intros fd o. unfold ps_open. simpl. apply dom_delete_L.
  - intros fd fd' o Hne. simpl. by rewrite lookup_delete_ne.
Defined.

#[export] Instance process_table : FdTable process nb_stream := {|
  fd_stream fd o := ps_streams o !! fd;
  fd_update fd s o := mkProcess (<[fd := s]> (ps_streams o)) (ps_connects o) (ps_now o);
|}.

#[export] Instance process_table_laws : FdTableLaws process nb_stream.
Proof.
  constructor.
  - intros fd o. simpl. unfold ps_open. by rewrite elem_of_dom.
  - intros fd s o _. simpl. by rewrite lookup_insert_eq.
  - intros fd fd' s o Hne. simpl. by rewrite lookup_insert_ne.
  - intros fd s o H. simpl in *. unfold ps_open in *. simpl. rewrite dom_insert_L. set_solver.
  - intros fd' o H. simpl in *. rewrite lookup_insert_ne; [done|].
    intros <-. apply new_fd_above in H. lia.
  - intros fd fd' host port o Hne. simpl.
    destruct (ps_connects o) as [|[s|] rest]; simpl; [done| |done].
    case_decide; [|done]. by rewrite lookup_insert_ne.
  - intros fd fd' o Hne. simpl. by rewrite lookup_delete_ne.
  - intros fd o s E. simpl in *. by rewrite E.
Defined.
