(* ===== verification/PoolStreams.v ===== *)
(** * The streams the connection pool leaves alone

    What [ConnPool] (src/raft/RaftConnectionPool.cpp) does to the sockets of the process: it
    connects, closes and probes its own descriptors, and the streams of all others are
    as they were. *)
From S2P Require Import Prelude Socket Protocol ConnPool Descriptors.

(** ** The connection pool touches only what it owns *)
Section pool_streams.
Context {O S : Type} `{!PoolOS O, !PoolOSLaws O, !FdTable O S, !SocketOps S, !FdTableLaws O S}.
Variable X : gset Z.
Implicit Types (p : RaftConnectionPool) (q : list ConnectionInfo).

(** The streams on [X] are as they were. *)
Definition streams_kept (o o' : O) : Prop :=
  forall fd, fd ∈ X -> fd_stream fd o' = fd_stream fd o.

Lemma streams_kept_refl o : streams_kept o o.
Proof. done. Qed.

Lemma streams_kept_trans o1 o2 o3 :
  streams_kept o1 o2 -> streams_kept o2 o3 -> streams_kept o1 o3.
Proof. intros H1 H2 fd Hfd. by rewrite H2, H1. Qed.

Lemma close_kept fd (o : O) : fd ∉ X -> streams_kept o (os_close fd o).
Proof. intros Hn fd' Hfd'. apply fd_close_stream. by intros ->. Qed.

(** No connection of a queue, or of any queue of the pool, is on [X]. *)
Definition queue_apart q : Prop := forall fd, fd ∈ fds q -> fd ∉ X.
Definition pool_apart p : Prop := forall peer, queue_apart (queue_of p peer).

Lemma queue_apart_cons conn q :
  queue_apart (conn :: q) -> ci_fd conn ∉ X /\ queue_apart q.
Proof. unfold queue_apart, fds. csimpl. intros Hq. split; [apply Hq; left|]. intros fd Hfd. apply Hq. by right. Qed.

Lemma close_queue_kept q (o : O) : queue_apart q -> streams_kept o (close_queue q o).
Proof.
  revert o. induction q as [|conn q IH]; intros o Hq; simpl; [apply streams_kept_refl|].
  apply queue_apart_cons in Hq as [Hc Hq]. eapply streams_kept_trans; [|by apply IH].
  case_match; [by apply close_kept|apply streams_kept_refl].
Qed.

Lemma close_entries_kept q m (o : O) : queue_apart q -> streams_kept o (close_entries q m o).2.
Proof.
  revert m o. induction q as [|conn q IH]; intros m o Hq; simpl; [apply streams_kept_refl|].
  apply queue_apart_cons in Hq as [Hc Hq]. case_match; [|by apply IH].
  eapply streams_kept_trans; [by apply close_kept|by apply IH].
Qed.

Lemma sweep_queue_kept now q m (o : O) :
  queue_apart q ->
  streams_kept o (sweep_queue now q m o).2 /\ queue_apart (sweep_queue now q m o).1.1.
Proof.
  revert m o. induction q as [|conn q IH]; intros m o Hq; simpl.
  { split; [apply streams_kept_refl|done]. }
  apply queue_apart_cons in Hq as [Hc Hq]. case_match.
  - destruct (IH (delete (ci_fd conn) m) (os_close (ci_fd conn) o) Hq) as [H1 H2].
    split; [|done]. eapply streams_kept_trans; [by apply close_kept|done].
  - destruct (IH m o Hq) as [H1 H2]. destruct (sweep_queue now q m o) as [[q' m1] o1]. simpl in *.
    split; [done|]. intros fd. unfold fds. csimpl. intros [->|Hfd]%elem_of_cons; [done|by apply H2].
Qed.

Lemma sweep_peers_kept now order p (o : O) :
  pool_apart p -> streams_kept o (foldl (sweep_peer now) (p, o) order).2.
Proof.
  revert p o. induction order as [|peer order IH]; intros p o Hp; simpl; [apply streams_kept_refl|].
  destruct (sweep_queue_kept now (queue_of p peer) (m_fdToPeerMap p) o (Hp peer)) as [H1 H2].
  destruct (sweep_queue now (queue_of p peer) (m_fdToPeerMap p) o) as [[q' m1] o1]. simpl in *.
  eapply streams_kept_trans; [exact H1|]. apply IH.
  intros peer'. unfold queue_of. simpl. destruct (decide (peer' = peer)) as [->|Hne].
  - by rewrite lookup_insert_eq.
  - rewrite lookup_insert_ne by done. apply Hp.
Qed.

Lemma createConnection_kept host port (o : O) :
  X ⊆ os_open o -> streams_kept o (createConnection host port o).2.
Proof.
  intros HX. unfold createConnection. destruct (os_socket o) as [fd o1] eqn:Es.
  pose proof (temporary_socket X o fd o1 Es HX) as Ht.
  assert (streams_kept o o1) as H1.
  { intros fd' Hfd'. replace o1 with (os_socket o).2 by by rewrite Es.
    by apply fd_socket_stream, HX. }
  destruct (fd <? 0)%Z; [done|]. destruct Ht as [Hfd _].
  assert (forall n o2, streams_kept o2 (connect_attempts n fd host (u16 port) o2).2) as Hatt.
  { intros n. induction n as [|n IH]; intros o2; simpl; [apply streams_kept_refl|].
    assert (streams_kept o2 (os_connect fd host (u16 port) o2).2) as Hc.
    { intros fd' Hfd'. apply fd_connect_stream. by intros ->. }
    destruct (os_connect fd host (u16 port) o2) as [[|] o3]; [done|].
    eapply streams_kept_trans; [exact Hc|apply IH]. }
  destruct (os_pton host); cbn [negb].
  - specialize (Hatt 3 o1). destruct (connect_attempts 3 fd host (u16 port) o1) as [[|] o2].
    + by eapply streams_kept_trans.
    + eapply streams_kept_trans; [exact H1|]. eapply streams_kept_trans; [exact Hatt|].
      by apply close_kept.
  - eapply streams_kept_trans; [exact H1|by apply close_kept].
Qed.

Lemma getConnection_kept peer host port p (o : O) :
  pool_apart p -> X ⊆ os_open o -> streams_kept o (getConnection peer host port p o).2.
Proof.
  intros Hp HX. unfold getConnection, reuse_front.
  assert (forall p1 o1, streams_kept o o1 -> X ⊆ os_open o1 ->
    streams_kept o (let '(fd, o2) := createConnection host port o1 in
      if (0 <=? fd)%Z
      then (fd, mkPool (m_connectionPools p1) (<[fd := peer]> (m_fdToPeerMap p1)) (cp_running p1), o2)
      else ((-1)%Z, p1, o2)).2) as Hnew.
  { intros p1 o1 H1 H2. pose proof (createConnection_kept host port o1 H2) as Hc.
    destruct (createConnection host port o1) as [fd o2]. cbn [snd] in Hc.
    case_match; by eapply streams_kept_trans. }
  destruct (m_connectionPools p !! peer) as [[|conn rest]|] eqn:Eq; [by apply Hnew| |by apply Hnew].
  assert (ci_fd conn ∉ X) as Hc.
  { apply (Hp peer). unfold queue_of. rewrite Eq. left. }
  destruct (isConnectionValid (ci_fd conn) o); [done|]. apply Hnew; [by apply close_kept|].
  rewrite os_close_open. set_solver.
Qed.

Lemma releaseConnection_kept peer fd p (o : O) :
  fd ∉ X -> streams_kept o (releaseConnection peer fd p o).2.
Proof.
  intros Hfd. unfold releaseConnection.
  repeat case_match; first [by apply close_kept|apply streams_kept_refl].
Qed.

Lemma closePeerConnections_kept peer p (o : O) :
  pool_apart p -> streams_kept o (closePeerConnections peer p o).2.
Proof.
  intros Hp. unfold closePeerConnections.
  destruct (m_connectionPools p !! peer) as [q|] eqn:Eq; [|apply streams_kept_refl].
  assert (queue_apart q) as Hq.
  { pose proof (Hp peer) as Ha. unfold queue_of in Ha. by rewrite Eq in Ha. }
  pose proof (close_entries_kept q (m_fdToPeerMap p) o Hq) as Hk.
  by destruct (close_entries q (m_fdToPeerMap p) o).
Qed.

Lemma pool_stop_kept order p (o : O) :
  pool_apart p -> streams_kept o (pool_stop order p o).2.
Proof.
  intros Hp. unfold pool_stop. destruct (negb (cp_running p)); [apply streams_kept_refl|]. simpl.
  revert o. induction order as [|peer order IH]; intros o; simpl; [apply streams_kept_refl|].
  eapply streams_kept_trans; [by apply (close_queue_kept (queue_of p peer))|apply IH].
Qed.

Lemma pool_ok_apart p L (o : O) : pool_ok p L o -> X ## owned p L -> pool_apart p.
Proof.
  intros [Hi _] HX peer fd Hfd Hin. apply (HX fd Hin). by eapply pooled_owned.
Qed.

Lemma pool_step_kept ev (w : pool_world O) :
  pool_ok (pw_pool w) (pw_lent w) (pw_os w) -> pool_event_ok ev w ->
  X ## owned (pw_pool w) (pw_lent w) -> X ⊆ os_open (pw_os w) ->
  streams_kept (pw_os w) (pw_os (pool_step ev w)).
Proof.
  destruct w as [p L o]. simpl. intros Hok Hev HX Ho.
  pose proof (pool_ok_apart _ _ _ Hok HX) as Hp. destruct ev as [|order|peer host port|peer fd|peer|order]; simpl.
  - apply streams_kept_refl.
  - pose proof (pool_stop_kept order p o Hp) as Hk. by destruct (pool_stop order p o).
  - pose proof (getConnection_kept peer host port p o Hp Ho) as Hk.
    by destruct (getConnection peer host port p o) as [[fd p'] o'].
  - assert (fd ∉ X) as Hfd.
    { intros Hin. apply (HX fd Hin), owned_spec. right. eauto. }
    pose proof (releaseConnection_kept peer fd p o Hfd) as Hk.
    by destruct (releaseConnection peer fd p o).
  - pose proof (closePeerConnections_kept peer p o Hp) as Hk.
    by destruct (closePeerConnections peer p o).
  - unfold cleanupLoop_turn. destruct (negb (cp_running p)); [apply streams_kept_refl|].
    pose proof (sweep_peers_kept (os_now o) order p o Hp) as Hk.
    by destruct (foldl (sweep_peer (os_now o)) (p, o) order).
Qed.
End pool_streams.

Section one_stream.
Context {O S : Type} `{!PoolOS O, !PoolOSLaws O, !FdTable O S, !SocketOps S, !FdTableLaws O S}.

Lemma kept_singleton c (o o' : O) : streams_kept {[ c ]} o o' <-> fd_stream c o' = fd_stream c o.
Proof.
  split; [intros Hk; apply Hk; set_solver|]. by intros Hk fd ->%elem_of_singleton.
Qed.

(** [getConnection] and the descriptors it does not return: their streams are as they were,
    except that a dead connection of the peer's queue is closed. *)
Lemma getConnection_others peer host port p (o : O) fd p' o' fd' :
  getConnection peer host port p o = (fd, p', o') ->
  fd' ∈ os_open o -> fd' <> fd ->
  fd_stream fd' o' = fd_stream fd' o \/ fd' ∈ fds (queue_of p peer) /\ fd' ∉ os_open o'.
Proof.
  intros E Hin Hne. unfold getConnection, reuse_front in E.
  assert (forall p1 (o1 : O),
    (let '(fd, o2) := createConnection host port o1 in
      if (0 <=? fd)%Z
      then (fd, mkPool (m_connectionPools p1) (<[fd := peer]> (m_fdToPeerMap p1)) (cp_running p1), o2)
      else ((-1)%Z, p1, o2)) = (fd, p', o') ->
    (fd' ∈ os_open o1 -> fd_stream fd' o' = fd_stream fd' o1) /\
    (fd' ∉ os_open o1 -> fd' ∉ os_open o')) as Hnew.
  { intros p1 o1 E1. destruct (createConnection host port o1) as [fd0 o2] eqn:Ec.
    assert (o2 = o') as -> by by destruct (0 <=? fd0)%Z; injection E1.
    split.
    - intros H1. replace o' with (createConnection host port o1).2 by by rewrite Ec.
      apply kept_singleton, createConnection_kept. set_solver.
    - intros H1. apply createConnection_open in Ec as [[_ ->]|(H0 & _ & ->)]; [done|].
      rewrite (proj2 (Z.leb_le 0 fd0)) in E1 by done. injection E1 as -> _. set_solver. }
  destruct (m_connectionPools p !! peer) as [[|conn rest]|] eqn:Eq;
    [left; by eapply Hnew| |left; by eapply Hnew].
  destruct (isConnectionValid (ci_fd conn) o); [injection E as <- <- <-; by left|].
  destruct (Hnew _ _ E) as [Hk Hc]. destruct (decide (fd' = ci_fd conn)) as [->|Hd].
  - right. split.
    + unfold queue_of, fds. rewrite Eq. csimpl. left.
    + apply Hc. rewrite os_close_open. set_solver.
  - left. rewrite Hk; [by apply fd_close_stream|]. rewrite os_close_open. set_solver.
Qed.
End one_stream.
