(* ===== verification/ThreadPool.v ===== *)
(** * The thread pool (src/common/thread/ThreadPool.h, ThreadPool.cpp)

    The pool as a concurrent program: every event below is one action of one
    thread between two points where another thread can intervene, and a run is
    any sequence of events that are enabled.  Shared state is the task queue,
    [m_mutex], the waiters of [m_cv] and the atomic [m_stopping]; private state
    is where each worker, each call of [submit] and the destructor stand. *)
From S2P Require Import Prelude.

(** Where a worker stands in [workerLoop]. *)
Inductive worker (T : Type) :=
  | WantsLock        (* top of the loop, or woken inside [m_cv.wait] *)
  | Testing          (* holds [m_mutex], about to evaluate the wait predicate *)
  | Ready            (* holds [m_mutex], the predicate was true *)
  | NotReady         (* holds [m_mutex], the predicate was false, about to block *)
  | Waiting          (* blocked in [m_cv.wait], [m_mutex] released *)
  | Running (t : T)  (* executes a task *)
  | Exited.
Arguments WantsLock {T}.
Arguments Testing {T}.
Arguments Ready {T}.
Arguments NotReady {T}.
Arguments Waiting {T}.
Arguments Running {T}.
Arguments Exited {T}.

(** Where the destructor stands. *)
Inductive dtor := DtorNone | DtorStored | DtorNotified | DtorDone.

Record ThreadPool (T : Type) := mkThreadPool {
  tp_workers : list (worker T);
  m_tasks : list T;
  tp_mutex : option nat;          (* the worker that holds [m_mutex] *)
  m_stopping : bool;
  tp_pushing : list T;            (* [submit]s that have read [m_stopping] *)
  tp_notifying : nat;             (* [submit]s that have pushed *)
  tp_dtor : dtor;
  tp_accepted : list T;           (* history: tasks pushed, in order *)
  tp_started : list T;            (* history: tasks taken, in order *)
  tp_finished : list (T * bool);  (* history: tasks that ended; true: by an exception *)
  tp_late : list T;               (* history: tasks pushed once [m_stopping] was set *)
}.
Arguments mkThreadPool {T}.
Arguments tp_workers {T}.
Arguments m_tasks {T}.
Arguments tp_mutex {T}.
Arguments m_stopping {T}.
Arguments tp_pushing {T}.
Arguments tp_notifying {T}.
Arguments tp_dtor {T}.
Arguments tp_accepted {T}.
Arguments tp_started {T}.
Arguments tp_finished {T}.
Arguments tp_late {T}.

(** The worker count of [ThreadPool(thread_count)]. *)
Definition worker_count (thread_count : nat) : nat :=
  if Nat.eqb thread_count 0 then 1 else thread_count.

Definition ThreadPool_new {T} (thread_count : nat) : ThreadPool T :=
  mkThreadPool (replicate (worker_count thread_count) WantsLock) [] None false [] 0
    DtorNone [] [] [] [].

(** [size()] *)
Definition tp_size {T} (s : ThreadPool T) : nat := length (tp_workers s).

Inductive tp_event (T : Type) :=
  | SubmitTest (t : T)            (* [m_stopping.load()] in [submit] *)
  | SubmitPush (j : nat)          (* lock, [m_tasks.emplace], unlock *)
  | SubmitNotify (i : option nat) (* [m_cv.notify_one()]; [i] is the woken worker *)
  | Lock (i : nat)                (* the worker acquires [m_mutex] *)
  | Test (i : nat)                (* the wait predicate *)
  | Block (i : nat)               (* enter the wait, release [m_mutex] *)
  | Take (i : nat)                (* return, or pop a task; release [m_mutex] *)
  | Finish (i : nat) (threw : bool)
  | Spurious (i : nat)            (* a wake-up without a notification *)
  | DtorStore                     (* [m_stopping.store(true)] *)
  | DtorNotify                    (* [m_cv.notify_all()] *)
  | DtorJoin.                     (* every [join] has returned *)
Arguments SubmitTest {T}.
Arguments SubmitPush {T}.
Arguments SubmitNotify {T}.
Arguments Lock {T}.
Arguments Test {T}.
Arguments Block {T}.
Arguments Take {T}.
Arguments Finish {T}.
Arguments Spurious {T}.
Arguments DtorStore {T}.
Arguments DtorNotify {T}.
Arguments DtorJoin {T}.

Section steps.
Context {T : Type}.
Implicit Types s : ThreadPool T.

Definition set_workers (ws : list (worker T)) (mutex : option nat) s : ThreadPool T :=
  mkThreadPool ws (m_tasks s) mutex (m_stopping s) (tp_pushing s) (tp_notifying s)
    (tp_dtor s) (tp_accepted s) (tp_started s) (tp_finished s) (tp_late s).

Definition is_waiting (w : worker T) : bool := match w with Waiting => true | _ => false end.
Definition is_exited (w : worker T) : bool := match w with Exited => true | _ => false end.
Definition wake (w : worker T) : worker T := if is_waiting w then WantsLock else w.

(** [submit(task)]: the early return leaves no trace. *)
Definition submit_test (t : T) s : option (ThreadPool T) :=
  if m_stopping s then Some s
  else Some (mkThreadPool (tp_workers s) (m_tasks s) (tp_mutex s) (m_stopping s)
               (tp_pushing s ++ [t]) (tp_notifying s) (tp_dtor s) (tp_accepted s)
               (tp_started s) (tp_finished s) (tp_late s)).

Definition submit_push (j : nat) s : option (ThreadPool T) :=
  match tp_pushing s !! j, tp_mutex s with
  | Some t, None =>
      Some (mkThreadPool (tp_workers s) (m_tasks s ++ [t]) None (m_stopping s)
              (delete j (tp_pushing s)) (S (tp_notifying s)) (tp_dtor s)
              (tp_accepted s ++ [t]) (tp_started s) (tp_finished s)
              (if m_stopping s then tp_late s ++ [t] else tp_late s))
  | _, _ => None
  end.

Definition submit_notify (i : option nat) s : option (ThreadPool T) :=
  match tp_notifying s with
  | 0 => None
  | S k =>
      let notified ws :=
        mkThreadPool ws (m_tasks s) (tp_mutex s) (m_stopping s) (tp_pushing s) k
          (tp_dtor s) (tp_accepted s) (tp_started s) (tp_finished s) (tp_late s) in
      match i with
      | Some i =>
          match tp_workers s !! i with
          | Some Waiting => Some (notified (<[i := WantsLock]> (tp_workers s)))
          | _ => None
          end
      | None =>
          if existsb is_waiting (tp_workers s) then None else Some (notified (tp_workers s))
      end
  end.

(** [workerLoop()] *)
Definition worker_lock (i : nat) s : option (ThreadPool T) :=
  match tp_workers s !! i, tp_mutex s with
  | Some WantsLock, None => Some (set_workers (<[i := Testing]> (tp_workers s)) (Some i) s)
  | _, _ => None
  end.

Definition wait_predicate s : bool := m_stopping s || negb (Nat.eqb (length (m_tasks s)) 0).

Definition worker_test (i : nat) s : option (ThreadPool T) :=
  match tp_workers s !! i with
  | Some Testing =>
      Some (set_workers (<[i := if wait_predicate s then Ready else NotReady]> (tp_workers s))
              (tp_mutex s) s)
  | _ => None
  end.

Definition worker_block (i : nat) s : option (ThreadPool T) :=
  match tp_workers s !! i with
  | Some NotReady => Some (set_workers (<[i := Waiting]> (tp_workers s)) None s)
  | _ => None
  end.

(** [front()] of an empty queue is undefined behaviour: the task list then has
    no successor state ([take_defined] below). *)
Definition worker_take (i : nat) s : option (ThreadPool T) :=
  match tp_workers s !! i with
  | Some Ready =>
      if m_stopping s && Nat.eqb (length (m_tasks s)) 0
      then Some (set_workers (<[i := Exited]> (tp_workers s)) None s)
      else match m_tasks s with
           | [] => None
           | t :: rest =>
               Some (mkThreadPool (<[i := Running t]> (tp_workers s)) rest None (m_stopping s)
                       (tp_pushing s) (tp_notifying s) (tp_dtor s) (tp_accepted s)
                       (tp_started s ++ [t]) (tp_finished s) (tp_late s))
           end
  | _ => None
  end.

(** [try { task(); } catch (...) {}]: either way back to the top. *)
Definition worker_finish (i : nat) (threw : bool) s : option (ThreadPool T) :=
  match tp_workers s !! i with
  | Some (Running t) =>
      Some (mkThreadPool (<[i := WantsLock]> (tp_workers s)) (m_tasks s) (tp_mutex s)
              (m_stopping s) (tp_pushing s) (tp_notifying s) (tp_dtor s) (tp_accepted s)
              (tp_started s) (tp_finished s ++ [(t, threw)]) (tp_late s))
  | _ => None
  end.

Definition worker_spurious (i : nat) s : option (ThreadPool T) :=
  match tp_workers s !! i with
  | Some Waiting => Some (set_workers (<[i := WantsLock]> (tp_workers s)) (tp_mutex s) s)
  | _ => None
  end.

(** [~ThreadPool()] *)
Definition set_dtor (ws : list (worker T)) (stopping : bool) (d : dtor) s : ThreadPool T :=
  mkThreadPool ws (m_tasks s) (tp_mutex s) stopping (tp_pushing s) (tp_notifying s) d
    (tp_accepted s) (tp_started s) (tp_finished s) (tp_late s).

Definition dtor_store s : option (ThreadPool T) :=
  match tp_dtor s with
  | DtorNone => Some (set_dtor (tp_workers s) true DtorStored s)
  | _ => None
  end.

Definition dtor_notify s : option (ThreadPool T) :=
  match tp_dtor s with
  | DtorStored => Some (set_dtor (wake <$> tp_workers s) (m_stopping s) DtorNotified s)
  | _ => None
  end.

Definition dtor_join s : option (ThreadPool T) :=
  match tp_dtor s with
  | DtorNotified =>
      if forallb is_exited (tp_workers s)
      then Some (set_dtor (tp_workers s) (m_stopping s) DtorDone s) else None
  | _ => None
  end.

Definition tp_step (ev : tp_event T) s : option (ThreadPool T) :=
  match ev with
  | SubmitTest t => submit_test t s
  | SubmitPush j => submit_push j s
  | SubmitNotify i => submit_notify i s
  | Lock i => worker_lock i s
  | Test i => worker_test i s
  | Block i => worker_block i s
  | Take i => worker_take i s
  | Finish i threw => worker_finish i threw s
  | Spurious i => worker_spurious i s
  | DtorStore => dtor_store s
  | DtorNotify => dtor_notify s
  | DtorJoin => dtor_join s
  end.

(** A schedule: the events in the order they happen. *)
Fixpoint tp_run (evs : list (tp_event T)) s : option (ThreadPool T) :=
  match evs with
  | [] => Some s
  | ev :: evs' => s' ← tp_step ev s; tp_run evs' s'
  end.

Inductive tp_reach (n : nat) : ThreadPool T -> Prop :=
  | tp_reach_new : tp_reach n (ThreadPool_new n)
  | tp_reach_step s ev s' : tp_reach n s -> tp_step ev s = Some s' -> tp_reach n s'.
End steps.

(** ** The invariant *)
Section invariant.
Context {T : Type}.
Implicit Types (s : ThreadPool T) (ws : list (worker T)).

Definition holds (w : worker T) : bool :=
  match w with Testing | Ready | NotReady => true | _ => false end.
Definition awake (w : worker T) : bool :=
  match w with Waiting | Exited => false | _ => true end.
Definition running_task (w : worker T) : option T :=
  match w with Running t => Some t | _ => None end.
Definition running s : list T := omap running_task (tp_workers s).

Record tp_inv (n : nat) s : Prop := mk_tp_inv {
  ti_size : length (tp_workers s) = worker_count n;
  ti_mutex i w : tp_workers s !! i = Some w -> holds w = true <-> tp_mutex s = Some i;
  ti_holder i : tp_mutex s = Some i -> i < length (tp_workers s);
  ti_not_ready i : tp_workers s !! i = Some NotReady -> m_tasks s = [];
  ti_ready i : tp_workers s !! i = Some Ready -> m_stopping s = true \/ m_tasks s <> [];
  ti_exited i : tp_workers s !! i = Some Exited ->
    m_stopping s = true /\ (m_tasks s = [] \/ tp_late s <> []);
  ti_fifo : tp_accepted s = tp_started s ++ m_tasks s;
  ti_running : tp_started s ≡ₚ (tp_finished s).*1 ++ running s;
  ti_notified : m_tasks s <> [] -> tp_notifying s = 0 ->
    exists i w, tp_workers s !! i = Some w /\ w <> Waiting;
  ti_dtor : m_stopping s = true <-> tp_dtor s <> DtorNone;
}.

(** A worker that moves without taking or ending a task. *)
Lemma running_insert ws i (w w' : worker T) :
  ws !! i = Some w -> running_task w' = running_task w ->
  omap running_task (<[i := w']> ws) = omap running_task ws.
Proof.
  intros Hi Hr. rewrite <- (take_drop_middle ws i w Hi) at 2.
  rewrite insert_take_drop by (by eapply lookup_lt_Some).
  rewrite !omap_app. simpl. by rewrite Hr.
Qed.

Lemma running_start ws i (w : worker T) t :
  ws !! i = Some w -> running_task w = None ->
  omap running_task (<[i := Running t]> ws) ≡ₚ t :: omap running_task ws.
Proof.
  intros Hi Hr. rewrite <- (take_drop_middle ws i w Hi) at 2.
  rewrite insert_take_drop by (by eapply lookup_lt_Some).
  rewrite !omap_app. simpl. rewrite Hr. symmetry. apply Permutation_middle.
Qed.

Lemma running_end ws i (w' : worker T) t :
  ws !! i = Some (Running t) -> running_task w' = None ->
  omap running_task ws ≡ₚ t :: omap running_task (<[i := w']> ws).
Proof.
  intros Hi Hr. rewrite <- (take_drop_middle ws i _ Hi) at 1.
  rewrite insert_take_drop by (by eapply lookup_lt_Some).
  rewrite !omap_app. simpl. rewrite Hr. symmetry. apply Permutation_middle.
Qed.

Lemma running_wake ws : omap running_task (wake <$> ws) = omap running_task ws.
Proof. induction ws as [|w ws IH]; [done|]. destruct w; csimpl; congruence. Qed.

Lemma wake_lookup ws i w : (wake <$> ws) !! i = Some w ->
  exists w0, ws !! i = Some w0 /\ w = wake w0.
Proof.
  rewrite list_lookup_fmap. destruct (ws !! i); [|done]. intros [= <-]. eauto.
Qed.

Lemma existsb_waiting ws : existsb is_waiting ws = false ->
  forall i w, ws !! i = Some w -> w <> @Waiting T.
Proof.
  intros H i w Hi ->. apply not_true_iff_false in H. apply H. apply existsb_exists.
  exists Waiting. split; [|done]. apply list_elem_of_In. by eapply list_elem_of_lookup_2.
Qed.

(** The worker at [i] moves from [w] to [w'] and the mutex from the one
    to the other; tasks and histories stay. *)
Lemma inv_move n s i w w' mutex :
  tp_inv n s -> tp_workers s !! i = Some w ->
  running_task w' = running_task w ->
  (holds w' = true <-> mutex = Some i) ->
  (forall j, j <> i -> tp_mutex s = Some j <-> mutex = Some j) ->
  (w' = NotReady -> m_tasks s = []) -> (w' = Ready -> m_stopping s = true \/ m_tasks s <> []) ->
  (w' = Waiting -> m_tasks s = []) ->
  (w' = Exited -> m_stopping s = true /\ m_tasks s = []) ->
  tp_inv n (set_workers (<[i := w']> (tp_workers s)) mutex s).
Proof.
  intros Hi Hw Hr Hm1 Hm2 Hnr Hrd Hwt Hex.
  assert (i < length (tp_workers s)) as Hlt by (by eapply lookup_lt_Some).
  constructor; simpl.
  - rewrite length_insert. apply Hi.
  - intros j v Hj. apply list_lookup_insert_Some in Hj as [(-> & <- & _)|[Hne Hj]]; [done|].
    rewrite <- Hm2 by done. by apply Hi.
  - intros j Hj. rewrite length_insert. destruct (decide (j = i)) as [->|Hne]; [done|].
    apply Hm2 in Hj; [by apply (ti_holder _ _ Hi)|done].
  - intros j Hj. apply list_lookup_insert_Some in Hj as [(_ & E & _)|[_ Hj]]; [auto|].
    by eapply ti_not_ready.
  - intros j Hj. apply list_lookup_insert_Some in Hj as [(_ & E & _)|[_ Hj]]; [auto|].
    by eapply ti_ready.
  - intros j Hj. apply list_lookup_insert_Some in Hj as [(_ & E & _)|[_ Hj]].
    + destruct (Hex E). auto.
    + by eapply ti_exited.
  - apply Hi.
  - unfold running. simpl. rewrite (running_insert _ i w) by done. apply Hi.
  - intros Ht Hn. exists i, w'. rewrite list_lookup_insert_eq by done.
    split; [done|]. intros E. by apply Ht, Hwt.
  - apply Hi.
Qed.

(** The steps that move one worker. *)
Lemma inv_worker_moves n s s' ev :
  tp_inv n s -> tp_step ev s = Some s' ->
  match ev with Lock _ | Test _ | Block _ | Spurious _ => tp_inv n s' | _ => True end.
Proof.
  intros Hi. destruct ev as [| | |i|i|i| | |i| | |]; try done; simpl.
  - unfold worker_lock. destruct (tp_workers s !! i) as [[]|] eqn:Ew; try done.
    destruct (tp_mutex s) eqn:Em; [done|]. intros [= <-].
    eapply inv_move; try done. intros j Hj. rewrite Em. naive_solver.
  - unfold worker_test. destruct (tp_workers s !! i) as [[]|] eqn:Ew; try done.
    pose proof (proj1 (ti_mutex _ _ Hi _ _ Ew) eq_refl) as Hm.
    intros [= <-]. destruct (wait_predicate s) eqn:Ep; unfold wait_predicate in Ep;
      eapply inv_move; try done.
    + intros _. apply orb_true_iff in Ep as [?|Ep]; [auto|right]. by intros Et; rewrite Et in Ep.
    + intros _. apply orb_false_iff in Ep as [_ Ep]. by destruct (m_tasks s).
  - unfold worker_block. destruct (tp_workers s !! i) as [[]|] eqn:Ew; try done.
    pose proof (proj1 (ti_mutex _ _ Hi _ _ Ew) eq_refl) as Hm. intros [= <-].
    eapply inv_move; try done.
    + intros j Hj. rewrite Hm. naive_solver.
    + intros _. by eapply ti_not_ready.
  - unfold worker_spurious. destruct (tp_workers s !! i) as [[]|] eqn:Ew; try done.
    intros [= <-]. eapply inv_move; try done. simpl. split; [done|].
    intros Hm. by apply (ti_mutex _ _ Hi _ _ Ew) in Hm.
Qed.

(** The caller's side of [submit]. *)
Lemma inv_submit n s s' ev :
  tp_inv n s -> tp_step ev s = Some s' ->
  match ev with SubmitTest _ | SubmitPush _ | SubmitNotify _ => tp_inv n s' | _ => True end.
Proof.
  intros Hi. destruct ev as [t|j|o| | | | | | | | |]; try done; simpl.
  - unfold submit_test. destruct (m_stopping s) eqn:Es; intros [= <-]; [done|].
    constructor; simpl; rewrite <- ?Es; apply Hi.
  - unfold submit_push. destruct (tp_pushing s !! j) as [t|]; [|done].
    destruct (tp_mutex s) eqn:Em; [done|]. intros [= <-].
    assert (forall i w, tp_workers s !! i = Some w -> holds w = false) as Hnone.
    { intros i w Hw. apply not_true_iff_false. intros H.
      apply (ti_mutex _ _ Hi _ _ Hw) in H. congruence. }
    constructor; simpl; try apply Hi.
    + intros i w Hw. rewrite (Hnone _ _ Hw). done.
    + done.
    + intros i Hw. by apply Hnone in Hw.
    + intros i Hw. by apply Hnone in Hw.
    + intros i Hw. destruct (ti_exited _ _ Hi _ Hw) as [-> _]. split; [done|right].
      by destruct (tp_late s).
    + by rewrite (ti_fifo _ _ Hi), <- (assoc_L app).
    + done.
  - unfold submit_notify. destruct (tp_notifying s) as [|k] eqn:En; [done|].
    destruct o as [i|].
    + destruct (tp_workers s !! i) as [[]|] eqn:Ew; try done. intros [= <-].
      assert (tp_inv n (set_workers (<[i := WantsLock]> (tp_workers s)) (tp_mutex s) s)) as Hi'.
      { eapply inv_move; try done. simpl. split; [done|].
        intros Hm. by apply (ti_mutex _ _ Hi _ _ Ew) in Hm. }
      destruct Hi'. constructor; simpl in *; try done. intros _ _. exists i, WantsLock.
      rewrite list_lookup_insert_eq by (by eapply lookup_lt_Some). done.
    + destruct (existsb is_waiting (tp_workers s)) eqn:Ex; [done|]. intros [= <-].
      destruct Hi as [Hsz]. constructor; simpl in *; try done. intros _ _.
      destruct (tp_workers s) as [|w ws] eqn:Ew.
      { unfold worker_count in Hsz. by destruct n. }
      exists 0, w. split; [done|]. by apply (existsb_waiting _ Ex 0).
Qed.

(** Taking a task, ending one, and the destructor. *)
Lemma inv_take n s s' i : tp_inv n s -> worker_take i s = Some s' -> tp_inv n s'.
Proof.
  intros Hi. unfold worker_take. destruct (tp_workers s !! i) as [[]|] eqn:Ew; try done.
  pose proof (proj1 (ti_mutex _ _ Hi _ _ Ew) eq_refl) as Hm.
  assert (forall j, j <> i -> tp_mutex s = Some j <-> None = Some j) as Hmj.
  { intros j Hj. rewrite Hm. naive_solver. }
  destruct (m_stopping s && Nat.eqb (length (m_tasks s)) 0) eqn:Ex.
  - intros [= <-]. apply andb_true_iff in Ex as [Es Et].
    eapply inv_move; try done. intros _. by destruct (m_tasks s).
  - destruct (m_tasks s) as [|t rest] eqn:Et; [done|]. intros [= <-].
    assert (forall j w, (<[i := Running t]> (tp_workers s)) !! j = Some w ->
      w = Running t \/ j <> i /\ tp_workers s !! j = Some w) as Hl.
    { intros j w Hj. apply list_lookup_insert_Some in Hj as [(_ & <- & _)|[? ?]]; auto. }
    constructor; simpl; try apply Hi.
    + rewrite length_insert. apply Hi.
    + intros j w [->|[Hne Hj]]%Hl; [done|]. rewrite <- (Hmj j Hne). by apply Hi.
    + done.
    + intros j [?|[Hne Hj]]%Hl; [done|]. exfalso. eapply Hne, (inj Some).
      rewrite <- Hm. symmetry. by apply (ti_mutex _ _ Hi _ _ Hj).
    + intros j [?|[Hne Hj]]%Hl; [done|]. exfalso. eapply Hne, (inj Some).
      rewrite <- Hm. symmetry. by apply (ti_mutex _ _ Hi _ _ Hj).
    + intros j [?|[Hne Hj]]%Hl; [done|]. destruct (ti_exited _ _ Hi _ Hj) as [? [E|?]];
        [congruence|auto].
    + rewrite (ti_fifo _ _ Hi), Et. by rewrite <- (assoc_L app).
    + unfold running. simpl. rewrite (running_start _ i Ready) by done.
      rewrite <- !Permutation_middle, app_nil_r.
      apply perm_skip, (ti_running _ _ Hi).
    + intros _ _. exists i, (Running t).
      rewrite list_lookup_insert_eq by (by eapply lookup_lt_Some). done.
Qed.

Lemma inv_finish n s s' i b : tp_inv n s -> worker_finish i b s = Some s' -> tp_inv n s'.
Proof.
  intros Hi. unfold worker_finish.
  destruct (tp_workers s !! i) as [[| | | | |t|]|] eqn:Ew; try done. intros [= <-].
  assert (forall j w, (<[i := WantsLock]> (tp_workers s)) !! j = Some w ->
    w = WantsLock /\ j = i \/ tp_workers s !! j = Some w) as Hl.
  { intros j w Hj. apply list_lookup_insert_Some in Hj as [(<- & <- & _)|[? ?]]; auto. }
  constructor; simpl; try apply Hi.
  - rewrite length_insert. apply Hi.
  - intros j w [[-> ->]|Hj]%Hl; [|by apply Hi]. split; [done|].
    intros Hm. by apply (ti_mutex _ _ Hi _ _ Ew) in Hm.
  - intros j Hj. rewrite length_insert. by apply (ti_holder _ _ Hi).
  - intros j [[? _]|Hj]%Hl; [done|]. by eapply (ti_not_ready _ _ Hi).
  - intros j [[? _]|Hj]%Hl; [done|]. by eapply (ti_ready _ _ Hi).
  - intros j [[? _]|Hj]%Hl; [done|]. by eapply (ti_exited _ _ Hi).
  - pose proof (ti_running _ _ Hi) as Hr. unfold running in *. simpl.
    rewrite (running_end _ i WantsLock t) in Hr by done.
    rewrite fmap_app, <- (assoc_L app). exact Hr.
  - intros _ _. exists i, WantsLock.
    rewrite list_lookup_insert_eq by (by eapply lookup_lt_Some). done.
Qed.

Lemma inv_dtor_store n s s' : tp_inv n s -> dtor_store s = Some s' -> tp_inv n s'.
Proof.
  intros Hi. unfold dtor_store. destruct (tp_dtor s) eqn:Ed; try done. intros [= <-].
  constructor; simpl; try apply Hi; auto.
  - intros i Hx. by destruct (ti_exited _ _ Hi _ Hx).
  - done.
Qed.

Lemma inv_dtor_notify n s s' : tp_inv n s -> dtor_notify s = Some s' -> tp_inv n s'.
Proof.
  intros Hi. unfold dtor_notify. destruct (tp_dtor s) eqn:Ed; try done. intros [= <-].
  assert (forall i w, (wake <$> tp_workers s) !! i = Some w ->
    tp_workers s !! i = Some w \/
    w = WantsLock /\ tp_workers s !! i = Some Waiting) as Hl.
  { intros i w (w0 & Hw & ->)%wake_lookup. destruct w0; auto. }
  constructor; simpl; try apply Hi.
  - rewrite length_fmap. apply Hi.
  - intros i w [Hw|[-> Hw]]%Hl; [by apply Hi|]. by apply (ti_mutex _ _ Hi _ _ Hw).
  - intros i Hm. rewrite length_fmap. by apply (ti_holder _ _ Hi).
  - intros i [Hw|[? _]]%Hl; [|done]. by eapply (ti_not_ready _ _ Hi).
  - intros i [Hw|[? _]]%Hl; [|done]. by eapply (ti_ready _ _ Hi).
  - intros i [Hw|[? _]]%Hl; [|done]. by eapply (ti_exited _ _ Hi).
  - unfold running. simpl. rewrite running_wake. apply Hi.
  - intros _ _. pose proof (ti_size _ _ Hi) as Hsz.
    destruct (tp_workers s) as [|w ws] eqn:Ew; [unfold worker_count in Hsz; by destruct n|].
    exists 0, (wake w). split; [done|]. by destruct w.
  - split; [done|]. intros _. apply (ti_dtor _ _ Hi). by rewrite Ed.
Qed.

Lemma inv_dtor_join n s s' : tp_inv n s -> dtor_join s = Some s' -> tp_inv n s'.
Proof.
  intros Hi. unfold dtor_join. destruct (tp_dtor s) eqn:Ed; try done.
  destruct (forallb is_exited (tp_workers s)); [|done]. intros [= <-].
  constructor; simpl; try apply Hi. split; [done|].
  intros _. apply (ti_dtor _ _ Hi). by rewrite Ed.
Qed.

Lemma inv_tp_step n s ev s' : tp_inv n s -> tp_step ev s = Some s' -> tp_inv n s'.
Proof.
  intros Hi E. pose proof (inv_worker_moves n s s' ev Hi E).
  pose proof (inv_submit n s s' ev Hi E).
  destruct ev; try done; simpl in E.
  - by eapply inv_take.
  - by eapply inv_finish.
  - by eapply inv_dtor_store.
  - by eapply inv_dtor_notify.
  - by eapply inv_dtor_join.
Qed.

Lemma inv_tp_new n : tp_inv n (ThreadPool_new n : ThreadPool T).
Proof.
  assert (forall i w, (tp_workers (ThreadPool_new n : ThreadPool T)) !! i = Some w ->
    w = WantsLock) as Hl by (intros i w [-> _]%lookup_replicate_1; done).
  constructor; try (intros i Hi; by apply Hl in Hi); try done.
  - apply length_replicate.
  - intros i w ->%Hl. done.
  - unfold running. simpl. induction (worker_count n); done.
Qed.

Lemma inv_tp_reach n s : tp_reach n s -> tp_inv n s.
Proof. induction 1; [apply inv_tp_new|by eapply inv_tp_step]. Qed.

Lemma tp_run_reach n s evs s' : tp_reach n s -> tp_run evs s = Some s' -> tp_reach n s'.
Proof.
  revert s. induction evs as [|ev evs IH]; intros s Hs; simpl; [by intros [= <-]|].
  destruct (tp_step ev s) as [s1|] eqn:E; [|done]. simpl. apply IH. by eapply tp_reach_step.
Qed.
End invariant.

(** ** Progress *)
Section progress.
Context {T : Type}.
Implicit Types (s : ThreadPool T) (evs : list (tp_event T)).

(** The pool's own actions: a worker's step, or the second half of a [submit]
    that has pushed already. *)
Definition own_event (ev : tp_event T) : bool :=
  match ev with
  | SubmitNotify _ | Lock _ | Test _ | Block _ | Take _ | Finish _ _ => true
  | _ => false
  end.

(** [evs] leads from [s] to a state where the front task [t] was taken. *)
Definition starts (t : T) s evs : Prop :=
  Forall (fun ev => own_event ev = true) evs /\
  exists s', tp_run evs s = Some s' /\ tp_started s' = tp_started s ++ [t].

Lemma starts_cons t s ev evs s1 :
  own_event ev = true -> tp_step ev s = Some s1 -> tp_started s1 = tp_started s ->
  starts t s1 evs -> starts t s (ev :: evs).
Proof.
  intros Hev Hs1 Heq [Hf (s' & Hr & He)]. split; [by constructor|].
  exists s'. simpl. rewrite Hs1. split; [done|congruence].
Qed.

Lemma starts_ready t rest s i :
  m_stopping s = false -> m_tasks s = t :: rest -> tp_workers s !! i = Some Ready ->
  starts t s [Take i].
Proof.
  intros Hs Ht Hw. split; [by repeat constructor|]. simpl. unfold worker_take.
  rewrite Hw, Hs, Ht. simpl. by eexists.
Qed.

Lemma starts_testing t rest s i :
  m_stopping s = false -> m_tasks s = t :: rest -> tp_workers s !! i = Some Testing ->
  starts t s [Test i; Take i].
Proof.
  intros Hs Ht Hw. eapply starts_cons; [done|simpl; unfold worker_test, wait_predicate; by rewrite Hw, Hs, Ht|done|].
  eapply starts_ready; [done..|]. simpl.
  by rewrite list_lookup_insert_eq by (by eapply lookup_lt_Some).
Qed.

Lemma starts_wants t rest s i :
  m_stopping s = false -> m_tasks s = t :: rest -> tp_mutex s = None ->
  tp_workers s !! i = Some WantsLock -> starts t s [Lock i; Test i; Take i].
Proof.
  intros Hs Ht Hm Hw. eapply starts_cons; [done|simpl; unfold worker_lock; by rewrite Hw, Hm|done|].
  eapply starts_testing; [done..|]. simpl.
  by rewrite list_lookup_insert_eq by (by eapply lookup_lt_Some).
Qed.

Lemma starts_running t rest s i u :
  m_stopping s = false -> m_tasks s = t :: rest -> tp_mutex s = None ->
  tp_workers s !! i = Some (Running u) -> starts t s [Finish i false; Lock i; Test i; Take i].
Proof.
  intros Hs Ht Hm Hw. eapply starts_cons; [done|simpl; unfold worker_finish; by rewrite Hw|done|].
  eapply starts_wants; [done..|]. simpl.
  by rewrite list_lookup_insert_eq by (by eapply lookup_lt_Some).
Qed.

Lemma starts_notify t rest s i k :
  m_stopping s = false -> m_tasks s = t :: rest -> tp_mutex s = None ->
  tp_notifying s = S k -> tp_workers s !! i = Some Waiting ->
  starts t s [SubmitNotify (Some i); Lock i; Test i; Take i].
Proof.
  intros Hs Ht Hm Hn Hw. eapply starts_cons; [done|simpl; unfold submit_notify; by rewrite Hn, Hw|done|].
  eapply starts_wants; [done..|]. simpl.
  by rewrite list_lookup_insert_eq by (by eapply lookup_lt_Some).
Qed.

(** A worker that holds [m_mutex] can take the front task. *)
Lemma holder_starts n t rest s i :
  tp_inv n s -> m_stopping s = false -> m_tasks s = t :: rest -> tp_mutex s = Some i ->
  exists evs, length evs <= 4 /\ starts t s evs.
Proof.
  intros Hi Hs Ht Hm.
  destruct (lookup_lt_is_Some_2 (tp_workers s) i) as [w Hw]; [by eapply ti_holder|].
  assert (holds w = true) as Hh by (by eapply ti_mutex).
  destruct w; try done.
  - exists [Test i; Take i]. split; [simpl; lia|]. by eapply starts_testing.
  - exists [Take i]. split; [simpl; lia|]. by eapply starts_ready.
  - pose proof (ti_not_ready _ _ Hi _ Hw). congruence.
Qed.

(** With [m_mutex] free, one that is not waiting, or the one that is notified. *)
Lemma free_starts n t rest s :
  tp_inv n s -> m_stopping s = false -> m_tasks s = t :: rest -> tp_mutex s = None ->
  exists evs, length evs <= 4 /\ starts t s evs.
Proof.
  intros Hi Hs Ht Hm.
  assert (exists i w, tp_workers s !! i = Some w /\ (w = Waiting -> tp_notifying s <> 0))
    as (i & w & Hw & Hn).
  { destruct (decide (tp_notifying s = 0)) as [E|E].
    - destruct (ti_notified _ _ Hi) as (i & w & Hw & Hne); [congruence|done|].
      by exists i, w.
    - pose proof (ti_size _ _ Hi) as Hsz. destruct (tp_workers s) as [|w ws] eqn:Ew.
      { unfold worker_count in Hsz. by destruct n. }
      by exists 0, w. }
  pose proof (ti_mutex _ _ Hi _ _ Hw) as Hh. rewrite Hm in Hh.
  destruct w as [| | | | |u|].
  - exists [Lock i; Test i; Take i]. split; [simpl; lia|]. by eapply starts_wants.
  - by destruct Hh as [Hh _]; specialize (Hh eq_refl).
  - by destruct Hh as [Hh _]; specialize (Hh eq_refl).
  - by destruct Hh as [Hh _]; specialize (Hh eq_refl).
  - destruct (tp_notifying s) as [|k] eqn:En; [by destruct Hn|].
    eexists. split; [|by eapply starts_notify]. simpl. lia.
  - eexists. split; [|by eapply starts_running]. simpl. lia.
  - destruct (ti_exited _ _ Hi _ Hw). congruence.
Qed.

(** Once every worker has returned, no task is running. *)
Lemma all_exited_running s :
  forallb is_exited (tp_workers s) = true -> running s = [].
Proof.
  unfold running. induction (tp_workers s) as [|w ws IH]; [done|]. csimpl.
  intros [Hw Hws]%andb_true_iff. by destruct w; csimpl; auto.
Qed.
End progress.

(** ** Tasks under way *)
Section in_flight.
Context {T : Type}.
Implicit Types s : ThreadPool T.

(** Handed to [submit] and not ended: about to be pushed, queued, or running. *)
Definition in_flight s : list T := tp_pushing s ++ m_tasks s ++ running s.

(** The events that neither bring a task nor end one. *)
Definition moves_tasks (ev : tp_event T) : bool :=
  match ev with SubmitTest _ | Finish _ _ => false | _ => true end.

Lemma in_flight_moves ev s s' :
  moves_tasks ev = true -> tp_step ev s = Some s' -> in_flight s' ≡ₚ in_flight s.
Proof.
  unfold in_flight, running.
  destruct ev as [t|j|[i|]|i|i|i|i|i b|i| | |]; intros Hev; try discriminate Hev; simpl.
  - unfold submit_push. destruct (tp_pushing s !! j) as [t|] eqn:Ej; [|done].
    destruct (tp_mutex s); [done|]. intros [= <-]. simpl.
    apply delete_Permutation in Ej. rewrite Ej at 2. simpl. solve_Permutation.
  - unfold submit_notify. destruct (tp_notifying s); [done|].
    destruct (tp_workers s !! i) as [[]|] eqn:Ei; try done. intros [= <-]. simpl.
    by rewrite (running_insert _ i Waiting).
  - unfold submit_notify. destruct (tp_notifying s); [done|].
    destruct (existsb is_waiting (tp_workers s)); [done|]. by intros [= <-].
  - unfold worker_lock. destruct (tp_workers s !! i) as [[]|] eqn:Ei; try done.
    destruct (tp_mutex s); [done|]. intros [= <-]. simpl. by rewrite (running_insert _ i WantsLock).
  - unfold worker_test. destruct (tp_workers s !! i) as [[]|] eqn:Ei; try done.
    intros [= <-]. simpl. rewrite (running_insert _ i Testing); [done..|]. by destruct (wait_predicate s).
  - unfold worker_block. destruct (tp_workers s !! i) as [[]|] eqn:Ei; try done.
    intros [= <-]. simpl. by rewrite (running_insert _ i NotReady).
  - unfold worker_take. destruct (tp_workers s !! i) as [[]|] eqn:Ei; try done.
    destruct (m_stopping s && Nat.eqb (length (m_tasks s)) 0).
    + intros [= <-]. simpl. by rewrite (running_insert _ i Ready).
    + destruct (m_tasks s) as [|t rest]; [done|]. intros [= <-]. simpl.
      rewrite (running_start _ i Ready) by done. solve_Permutation.
  - unfold worker_spurious. destruct (tp_workers s !! i) as [[]|] eqn:Ei; try done.
    intros [= <-]. simpl. by rewrite (running_insert _ i Waiting).
  - unfold dtor_store. destruct (tp_dtor s); try done. by intros [= <-].
  - unfold dtor_notify. destruct (tp_dtor s); try done. intros [= <-]. simpl. by rewrite running_wake.
  - unfold dtor_join. destruct (tp_dtor s); try done.
    destruct (forallb is_exited (tp_workers s)); [|done]. by intros [= <-].
Qed.

Lemma in_flight_submit t s s' :
  m_stopping s = false -> tp_step (SubmitTest t) s = Some s' -> in_flight s' ≡ₚ t :: in_flight s.
Proof.
  unfold in_flight. simpl. unfold submit_test. intros ->. intros [= <-]. simpl. solve_Permutation.
Qed.

Lemma in_flight_finish i b t s s' :
  tp_workers s !! i = Some (Running t) -> tp_step (Finish i b) s = Some s' ->
  in_flight s ≡ₚ t :: in_flight s'.
Proof.
  unfold in_flight, running. simpl. unfold worker_finish. intros Hi. rewrite Hi.
  intros [= <-]. simpl. rewrite (running_end _ i WantsLock t Hi) by done. solve_Permutation.
Qed.

(** The worker of a task that has ended runs none. *)
Lemma finish_idle i b t s s' :
  tp_step (Finish i b) s = Some s' -> tp_workers s' !! i = Some (Running t) -> False.
Proof.
  simpl. unfold worker_finish.
  destruct (tp_workers s !! i) as [w|] eqn:E; [|discriminate]. destruct w; try discriminate.
  intros [= <-]. simpl. rewrite list_lookup_insert_eq; [discriminate|]. by eapply lookup_lt_Some.
Qed.

(** With one submitter, tasks are accepted in the order of the calls. *)
Lemma accepted_moves ev s s' :
  moves_tasks ev = true -> tp_step ev s = Some s' -> length (tp_pushing s) <= 1 ->
  tp_accepted s' ++ tp_pushing s' = tp_accepted s ++ tp_pushing s /\
  length (tp_pushing s') <= 1.
Proof.
  intros Hev E H1.
  destruct ev as [t|j|i|i|i|i|i|i b|i| | |]; try discriminate Hev; simpl in E.
  { unfold submit_push in E. destruct (tp_pushing s !! j) as [t|] eqn:Ej; [|done].
    destruct (tp_mutex s); [done|]. injection E as <-. simpl.
    destruct (tp_pushing s) as [|u [|]]; simpl in H1; [done| |lia].
    destruct j; simplify_eq/=. split; [|lia]. by rewrite app_nil_r. }
  all: unfold submit_notify, worker_lock, worker_test, worker_block, worker_take,
    worker_spurious, dtor_store, dtor_notify, dtor_join in E.
  all: repeat case_match; simplify_eq; done.
Qed.

Lemma accepted_finish i b s s' :
  tp_step (Finish i b) s = Some s' ->
  tp_accepted s' = tp_accepted s /\ tp_pushing s' = tp_pushing s.
Proof. simpl. unfold worker_finish. intros E. repeat case_match; simplify_eq; done. Qed.

(** A task that runs goes on running until it finishes. *)
Lemma running_stays ev s s' i t :
  moves_tasks ev = true -> tp_step ev s = Some s' ->
  tp_workers s !! i = Some (Running t) -> tp_workers s' !! i = Some (Running t).
Proof.
  intros Hev E Hi.
  assert (forall j w w', tp_workers s !! j = Some w -> running_task w = None ->
    <[j := w']> (tp_workers s) !! i = Some (Running t)) as Hins.
  { intros j w w' Hj Hw. rewrite list_lookup_insert_ne; [done|]. intros ->. by simplify_eq. }
  destruct ev as [u|j|[j|]|j|j|j|j|j b|j| | |]; try discriminate Hev; simpl in E;
    unfold submit_push, submit_notify, worker_lock, worker_test, worker_block, worker_take,
      worker_spurious, dtor_store, dtor_notify, dtor_join in E;
    repeat (case_match; try discriminate E); injection E as <-; simpl; try done;
    try (by eapply Hins).
  rewrite list_lookup_fmap, Hi. done.
Qed.

Lemma in_flight_new n : in_flight (ThreadPool_new (T := T) n) = [].
Proof. unfold in_flight, running. simpl. by induction (worker_count n). Qed.
End in_flight.

(** ** The properties *)

(** Every task is executed exactly once and tasks are taken in the order in
    which [submit] pushed them, however workers, submitters and the destructor interleave and
    whether or not tasks throw: the tasks taken so far followed by the queue are
    the tasks accepted, each task taken is either finished or running on one
    worker, and a worker that has passed its wait never takes from an empty queue. *)
Theorem pool_fifo_exactly_once {T : Type} n (s : ThreadPool T) :
  tp_reach n s ->
  tp_accepted s = tp_started s ++ m_tasks s /\
  tp_started s ≡ₚ (tp_finished s).*1 ++ running s /\
  tp_size s = worker_count n /\ 1 <= tp_size s /\
  (forall i, tp_workers s !! i = Some Ready -> is_Some (tp_step (Take i) s)).
Proof.
  intros Hi%inv_tp_reach. pose proof (ti_size _ _ Hi) as Hsz. split_and!.
  - apply Hi.
  - apply Hi.
  - exact Hsz.
  - unfold tp_size. rewrite Hsz. unfold worker_count. destruct n; simpl; lia.
  - intros i Hw. simpl. unfold worker_take. rewrite Hw.
    destruct (ti_ready _ _ Hi _ Hw) as [Hs|Ht]; [rewrite Hs|]; destruct (m_tasks s);
      simpl; by try case_match.
Qed.

(** When the joins of the destructor return and no [submit] pushed after
    [m_stopping] was set, the queue is empty and every task ever accepted has
    been executed to its end. *)
Theorem shutdown_drains_queue {T : Type} n (s s' : ThreadPool T) :
  tp_reach n s -> tp_step DtorJoin s = Some s' -> tp_late s = [] ->
  m_tasks s' = [] /\ (tp_finished s').*1 ≡ₚ tp_accepted s'.
Proof.
  intros Hi%inv_tp_reach. simpl. unfold dtor_join. destruct (tp_dtor s); try done.
  destruct (forallb is_exited (tp_workers s)) eqn:Ex; [|done]. intros [= <-] Hl. simpl.
  pose proof (all_exited_running _ Ex) as Hrun.
  assert (m_tasks s = []) as Ht.
  { pose proof (ti_size _ _ Hi) as Hsz. destruct (tp_workers s) as [|w ws] eqn:Ew.
    { unfold worker_count in Hsz. by destruct n. }
    simpl in Ex. apply andb_true_iff in Ex as [Ex _]. destruct w; try done.
    destruct (ti_exited _ _ Hi 0) as [_ [?|?]]; [by rewrite Ew|done|done]. }
  split; [done|]. rewrite (ti_fifo _ _ Hi), Ht, app_nil_r, (ti_running _ _ Hi), Hrun.
  by rewrite app_nil_r.
Qed.

(** C37. No accepted task is stranded before shutdown: whenever the queue holds a
    task and [m_stopping] is unset, at most four actions of the pool's own threads
    and of [submit]s under way, without any new call or spurious wake-up, take
    the front task. *)
Theorem no_task_stranded {T : Type} n (s : ThreadPool T) t rest :
  tp_reach n s -> m_stopping s = false -> m_tasks s = t :: rest ->
  exists evs s', length evs <= 4 /\ Forall (fun ev => own_event ev = true) evs /\
    tp_run evs s = Some s' /\ tp_started s' = tp_started s ++ [t].
Proof.
  intros Hi%inv_tp_reach Hs Ht.
  assert (exists evs, length evs <= 4 /\ starts t s evs) as (evs & Hl & Hf & s' & Hr & He).
  { destruct (tp_mutex s) eqn:Em; [by eapply holder_starts|by eapply free_starts]. }
  by exists evs, s'.
Qed.

(** C38. The destructor can hang: [~ThreadPool] sets [m_stopping] and notifies
    without [m_mutex], so both can fall between a worker's evaluation of the
    wait predicate and its blocking.  In the state reached that way the
    destructor waits in [join] for a worker that waits in [m_cv], no thread of
    the program has an enabled step except a [submit] that returns at once, and
    only a spurious wake-up would help. *)
Theorem destructor_lost_wakeup :
  exists s : ThreadPool nat,
    tp_reach 1 s /\ tp_dtor s = DtorNotified /\ tp_workers s = [Waiting] /\
    forall ev s', tp_step ev s = Some s' ->
      ev = Spurious 0 \/ exists t, ev = SubmitTest t /\ s' = s.
Proof.
  exists (mkThreadPool [Waiting] [] None true [] 0 DtorNotified [] [] [] []).
  split_and!; [|done|done|].
  - eapply (tp_run_reach 1 (ThreadPool_new 1) [Lock 0; Test 0; DtorStore; DtorNotify; Block 0]);
      [apply tp_reach_new|reflexivity].
  - intros ev s' E. destruct ev as [t|j|i|[|i]|[|i]|[|i]|[|i]|[|i] b|[|i]| | |];
      try discriminate E; auto.
    injection E as <-. eauto.
Qed.

(** ** Witnesses *)
Module Witness.

(** One worker; task 7 is accepted, executed and throws; the pool shuts down. *)
Definition busy : list (tp_event nat) :=
  [Lock 0; Test 0; Block 0; SubmitTest 7; SubmitPush 0; SubmitNotify (Some 0)].
Definition shutdown : list (tp_event nat) :=
  [Lock 0; Test 0; Take 0; DtorStore; DtorNotify; Finish 0 true; Lock 0; Test 0; Take 0].

Definition idle : ThreadPool nat := ThreadPool_new 0.
Definition queued : ThreadPool nat :=
  mkThreadPool [WantsLock] [7] None false [] 0 DtorNone [7] [] [] [].
Definition ended : ThreadPool nat :=
  mkThreadPool [Exited] [] None true [] 0 DtorNotified [7] [7] [(7, true)] [].

Lemma queued_reach : tp_reach 0 queued.
Proof. by eapply (tp_run_reach 0 idle busy); [apply tp_reach_new|]. Qed.

Lemma ended_reach : tp_reach 0 ended.
Proof. by eapply (tp_run_reach 0 queued shutdown); [apply queued_reach|]. Qed.

Lemma pool_fifo_exactly_once_witness :
  tp_accepted ended = tp_started ended ++ m_tasks ended /\ tp_started ended = [7].
Proof. split; [apply (pool_fifo_exactly_once 0 ended ended_reach)|reflexivity]. Defined.

Lemma shutdown_drains_queue_witness :
  exists s', tp_step DtorJoin ended = Some s' /\ (tp_finished s').*1 ≡ₚ [7].
Proof.
  eexists. split; [reflexivity|].
  exact (proj2 (shutdown_drains_queue 0 ended _ ended_reach eq_refl eq_refl)).
Defined.

Lemma no_task_stranded_witness :
  m_tasks queued = [7] /\
  exists evs s', tp_run evs queued = Some s' /\ tp_started s' = [7].
Proof.
  split; [reflexivity|].
  destruct (no_task_stranded 0 queued 7 [] queued_reach eq_refl eq_refl)
    as (evs & s' & _ & _ & Hr & He).
  exists evs, s'. split; [exact Hr|exact He].
Defined.
End Witness.
