(* ===== verification/Config.v ===== *)
(** * Configuration (src/common/config/Config.h, Config.cpp)

    The key/value table filled from the configuration file and read with a
    default; every access runs under [mutex_].  A file is what [std::ifstream]
    delivers: [None] when it cannot be opened, or its bytes. *)
From S2P Require Import Prelude Text.
Local Open Scope string_scope.

(** [data_] *)
Abbreviation Config := (gmap string string).

Implicit Types c : Config.

(** The characters of " \t\r\n". *)
Definition is_blank (a : ascii) : bool :=
  let n := nat_of_ascii a in
  Nat.eqb n 32 || Nat.eqb n 9 || Nat.eqb n 13 || Nat.eqb n 10.

(** [trim(s)]; when there is a first character that is not blank there is a
    last one, and the inner [None] is not reached. *)
Definition trim (s : string) : string :=
  match find_first_if (fun a => negb (is_blank a)) s with
  | None => ""
  | Some start =>
      match find_last_if (fun a => negb (is_blank a)) s with
      | None => substr_from start s
      | Some stop => substr start (stop - start + 1) s
      end
  end.

(** [set(key, value)] and [getString(key, defaultValue)] *)
Definition set (key value : string) c : Config := <[key := value]> c.

Definition getString (key defaultValue : string) c : string :=
  match c !! key with Some v => v | None => defaultValue end.

(** [getInt(key, defaultValue)]: an exception of [std::stoi] gives the default. *)
Definition getInt (key : string) (defaultValue : Z) c : Z :=
  match c !! key with
  | Some v => match stoi v with Some n => n | None => defaultValue end
  | None => defaultValue
  end.

(** [std::tolower] on one character and [std::transform] on the string. *)
Definition tolower (a : ascii) : ascii :=
  let n := nat_of_ascii a in
  if Nat.leb 65 n && Nat.leb n 90 then ascii_of_nat (n + 32) else a.

Fixpoint lower (s : string) : string :=
  match s with EmptyString => "" | String a s' => String (tolower a) (lower s') end.

(** [getBool(key, defaultValue)] *)
Definition getBool (key : string) (defaultValue : bool) c : bool :=
  match c !! key with
  | Some it =>
      let v := lower it in
      if String.eqb v "1" || String.eqb v "true" || String.eqb v "yes" || String.eqb v "on"
      then true
      else if String.eqb v "0" || String.eqb v "false" || String.eqb v "no" || String.eqb v "off"
      then false
      else defaultValue
  | None => defaultValue
  end.

(** The newline that ends a line. *)
Definition newline : ascii := "010"%char.

(** [std::getline]: the line and what is left. *)
Fixpoint getline (s : string) : string * string :=
  match s with
  | EmptyString => ("", "")
  | String a s' =>
      if Ascii.eqb a newline then ("", s')
      else let '(l, r) := getline s' in (String a l, r)
  end.

(** The body of the loop of [loadFromFile]. *)
Definition load_line (raw : string) c : Config :=
  let line := trim raw in
  match line with
  | "" => c
  | String a _ =>
      if Ascii.eqb a "#" then c
      else match find_char "=" line with
      | None => c
      | Some pos =>
          let key := trim (substr 0 pos line) in
          let value := trim (substr_from (pos + 1) line) in
          if String.eqb key "" then c else set key value c
      end
  end.

(** The loop; every turn consumes a character, so the length of the file is
    enough fuel. *)
Fixpoint load_loop (fuel : nat) (file : string) c : Config :=
  match fuel, file with
  | S fuel', String _ _ =>
      let '(line, rest) := getline file in load_loop fuel' rest (load_line line c)
  | _, _ => c
  end.

(** [loadFromFile(path)] *)
Definition loadFromFile (file : option string) c : bool * Config :=
  match file with
  | None => (false, c)
  | Some s => (true, load_loop (String.length s) s c)
  end.

(** ** Trimming *)
Definition blanks (s : string) : Prop := str_all is_blank s = true.

(** Empty, or no blank at either end. *)
Definition trimmed (s : string) : Prop :=
  s = "" \/
  (exists a t, s = String a t /\ is_blank a = false) /\
  (exists a t, s = t +:+ String a "" /\ is_blank a = false).

Lemma blanks_neg s :
  str_all (fun a => negb (negb (is_blank a))) s = str_all is_blank s.
Proof. induction s as [|a s IH]; [done|]. simpl. by rewrite IH, negb_involutive. Qed.

Lemma trim_blanks s : blanks s -> trim s = "".
Proof.
  intros Hs. unfold trim.
  rewrite (proj2 (find_first_if_None _ s)); [done|]. by rewrite blanks_neg.
Qed.

(** A text whose ends are not blank, between blanks. *)
Lemma trim_between p a m b q :
  blanks p -> is_blank a = false -> is_blank b = false -> blanks q ->
  trim (p +:+ (String a m +:+ String b "") +:+ q) = String a m +:+ String b "".
Proof.
  intros Hp Ha Hb Hq. unfold trim.
  assert (p +:+ (String a m +:+ String b "") +:+ q = p +:+ String a (m +:+ String b q)) as E1
    by (by rewrite str_app_assoc).
  assert (p +:+ (String a m +:+ String b "") +:+ q = (p +:+ String a m) +:+ String b q) as E2
    by (by rewrite !str_app_assoc).
  rewrite E1 at 1. rewrite find_first_if_app; [|by rewrite blanks_neg|by rewrite Ha].
  rewrite E2 at 1. rewrite find_last_if_app; [|by rewrite Hb|by rewrite blanks_neg].
  rewrite str_length_app.
  replace (String.length p + String.length (String a m) - String.length p + 1)
    with (String.length (String a m +:+ String b "")).
  - apply substr_app.
  - rewrite str_length_app. simpl. lia.
Qed.

Lemma trim_one p a q :
  blanks p -> is_blank a = false -> blanks q -> trim (p +:+ String a q) = String a "".
Proof.
  intros Hp Ha Hq. unfold trim.
  rewrite find_first_if_app; [|by rewrite blanks_neg|by rewrite Ha].
  rewrite find_last_if_app; [|by rewrite Ha|by rewrite blanks_neg].
  replace (String.length p - String.length p + 1) with (String.length (String a "")).
  - apply (substr_app p (String a "") q).
  - simpl. lia.
Qed.

Lemma trimmed_cases s :
  trimmed s -> s = "" \/ (exists a, s = String a "" /\ is_blank a = false) \/
  exists a m b, s = String a m +:+ String b "" /\ is_blank a = false /\ is_blank b = false.
Proof.
  intros [?|[(a & t & -> & Ha) (b & u & E & Hb)]]; [auto|right].
  destruct u as [|x u]; simpl in E; injection E as -> ->.
  - left. eauto.
  - right. by exists x, u, b.
Qed.

(** Blanks around a trimmed text are what [trim] takes away. *)
Lemma trim_pad p s q : blanks p -> trimmed s -> blanks q -> trim (p +:+ s +:+ q) = s.
Proof.
  intros Hp Hs Hq. apply trimmed_cases in Hs as [->|[(a & -> & Ha)|(a & m & b & -> & Ha & Hb)]].
  - apply trim_blanks. unfold blanks. rewrite str_app_nil_l, str_all_app.
    by rewrite Hp, Hq.
  - by apply trim_one.
  - by apply trim_between.
Qed.

Lemma trim_id s : trimmed s -> trim s = s.
Proof.
  intros Hs. rewrite <- (trim_pad "" s "") at 2; [|done..].
  by rewrite str_app_nil_l, str_app_nil_r.
Qed.

(** Every text is a trimmed one between blanks. *)
Lemma trim_decompose s : exists p m q, s = p +:+ m +:+ q /\ blanks p /\ trimmed m /\ blanks q.
Proof.
  destruct (find_first_if (fun a => negb (is_blank a)) s) as [i|] eqn:Ef.
  - apply find_first_if_Some in Ef as (p & a & t & -> & _ & Ha & Hp).
    rewrite blanks_neg in Hp. apply negb_true_iff in Ha.
    destruct (str_all is_blank t) eqn:Et.
    + exists p, (String a ""), t. split_and!; [done..| |done]. right. split; exists a, ""; done.
    + rewrite <- blanks_neg in Et. apply last_split in Et as (u & b & q & -> & Hb & Hq).
      rewrite blanks_neg in Hq. apply negb_true_iff in Hb.
      exists p, (String a (u +:+ String b "")), q. split_and!; [|done| |done].
      * by rewrite !str_app_cons, str_app_assoc.
      * right. split; [by eexists _, _|]. by exists b, (String a u).
  - apply find_first_if_None in Ef. rewrite blanks_neg in Ef.
    exists s, "", "". split_and!; [by rewrite str_app_nil_r|done|by left|done].
Qed.

(** ** Loading *)
Lemma getline_line l rest :
  str_all (fun a => negb (Ascii.eqb a newline)) l = true ->
  getline (l +:+ String newline rest) = (l, rest).
Proof.
  induction l as [|a l IH]; [done|]. rewrite str_app_cons. simpl. intros H. bool_to_prop.
  rewrite H. by rewrite IH.
Qed.

Lemma getline_shorter a s : String.length (getline (String a s)).2 <= String.length s.
Proof.
  revert a. induction s as [|b s IH]; intros a; simpl; [by destruct (Ascii.eqb a newline)|].
  destruct (Ascii.eqb a newline); [done|]. specialize (IH b). simpl in IH.
  destruct (if Ascii.eqb b newline then _ else _) as [l r]. simpl in *. lia.
Qed.

Lemma load_loop_fuel f g s c :
  String.length s <= f -> String.length s <= g -> load_loop f s c = load_loop g s c.
Proof.
  revert g s c. induction f as [|f IH]; intros g s c Hf Hg.
  - destruct s; [by destruct g|simpl in Hf; lia].
  - destruct s as [|a s]; [by destruct g|]. destruct g as [|g]; [simpl in Hg; lia|].
    pose proof (getline_shorter a s) as Hl. cbn [load_loop].
    destruct (getline (String a s)) as [line rest]. cbn [snd] in Hl.
    apply IH; simpl in Hf, Hg; lia.
Qed.

Lemma load_loop_line l rest c :
  str_all (fun a => negb (Ascii.eqb a newline)) l = true ->
  load_loop (String.length (l +:+ String newline rest)) (l +:+ String newline rest) c =
  load_loop (String.length rest) rest (load_line l c).
Proof.
  intros Hl. pose proof (getline_line l rest Hl) as Hg.
  assert (exists a s, l +:+ String newline rest = String a s /\
    String.length rest <= String.length s) as (a & s & E & Hlen).
  { destruct l as [|b l]; [by exists newline, rest|].
    exists b, (l +:+ String newline rest). split; [done|].
    rewrite str_length_app. simpl. lia. }
  rewrite E in *. cbn [String.length load_loop]. rewrite Hg. by apply load_loop_fuel.
Qed.

(** ** A configuration file as a list of lines *)
Inductive config_line :=
  | Binding (p1 key p2 p3 value p4 : string)   (* p1 key p2 = p3 value p4 *)
  | Ignored (text : string).

Definition line_text (l : config_line) : string :=
  match l with
  | Binding p1 key p2 p3 value p4 => p1 +:+ key +:+ p2 +:+ "=" +:+ p3 +:+ value +:+ p4
  | Ignored text => text
  end.

Definition one_line (s : string) : Prop :=
  str_all (fun a => negb (Ascii.eqb a newline)) s = true.

(** Blanks around a key without [=] that does not look like a comment and
    around a value; or a blank line, a comment, or a line without [=]. *)
Definition line_ok (l : config_line) : Prop :=
  one_line (line_text l) /\
  match l with
  | Binding p1 key p2 p3 value p4 =>
      blanks p1 /\ blanks p2 /\ blanks p3 /\ blanks p4 /\
      trimmed key /\ trimmed value /\ key <> "" /\
      str_all (fun a => negb (Ascii.eqb a "=")) key = true /\
      (forall t, key <> String "#" t)
  | Ignored text =>
      trim text = "" \/ (exists t, trim text = String "#" t) \/
      find_char "=" (trim text) = None
  end.

Definition line_binding (l : config_line) : option (string * string) :=
  match l with
  | Binding _ key _ _ value _ => Some (key, value)
  | Ignored _ => None
  end.

Fixpoint render (ls : list config_line) : string :=
  match ls with
  | [] => ""
  | l :: ls' => line_text l +:+ String newline (render ls')
  end.

(** The assignments the file makes, in order. *)
Definition assign (c : Config) (kvs : list (string * string)) : Config :=
  foldl (fun c' kv => set kv.1 kv.2 c') c kvs.

Lemma find_char_first x s t :
  str_all (fun a => negb (Ascii.eqb a x)) s = true ->
  find_char x (s +:+ String x t) = Some (String.length s).
Proof.
  induction s as [|a s IH]; [by rewrite str_app_nil_l; simpl; rewrite Ascii.eqb_refl|].
  rewrite str_app_cons. simpl. intros H. bool_to_prop. rewrite H. by rewrite IH.
Qed.

Lemma blanks_no_equals s : blanks s -> str_all (fun a => negb (Ascii.eqb a "=")) s = true.
Proof.
  unfold blanks. induction s as [|a s IH]; [done|]. simpl. intros H. bool_to_prop.
  rewrite IH by done. destruct (Ascii.eqb_spec a "="%char) as [->|]; [|done].
  by vm_compute in H.
Qed.

Lemma trimmed_head a s : trimmed (String a s) -> is_blank a = false.
Proof. intros [?|[(b & t & E & Hb) _]]; [done|]. by injection E as <- <-. Qed.

(** The end of a line is not blank: it is the value's or the [=] sign. *)
Lemma trim_binding p1 key p2 p3 value p4 :
  blanks p1 -> blanks p3 -> blanks p4 -> trimmed key -> trimmed value -> key <> "" ->
  exists p3', (p3' = p3 \/ value = "" /\ p3' = "") /\
    trim (p1 +:+ key +:+ p2 +:+ "=" +:+ p3 +:+ value +:+ p4) =
    key +:+ p2 +:+ "=" +:+ p3' +:+ value.
Proof.
  intros H1 H3 H4 Hk Hv Hne. destruct key as [|a k]; [done|].
  pose proof (trimmed_head _ _ Hk) as Ha.
  assert (forall m b, is_blank b = false -> trimmed (String a k +:+ m +:+ String b "")) as Htr.
  { intros m b Hb. right. split; [by eexists _, _|].
    exists b, (String a k +:+ m). by rewrite str_app_assoc. }
  apply trimmed_cases in Hv as [->|Hv].
  - exists "". split; [auto|].
    assert (p1 +:+ String a k +:+ p2 +:+ "=" +:+ p3 +:+ "" +:+ p4 =
      p1 +:+ (String a k +:+ p2 +:+ String "=" "") +:+ (p3 +:+ p4)) as ->
      by (by rewrite !str_app_assoc).
    pose proof (Htr p2 "="%char eq_refl) as Ht.
    rewrite trim_pad; [done|done|done|]. unfold blanks. rewrite str_all_app. by rewrite H3, H4.
  - exists p3. split; [auto|].
    assert (exists u b, value = u +:+ String b "" /\ is_blank b = false) as (u & b & -> & Hb).
    { destruct Hv as [(b & -> & Hb)|(x & m & b & -> & _ & Hb)]; [by exists "", b|].
      by exists (String x m), b. }
    pose proof (Htr (p2 +:+ "=" +:+ p3 +:+ u) b Hb) as Ht.
    assert (p1 +:+ String a k +:+ p2 +:+ "=" +:+ p3 +:+ (u +:+ String b "") +:+ p4 =
      p1 +:+ (String a k +:+ (p2 +:+ "=" +:+ p3 +:+ u) +:+ String b "") +:+ p4) as ->
      by (by rewrite !str_app_assoc).
    rewrite trim_pad by done. by rewrite !str_app_assoc.
Qed.

Lemma load_line_binding p1 key p2 p3 value p4 c :
  line_ok (Binding p1 key p2 p3 value p4) ->
  load_line (p1 +:+ key +:+ p2 +:+ "=" +:+ p3 +:+ value +:+ p4) c = set key value c.
Proof.
  intros [_ (H1 & H2 & H3 & H4 & Hk & Hv & Hne & Heq & Hcom)]. unfold load_line.
  destruct (trim_binding p1 key p2 p3 value p4) as (p3' & Hp3 & ->); [done..|].
  destruct key as [|a k]; [done|]. rewrite str_app_cons.
  destruct (Ascii.eqb_spec a "#"%char) as [->|_]; [by destruct (Hcom k)|].
  rewrite <- str_app_cons.
  assert (String a k +:+ p2 +:+ "=" +:+ p3' +:+ value =
    (String a k +:+ p2) +:+ String "=" (p3' +:+ value)) as -> by (by rewrite str_app_assoc).
  rewrite find_char_first by (rewrite str_all_app, Heq; by apply blanks_no_equals).
  replace (substr 0 (String.length (String a k +:+ p2))
    ((String a k +:+ p2) +:+ String "=" (p3' +:+ value))) with (String a k +:+ p2)
    by (symmetry; apply str_take_app).
  replace (substr_from (String.length (String a k +:+ p2) + 1)
    ((String a k +:+ p2) +:+ String "=" (p3' +:+ value))) with (p3' +:+ value).
  - rewrite <- (str_app_nil_l (String a k +:+ p2)), trim_pad by done.
    rewrite <- (str_app_nil_r value) at 1. rewrite trim_pad; [done| |done..].
    by destruct Hp3 as [->|[_ ->]].
  - rewrite <- (substr_from_app (String a k +:+ p2) (String "=" (p3' +:+ value))) at 1.
    generalize (String a k +:+ p2). intros u.
    induction u as [|b u IH]; [done|]. by rewrite str_app_cons.
Qed.

Lemma load_line_ok l c :
  line_ok l ->
  load_line (line_text l) c =
  match line_binding l with Some kv => set kv.1 kv.2 c | None => c end.
Proof.
  destruct l as [p1 key p2 p3 value p4|text]; [apply load_line_binding|].
  intros [_ H]. unfold load_line. simpl.
  destruct H as [->|[[t ->]|H]]; [done..|]. destruct (trim text) as [|a t] eqn:Et; [done|].
  destruct (Ascii.eqb a "#"); [done|]. by rewrite H.
Qed.

Lemma load_render ls c :
  Forall line_ok ls ->
  load_loop (String.length (render ls)) (render ls) c = assign c (omap line_binding ls).
Proof.
  intros Hls. revert c. induction Hls as [|l ls Hl Hls IH]; intros c; [done|].
  cbn [render]. rewrite load_loop_line by apply Hl. rewrite load_line_ok by done. rewrite IH.
  unfold assign. csimpl. by destruct (line_binding l).
Qed.

Lemma assign_lookup_other c kvs key :
  key ∉ kvs.*1 -> assign c kvs !! key = c !! key.
Proof.
  revert c. induction kvs as [|[k v] kvs IH]; intros c; [done|]. csimpl.
  intros [Hne Hin]%not_elem_of_cons. rewrite IH by done. unfold set. simpl.
  by rewrite lookup_insert_ne.
Qed.

Lemma assign_lookup_last c kvs1 kvs2 key v :
  key ∉ kvs2.*1 -> assign c (kvs1 ++ (key, v) :: kvs2)%list !! key = Some v.
Proof.
  intros H. unfold assign. rewrite foldl_app. simpl.
  rewrite (assign_lookup_other _ kvs2 key H). unfold set. apply lookup_insert_eq.
Qed.

(** ** The properties *)

(** [trim] is the text between the blanks: whatever blanks surround a text
    that has none at its ends, that text is the result, and every text is of this form. *)
Theorem trim_spec s :
  (forall p m q, s = p +:+ m +:+ q -> blanks p -> trimmed m -> blanks q -> trim s = m) /\
  exists p q, s = p +:+ trim s +:+ q /\ blanks p /\ trimmed (trim s) /\ blanks q.
Proof.
  split.
  - intros p m q -> Hp Hm Hq. by apply trim_pad.
  - destruct (trim_decompose s) as (p & m & q & -> & Hp & Hm & Hq).
    exists p, q. by rewrite trim_pad.
Qed.

(** C40. A configuration file is read back as it was written: for a file of
    bindings (with blanks around keys and values), comments, blank lines and
    lines without [=], loading succeeds and performs the bindings in order, so a
    key has the value of its last binding and a key without one keeps what it had. *)
Theorem config_roundtrip ls (c : Config) :
  Forall line_ok ls ->
  let '(ok, c') := loadFromFile (Some (render ls)) c in
  ok = true /\
  (forall key d, key ∉ (omap line_binding ls).*1 -> getString key d c' = getString key d c) /\
  (forall key v d kvs1 kvs2, omap line_binding ls = (kvs1 ++ (key, v) :: kvs2)%list ->
     key ∉ kvs2.*1 -> getString key d c' = v).
Proof.
  intros Hls. unfold loadFromFile. rewrite load_render by done. split_and!; [done| |].
  - intros key d Hkey. unfold getString. by rewrite assign_lookup_other.
  - intros key v d kvs1 kvs2 -> Hkey. unfold getString. by rewrite assign_lookup_last.
Qed.

(** [getInt] on a value that starts, after white space, with a decimal
    number returns that number whatever text follows it when it fits an [int]; when it does
    not, or when the key is missing, it returns the default. *)
Theorem getInt_spec key d (c : Config) :
  (c !! key = None -> getInt key d c = d) /\
  (forall p z t, c !! key = Some (p +:+ to_string z +:+ t) ->
     str_all is_space p = true -> no_digit_head t = true ->
     getInt key d c = if bool_decide (is_i32 z) then z else d).
Proof.
  unfold getInt. split; [by intros ->|]. intros p z t -> Hp Ht.
  rewrite stoi_decimal by done. by destruct (bool_decide (is_i32 z)).
Qed.

(** ** Witnesses *)
Module Witness.

(** The start of a configuration file of the cluster. *)
Definition conf : list config_line :=
  [Ignored "# node 1"; Binding "" "server.id" " " " " "node1" "";
   Binding "  " "server.port" "" "" "8080" " "; Ignored "";
   Binding "" "server.port" " " "" "8081" ""].

Lemma conf_ok : Forall line_ok conf.
Proof.
  assert (forall a b s, is_blank a = false -> is_blank b = false ->
    trimmed (String a (s +:+ String b ""))) as Ht.
  { intros a b s Ha Hb. right. split; [by eexists _, _|]. by exists b, (String a s). }
  repeat apply List.Forall_cons; try apply List.Forall_nil; split; try (vm_compute; done).
  - right. left. by exists " node 1".
  - split_and!; try (vm_compute; done);
      [by apply (Ht "s"%char "d"%char "erver.i")|by apply (Ht "n"%char "1"%char "ode")].
  - split_and!; try (vm_compute; done);
      [by apply (Ht "s"%char "t"%char "erver.por")|by apply (Ht "8"%char "0"%char "08")].
  - by left.
  - split_and!; try (vm_compute; done);
      [by apply (Ht "s"%char "t"%char "erver.por")|by apply (Ht "8"%char "1"%char "08")].
Qed.

Lemma config_roundtrip_witness :
  (loadFromFile (Some (render conf)) ∅).1 = true /\
  getString "server.port" "" (loadFromFile (Some (render conf)) ∅).2 = "8081" /\
  getInt "server.port" 9000 (loadFromFile (Some (render conf)) ∅).2 = 8081%Z.
Proof.
  pose proof (config_roundtrip conf ∅ conf_ok) as H.
  destruct (loadFromFile (Some (render conf)) ∅) as [ok c'] eqn:E. destruct H as (Hok & _ & H).
  split_and!.
  - exact Hok.
  - eapply (H _ _ _ [("server.id", "node1"); ("server.port", "8080")] []);
      [reflexivity|apply not_elem_of_nil].
  - assert (c' = (loadFromFile (Some (render conf)) ∅).2) as -> by (by rewrite E).
    vm_compute. reflexivity.
Defined.
End Witness.
