(* ===== verification/Json.v ===== *)
(** * JSON values as the code uses them

    The code handles JSON through nlohmann::json: building objects, reading
    fields with [at] and [operator[]], converting to C++ types, and turning
    values into text and back.  Values and accesses are modelled here; the text
    ([dump] and [json::parse]) and floating point are parameters, the classes
    [JsonText] and [Floats], with their documented behaviour as laws. *)
From S2P Require Import Prelude Text.
Local Open Scope string_scope.

(** ** Outcomes

    A call returns, throws an exception, or runs into undefined behaviour or a
    failed assertion (the build type of the project is Debug, where the
    library's assertions end the process). *)
Inductive result (A : Type) :=
  | Ok (a : A)
  | Throw
  | Crash.
Arguments Ok {A}.
Arguments Throw {A}.
Arguments Crash {A}.

#[export] Instance result_ret : MRet result := @Ok.
#[export] Instance result_bind : MBind result := fun A B f r =>
  match r with Ok a => f a | Throw => Throw | Crash => Crash end.
#[export] Instance result_fmap : FMap result := fun A B f r =>
  match r with Ok a => Ok (f a) | Throw => Throw | Crash => Crash end.

(** A call whose only failure is an exception. *)
Definition or_throw {A} (o : option A) : result A :=
  match o with Some a => Ok a | None => Throw end.

(** ** Floating point *)
Class Floats := {
  f64 : Type;                    (* double *)
  f32 : Type;                    (* float *)
  f64_finite : f64 -> bool;
  f32_finite : f32 -> bool;
  f64_of_f32 : f32 -> f64;
  f32_of_f64 : f64 -> f32;
  f32_of_Z : Z -> f32;           (* from a 64-bit integer *)
  int_of_f64 : f64 -> option Z;     (* static_cast<int>; None: undefined *)
  uint64_of_f64 : f64 -> option Z;  (* static_cast<uint64_t>; None: undefined *)
}.

(** Widening is exact, and a conversion to [int] that is defined is an [int]. *)
Class FloatLaws `{!Floats} := {
  int_of_f64_range x z : int_of_f64 x = Some z -> is_i32 z;
  widen_finite x : f64_finite (f64_of_f32 x) = f32_finite x;
  narrow_widen x : f32_finite x = true -> f32_of_f64 (f64_of_f32 x) = x;
}.

(** ** Values *)
Section values.
Context `{!Floats}.

Inductive json :=
  | JNull
  | JBool (b : bool)
  | JInt (z : Z)                          (* number_integer and number_unsigned *)
  | JFloat (x : f64)
  | JString (s : string)
  | JArray (l : list json)
  | JObject (m : list (string * json)).   (* std::map: keys in order *)

(** Induction with the hypotheses for the elements of arrays and objects. *)
Section json_ind.
Variable P : json -> Prop.
Hypothesis HNull : P JNull.
Hypothesis HBool : forall b, P (JBool b).
Hypothesis HInt : forall z, P (JInt z).
Hypothesis HFloat : forall x, P (JFloat x).
Hypothesis HString : forall s, P (JString s).
Hypothesis HArray : forall l, Forall P l -> P (JArray l).
Hypothesis HObject : forall m, Forall (fun kv => P kv.2) m -> P (JObject m).

Fixpoint json_rect' (j : json) : P j :=
  match j with
  | JNull => HNull
  | JBool b => HBool b
  | JInt z => HInt z
  | JFloat x => HFloat x
  | JString s => HString s
  | JArray l =>
      HArray l ((fix go l : Forall P l :=
        match l with
        | [] => Forall_nil_2 _
        | j :: l' => Forall_cons_2 _ _ _ (json_rect' j) (go l')
        end) l)
  | JObject m =>
      HObject m ((fix go m : Forall (fun kv => P kv.2) m :=
        match m with
        | [] => Forall_nil_2 _
        | kv :: m' => Forall_cons_2 _ _ _ (json_rect' kv.2) (go m')
        end) m)
  end.
End json_ind.

(** *** Objects *)
Fixpoint obj_find (k : string) (m : list (string * json)) : option json :=
  match m with
  | [] => None
  | (k', v) :: m' => if String.eqb k k' then Some v else obj_find k m'
  end.

(** Assign a key, keeping the order of the keys. *)
Fixpoint obj_set (k : string) (v : json) (m : list (string * json)) : list (string * json) :=
  match m with
  | [] => [(k, v)]
  | (k', v') :: m' =>
      match String.compare k k' with
      | Lt => (k, v) :: m
      | Eq => (k, v) :: m'
      | Gt => (k', v') :: obj_set k v m'
      end
  end.

(** [{{k1, v1}, {k2, v2}, ...}] *)
Definition obj_of (kvs : list (string * json)) : json :=
  JObject (foldl (fun m kv => obj_set kv.1 kv.2 m) [] kvs).

(** *** Access *)

(** [j.at(key)]: throws on a missing key and on a value that is no object. *)
Definition json_at (key : string) (j : json) : result json :=
  match j with
  | JObject m => or_throw (obj_find key m)
  | _ => Throw
  end.

(** [j[key]] on a modifiable value: a missing key is inserted with null, and
    null becomes an object first. *)
Definition json_index (key : string) (j : json) : result json :=
  match j with
  | JObject m => Ok (default JNull (obj_find key m))
  | JNull => Ok JNull
  | _ => Throw
  end.

(** [j[key]] on a [const] value: a missing key fails an assertion. *)
Definition json_index_const (key : string) (j : json) : result json :=
  match j with
  | JObject m => match obj_find key m with Some v => Ok v | None => Crash end
  | _ => Throw
  end.

(** [j.contains(key)] *)
Definition json_contains (key : string) (j : json) : bool :=
  match j with
  | JObject m => match obj_find key m with Some _ => true | None => false end
  | _ => false
  end.

(** [for (auto& e : j)]: the values of an array or object, nothing for null,
    and any other value once. *)
Definition json_items (j : json) : list json :=
  match j with
  | JArray l => l
  | JObject m => m.*2
  | JNull => []
  | _ => [j]
  end.

(** *** Conversions; a value of another type throws. *)
Definition get_string (j : json) : result string :=
  match j with JString s => Ok s | _ => Throw end.

Definition get_bool (j : json) : result bool :=
  match j with JBool b => Ok b | _ => Throw end.

Definition get_uint64 (j : json) : result Z :=
  match j with
  | JInt z => Ok (u64 z)
  | JFloat x => match uint64_of_f64 x with Some z => Ok z | None => Crash end
  | _ => Throw
  end.

(** To [int] also from a boolean. *)
Definition get_int (j : json) : result Z :=
  match j with
  | JInt z => Ok (i32 z)
  | JFloat x => match int_of_f64 x with Some z => Ok z | None => Crash end
  | JBool b => Ok (if b then 1 else 0)%Z
  | _ => Throw
  end.

Definition get_float (j : json) : result f32 :=
  match j with
  | JInt z => Ok (f32_of_Z z)
  | JFloat x => Ok (f32_of_f64 x)
  | JBool b => Ok (f32_of_Z (if b then 1 else 0))
  | _ => Throw
  end.

(** ** Well-formed values: what text can carry *)
Definition json_int_ok (z : Z) : Prop := (- 2 ^ 63 <= z < 2 ^ 64)%Z.

Definition keys_sorted (m : list (string * json)) : Prop :=
  StronglySorted (fun a b => String.compare a b = Lt) m.*1.
End values.

Section text.
Context `{!Floats}.

(** ** Text *)
Class JsonText := {
  utf8_ok : string -> bool;
  json_dump : json -> option string;     (* None: an exception *)
  json_parse : string -> option json;    (* None: an exception *)
}.

Fixpoint json_ok `{!JsonText} (j : json) : Prop :=
  match j with
  | JNull | JBool _ => True
  | JInt z => json_int_ok z
  | JFloat x => f64_finite x = true
  | JString s => utf8_ok s = true
  | JArray l => (fix go l := match l with [] => True | j :: l' => json_ok j /\ go l' end) l
  | JObject m =>
      keys_sorted m /\
      (fix go m := match m with
                   | [] => True
                   | (k, v) :: m' => (utf8_ok k = true /\ json_ok v) /\ go m'
                   end) m
  end.

(** Numbers that are not finite are written as null. *)
Fixpoint finite_or_null (j : json) : json :=
  match j with
  | JFloat x => if f64_finite x then JFloat x else JNull
  | JArray l => JArray (finite_or_null <$> l)
  | JObject m => JObject (prod_map id finite_or_null <$> m)
  | _ => j
  end.

(** The documented behaviour of [dump] and [parse]. *)
Class JsonTextLaws `{!JsonText} := {
  utf8_ascii s : str_all (fun c => Nat.ltb (nat_of_ascii c) 128) s = true -> utf8_ok s = true;
  dump_parse j : json_ok j -> exists s, json_dump j = Some s /\ json_parse s = Some j;
  dump_null j : json_dump j = json_dump (finite_or_null j);
  parse_ok s j : json_parse s = Some j -> json_ok j;
}.

Lemma json_ok_array `{!JsonText} l : json_ok (JArray l) <-> Forall json_ok l.
Proof.
  induction l as [|j l IH]; simpl in *; [split; [constructor|done]|].
  rewrite Forall_cons. by rewrite <- IH.
Qed.

Lemma json_ok_object `{!JsonText} m :
  json_ok (JObject m) <->
  keys_sorted m /\ Forall (fun kv => utf8_ok kv.1 = true /\ json_ok kv.2) m.
Proof.
  simpl. apply and_iff_compat_l.
  induction m as [|[k v] m IH]; simpl in *; [split; [constructor|done]|].
  rewrite Forall_cons. simpl. by rewrite <- IH.
Qed.

Lemma keys_cons k v m :
  Forall (fun kv => String.compare k kv.1 = Lt) m -> keys_sorted m -> keys_sorted ((k, v) :: m).
Proof.
  intros Hk Hm. unfold keys_sorted. csimpl. constructor; [done|]. by apply Forall_fmap.
Qed.

End text.

(** An object with ASCII keys in order. *)
Ltac object_ok :=
  apply json_ok_object; split;
  [repeat (apply keys_cons; [repeat constructor|]); constructor
  |repeat (apply List.Forall_cons; [split; [by apply utf8_ascii|]|]); try apply List.Forall_nil].

