(* ===== verification/JsonText.v ===== *)
(** * A JSON text that satisfies the laws

    A concrete printer and parser of compact JSON (the shape [dump()] gives,
    without white space), with integers for floating point, which instantiate
    [Floats] and [JsonText]: the laws the development relies on hold together,
    and theorems that use them can be evaluated on concrete texts.  It stands in
    for the library; it is not a model of its parser. *)
From S2P Require Import Prelude Text Json.
Local Open Scope string_scope.

(** ** Numbers: [None] is the value that is not finite. *)
#[export] Instance int_floats : Floats := {|
  f64 := option Z;
  f32 := option Z;
  f64_finite x := match x with Some _ => true | None => false end;
  f32_finite x := match x with Some _ => true | None => false end;
  f64_of_f32 x := x;
  f32_of_f64 x := x;
  f32_of_Z z := Some z;
  int_of_f64 x := z ← x; if bool_decide (is_i32 z) then Some z else None;
  uint64_of_f64 x := z ← x; if bool_decide (is_u64 z) then Some z else None;
|}.

#[export] Instance int_float_laws : FloatLaws.
Proof.
  constructor; [|done..]. intros [z|] w; simpl; [|done].
  case_bool_decide; [|done]. by intros [= <-].
Qed.

(** ** Printing *)
Definition quote : ascii := "034"%char.
Definition backslash : ascii := "092"%char.

(** A text in which single quotes stand for double ones. *)
Fixpoint requote (s : string) : string :=
  match s with
  | "" => ""
  | String c s' => String (if Ascii.eqb c "'" then quote else c) (requote s')
  end.

Fixpoint print_chars (s : string) : string :=
  match s with
  | "" => ""
  | String c s' =>
      if Ascii.eqb c quote || Ascii.eqb c backslash
      then String backslash (String c (print_chars s')) else String c (print_chars s')
  end.

Definition print_string (s : string) : string :=
  String quote (print_chars s +:+ String quote "").

Fixpoint print (j : json) : string :=
  match j with
  | JNull => "null"
  | JBool b => if b then "true" else "false"
  | JInt z => to_string z
  | JFloat x => match x with Some z => to_string z +:+ ".0" | None => "null" end
  | JString s => print_string s
  | JArray [] => "[]"
  | JArray (j0 :: l) =>
      "[" +:+ print j0 +:+
      (fix go l := match l with [] => "]" | j' :: l' => "," +:+ print j' +:+ go l' end) l
  | JObject [] => "{}"
  | JObject ((k0, j0) :: m) =>
      "{" +:+ print_string k0 +:+ ":" +:+ print j0 +:+
      (fix go m := match m with
                   | [] => "}"
                   | (k, j') :: m' => "," +:+ print_string k +:+ ":" +:+ print j' +:+ go m'
                   end) m
  end.

(** ** Parsing: a value at the start of a text, and what is left. *)
Fixpoint parse_chars (s : string) : option (string * string) :=
  match s with
  | "" => None
  | String c s' =>
      if Ascii.eqb c quote then Some ("", s')
      else if Ascii.eqb c backslash then
        match s' with
        | "" => None
        | String d s'' => '(t, r) ← parse_chars s''; Some (String d t, r)
        end
      else '(t, r) ← parse_chars s'; Some (String c t, r)
  end.

(** Remove a literal from the front. *)
Fixpoint expect (lit s : string) : option string :=
  match lit, s with
  | "", _ => Some s
  | String a lit', String b s' => if Ascii.eqb a b then expect lit' s' else None
  | _, _ => None
  end.

Definition is_digit (c : ascii) : bool :=
  match digit_value c with Some _ => true | None => false end.

Definition parse_unsigned (sign : Z) (s : string) : option (json * string) :=
  match s with
  | "" => None
  | String c _ =>
      if is_digit c then
        let '(v, r) := read_digits 0 s in
        match expect ".0" r with
        | Some r' => Some (JFloat (Some (sign * v)%Z), r')
        | None => Some (JInt (sign * v)%Z, r)
        end
      else None
  end.

Definition parse_number (s : string) : option (json * string) :=
  match s with
  | String c s' => if Ascii.eqb c "-" then parse_unsigned (-1) s' else parse_unsigned 1 s
  | "" => None
  end.

Fixpoint parse_value (fuel : nat) (s : string) : option (json * string) :=
  match fuel, s with
  | S n, String c s' =>
      if Ascii.eqb c "n" then r ← expect "ull" s'; Some (JNull, r)
      else if Ascii.eqb c "t" then r ← expect "rue" s'; Some (JBool true, r)
      else if Ascii.eqb c "f" then r ← expect "alse" s'; Some (JBool false, r)
      else if Ascii.eqb c quote then '(t, r) ← parse_chars s'; Some (JString t, r)
      else if Ascii.eqb c "[" then
        match expect "]" s' with
        | Some r => Some (JArray [], r)
        | None => '(l, r) ← parse_items n s'; Some (JArray l, r)
        end
      else if Ascii.eqb c "{" then
        match expect "}" s' with
        | Some r => Some (JObject [], r)
        | None => '(m, r) ← parse_members n s'; Some (JObject m, r)
        end
      else parse_number s
  | _, _ => None
  end
with parse_items (fuel : nat) (s : string) : option (list json * string) :=
  match fuel with
  | O => None
  | S n =>
      '(j, r) ← parse_value n s;
      match r with
      | String c r' =>
          if Ascii.eqb c "," then '(l, r2) ← parse_items n r'; Some (j :: l, r2)
          else if Ascii.eqb c "]" then Some ([j], r') else None
      | "" => None
      end
  end
with parse_members (fuel : nat) (s : string) : option (list (string * json) * string) :=
  match fuel with
  | O => None
  | S n =>
      s1 ← expect (String quote "") s;
      '(k, s2) ← parse_chars s1;
      s3 ← expect ":" s2;
      '(j, r) ← parse_value n s3;
      match r with
      | String c r' =>
          if Ascii.eqb c "," then '(m, r2) ← parse_members n r'; Some ((k, j) :: m, r2)
          else if Ascii.eqb c "}" then Some ([(k, j)], r') else None
      | "" => None
      end
  end.

(** What parsing accepts: integers of 64 bits, ordered keys, finite numbers. *)
Fixpoint sortedb (ks : list string) : bool :=
  match ks with
  | [] => true
  | k :: ks' =>
      forallb (fun k' => match String.compare k k' with Lt => true | _ => false end) ks' &&
      sortedb ks'
  end.

Fixpoint okb (j : json) : bool :=
  match j with
  | JInt z => ((- 2 ^ 63 <=? z) && (z <? 2 ^ 64))%Z
  | JFloat x => f64_finite x
  | JArray l => forallb okb l
  | JObject m => sortedb m.*1 && forallb (fun kv => okb kv.2) m
  | _ => true
  end.

Definition parse (s : string) : option json :=
  match parse_value (String.length s) s with
  | Some (j, "") => if okb j then Some j else None
  | _ => None
  end.

#[export] Instance compact_text : JsonText := {|
  utf8_ok _ := true;
  json_dump j := Some (print j);
  json_parse := parse;
|}.

(** ** Well-formedness *)
Lemma sortedb_spec ks :
  sortedb ks = true <-> StronglySorted (fun a b => String.compare a b = Lt) ks.
Proof.
  induction ks as [|k ks IH]; simpl; [split; [constructor|done]|].
  rewrite andb_true_iff, IH, forallb_forall. split.
  - intros [Hk Hs]. constructor; [done|]. apply Forall_forall. intros k' Hk'.
    specialize (Hk k'). rewrite list_elem_of_In in Hk'. specialize (Hk Hk').
    by destruct (String.compare k k').
  - intros H. inversion H as [|? ? Hs Hk]; subst. split; [|done]. intros k' Hk'.
    rewrite Forall_forall in Hk. apply list_elem_of_In in Hk'. by rewrite (Hk k' Hk').
Qed.

Lemma okb_spec j : okb j = true <-> json_ok j.
Proof.
  induction j as [| | | | |l IH|m IH] using json_rect'; try done.
  - cbn [okb json_ok]. unfold json_int_ok. by rewrite andb_true_iff, Z.leb_le, Z.ltb_lt.
  - rewrite json_ok_array. simpl. induction IH as [|j l Hj Hl IHl]; simpl;
      [split; [constructor|done]|].
    by rewrite andb_true_iff, Forall_cons, Hj, IHl.
  - rewrite json_ok_object. simpl. unfold keys_sorted.
    rewrite andb_true_iff, sortedb_spec. apply and_iff_compat_l.
    induction IH as [|[k j] m Hj Hm IHm]; simpl; [split; [constructor|done]|].
    rewrite andb_true_iff, Forall_cons, Hj, IHm. simpl. naive_solver.
Qed.

(** ** Parsing what was printed *)
Fixpoint json_size (j : json) : nat :=
  match j with
  | JArray l => S (list_sum (map (fun j => S (json_size j)) l))
  | JObject m => S (list_sum (map (fun kv => S (json_size kv.2)) m))
  | _ => 1
  end.

(** What may follow a value. *)
Definition delim (rest : string) : bool :=
  match rest with
  | "" => true
  | String c _ => Ascii.eqb c "," || Ascii.eqb c "]" || Ascii.eqb c "}"
  end.

Lemma delim_no_digit rest : delim rest = true -> no_digit_head rest = true /\ expect ".0" rest = None.
Proof.
  destruct rest as [|c r]; [done|]. simpl. intros H.
  apply orb_true_iff in H as [[H|H]%orb_true_iff|H]; apply Ascii.eqb_eq in H; by subst.
Qed.

Lemma expect_app lit s : expect lit (lit +:+ s) = Some s.
Proof.
  induction lit as [|c lit IH]; [by rewrite str_app_nil_l; destruct s|].
  rewrite str_app_cons. simpl. by rewrite Ascii.eqb_refl.
Qed.

Lemma parse_print_chars s rest :
  parse_chars (print_chars s +:+ String quote rest) = Some (s, rest).
Proof.
  induction s as [|c s IH]; [done|]. cbn [print_chars].
  destruct (Ascii.eqb c quote || Ascii.eqb c backslash) eqn:Ec.
  - rewrite !str_app_cons. cbn [parse_chars].
    change (Ascii.eqb backslash quote) with false. rewrite Ascii.eqb_refl, IH. done.
  - apply orb_false_iff in Ec as [Hq Hb]. rewrite str_app_cons. cbn [parse_chars].
    by rewrite Hq, Hb, IH.
Qed.

Lemma print_string_app s rest :
  print_string s +:+ rest = String quote (print_chars s +:+ String quote rest).
Proof. unfold print_string. by rewrite str_app_cons, str_app_assoc. Qed.

(** A decimal number starts with a minus sign or a digit. *)
Lemma to_string_head z t :
  (exists s, (z < 0)%Z /\ to_string z +:+ t = String "-" s /\
     s = decimal_loop (decimal_fuel (- z)) (- z) t) \/
  (0 <= z)%Z /\ to_string z +:+ t = decimal_loop (decimal_fuel z) z t.
Proof.
  unfold to_string. destruct (Z.ltb_spec z 0) as [Hn|Hn].
  - left. eexists. split_and!; [done| |done].
    by rewrite str_app_cons, decimal_loop_app, str_app_nil_l.
  - right. split; [done|]. by rewrite decimal_loop_app, str_app_nil_l.
Qed.

Lemma digit_char_eqb d c : (0 <= d < 10)%Z -> is_digit c = false ->
  Ascii.eqb (digit_char d) c = false.
Proof.
  intros Hd Hc. apply Ascii.eqb_neq. intros <-. unfold is_digit in Hc.
  by rewrite digit_value_char in Hc.
Qed.

Lemma parse_unsigned_decimal sign z t :
  (0 <= z)%Z -> no_digit_head t = true ->
  parse_unsigned sign (decimal_loop (decimal_fuel z) z t) =
  match expect ".0" t with
  | Some r => Some (JFloat (Some (sign * z)%Z), r)
  | None => Some (JInt (sign * z)%Z, t)
  end.
Proof.
  intros Hz Ht. pose proof (read_digits_decimal z t Hz Ht) as Hr.
  destruct (decimal_loop_head (decimal_fuel z) z t) as (d & s & Hd & E);
    [unfold decimal_fuel; lia|].
  rewrite E in *. unfold parse_unsigned, is_digit. by rewrite digit_value_char, Hr.
Qed.

(** A number in front of the parser. *)
Lemma parse_value_number n z t :
  no_digit_head t = true ->
  parse_value (S n) (to_string z +:+ t) =
  match expect ".0" t with
  | Some r => Some (JFloat (Some z), r)
  | None => Some (JInt z, t)
  end.
Proof.
  intros Ht. destruct (to_string_head z t) as [(s & Hz & -> & ->)|[Hz ->]].
  - change (parse_value (S n) (String "-" (decimal_loop (decimal_fuel (- z)) (- z) t)))
      with (parse_unsigned (-1) (decimal_loop (decimal_fuel (- z)) (- z) t)).
    rewrite parse_unsigned_decimal by (done || lia).
    by replace (-1 * - z)%Z with z by lia.
  - pose proof (parse_unsigned_decimal 1 z t Hz Ht) as Hp. rewrite Z.mul_1_l in Hp.
    destruct (decimal_loop_head (decimal_fuel z) z t) as (d & s & Hd & E);
      [unfold decimal_fuel; lia|].
    rewrite E in *. rewrite <- Hp. cbn [parse_value parse_number].
    by rewrite !digit_char_eqb by done.
Qed.

(** The first character of a printed value does not close an array. *)
Lemma print_not_closing j t : expect "]" (print j +:+ t) = None.
Proof.
  assert (forall z u, expect "]" (to_string z +:+ u) = None) as Hz.
  { intros z u. destruct (to_string_head z u) as [(s & _ & -> & _)|[_ ->]]; [done|].
    destruct (decimal_loop_head (decimal_fuel z) z u) as (d & s & Hd & ->);
      [unfold decimal_fuel; lia|].
    cbn [expect]. rewrite Ascii.eqb_sym. by rewrite digit_char_eqb. }
  destruct j as [|[]|z|[z|]|s|[|j0 l]|[|[k0 j0] m]]; try done; simpl print.
  - apply Hz.
  - rewrite str_app_assoc. apply Hz.
Qed.

Definition print_tail (l : list json) : string :=
  (fix go l := match l with [] => "]" | j' :: l' => "," +:+ print j' +:+ go l' end) l.

Definition print_member (kv : string * json) : string :=
  print_string kv.1 +:+ ":" +:+ print kv.2.

Definition print_members_tail (m : list (string * json)) : string :=
  (fix go m := match m with
               | [] => "}"
               | (k, j') :: m' => "," +:+ print_string k +:+ ":" +:+ print j' +:+ go m'
               end) m.

(** The statement proved by induction on the value. *)
Definition parses (j : json) : Prop := forall fuel rest,
  okb j = true -> json_size j <= fuel -> delim rest = true ->
  parse_value fuel (print j +:+ rest) = Some (j, rest).

Lemma delim_tail l rest : delim (print_tail l +:+ rest) = true.
Proof. by destruct l. Qed.

Lemma delim_members_tail m rest : delim (print_members_tail m +:+ rest) = true.
Proof. by destruct m as [|[]]. Qed.

Lemma parse_items_print l : forall j fuel rest,
  Forall parses (j :: l) -> forallb okb (j :: l) = true ->
  list_sum (map (fun j => S (json_size j)) (j :: l)) <= fuel -> 
  parse_items fuel (print j +:+ print_tail l +:+ rest) = Some (j :: l, rest).
Proof.
  induction l as [|j' l IH]; intros j fuel rest HP Hok Hf;
    (destruct fuel as [|n]; [simpl in Hf; lia|]);
    apply Forall_cons in HP as [Hj HP]; cbn [forallb] in Hok; apply andb_true_iff in Hok as [Ho Hok];
    cbn [parse_items];
    (rewrite Hj; [|done|simpl in Hf; lia|apply delim_tail]); [done|].
  change (print_tail (j' :: l)) with ("," +:+ print j' +:+ print_tail l).
  rewrite !str_app_assoc, str_app_cons, str_app_nil_l. cbn [mbind option_bind].
  rewrite Ascii.eqb_refl. rewrite IH; [done|done|done|]. simpl in *. lia.
Qed.

Lemma parse_members_print m : forall k j fuel rest,
  Forall (fun kv => parses kv.2) ((k, j) :: m) ->
  forallb (fun kv => okb kv.2) ((k, j) :: m) = true ->
  list_sum (map (fun kv => S (json_size kv.2)) ((k, j) :: m)) <= fuel ->
  parse_members fuel (print_string k +:+ ":" +:+ print j +:+ print_members_tail m +:+ rest)
  = Some ((k, j) :: m, rest).
Proof.
  induction m as [|[k' j'] m IH]; intros k j fuel rest HP Hok Hf;
    (destruct fuel as [|n]; [simpl in Hf; lia|]);
    apply Forall_cons in HP as [Hj HP]; cbn [forallb] in Hok; apply andb_true_iff in Hok as [Ho Hok];
    cbn [snd] in *; cbn [parse_members]; rewrite print_string_app;
    cbn [expect]; rewrite Ascii.eqb_refl; cbn [mbind option_bind];
    rewrite parse_print_chars; cbn [mbind option_bind];
    rewrite str_app_cons, str_app_nil_l; cbn [expect]; rewrite Ascii.eqb_refl;
    cbn [mbind option_bind];
    (rewrite Hj; [|done|simpl in Hf; lia|apply delim_members_tail]); [done|].
  change (print_members_tail ((k', j') :: m)) with
    ("," +:+ print_string k' +:+ ":" +:+ print j' +:+ print_members_tail m).
  rewrite !str_app_assoc, str_app_cons, str_app_nil_l. cbn [mbind option_bind].
  rewrite Ascii.eqb_refl. rewrite IH; [done|done|done|]. simpl in *. lia.
Qed.

Lemma parse_print_value j : parses j.
Proof.
  induction j as [|b|z|x|s|l IH|m IH] using json_rect'; intros [|n] rest Hok Hf Hr;
    try (simpl in Hf; lia).
  - done.
  - by destruct b.
  - destruct (delim_no_digit rest Hr) as [Hd He]. cbn [print].
    by rewrite parse_value_number, He.
  - destruct x as [z|]; [|done]. cbn [print]. rewrite str_app_assoc, parse_value_number by done.
    by rewrite expect_app.
  - cbn [print]. rewrite print_string_app. cbn [parse_value].
    by rewrite parse_print_chars.
  - destruct l as [|j0 l]; [done|].
    change (print (JArray (j0 :: l)) +:+ rest)
      with (String "[" ((print j0 +:+ print_tail l) +:+ rest)).
    rewrite str_app_assoc. cbn [json_size] in Hf. pose proof (print_not_closing j0 (print_tail l +:+ rest)) as Hc.
    change (parse_value (S n) (String "[" (print j0 +:+ print_tail l +:+ rest)))
      with (match expect "]" (print j0 +:+ print_tail l +:+ rest) with
            | Some r => Some (JArray [], r)
            | None => '(l, r) ← parse_items n (print j0 +:+ print_tail l +:+ rest);
                      Some (JArray l, r)
            end).
    rewrite Hc, parse_items_print; [done|done|done|]. lia.
  - destruct m as [|[k0 j0] m]; [done|]. cbn [okb] in Hok.
    apply andb_true_iff in Hok as [_ Hok]. cbn [json_size] in Hf.
    change (print (JObject ((k0, j0) :: m)) +:+ rest)
      with (String "{" ((print_string k0 +:+ ":" +:+ print j0 +:+ print_members_tail m) +:+ rest)).
    rewrite !str_app_assoc.
    change (parse_value (S n) (String "{"
              (print_string k0 +:+ ":" +:+ print j0 +:+ print_members_tail m +:+ rest)))
      with ('(m', r) ← parse_members n
              (print_string k0 +:+ ":" +:+ print j0 +:+ print_members_tail m +:+ rest);
            Some (JObject m', r)).
    rewrite parse_members_print; [done|done|done|]. lia.
Qed.

(** The text is at least as long as the value is large. *)
Lemma to_string_nonempty z : 1 <= String.length (to_string z).
Proof.
  rewrite <- (str_app_nil_r (to_string z)).
  destruct (to_string_head z "") as [(s & _ & -> & _)|[_ ->]]; [simpl; lia|].
  destruct (decimal_loop_head (decimal_fuel z) z "") as (d & s & _ & ->);
    [unfold decimal_fuel; lia|]. simpl. lia.
Qed.

Lemma print_tail_length l :
  Forall (fun j => json_size j <= String.length (print j)) l ->
  S (list_sum (map (fun j => S (json_size j)) l)) <= String.length (print_tail l).
Proof.
  induction 1 as [|j l Hj Hl IH]; [done|].
  change (print_tail (j :: l)) with (String "," (print j +:+ print_tail l)).
  cbn [String.length]. rewrite str_length_app. simpl. lia.
Qed.

Lemma print_members_tail_length m :
  Forall (fun kv => json_size kv.2 <= String.length (print kv.2)) m ->
  S (list_sum (map (fun kv => S (json_size kv.2)) m)) <= String.length (print_members_tail m).
Proof.
  induction 1 as [|[k j] m Hj Hl IH]; [done|].
  change (print_members_tail ((k, j) :: m))
    with (String "," (print_string k +:+ String ":" (print j +:+ print_members_tail m))).
  cbn [String.length]. rewrite str_length_app. cbn [String.length].
  rewrite str_length_app. simpl in *. lia.
Qed.

Lemma json_size_length j : json_size j <= String.length (print j).
Proof.
  induction j as [|b|z|x|s|l IH|m IH] using json_rect'.
  - simpl. lia.
  - destruct b; simpl; lia.
  - cbn [print json_size]. apply to_string_nonempty.
  - destruct x as [z|]; [|simpl; lia]. cbn [print json_size]. rewrite str_length_app.
    pose proof (to_string_nonempty z). lia.
  - simpl. lia.
  - destruct l as [|j0 l]; [simpl; lia|]. apply Forall_cons in IH as [H0 IH].
    change (print (JArray (j0 :: l))) with (String "[" (print j0 +:+ print_tail l)).
    apply print_tail_length in IH. cbn [String.length]. rewrite str_length_app.
    simpl in *. lia.
  - destruct m as [|[k0 j0] m]; [simpl; lia|]. apply Forall_cons in IH as [H0 IH].
    change (print (JObject ((k0, j0) :: m)))
      with (String "{" (print_string k0 +:+ String ":" (print j0 +:+ print_members_tail m))).
    apply print_members_tail_length in IH. cbn [String.length]. rewrite str_length_app.
    cbn [String.length]. rewrite str_length_app. simpl in *. lia.
Qed.

Lemma parse_print j : okb j = true -> parse (print j) = Some j.
Proof.
  intros Hj. unfold parse. rewrite <- (str_app_nil_r (print j)) at 2.
  rewrite parse_print_value; [by rewrite Hj|done|apply json_size_length|done].
Qed.

(** ** The laws *)
Lemma print_finite j : print j = print (finite_or_null j).
Proof.
  induction j as [|b|z|x|s|l IH|m IH] using json_rect'; try done.
  - by destruct x.
  - destruct l as [|j0 l]; [done|]. apply Forall_cons in IH as [H0 IH]. simpl.
    rewrite H0. do 2 f_equal. induction IH as [|j l Hj Hl IHl]; [done|]. simpl.
    by rewrite Hj, IHl.
  - destruct m as [|[k0 j0] m]; [done|]. apply Forall_cons in IH as [H0 IH]. simpl in *.
    rewrite H0. do 4 f_equal. induction IH as [|[k j] m Hj Hl IHl]; [done|]. simpl in *.
    by rewrite Hj, IHl.
Qed.

#[export] Instance compact_laws : JsonTextLaws.
Proof.
  constructor.
  - done.
  - intros j Hj%okb_spec. exists (print j). split; [done|]. by apply parse_print.
  - intros j. simpl. by rewrite print_finite.
  - intros s j Hp. apply okb_spec. simpl in Hp. unfold parse in Hp.
    destruct (parse_value _ s) as [[j' [|]]|]; [|done..].
    destruct (okb j') eqn:E; [|done]. by injection Hp as <-.
Qed.
