(* ===== verification/Codec.v ===== *)
(** * The frame codec (src/common/codec/YoloCodec.cpp, src/storage/YoloTypes.h)

    Detections as they are stored: a frame becomes a JSON object and back. *)
From S2P Require Import Prelude Text Json JsonText.
Local Open Scope string_scope.

Section codec.
Context `{!Floats, !JsonText}.

Record YoloBox := mkYoloBox {
  class_id : Z;
  box_x : f32;
  box_y : f32;
  box_w : f32;
  box_h : f32;
  confidence : f32;
}.

Record YoloFrame := mkYoloFrame {
  image_id : string;
  image_hash : string;
  boxes : list YoloBox;
  width : Z;
  height : Z;
}.

(** A [float] becomes a JSON number by widening. *)
Definition json_of_f32 (x : f32) : json := JFloat (f64_of_f32 x).

Definition encode_box (b : YoloBox) : json :=
  obj_of [("class_id", JInt (class_id b)); ("x", json_of_f32 (box_x b));
          ("y", json_of_f32 (box_y b)); ("w", json_of_f32 (box_w b));
          ("h", json_of_f32 (box_h b)); ("confidence", json_of_f32 (confidence b))].

(** The object [encode] builds, and the one [handleGet] builds the same way. *)
Definition frame_json (f : YoloFrame) : json :=
  obj_of [("image_id", JString (image_id f)); ("width", JInt (width f));
          ("height", JInt (height f)); ("image_hash", JString (image_hash f));
          ("boxes", JArray (encode_box <$> boxes f))].

(** [encode(f)] *)
Definition encode (f : YoloFrame) : result string := or_throw (json_dump (frame_json f)).

(** [jb.at(key)] converted to the type of the field. *)
Definition int_at (key : string) (j : json) : result Z := json_at key j ≫= get_int.
Definition float_at (key : string) (j : json) : result f32 := json_at key j ≫= get_float.
Definition string_at (key : string) (j : json) : result string := json_at key j ≫= get_string.

Definition decode_box (jb : json) : result YoloBox :=
  c ← int_at "class_id" jb;
  x ← float_at "x" jb;
  y ← float_at "y" jb;
  w ← float_at "w" jb;
  h ← float_at "h" jb;
  p ← float_at "confidence" jb;
  Ok (mkYoloBox c x y w h p).

Fixpoint decode_boxes (l : list json) : result (list YoloBox) :=
  match l with
  | [] => Ok []
  | jb :: l' => b ← decode_box jb; bs ← decode_boxes l'; Ok (b :: bs)
  end.

(** The fields, in the order [decode] (and [handleStore]) reads them. *)
Definition frame_of_json (j : json) : result YoloFrame :=
  i ← string_at "image_id" j;
  w ← int_at "width" j;
  h ← int_at "height" j;
  s ← string_at "image_hash" j;
  jbs ← json_at "boxes" j;
  bs ← decode_boxes (json_items jbs);
  Ok (mkYoloFrame i s bs w h).

(** [decode(v)] *)
Definition decode (v : string) : result YoloFrame :=
  j ← or_throw (json_parse v);
  frame_of_json j.

(** ** Frames that have a text *)
Definition box_finite (b : YoloBox) : bool :=
  f32_finite (box_x b) && f32_finite (box_y b) && f32_finite (box_w b) &&
  f32_finite (box_h b) && f32_finite (confidence b).

Definition box_ok (b : YoloBox) : Prop := is_i32 (class_id b).

Definition frame_ok (f : YoloFrame) : Prop :=
  utf8_ok (image_id f) = true /\ utf8_ok (image_hash f) = true /\
  is_i32 (width f) /\ is_i32 (height f) /\ Forall box_ok (boxes f).
End codec.

Section codec_lemmas.
Context `{!Floats, !FloatLaws, !JsonText, !JsonTextLaws}.

Lemma i32_json_int z : is_i32 z -> json_int_ok z.
Proof. unfold is_i32, json_int_ok. lia. Qed.

Lemma keys_sorted_cons k v m :
  Forall (fun kv => String.compare k kv.1 = Lt) m -> keys_sorted m -> keys_sorted ((k, v) :: m).
Proof.
  intros Hk Hm. unfold keys_sorted. csimpl. constructor; [done|].
  by apply Forall_fmap.
Qed.

Lemma frame_json_eq f : frame_json f =
  JObject [("boxes", JArray (encode_box <$> boxes f)); ("height", JInt (height f));
           ("image_hash", JString (image_hash f)); ("image_id", JString (image_id f));
           ("width", JInt (width f))].
Proof. reflexivity. Qed.

Lemma encode_box_eq b : encode_box b =
  JObject [("class_id", JInt (class_id b)); ("confidence", json_of_f32 (confidence b));
           ("h", json_of_f32 (box_h b)); ("w", json_of_f32 (box_w b));
           ("x", json_of_f32 (box_x b)); ("y", json_of_f32 (box_y b))].
Proof. reflexivity. Qed.

(** The keys are ASCII and in order. *)
Ltac solve_object :=
  apply json_ok_object; split;
  [repeat (apply keys_sorted_cons; [repeat constructor|]); constructor
  |repeat (apply List.Forall_cons; [split; [by apply utf8_ascii|]|]); try apply List.Forall_nil].

Lemma encode_box_ok b : box_ok b -> box_finite b = true -> json_ok (encode_box b).
Proof.
  intros Hb Hf. unfold box_finite in Hf. bool_to_prop. rewrite encode_box_eq. solve_object;
    try (unfold json_of_f32; simpl; by rewrite widen_finite). by apply i32_json_int.
Qed.

Lemma frame_json_ok f :
  frame_ok f -> forallb box_finite (boxes f) = true -> json_ok (frame_json f).
Proof.
  intros (Hi & Hs & Hw & Hh & Hb) Hfin. rewrite frame_json_eq. solve_object; try done;
    try by apply i32_json_int.
  apply json_ok_array, Forall_fmap. rewrite Forall_forall in Hb. rewrite Forall_forall.
  intros b Hin. apply encode_box_ok; [by apply Hb|].
  rewrite forallb_forall in Hfin. by apply Hfin, list_elem_of_In.
Qed.

Lemma get_int_i32 z : is_i32 z -> get_int (JInt z) = Ok z.
Proof. intros Hz. simpl. by rewrite i32_small. Qed.

Lemma get_float_widen x : f32_finite x = true -> get_float (json_of_f32 x) = Ok x.
Proof. intros Hx. simpl. by rewrite narrow_widen. Qed.

Lemma decode_box_encode b : box_ok b -> box_finite b = true -> decode_box (encode_box b) = Ok b.
Proof.
  intros Hb Hf. unfold box_finite in Hf. bool_to_prop. rewrite encode_box_eq.
  unfold decode_box, int_at, float_at. cbn [json_at obj_find String.eqb Ascii.eqb Bool.eqb or_throw].
  cbn [mbind result_bind]. rewrite get_int_i32 by done. cbn.
  rewrite !narrow_widen by done. by destruct b.
Qed.

Lemma decode_boxes_encode bs :
  Forall box_ok bs -> forallb box_finite bs = true ->
  decode_boxes (encode_box <$> bs) = Ok bs.
Proof.
  intros Hb Hf. induction Hb as [|b bs Hb Hbs IH]; [done|]. simpl in Hf. bool_to_prop.
  rewrite fmap_cons. cbn [decode_boxes]. rewrite decode_box_encode by done.
  rewrite IH by done. done.
Qed.

Lemma frame_of_json_encode f :
  frame_ok f -> forallb box_finite (boxes f) = true -> frame_of_json (frame_json f) = Ok f.
Proof.
  intros (Hi & Hs & Hw & Hh & Hb) Hfin. rewrite frame_json_eq.
  unfold frame_of_json, string_at, int_at. cbn. rewrite !i32_small by done.
  rewrite decode_boxes_encode by done. cbn. by destruct f.
Qed.

(** *** Boxes with a number that is not finite *)
Definition null_or_f32 (x : f32) : json := if f32_finite x then json_of_f32 x else JNull.

Definition encode_box_null (b : YoloBox) : json :=
  JObject [("class_id", JInt (class_id b)); ("confidence", null_or_f32 (confidence b));
           ("h", null_or_f32 (box_h b)); ("w", null_or_f32 (box_w b));
           ("x", null_or_f32 (box_x b)); ("y", null_or_f32 (box_y b))].

Definition frame_json_null (f : YoloFrame) : json :=
  JObject [("boxes", JArray (encode_box_null <$> boxes f)); ("height", JInt (height f));
           ("image_hash", JString (image_hash f)); ("image_id", JString (image_id f));
           ("width", JInt (width f))].

Lemma finite_or_null_f32 x : finite_or_null (json_of_f32 x) = null_or_f32 x.
Proof. unfold null_or_f32, json_of_f32. simpl. rewrite widen_finite. by destruct (f32_finite x). Qed.

Lemma finite_or_null_frame f : finite_or_null (frame_json f) = frame_json_null f.
Proof.
  rewrite frame_json_eq. unfold frame_json_null. cbn. do 2 f_equal. f_equal. f_equal.
  induction (boxes f) as [|b bs IH]; [done|]. rewrite !fmap_cons, IH. f_equal.
  rewrite encode_box_eq. unfold encode_box_null. rewrite <- !finite_or_null_f32. done.
Qed.

Lemma null_or_f32_ok x : json_ok (null_or_f32 x).
Proof.
  unfold null_or_f32, json_of_f32. destruct (f32_finite x) eqn:E; [|done].
  simpl. by rewrite widen_finite.
Qed.

Lemma encode_box_null_ok b : box_ok b -> json_ok (encode_box_null b).
Proof.
  intros Hb. unfold encode_box_null. solve_object; try apply null_or_f32_ok.
  by apply i32_json_int.
Qed.

Lemma frame_json_null_ok f : frame_ok f -> json_ok (frame_json_null f).
Proof.
  intros (Hi & Hs & Hw & Hh & Hb). unfold frame_json_null. solve_object; try done;
    try by apply i32_json_int.
  apply json_ok_array, Forall_fmap. eapply Forall_impl; [exact Hb|]. apply encode_box_null_ok.
Qed.

Lemma get_float_null x :
  get_float (null_or_f32 x) = if f32_finite x then Ok x else Throw.
Proof.
  unfold null_or_f32. destruct (f32_finite x) eqn:E; [|done]. by apply get_float_widen.
Qed.

Lemma decode_box_null b :
  box_ok b -> decode_box (encode_box_null b) = if box_finite b then Ok b else Throw.
Proof.
  intros Hb. unfold decode_box, int_at, float_at, encode_box_null, box_finite.
  cbn [json_at obj_find String.eqb Ascii.eqb Bool.eqb or_throw]. cbn [mbind result_bind].
  rewrite get_int_i32 by done. rewrite !get_float_null.
  destruct (f32_finite (box_x b)); [|done]. destruct (f32_finite (box_y b)); [|done].
  destruct (f32_finite (box_w b)); [|done]. destruct (f32_finite (box_h b)); [|done].
  destruct (f32_finite (confidence b)); [|done]. by destruct b.
Qed.

Lemma decode_boxes_null bs :
  Forall box_ok bs ->
  decode_boxes (encode_box_null <$> bs) = if forallb box_finite bs then Ok bs else Throw.
Proof.
  intros Hb. induction Hb as [|b bs Hb Hbs IH]; [done|].
  rewrite fmap_cons. cbn [decode_boxes forallb]. rewrite decode_box_null by done.
  destruct (box_finite b); [|done]. cbn [mbind result_bind andb]. rewrite IH.
  by destruct (forallb box_finite bs).
Qed.

(** Encoding always has a text; decoding it needs finite numbers. *)
Lemma decode_encode f :
  frame_ok f -> exists s, encode f = Ok s /\
    decode s = if forallb box_finite (boxes f) then Ok f else Throw.
Proof.
  intros Hf. unfold encode, decode. rewrite dump_null, finite_or_null_frame.
  destruct (dump_parse _ (frame_json_null_ok f Hf)) as (s & -> & Hp).
  exists s. split; [done|]. rewrite Hp. cbn [or_throw mbind result_bind].
  destruct Hf as (Hi & Hs & Hw & Hh & Hb).
  unfold frame_of_json, string_at, int_at. cbn. rewrite !i32_small by done.
  change (list_fmap YoloBox json encode_box_null (boxes f)) with (encode_box_null <$> boxes f).
  rewrite decode_boxes_null by done.
  destruct (forallb box_finite (boxes f)); [|done]. by destruct f.
Qed.
End codec_lemmas.

(** ** The properties *)

(** C27. A stored frame is read back as it was: every frame whose strings are
    UTF-8 and whose coordinates and confidences are finite has a text, and
    decoding the text gives the frame. *)
Theorem codec_roundtrip `{!Floats, !FloatLaws, !JsonText, !JsonTextLaws} (f : YoloFrame) :
  frame_ok f -> forallb box_finite (boxes f) = true ->
  exists s, encode f = Ok s /\ decode s = Ok f.
Proof.
  intros Hf Hfin. destruct (decode_encode f Hf) as (s & He & Hd).
  exists s. by rewrite Hfin in Hd.
Qed.

(** A frame with a number that is not finite (a client's 1e39 becomes an
    infinite [float]) is written without an error, as null, and the text
    cannot be decoded: every later read of the key throws. *)
Theorem codec_not_finite `{!Floats, !FloatLaws, !JsonText, !JsonTextLaws} (f : YoloFrame) :
  frame_ok f -> forallb box_finite (boxes f) = false ->
  exists s, encode f = Ok s /\ decode s = Throw.
Proof.
  intros Hf Hfin. destruct (decode_encode f Hf) as (s & He & Hd).
  exists s. by rewrite Hfin in Hd.
Qed.

(** ** Witnesses *)
Module Witness.

Definition frame (x : option Z) : YoloFrame :=
  mkYoloFrame "img1" "h" [mkYoloBox 3 x (Some 2%Z) (Some 30%Z) (Some (-4)%Z) (Some 1%Z)] 640 480.

Lemma frame_wf x : frame_ok (frame x).
Proof.
  unfold frame_ok, is_i32. simpl. split_and!; try done; try lia.
  repeat constructor; simpl; lia.
Qed.

(** The text. *)
Definition frame_text : string := requote
  "{'boxes':[{'class_id':3,'confidence':1.0,'h':-4.0,'w':30.0,'x':7.0,'y':2.0}],'height':480,'image_hash':'h','image_id':'img1','width':640}".

Lemma codec_roundtrip_witness :
  encode (frame (Some 7%Z)) = Ok frame_text /\ decode frame_text = Ok (frame (Some 7%Z)).
Proof.
  destruct (codec_roundtrip (frame (Some 7%Z))) as (s & He & Hd);
    [apply frame_wf|reflexivity|].
  assert (s = frame_text) as -> by (vm_compute in He; by injection He as <-).
  split; [exact He|exact Hd].
Defined.

Lemma codec_not_finite_witness :
  exists s, encode (frame None) = Ok s /\ decode s = Throw.
Proof.
  destruct (codec_not_finite (frame None)) as (s & He & Hd); [apply frame_wf|reflexivity|].
  exists s. split; [exact He|exact Hd].
Defined.
End Witness.
