(* ===== verification/Dispatcher.v ===== *)
(** * The JSON dispatcher (src/server/Dispatcher.cpp)

    [Dispatcher::dispatch] answers a JSON request with a JSON text.  The server
    includes its header and never calls it; nothing calls [getCmd] of the same file. *)
From S2P Require Import Prelude Text Json JsonText.
Local Open Scope string_scope.

(** [s.find(needle, pos)], where [pos] may be [npos]. *)
Definition find_from (needle s : string) (pos : option nat) : option nat :=
  p ← pos; String.index p needle s.

(** [getCmd(req)]; [npos + 1] is [0]. *)
Definition getCmd (req : string) : string :=
  match String.index 0 (requote "'cmd'") req with
  | None => ""
  | Some pos0 =>
      let pos1 := find_from ":" req (Some pos0) in
      let pos := find_from (requote "'") req pos1 in
      let fin := find_from (requote "'") req (Some (match pos with Some p => S p | None => 0 end)) in
      match pos, fin with
      | Some p, Some e => substr (p + 1) (e - p - 1) req
      | _, _ => ""
      end
  end.

Section dispatch.
Context `{!Floats, !JsonText}.

(** [req.value(key, default)] for a string; [type_error] when [req] is no object
    or the value no string. *)
Definition value_string (key default : string) (req : json) : result string :=
  match req with
  | JObject m => match obj_find key m with Some v => get_string v | None => Ok default end
  | _ => Throw
  end.

(** [json{{"status", status}, {key, text}}.dump()] *)
Definition answer_json (status key text : string) : json :=
  obj_of [("status", JString status); (key, JString text)].

Definition answer (status key text : string) : result string :=
  or_throw (json_dump (answer_json status key text)).

(** The literal answer to a request without [cmd]. *)
Definition missing_cmd : string := requote "{'status':'error','msg':'missing cmd'}".

(** The [try] block. *)
Definition dispatch_request (request : string) : result string :=
  req ← or_throw (json_parse request);
  if negb (json_contains "cmd" req) then Ok missing_cmd
  else
    jcmd ← json_index "cmd" req;
    cmd ← get_string jcmd;
    if String.eqb cmd "ping" then answer "ok" "data" "pong"
    else if String.eqb cmd "echo" then
      data ← value_string "data" "" req;
      answer "ok" "data" data
    else answer "error" "msg" "unknown command".

(** [dispatch(request)]; [what] is the text of the exception. *)
Definition dispatch (what request : string) : result string :=
  match dispatch_request request with
  | Throw => answer "error" "msg" ("invalid json: " +:+ what)
  | r => r
  end.
End dispatch.

Section dispatch_lemmas.
Context `{!Floats, !JsonText, !JsonTextLaws}.

(** A two-member object of strings has a text that reads as the object. *)
Lemma answer_json_ok status key text :
  utf8_ok status = true -> utf8_ok text = true ->
  key = "data" \/ key = "msg" ->
  json_ok (answer_json status key text).
Proof.
  intros Hs Ht [-> | ->].
  - change (json_ok (JObject [("data", JString text); ("status", JString status)])). by object_ok.
  - change (json_ok (JObject [("msg", JString text); ("status", JString status)])). by object_ok.
Qed.
End dispatch_lemmas.

(** [echo] is faithful: a request built from any UTF-8 text is answered with that text
    under [data]; and no request ends in an exception when the exceptions' own texts
    are UTF-8. *)
Theorem dispatch_echo `{!Floats, !JsonText, !JsonTextLaws} what data :
  utf8_ok data = true ->
  exists req t, json_dump (obj_of [("cmd", JString "echo"); ("data", JString data)]) = Some req /\
    dispatch what req = Ok t /\ json_parse t = Some (answer_json "ok" "data" data).
Proof.
  intros Hd.
  assert (json_ok (obj_of [("cmd", JString "echo"); ("data", JString data)])) as Hj.
  { change (json_ok (JObject [("cmd", JString "echo"); ("data", JString data)])).
    object_ok; [by apply utf8_ascii|done]. }
  destruct (dump_parse _ Hj) as (req & Hreq & Hp). exists req.
  destruct (dump_parse (answer_json "ok" "data" data)) as (t & Ht & Hpt).
  { apply answer_json_ok; [by apply utf8_ascii|done|by left]. }
  exists t. split_and!; [done| |done].
  change (obj_of [("cmd", JString "echo"); ("data", JString data)])
    with (JObject [("cmd", JString "echo"); ("data", JString data)]) in Hp.
  unfold dispatch, dispatch_request. rewrite Hp.
  transitivity (match answer "ok" "data" data with
                | Throw => answer "error" "msg" ("invalid json: " +:+ what)
                | r => r end); [reflexivity|].
  unfold answer. by rewrite Ht.
Qed.

Theorem dispatch_never_throws `{!Floats, !JsonText, !JsonTextLaws} what request :
  utf8_ok ("invalid json: " +:+ what) = true -> dispatch what request <> Throw.
Proof.
  intros Hw. unfold dispatch. destruct (dispatch_request request) eqn:E; try done.
  unfold answer.
  destruct (dump_parse (answer_json "error" "msg" ("invalid json: " +:+ what))) as (t & -> & _);
    [|done].
  apply answer_json_ok; [by apply utf8_ascii|done|by right].
Qed.

(** ** The command by text search *)
Definition no_quote (s : string) : bool :=
  str_all (fun c => negb (Ascii.eqb c (ascii_of_nat 34))) s.

Lemma index_after pre needle s :
  String.index (String.length pre) needle (pre +:+ s)
  = Nat.add (String.length pre) <$> String.index 0 needle s.
Proof.
  induction pre as [|c pre IH].
  - rewrite str_app_nil_l. cbn [String.length]. by destruct (String.index 0 needle s).
  - rewrite str_app_cons. cbn. rewrite IH. by destruct (String.index 0 needle s).
Qed.

Lemma index_quote w rest :
  no_quote w = true -> String.index 0 (requote "'") (w +:+ requote "'" +:+ rest) = Some (String.length w).
Proof.
  induction w as [|c w IH]; intros Hw; [by destruct rest|].
  apply andb_true_iff in Hw as [Hc Hw]. specialize (IH Hw).
  rewrite str_app_cons. cbn -[requote]. change (requote "'") with (String (ascii_of_nat 34) "") in *.
  cbn [String.prefix]. destruct (ascii_dec (ascii_of_nat 34) c) as [<-|_]; [done|].
  by rewrite IH.
Qed.

(** In a compact object whose first member is [cmd], the two ways to read the
    command agree when it holds no quote (an escaped one ends it early). *)
Lemma getCmd_first w rest :
  no_quote w = true -> getCmd (requote "{'cmd':'" +:+ w +:+ requote "'" +:+ rest) = w.
Proof.
  intros Hw. unfold getCmd, find_from.
  set (t := w +:+ requote "'" +:+ rest).
  replace (String.index 0 (requote "'cmd'") (requote "{'cmd':'" +:+ t)) with (Some 1) by reflexivity.
  cbn [mbind option_bind].
  replace (String.index 1 ":" (requote "{'cmd':'" +:+ t)) with (Some 6) by reflexivity.
  cbn [mbind option_bind].
  replace (String.index 6 (requote "'") (requote "{'cmd':'" +:+ t)) with (Some 7) by (by destruct t).
  cbn [mbind option_bind].
  replace (String.index 8 (requote "'") (requote "{'cmd':'" +:+ t))
    with (Some (8 + String.length w)).
  2: { symmetry. change 8 with (String.length (requote "{'cmd':'")).
       rewrite index_after. subst t. by rewrite index_quote. }
  replace (8 + String.length w - 7 - 1) with (String.length w) by lia.
  apply (substr_app (requote "{'cmd':'")).
Qed.
