(* ===== verification/RaftTypes.v ===== *)
(** * Raft data types (src/raft/RaftTypes.h)

    The messages and the log entry of the Raft component, field by field;
    [uint64_t] fields are [Z], and the [*_ok] predicates say that they are in
    range, as every value of the C++ type is. *)
From S2P Require Import Prelude.

Inductive RaftState := Follower | Candidate | Leader.

#[export] Instance RaftState_eq_dec : EqDecision RaftState.
Proof. solve_decision. Defined.

Record LogEntry := mkLogEntry {
  le_term : Z;
  le_index : Z;
  le_key : string;
  le_value : string;
}.

#[export] Instance LogEntry_eq_dec : EqDecision LogEntry.
Proof. solve_decision. Defined.

Record RequestVoteArgs := mkRequestVoteArgs {
  rv_term : Z;
  rv_candidateId : string;
  rv_lastLogIndex : Z;
  rv_lastLogTerm : Z;
}.

#[export] Instance RequestVoteArgs_eq_dec : EqDecision RequestVoteArgs.
Proof. solve_decision. Defined.

Record RequestVoteReply := mkRequestVoteReply {
  rvr_term : Z;
  rvr_voteGranted : bool;
}.

#[export] Instance RequestVoteReply_eq_dec : EqDecision RequestVoteReply.
Proof. solve_decision. Defined.

Record AppendEntriesArgs := mkAppendEntriesArgs {
  ae_term : Z;
  ae_leaderId : string;
  ae_prevLogIndex : Z;
  ae_prevLogTerm : Z;
  ae_entries : list LogEntry;
  ae_leaderCommit : Z;
}.

#[export] Instance AppendEntriesArgs_eq_dec : EqDecision AppendEntriesArgs.
Proof. solve_decision. Defined.

Record AppendEntriesReply := mkAppendEntriesReply {
  aer_term : Z;
  aer_success : bool;
}.

#[export] Instance AppendEntriesReply_eq_dec : EqDecision AppendEntriesReply.
Proof. solve_decision. Defined.

(** ** Ranges *)
Definition entry_ok (e : LogEntry) : Prop :=
  is_u64 (le_term e) /\ is_u64 (le_index e).

Definition rv_args_ok (a : RequestVoteArgs) : Prop :=
  is_u64 (rv_term a) /\ is_u64 (rv_lastLogIndex a) /\ is_u64 (rv_lastLogTerm a).

Definition ae_args_ok (a : AppendEntriesArgs) : Prop :=
  is_u64 (ae_term a) /\ is_u64 (ae_prevLogIndex a) /\
  is_u64 (ae_prevLogTerm a) /\ is_u64 (ae_leaderCommit a) /\
  Forall entry_ok (ae_entries a).
