(* ===== verification/RaftNode.v ===== *)
(** * The Raft node (src/raft/RaftNode.h, src/raft/RaftNode.cpp)

    The state of a [RaftNode] as a record, one definition per method, and the
    two background threads as the body of one iteration of their loops.

    - Every method runs under [m_mutex] from its first to its last line, so a
      method is one function from the node's state to its new state.
    - Reading a vector out of range is undefined behaviour: the result is
      [None].
    - The other components are reached through two interfaces: [KVStore], what
      the node relies on from [storage::RocksDBStorage] ([put]), and
      [RaftTransport], one request/reply exchange with a peer (the part of
      [sendRequestVote]/[sendAppendEntries] below the address lookup).
    - The clock and the random generator are the [Timer] argument: one reading
      of [steady_clock::now()] and one draw of the [150..300] distribution. *)
From S2P Require Import Prelude RaftTypes.

(** ** Interfaces *)

(** [storage::RocksDBStorage::put] as the node uses it. *)
Class KVStore (D : Type) := {
  kv_put : string -> string -> D -> bool * D;
}.

(** One RPC exchange: [None] is a [false] return of the [send*] method. *)
Class RaftTransport (W : Type) := {
  rpc_request_vote :
    string -> string -> Z -> RequestVoteArgs -> W -> option RequestVoteReply * W;
  rpc_append_entries :
    string -> string -> Z -> AppendEntriesArgs -> W -> option AppendEntriesReply * W;
}.

(** ** The state *)
Record RaftNode := mkRaftNode {
  m_nodeId : string;
  m_peers : list string;
  m_peerAddresses : gmap string (string * Z);
  m_running : bool;
  m_currentTerm : Z;
  m_votedFor : string;
  m_logs : list LogEntry;
  m_commitIndex : Z;
  m_lastApplied : Z;
  m_nextIndex : gmap string Z;
  m_matchIndex : gmap string Z;
  m_state : RaftState;
  m_lastHeartbeatTime : Z;
  m_electionTimeoutMs : Z;
}.

Record Timer := mkTimer {
  tm_now : Z;      (* steady_clock::now(), in milliseconds *)
  tm_draw : Z;     (* dist(rng) *)
}.

(** The range of [std::uniform_int_distribution<int> dist(150, 300)]. *)
Definition timer_ok (t : Timer) : Prop := (150 <= tm_draw t <= 300)%Z.

(** Assignments to one member. *)
Definition set_peerAddresses (a : gmap string (string * Z)) (n : RaftNode) : RaftNode :=
  mkRaftNode (m_nodeId n) (m_peers n) a (m_running n) (m_currentTerm n)
    (m_votedFor n) (m_logs n) (m_commitIndex n) (m_lastApplied n)
    (m_nextIndex n) (m_matchIndex n) (m_state n) (m_lastHeartbeatTime n)
    (m_electionTimeoutMs n).
Definition set_running (b : bool) (n : RaftNode) : RaftNode :=
  mkRaftNode (m_nodeId n) (m_peers n) (m_peerAddresses n) b (m_currentTerm n)
    (m_votedFor n) (m_logs n) (m_commitIndex n) (m_lastApplied n)
    (m_nextIndex n) (m_matchIndex n) (m_state n) (m_lastHeartbeatTime n)
    (m_electionTimeoutMs n).
Definition set_currentTerm (t : Z) (n : RaftNode) : RaftNode :=
  mkRaftNode (m_nodeId n) (m_peers n) (m_peerAddresses n) (m_running n) t
    (m_votedFor n) (m_logs n) (m_commitIndex n) (m_lastApplied n)
    (m_nextIndex n) (m_matchIndex n) (m_state n) (m_lastHeartbeatTime n)
    (m_electionTimeoutMs n).
Definition set_votedFor (v : string) (n : RaftNode) : RaftNode :=
  mkRaftNode (m_nodeId n) (m_peers n) (m_peerAddresses n) (m_running n)
    (m_currentTerm n) v (m_logs n) (m_commitIndex n) (m_lastApplied n)
    (m_nextIndex n) (m_matchIndex n) (m_state n) (m_lastHeartbeatTime n)
    (m_electionTimeoutMs n).
Definition set_logs (l : list LogEntry) (n : RaftNode) : RaftNode :=
  mkRaftNode (m_nodeId n) (m_peers n) (m_peerAddresses n) (m_running n)
    (m_currentTerm n) (m_votedFor n) l (m_commitIndex n) (m_lastApplied n)
    (m_nextIndex n) (m_matchIndex n) (m_state n) (m_lastHeartbeatTime n)
    (m_electionTimeoutMs n).
Definition set_commitIndex (c : Z) (n : RaftNode) : RaftNode :=
  mkRaftNode (m_nodeId n) (m_peers n) (m_peerAddresses n) (m_running n)
    (m_currentTerm n) (m_votedFor n) (m_logs n) c (m_lastApplied n)
    (m_nextIndex n) (m_matchIndex n) (m_state n) (m_lastHeartbeatTime n)
    (m_electionTimeoutMs n).
Definition set_lastApplied (a : Z) (n : RaftNode) : RaftNode :=
  mkRaftNode (m_nodeId n) (m_peers n) (m_peerAddresses n) (m_running n)
    (m_currentTerm n) (m_votedFor n) (m_logs n) (m_commitIndex n) a
    (m_nextIndex n) (m_matchIndex n) (m_state n) (m_lastHeartbeatTime n)
    (m_electionTimeoutMs n).
Definition set_nextIndex (m : gmap string Z) (n : RaftNode) : RaftNode :=
  mkRaftNode (m_nodeId n) (m_peers n) (m_peerAddresses n) (m_running n)
    (m_currentTerm n) (m_votedFor n) (m_logs n) (m_commitIndex n)
    (m_lastApplied n) m (m_matchIndex n) (m_state n) (m_lastHeartbeatTime n)
    (m_electionTimeoutMs n).
Definition set_matchIndex (m : gmap string Z) (n : RaftNode) : RaftNode :=
  mkRaftNode (m_nodeId n) (m_peers n) (m_peerAddresses n) (m_running n)
    (m_currentTerm n) (m_votedFor n) (m_logs n) (m_commitIndex n)
    (m_lastApplied n) (m_nextIndex n) m (m_state n) (m_lastHeartbeatTime n)
    (m_electionTimeoutMs n).
Definition set_state (s : RaftState) (n : RaftNode) : RaftNode :=
  mkRaftNode (m_nodeId n) (m_peers n) (m_peerAddresses n) (m_running n)
    (m_currentTerm n) (m_votedFor n) (m_logs n) (m_commitIndex n)
    (m_lastApplied n) (m_nextIndex n) (m_matchIndex n) s
    (m_lastHeartbeatTime n) (m_electionTimeoutMs n).

(** [resetElectionTimer()] *)
Definition resetElectionTimer (tm : Timer) (n : RaftNode) : RaftNode :=
  mkRaftNode (m_nodeId n) (m_peers n) (m_peerAddresses n) (m_running n)
    (m_currentTerm n) (m_votedFor n) (m_logs n) (m_commitIndex n)
    (m_lastApplied n) (m_nextIndex n) (m_matchIndex n) (m_state n)
    (tm_now tm) (tm_draw tm).

(** The dummy entry pushed by the constructor, so that indices start at 1. *)
Definition dummy_entry : LogEntry := mkLogEntry 0 0 "" "".

(** [RaftNode(nodeId, peers)] *)
Definition RaftNode_new (nodeId : string) (peers : list string) (tm : Timer) : RaftNode :=
  resetElectionTimer tm
    (mkRaftNode nodeId peers ∅ false 0 "" [dummy_entry] 0 0 ∅ ∅ Follower 0 0).

(** [start()] and [stop()]: what they do to the node's own state; the
    result says whether the threads are started (joined). *)
Definition start (n : RaftNode) : bool * RaftNode :=
  if m_running n then (false, n) else (true, set_running true n).

Definition stop (n : RaftNode) : bool * RaftNode :=
  if negb (m_running n) then (false, n) else (true, set_running false n).

(** [setPeerAddress(peerId, host, port)] *)
Definition setPeerAddress (peerId host : string) (port : Z) (n : RaftNode) : RaftNode :=
  set_peerAddresses (<[peerId := (host, port)]> (m_peerAddresses n)) n.

(** ** RPC handlers *)

(** [handleRequestVote(args)] *)
Definition handleRequestVote (tm : Timer) (args : RequestVoteArgs) (n : RaftNode)
  : option (RequestVoteReply * RaftNode) :=
  if (rv_term args <? m_currentTerm n)%Z then
    Some (mkRequestVoteReply (m_currentTerm n) false, n)
  else
    let n1 :=
      if (m_currentTerm n <? rv_term args)%Z
      then set_votedFor "" (set_state Follower (set_currentTerm (rv_term args) n))
      else n in
    back ← last (m_logs n1);
    let myLastLogTerm := le_term back in
    let myLastLogIndex := le_index back in
    let logIsUpToDate :=
      ((myLastLogTerm <? rv_lastLogTerm args)%Z ||
       ((rv_lastLogTerm args =? myLastLogTerm)%Z &&
        (myLastLogIndex <=? rv_lastLogIndex args)%Z)) in
    if (bool_decide (m_votedFor n1 = "") ||
        bool_decide (m_votedFor n1 = rv_candidateId args)) && logIsUpToDate
    then
      let n2 := resetElectionTimer tm (set_votedFor (rv_candidateId args) n1) in
      Some (mkRequestVoteReply (m_currentTerm n2) true, n2)
    else Some (mkRequestVoteReply (m_currentTerm n1) false, n1).

(** The [while] loop of [handleAppendEntries] that looks for a conflicting
    entry; the result is the (possibly truncated) log and [entryIndex].  Every
    turn advances [entryIndex], so [length entries] turns are enough. *)
Fixpoint scan_conflict (fuel : nat) (logs entries : list LogEntry)
    (nextIndex entryIndex : nat) : list LogEntry * nat :=
  match fuel with
  | O => (logs, entryIndex)
  | S fuel' =>
      match logs !! nextIndex, entries !! entryIndex with
      | Some l, Some e =>
          if negb (le_term l =? le_term e)%Z
          then (take nextIndex logs, entryIndex)
          else scan_conflict fuel' logs entries (S nextIndex) (S entryIndex)
      | _, _ => (logs, entryIndex)
      end
  end.

(** Steps 3 and 4 of [handleAppendEntries]: delete from the first conflict on,
    then push the entries the log does not hold. *)
Definition merge_entries (logs entries : list LogEntry) (prevLogIndex : nat)
  : list LogEntry :=
  let '(logs', entryIndex) :=
    scan_conflict (length entries) logs entries (S prevLogIndex) 0 in
  logs' ++ drop entryIndex entries.

Section with_store.
Context {D : Type} `{!KVStore D}.

(** The [while (m_lastApplied < m_commitIndex)] loop of
    [applyCommittedLogs]; a failed [put] is logged and ignored. *)
Fixpoint apply_loop (fuel : nat) (n : RaftNode) (db : D) : option (RaftNode * D) :=
  if (m_lastApplied n <? m_commitIndex n)%Z then
    match fuel with
    | O => None
    | S fuel' =>
        let n1 := set_lastApplied (u64 (m_lastApplied n + 1)) n in
        entry ← vec_at (m_logs n1) (m_lastApplied n1);
        let '(_, db1) := kv_put (le_key entry) (le_value entry) db in
        apply_loop fuel' n1 db1
    end
  else Some (n, db).

(** [applyCommittedLogs()]: the loop runs [m_commitIndex - m_lastApplied]
    times. *)
Definition applyCommittedLogs (n : RaftNode) (db : D) : option (RaftNode * D) :=
  apply_loop (Z.to_nat (m_commitIndex n - m_lastApplied n)) n db.

(** [handleAppendEntries(args)] *)
Definition handleAppendEntries (tm : Timer) (args : AppendEntriesArgs)
    (n : RaftNode) (db : D) : option (AppendEntriesReply * RaftNode * D) :=
  let reply0 := mkAppendEntriesReply (m_currentTerm n) false in
  if (ae_term args <? m_currentTerm n)%Z then Some (reply0, n, db)
  else
    let n1 := resetElectionTimer tm
                (set_currentTerm (ae_term args) (set_state Follower n)) in
    if (vec_size (m_logs n1) <=? ae_prevLogIndex args)%Z then Some (reply0, n1, db)
    else
      prev ← vec_at (m_logs n1) (ae_prevLogIndex args);
      if negb (le_term prev =? ae_prevLogTerm args)%Z then Some (reply0, n1, db)
      else
        let n2 := set_logs (merge_entries (m_logs n1) (ae_entries args)
                              (Z.to_nat (ae_prevLogIndex args))) n1 in
        '(n3, db3) ←
          (if (m_commitIndex n2 <? ae_leaderCommit args)%Z then
             back ← last (m_logs n2);
             applyCommittedLogs
               (set_commitIndex (Z.min (ae_leaderCommit args) (le_index back)) n2) db
           else Some (n2, db));
        Some (mkAppendEntriesReply (m_currentTerm n3) true, n3, db3).

(** [submitLog(key, value)] *)
Definition submitLog (key value : string) (n : RaftNode) : option (bool * RaftNode) :=
  match m_state n with
  | Leader =>
      back ← last (m_logs n);
      let entry := mkLogEntry (m_currentTerm n) (u64 (le_index back + 1)) key value in
      Some (true, set_logs (m_logs n ++ [entry]) n)
  | _ => Some (false, n)
  end.
End with_store.

(** ** Outgoing RPCs: the address lookup, then one exchange *)
Section with_transport.
Context {W : Type} `{!RaftTransport W}.

(** [sendRequestVote(peerId, args, reply)] *)
Definition sendRequestVote (n : RaftNode) (peerId : string) (args : RequestVoteArgs)
    (w : W) : option RequestVoteReply * W :=
  match m_peerAddresses n !! peerId with
  | None => (None, w)
  | Some (host, port) => rpc_request_vote peerId host port args w
  end.

(** [sendAppendEntries(peerId, args, reply)] *)
Definition sendAppendEntries (n : RaftNode) (peerId : string) (args : AppendEntriesArgs)
    (w : W) : option AppendEntriesReply * W :=
  match m_peerAddresses n !! peerId with
  | None => (None, w)
  | Some (host, port) => rpc_append_entries peerId host port args w
  end.
End with_transport.

(** ** Elections *)

(** [startElection()], up to the loop: become a candidate of the next term. *)
Definition election_begin (tm : Timer) (n : RaftNode) : RaftNode :=
  resetElectionTimer tm
    (set_votedFor (m_nodeId n)
       (set_currentTerm (u64 (m_currentTerm n + 1)) (set_state Candidate n))).

(** The [RequestVoteArgs] the candidate sends. *)
Definition election_args (n : RaftNode) : option RequestVoteArgs :=
  back ← last (m_logs n);
  Some (mkRequestVoteArgs (m_currentTerm n) (m_nodeId n) (le_index back) (le_term back)).

(** The body of the loop once [sendRequestVote] has returned: [inl] goes on to
    the next peer, [inr] is the [return] on a larger term. *)
Definition election_collect (reply : option RequestVoteReply) (votes : Z) (n : RaftNode)
  : (Z * RaftNode) + RaftNode :=
  match reply with
  | None => inl (votes, n)
  | Some r =>
      if rvr_voteGranted r then inl ((votes + 1)%Z, n)
      else if (m_currentTerm n <? rvr_term r)%Z then
        inr (set_votedFor "" (set_state Follower (set_currentTerm (rvr_term r) n)))
      else inl (votes, n)
  end.

(** [int majority = (m_peers.size() + 1) / 2 + 1] *)
Definition majority (n : RaftNode) : Z := ((vec_size (m_peers n) + 1) / 2 + 1)%Z.

(** [for (peer : m_peers) { m_nextIndex[peer] = m_logs.size(); m_matchIndex[peer] = 0; }] *)
Definition init_peer (n : RaftNode) (peer : string) : RaftNode :=
  set_matchIndex (<[peer := 0%Z]> (m_matchIndex n))
    (set_nextIndex (<[peer := vec_size (m_logs n)]> (m_nextIndex n)) n).

Definition init_leader (n : RaftNode) : RaftNode := foldl init_peer n (m_peers n).

(** After the loop: with a majority, become leader. *)
Definition election_finish (votes : Z) (n : RaftNode) : RaftNode :=
  if (majority n <=? votes)%Z then init_leader (set_state Leader n) else n.

Section with_transport_loops.
Context {W : Type} `{!RaftTransport W}.

(** The [for (peer : m_peers)] loop of [startElection]. *)
Fixpoint election_loop (args : RequestVoteArgs) (peers : list string)
    (votes : Z) (n : RaftNode) (w : W) : ((Z * RaftNode) + RaftNode) * W :=
  match peers with
  | [] => (inl (votes, n), w)
  | peer :: rest =>
      let '(reply, w1) := sendRequestVote n peer args w in
      match election_collect reply votes n with
      | inl (votes1, n1) => election_loop args rest votes1 n1 w1
      | inr n1 => (inr n1, w1)
      end
  end.

(** [startElection()] *)
Definition startElection (tm : Timer) (n : RaftNode) (w : W) : option (RaftNode * W) :=
  let n1 := election_begin tm n in
  args ← election_args n1;
  Some (match election_loop args (m_peers n1) 1 n1 w with
        | (inl (votes, n2), w2) => (election_finish votes n2, w2)
        | (inr n2, w2) => (n2, w2)
        end).

(** One turn of [electionLoop()]; [tm] is read both by the loop and by
    [startElection]. *)
Definition electionLoop_turn (tm : Timer) (n : RaftNode) (w : W) : option (RaftNode * W) :=
  if negb (bool_decide (m_state n = Leader)) &&
     (m_electionTimeoutMs n <=? tm_now tm - m_lastHeartbeatTime n)%Z
  then startElection tm n w
  else Some (n, w).
End with_transport_loops.

(** ** Heartbeats *)

(** [std::sort(..., std::greater<uint64_t>())] *)
Definition greater_eq (x y : Z) : Prop := (y <= x)%Z.

#[export] Instance greater_eq_dec : RelDecision greater_eq.
Proof. unfold RelDecision, greater_eq. intros x y. apply _. Defined.

Definition sort_desc (l : list Z) : list Z := merge_sort greater_eq l.

(** The commit rule: the element [(size - 1) / 2] of the match indices in
    decreasing order, the leader's own last index included. *)
Definition matchIndices (n : RaftNode) : list Z :=
  sort_desc ((vec_size (m_logs n) - 1)%Z :: (map_to_list (m_matchIndex n)).*2).

Definition newCommitIndex (n : RaftNode) : option Z :=
  matchIndices n !! ((length (matchIndices n) - 1) / 2).

(** The arguments of the heartbeat to [peer], the local [nextIndex], the local
    vector [entries] and the node ([m_nextIndex[peer]] may insert).

    The local [entries] is built but never assigned to [args.entries], which
    keeps its initial value, the empty vector. *)
Definition heartbeat_args (peer : string) (n : RaftNode)
  : option (AppendEntriesArgs * Z * list LogEntry * RaftNode) :=
  let '(nextIndex, m) := map_index (m_nextIndex n) peer in
  let n1 := set_nextIndex m n in
  let prevLogIndex := u64 (nextIndex - 1) in
  prev ← vec_at (m_logs n1) prevLogIndex;
  let entries := drop (Z.to_nat nextIndex) (m_logs n1) in
  Some (mkAppendEntriesArgs (m_currentTerm n1) (m_nodeId n1) prevLogIndex
          (le_term prev) [] (m_commitIndex n1),
        nextIndex, entries, n1).

Section with_store_commit.
Context {D : Type} `{!KVStore D}.

(** A successful reply: advance the peer's indices and the commit index. *)
Definition heartbeat_success (peer : string) (nextIndex : Z) (entries : list LogEntry)
    (n : RaftNode) (db : D) : option (RaftNode * D) :=
  let next' := u64 (nextIndex + vec_size entries) in
  let n1 := set_matchIndex (<[peer := u64 (next' - 1)]> (m_matchIndex n))
              (set_nextIndex (<[peer := next']> (m_nextIndex n)) n) in
  newCommit ← newCommitIndex n1;
  if (m_commitIndex n1 <? newCommit)%Z then
    entry ← vec_at (m_logs n1) newCommit;
    if (le_term entry =? m_currentTerm n1)%Z
    then applyCommittedLogs (set_commitIndex newCommit n1) db
    else Some (n1, db)
  else Some (n1, db).

(** What [heartbeatLoop] does with the reply; the boolean says [break]. *)
Definition heartbeat_reply (peer : string) (nextIndex : Z) (entries : list LogEntry)
    (reply : option AppendEntriesReply) (n : RaftNode) (db : D)
  : option (bool * RaftNode * D) :=
  match reply with
  | None => Some (false, n, db)
  | Some r =>
      if aer_success r then
        '(n1, db1) ← heartbeat_success peer nextIndex entries n db;
        Some (false, n1, db1)
      else if (m_currentTerm n <? aer_term r)%Z then
        Some (true, set_votedFor "" (set_state Follower
                      (set_currentTerm (aer_term r) n)), db)
      else
        let '(cur, m) := map_index (m_nextIndex n) peer in
        if (1 <? cur)%Z
        then Some (false, set_nextIndex (<[peer := (cur - 1)%Z]> m) n, db)
        else Some (false, set_nextIndex m n, db)
  end.

Context {W : Type} `{!RaftTransport W}.

(** The body of the [for (peer : m_peers)] loop of [heartbeatLoop]. *)
Definition heartbeat_peer (peer : string) (n : RaftNode) (db : D) (w : W)
  : option (bool * RaftNode * D * W) :=
  '(args, nextIndex, entries, n1) ← heartbeat_args peer n;
  let '(reply, w1) := sendAppendEntries n1 peer args w in
  '(brk, n2, db2) ← heartbeat_reply peer nextIndex entries reply n1 db;
  Some (brk, n2, db2, w1).

Fixpoint heartbeat_peers (peers : list string) (n : RaftNode) (db : D) (w : W)
  : option (RaftNode * D * W) :=
  match peers with
  | [] => Some (n, db, w)
  | peer :: rest =>
      '(brk, n1, db1, w1) ← heartbeat_peer peer n db w;
      if brk : bool then Some (n1, db1, w1) else heartbeat_peers rest n1 db1 w1
  end.

(** One turn of [heartbeatLoop()] *)
Definition heartbeatLoop_turn (n : RaftNode) (db : D) (w : W) : option (RaftNode * D * W) :=
  if bool_decide (m_state n = Leader)
  then heartbeat_peers (m_peers n) n db w
  else Some (n, db, w).
End with_store_commit.
