(* ===== verification/RaftInv.v ===== *)
(** * The invariant of a Raft node

    [raft_wf] is what every method of src/raft/RaftNode.cpp relies on when it
    indexes its vectors, and every method preserves it: no method of a
    well-formed node reads out of range.  Each operation has its lemma; the
    last section collects them over [node_step], the methods as interleaved
    steps of one node. *)
From S2P Require Import Prelude RaftTypes RaftNode RaftLog.

Record raft_wf (n : RaftNode) : Prop := mk_raft_wf {
  wf_log : log_wf (m_logs n);
  wf_size : (vec_size (m_logs n) < 2 ^ 63)%Z;
  wf_terms : terms_between 0 (m_logs n) (m_currentTerm n);
  wf_term : is_u64 (m_currentTerm n);
  wf_commit : (0 <= m_commitIndex n <= m_lastApplied n)%Z;
  wf_applied : (m_lastApplied n < 2 ^ 63)%Z;
  wf_next : m_state n = Leader -> forall p, p ∈ m_peers n ->
    exists nx, m_nextIndex n !! p = Some nx /\ (1 <= nx <= vec_size (m_logs n))%Z;
  wf_match : m_state n = Leader -> forall p v, m_matchIndex n !! p = Some v ->
    (0 <= v < vec_size (m_logs n))%Z;
  wf_match_peer : forall p v, m_matchIndex n !! p = Some v -> p ∈ m_peers n;
  wf_match_all : m_state n = Leader -> forall p, p ∈ m_peers n ->
    is_Some (m_matchIndex n !! p);
}.

(** ** Messages and memory *)

(** An [AppendEntriesArgs] as a leader with a well-formed log builds it: its
    entries are numbered from [prevLogIndex + 1] and their terms lie between
    [prevLogTerm] and the leader's term. *)
Definition ae_args_wf (a : AppendEntriesArgs) : Prop :=
  ae_args_ok a /\
  indices_from (ae_prevLogIndex a + 1) (ae_entries a) /\
  terms_between (ae_prevLogTerm a) (ae_entries a) (ae_term a).

(** The vector can hold [k] more entries ([vector::max_size]). *)
Definition room_for (k : nat) (n : RaftNode) : Prop :=
  (vec_size (m_logs n) + Z.of_nat k < 2 ^ 63)%Z.

(** ** The constructor *)
Lemma RaftNode_new_wf id peers tm : raft_wf (RaftNode_new id peers tm).
Proof.
  constructor; simpl; try done; try lia.
  split; [done|]. intros [|i] e He; simpl in He; by simplify_eq.
Qed.

(** ** Votes *)
Lemma wf_set_term_follower t v n :
  raft_wf n -> is_u64 t -> (m_currentTerm n <= t)%Z ->
  raft_wf (set_votedFor v (set_state Follower (set_currentTerm t n))).
Proof.
  intros [] Ht Hle. constructor; simpl; try done.
  by eapply terms_between_weaken.
Qed.

Lemma wf_set_votedFor v n : raft_wf n -> raft_wf (set_votedFor v n).
Proof. by intros []. Qed.

Lemma wf_resetElectionTimer tm n : raft_wf n -> raft_wf (resetElectionTimer tm n).
Proof. by intros []. Qed.

#[export] Hint Resolve RaftNode_new_wf wf_set_votedFor wf_resetElectionTimer
  wf_set_term_follower : yolo.

Lemma wf_handleRequestVote tm args n :
  raft_wf n -> rv_args_ok args ->
  exists r n', handleRequestVote tm args n = Some (r, n') /\ raft_wf n'.
Proof.
  intros Hwf [Ht _]. unfold handleRequestVote.
  destruct (rv_term args <? m_currentTerm n)%Z eqn:E1; [by eauto|].
  bool_to_prop.
  set (n1 := if (m_currentTerm n <? rv_term args)%Z then _ else n).
  assert (raft_wf n1) as Hwf1.
  { subst n1. destruct (m_currentTerm n <? rv_term args)%Z; auto with yolo. }
  destruct (log_wf_last _ (wf_log _ Hwf1)) as (e & -> & _). simpl.
  case_match; (eexists _, _; split; [done|]); auto with yolo.
Qed.

(** ** Applying committed entries *)
Section with_store.
Context {D : Type} `{!KVStore D}.

(** The store after applying entries in order. *)
Definition kv_puts (es : list LogEntry) (db : D) : D :=
  foldl (fun d e => (kv_put (le_key e) (le_value e) d).2) db es.

(** The entries [applyCommittedLogs] hands to the store: indices
    [lastApplied + 1 .. commitIndex]. *)
Definition unapplied (n : RaftNode) : list LogEntry :=
  take (Z.to_nat (m_commitIndex n - m_lastApplied n))
    (drop (S (Z.to_nat (m_lastApplied n))) (m_logs n)).

Lemma apply_loop_spec fuel n db :
  fuel = Z.to_nat (m_commitIndex n - m_lastApplied n) ->
  (0 <= m_lastApplied n)%Z -> (m_commitIndex n < 2 ^ 63)%Z ->
  (m_lastApplied n < m_commitIndex n -> m_commitIndex n < vec_size (m_logs n))%Z ->
  apply_loop fuel n db
  = Some (set_lastApplied (Z.max (m_lastApplied n) (m_commitIndex n)) n,
          kv_puts (unapplied n) db).
Proof.
  revert n db. induction fuel as [|fuel IH]; intros n db Hf H0 Hc Hs; simpl;
    destruct (Z.ltb_spec (m_lastApplied n) (m_commitIndex n)) as [Hlt|Hge]; try lia.
  - unfold unapplied. rewrite <- Hf. simpl. rewrite Z.max_l by lia. by destruct n.
  - rewrite u64_small by (unfold is_u64; lia).
    destruct (vec_at_is_Some (m_logs n) (m_lastApplied n + 1)) as [e He]; [lia|].
    rewrite He. simpl. destruct (kv_put (le_key e) (le_value e) db) as [ok db1] eqn:Ep.
    rewrite IH; simpl; [|lia..]. f_equal. f_equal.
    { by rewrite Z.max_r, Z.max_r by lia. }
    apply vec_at_Some in He as [_ He].
    replace (Z.to_nat (m_lastApplied n + 1)) with (S (Z.to_nat (m_lastApplied n))) in He by lia.
    unfold unapplied. simpl. rewrite <- Hf. rewrite (drop_S _ _ _ He).
    replace (Z.to_nat (m_lastApplied n + 1)) with (S (Z.to_nat (m_lastApplied n))) by lia.
    replace (Z.to_nat (m_commitIndex n - (m_lastApplied n + 1))) with fuel by lia.
    simpl. by rewrite Ep.
Qed.

Lemma applyCommittedLogs_eq n db :
  (0 <= m_lastApplied n)%Z -> (m_commitIndex n < 2 ^ 63)%Z ->
  (m_lastApplied n < m_commitIndex n -> m_commitIndex n < vec_size (m_logs n))%Z ->
  applyCommittedLogs n db
  = Some (set_lastApplied (Z.max (m_lastApplied n) (m_commitIndex n)) n,
          kv_puts (unapplied n) db).
Proof. intros. by apply apply_loop_spec. Qed.

(** Raising the commit index of a well-formed node and applying. *)
Lemma wf_commit_and_apply c n db :
  raft_wf n -> (0 <= c < vec_size (m_logs n))%Z ->
  exists n' db', applyCommittedLogs (set_commitIndex c n) db = Some (n', db') /\
    raft_wf n' /\
    n' = set_lastApplied (Z.max (m_lastApplied n) c) (set_commitIndex c n) /\
    db' = kv_puts (unapplied (set_commitIndex c n)) db.
Proof.
  intros [] Hc. rewrite applyCommittedLogs_eq; simpl; [|lia..].
  eexists _, _. split; [done|]. split; [|done].
  constructor; simpl; auto; lia.
Qed.
End with_store.

(** ** AppendEntries *)

(** What [handleAppendEntries] does before it looks at the log. *)
Definition ae_follow (tm : Timer) (args : AppendEntriesArgs) (n : RaftNode) : RaftNode :=
  resetElectionTimer tm (set_currentTerm (ae_term args) (set_state Follower n)).

(** The node after the entries are merged. *)
Definition ae_merged (tm : Timer) (args : AppendEntriesArgs) (n : RaftNode) : RaftNode :=
  set_logs (merge_entries (m_logs n) (ae_entries args) (Z.to_nat (ae_prevLogIndex args)))
    (ae_follow tm args n).

(** The commit index of an accepted message. *)
Definition ae_commit (tm : Timer) (args : AppendEntriesArgs) (n : RaftNode) : Z :=
  Z.min (ae_leaderCommit args) (vec_size (m_logs (ae_merged tm args n)) - 1).

(** The consistency check of the message against the log. *)
Definition ae_consistent (args : AppendEntriesArgs) (n : RaftNode) : Prop :=
  exists e, m_logs n !! Z.to_nat (ae_prevLogIndex args) = Some e /\
            le_term e = ae_prevLogTerm args.

#[export] Instance ae_consistent_dec args n : Decision (ae_consistent args n).
Proof.
  unfold ae_consistent.
  destruct (m_logs n !! Z.to_nat (ae_prevLogIndex args)) as [e|].
  - destruct (decide (le_term e = ae_prevLogTerm args)); [left|right]; naive_solver.
  - right. naive_solver.
Defined.

Lemma wf_ae_follow tm args n :
  raft_wf n -> is_u64 (ae_term args) -> (m_currentTerm n <= ae_term args)%Z ->
  raft_wf (ae_follow tm args n).
Proof.
  intros [] Ht Hle. constructor; simpl; try done.
  by eapply terms_between_weaken.
Qed.

Lemma ae_consistent_bound args n :
  is_u64 (ae_prevLogIndex args) -> ae_consistent args n ->
  (ae_prevLogIndex args < vec_size (m_logs n))%Z.
Proof.
  intros Hu (e & He & _). apply lookup_lt_Some in He.
  unfold is_u64, vec_size in *. lia.
Qed.

Lemma wf_ae_merged tm args n :
  raft_wf n -> ae_args_wf args -> (m_currentTerm n <= ae_term args)%Z ->
  ae_consistent args n -> room_for (length (ae_entries args)) n ->
  raft_wf (ae_merged tm args n).
Proof.
  intros Hwf [Hok [Hi Ht]] Hle Hcons Hroom.
  pose proof (ae_consistent_bound _ _ (proj1 (proj2 Hok)) Hcons) as Hb.
  destruct Hok as (Hu & Hp & _). destruct Hwf. unfold is_u64, vec_size in Hp, Hb.
  assert (Z.to_nat (ae_prevLogIndex args) < length (m_logs n)) as Hlt by lia.
  pose proof (merge_entries_length _ (ae_entries args) _ Hlt) as Hlen.
  constructor; simpl; try done.
  - apply merge_entries_wf; [done..|]. by rewrite Z2Nat.id by lia.
  - unfold room_for, vec_size in *. lia.
  - rewrite merge_entries_merge_ref by done. destruct Hcons as (e & He & Hte).
    pose proof (take_S_r _ _ _ He) as Htake. rewrite <- (take_drop (S (Z.to_nat (ae_prevLogIndex args))) (m_logs n)) in wf_terms0.
    apply terms_between_app in wf_terms0 as [Ht1 Ht2].
    apply terms_between_app. split; [done|].
    rewrite Htake, last_snoc in *. simpl in *. rewrite Hte in *.
    by eapply merge_ref_terms_between.
Qed.

Section with_store2.
Context {D : Type} `{!KVStore D}.

(** The handler on a well-formed node, branch by branch. *)
Lemma handleAppendEntries_stale tm args n (db : D) :
  (ae_term args < m_currentTerm n)%Z ->
  handleAppendEntries tm args n db
  = Some (mkAppendEntriesReply (m_currentTerm n) false, n, db).
Proof. intros H. unfold handleAppendEntries. by rewrite (proj2 (Z.ltb_lt _ _) H). Qed.

Lemma handleAppendEntries_mismatch tm args n (db : D) :
  is_u64 (ae_prevLogIndex args) ->
  (m_currentTerm n <= ae_term args)%Z -> ~ ae_consistent args n ->
  handleAppendEntries tm args n db
  = Some (mkAppendEntriesReply (m_currentTerm n) false, ae_follow tm args n, db).
Proof.
  intros Hp H Hc. unfold handleAppendEntries. rewrite (proj2 (Z.ltb_ge _ _) H).
  cbn [m_logs resetElectionTimer set_currentTerm set_state].
  destruct (vec_size (m_logs n) <=? ae_prevLogIndex args)%Z eqn:E; [done|]. bool_to_prop.
  destruct (vec_at_is_Some (m_logs n) (ae_prevLogIndex args)) as [e He].
  { unfold is_u64 in Hp. lia. }
  rewrite He. simpl. apply vec_at_Some in He as [_ He].
  destruct (le_term e =? ae_prevLogTerm args)%Z eqn:Et; [|done].
  bool_to_prop. destruct Hc. by exists e.
Qed.

Lemma handleAppendEntries_accept tm args n (db : D) :
  raft_wf n -> ae_args_wf args -> room_for (length (ae_entries args)) n ->
  (m_currentTerm n <= ae_term args)%Z -> ae_consistent args n ->
  handleAppendEntries tm args n db
  = Some (mkAppendEntriesReply (ae_term args) true,
      if decide (m_commitIndex n < ae_leaderCommit args)%Z
      then (let c := ae_commit tm args n in
            set_lastApplied (Z.max (m_lastApplied n) c)
              (set_commitIndex c (ae_merged tm args n)))
      else ae_merged tm args n,
      if decide (m_commitIndex n < ae_leaderCommit args)%Z
      then kv_puts (unapplied (set_commitIndex (ae_commit tm args n)
                                 (ae_merged tm args n))) db
      else db).
Proof.
  intros Hwf Ha Hroom Hle Hc.
  pose proof (wf_ae_merged tm _ _ Hwf Ha Hle Hc Hroom) as Hwfm.
  pose proof (ae_consistent_bound _ _ (proj1 (proj2 (proj1 Ha))) Hc) as Hb.
  unfold handleAppendEntries. rewrite (proj2 (Z.ltb_ge _ _) Hle).
  cbn [m_logs resetElectionTimer set_currentTerm set_state].
  rewrite (proj2 (Z.leb_gt _ _) Hb).
  destruct Hc as (e & He & Ht).
  assert (vec_at (m_logs n) (ae_prevLogIndex args) = Some e) as ->.
  { apply vec_at_Some. destruct Ha as [(_ & Hp & _) _]. unfold is_u64 in Hp. split; [lia|done]. }
  simpl. rewrite (proj2 (Z.eqb_eq _ _) Ht). simpl.
  destruct (decide (m_commitIndex n < ae_leaderCommit args)%Z) as [Hlc|Hlc].
  - rewrite (proj2 (Z.ltb_lt _ _) Hlc).
    destruct (log_wf_last _ (wf_log _ Hwfm)) as (b & Hlast & Hbi). simpl in Hlast, Hbi.
    rewrite Hlast. simpl. rewrite Hbi.
    edestruct (wf_commit_and_apply (ae_commit tm args n) _ db Hwfm)
      as (n' & db' & Heq & _ & -> & ->).
    { unfold ae_commit. pose proof (log_wf_size _ (wf_log _ Hwfm)).
      pose proof (wf_commit _ Hwf). lia. }
    unfold ae_commit, ae_merged, ae_follow in *. simpl in *. rewrite Heq. done.
  - rewrite (proj2 (Z.ltb_ge _ _)) by lia. done.
Qed.

Lemma wf_handleAppendEntries tm args n (db : D) :
  raft_wf n -> ae_args_wf args -> room_for (length (ae_entries args)) n ->
  exists r n' db', handleAppendEntries tm args n db = Some (r, n', db') /\ raft_wf n'.
Proof.
  intros Hwf Ha Hroom.
  destruct (Z.lt_ge_cases (ae_term args) (m_currentTerm n)) as [Hs|Hle].
  { rewrite handleAppendEntries_stale by done. eauto. }
  destruct (decide (ae_consistent args n)) as [Hc|Hc]; last first.
  { rewrite handleAppendEntries_mismatch by (done || apply Ha).
    eexists _, _, _. split; [done|]. apply wf_ae_follow; [done| |done]. apply Ha. }
  rewrite handleAppendEntries_accept by done. eexists _, _, _. split; [done|].
  pose proof (wf_ae_merged tm _ _ Hwf Ha Hle Hc Hroom) as Hwfm.
  case_decide as Hlc; [|done].
  edestruct (wf_commit_and_apply (ae_commit tm args n) _ db Hwfm)
    as (n' & db' & _ & Hwf' & -> & _); [|done].
  unfold ae_commit. pose proof (log_wf_size _ (wf_log _ Hwfm)).
  pose proof (wf_commit _ Hwf). lia.
Qed.
End with_store2.

(** ** Client submissions *)
Lemma wf_submitLog k v n :
  raft_wf n -> room_for 1 n ->
  exists b n', submitLog k v n = Some (b, n') /\ raft_wf n'.
Proof.
  intros Hwf Hroom. unfold submitLog.
  destruct (m_state n) eqn:Es; [by eauto..|].
  destruct (log_wf_last _ (wf_log _ Hwf)) as (e & He & Hei). rewrite He. simpl.
  eexists _, _. split; [done|]. pose proof (wf_next _ Hwf Es) as Hnx.
  pose proof (wf_match _ Hwf Es) as Hmt.
  pose proof (log_wf_size _ (wf_log _ Hwf)). destruct Hwf. unfold room_for in *.
  constructor; simpl; try done.
  - apply log_wf_snoc; [done|]. simpl. rewrite Hei, u64_small by (unfold is_u64; lia). lia.
  - rewrite vec_size_app. unfold vec_size in *. simpl. lia.
  - apply terms_between_app. rewrite He. simpl.
    rewrite <- (app_nil_r (m_logs n)) in wf_terms0.
    apply terms_between_app in wf_terms0 as [Ht1 Ht2]. rewrite He in *. simpl in *.
    split; [done|]. lia.
  - intros _ p Hp. destruct (Hnx p Hp) as (nx & ? & ?). exists nx.
    rewrite vec_size_app. unfold vec_size at 2. simpl. split; [done|lia].
  - intros _ p w Hp. specialize (Hmt p w Hp). rewrite vec_size_app. unfold vec_size at 2. simpl. lia.
Qed.

(** ** Elections *)
Lemma wf_election_begin tm n :
  raft_wf n -> (m_currentTerm n < UINT64_MAX)%Z -> raft_wf (election_begin tm n).
Proof.
  intros [] Ht. unfold UINT64_MAX in Ht. unfold is_u64 in *.
  constructor; simpl; rewrite ?u64_small by (unfold is_u64; lia); try done; try lia.
  - eapply terms_between_weaken; [done|lia].
  - unfold is_u64. lia.
Qed.

Lemma election_args_eq n :
  raft_wf n -> exists e, last (m_logs n) = Some e /\
    election_args n = Some (mkRequestVoteArgs (m_currentTerm n) (m_nodeId n)
                              (vec_size (m_logs n) - 1) (le_term e)).
Proof.
  intros Hwf. destruct (log_wf_last _ (wf_log _ Hwf)) as (e & He & Hi).
  exists e. unfold election_args. rewrite He. simpl. by rewrite Hi.
Qed.

(** What a well-formed candidate asks is in range. *)
Lemma election_args_ok n args :
  raft_wf n -> election_args n = Some args -> rv_args_ok args.
Proof.
  intros Hwf Ha. destruct (election_args_eq n Hwf) as (e & He & Ha').
  rewrite Ha in Ha'. injection Ha' as ->.
  pose proof (wf_size _ Hwf). pose proof (log_wf_size _ (wf_log _ Hwf)).
  pose proof (wf_term _ Hwf). rewrite last_lookup in He.
  pose proof (terms_between_lookup _ _ _ _ _ (wf_terms _ Hwf) He).
  unfold rv_args_ok, is_u64 in *. cbn [rv_term rv_lastLogIndex rv_lastLogTerm]. lia.
Qed.

(** What [init_leader] writes. *)
Definition init_maps (size : Z) (peers : list string) (m1 m2 : gmap string Z)
  : gmap string Z * gmap string Z :=
  foldl (fun '(a, b) p => (<[p := size]> a, <[p := 0%Z]> b)) (m1, m2) peers.

Lemma init_leader_eq n :
  init_leader n =
  let '(a, b) := init_maps (vec_size (m_logs n)) (m_peers n) (m_nextIndex n) (m_matchIndex n) in
  set_matchIndex b (set_nextIndex a n).
Proof.
  unfold init_leader, init_maps.
  assert (forall ps n', m_logs n' = m_logs n ->
    foldl init_peer n' ps =
    let '(a, b) := foldl (fun '(a, b) p => (<[p := vec_size (m_logs n)]> a, <[p := 0%Z]> b))
                     (m_nextIndex n', m_matchIndex n') ps in
    set_matchIndex b (set_nextIndex a n')) as Hg; [|by apply Hg].
  induction ps as [|p ps IH]; intros n' Hl; simpl; [by destruct n'|].
  rewrite IH by done. simpl. rewrite Hl. by case_match.
Qed.

Lemma init_maps_lookup size peers m1 m2 p :
  let '(a, b) := init_maps size peers m1 m2 in
  (p ∈ peers -> a !! p = Some size /\ b !! p = Some 0%Z) /\
  (p ∉ peers -> a !! p = m1 !! p /\ b !! p = m2 !! p).
Proof.
  unfold init_maps. revert m1 m2. induction peers as [|q ps IH]; intros m1 m2; simpl.
  { split; [by intros ?%elem_of_nil|done]. }
  specialize (IH (<[q := size]> m1) (<[q := 0%Z]> m2)).
  case_match. destruct IH as [IH1 IH2]. split.
  - intros [->|Hp]%elem_of_cons; [|by auto].
    destruct (decide (q ∈ ps)) as [Hq|Hq]; [by auto|].
    destruct (IH2 Hq) as [-> ->]. by rewrite !lookup_insert_eq.
  - intros [Hne Hp]%not_elem_of_cons. destruct (IH2 Hp) as [-> ->].
    by rewrite !lookup_insert_ne by done.
Qed.

Lemma wf_election_finish votes n : raft_wf n -> raft_wf (election_finish votes n).
Proof.
  intros Hwf. unfold election_finish. destruct (majority n <=? votes)%Z; [|done].
  rewrite init_leader_eq. simpl.
  pose proof (init_maps_lookup (vec_size (m_logs n)) (m_peers n) (m_nextIndex n) (m_matchIndex n)) as Hl.
  destruct (init_maps _ _ _ _) as [a b] eqn:Ei.
  pose proof (log_wf_size _ (wf_log _ Hwf)). destruct Hwf.
  constructor; simpl; try done.
  - intros _ p Hp. destruct (Hl p) as [[-> _] _]; [done|]. eexists. split; [done|lia].
  - intros _ p v Hv. destruct (Hl p) as [Hin Hout].
    destruct (decide (p ∈ m_peers n)) as [Hp|Hp].
    + destruct (Hin Hp) as [_ Hb]. rewrite Hb in Hv. simplify_eq. lia.
    + destruct (Hout Hp) as [_ Hb]. rewrite Hb in Hv. by apply wf_match_peer0 in Hv.
  - intros p v Hv. destruct (Hl p) as [_ Hout].
    destruct (decide (p ∈ m_peers n)) as [Hp|Hp]; [done|].
    destruct (Hout Hp) as [_ Hb]. rewrite Hb in Hv. by eapply wf_match_peer0.
  - intros _ p Hp. destruct (Hl p) as [[_ ->] _]; [done|eauto].
Qed.

Lemma wf_election_collect reply votes n :
  raft_wf n ->
  (forall r, reply = Some r -> is_u64 (rvr_term r)) ->
  match election_collect reply votes n with
  | inl (_, n') => n' = n
  | inr n' => raft_wf n' /\ m_state n' = Follower /\ (m_currentTerm n < m_currentTerm n')%Z
  end.
Proof.
  intros Hwf Hr. unfold election_collect. destruct reply as [r|]; [|done].
  destruct (rvr_voteGranted r); [done|].
  destruct (m_currentTerm n <? rvr_term r)%Z eqn:E; [|done]. bool_to_prop.
  simpl. split; [|done]. apply wf_set_term_follower; [done|by apply Hr|lia].
Qed.

(** What the node relies on from the transport: reply terms are [uint64_t]. *)
Class TransportRange (W : Type) `{!RaftTransport W} : Prop := {
  rpc_request_vote_range p h port a w r w' :
    rpc_request_vote p h port a w = (Some r, w') -> is_u64 (rvr_term r);
  rpc_append_entries_range p h port a w r w' :
    rpc_append_entries p h port a w = (Some r, w') -> is_u64 (aer_term r);
}.

Section with_transport.
Context {W : Type} `{!RaftTransport W, !TransportRange W}.

Lemma sendRequestVote_range n p a w r w' :
  sendRequestVote n p a w = (Some r, w') -> is_u64 (rvr_term r).
Proof.
  unfold sendRequestVote. repeat case_match; [apply rpc_request_vote_range|done].
Qed.

Lemma sendAppendEntries_range n p a w r w' :
  sendAppendEntries n p a w = (Some r, w') -> is_u64 (aer_term r).
Proof.
  unfold sendAppendEntries. repeat case_match; [apply rpc_append_entries_range|done].
Qed.

Lemma wf_election_loop args peers votes n w :
  raft_wf n ->
  match (election_loop args peers votes n w).1 with
  | inl (_, n') => n' = n
  | inr n' => raft_wf n' /\ m_state n' = Follower /\ (m_currentTerm n < m_currentTerm n')%Z
  end.
Proof.
  revert votes w. induction peers as [|p ps IH]; intros votes w Hwf; simpl; [done|].
  destruct (sendRequestVote n p args w) as [reply w1] eqn:Es.
  pose proof (wf_election_collect reply votes n Hwf) as Hc.
  destruct (election_collect reply votes n) as [[v1 n1]|n1].
  - rewrite Hc; [by apply IH|]. intros r ->. by eapply sendRequestVote_range.
  - apply Hc. intros r ->. by eapply sendRequestVote_range.
Qed.

Lemma wf_startElection tm n w :
  raft_wf n -> (m_currentTerm n < UINT64_MAX)%Z ->
  exists n' w', startElection tm n w = Some (n', w') /\ raft_wf n'.
Proof.
  intros Hwf Ht. unfold startElection.
  pose proof (wf_election_begin tm n Hwf Ht) as Hwf1.
  destruct (election_args_eq _ Hwf1) as (e & _ & ->). simpl.
  match goal with |- context [election_loop ?a ?p ?v ?m ?w] =>
    pose proof (wf_election_loop a p v m w Hwf1) as Hl;
    destruct (election_loop a p v m w) as [[[v' n']|n'] w'] end;
    simpl in Hl; (eexists _, _; split; [done|]).
  - subst. by apply wf_election_finish.
  - apply Hl.
Qed.

Lemma wf_electionLoop_turn tm n w :
  raft_wf n -> (m_currentTerm n < UINT64_MAX)%Z ->
  exists n' w', electionLoop_turn tm n w = Some (n', w') /\ raft_wf n'.
Proof.
  intros Hwf Ht. unfold electionLoop_turn. case_match; [|by eauto].
  by apply wf_startElection.
Qed.
End with_transport.

(** ** Heartbeats *)
Lemma sort_desc_perm l : sort_desc l ≡ₚ l.
Proof. apply merge_sort_Permutation. Qed.

Lemma matchIndices_length n :
  length (matchIndices n) = S (size (m_matchIndex n)).
Proof.
  unfold matchIndices. rewrite sort_desc_perm. simpl.
  by rewrite length_fmap, length_map_to_list.
Qed.

Lemma matchIndices_elem n v :
  v ∈ matchIndices n <->
  v = (vec_size (m_logs n) - 1)%Z \/ exists p, m_matchIndex n !! p = Some v.
Proof.
  unfold matchIndices. rewrite sort_desc_perm, elem_of_cons, list_elem_of_fmap.
  f_equiv. split.
  - intros ([p w] & -> & Hp%elem_of_map_to_list). by exists p.
  - intros (p & Hp). exists (p, v). split; [done|]. by apply elem_of_map_to_list.
Qed.

Lemma newCommitIndex_is_Some n :
  exists v, newCommitIndex n = Some v /\ v ∈ matchIndices n.
Proof.
  destruct (newCommitIndex n) as [v|] eqn:E.
  - exists v. split; [done|]. unfold newCommitIndex in E. by eapply list_elem_of_lookup_2.
  - unfold newCommitIndex in E. apply lookup_ge_None in E.
    pose proof (matchIndices_length n).
    pose proof (Nat.Div0.div_le_upper_bound (length (matchIndices n) - 1) 2
      (length (matchIndices n) - 1) ltac:(lia)). lia.
Qed.

Lemma wf_set_nextIndex p v n :
  raft_wf n -> (1 <= v <= vec_size (m_logs n))%Z ->
  raft_wf (set_nextIndex (<[p := v]> (m_nextIndex n)) n).
Proof.
  intros [] Hv. constructor; simpl; try done.
  intros Hs q Hq. destruct (decide (p = q)) as [->|Hne].
  - rewrite lookup_insert_eq. eauto.
  - rewrite lookup_insert_ne by done. eauto.
Qed.

Lemma wf_set_matchIndex p v n :
  raft_wf n -> p ∈ m_peers n -> (0 <= v < vec_size (m_logs n))%Z ->
  raft_wf (set_matchIndex (<[p := v]> (m_matchIndex n)) n).
Proof.
  intros [] Hp Hv. constructor; simpl; try done.
  - intros Hs q w. rewrite lookup_insert. case_decide; [intros; simplify_eq; lia|eauto].
  - intros q w. rewrite lookup_insert. case_decide; [by intros; simplify_eq|eauto].
  - intros Hs q Hq. rewrite lookup_insert. case_decide; eauto.
Qed.

(** The heartbeat of a well-formed leader: no entries, and the local vector is
    the log from [nextIndex] on. *)
Lemma heartbeat_args_eq p n :
  raft_wf n -> m_state n = Leader -> p ∈ m_peers n ->
  exists nx prev, m_nextIndex n !! p = Some nx /\ (1 <= nx <= vec_size (m_logs n))%Z /\
    m_logs n !! Z.to_nat (nx - 1) = Some prev /\
    heartbeat_args p n
    = Some (mkAppendEntriesArgs (m_currentTerm n) (m_nodeId n) (nx - 1)
              (le_term prev) [] (m_commitIndex n),
            nx, drop (Z.to_nat nx) (m_logs n), n).
Proof.
  intros Hwf Hs Hp. destruct (wf_next _ Hwf Hs p Hp) as (nx & Hnx & Hr).
  pose proof (wf_size _ Hwf).
  destruct (vec_at_is_Some (m_logs n) (nx - 1)) as [prev Hprev]; [lia|].
  exists nx, prev. split; [done|]. split; [done|].
  pose proof (proj1 (vec_at_Some _ _ _) Hprev) as [_ Hl]. split; [done|].
  unfold heartbeat_args. rewrite (map_index_present _ _ _ Hnx). simpl.
  rewrite u64_small by (unfold is_u64; lia). rewrite Hprev. simpl. by destruct n.
Qed.

(** What a well-formed leader sends is a well-formed message without entries. *)
Lemma heartbeat_args_wf p n args nx es n1 :
  raft_wf n -> m_state n = Leader -> p ∈ m_peers n ->
  heartbeat_args p n = Some (args, nx, es, n1) ->
  ae_args_wf args /\ ae_leaderId args = m_nodeId n /\ ae_entries args = [].
Proof.
  intros Hwf Hs Hp Ha.
  destruct (heartbeat_args_eq p n Hwf Hs Hp) as (nx' & prev & _ & Hnr & Hprev & Ha').
  rewrite Ha in Ha'. injection Ha' as -> -> -> ->. split; [|done].
  pose proof (wf_size _ Hwf). pose proof (wf_commit _ Hwf). pose proof (wf_applied _ Hwf).
  pose proof (terms_between_lookup _ _ _ _ _ (wf_terms _ Hwf) Hprev) as Ht.
  pose proof (wf_term _ Hwf). unfold ae_args_wf, ae_args_ok, is_u64 in *. simpl.
  split_and!; try lia; [done|]. by intros i e.
Qed.

Section with_store3.
Context {D : Type} `{!KVStore D}.

(** The node after [m_nextIndex[peer]] and [m_matchIndex[peer]] are advanced. *)
Definition advance_peer (p : string) (n : RaftNode) : RaftNode :=
  set_matchIndex (<[p := (vec_size (m_logs n) - 1)%Z]> (m_matchIndex n))
    (set_nextIndex (<[p := vec_size (m_logs n)]> (m_nextIndex n)) n).

Lemma wf_advance_peer p n :
  raft_wf n -> p ∈ m_peers n -> raft_wf (advance_peer p n).
Proof.
  intros Hwf Hp. pose proof (log_wf_size _ (wf_log _ Hwf)).
  pose proof (wf_set_nextIndex p (vec_size (m_logs n)) n Hwf ltac:(lia)) as Hwf1.
  apply (wf_set_matchIndex p (vec_size (m_logs n) - 1) _ Hwf1 Hp). simpl. lia.
Qed.

(** What a successful reply does to a well-formed leader. *)
Definition commit_step (n : RaftNode) (db : D) : option (RaftNode * D) :=
  c ← newCommitIndex n;
  if (m_commitIndex n <? c)%Z then
    entry ← vec_at (m_logs n) c;
    if (le_term entry =? m_currentTerm n)%Z
    then applyCommittedLogs (set_commitIndex c n) db
    else Some (n, db)
  else Some (n, db).

Lemma heartbeat_success_eq p nx n (db : D) :
  raft_wf n -> (1 <= nx <= vec_size (m_logs n))%Z ->
  heartbeat_success p nx (drop (Z.to_nat nx) (m_logs n)) n db
  = commit_step (advance_peer p n) db.
Proof.
  intros Hwf Hnx. pose proof (wf_size _ Hwf).
  unfold heartbeat_success, commit_step, advance_peer, newCommitIndex.
  assert (vec_size (drop (Z.to_nat nx) (m_logs n)) = vec_size (m_logs n) - nx)%Z as ->.
  { unfold vec_size in *. rewrite length_drop. lia. }
  replace (nx + (vec_size (m_logs n) - nx))%Z with (vec_size (m_logs n)) by lia.
  rewrite (u64_small (vec_size (m_logs n))) by (unfold is_u64; lia).
  by rewrite u64_small by (unfold is_u64; lia).
Qed.

Lemma wf_commit_step n (db : D) :
  raft_wf n -> m_state n = Leader ->
  exists n' db', commit_step n db = Some (n', db') /\ raft_wf n' /\
    m_state n' = Leader /\ m_peers n' = m_peers n.
Proof.
  intros Hwf Hs. unfold commit_step.
  destruct (newCommitIndex_is_Some n) as (c & -> & Hc). simpl.
  destruct (m_commitIndex n <? c)%Z eqn:E; [|by eauto 10].
  assert (0 <= c < vec_size (m_logs n))%Z as Hr.
  { apply matchIndices_elem in Hc as [->|(p & Hp)].
    - pose proof (log_wf_size _ (wf_log _ Hwf)). lia.
    - by eapply wf_match. }
  destruct (vec_at_is_Some _ _ Hr) as [e ->]. simpl.
  destruct (le_term e =? m_currentTerm n)%Z; [|by eauto 10].
  destruct (wf_commit_and_apply c n db Hwf Hr) as (n' & db' & -> & Hwf' & -> & _).
  eexists _, _. split; [done|]. done.
Qed.

Lemma wf_heartbeat_reply p nx reply n (db : D) :
  raft_wf n -> m_state n = Leader -> p ∈ m_peers n ->
  m_nextIndex n !! p = Some nx -> (1 <= nx <= vec_size (m_logs n))%Z ->
  (forall r, reply = Some r -> is_u64 (aer_term r)) ->
  exists brk n' db',
    heartbeat_reply p nx (drop (Z.to_nat nx) (m_logs n)) reply n db = Some (brk, n', db') /\
    raft_wf n' /\ m_peers n' = m_peers n /\ (brk = false -> m_state n' = Leader).
Proof.
  intros Hwf Hs Hp Hnx Hr Hreply. unfold heartbeat_reply.
  destruct reply as [r|]; [|by eauto 10].
  destruct (aer_success r).
  - rewrite heartbeat_success_eq by done.
    destruct (wf_commit_step (advance_peer p n) db) as (n' & db' & -> & ? & ? & ?);
      [by apply wf_advance_peer|done|]. simpl. eauto 10.
  - destruct (m_currentTerm n <? aer_term r)%Z eqn:E.
    + bool_to_prop. eexists _, _, _. split; [done|]. split; [|done].
      apply wf_set_term_follower; [done|by apply Hreply|lia].
    + rewrite (map_index_present _ _ _ Hnx).
      destruct (1 <? nx)%Z eqn:E1; bool_to_prop; eexists _, _, _; (split; [done|]).
      * split; [|done]. apply wf_set_nextIndex; [done|lia].
      * split; [|done]. by destruct n.
Qed.

Context {W : Type} `{!RaftTransport W, !TransportRange W}.

Lemma wf_heartbeat_peer p n (db : D) w :
  raft_wf n -> m_state n = Leader -> p ∈ m_peers n ->
  exists brk n' db' w', heartbeat_peer p n db w = Some (brk, n', db', w') /\
    raft_wf n' /\ m_peers n' = m_peers n /\ (brk = false -> m_state n' = Leader).
Proof.
  intros Hwf Hs Hp. unfold heartbeat_peer.
  destruct (heartbeat_args_eq p n Hwf Hs Hp) as (nx & prev & Hnx & Hr & _ & ->). simpl.
  match goal with |- context [sendAppendEntries n p ?a w] =>
    destruct (sendAppendEntries n p a w) as [reply w1] eqn:Ew end.
  destruct (wf_heartbeat_reply p nx reply n db Hwf Hs Hp Hnx Hr) as (brk & n' & db' & -> & ?).
  { intros r ->. by eapply sendAppendEntries_range. }
  simpl. eauto 10.
Qed.

Lemma wf_heartbeat_peers ps n (db : D) w :
  raft_wf n -> m_state n = Leader -> (forall p, p ∈ ps -> p ∈ m_peers n) ->
  exists n' db' w', heartbeat_peers ps n db w = Some (n', db', w') /\ raft_wf n'.
Proof.
  revert n db w. induction ps as [|p ps IH]; intros n db w Hwf Hs Hps; simpl; [by eauto|].
  destruct (wf_heartbeat_peer p n db w Hwf Hs) as (brk & n' & db' & w' & -> & Hwf' & Hpe & Hb).
  { apply Hps. by left. }
  simpl. destruct brk; [by eauto|]. apply IH; [done|by apply Hb|].
  intros q Hq. rewrite Hpe. apply Hps. by right.
Qed.

Lemma wf_heartbeatLoop_turn n (db : D) w :
  raft_wf n ->
  exists n' db' w', heartbeatLoop_turn n db w = Some (n', db', w') /\ raft_wf n'.
Proof.
  intros Hwf. unfold heartbeatLoop_turn. case_bool_decide; [|by eauto].
  by apply wf_heartbeat_peers.
Qed.
End with_store3.

(** ** The methods as interleaved steps of one node

    [m_mutex] serialises the handlers, [submitLog], [setPeerAddress] and one
    turn of each background thread, so an execution of a node is a sequence of
    these events. *)
Inductive node_event :=
  | EvStart
  | EvStop
  | EvSetPeerAddress (peerId host : string) (port : Z)
  | EvRequestVote (tm : Timer) (args : RequestVoteArgs)
  | EvAppendEntries (tm : Timer) (args : AppendEntriesArgs)
  | EvSubmitLog (key value : string)
  | EvElectionTurn (tm : Timer)
  | EvHeartbeatTurn.

Section node_steps.
Context {D : Type} `{!KVStore D}.
Context {W : Type} `{!RaftTransport W}.

Definition node_step (ev : node_event) (n : RaftNode) (db : D) (w : W)
  : option (RaftNode * D * W) :=
  match ev with
  | EvStart => Some ((start n).2, db, w)
  | EvStop => Some ((stop n).2, db, w)
  | EvSetPeerAddress p h port => Some (setPeerAddress p h port n, db, w)
  | EvRequestVote tm args =>
      '(_, n') ← handleRequestVote tm args n; Some (n', db, w)
  | EvAppendEntries tm args =>
      '(_, n', db') ← handleAppendEntries tm args n db; Some (n', db', w)
  | EvSubmitLog k v => '(_, n') ← submitLog k v n; Some (n', db, w)
  | EvElectionTurn tm => '(n', w') ← electionLoop_turn tm n w; Some (n', db, w')
  | EvHeartbeatTurn => heartbeatLoop_turn n db w
  end.

(** What an event may carry: messages built by well-formed leaders, vectors
    below their maximal size, and fewer than [2^64 - 1] terms. *)
Definition event_ok (ev : node_event) (n : RaftNode) : Prop :=
  match ev with
  | EvRequestVote _ args => rv_args_ok args
  | EvAppendEntries _ args => ae_args_wf args /\ room_for (length (ae_entries args)) n
  | EvSubmitLog _ _ => room_for 1 n
  | EvElectionTurn _ => (m_currentTerm n < UINT64_MAX)%Z
  | _ => True
  end.

(** The executions of a node from its constructor. *)
Inductive node_reach (id : string) (peers : list string) : RaftNode -> D -> W -> Prop :=
  | node_reach_new tm db w : node_reach id peers (RaftNode_new id peers tm) db w
  | node_reach_step ev n db w n' db' w' :
      node_reach id peers n db w -> event_ok ev n ->
      node_step ev n db w = Some (n', db', w') ->
      node_reach id peers n' db' w'.

Context `{!TransportRange W}.

Lemma wf_node_step ev n (db : D) w :
  raft_wf n -> event_ok ev n ->
  exists n' db' w', node_step ev n db w = Some (n', db', w') /\ raft_wf n'.
Proof.
  intros Hwf Hok. destruct ev; simpl in *.
  - eexists _, _, _. split; [done|]. unfold start. destruct (m_running n); [done|]. by destruct Hwf.
  - eexists _, _, _. split; [done|]. unfold stop. destruct (negb _); [done|]. by destruct Hwf.
  - eexists _, _, _. split; [done|]. by destruct Hwf.
  - destruct (wf_handleRequestVote tm args n Hwf Hok) as (r & n' & -> & ?). simpl. eauto 10.
  - destruct Hok as [Ha Hr].
    destruct (wf_handleAppendEntries tm args n db Hwf Ha Hr) as (r & n' & db' & -> & ?).
    simpl. eauto 10.
  - destruct (wf_submitLog key value n Hwf Hok) as (r & n' & -> & ?). simpl. eauto 10.
  - destruct (wf_electionLoop_turn tm n w Hwf Hok) as (n' & w' & -> & ?). simpl. eauto 10.
  - by apply wf_heartbeatLoop_turn.
Qed.

Lemma wf_node_reach id peers n (db : D) (w : W) :
  node_reach id peers n db w -> raft_wf n.
Proof.
  induction 1 as [|ev n db w n' db' w' _ IH Hok Hs]; [apply RaftNode_new_wf|].
  destruct (wf_node_step ev n db w IH Hok) as (? & ? & ? & Hs' & ?). by simplify_eq.
Qed.

(** *** Monotonicity *)
Lemma handleRequestVote_term tm args n r n' :
  handleRequestVote tm args n = Some (r, n') ->
  (m_currentTerm n <= m_currentTerm n')%Z /\ m_lastApplied n' = m_lastApplied n.
Proof.
  unfold handleRequestVote. intros H. case_match; [by simplify_eq|].
  destruct (m_currentTerm n <? rv_term args)%Z eqn:E; bool_to_prop;
    apply bind_Some in H as (e & _ & H); case_match; simplify_eq; simpl; (split; [lia|done]).
Qed.

Lemma apply_loop_frame fuel n (db : D) n' db' :
  apply_loop fuel n db = Some (n', db') ->
  exists a, n' = set_lastApplied a n.
Proof.
  revert n db. induction fuel as [|f IH]; intros n db; simpl;
    destruct (m_lastApplied n <? m_commitIndex n)%Z; intros H; simplify_eq.
  - exists (m_lastApplied n'). by destruct n'.
  - apply bind_Some in H as (e & _ & H). case_match. apply IH in H as [a ->]. by exists a.
  - exists (m_lastApplied n'). by destruct n'.
Qed.

Lemma handleAppendEntries_term tm args n (db : D) r n' db' :
  handleAppendEntries tm args n db = Some (r, n', db') ->
  (m_currentTerm n <= m_currentTerm n')%Z.
Proof.
  unfold handleAppendEntries. intros H. case_match; [by simplify_eq|]. bool_to_prop.
  case_match; [by simplify_eq|].
  apply bind_Some in H as (e & _ & H). case_match; [by simplify_eq|].
  apply bind_Some in H as ([n3 db3] & H3 & H). simplify_eq. simpl.
  case_match; [|by simplify_eq].
  apply bind_Some in H3 as (b & _ & H3). by apply apply_loop_frame in H3 as [a ->].
Qed.
End node_steps.
