(* ===== verification/RaftCluster.v ===== *)
(** * A cluster of Raft nodes: elections

    The nodes of src/raft/RaftNode.cpp running together.  The state holds every
    node with its store, and the elections in progress: [startElection] keeps
    [m_mutex] locked during its RPCs, so a node inside [startElection] takes no
    other step, while the other nodes do.  One RPC of an election is one step:
    the peer runs [handleRequestVote] and the candidate receives that very
    reply, or the exchange fails.  Requests of any content may also arrive at
    any idle node at any time, and a leader may receive any reply to a
    heartbeat; nodes do not restart.

    [cl_votes] and [cl_leaders] are history variables: who voted for whom in
    which term, and who became leader of which term. *)
From S2P Require Import Prelude RaftTypes RaftNode.

Record election := mkElection {
  el_args : RequestVoteArgs;
  el_rest : list string;       (* peers not asked yet *)
  el_votes : Z;
}.

Record cluster (D : Type) := mkCluster {
  cl_nodes : gmap string (RaftNode * D);
  cl_elections : gmap string election;
  cl_votes : list (string * Z * string);
  cl_leaders : list (Z * string);
}.
Arguments mkCluster {D}.
Arguments cl_nodes {D}.
Arguments cl_elections {D}.
Arguments cl_votes {D}.
Arguments cl_leaders {D}.

(** The vote a reply stands for. *)
Definition granted_vote (voter : string) (args : RequestVoteArgs) (r : RequestVoteReply)
  : list (string * Z * string) :=
  if rvr_voteGranted r then [(voter, rv_term args, rv_candidateId args)] else [].

(** The leader an election produced. *)
Definition elected (id : string) (n : RaftNode) : list (Z * string) :=
  if bool_decide (m_state n = Leader) then [(m_currentTerm n, id)] else [].

Section cluster_steps.
Context {D : Type} `{!KVStore D}.
Implicit Types c : cluster D.

Definition idle (i : string) c : Prop := cl_elections c !! i = None.

Definition put_node (i : string) (n : RaftNode) (db : D) c : cluster D :=
  mkCluster (<[i := (n, db)]> (cl_nodes c)) (cl_elections c) (cl_votes c) (cl_leaders c).

Definition put_election (i : string) (e : option election) c : cluster D :=
  mkCluster (cl_nodes c)
    (match e with Some e => <[i := e]> | None => delete i end (cl_elections c))
    (cl_votes c) (cl_leaders c).

Definition add_votes (vs : list (string * Z * string)) c : cluster D :=
  mkCluster (cl_nodes c) (cl_elections c) (vs ++ cl_votes c) (cl_leaders c).

Definition add_leaders (ls : list (Z * string)) c : cluster D :=
  mkCluster (cl_nodes c) (cl_elections c) (cl_votes c) (ls ++ cl_leaders c).

(** The replies of one exchange with peer [p] during [i]'s election: the
    cluster after the peer's handler, and what [sendRequestVote] returns. *)
Inductive vote_exchange (p : string) (args : RequestVoteArgs)
  : cluster D -> option RequestVoteReply -> cluster D -> Prop :=
  | exchange_fail c : vote_exchange p args c None c
  | exchange_reply c np dbp tm r np' :
      cl_nodes c !! p = Some (np, dbp) -> idle p c ->
      handleRequestVote tm args np = Some (r, np') ->
      vote_exchange p args c (Some r)
        (add_votes (granted_vote p args r) (put_node p np' dbp c)).

(** The append messages that may arrive. *)
Context {sent : AppendEntriesArgs -> Prop}.

Inductive cluster_step_of : cluster D -> cluster D -> Prop :=
  | step_request_vote c i n db tm args r n' :
      cl_nodes c !! i = Some (n, db) -> idle i c ->
      rv_candidateId args <> ""%string ->
      handleRequestVote tm args n = Some (r, n') ->
      cluster_step_of c (add_votes (granted_vote i args r) (put_node i n' db c))
  | step_append_entries c i n db tm args r n' db' :
      cl_nodes c !! i = Some (n, db) -> idle i c ->
      handleAppendEntries tm args n db = Some (r, n', db') -> sent args ->
      cluster_step_of c (put_node i n' db' c)
  | step_submit c i n db k v b n' :
      cl_nodes c !! i = Some (n, db) -> idle i c ->
      submitLog k v n = Some (b, n') ->
      cluster_step_of c (put_node i n' db c)
  | step_heartbeat c i n db p args nx es n1 reply brk n' db' :
      cl_nodes c !! i = Some (n, db) -> idle i c -> m_state n = Leader ->
      heartbeat_args p n = Some (args, nx, es, n1) ->
      heartbeat_reply p nx es reply n1 db = Some (brk, n', db') ->
      cluster_step_of c (put_node i n' db' c)
  | step_election_begin c i n db tm args :
      cl_nodes c !! i = Some (n, db) -> idle i c ->
      m_state n <> Leader -> (m_currentTerm n < UINT64_MAX)%Z ->
      election_args (election_begin tm n) = Some args ->
      cluster_step_of c
        (add_votes [(i, rv_term args, i)]
           (put_election i (Some (mkElection args (m_peers n) 1))
              (put_node i (election_begin tm n) db c)))
  | step_election_vote c c1 i n db args p rest votes reply votes' n' :
      cl_nodes c !! i = Some (n, db) ->
      cl_elections c !! i = Some (mkElection args (p :: rest) votes) ->
      vote_exchange p args c reply c1 ->
      election_collect reply votes n = inl (votes', n') ->
      cluster_step_of c
        (put_election i (Some (mkElection args rest votes')) (put_node i n' db c1))
  | step_election_abort c c1 i n db args p rest votes reply n' :
      cl_nodes c !! i = Some (n, db) ->
      cl_elections c !! i = Some (mkElection args (p :: rest) votes) ->
      vote_exchange p args c reply c1 ->
      election_collect reply votes n = inr n' ->
      cluster_step_of c (put_election i None (put_node i n' db c1))
  | step_election_finish c i n db args votes :
      cl_nodes c !! i = Some (n, db) ->
      cl_elections c !! i = Some (mkElection args [] votes) ->
      cluster_step_of c
        (add_leaders (elected i (election_finish votes n))
           (put_election i None (put_node i (election_finish votes n) db c))).

(** The initial cluster of the members [ids]: each node is constructed with the
    other members as its peers, and given some addresses. *)
Definition cluster_init (ids : gset string) (c : cluster D) : Prop :=
  cl_elections c = ∅ /\ cl_votes c = [] /\ cl_leaders c = [] /\
  dom (cl_nodes c) = ids /\
  forall i n db, cl_nodes c !! i = Some (n, db) ->
    exists tm peers addrs, n = set_peerAddresses addrs (RaftNode_new i peers tm) /\
      NoDup peers /\ list_to_set peers = ids ∖ {[i]}.

Inductive cluster_reach_of (ids : gset string) : cluster D -> Prop :=
  | cluster_reach_init c : cluster_init ids c -> cluster_reach_of ids c
  | cluster_reach_step c c' :
      cluster_reach_of ids c -> cluster_step_of c c' -> cluster_reach_of ids c'.
End cluster_steps.
Arguments cluster_step_of {D _} sent _ _.
Arguments cluster_reach_of {D _} sent _ _.

(** Any append message may arrive. *)
Definition any_append (_ : AppendEntriesArgs) : Prop := True.

(** The append messages the program itself builds: those of [heartbeatLoop]. *)
Definition sent_by_program (args : AppendEntriesArgs) : Prop :=
  exists p n nx es n1, heartbeat_args p n = Some (args, nx, es, n1).

Abbreviation cluster_step := (cluster_step_of any_append).
Abbreviation cluster_reach := (cluster_reach_of any_append).

(** ** What one node's methods do to its vote *)

(** The node keeps its identity; its term does not fall; within a term it keeps
    its vote; and it does not become leader. *)
Record quiet (n n' : RaftNode) : Prop := mk_quiet {
  q_id : m_nodeId n' = m_nodeId n;
  q_peers : m_peers n' = m_peers n;
  q_vote : (m_currentTerm n' = m_currentTerm n /\ m_votedFor n' = m_votedFor n) \/
           (m_currentTerm n < m_currentTerm n')%Z;
  q_leader : m_state n' = Leader -> m_state n = Leader /\ m_currentTerm n' = m_currentTerm n;
}.

(** The node voted for [cand] in [term], for the first time or again. *)
Record voted (term : Z) (cand : string) (n n' : RaftNode) : Prop := mk_voted {
  v_id : m_nodeId n' = m_nodeId n;
  v_peers : m_peers n' = m_peers n;
  v_term : m_currentTerm n' = term;
  v_for : m_votedFor n' = cand;
  v_free : (m_currentTerm n < term)%Z \/
           (m_currentTerm n = term /\ (m_votedFor n = ""%string \/ m_votedFor n = cand));
  v_leader : m_state n' = Leader -> m_state n = Leader /\ m_currentTerm n = term;
}.

Lemma quiet_refl n : quiet n n.
Proof. constructor; auto. Qed.

Lemma quiet_trans n1 n2 n3 : quiet n1 n2 -> quiet n2 n3 -> quiet n1 n3.
Proof.
  intros [] []. constructor; [congruence..| |].
  - destruct q_vote0 as [[]|], q_vote1 as [[]|];
      ((left; split; congruence) || (right; lia)).
  - intros H. destruct (q_leader1 H) as [H1 ?]. destruct (q_leader0 H1). split; congruence.
Qed.

Lemma handleRequestVote_vote tm args n r n' :
  handleRequestVote tm args n = Some (r, n') ->
  if rvr_voteGranted r then voted (rv_term args) (rv_candidateId args) n n'
  else quiet n n'.
Proof.
  unfold handleRequestVote.
  destruct (rv_term args <? m_currentTerm n)%Z eqn:E1.
  { intros [= <- <-]. apply quiet_refl. }
  destruct (m_currentTerm n <? rv_term args)%Z eqn:E2; bool_to_prop;
    intros (e & _ & H)%bind_Some.
  - case_match; simplify_eq/=.
    + constructor; simpl; auto; done.
    + constructor; simpl; auto; done.
  - assert (rv_term args = m_currentTerm n) as Ht by lia.
    case_match eqn:Ec; simplify_eq/=; [|apply quiet_refl].
    apply andb_true_iff in Ec as [Ec _].
    apply orb_true_iff in Ec as [Ec|Ec]; bool_to_prop; constructor; simpl; auto.
Qed.

Section quiet_ops.
Context {D : Type} `{!KVStore D}.

Lemma apply_loop_quiet fuel n (db : D) n' db' :
  apply_loop fuel n db = Some (n', db') -> quiet n n'.
Proof.
  revert n db. induction fuel as [|f IH]; intros n db; simpl;
    destruct (m_lastApplied n <? m_commitIndex n)%Z; intros H; simplify_eq;
    try apply quiet_refl.
  apply bind_Some in H as (e & _ & H). case_match. apply IH in H.
  eapply quiet_trans; [|exact H]. constructor; auto.
Qed.

Lemma handleAppendEntries_quiet tm args n (db : D) r n' db' :
  handleAppendEntries tm args n db = Some (r, n', db') -> quiet n n'.
Proof.
  unfold handleAppendEntries.
  destruct (ae_term args <? m_currentTerm n)%Z eqn:E1.
  { intros [= _ <- _]. apply quiet_refl. }
  bool_to_prop.
  set (n1 := resetElectionTimer _ _).
  assert (quiet n n1) as Hq.
  { constructor; simpl; [done..| |done].
    destruct (Z.lt_ge_cases (m_currentTerm n) (ae_term args)); [by right|].
    left. split; [lia|done]. }
  case_match; [by intros [= _ <- _]|].
  intros (e & _ & Hb)%bind_Some. case_match; [by simplify_eq|].
  apply bind_Some in Hb as ([n3 db3] & H3 & Heq). simplify_eq.
  eapply quiet_trans; [exact Hq|]. case_match.
  - apply bind_Some in H3 as (b & _ & H3). apply apply_loop_quiet in H3.
    eapply quiet_trans; [|exact H3]. constructor; auto.
  - simplify_eq. constructor; auto.
Qed.

Lemma submitLog_quiet k v n b n' : submitLog k v n = Some (b, n') -> quiet n n'.
Proof.
  unfold submitLog. destruct (m_state n) eqn:Es.
  - intros [= _ <-]. apply quiet_refl.
  - intros [= _ <-]. apply quiet_refl.
  - intros (e & _ & H)%bind_Some. simplify_eq. constructor; auto.
Qed.

Lemma heartbeat_args_quiet p n args nx es n1 :
  heartbeat_args p n = Some (args, nx, es, n1) -> quiet n n1.
Proof.
  unfold heartbeat_args. destruct (map_index _ _) as [v m].
  intros (e & _ & H)%bind_Some. simplify_eq. constructor; auto.
Qed.

Lemma heartbeat_reply_quiet p nx es reply n (db : D) brk n' db' :
  heartbeat_reply p nx es reply n db = Some (brk, n', db') -> quiet n n'.
Proof.
  unfold heartbeat_reply. destruct reply as [r|]; [|intros [= _ <- _]; apply quiet_refl].
  destruct (aer_success r).
  - intros ([n1 db1] & H & ?)%bind_Some. simplify_eq.
    unfold heartbeat_success in H. apply bind_Some in H as (c & _ & H).
    case_match; [|simplify_eq; constructor; auto].
    apply bind_Some in H as (e & _ & H). case_match; [|simplify_eq; constructor; auto].
    apply apply_loop_quiet in H. eapply quiet_trans; [|exact H]. constructor; auto.
  - destruct (m_currentTerm n <? aer_term r)%Z eqn:E; bool_to_prop.
    + intros [= _ <- _]. constructor; simpl; auto; done.
    + destruct (map_index _ _) as [v m]. case_match; intros [= _ <- _]; constructor; auto.
Qed.
End quiet_ops.

Lemma election_collect_abort reply votes n n' :
  election_collect reply votes n = inr n' ->
  quiet n n' /\ m_state n' = Follower.
Proof.
  unfold election_collect. destruct reply as [r|]; [|done].
  destruct (rvr_voteGranted r); [done|].
  destruct (m_currentTerm n <? rvr_term r)%Z eqn:E; [|done]. bool_to_prop.
  intros [= <-]. split; [|done]. constructor; simpl; auto; done.
Qed.

Lemma election_collect_continue reply votes n votes' n' :
  election_collect reply votes n = inl (votes', n') ->
  n' = n /\
  ((votes' = votes) \/
   (votes' = votes + 1)%Z /\ exists r, reply = Some r /\ rvr_voteGranted r = true).
Proof.
  unfold election_collect. destruct reply as [r|]; [|naive_solver].
  destruct (rvr_voteGranted r) eqn:Er; [intros [= <- <-]; eauto 10|].
  case_match; naive_solver.
Qed.

Lemma init_leader_frame n :
  m_nodeId (init_leader n) = m_nodeId n /\ m_peers (init_leader n) = m_peers n /\
  m_currentTerm (init_leader n) = m_currentTerm n /\
  m_votedFor (init_leader n) = m_votedFor n /\ m_state (init_leader n) = m_state n.
Proof.
  assert (forall ps m, let m' := foldl init_peer m ps in
    m_nodeId m' = m_nodeId m /\ m_peers m' = m_peers m /\
    m_currentTerm m' = m_currentTerm m /\ m_votedFor m' = m_votedFor m /\
    m_state m' = m_state m) as Hg; [|by apply Hg].
  induction ps as [|p ps IH]; intros m; simpl; [done|].
  by destruct (IH (init_peer m p)) as (-> & -> & -> & -> & ->).
Qed.

Lemma election_finish_frame votes n :
  m_nodeId (election_finish votes n) = m_nodeId n /\
  m_peers (election_finish votes n) = m_peers n /\
  m_currentTerm (election_finish votes n) = m_currentTerm n /\
  m_votedFor (election_finish votes n) = m_votedFor n.
Proof.
  unfold election_finish. case_match; [|done].
  destruct (init_leader_frame (set_state Leader n)) as (-> & -> & -> & -> & _). done.
Qed.

Lemma election_finish_leader votes n :
  m_state n <> Leader -> m_state (election_finish votes n) = Leader ->
  (majority n <= votes)%Z.
Proof.
  unfold election_finish. destruct (majority n <=? votes)%Z eqn:E; bool_to_prop; done.
Qed.

(** ** The invariant *)
Section cluster_invariant.
Context {D : Type} `{!KVStore D}.
Implicit Types c : cluster D.

(** A set of members, listed once each, that voted for [cand] in [term]. *)
Definition voters_for (ids : gset string) c (term : Z) (cand : string) (V : list string) : Prop :=
  NoDup V /\ forall v, v ∈ V -> v ∈ ids /\ (v, term, cand) ∈ cl_votes c.

Record cluster_inv (ids : gset string) c : Prop := mk_cluster_inv {
  ci_nodes : forall i n db, cl_nodes c !! i = Some (n, db) ->
    i ∈ ids /\ m_nodeId n = i /\ NoDup (m_peers n) /\
    list_to_set (m_peers n) = ids ∖ {[i]} /\ (0 <= m_currentTerm n)%Z;
  ci_vote : forall v t cand, (v, t, cand) ∈ cl_votes c ->
    cand <> ""%string /\ exists n db, cl_nodes c !! v = Some (n, db) /\
      ((t < m_currentTerm n)%Z \/ (t = m_currentTerm n /\ m_votedFor n = cand));
  ci_once : forall v t cand cand',
    (v, t, cand) ∈ cl_votes c -> (v, t, cand') ∈ cl_votes c -> cand = cand';
  ci_election : forall i e, cl_elections c !! i = Some e ->
    exists n db V, cl_nodes c !! i = Some (n, db) /\ m_state n <> Leader /\
      rv_term (el_args e) = m_currentTerm n /\ rv_candidateId (el_args e) = i /\
      NoDup (el_rest e) /\ (forall p, p ∈ el_rest e -> p ∈ ids /\ p <> i) /\
      voters_for ids c (m_currentTerm n) i V /\ Z.of_nat (length V) = el_votes e /\
      (forall p, p ∈ el_rest e -> p ∉ V);
  ci_leader : forall t i, (t, i) ∈ cl_leaders c ->
    exists V, voters_for ids c t i V /\ size ids / 2 + 1 <= length V;
  ci_state : forall i n db, cl_nodes c !! i = Some (n, db) ->
    m_state n = Leader -> (m_currentTerm n, i) ∈ cl_leaders c;
}.

Lemma voters_for_mono ids c c' t i V :
  (forall x, x ∈ cl_votes c -> x ∈ cl_votes c') ->
  voters_for ids c t i V -> voters_for ids c' t i V.
Proof. intros H [Hn Hv]. split; [done|]. intros v Hin. destruct (Hv v Hin). auto. Qed.

Lemma inv_quiet ids c i n db n' db' :
  cluster_inv ids c -> cl_nodes c !! i = Some (n, db) -> idle i c ->
  quiet n n' -> cluster_inv ids (put_node i n' db' c).
Proof.
  intros [] Hn Hidle []. constructor; simpl.
  - intros j m dbm. rewrite lookup_insert. case_decide as E; [|by apply ci_nodes0].
    intros [= <- <-]. subst. destruct (ci_nodes0 _ _ _ Hn) as (? & ? & ? & ? & ?).
    rewrite q_id0, q_peers0. split_and!; auto. destruct q_vote0 as [[-> _]|?]; lia.
  - intros v t cand Hin. destruct (ci_vote0 _ _ _ Hin) as (Hc & m & dbm & Hm & Hv).
    split; [done|]. rewrite lookup_insert. case_decide as E; [|by eauto].
    subst. simplify_eq. eexists _, _. split; [done|].
    destruct q_vote0 as [[-> ->]|?]; [done|]. left. lia.
  - done.
  - intros j e He. destruct (ci_election0 j e He) as (m & dbm & V & Hm & ?).
    exists m, dbm, V. rewrite lookup_insert_ne; [done|]. intros <-.
    unfold idle in Hidle. congruence.
  - done.
  - intros j m dbm. rewrite lookup_insert. case_decide as E; [|by apply ci_state0].
    intros [= <- <-] Hl. subst. destruct (q_leader0 Hl) as [Hl' ->]. by eapply ci_state0.
Qed.

Lemma inv_voted ids c i n db n' db' t cand :
  cluster_inv ids c -> cl_nodes c !! i = Some (n, db) -> idle i c ->
  cand <> ""%string -> voted t cand n n' ->
  cluster_inv ids (add_votes [(i, t, cand)] (put_node i n' db' c)).
Proof.
  intros [] Hn Hidle Hcand [].
  assert (forall cand', (i, t, cand') ∈ cl_votes c -> cand' = cand) as Huniq.
  { intros cand' Hin. destruct (ci_vote0 _ _ _ Hin) as (Hc' & m & dbm & Hm & Hv).
    simplify_eq. destruct v_free0 as [?|[? [?|?]]], Hv as [?|[? ?]]; try lia; congruence. }
  constructor; simpl.
  - intros j m dbm. rewrite lookup_insert. case_decide as E; [|by apply ci_nodes0].
    intros [= <- <-]. subst. destruct (ci_nodes0 _ _ _ Hn) as (? & ? & ? & ? & ?).
    rewrite v_id0, v_peers0. split_and!; auto. destruct v_free0 as [?|[? _]]; lia.
  - intros v t' cand' [Heq|Hin]%elem_of_cons.
    + simplify_eq. split; [done|]. rewrite lookup_insert_eq. eauto 10.
    + destruct (ci_vote0 _ _ _ Hin) as (Hc & m & dbm & Hm & Hv).
      split; [done|]. rewrite lookup_insert. case_decide as E; [|by eauto].
      subst. simplify_eq. eexists _, _. split; [done|].
      destruct v_free0 as [?|[? [Hf|Hf]]], Hv as [?|[? ?]]; try (left; lia);
        right; split; congruence.
  - intros v t' c1 c2 [E1|H1]%elem_of_cons [E2|H2]%elem_of_cons; simplify_eq; [done|..].
    + symmetry. by apply Huniq.
    + by apply Huniq.
    + by eapply ci_once0.
  - intros j e He. destruct (ci_election0 j e He) as (m & dbm & V & Hm & ? & ? & ? & ? & ? & HV & ? & ?).
    exists m, dbm, V. rewrite lookup_insert_ne; last first.
    { intros <-. unfold idle in Hidle. congruence. }
    split_and!; try done.
    eapply voters_for_mono; [|exact HV]. simpl. intros x Hx. by right.
  - intros t' j Hin. destruct (ci_leader0 _ _ Hin) as (V & HV & ?).
    exists V. split; [|done]. eapply voters_for_mono; [|exact HV]. simpl. intros x Hx. by right.
  - intros j m dbm. rewrite lookup_insert. case_decide as E; [|by apply ci_state0].
    intros [= <- <-] Hl. subst. destruct (v_leader0 Hl) as [Hl' <-].
    by eapply ci_state0.
Qed.

Lemma inv_end_election ids c i :
  cluster_inv ids c -> cluster_inv ids (put_election i None c).
Proof.
  intros []. constructor; simpl; try done.
  intros j e He. apply lookup_delete_Some in He as [_ He]. by apply ci_election0.
Qed.

Lemma inv_handleRequestVote ids c i n db tm args r n' :
  cluster_inv ids c -> cl_nodes c !! i = Some (n, db) -> idle i c ->
  rv_candidateId args <> ""%string ->
  handleRequestVote tm args n = Some (r, n') ->
  cluster_inv ids (add_votes (granted_vote i args r) (put_node i n' db c)).
Proof.
  intros Hinv Hn Hi Hc Hr%handleRequestVote_vote. unfold granted_vote.
  destruct (rvr_voteGranted r).
  - by eapply inv_voted.
  - exact (inv_quiet _ _ _ _ _ _ _ Hinv Hn Hi Hr).
Qed.

Lemma vote_exchange_inv ids c c1 i p args reply :
  cluster_inv ids c -> vote_exchange p args c reply c1 -> p <> i ->
  rv_candidateId args <> ""%string ->
  cluster_inv ids c1 /\
  cl_nodes c1 !! i = cl_nodes c !! i /\ cl_elections c1 = cl_elections c /\
  (forall x, x ∈ cl_votes c -> x ∈ cl_votes c1) /\
  (forall r, reply = Some r -> rvr_voteGranted r = true ->
     (p, rv_term args, rv_candidateId args) ∈ cl_votes c1).
Proof.
  intros Hinv Hx Hne Hc. destruct Hx as [c|c np dbp tm r np' Hp Hidle Hr].
  { split_and!; naive_solver. }
  split_and!; simpl.
  - by eapply inv_handleRequestVote.
  - by rewrite lookup_insert_ne.
  - done.
  - intros x Hin. apply elem_of_app. by right.
  - intros r' [= <-] Hg. unfold granted_vote. rewrite Hg. by left.
Qed.
End cluster_invariant.

Section cluster_safety.
Context {D : Type} `{!KVStore D}.
Implicit Types c : cluster D.

Lemma inv_election_begin ids c i n db tm args :
  ""%string ∉ ids ->
  cluster_inv ids c -> cl_nodes c !! i = Some (n, db) -> idle i c ->
  m_state n <> Leader -> (m_currentTerm n < UINT64_MAX)%Z ->
  election_args (election_begin tm n) = Some args ->
  cluster_inv ids
    (add_votes [(i, rv_term args, i)]
       (put_election i (Some (mkElection args (m_peers n) 1))
          (put_node i (election_begin tm n) db c))).
Proof.
  intros Hids Hinv Hn Hi Hs Ht (e & _ & Ha)%bind_Some. simplify_eq.
  destruct (ci_nodes _ _ Hinv _ _ _ Hn) as (Hii & Hid & Hnd & Hp & H0).
  assert (m_currentTerm (election_begin tm n) = m_currentTerm n + 1)%Z as Hterm.
  { simpl. apply u64_small. unfold is_u64, UINT64_MAX in *. lia. }
  assert (voted (m_currentTerm n + 1) i n (election_begin tm n)) as Hv.
  { constructor; simpl in *; auto; [by left; lia|done]. }
  eapply (inv_voted _ _ _ _ _ _ db) in Hv; [|done..|by intros ->]. cbn [rv_term].
  rewrite Hterm. destruct Hv. constructor; try done.
  intros j el He. simpl in He. apply lookup_insert_Some in He as [[<- <-]|[Hne He]].
  - exists (election_begin tm n), db, [i]. simpl in *.
    rewrite lookup_insert_eq, Hterm. split_and!; try done.
    + intros p Hpe. apply (elem_of_list_to_set (C:=gset string)) in Hpe.
      rewrite Hp in Hpe. set_solver.
    + split; [apply NoDup_singleton|]. intros v ->%list_elem_of_singleton.
      split; [done|]. simpl. by left.
    + intros p Hpe ->%list_elem_of_singleton.
      apply (elem_of_list_to_set (C:=gset string)) in Hpe. rewrite Hp in Hpe. set_solver.
  - by apply ci_election0.
Qed.

(** The candidate's bookkeeping after one more reply. *)
Lemma inv_election_vote ids c c1 i n db args p rest votes reply votes' n' :
  ""%string ∉ ids ->
  cluster_inv ids c -> cl_nodes c !! i = Some (n, db) ->
  cl_elections c !! i = Some (mkElection args (p :: rest) votes) ->
  vote_exchange p args c reply c1 ->
  election_collect reply votes n = inl (votes', n') ->
  cluster_inv ids
    (put_election i (Some (mkElection args rest votes')) (put_node i n' db c1)).
Proof.
  intros Hids Hinv Hn He Hx Hc.
  destruct (ci_election _ _ Hinv _ _ He)
    as (m & dbm & V & Hm & Hs & Ht & Hcand & Hnd & Hrest & HV & Hlen & Hdis).
  simpl in *. rewrite Hn in Hm. injection Hm as <- <-.
  destruct (Hrest p) as [Hpi Hpne]; [by left|].
  destruct (ci_nodes _ _ Hinv _ _ _ Hn) as (Hii & _).
  destruct (vote_exchange_inv ids c c1 i p args reply Hinv Hx Hpne)
    as (Hinv1 & Hn1 & He1 & Hsub & Hgr); [by intros Heq; subst; rewrite Heq in Hii|].
  destruct (election_collect_continue _ _ _ _ _ Hc) as [-> Hvotes].
  rewrite Hn in Hn1. apply NoDup_cons in Hnd as [Hp Hnd].
  assert (put_node i n db c1 = c1) as ->.
  { unfold put_node. rewrite insert_id by done. by destruct c1. }
  destruct Hinv1. constructor; try done.
  intros j el Hel. simpl in Hel. apply lookup_insert_Some in Hel as [[<- <-]|[Hne Hel]].
  2: by apply ci_election0.
  destruct Hvotes as [->|[-> (r & -> & Hg)]].
  - exists n, db, V. simpl. split_and!; try done.
    + intros q Hq. apply Hrest. by right.
    + by eapply voters_for_mono.
    + intros q Hq. apply Hdis. by right.
  - exists n, db, (p :: V). simpl. split_and!; try done; [| |lia|].
    + intros q Hq. apply Hrest. by right.
    + destruct HV as [HV1 HV2]. split.
      * apply NoDup_cons. split; [apply Hdis; by left|done].
      * intros v [->|Hv]%elem_of_cons.
        { split; [done|]. rewrite <- Ht, <- Hcand. by apply (Hgr r). }
        destruct (HV2 v Hv). auto.
    + intros q Hq [->|Hv]%elem_of_cons; [done|]. by apply (Hdis q); [right|].
Qed.

Lemma inv_election_abort ids c c1 i n db args p rest votes reply n' :
  ""%string ∉ ids ->
  cluster_inv ids c -> cl_nodes c !! i = Some (n, db) ->
  cl_elections c !! i = Some (mkElection args (p :: rest) votes) ->
  vote_exchange p args c reply c1 ->
  election_collect reply votes n = inr n' ->
  cluster_inv ids (put_election i None (put_node i n' db c1)).
Proof.
  intros Hids Hinv Hn He Hx Hc.
  destruct (ci_election _ _ Hinv _ _ He)
    as (m & dbm & V & Hm & Hs & Ht & Hcand & Hnd & Hrest & _).
  simpl in *. rewrite Hn in Hm. injection Hm as <- <-.
  destruct (Hrest p) as [Hpi Hpne]; [by left|].
  destruct (ci_nodes _ _ Hinv _ _ _ Hn) as (Hii & _).
  destruct (vote_exchange_inv ids c c1 i p args reply Hinv Hx Hpne)
    as (Hinv1 & Hn1 & _); [by intros Heq; subst; rewrite Heq in Hii|].
  apply election_collect_abort in Hc as [Hq _].
  change (cluster_inv ids (put_node i n' db (put_election i None c1))).
  eapply inv_quiet; [by apply inv_end_election|by rewrite <- Hn, <- Hn1| |exact Hq].
  apply lookup_delete_eq.
Qed.

Lemma list_members_bound ids (V : list string) :
  NoDup V -> (forall v, v ∈ V -> v ∈ ids) -> length V <= size (ids : gset string).
Proof.
  intros Hnd Hin. rewrite <- (size_list_to_set (C:=gset string) V) by done.
  apply subseteq_size. intros v Hv%elem_of_list_to_set. auto.
Qed.

(** Two majorities of the members share a member. *)
Lemma quorums_meet (ids : gset string) V1 V2 :
  NoDup V1 -> NoDup V2 -> (forall v, v ∈ V1 -> v ∈ ids) -> (forall v, v ∈ V2 -> v ∈ ids) ->
  size ids / 2 + 1 <= length V1 -> size ids / 2 + 1 <= length V2 ->
  exists v, v ∈ V1 /\ v ∈ V2.
Proof.
  intros Hn1 Hn2 H1 H2 Hl1 Hl2.
  destruct (decide (Exists (fun v => v ∈ V2) V1)) as [Hex|Hne].
  { apply Exists_exists in Hex as (v & ? & ?). eauto. }
  exfalso. assert (length (V1 ++ V2) <= size ids) as Hlen.
  { apply list_members_bound.
    - apply NoDup_app. split_and!; [done| |done].
      intros v Hv Hv2. apply Hne, Exists_exists. eauto.
    - intros v [?|?]%elem_of_app; auto. }
  rewrite length_app in Hlen.
  pose proof (Nat.div_mod_eq (size ids) 2). pose proof (Nat.mod_upper_bound (size ids) 2). lia.
Qed.

(** [majority] counts the cluster: the peers and the node itself. *)
Lemma majority_members ids c i n db :
  cluster_inv ids c -> cl_nodes c !! i = Some (n, db) ->
  majority n = Z.of_nat (size ids / 2 + 1).
Proof.
  intros Hinv Hn. destruct (ci_nodes _ _ Hinv _ _ _ Hn) as (Hi & _ & Hnd & Hp & _).
  assert (length (m_peers n) + 1 = size ids) as Hlen.
  { rewrite <- (size_list_to_set (C:=gset string) (m_peers n)) by done. rewrite Hp.
    rewrite size_difference, size_singleton by set_solver.
    assert (size ids <> 0) by (apply size_non_empty_iff; set_solver). lia. }
  unfold majority, vec_size. rewrite <- Hlen, Nat2Z.inj_add, Nat2Z.inj_div. lia.
Qed.

Lemma inv_election_finish ids c i n db args votes :
  cluster_inv ids c -> cl_nodes c !! i = Some (n, db) ->
  cl_elections c !! i = Some (mkElection args [] votes) ->
  cluster_inv ids
    (add_leaders (elected i (election_finish votes n))
       (put_election i None (put_node i (election_finish votes n) db c))).
Proof.
  intros Hinv Hn He.
  pose proof (majority_members _ _ _ _ _ Hinv Hn) as Hmaj.
  destruct (ci_election _ _ Hinv _ _ He)
    as (m & dbm & V & Hm & Hs & Ht & Hcand & _ & _ & HV & Hlen & _).
  simpl in *. rewrite Hn in Hm. injection Hm as <- <-.
  destruct (election_finish_frame votes n) as (Eid & Epeers & Eterm & Evote).
  pose proof (inv_end_election _ _ i Hinv) as Hinv1.
  destruct (decide (m_state (election_finish votes n) = Leader)) as [Hl|Hl].
  2: { unfold elected. rewrite bool_decide_false by done.
       exact (inv_quiet _ (put_election i None c) i n db _ db Hinv1 Hn (lookup_delete_eq _ _)
               (mk_quiet _ _ Eid Epeers (or_introl (conj Eterm Evote)) (fun H => False_ind _ (Hl H)))). }
  apply election_finish_leader in Hl as Hvotes; [|done].
  unfold elected. rewrite bool_decide_true by done. rewrite Eterm.
  destruct Hinv1. constructor; simpl in *.
  - intros j k dbk. rewrite lookup_insert. case_decide as E; [|by apply ci_nodes0].
    intros [= <- <-]. subst. rewrite Eid, Epeers, Eterm. by eapply ci_nodes0.
  - intros v t cand Hin. destruct (ci_vote0 _ _ _ Hin) as (? & k & dbk & Hk & Hv).
    split; [done|]. rewrite lookup_insert. case_decide as E; [|by eauto].
    subst. simplify_eq. eexists _, _. split; [done|]. by rewrite Eterm, Evote.
  - done.
  - intros j e Hj. destruct (ci_election0 j e Hj) as (k & dbk & U & Hk & ?).
    exists k, dbk, U. rewrite lookup_insert_ne; [done|]. intros <-.
    by rewrite lookup_delete_eq in Hj.
  - intros t j [Heq|Hin]%elem_of_cons; [|by apply ci_leader0].
    simplify_eq. exists V. split; [done|]. lia.
  - intros j k dbk. rewrite lookup_insert. case_decide as E.
    + intros [= <- <-] _. subst. rewrite Eterm. by left.
    + intros Hk Hlk. right. by eapply ci_state0.
Qed.

Lemma inv_step sent ids c c' :
  ""%string ∉ ids -> cluster_inv ids c -> cluster_step_of sent c c' -> cluster_inv ids c'.
Proof.
  intros Hids Hinv Hstep. destruct Hstep.
  - by eapply inv_handleRequestVote.
  - eapply inv_quiet; [done..|]. by eapply handleAppendEntries_quiet.
  - eapply inv_quiet; [done..|]. by eapply submitLog_quiet.
  - eapply inv_quiet; [done..|]. eapply quiet_trans.
    + by eapply heartbeat_args_quiet.
    + by eapply heartbeat_reply_quiet.
  - by eapply inv_election_begin.
  - by eapply inv_election_vote.
  - by eapply inv_election_abort.
  - by eapply inv_election_finish.
Qed.

Lemma inv_init ids c : cluster_init ids c -> cluster_inv ids c.
Proof.
  intros (He & Hv & Hl & Hd & Hn). constructor.
  - intros i n db Hi. destruct (Hn _ _ _ Hi) as (tm & peers & addrs & -> & ? & ?). simpl.
    split_and!; try done. rewrite <- Hd. apply elem_of_dom. eauto.
  - rewrite Hv. by intros v t cand ?%elem_of_nil.
  - rewrite Hv. by intros v t cand cand' ?%elem_of_nil.
  - rewrite He. intros i e. by rewrite lookup_empty.
  - rewrite Hl. by intros t i ?%elem_of_nil.
  - intros i n db Hi. by destruct (Hn _ _ _ Hi) as (tm & peers & addrs & -> & ?).
Qed.

Lemma inv_reach sent ids c :
  ""%string ∉ ids -> cluster_reach_of sent ids c -> cluster_inv ids c.
Proof. intros Hids. induction 1; [by apply inv_init|by eapply inv_step]. Qed.

Lemma inv_leader_unique ids c t i j :
  cluster_inv ids c -> (t, i) ∈ cl_leaders c -> (t, j) ∈ cl_leaders c -> i = j.
Proof.
  intros Hinv Hi Hj.
  destruct (ci_leader _ _ Hinv _ _ Hi) as (V1 & [Hn1 H1] & Hl1).
  destruct (ci_leader _ _ Hinv _ _ Hj) as (V2 & [Hn2 H2] & Hl2).
  destruct (quorums_meet ids V1 V2) as (v & Hv1 & Hv2); [naive_solver..|].
  destruct (H1 v Hv1) as [_ Hvi]. destruct (H2 v Hv2) as [_ Hvj].
  by eapply (ci_once _ _ Hinv).
Qed.
End cluster_safety.
