(* ===== verification/RaftElection.v ===== *)
(** * Elections: safety, and [startElection] as a run of the cluster

    The theorems about votes and leaders of src/raft/RaftNode.cpp.  The
    big-step function [startElection] (one call, its RPC loop inside) is run
    over the cluster itself: [cluster_transport] delivers each request to the
    peer's [handleRequestVote].  The call is then a sequence of the small steps
    of [RaftCluster], so the safety theorem of the cluster is about the code's
    own [startElection]. *)
From S2P Require Import Prelude RaftTypes RaftNode RaftLog RaftInv RaftCluster.

(** ** The cluster as a transport *)

(** A cluster and, for each coming exchange, whether it takes place ([Some],
    with the peer's clock) or fails. *)
Definition cluster_world (D : Type) : Type := cluster D * list (option Timer).

Section transport.
Context {D : Type} `{!KVStore D} {sent : AppendEntriesArgs -> Prop}.

Definition deliver_request_vote (p : string) (args : RequestVoteArgs)
    (w : cluster_world D) : option RequestVoteReply * cluster_world D :=
  let '(c, sched) := w in
  match sched with
  | Some tm :: rest =>
      match cl_nodes c !! p, cl_elections c !! p with
      | Some (np, dbp), None =>
          match handleRequestVote tm args np with
          | Some (r, np') =>
              (Some r, (add_votes (granted_vote p args r) (put_node p np' dbp c), rest))
          | None => (None, (c, rest))
          end
      | _, _ => (None, (c, rest))
      end
  | None :: rest => (None, (c, rest))
  | [] => (None, (c, []))
  end.

Definition deliver_append_entries (p : string) (args : AppendEntriesArgs)
    (w : cluster_world D) : option AppendEntriesReply * cluster_world D :=
  let '(c, sched) := w in
  match sched with
  | Some tm :: rest =>
      match cl_nodes c !! p, cl_elections c !! p with
      | Some (np, dbp), None =>
          match handleAppendEntries tm args np dbp with
          | Some (r, np', dbp') => (Some r, (put_node p np' dbp' c, rest))
          | None => (None, (c, rest))
          end
      | _, _ => (None, (c, rest))
      end
  | None :: rest => (None, (c, rest))
  | [] => (None, (c, []))
  end.

#[export] Instance cluster_transport : RaftTransport (cluster_world D) := {|
  rpc_request_vote p _ _ args w := deliver_request_vote p args w;
  rpc_append_entries p _ _ args w := deliver_append_entries p args w;
|}.

Lemma deliver_exchange p args w reply w' :
  deliver_request_vote p args w = (reply, w') -> vote_exchange p args w.1 reply w'.1.
Proof.
  destruct w as [c [|[tm|] sched]]; simpl; [intros [= <- <-]; constructor| |intros [= <- <-]; constructor].
  destruct (cl_nodes c !! p) as [[np dbp]|] eqn:En; [|intros [= <- <-]; constructor].
  destruct (cl_elections c !! p) eqn:Ee; [intros [= <- <-]; constructor|].
  destruct (handleRequestVote tm args np) as [[r np']|] eqn:Eh;
    intros [= <- <-]; [|constructor]. by eapply exchange_reply.
Qed.

Lemma send_exchange n p args (w : cluster_world D) reply w' :
  sendRequestVote n p args w = (reply, w') -> vote_exchange p args w.1 reply w'.1.
Proof.
  unfold sendRequestVote. destruct (m_peerAddresses n !! p) as [[h port]|].
  - apply deliver_exchange.
  - intros [= <- <-]. constructor.
Qed.

(** An exchange with another node does not see the candidate's own entry. *)
Lemma exchange_put_election i e p args (c c1 : cluster D) reply :
  vote_exchange p args c reply c1 -> p <> i ->
  vote_exchange p args (put_election i (Some e) c) reply (put_election i (Some e) c1).
Proof.
  intros [|c' np dbp tm r np' Hp Hi Hr] Hne; [constructor|].
  change (put_election i (Some e) (add_votes (granted_vote p args r) (put_node p np' dbp c')))
    with (add_votes (granted_vote p args r) (put_node p np' dbp (put_election i (Some e) c'))).
  apply (exchange_reply p args (put_election i (Some e) c') np dbp tm r np'); [done| |done].
  unfold idle. simpl. by rewrite lookup_insert_ne.
Qed.

Lemma exchange_node p args (c c1 : cluster D) reply i :
  vote_exchange p args c reply c1 -> p <> i -> cl_nodes c1 !! i = cl_nodes c !! i.
Proof. intros [|] Hne; [done|]. simpl. by rewrite lookup_insert_ne. Qed.

Lemma put_election_twice i e e' (c : cluster D) :
  put_election i (Some e) (put_election i (Some e') c) = put_election i (Some e) c.
Proof. unfold put_election. simpl. by rewrite insert_insert_eq. Qed.

Lemma put_election_end i e (c : cluster D) :
  put_election i None (put_election i (Some e) c) = put_election i None c.
Proof. unfold put_election. simpl. by rewrite delete_insert_eq. Qed.

Lemma put_node_same i n db (c : cluster D) :
  cl_nodes c !! i = Some (n, db) -> put_node i n db c = c.
Proof. intros H. unfold put_node. rewrite insert_id by done. by destruct c. Qed.

(** The loop of [startElection] is a run of election steps. *)
Lemma election_loop_run args i rest votes n db (w : cluster_world D) :
  cl_nodes w.1 !! i = Some (n, db) -> i ∉ rest ->
  let c0 := put_election i (Some (mkElection args rest votes)) w.1 in
  match election_loop args rest votes n w with
  | (inl (votes', n'), w') =>
      n' = n /\ cl_nodes w'.1 !! i = Some (n, db) /\
      rtc (cluster_step_of sent) c0 (put_election i (Some (mkElection args [] votes')) w'.1)
  | (inr n', w') =>
      m_state n' = Follower /\
      rtc (cluster_step_of sent) c0 (put_election i None (put_node i n' db w'.1))
  end.
Proof.
  revert votes w. induction rest as [|p rest IH]; intros votes w Hn Hi; simpl.
  { split_and!; try done. }
  destruct (sendRequestVote n p args w) as [reply w1] eqn:Es.
  apply send_exchange in Es. apply not_elem_of_cons in Hi as [Hip Hi].
  pose proof (exchange_put_election i (mkElection args (p :: rest) votes) _ _ _ _ _
                Es (not_eq_sym Hip)) as Hx.
  pose proof (exchange_node _ _ _ _ _ i Es (not_eq_sym Hip)) as Hn1. rewrite Hn in Hn1.
  destruct (election_collect reply votes n) as [[v1 n1]|n1] eqn:Ec.
  - destruct (election_collect_continue _ _ _ _ _ Ec) as [-> _].
    pose proof (IH v1 w1 Hn1 Hi) as Hrun. cbn zeta in Hrun.
    assert (cluster_step_of sent (put_election i (Some (mkElection args (p :: rest) votes)) w.1)
              (put_election i (Some (mkElection args rest v1)) w1.1)) as Hstep.
    { pose proof (step_election_vote (sent := sent) _ _ i n db args p rest votes reply v1 n
        (Hn : cl_nodes (put_election i (Some (mkElection args (p :: rest) votes)) w.1) !! i = _)
        (lookup_insert_eq _ _ _) Hx Ec) as Hst.
      rewrite put_node_same in Hst by done. by rewrite put_election_twice in Hst. }
    destruct (election_loop args rest v1 n w1) as [[[v2 n2]|n2] w2].
    + destruct Hrun as (-> & ? & Hrun). split_and!; try done. by eapply rtc_l.
    + destruct Hrun as [? Hrun]. split; [done|]. by eapply rtc_l.
  - split; [by eapply election_collect_abort|]. eapply rtc_l; [|apply rtc_refl].
    pose proof (step_election_abort (sent := sent) _ _ i n db args p rest votes reply n1
        (Hn : cl_nodes (put_election i (Some (mkElection args (p :: rest) votes)) w.1) !! i = _)
        (lookup_insert_eq _ _ _) Hx Ec) as Hst.
    change (put_node i n1 db (put_election i ?e w1.1))
      with (put_election i e (put_node i n1 db w1.1)) in Hst.
    by rewrite put_election_end in Hst.
Qed.

(** The cluster when [i]'s call of [startElection] has set up its candidacy. *)
Definition candidacy (i : string) (n : RaftNode) (db : D) (tm : Timer) (c : cluster D)
  : cluster D :=
  add_votes [(i, u64 (m_currentTerm n + 1), i)] (put_node i (election_begin tm n) db c).

(** The cluster when the call has returned the node [n']. *)
Definition election_over (i : string) (n' : RaftNode) (db : D) (c : cluster D) : cluster D :=
  add_leaders (elected i n') (put_election i None (put_node i n' db c)).

Lemma startElection_steps tm i n db c sched n' c' sched' :
  cl_nodes c !! i = Some (n, db) -> idle i c -> m_nodeId n = i -> i ∉ m_peers n ->
  m_state n <> Leader -> (m_currentTerm n < UINT64_MAX)%Z ->
  startElection tm n ((candidacy i n db tm c, sched) : cluster_world D)
  = Some (n', (c', sched')) ->
  rtc (cluster_step_of sent) c (election_over i n' db c').
Proof.
  intros Hn Hidle Hid Hi Hs Ht. unfold startElection.
  destruct (election_args (election_begin tm n)) as [args|] eqn:Ea; [|done].
  intros H. simpl in H. injection H as H.
  assert (rv_term args = u64 (m_currentTerm n + 1)) as Hat.
  { unfold election_args in Ea. apply bind_Some in Ea as (e & _ & Ea). by simplify_eq. }
  pose proof (step_election_begin (sent := sent) c i n db tm args Hn Hidle Hs Ht Ea) as Hbegin.
  rewrite Hat in Hbegin.
  pose proof (election_loop_run args i (m_peers n) 1 (election_begin tm n) db
    (candidacy i n db tm c, sched)
    (lookup_insert_eq _ _ _) Hi) as Hrun. cbn zeta in Hrun.
  change (add_votes [(i, u64 (m_currentTerm n + 1), i)] (put_election i ?e (put_node i (election_begin tm n) db c)))
    with (put_election i e (candidacy i n db tm c)) in Hbegin.
  eapply rtc_l; [exact Hbegin|]. cbn [fst] in Hrun.
  destruct (election_loop _ _ _ _ _) as [[[v n2]|n2] [c2 s2]]; simplify_eq; simpl in Hrun.
  - destruct Hrun as (-> & Hn2 & Hrun). eapply rtc_r; [exact Hrun|].
    pose proof (step_election_finish (sent := sent)
      (put_election (m_nodeId n) (Some (mkElection args [] v)) c') _ _ db args v Hn2
      (lookup_insert_eq _ _ _)) as Hst.
    unfold election_over.
    change (put_node ?i ?a ?b (put_election ?i ?e ?c))
      with (put_election i e (put_node i a b c)) in Hst.
    by rewrite put_election_end in Hst.
  - destruct Hrun as [Hf Hrun]. unfold election_over, elected.
    rewrite bool_decide_false by congruence. exact Hrun.
Qed.

Lemma reach_steps (ids : gset string) (c c' : cluster D) :
  cluster_reach_of sent ids c -> rtc (cluster_step_of sent) c c' -> cluster_reach_of sent ids c'.
Proof. intros Hr Hrun. revert Hr. induction Hrun; eauto using cluster_reach_step. Qed.

(** [i] runs [electionLoop]'s call of [startElection], executable. *)
Definition op_elect (i : string) (tm : Timer) (sched : list (option Timer))
    (c : cluster D) : option (cluster D) :=
  '(n, db) ← cl_nodes c !! i;
  if bool_decide (cl_elections c !! i = None /\ m_state n <> Leader /\
                  (m_currentTerm n < UINT64_MAX)%Z)
  then '(n', (c', _)) ← startElection tm n ((candidacy i n db tm c, sched) : cluster_world D);
       Some (election_over i n' db c')
  else None.

(** [i] accepts a client's entry. *)
Definition op_submit (i k v : string) (c : cluster D) : option (cluster D) :=
  '(n, db) ← cl_nodes c !! i;
  if bool_decide (cl_elections c !! i = None)
  then '(_, n') ← submitLog k v n; Some (put_node i n' db c)
  else None.

(** [i] runs one turn of [heartbeatLoop]. *)
Definition op_heartbeat (i : string) (sched : list (option Timer)) (c : cluster D)
  : option (cluster D) :=
  '(n, db) ← cl_nodes c !! i;
  if bool_decide (cl_elections c !! i = None)
  then '(n', db', (c', _)) ← heartbeatLoop_turn n db ((c, sched) : cluster_world D);
       Some (put_node i n' db' c')
  else None.

Lemma op_elect_reach ids i tm sched c c' :
  ""%string ∉ ids -> cluster_reach_of sent ids c -> op_elect i tm sched c = Some c' ->
  cluster_reach_of sent ids c'.
Proof.
  intros Hids Hr. unfold op_elect. intros ([n db] & Hn & H)%bind_Some.
  case_bool_decide as Hc; [|done]. destruct Hc as (Hidle & Hs & Ht).
  apply bind_Some in H as ([n' [c1 s1]] & He & H). simplify_eq.
  destruct (ci_nodes _ _ (inv_reach _ _ _ Hids Hr) _ _ _ Hn) as (_ & Hid & _ & Hp & _).
  eapply reach_steps; [done|]. eapply startElection_steps; [done..| |done|done|done].
  intros Hi. apply (elem_of_list_to_set (C:=gset string)) in Hi. rewrite Hp in Hi. set_solver.
Qed.

Lemma op_submit_reach ids i k v c c' :
  cluster_reach_of sent ids c -> op_submit i k v c = Some c' -> cluster_reach_of sent ids c'.
Proof.
  intros Hr. unfold op_submit. intros ([n db] & Hn & H)%bind_Some.
  case_bool_decide as Hi; [|done]. apply bind_Some in H as ([b n'] & Hs & H). simplify_eq.
  eapply cluster_reach_step; [done|]. by eapply step_submit.
Qed.
End transport.

(** ** Votes of one node *)

(** The candidate's log is at least as recent as the node's. *)
Definition up_to_date (args : RequestVoteArgs) (n : RaftNode) : Prop :=
  exists back, last (m_logs n) = Some back /\
    ((le_term back < rv_lastLogTerm args)%Z \/
     (rv_lastLogTerm args = le_term back /\ (le_index back <= rv_lastLogIndex args)%Z)).

(** From here on, a vote of the node in term [t] is a vote for [cand]. *)
Definition bound_to (t : Z) (cand : string) (n : RaftNode) : Prop :=
  (t < m_currentTerm n)%Z \/ (t = m_currentTerm n /\ m_votedFor n = cand).

Lemma bound_to_quiet t cand n n' : bound_to t cand n -> quiet n n' -> bound_to t cand n'.
Proof.
  unfold bound_to. intros Hb [_ _ Hv _]. destruct Hb as [?|[? ?]], Hv as [[-> ->]|?];
    auto; left; lia.
Qed.

Lemma bound_to_voted t cand t' cand' n n' :
  cand <> ""%string -> bound_to t cand n -> voted t' cand' n n' -> bound_to t cand n'.
Proof.
  unfold bound_to. intros Hc Hb [_ _ <- <- Hf _].
  destruct Hb as [?|[-> ?]], Hf as [?|[? [?|?]]]; try (left; lia); right; split; congruence.
Qed.

Lemma bound_to_same t cand n n' :
  m_currentTerm n' = m_currentTerm n -> m_votedFor n' = m_votedFor n ->
  bound_to t cand n -> bound_to t cand n'.
Proof. unfold bound_to. by intros -> ->. Qed.

Section bound_ops.
Context {D : Type} `{!KVStore D} {W : Type} `{!RaftTransport W}.

Lemma election_loop_bound t cand args peers votes n w :
  bound_to t cand n ->
  match (election_loop args peers votes n w).1 with
  | inl (_, n') | inr n' => bound_to t cand n'
  end.
Proof.
  revert votes w. induction peers as [|p ps IH]; intros votes w Hb; simpl; [done|].
  destruct (sendRequestVote n p args w) as [reply w1].
  destruct (election_collect reply votes n) as [[v1 n1]|n1] eqn:Ec.
  - destruct (election_collect_continue _ _ _ _ _ Ec) as [-> _]. by apply IH.
  - eapply bound_to_quiet; [exact Hb|]. by eapply election_collect_abort.
Qed.

Lemma electionLoop_turn_bound t cand tm n w n' w' :
  (0 <= m_currentTerm n < UINT64_MAX)%Z ->
  bound_to t cand n -> electionLoop_turn tm n w = Some (n', w') -> bound_to t cand n'.
Proof.
  intros Ht Hb. unfold electionLoop_turn. case_match; [|by intros [= <- <-]].
  unfold startElection. intros (args & _ & Hrun)%bind_Some. simplify_eq.
  assert (bound_to t cand (election_begin tm n)) as Hb1.
  { left. simpl. rewrite u64_small by (unfold is_u64, UINT64_MAX in *; lia).
    destruct Hb as [?|[? _]]; lia. }
  pose proof (election_loop_bound t cand args (m_peers (election_begin tm n)) 1 _ w Hb1) as Hl.
  destruct (election_loop _ _ _ _ _) as [[[v n2]|n2] w2]; simpl in *; simplify_eq; [|done].
  destruct (election_finish_frame v n2) as (_ & _ & E1 & E2). by eapply bound_to_same.
Qed.

Lemma heartbeat_peers_quiet ps n (db : D) w n' db' w' :
  heartbeat_peers ps n db w = Some (n', db', w') -> quiet n n'.
Proof.
  revert n db w. induction ps as [|p ps IH]; intros n db w; simpl.
  { intros [= <- _ _]. apply quiet_refl. }
  intros ([[[brk n1] db1] w1] & Hp & H)%bind_Some.
  unfold heartbeat_peer in Hp. apply bind_Some in Hp as ([[[args nx] es] n0] & Ha & Hp).
  destruct (sendAppendEntries n0 p args w) as [reply w0].
  apply bind_Some in Hp as ([[brk' n2] db2] & Hr & Hp). simplify_eq.
  apply heartbeat_args_quiet in Ha. apply heartbeat_reply_quiet in Hr.
  assert (quiet n n1) by (by eapply quiet_trans).
  destruct brk; [by simplify_eq|]. eapply quiet_trans; [done|]. by eapply IH.
Qed.

Lemma node_step_bound t cand ev n (db : D) w n' db' w' :
  cand <> ""%string -> raft_wf n -> event_ok ev n ->
  node_step ev n db w = Some (n', db', w') -> bound_to t cand n -> bound_to t cand n'.
Proof.
  intros Hc Hwf Hok Hs Hb. destruct ev; simpl in Hs, Hok.
  - simplify_eq. unfold start. by destruct (m_running n).
  - simplify_eq. unfold stop. by destruct (negb (m_running n)).
  - by simplify_eq.
  - apply bind_Some in Hs as ([r n1] & Hh & Hs). simplify_eq.
    apply handleRequestVote_vote in Hh. destruct (rvr_voteGranted r).
    + by eapply bound_to_voted.
    + by eapply bound_to_quiet.
  - apply bind_Some in Hs as ([[r n1] db1] & Hh & Hs). simplify_eq.
    eapply bound_to_quiet; [done|]. by eapply handleAppendEntries_quiet.
  - apply bind_Some in Hs as ([r n1] & Hh & Hs). simplify_eq.
    eapply bound_to_quiet; [done|]. by eapply submitLog_quiet.
  - apply bind_Some in Hs as ([n1 w1] & Hh & Hs). simplify_eq.
    eapply electionLoop_turn_bound; [|done..].
    pose proof (wf_term _ Hwf) as [? _]. lia.
  - eapply bound_to_quiet; [done|]. unfold heartbeatLoop_turn in Hs.
    case_match; [by eapply heartbeat_peers_quiet|simplify_eq; apply quiet_refl].
Qed.

(** Runs of a node: any number of events after a given state. *)
Definition node_step_rel (s s' : RaftNode * D * W) : Prop :=
  exists ev, event_ok ev s.1.1 /\ node_step ev s.1.1 s.1.2 s.2 = Some s'.

Lemma node_run_bound `{!TransportRange W} t cand (s s' : RaftNode * D * W) :
  cand <> ""%string -> raft_wf s.1.1 -> rtc node_step_rel s s' ->
  bound_to t cand s.1.1 -> bound_to t cand s'.1.1 /\ raft_wf s'.1.1.
Proof.
  intros Hc Hwf Hrun Hb. induction Hrun as [|s s1 s2 (ev & Hok & Hs) _ IH]; [done|].
  destruct s as [[n db] w], s1 as [[n1 db1] w1]. simpl in *.
  destruct (wf_node_step ev n db w Hwf Hok) as (n2 & db2 & w2 & Hs' & Hwf1).
  rewrite Hs in Hs'. injection Hs' as -> -> ->.
  apply IH; [done|]. exact (node_step_bound _ _ _ _ _ _ _ _ _ Hc Hwf Hok Hs Hb).
Qed.
End bound_ops.

(** ** A concrete three-node cluster for the witnesses *)
Module Example3.

#[export] Instance unit_store : KVStore unit := {| kv_put _ _ db := (true, db) |}.

#[export] Instance map_store : KVStore (gmap string string) :=
  {| kv_put k v db := (true, <[k := v]> db) |}.

#[export] Instance unit_transport : RaftTransport unit := {|
  rpc_request_vote _ _ _ _ w := (None, w);
  rpc_append_entries _ _ _ _ w := (None, w);
|}.

#[export] Instance unit_transport_range : TransportRange unit.
Proof. constructor; discriminate. Qed.

Definition tm : Timer := mkTimer 1000 200.

Definition addrs : gmap string (string * Z) :=
  {[ "a" := ("10.0.0.1", 8080%Z); "b" := ("10.0.0.2", 8080%Z); "c" := ("10.0.0.3", 8080%Z) ]}.

Definition node (id : string) (peers : list string) : RaftNode :=
  set_peerAddresses addrs (RaftNode_new id peers tm).

Definition ids : gset string := {[ "a"; "b"; "c" ]}.

Section with_store.
Context {D : Type} `{!KVStore D} (db0 : D).

(** The cluster as the constructors leave it. *)
Definition fresh : cluster D :=
  mkCluster {[ "a" := (node "a" ["b"; "c"], db0);
               "b" := (node "b" ["a"; "c"], db0);
               "c" := (node "c" ["a"; "b"], db0) ]} ∅ [] [].

Lemma fresh_init : cluster_init ids fresh.
Proof.
  split_and!; try done.
  intros i n db Hi. exists tm. cbn [cl_nodes fresh] in Hi.
  repeat (apply lookup_insert_Some in Hi as [[<- Hi]|[? Hi]]);
    [..|apply lookup_singleton_Some in Hi as [<- Hi]]; simplify_eq; eexists _, _;
    (split; [reflexivity|]); (split; [|vm_compute; reflexivity]);
    repeat (apply NoDup_cons; split; [set_solver|]); apply NoDup_nil_2.
Qed.

Lemma fresh_reach sent : cluster_reach_of sent ids fresh.
Proof. apply cluster_reach_init, fresh_init. Qed.
End with_store.

(** [a] has won term 1 with the vote of [b]; the exchange with [c] failed. *)
Definition a_elected : cluster unit :=
  default (fresh tt) (op_elect "a" tm [Some tm; None] (fresh tt)).

Lemma ids_ok : ""%string ∉ ids.
Proof. vm_compute. set_solver. Qed.

Lemma a_elected_reach sent : cluster_reach_of sent ids a_elected.
Proof.
  apply (op_elect_reach ids "a" tm [Some tm; None] (fresh tt)).
  - apply ids_ok.
  - apply fresh_reach.
  - vm_compute. reflexivity.
Qed.
End Example3.

(** ** The theorems *)

(** C2. Election safety: whatever requests arrive, in whatever order the nodes
    act, and whichever exchanges fail, no two members ever become leader of the
    same term; in particular two current leaders of one term are one node.  Here a reply
    that is counted is the reply to the request it is counted for; over the connection pool it
    need not be ([RaftStale]). *)
Theorem election_safety {D : Type} `{!KVStore D} sent (ids : gset string) (c : cluster D) :
  ""%string ∉ ids -> cluster_reach_of sent ids c ->
  (forall t i j, (t, i) ∈ cl_leaders c -> (t, j) ∈ cl_leaders c -> i = j) /\
  (forall i j ni nj dbi dbj,
     cl_nodes c !! i = Some (ni, dbi) -> cl_nodes c !! j = Some (nj, dbj) ->
     m_state ni = Leader -> m_state nj = Leader ->
     m_currentTerm ni = m_currentTerm nj -> i = j).
Proof.
  intros Hids Hr. pose proof (inv_reach _ _ _ Hids Hr) as Hinv. split.
  - intros t i j. by apply inv_leader_unique with ids.
  - intros i j ni nj dbi dbj Hi Hj Hli Hlj Ht.
    apply (inv_leader_unique ids c (m_currentTerm ni)); [done|..].
    + by eapply ci_state.
    + rewrite Ht. by eapply ci_state.
Qed.

(** C5. [startElection] run against the peers' own [handleRequestVote] (each
    exchange taking place or failing by a schedule) is a run of the cluster's
    small steps that ends with the node it returned. *)
Theorem startElection_refines {D : Type} `{!KVStore D} sent (ids : gset string) (c : cluster D)
    tm i n db sched n' c' sched' :
  ""%string ∉ ids -> cluster_reach_of sent ids c ->
  cl_nodes c !! i = Some (n, db) -> cl_elections c !! i = None ->
  m_state n <> Leader -> (m_currentTerm n < UINT64_MAX)%Z ->
  startElection tm n ((candidacy i n db tm c, sched) : cluster_world D)
  = Some (n', (c', sched')) ->
  cluster_reach_of sent ids (election_over i n' db c').
Proof.
  intros Hids Hr Hn Hidle Hs Ht He.
  destruct (ci_nodes _ _ (inv_reach _ _ _ Hids Hr) _ _ _ Hn) as (_ & Hid & _ & Hp & _).
  assert (i ∉ m_peers n) as Hi.
  { intros Hi. apply (elem_of_list_to_set (C:=gset string)) in Hi. rewrite Hp in Hi. set_solver. }
  eapply reach_steps; [done|]. by eapply startElection_steps.
Qed.

(** C7. One vote per term: after a node granted its vote in a term, no later
    request of that term by another candidate is granted, whatever the node
    does in between (handlers, elections, heartbeats, in any order). *)
Theorem one_vote_per_term {D : Type} `{!KVStore D} {W : Type} `{!RaftTransport W, !TransportRange W}
    tm1 tm2 a1 a2 n (n1 n2 n3 : RaftNode) r1 r2 (db1 db2 : D) (w1 w2 : W) :
  raft_wf n -> rv_args_ok a1 -> rv_candidateId a1 <> ""%string ->
  handleRequestVote tm1 a1 n = Some (r1, n1) -> rvr_voteGranted r1 = true ->
  rtc node_step_rel (n1, db1, w1) (n2, db2, w2) ->
  handleRequestVote tm2 a2 n2 = Some (r2, n3) -> rvr_voteGranted r2 = true ->
  rv_term a2 = rv_term a1 -> rv_candidateId a2 = rv_candidateId a1.
Proof.
  intros Hwf Ha Hc H1 Hg1 Hrun H2 Hg2 Ht.
  destruct (wf_handleRequestVote tm1 a1 n Hwf Ha) as (? & ? & H1' & Hwf1).
  rewrite H1 in H1'. injection H1' as <- <-.
  apply handleRequestVote_vote in H1. rewrite Hg1 in H1. destruct H1 as [_ _ Et1 Ev1 _ _].
  destruct (node_run_bound (rv_term a1) (rv_candidateId a1) (n1, db1, w1) (n2, db2, w2)
              Hc Hwf1 Hrun) as [Hb _]; [by right|].
  apply handleRequestVote_vote in H2. rewrite Hg2 in H2. destruct H2 as [_ _ _ _ Hf _].
  simpl in Hb. destruct Hb as [?|[? ?]], Hf as [?|[? [?|?]]]; try lia; congruence.
Qed.

(** [handleRequestVote], on every branch: a vote is granted exactly when
    the request is not stale, the candidate's log is up to date and the node is
    free to vote for it in the request's term; a larger term makes the node a
    follower of that term; the reply carries the resulting term; only a granted
    vote restarts the election timer; logs and indices are untouched. *)
Theorem handleRequestVote_spec tm args n :
  raft_wf n -> rv_args_ok args ->
  exists r n', handleRequestVote tm args n = Some (r, n') /\
    (rvr_voteGranted r = true <->
       (m_currentTerm n <= rv_term args)%Z /\ up_to_date args n /\
       ((m_currentTerm n < rv_term args)%Z \/ m_votedFor n = ""%string \/
        m_votedFor n = rv_candidateId args)) /\
    rvr_term r = m_currentTerm n' /\
    m_currentTerm n' = Z.max (m_currentTerm n) (rv_term args) /\
    m_votedFor n' = (if rvr_voteGranted r then rv_candidateId args
                     else if decide (m_currentTerm n < rv_term args)%Z then ""%string
                     else m_votedFor n) /\
    m_state n' = (if decide (m_currentTerm n < rv_term args)%Z then Follower else m_state n) /\
    (m_lastHeartbeatTime n', m_electionTimeoutMs n')
      = (if rvr_voteGranted r then (tm_now tm, tm_draw tm)
         else (m_lastHeartbeatTime n, m_electionTimeoutMs n)) /\
    (m_logs n', m_commitIndex n', m_lastApplied n', m_nextIndex n', m_matchIndex n')
      = (m_logs n, m_commitIndex n, m_lastApplied n, m_nextIndex n, m_matchIndex n).
Proof.
  intros Hwf Hok. unfold handleRequestVote, up_to_date.
  destruct (log_wf_last _ (wf_log _ Hwf)) as (e & He & _).
  destruct (rv_term args <? m_currentTerm n)%Z eqn:E1.
  { bool_to_prop. eexists _, _. split; [done|]. simpl.
    rewrite !decide_False by lia. split_and!; try done; [split; [done|lia]|lia]. }
  bool_to_prop.
  set (ok := ((le_term e <? rv_lastLogTerm args)%Z ||
              ((rv_lastLogTerm args =? le_term e)%Z && (le_index e <=? rv_lastLogIndex args)%Z))).
  assert (ok = true <-> exists back, last (m_logs n) = Some back /\
    ((le_term back < rv_lastLogTerm args)%Z \/
     (rv_lastLogTerm args = le_term back /\ (le_index back <= rv_lastLogIndex args)%Z))) as Hup.
  { subst ok. rewrite He, orb_true_iff, andb_true_iff, Z.ltb_lt, Z.eqb_eq, Z.leb_le.
    naive_solver. }
  rewrite He in Hup |- *.
  destruct (m_currentTerm n <? rv_term args)%Z eqn:E2; bool_to_prop; simpl;
    rewrite He; simpl; fold ok.
  - destruct ok; (eexists _, _; split; [done|]); simpl; rewrite !decide_True by lia;
      (split; [|split_and!; try done; lia]); (split; [intros ?|]); try done.
    + split_and!; [lia|by apply Hup|by left].
    + intros (_ & Hu & _). by apply Hup in Hu.
  - destruct (bool_decide (m_votedFor n = ""%string) ||
              bool_decide (m_votedFor n = rv_candidateId args)) eqn:Ef.
    + apply orb_true_iff in Ef. rewrite !bool_decide_eq_true in Ef.
      destruct ok; (eexists _, _; split; [done|]); simpl; rewrite !decide_False by lia;
        (split; [|split_and!; try done; lia]); (split; [intros ?|]); try done.
      * split_and!; [lia|by apply Hup|by right].
      * intros (_ & Hu & _). by apply Hup in Hu.
    + bool_to_prop. eexists _, _. split; [done|]. simpl. rewrite !decide_False by lia.
      split_and!; try done; [|lia]. split; [done|]. intros (_ & _ & [?|[?|?]]); [lia|done..].
Qed.

(** ** Witnesses *)
Module Witness.
Import Example3.

Lemma election_safety_witness :
  (1%Z, "a"%string) ∈ cl_leaders a_elected /\
  forall j, (1%Z, j) ∈ cl_leaders a_elected -> "a"%string = j.
Proof.
  assert ((1%Z, "a"%string) ∈ cl_leaders a_elected) as Ha by (vm_compute; left).
  split; [exact Ha|]. intros j Hj.
  exact (proj1 (election_safety any_append ids a_elected ids_ok (a_elected_reach any_append)) 1%Z _ _ Ha Hj).
Defined.

Lemma startElection_refines_witness :
  match startElection tm (node "a" ["b"; "c"])
          ((candidacy "a" (node "a" ["b"; "c"]) tt tm (fresh tt), [Some tm; None])
             : cluster_world unit) with
  | Some (n', (c', _)) => m_state n' = Leader /\ cluster_reach ids (election_over "a" n' tt c')
  | None => False
  end.
Proof.
  destruct (startElection _ _ _) as [[n' [c' s']]|] eqn:E.
  - split.
    + assert (Some (m_state n') = Some Leader) as H; [|by injection H].
      rewrite <- (f_equal (option_map (fun x => m_state x.1)) E : _ = Some (m_state n')).
      vm_compute. reflexivity.
    + eapply (startElection_refines any_append ids (fresh tt) tm "a"); [apply ids_ok|apply fresh_reach| | | | |exact E].
      * vm_compute. reflexivity.
      * reflexivity.
      * discriminate.
      * reflexivity.
  - vm_compute in E. discriminate.
Defined.

(** [b] after voting for [a] in term 1. *)
Definition b_voted : RaftNode :=
  resetElectionTimer tm (set_votedFor "a" (set_currentTerm 1 (node "b" ["a"; "c"]))).

Lemma one_vote_per_term_witness :
  rv_candidateId (mkRequestVoteArgs 1 "a" 7 3) = "a"%string /\
  exists r, handleRequestVote tm (mkRequestVoteArgs 1 "a" 7 3) b_voted = Some (r, b_voted) /\
    rvr_voteGranted r = true.
Proof.
  split.
  - apply (one_vote_per_term tm tm (mkRequestVoteArgs 1 "a" 0 0) (mkRequestVoteArgs 1 "a" 7 3)
             (node "b" ["a"; "c"]) b_voted b_voted b_voted
             (mkRequestVoteReply 1 true) (mkRequestVoteReply 1 true) tt tt tt tt).
    + destruct (RaftNode_new_wf "b" ["a"; "c"] tm). by constructor.
    + by vm_compute.
    + discriminate.
    + vm_compute. reflexivity.
    + reflexivity.
    + apply rtc_refl.
    + vm_compute. reflexivity.
    + reflexivity.
    + reflexivity.
  - eexists. split; vm_compute; reflexivity.
Defined.

Lemma handleRequestVote_spec_witness :
  exists r n', handleRequestVote tm (mkRequestVoteArgs 1 "a" 0 0) (node "b" ["a"; "c"]) = Some (r, n') /\
    rvr_term r = 1%Z /\ m_votedFor n' = "a"%string.
Proof.
  destruct (handleRequestVote_spec tm (mkRequestVoteArgs 1 "a" 0 0) (node "b" ["a"; "c"]))
    as (r & n' & H & _ & Ht & Hm & Hv & _).
  - destruct (RaftNode_new_wf "b" ["a"; "c"] tm). by constructor.
  - by vm_compute.
  - exists r, n'. split; [exact H|]. rewrite Ht, Hm, Hv.
    assert (rvr_voteGranted r = true) as ->; [|split; reflexivity].
    assert (Some (rvr_voteGranted r) = Some true) as Hr; [|by injection Hr].
    rewrite <- (f_equal (option_map (fun x => rvr_voteGranted x.1)) H
                 : _ = Some (rvr_voteGranted r)).
    vm_compute. reflexivity.
Defined.
End Witness.
