(* ===== verification/RaftLiveness.v ===== *)
(** * Elections that succeed, and elections that are not held

    Two sides of the liveness of src/raft/RaftNode.cpp.  A candidate whose requests reach
    peers that are free to vote for it, and that are a majority with itself, is the leader when
    its call of [startElection] returns.  A node that has heard from a leader stands in no
    turn of [electionLoop] before its timeout is over. *)
From S2P Require Import Prelude RaftTypes RaftNode RaftLog RaftInv RaftCluster RaftElection.

Section elections.
Context {D : Type} `{!KVStore D}.
Implicit Types c : cluster D.

(** [p] is there and free to grant [args]. *)
Definition willing (args : RequestVoteArgs) c (p : string) : Prop :=
  exists n db, cl_nodes c !! p = Some (n, db) /\ idle p c /\ raft_wf n /\
    (m_currentTerm n <= rv_term args)%Z /\ up_to_date args n /\
    ((m_currentTerm n < rv_term args)%Z \/ m_votedFor n = ""%string \/
     m_votedFor n = rv_candidateId args).

(** The peers whose exchange takes place. *)
Fixpoint reached (peers : list string) (sched : list (option Timer)) : list string :=
  match peers, sched with
  | p :: peers', Some _ :: sched' => p :: reached peers' sched'
  | _ :: peers', None :: sched' => reached peers' sched'
  | _, _ => []
  end.

Lemma reached_subset p peers sched : p ∈ reached peers sched -> p ∈ peers.
Proof.
  revert sched. induction peers as [|q peers IH]; intros [|[tm|] sched]; simpl;
    try by intros ?%elem_of_nil.
  - intros [->|Hp]%elem_of_cons; [by left|]. right. by eapply IH.
  - intros Hp. right. by eapply IH.
Qed.

Lemma willing_grants args c p tm rest :
  rv_args_ok args -> willing args c p ->
  exists r w', deliver_request_vote p args (c, Some tm :: rest) = (Some r, (w', rest)) /\
    rvr_voteGranted r = true /\
    forall q, q <> p -> willing args c q -> willing args w' q.
Proof.
  intros Ha (n & db & Hn & Hi & Hwf & Ht & Hu & Hf).
  destruct (handleRequestVote_spec tm args n Hwf Ha) as (r & n' & Hh & Hg & _).
  unfold deliver_request_vote. unfold idle in Hi. rewrite Hn, Hi, Hh.
  eexists r, _. split; [done|]. split; [by apply Hg|].
  intros q Hq (nq & dbq & Hnq & Hiq & Hrest). exists nq, dbq. split; [|done].
  simpl. by rewrite lookup_insert_ne.
Qed.

(** Every exchange that takes place brings a vote. *)
Lemma election_loop_wins args ps votes n c sched :
  rv_args_ok args -> NoDup ps -> (forall p, p ∈ ps -> is_Some (m_peerAddresses n !! p)) ->
  (forall p, p ∈ reached ps sched -> willing args c p) ->
  exists w', election_loop args ps votes n ((c, sched) : cluster_world D)
    = (inl ((votes + vec_size (reached ps sched))%Z, n), w').
Proof.
  intros Ha. revert votes c sched. induction ps as [|p ps IH]; intros votes c sched Hnd Hadr Hw.
  { simpl. replace (votes + vec_size [])%Z with votes by (unfold vec_size; simpl; lia). by eexists. }
  apply NoDup_cons in Hnd as [Hp Hnd].
  destruct (Hadr p ltac:(by left)) as [[h port] Hadrp].
  assert (forall q, q ∈ ps -> is_Some (m_peerAddresses n !! q)) as Hadr' by (intros; apply Hadr; by right).
  cbn [election_loop]. unfold sendRequestVote. rewrite Hadrp.
  cbn [rpc_request_vote cluster_transport].
  destruct sched as [|[tm|] rest].
  - destruct (IH votes c [] Hnd Hadr') as (w' & Hl).
    { intros q Hq. destruct ps; by apply elem_of_nil in Hq. }
    cbn [deliver_request_vote election_collect]. rewrite Hl.
    replace (reached ps []) with (@nil string) by by destruct ps. by eexists.
  - destruct (willing_grants args c p tm rest Ha (Hw p ltac:(by left))) as (r & c1 & -> & Hg & Hkeep).
    cbn [election_collect]. rewrite Hg.
    destruct (IH (votes + 1)%Z c1 rest Hnd Hadr') as (w' & ->).
    { intros q Hq. apply Hkeep; [|apply Hw; by right].
      intros ->. apply Hp. by eapply reached_subset. }
    exists w'. cbn [reached]. unfold vec_size. cbn [length]. do 3 f_equal. lia.
  - cbn [deliver_request_vote election_collect reached]. by apply IH.
Qed.

(** The call returns a leader of the next term. *)
Lemma startElection_wins tm n c sched args :
  raft_wf n -> (m_currentTerm n < UINT64_MAX)%Z -> NoDup (m_peers n) ->
  (forall p, p ∈ m_peers n -> is_Some (m_peerAddresses n !! p)) ->
  election_args (election_begin tm n) = Some args ->
  (forall p, p ∈ reached (m_peers n) sched -> willing args c p) ->
  (majority n <= 1 + vec_size (reached (m_peers n) sched))%Z ->
  exists n' w', startElection tm n ((c, sched) : cluster_world D) = Some (n', w') /\
    m_state n' = Leader /\ m_currentTerm n' = (m_currentTerm n + 1)%Z.
Proof.
  intros Hwf Ht Hnd Hadr Ea Hw Hmaj. unfold startElection. rewrite Ea. cbn [mbind option_bind].
  pose proof (wf_election_begin tm n Hwf Ht) as Hwf1.
  destruct (election_loop_wins args (m_peers n) 1 (election_begin tm n) c sched) as (w' & Hl).
  - by eapply election_args_ok.
  - done.
  - done.
  - done.
  - change (m_peers (election_begin tm n)) with (m_peers n). rewrite Hl.
    eexists _, w'. split; [done|]. unfold election_finish.
    change (majority (election_begin tm n)) with (majority n). rewrite (proj2 (Z.leb_le _ _)) by done.
    destruct (init_leader_frame (set_state Leader (election_begin tm n))) as (_ & _ & -> & _ & ->).
    split; [done|]. simpl. apply u64_small.
    pose proof (wf_term _ Hwf). unfold is_u64, UINT64_MAX in *. lia.
Qed.
End elections.

(** ** The other side *)

(** A node that has heard from a leader does not stand: after an append message of
    a term that is not below its own, accepted or not, the node follows that term,
    and no turn of [electionLoop] before the timeout drawn then changes anything or
    asks anyone. *)
Theorem heartbeat_suppresses_election {D : Type} `{!KVStore D} {W : Type} `{!RaftTransport W}
    tm args n (db : D) r n' db' :
  (m_currentTerm n <= ae_term args)%Z -> handleAppendEntries tm args n db = Some (r, n', db') ->
  m_state n' = Follower /\ m_currentTerm n' = ae_term args /\
  forall tm' (w : W), (tm_now tm' < tm_now tm + tm_draw tm)%Z ->
    electionLoop_turn tm' n' w = Some (n', w).
Proof.
  intros Ht Hh.
  assert (m_state n' = Follower /\ m_currentTerm n' = ae_term args /\
    m_lastHeartbeatTime n' = tm_now tm /\ m_electionTimeoutMs n' = tm_draw tm) as (Hs & Hc & Hl & He).
  { revert Hh. unfold handleAppendEntries. rewrite (proj2 (Z.ltb_ge _ _)) by lia.
    case_match; [by intros [= _ <- _]|]. intros (e & _ & Hh)%bind_Some.
    case_match; [by injection Hh as _ <- _|].
    apply bind_Some in Hh as ([n3 db3] & H3 & Hh). injection Hh as _ <- _.
    case_match; [|by injection H3 as <- _].
    apply bind_Some in H3 as (b & _ & H3). by apply apply_loop_frame in H3 as [a ->]. }
  split_and!; [done..|]. intros tm' w Hw. unfold electionLoop_turn.
  rewrite Hs, Hl, He, (proj2 (Z.leb_gt _ _)) by lia. by rewrite andb_false_r.
Qed.

(** ** Witnesses *)
Module Witness.
Import Example3.

(** The first heartbeat of [a] at [b], and a turn of [b]'s loop 199 ms later. *)
Definition first_heartbeat : AppendEntriesArgs := mkAppendEntriesArgs 1 "a" 0 0 [] 0.

Lemma heartbeat_suppresses_election_witness :
  exists r n', handleAppendEntries tm first_heartbeat (node "b" ["a"; "c"]) tt = Some (r, n', tt) /\
    electionLoop_turn (mkTimer 1199 150) n' tt = Some (n', tt).
Proof.
  destruct (handleAppendEntries tm first_heartbeat (node "b" ["a"; "c"]) tt)
    as [[[r n'] []]|] eqn:E; [|vm_compute in E; discriminate E].
  exists r, n'. split; [reflexivity|].
  apply (heartbeat_suppresses_election tm first_heartbeat (node "b" ["a"; "c"]) tt r n' tt).
  - vm_compute. discriminate.
  - exact E.
  - reflexivity.
Defined.
End Witness.
