(* ===== verification/RaftReplication.v ===== *)
(** * The receiver's side of replication

    The theorems about [handleAppendEntries], [applyCommittedLogs] and the
    node as a whole (src/raft/RaftNode.cpp): the handler implements the
    receiver specification [ae_spec], retransmissions change nothing, the Log
    Matching Property is kept, and committed entries reach the store in index
    order, each once. *)
From S2P Require Import Prelude RaftTypes RaftNode RaftLog RaftInv RaftCluster RaftElection.

(** ** The receiver's specification *)
Section spec.
Context {D : Type} `{!KVStore D}.

(** The entries of indices [from + 1 .. to]. *)
Definition log_slice (from to : Z) (l : list LogEntry) : list LogEntry :=
  take (Z.to_nat (to - from)) (drop (S (Z.to_nat from)) l).

(** The log a consistent message leaves: the prefix up to [prevLogIndex], then
    the merge by terms. *)
Definition ae_spec_log (args : AppendEntriesArgs) (n : RaftNode) : list LogEntry :=
  let prev := Z.to_nat (ae_prevLogIndex args) in
  take (S prev) (m_logs n) ++ merge_ref (drop (S prev) (m_logs n)) (ae_entries args).

(** Raft's receiver rules, without loops: refuse stale terms; follow; refuse
    when [prevLogIndex]/[prevLogTerm] do not match; merge; advance the commit
    index to [min leaderCommit lastIndex] and apply up to it. *)
Definition ae_spec (tm : Timer) (args : AppendEntriesArgs) (n : RaftNode) (db : D)
  : AppendEntriesReply * RaftNode * D :=
  if decide (ae_term args < m_currentTerm n)%Z
  then (mkAppendEntriesReply (m_currentTerm n) false, n, db)
  else
    let n1 := ae_follow tm args n in
    if decide (ae_consistent args n) then
      let n2 := set_logs (ae_spec_log args n) n1 in
      let reply := mkAppendEntriesReply (ae_term args) true in
      if decide (m_commitIndex n < ae_leaderCommit args)%Z then
        let c := Z.min (ae_leaderCommit args) (vec_size (m_logs n2) - 1) in
        (reply, set_lastApplied (Z.max (m_lastApplied n) c) (set_commitIndex c n2),
         kv_puts (log_slice (m_lastApplied n) c (m_logs n2)) db)
      else (reply, n2, db)
    else (mkAppendEntriesReply (m_currentTerm n) false, n1, db).

Lemma ae_merged_spec tm args n :
  is_u64 (ae_prevLogIndex args) -> ae_consistent args n ->
  ae_merged tm args n = set_logs (ae_spec_log args n) (ae_follow tm args n).
Proof.
  intros Hp Hc. pose proof (ae_consistent_bound _ _ Hp Hc) as Hb.
  unfold ae_merged, ae_spec_log. rewrite merge_entries_merge_ref; [done|].
  unfold is_u64, vec_size in *. lia.
Qed.

Lemma handleAppendEntries_ae_spec tm args n (db : D) :
  raft_wf n -> ae_args_wf args -> room_for (length (ae_entries args)) n ->
  handleAppendEntries tm args n db = Some (ae_spec tm args n db).
Proof.
  intros Hwf Ha Hroom. pose proof (proj1 (proj2 (proj1 Ha))) as Hp. unfold ae_spec.
  case_decide as Hs; [by apply handleAppendEntries_stale|].
  destruct (decide (ae_consistent args n)) as [Hc|Hc];
    [|by apply handleAppendEntries_mismatch; [..|lia|]].
  rewrite handleAppendEntries_accept by (done || lia).
  unfold ae_commit. rewrite (ae_merged_spec tm args n Hp Hc). by case_decide.
Qed.

(** ** Retransmission *)
Lemma ae_spec_log_idemp tm args n :
  is_u64 (ae_prevLogIndex args) -> ae_consistent args n ->
  let n' := set_logs (ae_spec_log args n) (ae_follow tm args n) in
  ae_consistent args n' /\ ae_spec_log args n' = ae_spec_log args n.
Proof.
  intros Hp Hc. pose proof (ae_consistent_bound _ _ Hp Hc) as Hb.
  destruct Hc as (e & He & Ht). unfold ae_consistent, ae_spec_log. simpl.
  set (prev := Z.to_nat (ae_prevLogIndex args)) in *.
  assert (S prev <= length (m_logs n)) as Hl.
  { unfold is_u64, vec_size in *. lia. }
  assert (length (take (S prev) (m_logs n)) = S prev) as Hlt by (rewrite length_take; lia).
  split.
  - exists e. split; [|done]. rewrite lookup_app_l by lia.
    rewrite lookup_take_lt by lia. done.
  - rewrite take_app_le, take_take, Nat.min_id by lia. f_equal.
    rewrite drop_app_ge, Hlt, Nat.sub_diag, drop_0 by lia. apply merge_ref_idemp.
Qed.

(** A node that has just accepted the message. *)
Lemma ae_spec_again tm args n (db : D) :
  m_currentTerm n = ae_term args -> m_state n = Follower ->
  ae_consistent args n -> ae_spec_log args n = m_logs n ->
  (m_commitIndex n < ae_leaderCommit args -> m_commitIndex n = vec_size (m_logs n) - 1)%Z ->
  (m_commitIndex n <= m_lastApplied n)%Z ->
  ae_spec tm args n db
  = (mkAppendEntriesReply (ae_term args) true, resetElectionTimer tm n, db).
Proof.
  intros Ht Hs Hc Hl Hci Hap. unfold ae_spec.
  rewrite decide_False, decide_True by (done || lia). simpl. rewrite Hl.
  assert (set_logs (m_logs n) (ae_follow tm args n) = resetElectionTimer tm n) as ->.
  { destruct n. simpl in *. by subst. }
  case_decide as Hlc; [|done]. specialize (Hci Hlc).
  replace (Z.min _ _) with (m_commitIndex n) by lia. rewrite Z.max_l by lia.
  assert (log_slice (m_lastApplied n) (m_commitIndex n) (m_logs n) = []) as ->.
  { unfold log_slice. by replace (Z.to_nat _) with 0 by lia. }
  f_equal.
Qed.

(** ** Log matching *)
Lemma log_matching_sym l1 l2 : log_matching l1 l2 -> log_matching l2 l1.
Proof. intros H i e1 e2 H1 H2 Ht. symmetry. by eapply H. Qed.

Lemma log_matching_prefix m l1 l2 : log_matching l1 l2 -> log_matching (take m l1) l2.
Proof.
  intros H i e1 e2 H1 H2 Ht. apply lookup_take_Some in H1 as [H1 Hm].
  rewrite take_take, Nat.min_l by lia. by eapply H.
Qed.

Lemma log_matching_refl l : log_matching l l.
Proof. by intros i e1 e2. Qed.

(** A message cut out of the leader's log leaves a log that agrees with the
    leader's up to its last entry: the follower's own log, or a prefix of the
    leader's. *)
Lemma ae_spec_log_cases leader args n k e :
  let prev := Z.to_nat (ae_prevLogIndex args) in
  log_matching (m_logs n) leader ->
  ae_consistent args n ->
  leader !! prev = Some e -> le_term e = ae_prevLogTerm args ->
  ae_entries args = take k (drop (S prev) leader) ->
  take (S prev + length (ae_entries args)) (ae_spec_log args n)
    = take (S prev + length (ae_entries args)) leader /\
  (ae_spec_log args n = m_logs n \/
   ae_spec_log args n = take (S prev + length (ae_entries args)) leader).
Proof.
  intros prev Hlm (e' & He' & Ht') Hl Ht Hes. fold prev in He'.
  assert (take (S prev) (m_logs n) = take (S prev) leader) as Hpre
    by (eapply Hlm; [done..|congruence]).
  assert (take (S prev + length (ae_entries args)) leader
          = take (S prev) leader ++ ae_entries args) as Hle.
  { rewrite <- take_take_drop. f_equal. rewrite Hes. apply take_length_take. }
  assert (length (take (S prev) leader) = S prev) as Hlen.
  { rewrite length_take. apply lookup_lt_Some in Hl. lia. }
  unfold ae_spec_log. fold prev. rewrite Hpre.
  destruct (merge_ref_cases (drop (S prev) (m_logs n)) (ae_entries args)) as [[-> Htl]| ->].
  - intros i l1 l2 H1 H2 Heq. rewrite Hes in H2 |- *.
    apply lookup_take_Some in H2 as [H2 Hik]. rewrite lookup_drop in H1, H2.
    pose proof (Hlm _ _ _ H1 H2 Heq) as Hm.
    rewrite take_take, Nat.min_l by lia.
    rewrite !take_drop_commute. replace (S prev + S i) with (S (S prev + i)) by lia.
    by rewrite Hm.
  - split; [|left; by rewrite <- Hpre, take_drop].
    rewrite Hle, <- Hlen at 1. by rewrite take_app_add, Htl.
  - rewrite <- Hle. split; [|by right]. by rewrite take_take, Nat.min_id.
Qed.
End spec.

(** ** The store follows the log *)
Section applies.
Context {D : Type} `{!KVStore D}.

(** From [(n, db)] to [(n', db')] the store received exactly the committed entries
    it had not received: those above the old [m_lastApplied] and up to the commit index
    the node ends with, in index order, read from the log it ends with. *)
Definition applies (n : RaftNode) (db : D) (n' : RaftNode) (db' : D) : Prop :=
  m_lastApplied n' = Z.max (m_lastApplied n) (m_commitIndex n') /\
  (m_lastApplied n < m_commitIndex n' -> m_commitIndex n' < vec_size (m_logs n'))%Z /\
  db' = kv_puts (log_slice (m_lastApplied n) (m_commitIndex n') (m_logs n')) db.

Lemma log_slice_nil a c l : (c <= a)%Z -> log_slice a c l = [].
Proof. intros H. unfold log_slice. by replace (Z.to_nat (c - a)) with 0 by lia. Qed.

(** The slice of a well-formed log has an entry for every index. *)
Lemma log_slice_indices a c l :
  log_wf l -> (0 <= a)%Z -> (a < c -> c < vec_size l)%Z ->
  le_index <$> log_slice a c l = seqZ (a + 1) (c - a).
Proof.
  intros [_ Hix] Ha Hc. apply list_eq. intros i. rewrite list_lookup_fmap. unfold log_slice.
  destruct (decide (i < Z.to_nat (c - a))) as [Hi|Hi].
  - rewrite lookup_take_lt, lookup_drop by done.
    destruct (lookup_lt_is_Some_2 l (S (Z.to_nat a) + i)) as [e He].
    { unfold vec_size in Hc. lia. }
    rewrite He. csimpl. symmetry. apply lookup_seqZ. rewrite (Hix _ _ He). lia.
  - rewrite lookup_take_ge by lia. symmetry. apply lookup_seqZ_ge. lia.
Qed.

Lemma log_slice_app a b c l :
  (0 <= a <= b)%Z -> (b <= c)%Z ->
  log_slice a b l ++ log_slice b c l = log_slice a c l.
Proof.
  intros Hab Hbc. unfold log_slice.
  replace (drop (S (Z.to_nat b)) l)
    with (drop (Z.to_nat (b - a)) (drop (S (Z.to_nat a)) l)).
  2: { rewrite drop_drop. f_equal. lia. }
  rewrite take_take_drop. f_equal. lia.
Qed.

Lemma kv_puts_app es1 es2 (db : D) : kv_puts (es1 ++ es2) db = kv_puts es2 (kv_puts es1 db).
Proof. apply foldl_app. Qed.

Lemma applies_none n n' (db : D) :
  raft_wf n -> m_lastApplied n' = m_lastApplied n -> m_commitIndex n' = m_commitIndex n ->
  applies n db n' db.
Proof.
  intros Hwf E Ec. pose proof (wf_commit _ Hwf). unfold applies. rewrite E, Ec, log_slice_nil by lia.
  split_and!; [lia|lia|done].
Qed.

Lemma log_slice_max a c l : log_slice a (Z.max a c) l = log_slice a c l.
Proof. destruct (Z.le_ge_cases a c); [by rewrite Z.max_r|]. by rewrite !log_slice_nil by lia. Qed.

Lemma applies_trans n1 (db1 : D) n2 db2 n3 db3 :
  (0 <= m_lastApplied n1)%Z -> m_logs n3 = m_logs n2 ->
  (m_commitIndex n2 <= m_commitIndex n3)%Z ->
  applies n1 db1 n2 db2 -> applies n2 db2 n3 db3 -> applies n1 db1 n3 db3.
Proof.
  intros H0 Hl Hc (Ha & Ha' & ->) (Hb & Hb' & ->). split_and!; [lia|rewrite Hl in *; lia|].
  rewrite Hl, <- kv_puts_app. rewrite <- (log_slice_max _ (m_commitIndex n2)), <- Ha.
  rewrite <- (log_slice_max (m_lastApplied n2)), <- (log_slice_max (m_lastApplied n1) (m_commitIndex n3)).
  rewrite log_slice_app by lia. do 2 f_equal. lia.
Qed.

Lemma applyCommittedLogs_applies c n n' (db db' : D) :
  raft_wf n -> (0 <= c < vec_size (m_logs n))%Z ->
  applyCommittedLogs (set_commitIndex c n) db = Some (n', db') ->
  applies n db n' db' /\ m_logs n' = m_logs n /\ m_commitIndex n' = c.
Proof.
  intros Hwf Hc Ha.
  destruct (wf_commit_and_apply c n db Hwf Hc) as (n1 & db1 & Ha' & _ & -> & ->).
  rewrite Ha in Ha'. injection Ha' as -> ->. split; [|done]. unfold applies. simpl.
  split_and!; [lia|lia|done].
Qed.

Lemma ae_spec_applies tm args n (db : D) :
  raft_wf n ->
  applies n db (ae_spec tm args n db).1.2 (ae_spec tm args n db).2.
Proof.
  intros Hwf. unfold ae_spec. repeat case_decide; try by apply applies_none.
  unfold applies. simpl. split_and!; [lia|lia|done].
Qed.

(** A leader that applies keeps its log and never lowers its commit index. *)
Definition raises (n : RaftNode) (db : D) (n' : RaftNode) (db' : D) : Prop :=
  applies n db n' db' /\ m_logs n' = m_logs n /\ (m_commitIndex n <= m_commitIndex n')%Z.

Lemma raises_none n n' (db : D) :
  raft_wf n -> m_lastApplied n' = m_lastApplied n -> m_commitIndex n' = m_commitIndex n ->
  m_logs n' = m_logs n -> raises n db n' db.
Proof. intros Hwf Ea Ec El. split; [by apply applies_none|]. split; [done|lia]. Qed.

Lemma commit_step_applies n n' (db db' : D) :
  raft_wf n -> m_state n = Leader -> commit_step n db = Some (n', db') ->
  raises n db n' db'.
Proof.
  intros Hwf Hs. unfold commit_step.
  destruct (newCommitIndex_is_Some n) as (c & -> & Hc). simpl.
  destruct (Z.ltb_spec (m_commitIndex n) c) as [Hlt|]; [|intros [= <- <-]; by apply raises_none].
  assert (0 <= c < vec_size (m_logs n))%Z as Hr.
  { apply matchIndices_elem in Hc as [->|(p & Hp)].
    - pose proof (log_wf_size _ (wf_log _ Hwf)). lia.
    - by eapply wf_match. }
  destruct (vec_at_is_Some _ _ Hr) as [e ->]. simpl.
  destruct (le_term e =? m_currentTerm n)%Z.
  - intros Ha. apply applyCommittedLogs_applies in Ha as (Ha & Hl & Hc'); [|done..].
    split_and!; [done|done|lia].
  - intros [= <- <-]. by apply raises_none.
Qed.

Lemma heartbeat_reply_applies p nx reply n (db : D) brk n' db' :
  raft_wf n -> m_state n = Leader -> p ∈ m_peers n ->
  (1 <= nx <= vec_size (m_logs n))%Z ->
  heartbeat_reply p nx (drop (Z.to_nat nx) (m_logs n)) reply n db = Some (brk, n', db') ->
  raises n db n' db'.
Proof.
  intros Hwf Hs Hp Hnx. unfold heartbeat_reply.
  destruct reply as [r|]; [|intros [= _ <- <-]; by apply raises_none].
  destruct (aer_success r).
  - rewrite heartbeat_success_eq by done. intros ([n1 db1] & Hc & H)%bind_Some. simplify_eq.
    apply commit_step_applies in Hc; [done|by apply wf_advance_peer|done].
  - destruct (m_currentTerm n <? aer_term r)%Z.
    { intros [= _ <- <-]. by apply raises_none. }
    destruct (map_index _ _) as [v m].
    case_match; intros [= _ <- <-]; by apply raises_none.
Qed.

Context {W : Type} `{!RaftTransport W, !TransportRange W}.

Lemma heartbeat_peers_applies ps n (db : D) w n' db' w' :
  raft_wf n -> m_state n = Leader -> (forall p, p ∈ ps -> p ∈ m_peers n) ->
  heartbeat_peers ps n db w = Some (n', db', w') ->
  raises n db n' db'.
Proof.
  revert n db w. induction ps as [|p ps IH]; intros n db w Hwf Hs Hps; simpl.
  { intros [= <- <- _]. by apply raises_none. }
  assert (p ∈ m_peers n) as Hp by (apply Hps; by left).
  destruct (wf_heartbeat_peer p n db w Hwf Hs Hp)
    as (brk & n1 & db1 & w1 & Hhp & Hwf1 & Hpe & Hb). rewrite Hhp. simpl.
  assert (raises n db n1 db1) as (Ha1 & Hl1 & Hc1).
  { unfold heartbeat_peer in Hhp.
    destruct (heartbeat_args_eq p n Hwf Hs Hp) as (nx & prev & Hnx & Hr & _ & Heq).
    rewrite Heq in Hhp. simpl in Hhp.
    destruct (sendAppendEntries _ _ _ _) as [reply w2].
    apply bind_Some in Hhp as ([[brk' n2] db2] & Hre & Hhp). simplify_eq.
    by eapply heartbeat_reply_applies. }
  destruct brk; [by intros [= <- <- _]|]. intros H.
  destruct (IH n1 db1 w1 Hwf1 (Hb eq_refl)) as (Ha2 & Hl2 & Hc2); [|done|].
  { intros q Hq. rewrite Hpe. apply Hps. by right. }
  split_and!; [|congruence|lia]. eapply applies_trans; [|exact Hl2|exact Hc2|done|done].
  pose proof (wf_commit _ Hwf). lia.
Qed.

Lemma election_frame n tm (w : W) n' w' :
  electionLoop_turn tm n w = Some (n', w') ->
  m_lastApplied n' = m_lastApplied n /\ m_commitIndex n' = m_commitIndex n.
Proof.
  assert (forall v m, m_lastApplied (election_finish v m) = m_lastApplied m /\
    m_commitIndex (election_finish v m) = m_commitIndex m) as Hf.
  { intros v m. unfold election_finish. case_match; [|done]. rewrite init_leader_eq.
    by case_match. }
  assert (forall args ps v m w, match (election_loop args ps v m w).1 with
     | inl (_, m') | inr m' =>
         m_lastApplied m' = m_lastApplied m /\ m_commitIndex m' = m_commitIndex m end) as Hl.
  { intros args ps. induction ps as [|p ps IH]; intros v m w1; simpl; [done|].
    destruct (sendRequestVote m p args w1) as [reply w2].
    destruct (election_collect reply v m) as [[v1 m1]|m1] eqn:Ec.
    - destruct (election_collect_continue _ _ _ _ _ Ec) as [-> _]. apply IH.
    - enough (m_lastApplied m1 = m_lastApplied m /\ m_commitIndex m1 = m_commitIndex m) by done.
      unfold election_collect in Ec. repeat case_match; by simplify_eq. }
  unfold electionLoop_turn. case_match; [|by intros [= <- <-]].
  unfold startElection. intros (args & _ & Heq)%bind_Some. simplify_eq.
  specialize (Hl args (m_peers (election_begin tm n)) 1%Z (election_begin tm n) w).
  destruct (election_loop _ _ _ _ _) as [[[v m]|m] w2]; simpl in *; simplify_eq;
    rewrite ?(proj1 (Hf _ _)), ?(proj2 (Hf _ _)); done.
Qed.

Lemma handleRequestVote_commit tm args n r n' :
  handleRequestVote tm args n = Some (r, n') -> m_commitIndex n' = m_commitIndex n.
Proof.
  unfold handleRequestVote. intros H. case_match; [by simplify_eq|].
  destruct (m_currentTerm n <? rv_term args)%Z;
    apply bind_Some in H as (e & _ & H); case_match; by simplify_eq.
Qed.

Lemma node_step_applies ev n (db : D) (w : W) n' db' w' :
  raft_wf n -> event_ok ev n -> node_step ev n db w = Some (n', db', w') ->
  applies n db n' db'.
Proof.
  intros Hwf Hok Hs. destruct ev; simpl in Hs, Hok.
  - simplify_eq. apply applies_none; [done|unfold start; by destruct (m_running n)..].
  - simplify_eq. apply applies_none; [done|unfold stop; by destruct (negb (m_running n))..].
  - simplify_eq. by apply applies_none.
  - apply bind_Some in Hs as ([r n1] & Hh & Hs). simplify_eq.
    apply applies_none; [done|by eapply handleRequestVote_term|by eapply handleRequestVote_commit].
  - destruct Hok as [Ha Hr]. rewrite (handleAppendEntries_ae_spec tm args n db Hwf Ha Hr) in Hs.
    pose proof (ae_spec_applies tm args n db Hwf) as Happ. simpl in Hs.
    destruct (ae_spec tm args n db) as [[r n1] db1]. by simplify_eq.
  - apply bind_Some in Hs as ([r n1] & Hh & Hs). simplify_eq.
    unfold submitLog in Hh.
    destruct (m_state n); [simplify_eq; by apply applies_none..|].
    apply bind_Some in Hh as (e & _ & Hh). simplify_eq. by apply applies_none.
  - apply bind_Some in Hs as ([n1 w1] & Hh & Hs). simplify_eq.
    apply election_frame in Hh as [Ea Ec]. by apply applies_none.
  - unfold heartbeatLoop_turn in Hs. case_bool_decide.
    + by eapply heartbeat_peers_applies.
    + simplify_eq. by apply applies_none.
Qed.
End applies.

(** An entry whose index is past the end of the log: the handler appends it at the
    position after the dummy entry, takes its index for the commit index, and the apply loop
    reads one position past the end. *)
Lemma unchecked_index {D : Type} `{!KVStore D} {W : Type} `{!RaftTransport W}
    id peers tm (db : D) (w : W) i key value :
  (1 < i)%Z -> is_u64 i ->
  let args := mkAppendEntriesArgs 1 "" 0 0 [mkLogEntry 1 i key value] i in
  ae_args_ok args /\ ~ ae_args_wf args /\
  node_step (EvAppendEntries tm args) (RaftNode_new id peers tm) db w = None.
Proof.
  intros Hi Hu args. split_and!.
  - unfold ae_args_ok, is_u64 in *. simpl. split_and!; try lia. apply Forall_singleton.
    unfold entry_ok, is_u64. simpl. lia.
  - intros (_ & Hix & _). specialize (Hix 0 _ eq_refl). simpl in Hix. lia.
  - assert (m_commitIndex (RaftNode_new id peers tm) <? i = true)%Z as Hc by (simpl; lia).
    set (e := mkLogEntry 1 i key value) in *. set (n := RaftNode_new id peers tm) in *.
    assert (handleAppendEntries tm args n db =
      '(n3, db3) ← applyCommittedLogs (set_commitIndex (Z.min i i)
        (set_logs [dummy_entry; e] (ae_follow tm args n))) db;
      Some (mkAppendEntriesReply (m_currentTerm n3) true, n3, db3)) as Hh.
    { unfold handleAppendEntries. cbn [ae_leaderCommit args].
      change (m_commitIndex (set_logs _ _)) with (m_commitIndex n). by rewrite Hc. }
    simpl node_step. rewrite Hh, Z.min_id. unfold applyCommittedLogs. simpl.
    replace (Z.to_nat (i - 0)) with (S (S (Z.to_nat (i - 2)))) by lia.
    change (m_commitIndex n) with 0%Z in Hc. simpl. rewrite Hc. simpl.
    destruct (kv_put key value db) as [b db1]. change (u64 (0 + 1)) with 1%Z. by rewrite (proj2 (Z.ltb_lt 1 i)) by lia.
Qed.

(** ** The theorems *)

(** C1. Memory safety and the node invariant: in every execution of a node whose
    [AppendEntries] messages are such as a leader builds them (entries numbered from
    [prevLogIndex + 1], see [event_ok], which also keeps vectors and terms
    below their maxima), every method that may run next is defined (no vector is
    indexed out of range) and leads to a well-formed node; in particular the commit
    index is at most the last applied index whenever the mutex is free.  The handler
    does not check the numbering: a message whose entry carries an index that lies further
    than one position past the log is not [ae_args_wf], and makes a fresh node apply out
    of range. *)
Theorem node_safe {D : Type} `{!KVStore D} {W : Type} `{!RaftTransport W, !TransportRange W}
    id peers :
  (forall n (db : D) (w : W) ev,
     node_reach id peers n db w -> event_ok ev n ->
     exists n' db' w', node_step ev n db w = Some (n', db', w') /\ raft_wf n') /\
  (forall tm (db : D) (w : W) i key value,
     (1 < i)%Z -> is_u64 i ->
     let args := mkAppendEntriesArgs 1 "" 0 0 [mkLogEntry 1 i key value] i in
     ae_args_ok args /\ ~ ae_args_wf args /\
     node_step (EvAppendEntries tm args) (RaftNode_new id peers tm) db w = None).
Proof.
  split.
  - intros n db w ev Hr Hok. apply wf_node_step; [by eapply wf_node_reach|done].
  - intros tm db w i key value Hi Hu. by apply unchecked_index.
Qed.

(** C6. [handleAppendEntries] implements the receiver specification: its
    index loops compute the prefix-and-merge log, and its apply loop hands to
    the store the entries above [m_lastApplied] up to the new commit index. *)
Theorem handleAppendEntries_refines {D : Type} `{!KVStore D} tm args n (db : D) :
  raft_wf n -> ae_args_wf args -> room_for (length (ae_entries args)) n ->
  handleAppendEntries tm args n db = Some (ae_spec tm args n db).
Proof. apply handleAppendEntries_ae_spec. Qed.

(** C9. Log Matching: an accepted message cut out of the leader's log makes the
    follower agree with the leader up to the message's last entry, keeps the
    Log Matching Property with the leader, and with every other log that had
    it with both. *)
Theorem append_keeps_log_matching {D : Type} `{!KVStore D} tm args n (db : D) leader k e r n' db' :
  raft_wf n -> ae_args_wf args -> room_for (length (ae_entries args)) n ->
  log_matching (m_logs n) leader ->
  leader !! Z.to_nat (ae_prevLogIndex args) = Some e ->
  le_term e = ae_prevLogTerm args ->
  ae_entries args = take k (drop (S (Z.to_nat (ae_prevLogIndex args))) leader) ->
  handleAppendEntries tm args n db = Some (r, n', db') ->
  aer_success r = true ->
  let upto := S (Z.to_nat (ae_prevLogIndex args)) + length (ae_entries args) in
  take upto (m_logs n') = take upto leader /\
  log_matching (m_logs n') leader /\
  (forall l, log_matching (m_logs n) l -> log_matching leader l ->
             log_matching (m_logs n') l).
Proof.
  intros Hwf Ha Hroom Hlm He Ht Hes Hh Hok upto.
  rewrite (handleAppendEntries_ae_spec tm args n db Hwf Ha Hroom) in Hh.
  injection Hh as Hh. unfold ae_spec in Hh.
  case_decide; [by simplify_eq|].
  destruct (decide (ae_consistent args n)) as [Hc|]; [|by simplify_eq].
  destruct (ae_spec_log_cases leader args n k e Hlm Hc He Ht Hes) as [Htake Hcases].
  assert (m_logs n' = ae_spec_log args n) as ->.
  { case_decide; by simplify_eq. }
  split; [done|]. destruct Hcases as [->| ->].
  - auto.
  - split; [apply log_matching_prefix, log_matching_refl|].
    intros l _ Hl. by apply log_matching_prefix.
Qed.

(** Retransmission: delivering an accepted message again, with nothing in
    between, succeeds and changes neither the log, nor the indices, nor the
    store. *)
Theorem append_idempotent {D : Type} `{!KVStore D} tm tm2 args n (db : D) r n' db' :
  raft_wf n -> ae_args_wf args -> room_for (length (ae_entries args)) n ->
  handleAppendEntries tm args n db = Some (r, n', db') ->
  aer_success r = true -> room_for (length (ae_entries args)) n' ->
  handleAppendEntries tm2 args n' db'
  = Some (r, resetElectionTimer tm2 n', db').
Proof.
  intros Hwf Ha Hroom Hh Hok Hroom'.
  destruct (wf_handleAppendEntries tm args n db Hwf Ha Hroom) as (? & ? & ? & Hh' & Hwf').
  rewrite Hh in Hh'. injection Hh' as <- <- <-.
  rewrite (handleAppendEntries_ae_spec tm args n db Hwf Ha Hroom) in Hh.
  rewrite (handleAppendEntries_ae_spec tm2 args n' db' Hwf' Ha Hroom'). f_equal.
  injection Hh as Hh. unfold ae_spec in Hh.
  case_decide as Hs; [by simplify_eq|].
  destruct (decide (ae_consistent args n)) as [Hc|]; [|by simplify_eq].
  destruct (ae_spec_log_idemp tm args n (proj1 (proj2 (proj1 Ha))) Hc) as [Hc' Hlog'].
  pose proof (wf_commit _ Hwf').
  case_decide as Hlc; simplify_eq; apply ae_spec_again; simpl in *; try done; lia.
Qed.

(** C10. The store follows the log: in every step of an execution (with [event_ok]) the store
    receives exactly the committed entries it has not received yet, those with the indices
    [m_lastApplied + 1 .. m_commitIndex] of the node after the step, all of
    them, in index order and each once; and [m_lastApplied] rises to the commit index, or
    stays where it is when no new entry is committed. *)
Theorem store_follows_log {D : Type} `{!KVStore D} {W : Type} `{!RaftTransport W, !TransportRange W}
    id peers n (db : D) (w : W) ev n' db' w' :
  node_reach id peers n db w -> event_ok ev n ->
  node_step ev n db w = Some (n', db', w') ->
  let committed := log_slice (m_lastApplied n) (m_commitIndex n') (m_logs n') in
  m_lastApplied n' = Z.max (m_lastApplied n) (m_commitIndex n') /\
  le_index <$> committed
    = seqZ (m_lastApplied n + 1) (m_commitIndex n' - m_lastApplied n) /\
  db' = foldl (fun d e => (kv_put (le_key e) (le_value e) d).2) db committed.
Proof.
  intros Hr Hok Hs committed. pose proof (wf_node_reach _ _ _ _ _ Hr) as Hwf.
  destruct (wf_node_step ev n db w Hwf Hok) as (n1 & db1 & w1 & Hs1 & Hwf1).
  destruct (node_step_applies _ _ _ _ _ _ _ Hwf Hok Hs) as (Ha & Hc & Hdb).
  rewrite Hs in Hs1. injection Hs1 as <- <- <-.
  split_and!; [done| |done]. pose proof (wf_commit _ Hwf).
  apply log_slice_indices; [apply Hwf1|lia|done].
Qed.

(** ** Witnesses *)
Module Witness.
Import Example3.

(** A follower of term 1 with a conflicting entry at index 1, and a leader of
    term 2 with two entries. *)
Definition follower : RaftNode :=
  set_currentTerm 1 (set_logs [dummy_entry; mkLogEntry 1 1 "k" "old"] (node "b" ["a"; "c"])).

Definition leader_log : list LogEntry :=
  [dummy_entry; mkLogEntry 2 1 "k" "new"; mkLogEntry 2 2 "l" "v"].

Definition append : AppendEntriesArgs :=
  mkAppendEntriesArgs 2 "a" 0 0 (drop 1 leader_log) 1.

Lemma follower_wf : raft_wf follower.
Proof.
  constructor; try done.
  split; [done|]. intros [|[|i]] e He; simpl in He; by simplify_eq.
Qed.

Lemma append_wf : ae_args_wf append.
Proof.
  split; [|split].
  - unfold ae_args_ok, is_u64. simpl. split_and!; try lia.
    repeat (apply Forall_cons; split); try apply Forall_nil_2;
      unfold entry_ok, is_u64; simpl; lia.
  - intros [|[|i]] e He; simpl in He; by simplify_eq.
  - by vm_compute.
Qed.

Lemma follower_matches : log_matching follower.(m_logs) leader_log.
Proof.
  intros [|[|i]] e1 e2 H1 H2 Ht; simpl in H1, H2; by simplify_eq.
Qed.

Definition after_append : AppendEntriesReply * RaftNode * gmap string string :=
  ae_spec tm append follower ∅.

Lemma node_safe_witness :
  (exists n' (db' : gmap string string) (w' : unit),
    node_step (EvAppendEntries tm append) (RaftNode_new "b" ["a"; "c"] tm) ∅ tt
    = Some (n', db', w') /\ raft_wf n') /\
  node_step (EvAppendEntries tm (mkAppendEntriesArgs 1 "" 0 0 [mkLogEntry 1 5 "k" "v"] 5))
    (RaftNode_new "b" ["a"; "c"] tm) (∅ : gmap string string) tt = None.
Proof.
  destruct (node_safe (D := gmap string string) (W := unit) "b" ["a"; "c"]) as [Hsafe Hunsafe]. split.
  - apply Hsafe; [apply node_reach_new|]. split; [exact append_wf|]. vm_compute. done.
  - apply (Hunsafe tm ∅ tt 5%Z "k"%string "v"%string); unfold is_u64; lia.
Defined.

Lemma handleAppendEntries_refines_witness :
  handleAppendEntries tm append follower (∅ : gmap string string) = Some after_append /\
  m_logs after_append.1.2 = leader_log /\
  after_append.2 !! "k"%string = Some "new"%string.
Proof.
  split; [|split; vm_compute; reflexivity].
  apply (handleAppendEntries_refines tm append follower (∅ : gmap string string)).
  - exact follower_wf.
  - exact append_wf.
  - vm_compute. reflexivity.
Defined.

Lemma append_keeps_log_matching_witness :
  take 3 (m_logs after_append.1.2) = take 3 leader_log /\
  log_matching (m_logs after_append.1.2) leader_log.
Proof.
  destruct (append_keeps_log_matching tm append follower (∅ : gmap string string) leader_log 2
              dummy_entry after_append.1.1 after_append.1.2 after_append.2) as (H1 & H2 & _).
  - exact follower_wf.
  - exact append_wf.
  - vm_compute. reflexivity.
  - exact follower_matches.
  - reflexivity.
  - reflexivity.
  - reflexivity.
  - vm_compute. reflexivity.
  - vm_compute. reflexivity.
  - split; assumption.
Defined.

Lemma append_idempotent_witness :
  handleAppendEntries tm append after_append.1.2 after_append.2
  = Some (mkAppendEntriesReply 2 true, resetElectionTimer tm after_append.1.2, after_append.2).
Proof.
  apply (append_idempotent tm tm append follower (∅ : gmap string string)).
  - exact follower_wf.
  - exact append_wf.
  - vm_compute. reflexivity.
  - vm_compute. reflexivity.
  - reflexivity.
  - vm_compute. reflexivity.
Defined.

(** The message commits index 1, and its entry is what the store receives. *)
Lemma store_follows_log_witness :
  exists n' (db' : gmap string string),
    node_step (EvAppendEntries tm append) (RaftNode_new "b" ["a"; "c"] tm) ∅ tt
    = Some (n', db', tt) /\
    m_commitIndex n' = 1%Z /\ m_lastApplied n' = 1%Z /\ db' !! "k"%string = Some "new"%string.
Proof.
  destruct (node_step (EvAppendEntries tm append) (RaftNode_new "b" ["a"; "c"] tm)
              (∅ : gmap string string) tt) as [[[n' db'] []]|] eqn:E;
    [|vm_compute in E; discriminate E].
  assert (event_ok (EvAppendEntries tm append) (RaftNode_new "b" ["a"; "c"] tm)) as Hok.
  { split; [exact append_wf|]. vm_compute. reflexivity. }
  destruct (store_follows_log "b" ["a"; "c"] (RaftNode_new "b" ["a"; "c"] tm) _ _ _ _ _ _
    (node_reach_new _ _ tm (∅ : gmap string string) tt)
    Hok E) as (Ha & _ & Hdb).
  exists n', db'. split; [done|].
  assert (m_commitIndex n' = 1%Z /\ m_logs n' = leader_log) as [Hc Hl]
    by (vm_compute in E; injection E as <- _; done).
  rewrite Ha, Hdb, Hc, Hl. split_and!; [done|done|]. vm_compute. reflexivity.
Defined.
End Witness.
