(* ===== verification/RaftCommit.v ===== *)
(** * The leader's side of replication

    The commit rule of [heartbeatLoop] (src/raft/RaftNode.cpp): how many
    members hold a committed index, what a heartbeat carries, and a run of three
    nodes in which two of them commit different entries at the same index. *)
From S2P Require Import Prelude RaftTypes RaftNode RaftLog RaftInv RaftCluster.
From S2P Require Import RaftElection RaftReplication.

(** ** Order statistics *)
#[export] Instance greater_eq_total : Total greater_eq.
Proof. intros x y. unfold greater_eq. lia. Qed.

#[export] Instance greater_eq_trans : Transitive greater_eq.
Proof. intros x y z. unfold greater_eq. lia. Qed.

Lemma sort_desc_sorted l : StronglySorted greater_eq (sort_desc l).
Proof. apply (StronglySorted_merge_sort _). Qed.

(** How many elements of the list are at least [v]. *)
Definition count_ge (v : Z) (l : list Z) : nat := length (filter (fun x => v <= x)%Z l).

Lemma count_ge_perm v l1 l2 : l1 ≡ₚ l2 -> count_ge v l1 = count_ge v l2.
Proof. intros H. unfold count_ge. by rewrite H. Qed.

Lemma count_ge_below v l : (forall x, x ∈ l -> (x < v)%Z) -> count_ge v l = 0.
Proof.
  induction l as [|x l IH]; intros H; [done|].
  unfold count_ge. rewrite filter_cons_False.
  - apply IH. intros y Hy. apply H. by right.
  - specialize (H x ltac:(by left)). lia.
Qed.

Lemma sorted_lookup_count l k c v :
  StronglySorted greater_eq l -> l !! k = Some c ->
  (v <= c)%Z <-> k < count_ge v l.
Proof.
  intros Hs. revert k. induction Hs as [|x l Hs IH Hall]; intros k Hk; [done|].
  rewrite Forall_forall in Hall. unfold greater_eq in Hall.
  destruct (decide (v <= x)%Z) as [Hv|Hv].
  - unfold count_ge. rewrite filter_cons_True by done. simpl.
    destruct k as [|k]; simpl in Hk; simplify_eq; [split; [lia|done]|].
    rewrite (IH k Hk). unfold count_ge. lia.
  - unfold count_ge. rewrite filter_cons_False by done.
    change (length (filter (fun y => v <= y)%Z l)) with (count_ge v l).
    rewrite count_ge_below by (intros y Hy; specialize (Hall y Hy); lia).
    split; [|lia]. intros Hc. apply list_elem_of_lookup_2 in Hk.
    apply elem_of_cons in Hk as [->|Hk]; [lia|]. specialize (Hall c Hk). lia.
Qed.

(** ** The commit rule *)

(** The members the leader counts as holding index [v]: itself, and the peers
    whose [m_matchIndex] is at least [v]. *)
Definition replicated_on (v : Z) (n : RaftNode) : nat :=
  count_ge v ((vec_size (m_logs n) - 1)%Z :: (map_to_list (m_matchIndex n)).*2).

Lemma newCommitIndex_count n c v :
  newCommitIndex n = Some c ->
  (v <= c)%Z <-> size (m_matchIndex n) / 2 < replicated_on v n.
Proof.
  unfold newCommitIndex. intros H.
  rewrite (sorted_lookup_count _ _ _ v (sort_desc_sorted _) H).
  rewrite matchIndices_length.
  replace (S (size (m_matchIndex n)) - 1) with (size (m_matchIndex n)) by lia.
  unfold replicated_on. by rewrite (count_ge_perm v _ _ (sort_desc_perm _)).
Qed.

Lemma leader_match_size n :
  raft_wf n -> m_state n = Leader -> NoDup (m_peers n) ->
  size (m_matchIndex n) = length (m_peers n).
Proof.
  intros Hwf Hs Hnd. rewrite <- size_dom.
  assert (dom (m_matchIndex n) = list_to_set (m_peers n)) as ->.
  { apply set_eq. intros p. rewrite elem_of_dom, elem_of_list_to_set. split.
    - intros [v Hv]. by eapply wf_match_peer.
    - by apply wf_match_all. }
  by apply size_list_to_set.
Qed.

(** ** Heartbeats over the cluster *)
Section heartbeat_run.
Context {D : Type} `{!KVStore D} {sent : AppendEntriesArgs -> Prop}.
Context (Hsent : forall args, sent_by_program args -> sent args).

Lemma heartbeat_reply_state p nx es reply n (db : D) n' db' :
  heartbeat_reply p nx es reply n db = Some (false, n', db') -> m_state n' = m_state n.
Proof.
  unfold heartbeat_reply. destruct reply as [r|]; [|by intros [= <- _]].
  destruct (aer_success r).
  - intros ([n1 db1] & H & ?)%bind_Some. simplify_eq.
    unfold heartbeat_success in H. apply bind_Some in H as (c & _ & H).
    case_match; [|by simplify_eq].
    apply bind_Some in H as (e & _ & H). case_match; [|by simplify_eq].
    by apply apply_loop_frame in H as [a ->].
  - destruct (m_currentTerm n <? aer_term r)%Z; [done|].
    destruct (map_index _ _) as [v m]. by case_match; intros [= <- _].
Qed.

Lemma put_node_comm i p n db np dbp (c : cluster D) :
  p <> i -> put_node p np dbp (put_node i n db c) = put_node i n db (put_node p np dbp c).
Proof. intros H. unfold put_node. simpl. by rewrite insert_insert_ne. Qed.

Lemma put_node_twice i n db n' db' (c : cluster D) :
  put_node i n' db' (put_node i n db c) = put_node i n' db' c.
Proof. unfold put_node. simpl. by rewrite insert_insert_eq. Qed.

(** The delivery of a heartbeat is a step of the peer, or nothing. *)
Lemma deliver_append_run i n db p args (w : cluster_world D) reply w' :
  sent args -> deliver_append_entries p args w = (reply, w') -> p <> i ->
  rtc (cluster_step_of sent) (put_node i n db w.1) (put_node i n db w'.1) /\
  cl_elections w'.1 = cl_elections w.1.
Proof.
  intros Hargs. destruct w as [c [|[tm|] sched]]; simpl;
    [intros [= <- <-] _; by split| |intros [= <- <-] _; by split].
  destruct (cl_nodes c !! p) as [[np dbp]|] eqn:En; [|intros [= <- <-] _; by split].
  destruct (cl_elections c !! p) eqn:Ee; [intros [= <- <-] _; by split|].
  destruct (handleAppendEntries tm args np dbp) as [[[r np'] dbp']|] eqn:Eh;
    intros [= <- <-] Hne; [|by split].
  split; [|done]. simpl. rewrite <- put_node_comm by done. apply rtc_once.
  eapply step_append_entries; [|exact Ee|exact Eh|exact Hargs]. simpl. by rewrite lookup_insert_ne.
Qed.

Lemma heartbeat_peers_run i ps n db (w : cluster_world D) n' db' w' :
  cl_elections w.1 !! i = None -> i ∉ ps -> m_state n = Leader ->
  heartbeat_peers ps n db w = Some (n', db', w') ->
  rtc (cluster_step_of sent) (put_node i n db w.1) (put_node i n' db' w'.1).
Proof.
  revert n db w. induction ps as [|p ps IH]; intros n db w Hidle Hi Hs; simpl.
  { by intros [= <- <- <-]. }
  apply not_elem_of_cons in Hi as [Hne Hi].
  intros ([[[brk n1] db1] w1] & Hp & H)%bind_Some.
  unfold heartbeat_peer in Hp. apply bind_Some in Hp as ([[[args nx] es] n0] & Ha & Hp).
  destruct (sendAppendEntries n0 p args w) as [reply w0] eqn:Es.
  apply bind_Some in Hp as ([[brk' n2] db2] & Hr & Hp). simplify_eq.
  assert (rtc (cluster_step_of sent) (put_node i n db w.1) (put_node i n db w1.1) /\
          cl_elections w1.1 = cl_elections w.1) as [Hrun He].
  { unfold sendAppendEntries in Es. destruct (m_peerAddresses n0 !! p) as [[h port]|].
    - eapply deliver_append_run; [|exact Es|done].
      apply Hsent. by eexists _, _, _, _, _.
    - simplify_eq. by split. }
  etrans; [exact Hrun|].
  assert (cluster_step_of sent (put_node i n db w1.1) (put_node i n1 db1 w1.1)) as Hstep.
  { rewrite <- (put_node_twice i n db n1 db1).
    eapply step_heartbeat; [apply lookup_insert_eq| |exact Hs|exact Ha|exact Hr].
    unfold idle. simpl. by rewrite He. }
  eapply rtc_l; [exact Hstep|]. destruct brk; [by simplify_eq|].
  apply IH in H; [done|by rewrite He|done|].
  rewrite (heartbeat_reply_state _ _ _ _ _ _ _ _ Hr).
  unfold heartbeat_args in Ha. destruct (map_index _ _) as [v m].
  apply bind_Some in Ha as (e & _ & Ha). by simplify_eq.
Qed.

Lemma op_heartbeat_reach ids i sched (c c' : cluster D) :
  ""%string ∉ ids -> cluster_reach_of sent ids c -> op_heartbeat i sched c = Some c' ->
  cluster_reach_of sent ids c'.
Proof.
  intros Hids Hr. unfold op_heartbeat. intros ([n db] & Hn & H)%bind_Some.
  case_bool_decide as Hidle; [|done].
  apply bind_Some in H as ([[n' db'] [c1 s1]] & Hh & H). simplify_eq.
  destruct (ci_nodes _ _ (inv_reach _ _ _ Hids Hr) _ _ _ Hn) as (_ & _ & _ & Hp & _).
  assert (i ∉ m_peers n) as Hi.
  { intros Hi. apply (elem_of_list_to_set (C:=gset string)) in Hi. rewrite Hp in Hi. set_solver. }
  unfold heartbeatLoop_turn in Hh. case_bool_decide as Hs.
  - eapply reach_steps; [exact Hr|].
    pose proof (heartbeat_peers_run i (m_peers n) n db (c, sched) n' db' (c1, s1)
                  Hidle Hi Hs Hh) as Hrun. simpl in Hrun.
    by rewrite (put_node_same _ _ _ _ Hn) in Hrun.
  - simplify_eq. by rewrite put_node_same.
Qed.
End heartbeat_run.

(** ** The theorems *)

(** The commit rule in clusters of odd size: the index a leader picks is the
    largest one that a majority of the members is recorded to hold. *)
Theorem commit_rule_odd n c v :
  raft_wf n -> m_state n = Leader -> NoDup (m_peers n) ->
  Nat.even (length (m_peers n)) = true ->
  newCommitIndex n = Some c ->
  (v <= c)%Z <-> (majority n <= Z.of_nat (replicated_on v n))%Z.
Proof.
  intros Hwf Hs Hnd Heven Hc. rewrite (newCommitIndex_count n c v Hc).
  rewrite (leader_match_size n Hwf Hs Hnd).
  apply Nat.even_spec in Heven as [k Hk]. unfold majority, vec_size. rewrite Hk.
  replace (2 * k) with (k * 2) by lia. rewrite Nat.div_mul by lia.
  replace (Z.of_nat (k * 2) + 1)%Z with (1 + Z.of_nat k * 2)%Z by lia.
  rewrite Z.div_add by lia. change (1 / 2)%Z with 0%Z. lia.
Qed.

(** In clusters of even size the same rule is satisfied one member short of
    a majority (the index picked is the largest one that half of the members
    hold); with a single peer the leader's own last index is picked, whatever
    the peer holds. *)
Theorem commit_rule_even n c v :
  raft_wf n -> m_state n = Leader -> NoDup (m_peers n) ->
  Nat.odd (length (m_peers n)) = true ->
  newCommitIndex n = Some c ->
  ((v <= c)%Z <-> (majority n - 1 <= Z.of_nat (replicated_on v n))%Z) /\
  (length (m_peers n) = 1 -> c = (vec_size (m_logs n) - 1)%Z).
Proof.
  intros Hwf Hs Hnd Hodd Hc. split.
  - rewrite (newCommitIndex_count n c v Hc), (leader_match_size n Hwf Hs Hnd).
    apply Nat.odd_spec in Hodd as [k Hk]. unfold majority, vec_size. rewrite Hk.
    replace (2 * k + 1) with (1 + k * 2) by lia.
    rewrite Nat.div_add by lia. change (1 / 2) with 0.
    replace (Z.of_nat (1 + k * 2) + 1)%Z with (Z.of_nat (1 + k) * 2)%Z by lia.
    rewrite Z.div_mul by lia. lia.
  - intros H1. destruct (newCommitIndex_is_Some n) as (c' & Hc' & Hin).
    rewrite Hc in Hc'. injection Hc' as <-.
    assert (c <= vec_size (m_logs n) - 1)%Z as Hle.
    { apply matchIndices_elem in Hin as [->|(p & Hp)]; [lia|].
      pose proof (wf_match _ Hwf Hs p c Hp). lia. }
    assert (vec_size (m_logs n) - 1 <= c)%Z; [|lia].
    apply (newCommitIndex_count n c _ Hc). rewrite (leader_match_size n Hwf Hs Hnd), H1.
    unfold replicated_on, count_ge. rewrite filter_cons_True by lia. simpl. lia.
Qed.

(** Heartbeats carry no entries, yet a success is recorded as full
    replication: the follower's log is left as it was, and the leader sets the
    follower's match index to its own last index. *)
Theorem heartbeat_replicates_nothing {D : Type} `{!KVStore D}
    p n (f : RaftNode) tm (dbf dbn dbn' : D) dbf' args nx es n1 r f' brk n' :
  raft_wf n -> m_state n = Leader -> p ∈ m_peers n -> raft_wf f ->
  heartbeat_args p n = Some (args, nx, es, n1) ->
  handleAppendEntries tm args f dbf = Some (r, f', dbf') -> aer_success r = true ->
  heartbeat_reply p nx es (Some r) n1 dbn = Some (brk, n', dbn') ->
  es = drop (Z.to_nat nx) (m_logs n) /\ ae_entries args = [] /\
  m_logs f' = m_logs f /\
  m_matchIndex n' !! p = Some (vec_size (m_logs n) - 1)%Z.
Proof.
  intros Hwf Hs Hp Hf Ha Hh Hr Hre.
  destruct (heartbeat_args_wf p n args nx es n1 Hwf Hs Hp Ha) as (Hwa & _).
  destruct (heartbeat_args_eq p n Hwf Hs Hp) as (nx' & prev & Hnx & Hnr & Hprev & Ha').
  rewrite Ha in Ha'. injection Ha' as -> -> -> ->.
  rewrite handleAppendEntries_ae_spec in Hh; [|done|done|].
  2: { pose proof (wf_size _ Hf). unfold room_for. simpl. lia. }
  split_and!; [done|done| |].
  - injection Hh as Hh. unfold ae_spec in Hh.
    repeat case_decide; simplify_eq; simpl; try done;
      unfold ae_spec_log; simpl; by rewrite merge_ref_nil_r, take_drop.
  - unfold heartbeat_reply in Hre. rewrite Hr in Hre.
    rewrite heartbeat_success_eq in Hre by done.
    apply bind_Some in Hre as ([n2 db2] & Hc & Hre). injection Hre as <- <- <-.
    assert (m_matchIndex n2 = m_matchIndex (advance_peer p n)) as ->.
    { unfold commit_step in Hc. apply bind_Some in Hc as (c & _ & Hc).
      case_match; [|by simplify_eq].
      apply bind_Some in Hc as (e & _ & Hc). case_match; [|by simplify_eq].
      by apply apply_loop_frame in Hc as [a ->]. }
    apply lookup_insert_eq.
Qed.

(** C11. The commit rule, for clusters of any size: the index a leader picks
    ([newCommitIndex]; whether it commits it is a further test) is the largest one that a majority of the members is recorded to hold when the
    number of members is odd, and one member short of a majority when it is
    even; with a single peer it is the leader's own last index, whatever the
    peer holds. *)
Theorem commit_rule n c v :
  raft_wf n -> m_state n = Leader -> NoDup (m_peers n) -> newCommitIndex n = Some c ->
  ((v <= c)%Z <->
   (majority n - (if Nat.odd (length (m_peers n)) then 1 else 0)
    <= Z.of_nat (replicated_on v n))%Z) /\
  (length (m_peers n) = 1 -> c = (vec_size (m_logs n) - 1)%Z).
Proof.
  intros Hwf Hs Hnd Hc. destruct (Nat.odd (length (m_peers n))) eqn:Ho.
  - by apply commit_rule_even.
  - split; [|by intros H1; rewrite H1 in Ho]. rewrite Z.sub_0_r.
    apply commit_rule_odd; try done. by rewrite <- Nat.negb_odd, Ho.
Qed.

(** ** A run in which two members commit different entries *)
Module Divergence.
Import Example3.

(** [a] wins term 1, accepts an entry and sends one round of heartbeats, which
    both followers answer; then [b] wins term 2 with the vote of [c] ([a] is
    not reachable), accepts another entry and sends one round, which [c]
    answers. *)
Definition run : option (cluster (gmap string string)) :=
  c1 ← op_elect "a" tm [Some tm; Some tm] (fresh ∅);
  c2 ← op_submit "a" "img" "first" c1;
  c3 ← op_heartbeat "a" [Some tm; Some tm] c2;
  c4 ← op_elect "b" tm [None; Some tm] c3;
  c5 ← op_submit "b" "img" "second" c4;
  op_heartbeat "b" [None; Some tm] c5.

Lemma run_reach c : run = Some c -> cluster_reach_of sent_by_program ids c.
Proof.
  unfold run. intros (c1 & H1 & (c2 & H2 & (c3 & H3 & (c4 & H4 & (c5 & H5 & H6)
    %bind_Some)%bind_Some)%bind_Some)%bind_Some)%bind_Some.
  eapply op_heartbeat_reach; [done|apply ids_ok| |exact H6].
  eapply op_submit_reach; [|exact H5].
  eapply op_elect_reach; [apply ids_ok| |exact H4].
  eapply op_heartbeat_reach; [done|apply ids_ok| |exact H3].
  eapply op_submit_reach; [|exact H2].
  eapply op_elect_reach; [apply ids_ok| |exact H1].
  apply fresh_reach.
Qed.

(** What is observed of the final state: commit index, entry 1 and stored value. *)
Definition observe (i : string) (c : cluster (gmap string string))
  : option (Z * option LogEntry * option string) :=
  '(n, db) ← cl_nodes c !! i;
  Some (m_commitIndex n, m_logs n !! 1, db !! "img"%string).

Lemma observe_some i o c x : o = Some c -> observe i <$> o = Some x -> observe i c = x.
Proof. intros -> H. by injection H. Qed.

Lemma run_result :
  exists c, run = Some c /\
    observe "a" c = Some (1%Z, Some (mkLogEntry 1 1 "img" "first"), Some "first"%string) /\
    observe "b" c = Some (1%Z, Some (mkLogEntry 2 1 "img" "second"), Some "second"%string).
Proof.
  assert (is_Some run) as [c Hc] by (vm_compute; eauto).
  exists c. split; [exact Hc|]. split.
  - apply (observe_some _ _ _ _ Hc). vm_compute. reflexivity.
  - apply (observe_some _ _ _ _ Hc). vm_compute. reflexivity.
Qed.
End Divergence.

Import Example3.

(** C13. State machine safety does not hold: three nodes running the code's own
    elections, submissions and heartbeats, with every reply delivered to its
    request, no node restarting and no append message but the ones
    [heartbeatLoop] builds, reach a state in which two members have committed
    and applied different entries at index 1. *)
Theorem state_machine_safety_fails :
  exists (c : cluster (gmap string string)) na nb dba dbb ea eb,
    cluster_reach_of sent_by_program ids c /\
    cl_nodes c !! "a"%string = Some (na, dba) /\ cl_nodes c !! "b"%string = Some (nb, dbb) /\
    m_commitIndex na = 1%Z /\ m_commitIndex nb = 1%Z /\
    m_logs na !! 1 = Some ea /\ m_logs nb !! 1 = Some eb /\ ea <> eb /\
    dba !! le_key ea = Some (le_value ea) /\ dbb !! le_key eb = Some (le_value eb) /\
    le_key ea = le_key eb /\ le_value ea <> le_value eb.
Proof.
  destruct Divergence.run_result as (c & Hc & Ha & Hb).
  pose proof (Divergence.run_reach c Hc) as Hr. clear Hc.
  apply bind_Some in Ha as ([na dba] & Hna & Ha), Hb as ([nb dbb] & Hnb & Hb).
  simplify_eq. eexists c, na, nb, dba, dbb, _, _. split_and!; done.
Qed.

(** ** Witnesses *)
Module Witness.
Import Example3.

(** A leader of term 1 with the given peers, after one submission. *)
Definition elected_node (peers : list string) : RaftNode :=
  election_finish 5 (election_begin tm (node "a" peers)).

Definition submitted (n : RaftNode) : RaftNode :=
  set_logs (m_logs n ++ [mkLogEntry 1 1 "k" "v"]) n.

Definition leader (peers : list string) : RaftNode := submitted (elected_node peers).

Lemma submitted_wf n :
  raft_wf n -> m_state n = Leader -> m_logs n = [dummy_entry] -> m_currentTerm n = 1%Z ->
  raft_wf (submitted n).
Proof.
  intros Hwf Hs Hl Ht. destruct (wf_submitLog "k" "v" n Hwf) as (b & n' & Hsub & Hwf').
  { unfold room_for, vec_size. rewrite Hl. simpl. lia. }
  unfold submitLog in Hsub. rewrite Hs, Hl in Hsub. simpl in Hsub. rewrite Ht in Hsub.
  unfold submitted. rewrite Hl. by injection Hsub as _ <-.
Qed.

Lemma leader_wf peers : m_state (elected_node peers) = Leader -> raft_wf (leader peers).
Proof.
  intros Hs. apply submitted_wf; [|exact Hs| |].
  - apply wf_election_finish, wf_election_begin; [|done].
    destruct (RaftNode_new_wf "a" peers tm). by constructor.
  - unfold elected_node, election_finish. case_match; [|done].
    rewrite init_leader_eq. by case_match.
  - apply (proj1 (proj2 (proj2 (election_finish_frame 5 (election_begin tm (node "a" peers)))))).
Qed.

Lemma commit_rule_odd_witness :
  newCommitIndex (leader ["b"; "c"]) = Some 0%Z /\
  (majority (leader ["b"; "c"]) <= Z.of_nat (replicated_on 0 (leader ["b"; "c"])))%Z.
Proof.
  assert (newCommitIndex (leader ["b"; "c"]) = Some 0%Z) as H by (vm_compute; reflexivity).
  split; [exact H|]. apply (commit_rule_odd (leader ["b"; "c"]) 0 0).
  - apply leader_wf. vm_compute. reflexivity.
  - vm_compute. reflexivity.
  - change (NoDup ["b"; "c"]%string). repeat (apply NoDup_cons; split; [set_solver|]). apply NoDup_nil_2.
  - reflexivity.
  - exact H.
  - lia.
Defined.

(** Two nodes: the leader's own copy is enough, though a majority is 2. *)
Lemma commit_rule_even_witness :
  newCommitIndex (leader ["b"]) = Some 1%Z /\
  majority (leader ["b"]) = 2%Z /\ replicated_on 1 (leader ["b"]) = 1 /\
  1%Z = (vec_size (m_logs (leader ["b"])) - 1)%Z.
Proof.
  assert (newCommitIndex (leader ["b"]) = Some 1%Z) as H by (vm_compute; reflexivity).
  split; [exact H|]. split; [vm_compute; reflexivity|]. split; [vm_compute; reflexivity|].
  apply (proj2 (commit_rule_even (leader ["b"]) 1 1
    (leader_wf ["b"] ltac:(vm_compute; reflexivity)) ltac:(vm_compute; reflexivity)
    (NoDup_singleton _) eq_refl H)).
  reflexivity.
Defined.

(** Three members, with the rule of the majority, and two, with one copy. *)
Lemma commit_rule_witness :
  (majority (leader ["b"; "c"]) <= Z.of_nat (replicated_on 0 (leader ["b"; "c"])))%Z /\
  majority (leader ["b"]) = 2%Z /\ (1 <= Z.of_nat (replicated_on 1 (leader ["b"])))%Z.
Proof.
  split; [|split; [vm_compute; reflexivity|]].
  - assert (newCommitIndex (leader ["b"; "c"]) = Some 0%Z) as H by (vm_compute; reflexivity).
    destruct (commit_rule (leader ["b"; "c"]) 0 0) as [Hr _].
    + apply leader_wf. vm_compute. reflexivity.
    + vm_compute. reflexivity.
    + change (NoDup ["b"; "c"]%string).
      repeat (apply NoDup_cons; split; [set_solver|]). apply NoDup_nil_2.
    + exact H.
    + change (Nat.odd (length (m_peers (leader ["b"; "c"])))) with false in Hr.
      rewrite Z.sub_0_r in Hr. apply Hr. lia.
  - assert (newCommitIndex (leader ["b"]) = Some 1%Z) as H by (vm_compute; reflexivity).
    destruct (commit_rule (leader ["b"]) 1 1
      (leader_wf ["b"] ltac:(vm_compute; reflexivity)) ltac:(vm_compute; reflexivity)
      (NoDup_singleton _) H) as [Hr _].
    apply Hr. lia.
Defined.

Lemma heartbeat_replicates_nothing_witness :
  exists args nx es n1 f' n',
    heartbeat_args "b" (leader ["b"; "c"]) = Some (args, nx, es, n1) /\
    handleAppendEntries tm args (node "b" ["a"; "c"]) tt
      = Some (mkAppendEntriesReply 1 true, f', tt) /\
    heartbeat_reply "b" nx es (Some (mkAppendEntriesReply 1 true)) n1 tt = Some (false, n', tt) /\
    m_logs f' = [dummy_entry] /\ m_matchIndex n' !! "b"%string = Some 1%Z.
Proof.
  destruct (heartbeat_args "b" (leader ["b"; "c"])) as [[[[args nx] es] n1]|] eqn:Ha;
    [|vm_compute in Ha; discriminate].
  assert (exists f', handleAppendEntries tm args (node "b" ["a"; "c"]) tt
                     = Some (mkAppendEntriesReply 1 true, f', tt)) as [f' Hf].
  { vm_compute in Ha. injection Ha as <- <- <- <-. eexists. vm_compute. reflexivity. }
  assert (exists n', heartbeat_reply "b" nx es (Some (mkAppendEntriesReply 1 true)) n1 tt
                     = Some (false, n', tt)) as [n' Hn].
  { vm_compute in Ha. injection Ha as <- <- <- <-. eexists. vm_compute. reflexivity. }
  exists args, nx, es, n1, f', n'. split; [reflexivity|]. split; [exact Hf|]. split; [exact Hn|].
  destruct (heartbeat_replicates_nothing "b" (leader ["b"; "c"]) (node "b" ["a"; "c"]) tm
    tt tt tt tt args nx es n1 (mkAppendEntriesReply 1 true) f' false n') as (_ & _ & Hl & Hm).
  - apply leader_wf. vm_compute. reflexivity.
  - vm_compute. reflexivity.
  - vm_compute. left.
  - destruct (RaftNode_new_wf "b" ["a"; "c"] tm). by constructor.
  - exact Ha.
  - exact Hf.
  - reflexivity.
  - exact Hn.
  - split; [exact Hl|exact Hm].
Defined.
End Witness.
