(* ===== verification/RaftLocal.v ===== *)
(** * What the program's own messages can replicate

    The cluster of [RaftCluster] in which the only append messages are the ones
    [heartbeatLoop] (src/raft/RaftNode.cpp) builds.  Every operation leaves a
    node's log as it is, except a leader's [submitLog]; so an entry is only ever
    in the log of the node that accepted it. *)
From S2P Require Import Prelude RaftTypes RaftNode RaftLog RaftInv RaftCluster.
From S2P Require Import RaftElection RaftReplication RaftCommit.

(** ** Operations that leave the log as it is *)
Section log_kept.
Context {D : Type} `{!KVStore D}.

Lemma handleRequestVote_logs tm args n r n' :
  handleRequestVote tm args n = Some (r, n') -> m_logs n' = m_logs n.
Proof.
  unfold handleRequestVote. case_match; [by intros [= _ <-]|].
  intros (e & _ & Hb)%bind_Some. by repeat case_match; simplify_eq/=.
Qed.

Lemma merge_entries_nil logs prev : merge_entries logs [] prev = logs.
Proof. apply app_nil_r. Qed.

Lemma apply_loop_logs fuel n (db : D) n' db' :
  apply_loop fuel n db = Some (n', db') -> m_logs n' = m_logs n.
Proof. intros H. by apply apply_loop_frame in H as [a ->]. Qed.

(** An append message without entries. *)
Lemma handleAppendEntries_logs tm args n (db : D) r n' db' :
  ae_entries args = [] -> handleAppendEntries tm args n db = Some (r, n', db') ->
  m_logs n' = m_logs n.
Proof.
  intros Hnil. unfold handleAppendEntries. rewrite Hnil, merge_entries_nil.
  case_match; [by intros [= _ <- _]|]. case_match; [by intros [= _ <- _]|].
  intros (e & _ & Hb)%bind_Some. case_match; [by simplify_eq|].
  apply bind_Some in Hb as ([n3 db3] & H3 & He). simplify_eq. case_match; [|by simplify_eq].
  apply bind_Some in H3 as (b & _ & H3). by apply apply_loop_logs in H3.
Qed.

Lemma heartbeat_args_frame p n args nx es n1 :
  heartbeat_args p n = Some (args, nx, es, n1) ->
  ae_entries args = [] /\ m_logs n1 = m_logs n.
Proof.
  unfold heartbeat_args. destruct (map_index _ _) as [v m].
  intros (e & _ & Hb)%bind_Some. by simplify_eq.
Qed.

Lemma heartbeat_reply_logs p nx es reply n (db : D) brk n' db' :
  heartbeat_reply p nx es reply n db = Some (brk, n', db') -> m_logs n' = m_logs n.
Proof.
  unfold heartbeat_reply. destruct reply as [r|]; [|by intros [= _ <- _]].
  destruct (aer_success r).
  - intros ([n1 db1] & Hb & ?)%bind_Some. simplify_eq.
    unfold heartbeat_success in Hb. apply bind_Some in Hb as (c & _ & Hb).
    case_match; [|by simplify_eq].
    apply bind_Some in Hb as (e & _ & Hb). case_match; [|by simplify_eq].
    by apply apply_loop_logs in Hb.
  - case_match; [by intros [= _ <- _]|].
    destruct (map_index _ _) as [v m]. by case_match; intros [= _ <- _].
Qed.

Lemma election_collect_logs reply votes n :
  match election_collect reply votes n with
  | inl (_, n') | inr n' => m_logs n' = m_logs n
  end.
Proof.
  unfold election_collect. destruct reply as [r|]; [|done].
  destruct (rvr_voteGranted r); [done|]. by destruct (m_currentTerm n <? rvr_term r)%Z.
Qed.

Lemma election_finish_logs votes n : m_logs (election_finish votes n) = m_logs n.
Proof.
  unfold election_finish. destruct (majority n <=? votes)%Z; [|done].
  rewrite init_leader_eq. by destruct (init_maps _ _ _ _).
Qed.
End log_kept.

(** ** The invariant *)
Section local_entries.
Context {D : Type} `{!KVStore D}.
Implicit Types c : cluster D.

(** Every entry of a log but the dummy is of a term its node has led. *)
Definition owned (c : cluster D) (i : string) (n : RaftNode) : Prop :=
  m_logs n <> [] /\ forall e, e ∈ tail (m_logs n) -> (le_term e, i) ∈ cl_leaders c.

Definition all_owned (c : cluster D) : Prop :=
  forall i n db, cl_nodes c !! i = Some (n, db) -> owned c i n.

Lemma owned_put i n n' db db' c :
  all_owned c -> cl_nodes c !! i = Some (n, db) -> m_logs n' = m_logs n ->
  all_owned (put_node i n' db' c).
Proof.
  intros Hc Hn El j m dbm. simpl. rewrite lookup_insert. case_decide as E.
  - intros [= <- <-]. subst. unfold owned. rewrite El. by eapply Hc.
  - apply Hc.
Qed.

Lemma owned_submit ids i n db k v b n' c :
  cluster_inv ids c -> all_owned c -> cl_nodes c !! i = Some (n, db) ->
  submitLog k v n = Some (b, n') -> all_owned (put_node i n' db c).
Proof.
  intros Hinv Hc Hn Hs. destruct (Hc _ _ _ Hn) as [Hne Hin].
  unfold submitLog in Hs. destruct (m_state n) eqn:Es;
    [by simplify_eq; eapply owned_put|by simplify_eq; eapply owned_put|].
  apply bind_Some in Hs as (e & _ & Hs). simplify_eq.
  intros j m dbm. simpl. rewrite lookup_insert. case_decide as E; [|apply Hc].
  intros [= <- <-]. subst. split; simpl; [by destruct (m_logs n)|].
  intros e'. destruct (m_logs n) as [|d l]; [done|]. simpl.
  intros [Hl| ->%list_elem_of_singleton]%elem_of_app; [by apply Hin|].
  exact (ci_state _ _ Hinv _ _ _ Hn Es).
Qed.

Lemma owned_exchange p args c reply c1 :
  vote_exchange p args c reply c1 -> all_owned c -> all_owned c1.
Proof.
  intros [|c2 np dbp tm r np2 Hp Hi Hr] Hc; [done|].
  apply handleRequestVote_logs in Hr. by eapply (owned_put p np np2 dbp dbp c2).
Qed.

(** The candidate itself is not touched by its exchanges. *)
Lemma exchange_own ids c c1 i n db args p rest votes reply :
  cluster_inv ids c -> cl_nodes c !! i = Some (n, db) ->
  cl_elections c !! i = Some (mkElection args (p :: rest) votes) ->
  vote_exchange p args c reply c1 -> cl_nodes c1 !! i = Some (n, db).
Proof.
  intros Hinv Hn He Hx. rewrite <- Hn. apply (exchange_node _ _ _ _ _ i Hx).
  destruct (ci_election _ _ Hinv _ _ He) as (? & ? & ? & _ & _ & _ & _ & _ & Hp & _).
  by apply (Hp p); left.
Qed.

Lemma owned_step ids c c' :
  ""%string ∉ ids -> cluster_inv ids c -> all_owned c ->
  cluster_step_of sent_by_program c c' -> all_owned c'.
Proof.
  intros Hids Hinv Hc Hstep. destruct Hstep as
    [c i n db tm args r n' Hn _ _ Hr
    |c i n db tm args r n' db' Hn _ Hr (p & m & nx & es & m1 & Hs)
    |c i n db k v b n' Hn _ Hs
    |c i n db p args nx es n1 reply brk n' db' Hn _ _ Ha Hr
    |c i n db tm args Hn _ _ _ Ha
    |c c1 i n db args p rest votes reply votes' n' Hn He Hx Hr
    |c c1 i n db args p rest votes reply n' Hn He Hx Hr
    |c i n db args votes Hn He].
  - apply handleRequestVote_logs in Hr. by eapply (owned_put i n n' db db c).
  - apply heartbeat_args_frame in Hs as [Hs _].
    eapply owned_put; [done..|]. by eapply handleAppendEntries_logs.
  - by eapply owned_submit.
  - apply heartbeat_args_frame in Ha as [_ Ha]. apply heartbeat_reply_logs in Hr.
    eapply owned_put; [done..|congruence].
  - by eapply (owned_put i n (election_begin tm n) db db c).
  - pose proof (exchange_own _ _ _ _ _ _ _ _ _ _ _ Hinv Hn He Hx) as Hn1.
    pose proof (election_collect_logs reply votes n) as El. rewrite Hr in El.
    eapply (owned_put i n n' db db c1); [by eapply owned_exchange|done..].
  - pose proof (exchange_own _ _ _ _ _ _ _ _ _ _ _ Hinv Hn He Hx) as Hn1.
    pose proof (election_collect_logs reply votes n) as El. rewrite Hr in El.
    eapply (owned_put i n n' db db c1); [by eapply owned_exchange|done..].
  - assert (all_owned (put_node i (election_finish votes n) db c)) as Hp.
    { eapply owned_put; [done..|apply election_finish_logs]. }
    intros j m dbm Hj. destruct (Hp j m dbm Hj) as [? Hin].
    split; [done|]. intros e Hm. simpl. apply elem_of_app. right. by apply Hin.
Qed.

Lemma owned_reach ids c :
  ""%string ∉ ids -> cluster_reach_of sent_by_program ids c -> all_owned c.
Proof.
  intros Hids Hr. induction Hr as [c Hinit|c c' Hr IH Hstep].
  - destruct Hinit as (_ & _ & _ & _ & Hn). intros i n db Hi.
    destruct (Hn _ _ _ Hi) as (tm & peers & addrs & -> & _).
    split; [done|]. by intros e He%elem_of_nil.
  - eapply owned_step; [done|by eapply inv_reach|exact IH|exact Hstep].
Qed.
End local_entries.

(** C12. With the append messages the program builds, nothing is replicated, in
    any run: every entry of a member's log is of a term that this member led,
    so no entry is ever in the logs of two members. *)
Theorem entries_stay_local {D : Type} `{!KVStore D} (ids : gset string) (c : cluster D)
    i n (db : D) :
  ""%string ∉ ids -> cluster_reach_of sent_by_program ids c ->
  cl_nodes c !! i = Some (n, db) ->
  (forall e, e ∈ tail (m_logs n) -> (le_term e, i) ∈ cl_leaders c) /\
  (forall j nj dbj e, i <> j -> cl_nodes c !! j = Some (nj, dbj) ->
     e ∈ tail (m_logs n) -> e ∉ tail (m_logs nj)).
Proof.
  intros Hids Hr Hn. pose proof (inv_reach _ _ _ Hids Hr) as Hinv.
  pose proof (owned_reach ids c Hids Hr) as Ho. split; [apply (Ho _ _ _ Hn)|].
  intros j nj dbj e Hij Hj Hi He. apply Hij.
  apply (inv_leader_unique ids c (le_term e)); [done|..].
  - by apply (Ho _ _ _ Hn).
  - by apply (Ho _ _ _ Hj).
Qed.

(** ** Witnesses *)
Module Witness.
Import Example3.

(** The leader [a] after a submission and a round of heartbeats that both
    followers answered. *)
Definition after_heartbeats : cluster unit :=
  default a_elected
    (c2 ← op_submit "a" "img" "first" a_elected; op_heartbeat "a" [Some tm; Some tm] c2).

Lemma after_heartbeats_reach : cluster_reach_of sent_by_program ids after_heartbeats.
Proof.
  unfold after_heartbeats.
  destruct (op_submit _ _ _ _) as [c2|] eqn:E2; [|apply a_elected_reach].
  assert (cluster_reach_of sent_by_program ids c2) as H2.
  { eapply op_submit_reach; [apply a_elected_reach|exact E2]. }
  cbn [mbind option_bind].
  destruct (op_heartbeat _ _ _) as [c3|] eqn:E3; [|apply a_elected_reach].
  eapply op_heartbeat_reach; [done|apply ids_ok|exact H2|exact E3].
Qed.

Lemma entries_stay_local_witness :
  exists na nb, cl_nodes after_heartbeats !! "a"%string = Some (na, tt) /\
    cl_nodes after_heartbeats !! "b"%string = Some (nb, tt) /\
    m_logs na = [dummy_entry; mkLogEntry 1 1 "img" "first"] /\
    m_commitIndex na = 1%Z /\
    mkLogEntry 1 1 "img" "first" ∉ tail (m_logs nb).
Proof.
  destruct (cl_nodes after_heartbeats !! "a"%string) as [[na []]|] eqn:Ea;
    [|vm_compute in Ea; discriminate Ea].
  destruct (cl_nodes after_heartbeats !! "b"%string) as [[nb []]|] eqn:Eb;
    [|vm_compute in Eb; discriminate Eb].
  exists na, nb.
  assert (m_logs na = [dummy_entry; mkLogEntry 1 1 "img" "first"] /\ m_commitIndex na = 1%Z)
    as [El Ec].
  { vm_compute in Ea. injection Ea as <-. split; reflexivity. }
  split; [reflexivity|]. split; [reflexivity|]. split; [exact El|]. split; [exact Ec|].
  apply (proj2 (entries_stay_local ids after_heartbeats "a" na tt ids_ok
                  after_heartbeats_reach Ea) "b"%string nb tt);
    [discriminate|exact Eb|rewrite El; left].
Defined.
End Witness.
