(* ===== verification/RaftTransports.v ===== *)
(** * Two transports that answer alike

    [RaftTransport] is what a [RaftNode] (src/raft/RaftNode.cpp) sees of its peers.
    When two of them give the same answers and stay related ([transport_sim]), a
    node runs its elections and heartbeats over the one exactly as over the other:
    the same node and store at the end, and related transports.  [Network] uses
    it to carry what is proved of the cluster over to the program's own transport. *)
From S2P Require Import Prelude RaftTypes RaftNode RaftInv RaftCluster RaftCommit.

(** The two worlds answer alike to what node [i] asks [peer]s; the answers are
    in range. *)
Record transport_sim {W1 W2 : Type} (T1 : RaftTransport W1) (T2 : RaftTransport W2)
    (i : string) (peer : string -> Prop) (R : W1 -> W2 -> Prop) : Prop := mk_transport_sim {
  sim_vote p h port a w1 w2 :
    R w1 w2 -> peer p -> rv_args_ok a -> rv_candidateId a = i ->
    exists reply w1' w2',
      rpc_request_vote p h port a w1 = (reply, w1') /\
      rpc_request_vote p h port a w2 = (reply, w2') /\ R w1' w2' /\
      forall r, reply = Some r -> is_u64 (rvr_term r);
  sim_append p h port a w1 w2 :
    R w1 w2 -> peer p -> ae_args_wf a -> ae_leaderId a = i -> ae_entries a = [] ->
    exists reply w1' w2',
      rpc_append_entries p h port a w1 = (reply, w1') /\
      rpc_append_entries p h port a w2 = (reply, w2') /\ R w1' w2' /\
      forall r, reply = Some r -> is_u64 (aer_term r);
}.
Arguments sim_vote {_ _ _ _ _ _ _}.
Arguments sim_append {_ _ _ _ _ _ _}.

Section simulation.
Context {W1 W2 : Type} {T1 : RaftTransport W1} {T2 : RaftTransport W2}.
Context {i : string} {peer : string -> Prop} {R : W1 -> W2 -> Prop}.
Context (sim : transport_sim T1 T2 i peer R).

Lemma sendRequestVote_sim n p a w1 w2 :
  R w1 w2 -> peer p -> rv_args_ok a -> rv_candidateId a = i ->
  exists reply w1' w2',
    sendRequestVote n p a w1 = (reply, w1') /\ sendRequestVote n p a w2 = (reply, w2') /\
    R w1' w2' /\ forall r, reply = Some r -> is_u64 (rvr_term r).
Proof.
  intros HR Hp Ha Hc. unfold sendRequestVote.
  destruct (m_peerAddresses n !! p) as [[h port]|]; [by apply (sim_vote sim)|].
  exists None, w1, w2. by split_and!.
Qed.

Lemma sendAppendEntries_sim n p a w1 w2 :
  R w1 w2 -> peer p -> ae_args_wf a -> ae_leaderId a = i -> ae_entries a = [] ->
  exists reply w1' w2',
    sendAppendEntries n p a w1 = (reply, w1') /\ sendAppendEntries n p a w2 = (reply, w2') /\
    R w1' w2' /\ forall r, reply = Some r -> is_u64 (aer_term r).
Proof.
  intros HR Hp Ha Hl He. unfold sendAppendEntries.
  destruct (m_peerAddresses n !! p) as [[h port]|]; [by apply (sim_append sim)|].
  exists None, w1, w2. by split_and!.
Qed.

(** ** Elections *)
Lemma election_loop_sim a ps votes n w1 w2 :
  raft_wf n -> rv_args_ok a -> rv_candidateId a = i -> (forall p, p ∈ ps -> peer p) -> R w1 w2 ->
  exists x w1' w2',
    election_loop a ps votes n w1 = (x, w1') /\ election_loop a ps votes n w2 = (x, w2') /\
    R w1' w2' /\
    match x with inl (_, n') => n' = n | inr n' => raft_wf n' end.
Proof.
  intros Hwf Ha Hc. revert votes w1 w2.
  induction ps as [|p ps IH]; intros votes w1 w2 Hps HR; simpl.
  { eexists _, _, _. by split_and!. }
  destruct (sendRequestVote_sim n p a w1 w2 HR (Hps p ltac:(by left)) Ha Hc)
    as (reply & w1' & w2' & -> & -> & HR' & Hr).
  pose proof (wf_election_collect reply votes n Hwf Hr) as Hcol.
  destruct (election_collect reply votes n) as [[v1 n1]|n1].
  - subst n1. apply IH; [|done]. intros q Hq. apply Hps. by right.
  - eexists _, _, _. split_and!; [done..|apply Hcol].
Qed.

Lemma startElection_sim tm n w1 w2 :
  raft_wf n -> (m_currentTerm n < UINT64_MAX)%Z -> m_nodeId n = i ->
  (forall p, p ∈ m_peers n -> peer p) -> R w1 w2 ->
  exists n' w1' w2',
    startElection tm n w1 = Some (n', w1') /\ startElection tm n w2 = Some (n', w2') /\
    R w1' w2' /\ raft_wf n'.
Proof.
  intros Hwf Ht Hid Hps HR. unfold startElection.
  pose proof (wf_election_begin tm n Hwf Ht) as Hwf1.
  destruct (election_args_eq _ Hwf1) as (e & He & Ea). rewrite Ea. cbn [mbind option_bind].
  pose proof (election_args_ok _ _ Hwf1 Ea) as Ha.
  set (n1 := election_begin tm n) in *. set (a := mkRequestVoteArgs _ _ _ _) in *.
  destruct (election_loop_sim a (m_peers n1) 1 n1 w1 w2 Hwf1 Ha Hid Hps HR)
    as (x & w1' & w2' & -> & -> & HR' & Hx).
  destruct x as [[v n2]|n2]; eexists _, w1', w2'; (split_and!; [done..|]).
  - subst n2. by apply wf_election_finish.
  - exact Hx.
Qed.

(** ** Heartbeats *)
Context {D : Type} `{!KVStore D}.

Lemma heartbeat_peer_sim p n (db : D) w1 w2 :
  raft_wf n -> m_state n = Leader -> m_nodeId n = i -> p ∈ m_peers n -> peer p -> R w1 w2 ->
  exists brk n' db' w1' w2',
    heartbeat_peer p n db w1 = Some (brk, n', db', w1') /\
    heartbeat_peer p n db w2 = Some (brk, n', db', w2') /\ R w1' w2' /\
    raft_wf n' /\ m_peers n' = m_peers n /\ m_nodeId n' = i /\ (brk = false -> m_state n' = Leader).
Proof.
  intros Hwf Hs Hid Hin Hp HR. unfold heartbeat_peer.
  destruct (heartbeat_args_eq p n Hwf Hs Hin) as (nx & prev & Hnx & Hnr & _ & Ha).
  destruct (heartbeat_args_wf _ _ _ _ _ _ Hwf Hs Hin Ha) as (Hwa & Hl & He). rewrite Ha.
  cbn [mbind option_bind].
  destruct (sendAppendEntries_sim n p _ w1 w2 HR Hp Hwa (eq_trans Hl Hid) He)
    as (reply & w1' & w2' & -> & -> & HR' & Hr).
  destruct (wf_heartbeat_reply p nx reply n db Hwf Hs Hin Hnx Hnr Hr)
    as (brk & n' & db' & Hre & Hwf' & Hpe & Hb).
  rewrite Hre. cbn [mbind option_bind].
  eexists brk, n', db', w1', w2'. split_and!; try done.
  rewrite <- Hid. apply (q_id _ _ (heartbeat_reply_quiet _ _ _ _ _ _ _ _ _ Hre)).
Qed.

Lemma heartbeat_peers_sim ps n (db : D) w1 w2 :
  raft_wf n -> m_state n = Leader -> m_nodeId n = i ->
  (forall p, p ∈ ps -> p ∈ m_peers n /\ peer p) -> R w1 w2 ->
  exists n' db' w1' w2',
    heartbeat_peers ps n db w1 = Some (n', db', w1') /\
    heartbeat_peers ps n db w2 = Some (n', db', w2') /\ R w1' w2' /\ raft_wf n'.
Proof.
  revert n db w1 w2. induction ps as [|p ps IH]; intros n db w1 w2 Hwf Hs Hid Hps HR; simpl.
  { eexists n, db, w1, w2. by split_and!. }
  destruct (Hps p ltac:(by left)) as [Hin Hp].
  destruct (heartbeat_peer_sim p n db w1 w2 Hwf Hs Hid Hin Hp HR)
    as (brk & n' & db' & w1' & w2' & -> & -> & HR' & Hwf' & Hpe & Hid' & Hb).
  cbn [mbind option_bind]. destruct brk; [eexists n', db', w1', w2'; by split_and!|].
  apply IH; [done|by apply Hb|done| |done].
  intros q Hq. rewrite Hpe. apply Hps. by right.
Qed.

Lemma heartbeatLoop_turn_sim n (db : D) w1 w2 :
  raft_wf n -> m_nodeId n = i -> (forall p, p ∈ m_peers n -> peer p) -> R w1 w2 ->
  exists n' db' w1' w2',
    heartbeatLoop_turn n db w1 = Some (n', db', w1') /\
    heartbeatLoop_turn n db w2 = Some (n', db', w2') /\ R w1' w2' /\ raft_wf n'.
Proof.
  intros Hwf Hid Hps HR. unfold heartbeatLoop_turn. case_bool_decide as Hs.
  - apply heartbeat_peers_sim; try done. intros p Hp. split; [done|by apply Hps].
  - eexists n, db, w1, w2. by split_and!.
Qed.
End simulation.
