(* ===== verification/RaftRpc.v ===== *)
(** * The Raft messages on the wire

    Both sides of the two remote calls: the requests [sendRequestVote] and
    [sendAppendEntries] build and the replies they read (src/raft/RaftNode.cpp),
    and the handlers of src/server/Connection.cpp that read the requests, call
    the node and build the replies. *)
From S2P Require Import Prelude Text Command Json JsonText RaftTypes RaftNode RaftInv.
From S2P Require Import RaftElection RaftReplication.
Local Open Scope string_scope.

Section rpc.
Context `{!Floats, !JsonText}.

(** [j[key]] converted to the type of the field. *)
Definition uint64_index (key : string) (j : json) : result Z := json_index key j ≫= get_uint64.
Definition string_index (key : string) (j : json) : result string := json_index key j ≫= get_string.
Definition bool_index (key : string) (j : json) : result bool := json_index key j ≫= get_bool.

(** The same on a [const] value. *)
Definition uint64_const (key : string) (j : json) : result Z :=
  json_index_const key j ≫= get_uint64.
Definition string_const (key : string) (j : json) : result string :=
  json_index_const key j ≫= get_string.

(** ** The caller's side *)

(** The message of [sendRequestVote]. *)
Definition vote_args_json (a : RequestVoteArgs) : json :=
  obj_of [("term", JInt (rv_term a)); ("candidateId", JString (rv_candidateId a));
          ("lastLogIndex", JInt (rv_lastLogIndex a)); ("lastLogTerm", JInt (rv_lastLogTerm a))].

Definition vote_request (a : RequestVoteArgs) : result string :=
  d ← or_throw (json_dump (vote_args_json a));
  Ok ("RAFT_REQUEST_VOTE " +:+ d).

Definition entry_json (e : LogEntry) : json :=
  obj_of [("term", JInt (le_term e)); ("index", JInt (le_index e));
          ("key", JString (le_key e)); ("value", JString (le_value e))].

(** The message of [sendAppendEntries]. *)
Definition append_args_json (a : AppendEntriesArgs) : json :=
  obj_of [("term", JInt (ae_term a)); ("leaderId", JString (ae_leaderId a));
          ("prevLogIndex", JInt (ae_prevLogIndex a)); ("prevLogTerm", JInt (ae_prevLogTerm a));
          ("leaderCommit", JInt (ae_leaderCommit a));
          ("entries", JArray (entry_json <$> ae_entries a))].

Definition append_request (a : AppendEntriesArgs) : result string :=
  d ← or_throw (json_dump (append_args_json a));
  Ok ("RAFT_APPEND_ENTRIES " +:+ d).

(** Exceptions while the reply is read make the call return [false]. *)
Definition catch_false {A} (r : result A) : result (option A) :=
  match r with Ok a => Ok (Some a) | Throw => Ok None | Crash => Crash end.

(** What [sendRequestVote] makes of a reply; [None] is the return of [false]. *)
Definition read_vote_reply (reply_str : string) : result (option RequestVoteReply) :=
  match find_char " " reply_str with
  | None => Ok None
  | Some space_pos =>
      catch_false
        (j ← or_throw (json_parse (substr_from (space_pos + 1) reply_str));
         t ← uint64_index "term" j;
         g ← bool_index "voteGranted" j;
         Ok (mkRequestVoteReply t g))
  end.

(** What [sendAppendEntries] makes of a reply. *)
Definition read_append_reply (reply_str : string) : result (option AppendEntriesReply) :=
  match find_char " " reply_str with
  | None => Ok None
  | Some space_pos =>
      catch_false
        (j ← or_throw (json_parse (substr_from (space_pos + 1) reply_str));
         t ← uint64_index "term" j;
         g ← bool_index "success" j;
         Ok (mkAppendEntriesReply t g))
  end.

(** ** The receiver's side *)
Definition read_vote_args (payload : string) : result RequestVoteArgs :=
  j ← or_throw (json_parse payload);
  t ← uint64_index "term" j;
  c ← string_index "candidateId" j;
  i ← uint64_index "lastLogIndex" j;
  lt ← uint64_index "lastLogTerm" j;
  Ok (mkRequestVoteArgs t c i lt).

Definition read_entry (j_entry : json) : result LogEntry :=
  t ← uint64_const "term" j_entry;
  i ← uint64_const "index" j_entry;
  k ← string_const "key" j_entry;
  v ← string_const "value" j_entry;
  Ok (mkLogEntry t i k v).

Fixpoint read_entries (l : list json) : result (list LogEntry) :=
  match l with
  | [] => Ok []
  | j :: l' => e ← read_entry j; es ← read_entries l'; Ok (e :: es)
  end.

Definition read_append_args (payload : string) : result AppendEntriesArgs :=
  j ← or_throw (json_parse payload);
  t ← uint64_index "term" j;
  l ← string_index "leaderId" j;
  pi ← uint64_index "prevLogIndex" j;
  pt ← uint64_index "prevLogTerm" j;
  lc ← uint64_index "leaderCommit" j;
  es ← (if json_contains "entries" j
        then js ← json_index "entries" j; read_entries (json_items js)
        else Ok []);
  Ok (mkAppendEntriesArgs t l pi pt es lc).

Definition vote_reply_json (r : RequestVoteReply) : json :=
  obj_of [("term", JInt (rvr_term r)); ("voteGranted", JBool (rvr_voteGranted r))].

Definition vote_reply_text (r : RequestVoteReply) : result string :=
  d ← or_throw (json_dump (vote_reply_json r));
  Ok ("RAFT_REQUEST_VOTE_REPLY " +:+ d).

Definition append_reply_json (r : AppendEntriesReply) : json :=
  obj_of [("term", JInt (aer_term r)); ("success", JBool (aer_success r))].

Definition append_reply_text (r : AppendEntriesReply) : result string :=
  d ← or_throw (json_dump (append_reply_json r));
  Ok ("RAFT_APPEND_ENTRIES_REPLY " +:+ d).

(** A vector read out of range inside the node is a crash. *)
Definition or_crash {A} (o : option A) : result A :=
  match o with Some a => Ok a | None => Crash end.

(** The [catch] of a handler: an exception gives the error reply.  The node
    keeps what was done before it. *)
Definition with_error {S} (s0 : S) (r : result (string * S)) : result (string * S) :=
  match r with Throw => Ok ("ERROR invalid payload", s0) | _ => r end.

(** [handleRaftRequestVote(msg)]: the reply sent and the node; [None] is a
    connection without a Raft node. *)
Definition handleRaftRequestVote (tm : Timer) (msg : string) (node : option RaftNode)
  : result (string * option RaftNode) :=
  match find_char " " msg with
  | None => Ok ("ERROR missing payload", node)
  | Some pos =>
      match read_vote_args (substr_from (pos + 1) msg) with
      | Ok args =>
          '(reply, node') ←
            match node with
            | Some n => '(r, n') ← or_crash (handleRequestVote tm args n); Ok (r, Some n')
            | None => Ok (mkRequestVoteReply (rv_term args) false, None)
            end;
          with_error node' (s ← vote_reply_text reply; Ok (s, node'))
      | Throw => Ok ("ERROR invalid payload", node)
      | Crash => Crash
      end
  end.

(** [handleRaftAppendEntries(msg)] *)
Definition handleRaftAppendEntries {D : Type} `{!KVStore D} (tm : Timer) (msg : string)
    (node : option RaftNode) (db : D) : result (string * (option RaftNode * D)) :=
  match find_char " " msg with
  | None => Ok ("ERROR missing payload", (node, db))
  | Some pos =>
      match read_append_args (substr_from (pos + 1) msg) with
      | Ok args =>
          '(reply, st) ←
            match node with
            | Some n =>
                '(r, n', db') ← or_crash (handleAppendEntries tm args n db); Ok (r, (Some n', db'))
            | None => Ok (mkAppendEntriesReply (ae_term args) false, (None, db))
            end;
          with_error st (s ← append_reply_text reply; Ok (s, st))
      | Throw => Ok ("ERROR invalid payload", (node, db))
      | Crash => Crash
      end
  end.
End rpc.

(** ** The round trips *)
Section rpc_lemmas.
Context `{!Floats, !JsonText, !JsonTextLaws}.

Lemma u64_json_int z : is_u64 z -> json_int_ok z.
Proof. unfold is_u64, json_int_ok. lia. Qed.

(** The objects with their keys in order. *)
Lemma vote_args_json_eq a : vote_args_json a =
  JObject [("candidateId", JString (rv_candidateId a)); ("lastLogIndex", JInt (rv_lastLogIndex a));
           ("lastLogTerm", JInt (rv_lastLogTerm a)); ("term", JInt (rv_term a))].
Proof. reflexivity. Qed.

Lemma entry_json_eq e : entry_json e =
  JObject [("index", JInt (le_index e)); ("key", JString (le_key e));
           ("term", JInt (le_term e)); ("value", JString (le_value e))].
Proof. reflexivity. Qed.

Lemma append_args_json_eq a : append_args_json a =
  JObject [("entries", JArray (entry_json <$> ae_entries a)); ("leaderCommit", JInt (ae_leaderCommit a));
           ("leaderId", JString (ae_leaderId a)); ("prevLogIndex", JInt (ae_prevLogIndex a));
           ("prevLogTerm", JInt (ae_prevLogTerm a)); ("term", JInt (ae_term a))].
Proof. reflexivity. Qed.

Lemma vote_reply_json_eq r : vote_reply_json r =
  JObject [("term", JInt (rvr_term r)); ("voteGranted", JBool (rvr_voteGranted r))].
Proof. reflexivity. Qed.

Lemma append_reply_json_eq r : append_reply_json r =
  JObject [("success", JBool (aer_success r)); ("term", JInt (aer_term r))].
Proof. reflexivity. Qed.

(** A word, a space and a text: the cut the receivers make. *)
Lemma cut_word w d :
  no_space w = true ->
  find_char " " (w +:+ String " " d) = Some (String.length w) /\
  substr_from (String.length w + 1) (w +:+ String " " d) = d.
Proof.
  intros Hw. split; [by apply find_char_space|]. rewrite Nat.add_comm.
  apply substr_from_next.
Qed.

Lemma vote_request_read a :
  rv_args_ok a -> utf8_ok (rv_candidateId a) = true ->
  exists d, vote_request a = Ok ("RAFT_REQUEST_VOTE" +:+ String " " d) /\
    read_vote_args d = Ok a.
Proof.
  intros (Ht & Hi & Hlt) Hc. unfold vote_request. rewrite vote_args_json_eq.
  match goal with |- context [json_dump ?j] =>
    assert (json_ok j) as Hj by (object_ok; try done; by apply u64_json_int);
    destruct (dump_parse j Hj) as (d & -> & Hp) end.
  exists d. split; [done|]. unfold read_vote_args. rewrite Hp.
  unfold uint64_index, string_index. cbn -[u64]. rewrite !u64_small by done. by destruct a.
Qed.

Lemma entry_json_ok e :
  entry_ok e -> utf8_ok (le_key e) = true -> utf8_ok (le_value e) = true ->
  json_ok (entry_json e).
Proof. intros [Ht Hi] Hk Hv. rewrite entry_json_eq. object_ok; try done; by apply u64_json_int. Qed.

Lemma read_entry_json e : entry_ok e -> read_entry (entry_json e) = Ok e.
Proof.
  intros [Ht Hi]. rewrite entry_json_eq. unfold read_entry, uint64_const, string_const. cbn -[u64].
  rewrite !u64_small by done. by destruct e.
Qed.

Lemma read_entries_json es :
  Forall entry_ok es -> read_entries (entry_json <$> es) = Ok es.
Proof.
  induction 1 as [|e es He Hes IH]; [done|]. rewrite fmap_cons. cbn [read_entries].
  rewrite read_entry_json by done. cbn [mbind result_bind]. by rewrite IH.
Qed.

(** The strings of a message. *)
Definition entries_utf8 (es : list LogEntry) : Prop :=
  Forall (fun e => utf8_ok (le_key e) = true /\ utf8_ok (le_value e) = true) es.

Lemma append_request_read a :
  ae_args_ok a -> utf8_ok (ae_leaderId a) = true -> entries_utf8 (ae_entries a) ->
  exists d, append_request a = Ok ("RAFT_APPEND_ENTRIES" +:+ String " " d) /\
    read_append_args d = Ok a.
Proof.
  intros (Ht & Hi & Hpt & Hlc & Hes) Hl Hu. unfold append_request. rewrite append_args_json_eq.
  match goal with |- context [json_dump ?j] => assert (json_ok j) as Hj end.
  { object_ok; try done; try by apply u64_json_int.
    apply json_ok_array, Forall_fmap. apply Forall_forall. intros e He.
    unfold entries_utf8 in Hu. rewrite Forall_forall in Hes, Hu.
    apply entry_json_ok; [by apply Hes|by apply Hu..]. }
  destruct (dump_parse _ Hj) as (d & -> & Hp).
  exists d. split; [done|]. unfold read_append_args. rewrite Hp.
  unfold uint64_index, string_index. cbn -[u64]. rewrite !u64_small by done.
  change (list_fmap LogEntry json entry_json (ae_entries a)) with (entry_json <$> ae_entries a).
  rewrite read_entries_json by done. by destruct a.
Qed.

Lemma vote_reply_read r :
  is_u64 (rvr_term r) ->
  exists s, vote_reply_text r = Ok s /\ read_vote_reply s = Ok (Some r).
Proof.
  intros Ht. unfold vote_reply_text. rewrite vote_reply_json_eq.
  match goal with |- context [json_dump ?j] =>
    assert (json_ok j) as Hj by (object_ok; try done; by apply u64_json_int);
    destruct (dump_parse j Hj) as (d & -> & Hp) end.
  eexists. split; [done|]. unfold read_vote_reply.
  destruct (cut_word "RAFT_REQUEST_VOTE_REPLY" d eq_refl) as [Hf Hs].
  change ("RAFT_REQUEST_VOTE_REPLY " +:+ d) with ("RAFT_REQUEST_VOTE_REPLY" +:+ String " " d).
  rewrite Hf, Hs, Hp. unfold uint64_index, bool_index. cbn -[u64]. rewrite u64_small by done.
  by destruct r.
Qed.

Lemma append_reply_read r :
  is_u64 (aer_term r) ->
  exists s, append_reply_text r = Ok s /\ read_append_reply s = Ok (Some r).
Proof.
  intros Ht. unfold append_reply_text. rewrite append_reply_json_eq.
  match goal with |- context [json_dump ?j] =>
    assert (json_ok j) as Hj by (object_ok; try done; by apply u64_json_int);
    destruct (dump_parse j Hj) as (d & -> & Hp) end.
  eexists. split; [done|]. unfold read_append_reply.
  destruct (cut_word "RAFT_APPEND_ENTRIES_REPLY" d eq_refl) as [Hf Hs].
  change ("RAFT_APPEND_ENTRIES_REPLY " +:+ d) with ("RAFT_APPEND_ENTRIES_REPLY" +:+ String " " d).
  rewrite Hf, Hs, Hp. unfold uint64_index, bool_index. cbn -[u64]. rewrite u64_small by done.
  by destruct r.
Qed.
End rpc_lemmas.

(** The term of a reply is a term the node has or had. *)
Lemma vote_reply_term tm a n r n' :
  handleRequestVote tm a n = Some (r, n') -> rvr_term r = m_currentTerm n'.
Proof.
  unfold handleRequestVote. intros H. case_match; [by simplify_eq|].
  apply bind_Some in H as (e & _ & H). case_match; by simplify_eq.
Qed.

Lemma append_reply_term {D : Type} `{!KVStore D} tm a n (db : D) r n' db' :
  handleAppendEntries tm a n db = Some (r, n', db') ->
  aer_term r = m_currentTerm n \/ aer_term r = m_currentTerm n'.
Proof.
  unfold handleAppendEntries. intros H. case_match; [simplify_eq; by left|].
  case_match; [simplify_eq; by left|]. apply bind_Some in H as (e & _ & H).
  case_match; [simplify_eq; by left|].
  apply bind_Some in H as ([n3 db3] & _ & H). simplify_eq. by right.
Qed.

(** Everything about one vote request on the wire. *)
Lemma vote_rpc_parts `{!Floats, !JsonText, !JsonTextLaws} tm a n :
  raft_wf n -> rv_args_ok a -> utf8_ok (rv_candidateId a) = true ->
  exists m r n' s,
    vote_request a = Ok m /\ handleRequestVote tm a n = Some (r, n') /\
    parseCommand (getFirstToken m) = RAFT_REQUEST_VOTE /\
    handleRaftRequestVote tm m (Some n) = Ok (s, Some n') /\
    vote_reply_text r = Ok s /\ read_vote_reply s = Ok (Some r).
Proof.
  intros Hwf Ha Hu. destruct (vote_request_read a Ha Hu) as (d & Hm & Hd).
  destruct (wf_handleRequestVote tm a n Hwf Ha) as (r & n' & Hh & Hwf').
  destruct (vote_reply_read r) as (s & Hs & Hr).
  { rewrite (vote_reply_term _ _ _ _ _ Hh). apply (wf_term _ Hwf'). }
  destruct (cut_word "RAFT_REQUEST_VOTE" d eq_refl) as [Hf Hc].
  exists ("RAFT_REQUEST_VOTE" +:+ String " " d), r, n', s. split_and!; [done|done| | |done|done].
  - by rewrite getFirstToken_word.
  - unfold handleRaftRequestVote. rewrite Hf, Hc, Hd, Hh. cbn. by rewrite Hs.
Qed.

(** Everything about one append message on the wire. *)
Lemma append_rpc_parts `{!Floats, !JsonText, !JsonTextLaws} {D : Type} `{!KVStore D}
    tm a n (db : D) :
  raft_wf n -> ae_args_wf a -> room_for (length (ae_entries a)) n ->
  utf8_ok (ae_leaderId a) = true -> entries_utf8 (ae_entries a) ->
  exists m r n' db' s,
    append_request a = Ok m /\ handleAppendEntries tm a n db = Some (r, n', db') /\
    parseCommand (getFirstToken m) = RAFT_APPEND_ENTRIES /\
    handleRaftAppendEntries tm m (Some n) db = Ok (s, (Some n', db')) /\
    append_reply_text r = Ok s /\ read_append_reply s = Ok (Some r).
Proof.
  intros Hwf Ha Hroom Hl Hu.
  destruct (append_request_read a (proj1 Ha) Hl Hu) as (d & Hm & Hd).
  destruct (wf_handleAppendEntries tm a n db Hwf Ha Hroom) as (r & n' & db' & Hh & Hwf').
  destruct (append_reply_read r) as (s & Hs & Hr).
  { destruct (append_reply_term _ _ _ _ _ _ _ Hh) as [->| ->]; by apply wf_term. }
  destruct (cut_word "RAFT_APPEND_ENTRIES" d eq_refl) as [Hf Hc].
  exists ("RAFT_APPEND_ENTRIES" +:+ String " " d), r, n', db', s.
  split_and!; [done|done| | |done|done].
  - by rewrite getFirstToken_word.
  - unfold handleRaftAppendEntries. rewrite Hf, Hc, Hd, Hh. cbn. by rewrite Hs.
Qed.

(** ** The properties *)

(** The wire is transparent for votes: the message [sendRequestVote] builds
    is dispatched to [handleRaftRequestVote], which calls the node with the very
    arguments that were sent, and what the sender reads from the answer is the
    node's reply. *)
Theorem vote_rpc_transparent `{!Floats, !JsonText, !JsonTextLaws} tm a n :
  raft_wf n -> rv_args_ok a -> utf8_ok (rv_candidateId a) = true ->
  exists m r n' s,
    vote_request a = Ok m /\ parseCommand (getFirstToken m) = RAFT_REQUEST_VOTE /\
    handleRequestVote tm a n = Some (r, n') /\
    handleRaftRequestVote tm m (Some n) = Ok (s, Some n') /\
    read_vote_reply s = Ok (Some r).
Proof.
  intros Hwf Ha Hu.
  destruct (vote_rpc_parts tm a n Hwf Ha Hu) as (m & r & n' & s & ? & ? & ? & ? & _ & ?).
  exists m, r, n', s. by split_and!.
Qed.

(** The same for log replication: entries, indices and terms arrive as they
    were sent, the node and the store are those of a direct call, and the sender reads
    the node's reply. *)
Theorem append_rpc_transparent `{!Floats, !JsonText, !JsonTextLaws} {D : Type} `{!KVStore D}
    tm a n (db : D) :
  raft_wf n -> ae_args_wf a -> room_for (length (ae_entries a)) n ->
  utf8_ok (ae_leaderId a) = true -> entries_utf8 (ae_entries a) ->
  exists m r n' db' s,
    append_request a = Ok m /\ parseCommand (getFirstToken m) = RAFT_APPEND_ENTRIES /\
    handleAppendEntries tm a n db = Some (r, n', db') /\
    handleRaftAppendEntries tm m (Some n) db = Ok (s, (Some n', db')) /\
    read_append_reply s = Ok (Some r).
Proof.
  intros Hwf Ha Hroom Hl Hu.
  destruct (append_rpc_parts tm a n db Hwf Ha Hroom Hl Hu)
    as (m & r & n' & db' & s & ? & ? & ? & ? & _ & ?).
  exists m, r, n', db', s. by split_and!.
Qed.

(** A request whose entries are replaced by other values. *)
Definition append_json_with `{!Floats} (a : AppendEntriesArgs) (js : list json) : json :=
  obj_of [("term", JInt (ae_term a)); ("leaderId", JString (ae_leaderId a));
          ("prevLogIndex", JInt (ae_prevLogIndex a)); ("prevLogTerm", JInt (ae_prevLogTerm a));
          ("leaderCommit", JInt (ae_leaderCommit a)); ("entries", JArray js)].

Lemma append_json_with_eq `{!Floats} a js : append_json_with a js =
  JObject [("entries", JArray js); ("leaderCommit", JInt (ae_leaderCommit a));
           ("leaderId", JString (ae_leaderId a)); ("prevLogIndex", JInt (ae_prevLogIndex a));
           ("prevLogTerm", JInt (ae_prevLogTerm a)); ("term", JInt (ae_term a))].
Proof. reflexivity. Qed.

(** An append message with an entry that lacks its term does not get the
    error reply: the entries are read through [const] references, where
    [operator[]] on a missing key fails an assertion of the library, so one
    message from any client ends the process (the project's build type is Debug). *)
Theorem missing_entry_field_crashes `{!Floats, !JsonText, !JsonTextLaws} a m js :
  ae_args_ok a -> utf8_ok (ae_leaderId a) = true ->
  json_ok (JObject m) -> Forall json_ok js -> obj_find "term" m = None ->
  exists d, json_dump (append_json_with a (JObject m :: js)) = Some d /\
    forall (D : Type) (K : KVStore D) tm node (db : D),
      handleRaftAppendEntries tm ("RAFT_APPEND_ENTRIES" +:+ String " " d) node db = Crash.
Proof.
  intros (Ht & Hi & Hpt & Hlc & _) Hl Hm Hjs Hf.
  assert (json_ok (append_json_with a (JObject m :: js))) as Hj.
  { rewrite append_json_with_eq. apply json_ok_object. split.
    - repeat (apply keys_cons; [repeat constructor|]). constructor.
    - repeat (apply List.Forall_cons; [split; [by apply utf8_ascii|]|]);
        try apply List.Forall_nil; try done; try by apply u64_json_int.
      apply json_ok_array. by apply Forall_cons. }
  destruct (dump_parse _ Hj) as (d & Hd & Hp). exists d. split; [done|].
  intros D K tm node db. unfold handleRaftAppendEntries.
  destruct (cut_word "RAFT_APPEND_ENTRIES" d eq_refl) as [-> ->].
  unfold read_append_args. rewrite Hp, append_json_with_eq.
  unfold uint64_index, string_index. cbn -[u64]. unfold read_entry, uint64_const.
  cbn -[u64]. by rewrite Hf.
Qed.

(** ** Witnesses *)
Module Witness.
Import Example3.

Definition fresh_b : RaftNode := RaftNode_new "b" ["a"; "c"] tm.
Definition vote : RequestVoteArgs := mkRequestVoteArgs 1 "a" 0 0.
Definition first_append : AppendEntriesArgs :=
  mkAppendEntriesArgs 1 "a" 0 0 [mkLogEntry 1 1 "img" "frame"] 0.

Lemma fresh_b_wf : raft_wf fresh_b.
Proof. apply RaftNode_new_wf. Qed.

Lemma vote_wf : rv_args_ok vote.
Proof. unfold rv_args_ok, is_u64. simpl. lia. Qed.

Lemma first_append_wf : ae_args_wf first_append.
Proof.
  split; [|split].
  - unfold ae_args_ok, is_u64. simpl. split_and!; try lia.
    repeat (apply Forall_cons; split); try apply Forall_nil_2;
      unfold entry_ok, is_u64; simpl; lia.
  - intros [|i] e He; simpl in He; by simplify_eq.
  - by vm_compute.
Qed.

Lemma vote_rpc_transparent_witness :
  exists s n', handleRaftRequestVote tm
      ("RAFT_REQUEST_VOTE" +:+ String " " (print (vote_args_json vote))) (Some fresh_b)
    = Ok (s, Some n') /\
    read_vote_reply s = Ok (Some (mkRequestVoteReply 1 true)).
Proof.
  destruct (@vote_rpc_transparent int_floats compact_text compact_laws tm vote fresh_b fresh_b_wf vote_wf eq_refl)
    as (m & r & n' & s & Hm & _ & Hh & Hw & Hr).
  exists s, n'. unfold vote_request in Hm. cbn in Hm. injection Hm as <-.
  split; [exact Hw|]. rewrite Hr. vm_compute in Hh. by injection Hh as <- _.
Defined.

Lemma append_rpc_transparent_witness :
  exists s n' (db' : gmap string string), handleRaftAppendEntries tm
      ("RAFT_APPEND_ENTRIES" +:+ String " " (print (append_args_json first_append)))
      (Some fresh_b) ∅
    = Ok (s, (Some n', db')) /\
    read_append_reply s = Ok (Some (mkAppendEntriesReply 1 true)).
Proof.
  destruct (@append_rpc_transparent int_floats compact_text compact_laws (gmap string string)
    map_store tm first_append fresh_b (∅ : gmap string string)
    fresh_b_wf first_append_wf ltac:(by vm_compute) eq_refl
    ltac:(repeat constructor)) as (m & r & n' & db' & s & Hm & _ & Hh & Hw & Hr).
  exists s, n', db'. unfold append_request in Hm. cbn in Hm. injection Hm as <-.
  split; [exact Hw|]. rewrite Hr. vm_compute in Hh. by injection Hh as <- _ _.
Defined.

Lemma missing_entry_field_crashes_witness :
  exists d, handleRaftAppendEntries tm ("RAFT_APPEND_ENTRIES" +:+ String " " d) None tt = Crash.
Proof.
  destruct (@missing_entry_field_crashes int_floats compact_text compact_laws first_append [] []) as (d & _ & Hd).
  - exact (proj1 first_append_wf).
  - reflexivity.
  - apply json_ok_object. split; [apply SSorted_nil|apply Forall_nil_2].
  - apply Forall_nil_2.
  - reflexivity.
  - exists d. apply Hd.
Defined.
End Witness.
