(* ===== verification/RaftSend.v ===== *)
(** * The remote calls over the connection pool
    (src/raft/RaftNode.cpp: [sendRequestVote], [sendAppendEntries] below the
    address lookup)

    A call borrows a connection from the pool, sends the request, reads one
    message, gives the connection back and reads the message as the reply.  The
    sockets are non-blocking, so what the call returns depends on what happens
    [between] the send and the read; what it reads need not be the reply to
    its own request. *)
From S2P Require Import Prelude Socket Text Command Protocol ConnPool Descriptors PoolStreams.
From S2P Require Import Json JsonText RaftTypes RaftNode RaftInv RaftRpc.
Local Open Scope string_scope.

Section send.
Context `{!Floats, !JsonText} {O S : Type} `{!PoolOS O, !FdTable O S, !SocketOps S}.

(** The pool and the process. *)
Definition pooled_world : Type := RaftConnectionPool * O.

(** The part the two calls share: [None] is a return of [false]; an exception
    of [dump] leaves the call with the connection still borrowed. *)
Definition rpc_exchange (between : pooled_world -> pooled_world) (peerId host : string)
    (port : Z) (request : result string) (w : pooled_world)
  : result (option string) * pooled_world :=
  let '(p, o) := w in
  let '(fd, p1, o1) := getConnection peerId host port p o in
  if (fd <? 0)%Z then (Ok None, (p1, o1))
  else
    match request with
    | Throw => (Throw, (p1, o1))
    | Crash => (Crash, (p1, o1))
    | Ok msg =>
        let '(sent, o2) := fd_sendMessage fd (chars msg) o1 in
        if negb sent then (Ok None, releaseConnection peerId fd p1 o2)
        else
          let '(p3, o3) := between (p1, o2) in
          let '(ok, response, o4) := fd_recvMessage fd [] o3 in
          if negb ok then (Ok None, releaseConnection peerId fd p3 o4)
          else (Ok (Some (text response)), releaseConnection peerId fd p3 o4)
    end.

(** [sendRequestVote] and [sendAppendEntries] once the address is known. *)
Definition request_vote_rpc (between : pooled_world -> pooled_world) (peerId host : string)
    (port : Z) (args : RequestVoteArgs) (w : pooled_world)
  : result (option RequestVoteReply) * pooled_world :=
  let '(r, w') := rpc_exchange between peerId host port (vote_request args) w in
  (r' ← r; match r' with None => Ok None | Some reply_str => read_vote_reply reply_str end, w').

Definition append_entries_rpc (between : pooled_world -> pooled_world) (peerId host : string)
    (port : Z) (args : AppendEntriesArgs) (w : pooled_world)
  : result (option AppendEntriesReply) * pooled_world :=
  let '(r, w') := rpc_exchange between peerId host port (append_request args) w in
  (r' ← r; match r' with None => Ok None | Some reply_str => read_append_reply reply_str end, w').
End send.

(** ** The steps of an exchange *)
Section exchange.
Context {O S : Type} `{!PoolOS O, !PoolOSLaws O, !FdTable O S, !SocketOps S, !SocketLaws S}.
Context `{!FdTableLaws O S}.

(** A connection with [s] behind it is alive unless its peer closed it and
    nothing is left to read. *)
Lemma valid_stream fd (o : O) (s : S) :
  (0 <= fd)%Z -> fd_stream fd o = Some s ->
  isConnectionValid fd o = negb (bool_decide (sk_avail s = []) && sk_eof s).
Proof.
  intros H0 E. unfold isConnectionValid. rewrite (proj2 (Z.ltb_ge fd 0)) by lia.
  rewrite (fd_peek_stream fd o s E), sk_peek_spec by lia.
  destruct (sk_avail s); simpl; [by destruct (sk_eof s)|done].
Qed.

(** Giving back a live connection puts it at the end of the peer's queue. *)
Lemma releaseConnection_pooled peer fd p (o : O) :
  m_fdToPeerMap p !! fd = Some peer -> isConnectionValid fd o = true ->
  length (queue_of p peer) < MAX_CONNECTIONS_PER_PEER ->
  releaseConnection peer fd p o =
    (mkPool (<[peer := (queue_of p peer ++ [mkConnectionInfo fd "" 0 (os_now o) false])%list]>
               (m_connectionPools p)) (m_fdToPeerMap p) (cp_running p), o).
Proof.
  intros Hm Hv Hl. unfold releaseConnection. rewrite bool_decide_true by done. cbn [negb].
  rewrite Hv. cbn [negb]. by rewrite (proj2 (Nat.ltb_lt _ _)).
Qed.

(** The registration of what [getConnection] hands out. *)
Lemma getConnection_registered p B peer host port (o : O) fd p' o' :
  pool_ok p B o -> getConnection peer host port p o = (fd, p', o') -> (0 <= fd)%Z ->
  m_fdToPeerMap p' !! fd = Some peer.
Proof.
  intros [Hi _] E H0. pose proof (getConnection_cases _ _ _ _ _ _ _ _ E H0) as Hc.
  destruct (queue_of p peer) as [|front rest] eqn:Eq; [tauto|].
  destruct Hc as [_ Hc]. destruct (isConnectionValid (ci_fd front) o); [|tauto].
  destruct Hc as [-> ->]. eapply (pi_pooled _ _ Hi). rewrite Eq. apply list_elem_of_here.
Qed.

(** The front of the queue is handed out when it is alive. *)
Lemma getConnection_front peer host port p (o : O) conn rest :
  m_connectionPools p !! peer = Some (conn :: rest) ->
  isConnectionValid (ci_fd conn) o = true ->
  getConnection peer host port p o =
    (ci_fd conn, mkPool (<[peer := rest]> (m_connectionPools p)) (m_fdToPeerMap p) (cp_running p), o).
Proof. intros E Hv. unfold getConnection, reuse_front. by rewrite E, Hv. Qed.

(** The exchange when a connection was had and the request sent. *)
Lemma rpc_exchange_sent between peer host port msg p (o : O) fd p1 o1 s1 s2 :
  getConnection peer host port p o = (fd, p1, o1) -> (0 <= fd)%Z ->
  fd_stream fd o1 = Some s1 -> sendMessage (chars msg) s1 = (true, s2) ->
  exists o2, fd_stream fd o2 = Some s2 /\ os_open o2 = os_open o1 /\
    rpc_exchange between peer host port (Ok msg) (p, o) =
      (let '(p3, o3) := between (p1, o2) in
       let '(ok, response, o4) := fd_recvMessage fd [] o3 in
       if negb ok then (Ok None, releaseConnection peer fd p3 o4)
       else (Ok (Some (text response)), releaseConnection peer fd p3 o4)).
Proof.
  intros Eg H0 E1 Hs. destruct (fd_sendMessage_eq fd _ _ _ _ _ E1 Hs) as [Hsend E2].
  exists (fd_update fd s2 o1). split; [done|].
  split; [by eapply fd_update_open, fd_stream_is_open|].
  unfold rpc_exchange. rewrite Eg, (proj2 (Z.ltb_ge fd 0)) by lia. by rewrite Hsend.
Qed.

(** When the next unread message is [r], the exchange returns [r]. *)
Lemma rpc_exchange_reads between peer host port msg p (o : O) fd p1 o1 s1 s2 r :
  getConnection peer host port p o = (fd, p1, o1) -> (0 <= fd)%Z ->
  fd_stream fd o1 = Some s1 -> sendMessage (chars msg) s1 = (true, s2) ->
  message_ok (chars r) ->
  (forall o2, fd_stream fd o2 = Some s2 ->
     exists s3 rest, fd_stream fd (between (p1, o2)).2 = Some s3 /\
       sk_avail s3 = (frame (chars r) ++ rest)%list) ->
  (rpc_exchange between peer host port (Ok msg) (p, o)).1 = Ok (Some r).
Proof.
  intros Eg H0 E1 Hs Hr Hb.
  destruct (rpc_exchange_sent between peer host port msg p o fd p1 o1 s1 s2 Eg H0 E1 Hs)
    as (o2 & E2 & _ & ->).
  destruct (Hb o2 E2) as (s3 & rest & E3 & Ha). destruct (between (p1, o2)) as [p3 o3].
  cbn [snd] in E3.
  destruct (recvMessage_frame [] s3 (chars r) rest Hr Ha) as (s4 & Hrecv & _).
  destruct (fd_recvMessage_eq fd _ _ _ _ _ _ E3 Hrecv) as [-> _].
  cbn [negb fst]. by rewrite text_chars.
Qed.

(** Borrowed and given back: whatever the outcome, unless the request has no text. *)
Lemma rpc_exchange_preserves between peer host port msg p B (o : O) :
  (forall p1 B1 o1, pool_ok p1 B1 o1 ->
     preserves p1 B1 o1 (between (p1, o1)).1 B1 (between (p1, o1)).2) ->
  pool_ok p B o ->
  let '(_, (p', o')) := rpc_exchange between peer host port (Ok msg) (p, o) in
  preserves p B o p' B o'.
Proof.
  intros Hb Hok. unfold rpc_exchange.
  destruct (getConnection peer host port p o) as [[fd p1] o1] eqn:Eg.
  destruct (getConnection_preserves _ _ _ _ _ _ _ _ _ Hok Eg) as (H1 & HN & _).
  unfold lend in H1. destruct (Z.ltb_spec fd 0).
  { by rewrite (proj2 (Z.leb_gt 0 fd)) in H1. }
  rewrite (proj2 (Z.leb_le 0 fd)) in H1 by lia.
  assert (forall p2 o2, preserves p1 (<[fd := peer]> B) o1 p2 (<[fd := peer]> B) o2 ->
    let '(p', o') := releaseConnection peer fd p2 o2 in preserves p B o p' B o') as Hback.
  { intros p2 o2 H2. destruct (releaseConnection peer fd p2 o2) as [p' o'] eqn:Er.
    destruct (preserves_trans _ _ _ _ _ _ _ _ _ H1 H2) as [Hok2 _].
    eapply releaseConnection_preserves in Er; [|exact Hok2|apply lookup_insert_eq].
    rewrite delete_insert_id in Er by done.
    eapply preserves_trans; [exact H1|]. eapply preserves_trans; [exact H2|exact Er]. }
  assert (forall oa ob pb Bb, pool_ok pb Bb oa -> os_open ob = os_open oa ->
    preserves pb Bb oa pb Bb ob) as Hsame.
  { intros oa ob pb Bb Hokb Ho. apply preserves_same_open; [apply Hokb|done|done|done]. }
  pose proof (fd_sendMessage_but fd (chars msg) o1) as [Hs _].
  destruct (fd_sendMessage fd (chars msg) o1) as [sent o2]. cbn [snd] in Hs.
  assert (preserves p1 (<[fd := peer]> B) o1 p1 (<[fd := peer]> B) o2) as H2
    by (apply Hsame; [apply H1|done]).
  destruct sent; cbn [negb].
  - specialize (Hb _ _ _ (proj1 H2)). destruct (between (p1, o2)) as [p3 o3]. cbn [fst snd] in Hb.
    pose proof (fd_recvMessage_but fd [] o3) as [Hr _].
    destruct (fd_recvMessage fd [] o3) as [[ok resp] o4]. cbn [snd] in Hr.
    specialize (Hback p3 o4). destruct (releaseConnection peer fd p3 o4) as [p' o'].
    assert (preserves p B o p' B o') by
      (apply Hback; eapply preserves_trans; [exact H2|]; eapply preserves_trans; [exact Hb|];
       apply Hsame; [apply Hb|done]).
    by destruct ok.
  - specialize (Hback p1 o2 H2). by destruct (releaseConnection peer fd p1 o2).
Qed.

(** An exception of [dump]: what was borrowed is not given back. *)
Lemma rpc_exchange_threw between peer host port p B (o : O) fd p1 o1 :
  pool_ok p B o -> getConnection peer host port p o = (fd, p1, o1) ->
  rpc_exchange between peer host port Throw (p, o)
    = (if (fd <? 0)%Z then Ok None else Throw, (p1, o1)) /\
  preserves p B o p1 (lend peer fd B) o1.
Proof.
  intros Hok Eg. unfold rpc_exchange. rewrite Eg.
  split; [by destruct (fd <? 0)%Z|]. by eapply getConnection_preserves.
Qed.

(** Whatever the request, the exchange uses the one descriptor it was given: other streams
    are as they were, except that the dead connection it found in the queue is closed. *)
Lemma rpc_exchange_others (X : gset Z) between peer host port request p (o : O) fd' :
  (forall w, streams_kept X w.2 (between w).2) ->
  fd' ∈ X -> fd' ∈ os_open o -> fd' <> (getConnection peer host port p o).1.1 ->
  let o' := (rpc_exchange between peer host port request (p, o)).2.2 in
  fd_stream fd' o' = fd_stream fd' o \/ fd' ∈ fds (queue_of p peer) /\ fd' ∉ os_open o'.
Proof.
  intros Hk HX Hin Hne. cbv zeta. unfold rpc_exchange.
  destruct (getConnection peer host port p o) as [[fd p1] o1] eqn:Eg. cbn [fst] in Hne.
  pose proof (getConnection_others _ _ _ _ _ _ _ _ _ Eg Hin Hne) as Hget.
  assert (forall o', fd_stream fd' o' = fd_stream fd' o1 ->
    fd_stream fd' o' = fd_stream fd' o \/ fd' ∈ fds (queue_of p peer) /\ fd' ∉ os_open o') as Hend.
  { intros o' E. destruct Hget as [Hs|[Hq Hc]]; [left; congruence|right]. split; [done|].
    rewrite <- fd_stream_open, E, fd_stream_open. done. }
  assert (forall p2 o2, fd_stream fd' o2 = fd_stream fd' o1 ->
    fd_stream fd' (releaseConnection peer fd p2 o2).2 = fd_stream fd' o1) as Hrel.
  { intros p2 o2 <-. apply kept_singleton, releaseConnection_kept. set_solver. }
  destruct (fd <? 0)%Z; [by apply Hend|]. destruct request as [msg| |]; [|by apply Hend..].
  destruct (fd_sendMessage_but fd (chars msg) o1) as [_ Hs]. specialize (Hs fd' Hne).
  destruct (fd_sendMessage fd (chars msg) o1) as [sent o2]. cbn [snd] in Hs.
  destruct sent; cbn [negb snd]; [|by apply Hend, Hrel].
  specialize (Hk (p1, o2) fd' HX). destruct (between (p1, o2)) as [p3 o3]. cbn [snd] in Hk.
  destruct (fd_recvMessage_but fd [] o3) as [_ Hr]. specialize (Hr fd' Hne).
  destruct (fd_recvMessage fd [] o3) as [[ok resp] o4]. cbn [snd] in Hr.
  destruct ok; cbn [negb snd]; apply Hend, Hrel; congruence.
Qed.
End exchange.

(** The transport the Raft node has: the pool and the process, with [between] for
    what happens meanwhile.  No exception leaves the calls of a well-formed node whose id is
    UTF-8 ([vote_request_read], [append_request_read]).  Otherwise [dump] throws, nothing in
    the thread catches it and the process ends; the interface has no such outcome, the
    instance reports a failed call, and the theorems about whole turns assume the id. *)
Definition pool_transport `{!Floats, !JsonText} {O S : Type} `{!PoolOS O, !FdTable O S, !SocketOps S}
    (between : pooled_world (O := O) -> pooled_world) : RaftTransport (pooled_world (O := O)) := {|
  rpc_request_vote p host port args w :=
    let '(r, w') := request_vote_rpc between p host port args w in
    (match r with Ok r => r | _ => None end, w');
  rpc_append_entries p host port args w :=
    let '(r, w') := append_entries_rpc between p host port args w in
    (match r with Ok r => r | _ => None end, w');
|}.

(** ** The properties *)

(** What a call owes to the pool and to the process, for one request: with [fd] the
    descriptor [getConnection] gives it, it gives back what it borrowed (unless the
    request has no text), and the streams of [X] other than [fd]'s are untouched. *)
Definition call_returns {O S : Type} `{!PoolOS O, !PoolOSLaws O, !FdTable O S}
    (X : gset Z) (peer host : string) (port : Z) (request : result string) (p : RaftConnectionPool)
    (B : gmap Z string) (o : O) (p' : RaftConnectionPool) (o' : O) : Prop :=
  let fd := (getConnection peer host port p o).1.1 in
  preserves p B o p' (match request with Ok _ => B | _ => lend peer fd B end) o' /\
  forall fd', fd' ∈ X -> fd' ∈ os_open o -> fd' <> fd ->
    fd_stream fd' o' = fd_stream fd' o \/ fd' ∈ fds (queue_of p peer) /\ fd' ∉ os_open o'.

Lemma rpc_exchange_returns `{!Floats, !JsonText} {O S : Type} `{!PoolOS O, !PoolOSLaws O,
    !FdTable O S, !SocketOps S, !SocketLaws S, !FdTableLaws O S} (X : gset Z) between peer host port
    request p B (o : O) :
  (forall p1 B1 o1, pool_ok p1 B1 o1 ->
     preserves p1 B1 o1 (between (p1, o1)).1 B1 (between (p1, o1)).2) ->
  (forall w, streams_kept X w.2 (between w).2) ->
  pool_ok p B o -> request <> Crash ->
  let '(_, (p', o')) := rpc_exchange between peer host port request (p, o) in
  call_returns X peer host port request p B o p' o'.
Proof.
  intros Hb Hk Hok Hr. pose proof (fun fd' => rpc_exchange_others X between peer host port request p o fd' Hk) as Ho.
  unfold call_returns. destruct request as [msg| |]; [| |done].
  - pose proof (rpc_exchange_preserves between peer host port msg p B o Hb Hok) as Hp.
    by destruct (rpc_exchange between peer host port (Ok msg) (p, o)) as [r [p' o']].
  - destruct (getConnection peer host port p o) as [[fd p1] o1] eqn:Eg.
    destruct (rpc_exchange_threw between peer host port p B o fd p1 o1 Hok Eg) as [Ee Hp].
    rewrite Ee in Ho |- *. by destruct (fd <? 0)%Z.
Qed.


(** A vote in time: over a connection with nothing unread, when the peer serves the
    request before the answer is read, [sendRequestVote] returns the peer's reply to
    these very arguments. *)
Theorem prompt_vote_rpc `{!Floats, !JsonText, !JsonTextLaws} {O S : Type} `{!PoolOS O,
    !PoolOSLaws O, !FdTable O S, !SocketOps S, !SocketLaws S, !FdTableLaws O S}
    between peer host port p (o : O) fd p1 o1 (s1 s2 : S) tm a m n :
  raft_wf n -> rv_args_ok a -> utf8_ok (rv_candidateId a) = true ->
  vote_request a = Ok m ->
  getConnection peer host port p o = (fd, p1, o1) -> (0 <= fd)%Z ->
  fd_stream fd o1 = Some s1 -> sk_avail s1 = [] -> sendMessage (chars m) s1 = (true, s2) ->
  (forall reply node', handleRaftRequestVote tm m (Some n) = Ok (reply, node') ->
     message_ok (chars reply)) ->
  (forall o2 reply node', fd_stream fd o2 = Some s2 ->
     sk_sent s2 = (sk_sent s1 ++ frame (chars m))%list ->
     handleRaftRequestVote tm m (Some n) = Ok (reply, node') ->
     exists s3, fd_stream fd (between (p1, o2)).2 = Some s3 /\
       sk_avail s3 = (sk_avail s2 ++ frame (chars reply))%list) ->
  exists r n', handleRequestVote tm a n = Some (r, n') /\
    (request_vote_rpc between peer host port a (p, o)).1 = Ok (Some r).
Proof.
  intros Hwf Ha Hu Hm Eg Hfd E1 Hnil Hs Hfit Hserve.
  destruct (vote_rpc_parts tm a n Hwf Ha Hu) as (m' & r & n' & s & Hm' & Hh & _ & Hw & Ht & Hr).
  assert (m' = m) as -> by congruence.
  exists r, n'. split; [done|]. unfold request_vote_rpc. rewrite Hm.
  destruct (sendMessage_spec _ _ _ _ Hs) as (Ha2 & _ & Hsent).
  assert ((rpc_exchange between peer host port (Ok m) (p, o)).1 = Ok (Some s)) as He.
  { eapply (rpc_exchange_reads between); [exact Eg|done|exact E1|exact Hs|by eapply Hfit|].
    intros o2 E2. destruct (Hserve o2 s _ E2 Hsent Hw) as (s3 & E3 & Ha3).
    exists s3, []. rewrite app_nil_r, Ha3, Ha2, Hnil. by split. }
  destruct (rpc_exchange between peer host port (Ok m) (p, o)) as [x w']. cbn [fst] in *.
  by rewrite He.
Qed.

(** A vote too late: when the answer is not there yet at the moment it is read,
    the call fails and the connection goes back to the pool; the answer that
    arrives later is what the next call to that peer returns, whatever that call asks,
    whatever term it is for, and also when its own answer has arrived behind. *)
Theorem late_reply_answers_next_request `{!Floats, !JsonText, !JsonTextLaws} {O S : Type}
    `{!PoolOS O, !PoolOSLaws O, !FdTable O S, !SocketOps S, !SocketLaws S, !FdTableLaws O S}
    peer host port p B (o : O) fd p1 o1 (s1 s2 : S) a1 m1 :
  pool_ok p B o -> queue_of p peer = [] ->
  getConnection peer host port p o = (fd, p1, o1) -> (0 <= fd)%Z ->
  fd_stream fd o1 = Some s1 -> sk_avail s1 = [] -> sk_eof s1 = false ->
  vote_request a1 = Ok m1 -> sendMessage (chars m1) s1 = (true, s2) ->
  let '(answer1, (p2, _)) := request_vote_rpc id peer host port a1 (p, o) in
  answer1 = Ok None /\
  forall o3 s3 reply1 r1 rest a2 m2 s4 between,
    fd_stream fd o3 = Some s3 -> sk_avail s3 = (frame (chars reply1) ++ rest)%list ->
    vote_reply_text r1 = Ok reply1 -> is_u64 (rvr_term r1) -> message_ok (chars reply1) ->
    vote_request a2 = Ok m2 -> sendMessage (chars m2) s3 = (true, s4) ->
    (forall p4 o4, fd_stream fd o4 = Some s4 ->
       exists s5 more, fd_stream fd (between (p4, o4)).2 = Some s5 /\
         sk_avail s5 = (sk_avail s4 ++ more)%list) ->
    (request_vote_rpc between peer host port a2 (p2, o3)).1 = Ok (Some r1).
Proof.
  intros Hok Hq Eg Hfd E1 Hnil Heof Hm1 Hs1.
  pose proof (getConnection_registered p B peer host port o fd p1 o1 Hok Eg Hfd) as Hreg.
  pose proof (getConnection_cases _ _ _ _ _ _ _ _ Eg Hfd) as Hc. rewrite Hq in Hc.
  destruct Hc as (_ & _ & Hq1).
  unfold request_vote_rpc at 1. rewrite Hm1.
  destruct (rpc_exchange_sent id peer host port m1 p o fd p1 o1 s1 s2 Eg Hfd E1 Hs1)
    as (o2 & E2 & _ & ->). cbn [id].
  destruct (sendMessage_spec _ _ _ _ Hs1) as (Ha2 & He2 & _).
  assert (recvMessage [] s2 = (false, [], s2)) as Hr.
  { unfold recvMessage, recvMessage_around. rewrite sk_recv_none by (lia || congruence). by rewrite He2, Heof. }
  destruct (fd_recvMessage_eq fd _ _ _ _ _ _ E2 Hr) as [-> E2'].
  set (o2' := fd_update fd s2 o2) in *. cbn [negb].
  rewrite (releaseConnection_pooled peer fd p1 o2'); [|done| |rewrite Hq1; simpl; unfold MAX_CONNECTIONS_PER_PEER; lia].
  2: { rewrite (valid_stream fd o2' s2 Hfd E2'), He2, Heof. by rewrite andb_false_r. }
  cbn [mbind result_bind]. split; [done|].
  intros o3 s3 reply1 r1 rest a2 m2 s4 between E3 Ha3 Ht1 Hu1 Hok1 Hm2 Hs2 Hb.
  unfold request_vote_rpc. rewrite Hm2, Hq1. cbn [app].
  set (conn := mkConnectionInfo _ _ _ _ _). set (p2 := mkPool _ _ _).
  assert (isConnectionValid fd o3 = true) as Hv.
  { rewrite (valid_stream fd o3 s3 Hfd E3), Ha3, bool_decide_false; [done|].
    unfold frame. intros E. apply app_nil in E as [E _]. by apply app_nil in E as [E _]. }
  pose proof (getConnection_front peer host port p2 o3 conn []
    ltac:(unfold p2; simpl; apply lookup_insert_eq) Hv) as Eg2.
  destruct (vote_reply_read r1 Hu1) as (reply & Hreply & Hread).
  assert (reply = reply1) as -> by congruence.
  destruct (sendMessage_spec _ _ _ _ Hs2) as (Ha4 & _ & _).
  assert ((rpc_exchange between peer host port (Ok m2) (p2, o3)).1 = Ok (Some reply1)) as Hx.
  { eapply (rpc_exchange_reads between); [exact Eg2|done|exact E3|exact Hs2|done|].
    intros o4 E4. destruct (Hb (mkPool (<[peer := []]> (m_connectionPools p2)) (m_fdToPeerMap p2)
      (cp_running p2)) o4 E4) as (s5 & more & E5 & Ha5).
    exists s5, (rest ++ more)%list. split; [done|]. rewrite Ha5, Ha4, Ha3. by rewrite app_assoc. }
  destruct (rpc_exchange between peer host port (Ok m2) (p2, o3)) as [x w']. cbn [fst] in *.
  by rewrite Hx.
Qed.

(** ** Witnesses *)
Module Witness.
Import RaftElection.Example3 RaftRpc.Witness.

(** A process without connections; the next [connect] is accepted. *)
Definition fresh_process : process := mkProcess ∅ [Some idle_stream] 0.
Definition fresh_pool : RaftConnectionPool := pool_start RaftConnectionPool_new.

Definition vote_msg : string := "RAFT_REQUEST_VOTE" +:+ String " " (print (vote_args_json vote)).
Definition next_vote : RequestVoteArgs := mkRequestVoteArgs 3 "a" 0 0.
Definition next_msg : string := "RAFT_REQUEST_VOTE" +:+ String " " (print (vote_args_json next_vote)).

Lemma fresh_ok : pool_ok fresh_pool ∅ fresh_process.
Proof.
  split; [apply inv_empty; intros fd peer Hl; by rewrite lookup_empty in Hl|].
  intros fd Hfd%owned_spec. rewrite !lookup_empty in Hfd. destruct Hfd as [[? [=]]|[? [=]]].
Qed.

(** The process once the connection is made. *)
Definition connected : process := mkProcess {[ 3%Z := idle_stream ]} [] 0.
Definition lending_pool : RaftConnectionPool := mkPool ∅ {[ 3%Z := "b" ]} true.

Lemma gets_three :
  getConnection "b" "127.0.0.1" 8081 fresh_pool fresh_process = (3%Z, lending_pool, connected).
Proof. vm_compute. reflexivity. Qed.

Lemma vote_msg_text : @vote_request int_floats compact_text vote = Ok vote_msg.
Proof. reflexivity. Qed.

Lemma next_msg_text : @vote_request int_floats compact_text next_vote = Ok next_msg.
Proof. reflexivity. Qed.

(** A first call, during which nothing happens. *)
Definition first_call : result (option RequestVoteReply) * pooled_world (O := process) :=
  @request_vote_rpc int_floats compact_text process nb_stream
    process_ops process_table nb_ops id "b" "127.0.0.1" 8081 vote (fresh_pool, fresh_process).

(** A writer of JSON that knows ASCII only and throws on anything else. *)
Definition is_ascii : string -> bool := str_all (fun c => Nat.ltb (Ascii.nat_of_ascii c) 128).

Definition ascii_text : JsonText := {|
  utf8_ok := is_ascii;
  json_dump j := if is_ascii (print j) then Some (print j) else None;
  json_parse := parse;
|}.

(** A candidate whose id is not UTF-8. *)
Definition broken_vote : RequestVoteArgs :=
  mkRequestVoteArgs 1 (String (Ascii.ascii_of_nat 255) "") 0 0.

(** The process has a client on descriptor 2. *)
Definition with_client : process :=
  mkProcess {[ 2%Z := mkStream (chars "x") false [] 4096 ]} [Some idle_stream] 0.

Lemma with_client_ok : pool_ok fresh_pool ∅ with_client.
Proof.
  split; [apply inv_empty; intros fd peer Hl; by rewrite lookup_empty in Hl|].
  intros fd Hfd%owned_spec. rewrite !lookup_empty in Hfd. destruct Hfd as [[? [=]]|[? [=]]].
Qed.

Definition call (args : RequestVoteArgs)
  : result (option RequestVoteReply) * pooled_world (O := process) :=
  @request_vote_rpc int_floats ascii_text process nb_stream process_ops process_table nb_ops
    id "b" "127.0.0.1" 8081 args (fresh_pool, with_client).

Lemma broken_vote_throws :
  (match (call broken_vote).1 with Throw => true | _ => false end) = true /\
  (match @vote_request int_floats ascii_text broken_vote with Throw => true | _ => false end) = true /\
  (match @vote_request int_floats ascii_text vote with Ok _ => true | _ => false end) = true.
Proof. split_and!; vm_compute; reflexivity. Qed.


(** The peer [b] serves the request at once. *)
Definition serve_now (w : RaftConnectionPool * process) : RaftConnectionPool * process :=
  match @handleRaftRequestVote int_floats compact_text tm vote_msg (Some fresh_b),
        ps_streams w.2 !! 3%Z with
  | Ok (reply, _), Some s =>
      (w.1, mkProcess (<[3%Z := mkStream (nb_in s ++ frame (chars reply)) false (nb_out s) (nb_room s)]>
                         (ps_streams w.2)) (ps_connects w.2) (ps_now w.2))
  | _, _ => w
  end.

(** What is sent over the new connection. *)
Definition after_send (msg : string) (s : nb_stream) : nb_stream := (sendMessage (chars msg) s).2.

Lemma prompt_vote_rpc_witness :
  (@request_vote_rpc int_floats compact_text process nb_stream process_ops process_table nb_ops
     serve_now "b" "127.0.0.1" 8081 vote (fresh_pool, fresh_process)).1
  = Ok (Some (mkRequestVoteReply 1 true)).
Proof.
  destruct (@prompt_vote_rpc int_floats compact_text compact_laws process nb_stream
    process_ops process_laws process_table nb_ops nb_laws process_table_laws
    serve_now "b" "127.0.0.1" 8081 fresh_pool fresh_process 3 lending_pool connected
    idle_stream (after_send vote_msg idle_stream) tm vote vote_msg fresh_b
    fresh_b_wf vote_wf eq_refl vote_msg_text gets_three ltac:(lia) eq_refl eq_refl
    ltac:(vm_compute; reflexivity)) as (r & n' & Hh & Hr).
  - intros reply node' E.
    assert (reply = "RAFT_REQUEST_VOTE_REPLY " +:+ print (vote_reply_json (mkRequestVoteReply 1 true))) as ->.
    { vm_compute in E. injection E as <- _. vm_compute. reflexivity. }
    split; vm_compute; discriminate.
  - intros o2 reply node' E _ Hh. simpl in E. unfold serve_now. cbn [snd fst]. rewrite E, Hh.
    eexists. simpl. rewrite lookup_insert_eq. split; reflexivity.
  - rewrite Hr. vm_compute in Hh. injection Hh as <- _. reflexivity.
Defined.

(** The answer of term 1, which arrives after the call has failed. *)
Definition late_text : string :=
  "RAFT_REQUEST_VOTE_REPLY " +:+ print (vote_reply_json (mkRequestVoteReply 1 true)).
Definition late_stream : nb_stream := mkStream (frame (chars late_text)) false [] 4096.
Definition late_process : process := mkProcess {[ 3%Z := late_stream ]} [] 1.

Lemma late_reply_answers_next_request_witness :
  let '(answer1, (p2, _)) := first_call in
  answer1 = Ok None /\
  (@request_vote_rpc int_floats compact_text process nb_stream process_ops process_table nb_ops
     id "b" "127.0.0.1" 8081 next_vote (p2, late_process)).1
  = Ok (Some (mkRequestVoteReply 1 true)).
Proof.
  pose proof (@late_reply_answers_next_request int_floats compact_text compact_laws process nb_stream
    process_ops process_laws process_table nb_ops nb_laws process_table_laws
    "b" "127.0.0.1" 8081 fresh_pool ∅ fresh_process 3 lending_pool connected
    idle_stream (after_send vote_msg idle_stream) vote vote_msg
    fresh_ok eq_refl gets_three ltac:(lia) eq_refl eq_refl eq_refl vote_msg_text
    ltac:(vm_compute; reflexivity)) as Hlate.
  fold first_call in Hlate. destruct first_call as [answer1 [p2 o2]].
  destruct Hlate as [H1 Hlate]. split; [exact H1|].
  apply (Hlate late_process late_stream late_text (mkRequestVoteReply 1 true) [] next_vote next_msg
    (after_send next_msg late_stream) id).
  - reflexivity.
  - rewrite app_nil_r. reflexivity.
  - reflexivity.
  - unfold is_u64. simpl. lia.
  - split; vm_compute; discriminate.
  - exact next_msg_text.
  - vm_compute. reflexivity.
  - intros p4 o4 E. exists (after_send next_msg late_stream), [].
    rewrite app_nil_r. split; [exact E|reflexivity].
Defined.
End Witness.
