(* ===== verification/Storage.v ===== *)
(** * The local store (src/storage/RocksDBStorage.h, RocksDBStorage.cpp)

    [RocksDBStorage] over RocksDB, which is a parameter: its calls are the class
    [RocksDB], its documented behaviour [RocksDBLaws].  The store discharges the
    interface [KVStore] the Raft node is proved against. *)
From S2P Require Import Prelude RaftTypes RaftNode RaftInv RaftReplication.
From S2P Require Import RaftElection.
Local Open Scope string_scope.

(** ** RocksDB *)

(** What [rocksdb::Status] is asked: [ok()], [IsNotFound()]. *)
Inductive db_status := StOk | StNotFound | StError.

Definition status_ok (s : db_status) : bool := match s with StOk => true | _ => false end.
Definition status_not_found (s : db_status) : bool :=
  match s with StNotFound => true | _ => false end.

Class RocksDB (B : Type) := {
  rdb_open : string -> option B;         (* DB::Open, create_if_missing *)
  rdb_put : string -> string -> B -> db_status * B;
  rdb_get : string -> B -> db_status * string;
}.

Class RocksDBLaws (B : Type) `{!RocksDB B} := {
  rdb_contents : B -> gmap string string;
  rdb_put_contents k v b : rdb_contents (rdb_put k v b).2 =
    if status_ok (rdb_put k v b).1 then <[k := v]> (rdb_contents b) else rdb_contents b;
  rdb_get_contents k b : status_ok (rdb_get k b).1 = true ->
    rdb_contents b !! k = Some (rdb_get k b).2;
  rdb_get_missing k b : status_not_found (rdb_get k b).1 = true -> rdb_contents b !! k = None;
}.

Section storage.
Context {B : Type} `{!RocksDB B}.

(** [m_db], null until [open] has succeeded. *)
Record RocksDBStorage := mkStorage { m_db : option B }.

Definition RocksDBStorage_new : RocksDBStorage := mkStorage None.

(** [open(db_path)]: [inl] is the [std::runtime_error], which leaves [m_db] as it
    was.  The exception of [create_directories] is caught and only logged. *)
Definition storage_open (db_path : string) (st : RocksDBStorage)
  : string + (bool * RocksDBStorage) :=
  match rdb_open db_path with
  | None => inl "failed to open rocksdb"
  | Some db => inr (true, mkStorage (Some db))
  end.

(** [put(key, value)]; the null dereference is [None]. *)
Definition storage_put (key value : string) (st : RocksDBStorage)
  : option (bool * RocksDBStorage) :=
  db ← m_db st;
  let '(s, db') := rdb_put key value db in
  Some (if negb (status_ok s) then false else true, mkStorage (Some db')).

(** [get(key)] *)
Definition storage_get (key : string) (st : RocksDBStorage) : option (option string) :=
  db ← m_db st;
  let '(s, value) := rdb_get key db in
  if status_not_found s then Some None
  else if negb (status_ok s) then Some None
  else Some (Some value).

(** An open store as the Raft node uses it: [put] on the singleton. *)
#[export] Instance rocksdb_store : KVStore B :=
  {| kv_put k v db :=
       match storage_put k v (mkStorage (Some db)) with
       | Some (ok, mkStorage (Some db')) => (ok, db')
       | _ => (false, db)
       end |}.
End storage.
Arguments RocksDBStorage : clear implicits.

Section storage_lemmas.
Context {B : Type} `{!RocksDB B, !RocksDBLaws B}.

(** [put] on an open store is RocksDB's, and so is [kv_put]. *)
Lemma storage_put_rdb k v (db : B) :
  storage_put k v (mkStorage (Some db))
  = Some (status_ok (rdb_put k v db).1, mkStorage (Some (rdb_put k v db).2)).
Proof. unfold storage_put. simpl. by destruct (rdb_put k v db) as [[] db']. Qed.

Lemma kv_put_rdb k v (db : B) :
  kv_put k v db = (status_ok (rdb_put k v db).1, (rdb_put k v db).2).
Proof. simpl. by rewrite storage_put_rdb. Qed.

(** [get] on an open store: the contents, or nothing. *)
Lemma storage_get_contents k (db : B) :
  exists r, storage_get k (mkStorage (Some db)) = Some r /\
    (forall v, r = Some v -> rdb_contents db !! k = Some v) /\
    (status_ok (rdb_get k db).1 || status_not_found (rdb_get k db).1 = true ->
     r = rdb_contents db !! k).
Proof.
  unfold storage_get. simpl. pose proof (rdb_get_contents k db) as Ho.
  pose proof (rdb_get_missing k db) as Hm. destruct (rdb_get k db) as [s v]. simpl in *.
  destruct s; simpl in *.
  - exists (Some v). split_and!; [done| |]; intros; rewrite Ho by done; by simplify_eq.
  - exists None. split_and!; [done..|]. intros _. by rewrite Hm.
  - exists None. split_and!; done.
Qed.

(** The contents after entries were handed to the store: those whose write
    RocksDB accepted, in order. *)
Fixpoint accepted_puts (es : list LogEntry) (db : B) : list LogEntry :=
  match es with
  | [] => []
  | e :: es' =>
      let r := rdb_put (le_key e) (le_value e) db in
      if status_ok r.1 then e :: accepted_puts es' r.2 else accepted_puts es' r.2
  end.

Definition write_entries (es : list LogEntry) (m : gmap string string) : gmap string string :=
  foldl (fun m' e => <[le_key e := le_value e]> m') m es.

Lemma kv_puts_contents es (db : B) :
  rdb_contents (kv_puts es db) = write_entries (accepted_puts es db) (rdb_contents db).
Proof.
  revert db. induction es as [|e es IH]; intros db; [done|].
  unfold kv_puts in *. cbn [foldl]. rewrite kv_put_rdb, IH. simpl. rewrite rdb_put_contents.
  by destruct (status_ok _).
Qed.

Lemma accepted_all es (db : B) :
  (forall k v b, status_ok (rdb_put k v (b : B)).1 = true) -> accepted_puts es db = es.
Proof.
  intros Hall. revert db. induction es as [|e es IH]; intros db; [done|]. simpl.
  by rewrite Hall, IH.
Qed.

Lemma write_entries_last es1 e es2 m :
  le_key e ∉ le_key <$> es2 ->
  write_entries (es1 ++ e :: es2) m !! le_key e = Some (le_value e).
Proof.
  intros Hn. unfold write_entries. rewrite foldl_app. simpl.
  generalize (foldl (fun m' e => <[le_key e := le_value e]> m') m es1). intros m1.
  assert (forall m2 : gmap string string, m2 !! le_key e = Some (le_value e) ->
    foldl (fun m' e => <[le_key e := le_value e]> m') m2 es2 !! le_key e = Some (le_value e)) as Hg.
  { revert Hn. induction es2 as [|x es2 IH]; [done|]. csimpl.
    intros [Hne Hn]%not_elem_of_cons m2 Hm2. apply IH; [done|].
    by rewrite lookup_insert_ne. }
  apply Hg, lookup_insert_eq.
Qed.
End storage_lemmas.

(** ** The properties *)

(** C39. The replicated store is readable: when a step of a Raft node over
    RocksDB applies entries, [get] of a key whose last write among the accepted
    ones is [e] returns [e]'s value, unless the read itself fails; with a database that
    accepts every write, these are all the committed entries of the step. *)
Theorem committed_value_readable {B : Type} `{!RocksDB B, !RocksDBLaws B}
    {W : Type} `{!RaftTransport W, !TransportRange W}
    id peers n (db : B) (w : W) ev n' db' w' es1 e es2 :
  node_reach id peers n db w -> event_ok ev n ->
  node_step ev n db w = Some (n', db', w') ->
  let applied := log_slice (m_lastApplied n) (m_lastApplied n') (m_logs n') in
  accepted_puts applied db = (es1 ++ e :: es2)%list -> le_key e ∉ le_key <$> es2 ->
  (status_ok (rdb_get (le_key e) db').1 || status_not_found (rdb_get (le_key e) db').1 = true ->
   storage_get (le_key e) (mkStorage (Some db')) = Some (Some (le_value e))) /\
  ((forall k v b, status_ok (rdb_put k v (b : B)).1 = true) -> applied = (es1 ++ e :: es2)%list).
Proof.
  intros Hr Hok Hs applied Hacc Hlast.
  destruct (node_step_applies ev n db w n' db' w') as (Ha & _ & Hdb);
    [by eapply wf_node_reach|done|done|].
  rewrite <- log_slice_max, <- Ha in Hdb.
  assert (rdb_contents db' !! le_key e = Some (le_value e)) as Hc.
  { rewrite Hdb, kv_puts_contents. fold applied. rewrite Hacc. by apply write_entries_last. }
  split.
  - intros Hst. destruct (storage_get_contents (le_key e) db') as (r & -> & _ & Hg).
    by rewrite Hg, Hc.
  - intros Hall. rewrite <- Hacc. symmetry. by apply accepted_all.
Qed.

(** ** A concrete database *)
Module Memory.

(** A database in memory whose writes fail when it is full. *)
Record mem_db := mkMem { mem_map : gmap string string; mem_full : bool }.

#[export] Instance mem_rocksdb : RocksDB mem_db := {|
  rdb_open path := if String.eqb path "" then None else Some (mkMem ∅ false);
  rdb_put k v b :=
    if mem_full b then (StError, b) else (StOk, mkMem (<[k := v]> (mem_map b)) false);
  rdb_get k b := match mem_map b !! k with Some v => (StOk, v) | None => (StNotFound, "") end;
|}.

#[export] Instance mem_laws : RocksDBLaws mem_db.
Proof.
  refine {| rdb_contents := mem_map |}.
  - intros k v b. simpl. by destruct (mem_full b).
  - intros k b. simpl. by destruct (mem_map b !! k).
  - intros k b. simpl. by destruct (mem_map b !! k).
Defined.

Definition full_db : mem_db := mkMem ∅ true.
End Memory.
Import Memory.

(** A leader of term 1 sends its first entry, which it has committed. *)
Definition first_entry : AppendEntriesArgs :=
  mkAppendEntriesArgs 1 "a" 0 0 [mkLogEntry 1 1 "img" "frame"] 1.

(** A write that RocksDB refuses is lost: [applyCommittedLogs] only logs the
    failure, so a node with a full database acknowledges the message, counts the committed
    entry as applied, does not have it in the store, and hands it to no
    later store because [m_lastApplied] is past it. *)
Theorem refused_write_is_lost tm :
  exists n',
    handleAppendEntries tm first_entry (RaftNode_new "b" ["a"; "c"] tm) full_db
    = Some (mkAppendEntriesReply 1 true, n', full_db) /\
    m_commitIndex n' = 1%Z /\ m_lastApplied n' = 1%Z /\
    (le_key <$> m_logs n') = [""; "img"] /\
    storage_get "img" (mkStorage (Some full_db)) = Some None /\
    forall db : mem_db, applyCommittedLogs n' db = Some (n', db).
Proof.
  eexists. split_and!; [vm_compute; reflexivity|done..|]. intros db. reflexivity.
Qed.

(** ** Witnesses *)
Module Witness.
Import Example3.

Definition follower : RaftNode := RaftNode_new "b" ["a"; "c"] tm.
Definition message : AppendEntriesArgs :=
  mkAppendEntriesArgs 1 "a" 0 0 [mkLogEntry 1 1 "k" "old"; mkLogEntry 1 2 "k" "new"] 2.

Lemma message_wf : ae_args_wf message.
Proof.
  split; [|split].
  - unfold ae_args_ok, is_u64. simpl. split_and!; try lia.
    repeat (apply Forall_cons; split); try apply Forall_nil_2;
      unfold entry_ok, is_u64; simpl; lia.
  - intros [|[|i]] e He; simpl in He; by simplify_eq.
  - by vm_compute.
Qed.

Lemma committed_value_readable_witness :
  exists n' db', node_step (EvAppendEntries tm message) follower (mkMem ∅ false) tt
    = Some (n', db', tt) /\
    storage_get "k" (mkStorage (Some db')) = Some (Some "new").
Proof.
  destruct (node_step (EvAppendEntries tm message) follower (mkMem ∅ false) tt)
    as [[[n' db'] []]|] eqn:E; [|vm_compute in E; discriminate].
  exists n', db'. split; [done|].
  assert (n' = (default (follower, mkMem ∅ false, tt)
    (node_step (EvAppendEntries tm message) follower (mkMem ∅ false) tt)).1.1) as En by (by rewrite E).
  assert (db' = (default (follower, mkMem ∅ false, tt)
    (node_step (EvAppendEntries tm message) follower (mkMem ∅ false) tt)).1.2) as Ed by (by rewrite E).
  refine (proj1 (committed_value_readable "b" ["a"; "c"] follower (mkMem ∅ false) tt
    (EvAppendEntries tm message) n' db' tt [mkLogEntry 1 1 "k" "old"]
    (mkLogEntry 1 2 "k" "new") [] _ _ E _ _) _).
  - apply node_reach_new.
  - split; [exact message_wf|]. vm_compute. done.
  - rewrite En. vm_compute. reflexivity.
  - apply not_elem_of_nil.
  - rewrite Ed. vm_compute. reflexivity.
Defined.
End Witness.
