(* ===== verification/Engine.v ===== *)
(** * The earlier storage engine (src/datebase/StorageEngine.h, RocksDBEngine.h,
    RocksDBEngine.cpp)

    An interface of a key-value store and its implementation over RocksDB, from
    before src/storage; no file includes them and the build does not compile them.
    The interface is a class with the contract its clients may rely on, a
    map some of whose writes are refused; the implementation discharges it, and behaves as the
    store that replaced it ([Storage]). *)
From S2P Require Import Prelude Storage.
Local Open Scope string_scope.

(** ** The interface *)
Class StorageEngine (E : Type) := {
  se_put : string -> string -> E -> bool * E;
  se_get : string -> E -> option string;
}.

(** What an engine promises: an accepted write is in the map, a refused one changes
    nothing, and what is read was written. *)
Class StorageEngineLaws (E : Type) `{!StorageEngine E} := {
  se_contents : E -> gmap string string;
  se_put_contents k v e : se_contents (se_put k v e).2 =
    if (se_put k v e).1 then <[k := v]> (se_contents e) else se_contents e;
  se_get_contents k e v : se_get k e = Some v -> se_contents e !! k = Some v;
}.

(** ** The implementation *)
Section engine.
Context {B : Type} `{!RocksDB B}.

(** [m_db] is null only while the constructor and the destructor run. *)
Record RocksDBEngine := mkEngine { eng_db : B }.

(** [RocksDBEngine(path)]; [inl] is the [std::runtime_error]. *)
Definition RocksDBEngine_new (path : string) : unit + RocksDBEngine :=
  match rdb_open path with
  | None => inl tt
  | Some db => inr (mkEngine db)
  end.

(** [put(key, value)] *)
Definition engine_put (key value : string) (e : RocksDBEngine) : bool * RocksDBEngine :=
  let '(s, db) := rdb_put key value (eng_db e) in
  (if negb (status_ok s) then false else true, mkEngine db).

(** [get(key)] *)
Definition engine_get (key : string) (e : RocksDBEngine) : option string :=
  let '(s, value) := rdb_get key (eng_db e) in
  if status_not_found s then None
  else if negb (status_ok s) then None
  else Some value.

#[export] Instance rocksdb_engine : StorageEngine RocksDBEngine :=
  {| se_put := engine_put; se_get := engine_get |}.

#[export] Instance rocksdb_engine_laws `{!RocksDBLaws B} : StorageEngineLaws RocksDBEngine.
Proof.
  refine {| se_contents e := rdb_contents (eng_db e) |}.
  - intros k v [db]. simpl. unfold engine_put. simpl.
    pose proof (rdb_put_contents k v db) as Hp. destruct (rdb_put k v db) as [s db'].
    simpl in *. by destruct (status_ok s).
  - intros k [db] v. simpl. unfold engine_get. simpl.
    pose proof (rdb_get_contents k db) as Hg. destruct (rdb_get k db) as [s w].
    destruct (status_not_found s), (status_ok s) eqn:E; simpl in *; try done.
    intros [= <-]. by apply Hg.
Defined.
End engine.
Arguments RocksDBEngine : clear implicits.

(** ** Clients *)
Inductive store_op := OpPut (key value : string) | OpGet (key : string).

Inductive store_result := Wrote (ok : bool) | Read (value : option string).

(** A client's calls on any engine. *)
Definition engine_op {E : Type} `{!StorageEngine E} (op : store_op) (e : E) : store_result * E :=
  match op with
  | OpPut k v => let '(ok, e') := se_put k v e in (Wrote ok, e')
  | OpGet k => (Read (se_get k e), e)
  end.

Fixpoint engine_run {E : Type} `{!StorageEngine E} (ops : list store_op) (e : E)
  : list store_result * E :=
  match ops with
  | [] => ([], e)
  | op :: ops' =>
      let '(r, e1) := engine_op op e in
      let '(rs, e2) := engine_run ops' e1 in
      (r :: rs, e2)
  end.

(** The same calls on [RocksDBStorage]; [None] is its null dereference. *)
Fixpoint storage_run {B : Type} `{!RocksDB B} (ops : list store_op) (st : RocksDBStorage B)
  : option (list store_result * RocksDBStorage B) :=
  match ops with
  | [] => Some ([], st)
  | op :: ops' =>
      '(r, st1) ← match op with
                  | OpPut k v => '(ok, st') ← storage_put k v st; Some (Wrote ok, st')
                  | OpGet k => v ← storage_get k st; Some (Read v, st)
                  end;
      '(rs, st2) ← storage_run ops' st1;
      Some (r :: rs, st2)
  end.

(** The abstract store: a map that may refuse writes and fail to read. *)
Inductive map_step : store_op -> store_result -> gmap string string -> gmap string string -> Prop :=
  | map_put k v m : map_step (OpPut k v) (Wrote true) m (<[k := v]> m)
  | map_refuse k v m : map_step (OpPut k v) (Wrote false) m m
  | map_get k v m : m !! k = Some v -> map_step (OpGet k) (Read (Some v)) m m
  | map_get_nothing k m : map_step (OpGet k) (Read None) m m.

Inductive map_run : list store_op -> list store_result -> gmap string string ->
    gmap string string -> Prop :=
  | map_run_nil m : map_run [] [] m m
  | map_run_cons op ops r rs m m1 m2 :
      map_step op r m m1 -> map_run ops rs m1 m2 -> map_run (op :: ops) (r :: rs) m m2.

Lemma engine_op_refines {E : Type} `{!StorageEngine E, !StorageEngineLaws E} op (e : E) :
  map_step op (engine_op op e).1 (se_contents e) (se_contents (engine_op op e).2).
Proof.
  destruct op as [k v|k]; simpl.
  - pose proof (se_put_contents k v e) as Hp. destruct (se_put k v e) as [[|] e']; simpl in *;
      rewrite Hp; constructor.
  - destruct (se_get k e) as [v|] eqn:Eg; constructor. by apply se_get_contents.
Qed.

Lemma engine_run_refines {E : Type} `{!StorageEngine E, !StorageEngineLaws E} ops (e : E) :
  map_run ops (engine_run ops e).1 (se_contents e) (se_contents (engine_run ops e).2).
Proof.
  revert e. induction ops as [|op ops IH]; intros e; simpl; [constructor|].
  pose proof (engine_op_refines op e) as Hop. destruct (engine_op op e) as [r e1].
  specialize (IH e1). destruct (engine_run ops e1) as [rs e2]. by econstructor.
Qed.

(** The engine keeps its interface's contract, and does what its successor does:
    on any calls, its answers are those of a map that may refuse writes and fail to read,
    from the database's contents to its contents afterwards; [RocksDBStorage] on
    the same database gives the same answers; and the one cannot be opened where
    the other cannot. *)
Theorem engine_refines_map {B : Type} `{!RocksDB B, !RocksDBLaws B} ops (db : B) :
  let '(rs, e) := engine_run ops (mkEngine db) in
  map_run ops rs (rdb_contents db) (rdb_contents (eng_db e)) /\
  storage_run ops (mkStorage (Some db)) = Some (rs, mkStorage (Some (eng_db e))) /\
  forall path, (exists e0, RocksDBEngine_new (B := B) path = inr e0) <->
               (exists st, storage_open path RocksDBStorage_new = inr (true, st : RocksDBStorage B)).
Proof.
  pose proof (engine_run_refines ops (mkEngine db)) as Hr.
  destruct (engine_run ops (mkEngine db)) as [rs e] eqn:E. split; [exact Hr|]. clear Hr. split.
  - revert db rs e E. induction ops as [|op ops IH]; intros db rs e; simpl; [by intros [= <- <-]|].
    destruct (engine_op op (mkEngine db)) as [r [db1]] eqn:Eo.
    destruct (engine_run ops (mkEngine db1)) as [rs' e'] eqn:Er. intros [= <- <-].
    destruct op as [k v|k]; simpl in Eo.
    + unfold engine_put, storage_put in *. simpl in *. destruct (rdb_put k v db) as [s db'].
      injection Eo as <- <-. simpl. by rewrite (IH _ _ _ Er).
    + unfold engine_get, storage_get in *. simpl in *. injection Eo as <- <-.
      destruct (rdb_get k db) as [s v].
      destruct (status_not_found s), (status_ok s); simpl; by rewrite (IH _ _ _ Er).
  - intros path. unfold RocksDBEngine_new, storage_open.
    destruct (rdb_open path) as [db'|]; split; intros [x Hx]; try done; by eexists.
Qed.

(** ** Witnesses *)
Module Witness.
Import Storage.Memory.

(** Two writes and a read; a database that is full refuses the writes. *)
Definition calls : list store_op := [OpPut "k" "old"; OpPut "k" "new"; OpGet "k"; OpGet "l"].

Lemma engine_refines_map_witness :
  storage_run calls (mkStorage (Some (mkMem ∅ false)))
    = Some ([Wrote true; Wrote true; Read (Some "new"); Read None],
            mkStorage (Some (mkMem {[ "k" := "new" ]} false))) /\
  storage_run calls (mkStorage (Some full_db))
    = Some ([Wrote false; Wrote false; Read None; Read None], mkStorage (Some full_db)).
Proof.
  pose proof (@engine_refines_map mem_db mem_rocksdb mem_laws calls (mkMem ∅ false)) as H1.
  pose proof (@engine_refines_map mem_db mem_rocksdb mem_laws calls full_db) as H2.
  destruct (engine_run calls (mkEngine (mkMem ∅ false))) as [rs1 e1] eqn:E1.
  destruct (engine_run calls (mkEngine full_db)) as [rs2 e2] eqn:E2.
  vm_compute in E1. injection E1 as <- <-. vm_compute in E2. injection E2 as <- <-.
  split; [exact (proj1 (proj2 H1))|exact (proj1 (proj2 H2))].
Defined.
End Witness.
