(* ===== verification/Connection.v ===== *)
(** * Client requests (src/server/Connection.cpp, Connection.h,
    src/common/error/ErrorCode.h)

    What a node does with the messages of one connection: [PING], [STORE],
    [GET] and unknown words; the two Raft messages are in [RaftRpc].  A handler's
    outcome is the messages it sends to the client and the new state; an
    exception that leaves a handler ends the connection. *)
From S2P Require Import Prelude Socket Text Command Protocol ConnPool Descriptors Router.
From S2P Require Import Json JsonText Codec RaftTypes RaftNode Storage RaftRpc.
Local Open Scope string_scope.

(** The codes of the program, by their numbers. *)
Inductive ErrorCode :=
  | OK
  | INVALID_REQUEST | INTERNAL_ERROR | TIMEOUT
  | CONNECT_FAILED | CONNECT_TIMEOUT | SEND_FAILED | RECV_FAILED | NODE_UNAVAILABLE | FD_FIALED
  | NOT_FOUND | ALREADY_EXISTS
  | NOT_LEADER | SHARD_MISMATCH.

#[export] Instance ErrorCode_eq_dec : EqDecision ErrorCode.
Proof. solve_decision. Defined.

Definition error_number (e : ErrorCode) : Z :=
  match e with
  | OK => 0
  | INVALID_REQUEST => 1000 | INTERNAL_ERROR => 1001 | TIMEOUT => 1002
  | CONNECT_FAILED => 2000 | CONNECT_TIMEOUT => 2001 | SEND_FAILED => 2002
  | RECV_FAILED => 2003 | NODE_UNAVAILABLE => 2004 | FD_FIALED => 2005
  | NOT_FOUND => 3000 | ALREADY_EXISTS => 3001
  | NOT_LEADER => 4000 | SHARD_MISMATCH => 4001
  end%Z.

(** ** Forwarding to another node *)
Section forwarding.
Context {O S : Type} `{!PoolOS O, !FdTable O S, !SocketOps S}.

(** [connectWithRetry(fd, addr, host, port, maxRetries)]; the waits between
    attempts are not modelled. *)
Fixpoint connectWithRetry (maxRetries : nat) (fd : Z) (host : string) (port : Z) (o : O)
  : bool * O :=
  match maxRetries with
  | 0 => (false, o)
  | Datatypes.S n =>
      let '(ok, o1) := os_connect fd host port o in
      if ok then (true, o1) else connectWithRetry n fd host port o1
  end.

(** [forwardToNode(node, msg)]: the code, what is sent back to the client, and
    the process; [relay] is what the network does between the request and the
    read of the answer. *)
Definition forwardToNode (relay : O -> O) (node : NodeInfo) (msg : string) (o : O)
  : ErrorCode * option (list byte) * O :=
  let '(fd, o1) := os_socket o in
  if (fd <? 0)%Z then (FD_FIALED, None, o1)
  else if negb (os_pton (ni_host node)) then (FD_FIALED, None, os_close fd o1)
  else
    let '(ret, o2) := connectWithRetry 5 fd (ni_host node) (u16 (ni_port node)) o1 in
    if negb ret then (CONNECT_FAILED, None, os_close fd o2)
    else
      let '(_, o3) := fd_sendMessage fd (chars msg) o2 in
      let '(ok, reply, o4) := fd_recvMessage fd [] (relay o3) in
      if negb ok then (RECV_FAILED, None, os_close fd o4)
      else (OK, Some reply, os_close fd o4).
End forwarding.

(** ** The handlers *)
Section handlers.
Context `{!Floats, !JsonText} {B : Type} `{!RocksDB B}.
Context {O S : Type} `{!PoolOS O, !FdTable O S, !SocketOps S}.

(** [std::hash], the router's nodes, and this node's id. *)
Variable hash : string -> Z.
Variable nodes : list NodeInfo.
Variable self : string.

(** What a handler sends to its client, and the store and the process it leaves. *)
Definition outcome : Type := list (list byte) * (RocksDBStorage B * O).

Definition say (reply : string) (st : RocksDBStorage B) (o : O) : result outcome :=
  Ok ([chars reply], (st, o)).

(** [m_router.pickNode]; the null dereference is a crash. *)
Definition pick (key : string) : result NodeInfo := or_crash (pickNode hash nodes key).

(** The branch of [handleStore] and [handleGet] for a frame of another node. *)
Definition forward (relay : O -> O) (node : NodeInfo) (what msg : string)
    (st : RocksDBStorage B) (o : O) : result outcome :=
  let '(code, reply, o') := forwardToNode relay node msg o in
  match code with
  | CONNECT_FAILED => say ("ERROR failed to forward " +:+ what +:+ " request") st o'
  | _ => Ok (match reply with Some r => [r] | None => [] end, (st, o'))
  end.

(** The [try] block of [handleStore]. *)
Definition store_payload (relay : O -> O) (json_str msg : string)
    (st : RocksDBStorage B) (o : O) : result outcome :=
  j ← or_throw (json_parse json_str);
  frame ← frame_of_json j;
  node ← pick (image_id frame);
  if negb (String.eqb (ni_id node) self) then forward relay node "STORE" msg st o
  else
    value ← encode frame;
    '(_, st') ← or_crash (storage_put (image_id frame) value st);
    say "STORE OK" st' o.

(** [handleStore(msg)]; every exception of the [try] block is thrown before
    anything has changed. *)
Definition handleStore (relay : O -> O) (msg : string) (st : RocksDBStorage B) (o : O)
  : result outcome :=
  match find_char " " msg with
  | None => Ok ([], (st, o))
  | Some pos =>
      match store_payload relay (substr_from (pos + 1) msg) msg st o with
      | Throw => say "ERROR invalid STORE payload" st o
      | r => r
      end
  end.

(** [handleGet(msg)]; [w0] and [h0] are the values the uninitialised
    [width] and [height] of the local frame happen to have. *)
Definition handleGet (w0 h0 : Z) (relay : O -> O) (msg : string) (st : RocksDBStorage B) (o : O)
  : result outcome :=
  let '(_, rest) := read_token msg in
  let image_id := (read_token rest).1 in
  if String.eqb image_id "" then say "ERROR missing image_id" st o
  else
    node ← pick image_id;
    if negb (String.eqb (ni_id node) self) then forward relay node "GET" msg st o
    else
      opt ← or_crash (storage_get image_id st);
      frame ← match opt with
              | Some v => decode v
              | None => Ok (mkYoloFrame "" "" [] w0 h0)
              end;
      reply ← or_throw (json_dump (frame_json frame));
      say reply st o.

(** [handlePing()] and [handleUnknown(msg)] *)
Definition handlePing (st : RocksDBStorage B) (o : O) : result outcome := say "PONG" st o.

Definition handleUnknown (st : RocksDBStorage B) (o : O) : result outcome :=
  say "ERROR unknown command" st o.
End handlers.

(** ** Frames that were read are frames that can be written *)
Section frames.
Context `{!Floats, !FloatLaws, !JsonText, !JsonTextLaws}.

Lemma obj_find_ok k m v :
  json_ok (JObject m) -> obj_find k m = Some v -> json_ok v.
Proof.
  intros [_ Hm]%json_ok_object. induction Hm as [|[k' v'] m [_ Hv] Hm IH]; simpl; [done|].
  destruct (String.eqb k k'); [by intros [= <-]|done].
Qed.

Lemma json_at_ok k j v : json_ok j -> json_at k j = Ok v -> json_ok v.
Proof.
  intros Hj. destruct j; try done. simpl. destruct (obj_find k m) eqn:E; [|done].
  intros [= <-]. by eapply obj_find_ok.
Qed.

Lemma get_int_range j z : get_int j = Ok z -> is_i32 z.
Proof.
  destruct j as [|b|y|x| | |]; simpl; try done.
  - intros [= <-]. unfold is_i32. destruct b; lia.
  - intros [= <-]. apply i32_range.
  - destruct (int_of_f64 x) eqn:E; [|done]. intros [= <-]. by eapply int_of_f64_range.
Qed.

Lemma bind_Ok {A C} (r : result A) (k : A -> result C) c :
  r ≫= k = Ok c -> exists a, r = Ok a /\ k a = Ok c.
Proof. destruct r; try done. eauto. Qed.

Lemma int_at_range k j z : int_at k j = Ok z -> is_i32 z.
Proof. intros (v & _ & Hg)%bind_Ok. by eapply get_int_range. Qed.

Lemma string_at_ok k j s : json_ok j -> string_at k j = Ok s -> utf8_ok s = true.
Proof.
  intros Hj (v & Hv & Hg)%bind_Ok. destruct v; try done. injection Hg as <-.
  by apply (json_at_ok _ _ _ Hj Hv).
Qed.

Lemma decode_boxes_ok l bs : decode_boxes l = Ok bs -> Forall box_ok bs.
Proof.
  revert bs. induction l as [|j l IH]; intros bs; simpl; [by intros [= <-]|].
  intros (b & Hb & (bs' & Hbs & [= <-])%bind_Ok)%bind_Ok. constructor; [|by apply IH].
  unfold decode_box in Hb. apply bind_Ok in Hb as (c & Hc & Hb).
  repeat apply bind_Ok in Hb as (? & _ & Hb). injection Hb as <-. by eapply int_at_range.
Qed.

Lemma frame_of_json_ok j f : json_ok j -> frame_of_json j = Ok f -> frame_ok f.
Proof.
  intros Hj. unfold frame_of_json.
  intros (i & Hi & (w & Hw & (h & Hh & (s & Hs & (jbs & _ & (bs & Hbs & [= <-])%bind_Ok)
    %bind_Ok)%bind_Ok)%bind_Ok)%bind_Ok)%bind_Ok.
  split_and!; simpl.
  - by eapply string_at_ok.
  - by eapply string_at_ok.
  - by eapply int_at_range.
  - by eapply int_at_range.
  - by eapply decode_boxes_ok.
Qed.
End frames.

(** ** The messages as the handlers cut them *)
Lemma store_cut payload :
  find_char " " ("STORE" +:+ String " " payload) = Some 5 /\
  substr_from (5 + 1) ("STORE" +:+ String " " payload) = payload.
Proof. done. Qed.

Lemma get_tokens id :
  no_space id = true -> id <> "" ->
  (read_token (read_token ("GET" +:+ String " " id)).2).1 = id.
Proof.
  intros Hs Hne. unfold read_token at 2. rewrite skip_spaces_word by done.
  rewrite take_token_word by done. cbn [snd]. unfold read_token.
  change (skip_spaces (String " " id)) with (skip_spaces id).
  rewrite <- (str_app_nil_r id), skip_spaces_word by done. rewrite str_app_nil_r.
  by rewrite take_token_all.
Qed.

Section handler_lemmas.
Context `{!Floats, !FloatLaws, !JsonText, !JsonTextLaws}.
Context {B : Type} `{!RocksDB B, !RocksDBLaws B}.
Context {O S : Type} `{!PoolOS O, !FdTable O S, !SocketOps S}.
Variable hash : string -> Z.
Variable nodes : list NodeInfo.
Variable self : string.

(** [pickNode] gives this node. *)
Definition owns (key : string) : Prop :=
  exists node, pickNode hash nodes key = Some node /\ ni_id node = self.

Lemma store_payload_own relay payload msg (db : B) (o : O) j f :
  json_parse payload = Some j -> frame_of_json j = Ok f -> owns (image_id f) ->
  exists v, encode f = Ok v /\
    decode v = (if forallb box_finite (boxes f) then Ok f else Throw) /\
    store_payload hash nodes self relay payload msg (mkStorage (Some db)) o =
    Ok ([chars "STORE OK"], (mkStorage (Some (rdb_put (image_id f) v db).2), o)).
Proof.
  intros Hp Hf (node & Hn & Hid).
  destruct (decode_encode f) as (v & Hv & Hd).
  { eapply frame_of_json_ok; [|done]. by eapply parse_ok. }
  exists v. split_and!; [done..|]. unfold store_payload, pick. rewrite Hp. cbn [or_throw mbind result_bind].
  rewrite Hf. cbn [mbind result_bind]. rewrite Hn. cbn [or_crash mbind result_bind].
  rewrite Hid, String.eqb_refl. cbn [negb]. rewrite Hv. cbn [mbind result_bind].
  by rewrite storage_put_rdb.
Qed.

Lemma store_payload_unread relay payload msg (st : RocksDBStorage B) (o : O) :
  or_throw (json_parse payload) ≫= frame_of_json = Throw ->
  store_payload hash nodes self relay payload msg st o = Throw.
Proof.
  unfold store_payload. destruct (or_throw (json_parse payload)) as [j| |]; try done.
  cbn [mbind result_bind]. by intros ->.
Qed.

Lemma handleGet_own w0 h0 relay (db : B) (o : O) id r :
  no_space id = true -> id <> "" -> owns id -> storage_get id (mkStorage (Some db)) = Some r ->
  handleGet hash nodes self w0 h0 relay ("GET" +:+ String " " id) (mkStorage (Some db)) o =
  (frame ← match r with Some v => decode v | None => Ok (mkYoloFrame "" "" [] w0 h0) end;
   reply ← or_throw (json_dump (frame_json frame)); say reply (mkStorage (Some db)) o).
Proof.
  intros Hs Hne (node & Hn & Hid) Hg. unfold handleGet, pick.
  pose proof (get_tokens id Hs Hne) as Ht.
  destruct (read_token ("GET" +:+ String " " id)) as [cmd rest]. cbn [snd] in Ht.
  rewrite Ht. apply String.eqb_neq in Hne as ->. rewrite Hn. cbn [or_crash mbind result_bind].
  rewrite Hid, String.eqb_refl. cbn [negb]. by rewrite Hg.
Qed.
End handler_lemmas.

(** ** Forwarding and descriptors *)
Section forward_lemmas.
Context {O S : Type} `{!PoolOS O, !PoolOSLaws O, !FdTable O S, !SocketOps S, !FdTableLaws O S}.

Lemma connectWithRetry_but n fd host port (o : O) :
  same_but fd o (connectWithRetry n fd host port o).2.
Proof.
  revert o. induction n as [|n IH]; intros o; simpl; [apply same_but_refl|].
  assert (same_but fd o (os_connect fd host port o).2) as H1.
  { split; [apply os_connect_open|]. intros fd' Hne. by apply fd_connect_stream. }
  destruct (os_connect fd host port o) as [[|] o1]; [done|].
  eapply same_but_trans; [exact H1|apply IH].
Qed.

(** The new descriptor is closed on every path, and no other is touched. *)
Lemma forwardToNode_frame fds relay node msg (o : O) :
  quiet_on fds relay -> fds ⊆ os_open o -> kept fds o (forwardToNode relay node msg o).2.
Proof.
  intros Hq Hsub. unfold forwardToNode. destruct (os_socket o) as [fd o1] eqn:Es.
  pose proof (temporary_socket fds o fd o1 Es Hsub) as Ht.
  destruct (fd <? 0)%Z; [done|]. destruct Ht as [Hfd Hclose].
  destruct (os_pton (ni_host node)); cbn [negb]; [|by apply Hclose].
  pose proof (connectWithRetry_but 5 fd (ni_host node) (u16 (ni_port node)) o1) as Hc.
  apply (same_but_kept fds) in Hc; [|done].
  destruct (connectWithRetry 5 fd _ _ o1) as [[|] o2]; cbn [negb snd] in *; [|by apply Hclose].
  pose proof (fd_sendMessage_but fd (chars msg) o2) as Hsend.
  destruct (fd_sendMessage fd (chars msg) o2) as [sent o3]. cbn [snd] in Hsend.
  pose proof (fd_recvMessage_but fd [] (relay o3)) as Hrecv.
  destruct (fd_recvMessage fd [] (relay o3)) as [[ok reply] o4]. cbn [snd] in Hrecv.
  assert (kept fds o (os_close fd o4)) as Hend; [|by destruct ok].
  apply Hclose. eapply kept_trans; [exact Hc|]. eapply kept_trans; [by eapply same_but_kept|].
  eapply kept_trans; [apply Hq|]. by eapply same_but_kept.
Qed.

(** What forwarding sends to the client. *)
Lemma forward_outcome {B : Type} relay node what msg (st : RocksDBStorage B) (o : O) :
  match forward relay node what msg st o with
  | Ok (replies, (st', o')) =>
      st' = st /\ o' = (forwardToNode relay node msg o).2 /\
      ((exists r, replies = [r]) \/
       replies = [] /\ ((forwardToNode relay node msg o).1.1 = RECV_FAILED \/
                        (forwardToNode relay node msg o).1.1 = FD_FIALED))
  | _ => False
  end.
Proof.
  unfold forward. destruct (forwardToNode relay node msg o) as [[code reply] o'] eqn:E.
  assert ((code = OK /\ exists r, reply = Some r) \/ code = CONNECT_FAILED \/
    ((code = RECV_FAILED \/ code = FD_FIALED) /\ reply = None)) as Hcode.
  { unfold forwardToNode in E. repeat case_match; simplify_eq; naive_solver. }
  destruct Hcode as [[-> [r ->]]|[->|[[-> | ->] ->]]]; simpl; eauto 10.
Qed.
End forward_lemmas.

(** ** The properties *)

(** C23. Store and get: on the node that owns a frame whose id is a non-empty word, with a
    database that accepts the write and can be read, [STORE] of a payload that reads as a frame answers [STORE OK] and the
    next [GET] of its id answers with a text that decodes to that frame; if a
    number of the frame is not finite, [STORE] answers the same and the [GET] ends the
    connection with an exception, without an answer. *)
Theorem store_then_get `{!Floats, !FloatLaws, !JsonText, !JsonTextLaws}
    {B : Type} `{!RocksDB B, !RocksDBLaws B} {O S : Type} `{!PoolOS O, !FdTable O S, !SocketOps S}
    hash nodes self (db : B) (o : O) relay1 relay2 payload j f w0 h0 :
  json_parse payload = Some j -> frame_of_json j = Ok f ->
  owns hash nodes self (image_id f) -> no_space (image_id f) = true -> image_id f <> "" ->
  (forall v, status_ok (rdb_put (image_id f) v db).1 = true) ->
  (forall b : B, status_ok (rdb_get (image_id f) b).1 || status_not_found (rdb_get (image_id f) b).1 = true) ->
  exists st', handleStore hash nodes self relay1 ("STORE" +:+ String " " payload) (mkStorage (Some db)) o
    = Ok ([chars "STORE OK"], (st', o)) /\
    let answer := handleGet hash nodes self w0 h0 relay2 ("GET" +:+ String " " (image_id f)) st' o in
    if forallb box_finite (boxes f)
    then exists t, answer = Ok ([chars t], (st', o)) /\ decode t = Ok f
    else answer = Throw.
Proof.
  intros Hp Hf Hown Hs Hne Hput Hget.
  set (msg := "STORE" +:+ String " " payload).
  destruct (store_payload_own hash nodes self relay1 payload msg db o j f Hp Hf Hown)
    as (v & Hv & Hd & Hst).
  exists (mkStorage (Some (rdb_put (image_id f) v db).2)). split.
  - unfold handleStore, msg. destruct (store_cut payload) as [-> ->].
    fold msg. by rewrite Hst.
  - destruct (storage_get_contents (image_id f) (rdb_put (image_id f) v db).2)
      as (r & Hr & _ & Hc).
    rewrite Hc in Hr by done. rewrite rdb_put_contents, Hput, lookup_insert_eq in Hr.
    cbn zeta. rewrite (handleGet_own _ _ _ _ _ _ _ _ _ _ Hs Hne Hown Hr), Hd.
    destruct (forallb box_finite (boxes f)) eqn:Hfin; [|done].
    cbn [mbind result_bind]. unfold encode in Hv. destruct (json_dump (frame_json f)); [|done].
    injection Hv as ->. exists v. split; [done|]. by rewrite Hd.
Qed.

(** [GET] of a key that was never stored is answered like a hit: with an
    empty id and hash, no boxes, and the width and height that happen to be in
    the uninitialised local variable. *)
Theorem get_missing_key `{!Floats, !FloatLaws, !JsonText, !JsonTextLaws}
    {B : Type} `{!RocksDB B, !RocksDBLaws B} {O S : Type} `{!PoolOS O, !FdTable O S, !SocketOps S}
    hash nodes self (db : B) (o : O) relay id w0 h0 :
  owns hash nodes self id -> no_space id = true -> id <> "" ->
  rdb_contents db !! id = None -> is_i32 w0 -> is_i32 h0 ->
  exists t, handleGet hash nodes self w0 h0 relay ("GET" +:+ String " " id) (mkStorage (Some db)) o
      = Ok ([chars t], (mkStorage (Some db), o)) /\
    decode t = Ok (mkYoloFrame "" "" [] w0 h0).
Proof.
  intros Hown Hs Hne Hnone Hw Hh.
  destruct (storage_get_contents id db) as (r & Hr & Hsome & _).
  assert (r = None) as -> by (destruct r; [specialize (Hsome _ eq_refl); congruence|done]).
  rewrite (handleGet_own _ _ _ _ _ _ _ _ _ _ Hs Hne Hown Hr). cbn [mbind result_bind].
  destruct (decode_encode (mkYoloFrame "" "" [] w0 h0)) as (t & Ht & Hd).
  { split_and!; try done; by apply utf8_ascii. }
  unfold encode in Ht. destruct (json_dump _) as [t'|] eqn:E; [|done].
  injection Ht as ->. exists t. split; [done|exact Hd].
Qed.

(** C24. What a [STORE] can do: it never throws; it changes the store only when
    it answers [STORE OK]; and it sends exactly one message, except that it
    sends nothing at all when the message has no space, or when the frame belongs to
    another node and the forwarding failed otherwise than in connecting. *)
Theorem handleStore_outcomes `{!Floats, !JsonText} {B : Type} `{!RocksDB B}
    {O S : Type} `{!PoolOS O, !FdTable O S, !SocketOps S} hash nodes self relay msg
    (st : RocksDBStorage B) (o : O) :
  match handleStore hash nodes self relay msg st o with
  | Throw => False
  | Crash => True
  | Ok (replies, (st', o')) =>
      (st' <> st -> replies = [chars "STORE OK"]) /\
      ((exists r, replies = [r]) \/
       replies = [] /\
         (find_char " " msg = None \/
          exists node, In node nodes /\ ni_id node <> self /\
            ((forwardToNode relay node msg o).1.1 = RECV_FAILED \/
             (forwardToNode relay node msg o).1.1 = FD_FIALED)))
  end.
Proof.
  unfold handleStore. destruct (find_char " " msg) as [pos|] eqn:Ef; [|split; [done|auto]].
  destruct (store_payload _ _ _ _ _ _ _ _) as [[replies [st' o']]| |] eqn:Ep;
    [|split; [done|left; by eexists]|done].
  apply bind_Ok in Ep as (j & _ & (frame & _ & (node & Hn & Hrest)%bind_Ok)%bind_Ok).
  assert (In node nodes) as Hin.
  { unfold pick in Hn. destruct (pickNode hash nodes (image_id frame)) eqn:Ep; [|done].
    injection Hn as ->. apply list_elem_of_In, (picked_in hash (image_id frame)).
    by apply pickNode_picked. }
  destruct (String.eqb_spec (ni_id node) self) as [_|Hne]; cbn [negb] in Hrest.
  - apply bind_Ok in Hrest as (v & _ & ([b st2] & _ & Hrest)%bind_Ok).
    injection Hrest as <- <- <-. split; [done|eauto].
  - pose proof (forward_outcome relay node "STORE" msg st o) as Hf. rewrite Hrest in Hf.
    destruct Hf as (-> & _ & Hf). split; [done|]. naive_solver.
Qed.

(** C26. Frames are well typed: whatever text a client sends, a frame that is read from
    it has UTF-8 strings and 32-bit numbers for its size and classes, so it always has an
    encoding and the owner's [STORE] does not fail after the payload was read. *)
Theorem read_frame_typed `{!Floats, !FloatLaws, !JsonText, !JsonTextLaws} payload j f :
  json_parse payload = Some j -> frame_of_json j = Ok f ->
  frame_ok f /\ exists v, encode f = Ok v.
Proof.
  intros Hp Hf. assert (frame_ok f) as Hok by (eapply frame_of_json_ok; [by eapply parse_ok|done]).
  split; [done|]. destruct (decode_encode f Hok) as (v & Hv & _). eauto.
Qed.

(** C25. Forwarding: when the connection is made and the request is taken by the
    socket, the owner sees exactly the request in one frame, and the frame the owner
    answers with is what goes back to the client; and on every path, failed ones
    included, the descriptor that was opened is closed and no other one is
    touched. *)
Theorem forwardToNode_relays {O S : Type} `{!PoolOS O, !PoolOSLaws O, !FdTable O S,
    !SocketOps S, !SocketLaws S, !FdTableLaws O S} fds relay node msg (o o2 : O) fd s2 s3 reply :
  quiet_on fds relay -> fds ⊆ os_open o ->
  (os_open (forwardToNode relay node msg o).2 = os_open o /\
   forall fd', fd' ∈ fds ->
     fd_stream fd' (forwardToNode relay node msg o).2 = fd_stream fd' o) /\
  ((os_socket o).1 = fd -> (0 <= fd)%Z -> os_pton (ni_host node) = true ->
   connectWithRetry 5 fd (ni_host node) (u16 (ni_port node)) (os_socket o).2 = (true, o2) ->
   fd_stream fd o2 = Some s2 -> sk_sent s2 = [] -> sendMessage (chars msg) s2 = (true, s3) ->
   message_ok reply ->
   (forall o3 s, fd_stream fd o3 = Some s -> sk_sent s = frame (chars msg) ->
      exists s4 rest, fd_stream fd (relay o3) = Some s4 /\ sk_avail s4 = (frame reply ++ rest)%list) ->
   (forwardToNode relay node msg o).1 = (OK, Some reply)).
Proof.
  intros Hq Hsub. split; [by apply forwardToNode_frame|].
  intros Hfd H0 Hpton Hc Hs2 Hnil Hsend Hok Hans. unfold forwardToNode.
  destruct (os_socket o) as [fd1 o1]. cbn [fst snd] in *. subst fd1.
  rewrite (proj2 (Z.ltb_ge fd 0)) by lia. rewrite Hpton, Hc. cbn [negb].
  destruct (fd_sendMessage_eq fd _ _ _ _ _ Hs2 Hsend) as [-> Hs3].
  destruct (sendMessage_spec _ _ _ _ Hsend) as (_ & _ & Hsent). rewrite Hnil in Hsent.
  destruct (Hans _ _ Hs3 Hsent) as (s4 & rest & Hs4 & Ha).
  destruct (recvMessage_frame [] s4 reply rest Hok Ha) as (s5 & Hr & _).
  by destruct (fd_recvMessage_eq fd _ _ _ _ _ _ Hs4 Hr) as [-> _].
Qed.

(** ** Witnesses *)
Module Witness.
Import Storage.Memory.

Definition node1 : NodeInfo := mkNodeInfo "node1" "127.0.0.1" 8080 true.
Definition length_hash (s : string) : Z := Z.of_nat (String.length s).
Definition empty_db : mem_db := mkMem ∅ false.

(** A process with a client on descriptor 3; nobody answers a [connect]. *)
Definition alone : process := mkProcess {[ 3%Z := idle_stream ]} [] 0.

Lemma node1_owns id : owns length_hash [node1] "node1" id.
Proof. exists node1. by split. Qed.

(** The text of the codec's example is what [dump] gives for it. *)
Lemma frame_text_parses :
  @json_parse int_floats compact_text Codec.Witness.frame_text
  = Some (frame_json (Codec.Witness.frame (Some 7%Z))).
Proof.
  assert (print (frame_json (Codec.Witness.frame (Some 7%Z))) = Codec.Witness.frame_text) as <-
    by (vm_compute; reflexivity).
  apply parse_print. vm_compute. reflexivity.
Qed.

Lemma read_frame_typed_witness :
  frame_ok (Codec.Witness.frame (Some 7%Z)) /\
  exists v, encode (Codec.Witness.frame (Some 7%Z)) = Ok v.
Proof.
  apply (@read_frame_typed int_floats int_float_laws compact_text compact_laws
    Codec.Witness.frame_text (frame_json (Codec.Witness.frame (Some 7%Z)))).
  - exact frame_text_parses.
  - apply (@frame_of_json_encode int_floats int_float_laws compact_text);
      [apply Codec.Witness.frame_wf|reflexivity].
Defined.

Lemma store_then_get_witness :
  exists st' t,
    handleStore length_hash [node1] "node1" id ("STORE" +:+ String " " Codec.Witness.frame_text)
      (mkStorage (Some empty_db)) alone = Ok ([chars "STORE OK"], (st', alone)) /\
    handleGet length_hash [node1] "node1" 0 0 id ("GET" +:+ String " " "img1") st' alone
    = Ok ([chars t], (st', alone)) /\
    decode t = Ok (Codec.Witness.frame (Some 7%Z)).
Proof.
  destruct (@store_then_get int_floats int_float_laws compact_text compact_laws
    mem_db mem_rocksdb mem_laws process nb_stream process_ops process_table nb_ops
    length_hash [node1] "node1" empty_db alone id id
    Codec.Witness.frame_text (frame_json (Codec.Witness.frame (Some 7%Z)))
    (Codec.Witness.frame (Some 7%Z)) 0 0) as (st' & Hs & Hg).
  - exact frame_text_parses.
  - apply (@frame_of_json_encode int_floats int_float_laws compact_text);
      [apply Codec.Witness.frame_wf|reflexivity].
  - apply node1_owns.
  - reflexivity.
  - discriminate.
  - reflexivity.
  - intros [m full]. simpl. by destruct (m !! _).
  - destruct Hg as (t & Hg & Hd). exists st', t. split; [exact Hs|split; [exact Hg|exact Hd]].
Defined.

Lemma get_missing_key_witness :
  exists t, handleGet length_hash [node1] "node1" 17 (-3) id ("GET" +:+ String " " "img1")
      (mkStorage (Some empty_db)) alone = Ok ([chars t], (mkStorage (Some empty_db), alone)) /\
    decode t = Ok (mkYoloFrame "" "" [] 17 (-3)).
Proof.
  apply (@get_missing_key int_floats int_float_laws compact_text compact_laws
    mem_db mem_rocksdb mem_laws process nb_stream process_ops process_table nb_ops
    length_hash [node1] "node1" empty_db alone id "img1" 17 (-3)).
  - apply node1_owns.
  - reflexivity.
  - discriminate.
  - reflexivity.
  - unfold is_i32. lia.
  - unfold is_i32. lia.
Defined.

(** The owner's answer arrives on descriptor 4. *)
Definition deliver (o : process) : process :=
  match ps_streams o !! 4%Z with
  | Some s => mkProcess (<[4%Z := mkStream (frame (chars "PONG")) false (nb_out s) (nb_room s)]>
                (ps_streams o)) (ps_connects o) (ps_now o)
  | None => o
  end.

(** The first attempt to connect fails, the second is accepted. *)
Definition reachable : process :=
  mkProcess {[ 3%Z := idle_stream ]} [None; Some idle_stream] 0.

Lemma deliver_quiet : quiet_on {[ 3%Z ]} deliver.
Proof.
  intros o. unfold deliver. destruct (ps_streams o !! 4%Z) as [s|] eqn:E; [|done]. split.
  - simpl. unfold ps_open. simpl. rewrite dom_insert_L.
    apply elem_of_dom_2 in E. set_solver.
  - intros fd ->%elem_of_singleton. simpl. by rewrite lookup_insert_ne.
Qed.

Lemma forwardToNode_relays_witness :
  (forwardToNode deliver (mkNodeInfo "node2" "127.0.0.1" 8081 true) "PING" reachable).1
  = (OK, Some (chars "PONG")).
Proof.
  destruct (forwardToNode_relays {[ 3%Z ]} deliver (mkNodeInfo "node2" "127.0.0.1" 8081 true) "PING"
    reachable (mkProcess (<[4%Z := idle_stream]> (ps_streams (os_socket reachable).2)) [] 0)
    4 idle_stream (mkStream [] false (frame (chars "PING")) 4088) (chars "PONG")) as [_ H].
  - exact deliver_quiet.
  - apply singleton_subseteq_l. apply (bool_decide_eq_true_1 _). vm_compute. reflexivity.
  - apply H; clear H; try (vm_compute; reflexivity).
    + vm_compute. discriminate.
    + unfold message_ok. vm_compute. split; discriminate.
    + intros o3 s Hs Hsent. simpl in Hs. unfold deliver. rewrite Hs.
      exists (mkStream (frame (chars "PONG")) false (nb_out s) (nb_room s)), [].
      simpl. rewrite lookup_insert_eq. by split.
Defined.
End Witness.
