(* ===== verification/Session.v ===== *)
(** * A connection's life (src/server/Connection.cpp: [handle], [start], the
    destructor)

    The loop that reads a message, picks the handler by its first word and goes
    on until a read fails.  The loop is unbounded; its model consumes one [turn]
    per round, which says what the rest of the world does meanwhile, and reports
    [Serving] when the turns run out.  The store is open and the Raft node is made
    before the first connection is accepted (see [Server]). *)
From S2P Require Import Prelude Socket Text Command Protocol ConnPool Descriptors Router.
From S2P Require Import Json JsonText Codec RaftTypes RaftNode Storage RaftRpc Connection.
Local Open Scope string_scope.

(** What the threads of the server share. *)
Record server_state (B : Type) := mkServerState {
  sv_db : B;
  sv_raft : option RaftNode;
}.
Arguments mkServerState {B}.
Arguments sv_db {B}.
Arguments sv_raft {B}.

(** One round: what other threads and the network do before the read, what the
    network does while a request is forwarded, the values of [handleGet]'s
    uninitialised variables, and the Raft node's clock and random number. *)
Record turn (B O : Type) := mkTurn {
  tn_before : server_state B * O -> server_state B * O;
  tn_relay : O -> O;
  tn_width : Z;
  tn_height : Z;
  tn_timer : Timer;
}.
Arguments mkTurn {B O}.
Arguments tn_before {B O}.
Arguments tn_relay {B O}.
Arguments tn_width {B O}.
Arguments tn_height {B O}.
Arguments tn_timer {B O}.

(** Why the loop stopped: a read failed, an exception left a handler, undefined
    behaviour, or the turns ran out. *)
Inductive ending := Closed | Threw | Crashed | Serving.

#[export] Instance ending_eq_dec : EqDecision ending.
Proof. solve_decision. Defined.

Section session.
Context `{!Floats, !JsonText} {B : Type} `{!RocksDB B}.
Context {O S : Type} `{!PoolOS O, !FdTable O S, !SocketOps S}.
Variable hash : string -> Z.
Variable nodes : list NodeInfo.
Variable self : string.

(** The replies of a handler, the state and the process it leaves. *)
Definition handled : Type := list (list byte) * (server_state B * O).

(** A client handler as a handler of the server. *)
Definition on_store (h : RocksDBStorage B -> O -> result (list (list byte) * (RocksDBStorage B * O)))
    (st : server_state B) (o : O) : result handled :=
  '(replies, (db, o')) ← h (mkStorage (Some (sv_db st))) o;
  db' ← or_crash (m_db db);
  Ok (replies, (mkServerState db' (sv_raft st), o')).

(** The [switch] of [handle]. *)
Definition handle_message (t : turn B O) (msg : string) (st : server_state B) (o : O)
  : result handled :=
  match parseCommand (getFirstToken msg) with
  | PING => on_store handlePing st o
  | STORE => on_store (handleStore hash nodes self (tn_relay t) msg) st o
  | GET => on_store (handleGet hash nodes self (tn_width t) (tn_height t) (tn_relay t) msg) st o
  | RAFT_REQUEST_VOTE =>
      '(reply, n) ← handleRaftRequestVote (tn_timer t) msg (sv_raft st);
      Ok ([chars reply], (mkServerState (sv_db st) n, o))
  | RAFT_APPEND_ENTRIES =>
      '(reply, (n, db)) ← handleRaftAppendEntries (tn_timer t) msg (sv_raft st) (sv_db st);
      Ok ([chars reply], (mkServerState db n, o))
  | UNKNOWN => on_store handleUnknown st o
  end.

(** [Protocol::sendMessage(m_fd, reply)], its result ignored. *)
Definition send_reply (fd : Z) (o : O) (reply : list byte) : O := (fd_sendMessage fd reply o).2.

Definition send_replies (fd : Z) (replies : list (list byte)) (o : O) : O :=
  foldl (send_reply fd) o replies.

(** What was served: every message with the replies to it. *)
Definition trace : Type := list (string * list (list byte)).

(** [handle()] on the client's descriptor [fd]; [data] is the vector the
    messages are read into, which keeps its bytes from round to round. *)
Fixpoint handle (ts : list (turn B O)) (fd : Z) (data : list byte) (st : server_state B) (o : O)
  : ending * trace * (server_state B * O) :=
  match ts with
  | [] => (Serving, [], (st, o))
  | t :: ts' =>
      let '(st1, o1) := tn_before t (st, o) in
      let '(ok, data1, o2) := fd_recvMessage fd data o1 in
      if negb ok then (Closed, [], (st1, o2))
      else
        let msg := text data1 in
        match handle_message t msg st1 o2 with
        | Ok (replies, (st2, o3)) =>
            let '(e, tr, w) := handle ts' fd data1 st2 (send_replies fd replies o3) in
            (e, (msg, replies) :: tr, w)
        | Throw => (Threw, [], (st1, o2))
        | Crash => (Crashed, [], (st1, o2))
        end
  end.

(** [Connection(fd, ...)], [start()] and the destructor: the task a worker of the
    thread pool runs for an accepted client.  The worker catches exceptions, and the
    destructor runs on that path too. *)
Definition serve (ts : list (turn B O)) (fd : Z) (st : server_state B) (o : O)
  : ending * trace * (server_state B * O) :=
  let '(e, tr, (st', o')) := handle ts fd [] st o in
  match e with
  | Closed | Threw => (e, tr, (st', if (0 <=? fd)%Z then os_close fd o' else o'))
  | _ => (e, tr, (st', o'))
  end.
End session.

(** ** Reading consumes *)
Section reading.
Context {S : Type} `{!SocketOps S, !SocketLaws S}.

Lemma recvMessage_consumes out s ok out' s' :
  recvMessage out s = (ok, out', s') ->
  sk_eof s' = sk_eof s /\ sk_sent s' = sk_sent s /\
  length (sk_avail s') <= length (sk_avail s) /\
  (ok = true -> length (sk_avail s') < length (sk_avail s)).
Proof.
  assert (forall len s r s', 0 < len -> sk_recv len s = (r, s') ->
    sk_eof s' = sk_eof s /\ sk_sent s' = sk_sent s /\
    length (sk_avail s') <= length (sk_avail s) /\
    (forall b bs, r = RecvBytes (b :: bs) -> length (sk_avail s') < length (sk_avail s))) as Hrecv.
  { clear. intros len s r s' Hl E. destruct (decide (sk_avail s = [])) as [Hn|Hn].
    - rewrite sk_recv_none in E by done. injection E as <- <-.
      split_and!; try done. intros b bs. by destruct (sk_eof s).
    - destruct (sk_recv_some len s Hl Hn) as (s1 & E1 & Ha & Hs & He).
      rewrite E1 in E. injection E as <- <-. rewrite Ha, length_drop.
      assert (0 < length (sk_avail s)) by (destruct (sk_avail s); [done|simpl; lia]).
      split_and!; [done|done|lia|intros; lia]. }
  unfold recvMessage, recvMessage_around. destruct (sk_recv 4 s) as [r s1] eqn:E1.
  destruct (Hrecv 4 s r s1 ltac:(lia) E1) as (He1 & Hs1 & Hl1 & Hlt1).
  destruct r as [[|b hdr]|again]; [intros [= <- <- <-]; done| |intros [= <- <- <-]; done].
  specialize (Hlt1 b hdr eq_refl). set (len := ntohl_bytes _).
  destruct ((len =? 0) || (MAX_MESSAGE_SIZE <? len))%Z eqn:El; [intros [= <- <- <-]; done|].
  destruct (sk_recv (Z.to_nat len) s1) as [r2 s2] eqn:E2.
  destruct (decide (0 < Z.to_nat len)) as [Hpos|Hnp].
  - destruct (Hrecv _ _ _ _ Hpos E2) as (He2 & Hs2 & Hl2 & _).
    destruct r2 as [[|b2 body]|again2]; intros [= <- <- <-];
      (split_and!; [congruence|congruence|lia|done || lia]).
  - exfalso. apply orb_false_iff in El as [Hne _]. apply Z.eqb_neq in Hne.
    apply Hnp. pose proof (ntohl_nonneg (overwrite (b :: hdr) [x00; x00; x00; x00])).
    unfold len in *. lia.
Qed.
End reading.

(** ** What one message does *)
Section message.
Context `{!Floats, !JsonText} {B : Type} `{!RocksDB B}.
Context {O S : Type} `{!PoolOS O, !PoolOSLaws O, !FdTable O S, !SocketOps S, !FdTableLaws O S}.
Variable hash : string -> Z.
Variable nodes : list NodeInfo.
Variable self : string.

(** The store after a handler: open, as it was or after one [put]. *)
Definition store_moves (db : B) (st' : RocksDBStorage B) : Prop :=
  exists db', st' = mkStorage (Some db') /\ (db' = db \/ exists k v, db' = (rdb_put k v db).2).

Definition one_reply_at_most (replies : list (list byte)) : Prop := length replies <= 1.

Lemma forward_frame fds relay node what msg (db : RocksDBStorage B) (o : O) replies db' o' :
  quiet_on fds relay -> fds ⊆ os_open o ->
  forward relay node what msg db o = Ok (replies, (db', o')) ->
  kept fds o o' /\ db' = db /\ one_reply_at_most replies.
Proof.
  intros Hq Hsub Hf. pose proof (forward_outcome relay node what msg db o) as Hh.
  rewrite Hf in Hh. destruct Hh as (-> & -> & Hr).
  split_and!; [by apply forwardToNode_frame|done|].
  destruct Hr as [[r ->]|[-> _]]; unfold one_reply_at_most; simpl; lia.
Qed.

Lemma handleStore_frame fds relay msg db (o : O) replies st' o' :
  quiet_on fds relay -> fds ⊆ os_open o ->
  handleStore hash nodes self relay msg (mkStorage (Some db)) o = Ok (replies, (st', o')) ->
  kept fds o o' /\ store_moves db st' /\ one_reply_at_most replies.
Proof.
  intros Hq Hsub. unfold handleStore, store_moves, one_reply_at_most.
  assert (kept fds o o /\ (exists db', mkStorage (Some db) = mkStorage (Some db') /\
    (db' = db \/ exists k v, db' = (rdb_put k v db).2))) as [Hsame Hmoves]
    by (split; [apply kept_refl|eauto]).
  destruct (find_char " " msg) as [pos|]; [|intros [= <- <- <-]; simpl; auto].
  destruct (store_payload _ _ _ _ _ _ _ _) as [[r [s1 o1]]| |] eqn:Ep; [|intros [= <- <- <-]; simpl; auto|done].
  intros [= <- <- <-]. apply bind_Ok in Ep as (j & _ & (f & _ & (node & _ & Hrest)%bind_Ok)%bind_Ok).
  destruct (negb (String.eqb (ni_id node) self)).
  - destruct (forward_frame fds _ _ _ _ _ _ _ _ _ Hq Hsub Hrest) as (H1 & -> & H3). eauto 10.
  - apply bind_Ok in Hrest as (v & _ & ([b st2] & Hput & Hrest)%bind_Ok).
    injection Hrest as <- <- <-. rewrite storage_put_rdb in Hput. injection Hput as _ <-.
    simpl. split_and!; [done..| |lia]. eexists. split; [done|]. simpl. eauto.
Qed.

Lemma handleGet_frame fds w h relay msg db (o : O) replies st' o' :
  quiet_on fds relay -> fds ⊆ os_open o ->
  handleGet hash nodes self w h relay msg (mkStorage (Some db)) o = Ok (replies, (st', o')) ->
  kept fds o o' /\ st' = mkStorage (Some db) /\ one_reply_at_most replies.
Proof.
  intros Hq Hsub. unfold handleGet, one_reply_at_most. destruct (read_token msg) as [cmd rest].
  destruct (String.eqb (read_token rest).1 ""); [by intros [= <- <- <-]|].
  intros (node & _ & Hh)%bind_Ok. destruct (negb (String.eqb (ni_id node) self)).
  - by apply (forward_frame fds) in Hh.
  - apply bind_Ok in Hh as (opt & _ & (f & _ & (r & _ & [= <- <- <-])%bind_Ok)%bind_Ok). done.
Qed.

(** Every message: other descriptors are left alone, there is at most one reply,
    only [STORE] and appended entries change the store, and only the two Raft
    messages the node. *)
Lemma handle_message_frame fds (t : turn B O) msg st (o : O) replies st' o' :
  quiet_on fds (tn_relay t) -> fds ⊆ os_open o ->
  handle_message hash nodes self t msg st o = Ok (replies, (st', o')) ->
  kept fds o o' /\ one_reply_at_most replies /\
  (sv_db st' <> sv_db st ->
     parseCommand (getFirstToken msg) = STORE \/
     parseCommand (getFirstToken msg) = RAFT_APPEND_ENTRIES) /\
  (sv_raft st' <> sv_raft st ->
     parseCommand (getFirstToken msg) = RAFT_REQUEST_VOTE \/
     parseCommand (getFirstToken msg) = RAFT_APPEND_ENTRIES).
Proof.
  intros Hq Hsub. unfold handle_message, one_reply_at_most.
  destruct (parseCommand (getFirstToken msg)) eqn:Ec; cbn [on_store].
  - intros ([r [db1 o1]] & [= <- <- <-] & (db' & [= <-] & [= <- <- <-])%bind_Ok)%bind_Ok.
    destruct st; simpl. split_and!; done || lia.
  - intros ([r [db1 o1]] & Hh & (db' & Hdb & [= <- <- <-])%bind_Ok)%bind_Ok.
    apply (handleStore_frame fds) in Hh as (H1 & _ & H3); [|done..].
    split_and!; [done|done|by auto|done].
  - intros ([r [db1 o1]] & Hh & (db' & Hdb & [= <- <- <-])%bind_Ok)%bind_Ok.
    apply (handleGet_frame fds) in Hh as (H1 & -> & H3); [|done..].
    injection Hdb as <-. split_and!; done.
  - intros ([r n] & Hh & [= <- <- <-])%bind_Ok. simpl. split_and!; [done|done|done|by auto].
  - intros ([r [n db]] & Hh & [= <- <- <-])%bind_Ok. simpl. split_and!; [done|done|by auto|by auto].
  - intros ([r [db1 o1]] & [= <- <- <-] & (db' & [= <-] & [= <- <- <-])%bind_Ok)%bind_Ok.
    destruct st; simpl. split_and!; done || lia.
Qed.
End message.

(** ** The loop *)
Section loop.
Context `{!Floats, !JsonText} {B : Type} `{!RocksDB B}.
Context {O S : Type} `{!PoolOS O, !PoolOSLaws O, !FdTable O S, !SocketOps S, !SocketLaws S}.
Context `{!FdTableLaws O S}.
Variable hash : string -> Z.
Variable nodes : list NodeInfo.
Variable self : string.

(** During the round nothing arrives on the client's connection; everything
    else may change. *)
Definition turn_quiet (fd : Z) (t : turn B O) : Prop :=
  (forall st o, fd_stream fd (tn_before t (st, o)).2 = fd_stream fd o) /\
  quiet_on {[ fd ]} (tn_relay t).

(** The client's socket while replies are sent on it: every reply goes through one
    [sendMessage], in order, with the result noted; what else happens to the
    socket in between sends nothing. *)
Inductive sends : S -> S -> list (list byte) -> list bool -> Prop :=
  | sends_nil s s' : sk_sent s' = sk_sent s -> sends s s' [] []
  | sends_cons s s0 s1 s2 r rs ok oks :
      sk_sent s0 = sk_sent s -> sendMessage r s0 = (ok, s1) -> sends s1 s2 rs oks ->
      sends s s2 (r :: rs) (ok :: oks).

Lemma sends_from s s0 s' rs oks : sk_sent s0 = sk_sent s -> sends s0 s' rs oks -> sends s s' rs oks.
Proof.
  intros E Hs. destruct Hs as [a b Hab|a a0 a1 b r rs ok oks Ha0 Ha1 Hs].
  - apply sends_nil. congruence.
  - eapply sends_cons; [|done|done]. congruence.
Qed.

Lemma sends_app s1 s2 s3 rs1 rs2 oks1 oks2 :
  sends s1 s2 rs1 oks1 -> sends s2 s3 rs2 oks2 ->
  sends s1 s3 (rs1 ++ rs2)%list (oks1 ++ oks2)%list.
Proof.
  intros Hs1 Hs2. induction Hs1 as [a b Hab|a a0 a1 b r rs ok oks Ha0 Ha1 Hs1 IH]; simpl.
  - by eapply sends_from.
  - eapply sends_cons; [done|done|by apply IH].
Qed.

(** When all were taken, the client is sent exactly the frames of the replies. *)
Lemma sends_all s s' rs oks :
  sends s s' rs oks -> Forall (fun ok => ok = true) oks ->
  sk_sent s' = (sk_sent s ++ concat (frame <$> rs))%list.
Proof.
  induction 1 as [a b Hab|a a0 a1 b r rs ok oks Ha0 Ha1 Hs IH]; simpl; intros Hok.
  - by rewrite app_nil_r.
  - apply Forall_cons in Hok as [-> Hok]. rewrite (IH Hok).
    destruct (sendMessage_spec _ _ _ _ Ha1) as (_ & _ & ->). rewrite Ha0. by rewrite <- app_assoc.
Qed.

Lemma send_reply_stream fd o s r :
  fd_stream fd o = Some s ->
  exists s' ok, fd_stream fd (send_reply fd o r) = Some s' /\
    sk_avail s' = sk_avail s /\ sends s s' [r] [ok].
Proof.
  intros E. destruct (sendMessage r s) as [ok s'] eqn:Es.
  destruct (fd_sendMessage_eq fd _ _ _ _ _ E Es) as [Hsend Hs'].
  exists s', ok. unfold send_reply. rewrite Hsend. split; [done|].
  destruct (sendMessage_spec _ _ _ _ Es) as (Ha & _ & _). split; [done|].
  eapply sends_cons; [done|done|by apply sends_nil].
Qed.

Lemma send_replies_stream fd rs o s :
  fd_stream fd o = Some s ->
  exists s' oks, fd_stream fd (send_replies fd rs o) = Some s' /\
    sk_avail s' = sk_avail s /\ sends s s' rs oks.
Proof.
  revert o s. induction rs as [|r rs IH]; intros o s E; simpl.
  { exists s, []. split_and!; [done..|]. by apply sends_nil. }
  destruct (send_reply_stream fd o s r E) as (s1 & ok & E1 & Ha1 & Hs1).
  destruct (IH _ _ E1) as (s2 & oks & E2 & Ha2 & Hs2). exists s2, (ok :: oks).
  split_and!; [done|congruence|]. by apply (sends_app s s1 s2 [r] rs [ok] oks).
Qed.

(** One message and the replies to it, on the client's descriptor. *)
Lemma message_stream fd t msg st o s replies st' o' :
  turn_quiet fd t -> fd_stream fd o = Some s ->
  handle_message hash nodes self t msg st o = Ok (replies, (st', o')) ->
  exists s' oks, fd_stream fd (send_replies fd replies o') = Some s' /\
    sk_avail s' = sk_avail s /\ sends s s' replies oks.
Proof.
  intros [_ Hq] E Hm. eapply handle_message_frame in Hm as [[_ Hsame] _]; [|exact Hq|].
  - apply send_replies_stream. rewrite Hsame; set_solver.
  - apply singleton_subseteq_l. by eapply fd_stream_is_open.
Qed.

(** A round of the loop whose read succeeds. *)
Lemma handle_turn t ts fd data st o s ok data1 s1 :
  turn_quiet fd t -> fd_stream fd o = Some s -> recvMessage data s = (ok, data1, s1) ->
  exists st1 o2, fd_stream fd o2 = Some s1 /\
    handle hash nodes self (t :: ts) fd data st o =
      if negb ok then (Closed, [], (st1, o2))
      else
        match handle_message hash nodes self t (text data1) st1 o2 with
        | Ok (replies, (st2, o3)) =>
            let '(e, tr, w) :=
              handle hash nodes self ts fd data1 st2 (send_replies fd replies o3) in
            (e, (text data1, replies) :: tr, w)
        | Throw => (Threw, [], (st1, o2))
        | Crash => (Crashed, [], (st1, o2))
        end.
Proof.
  intros [Hb _] E Hr. cbn [handle]. specialize (Hb st o).
  destruct (tn_before t (st, o)) as [st1 o1]. cbn [snd] in Hb. rewrite E in Hb.
  destruct (fd_recvMessage_eq fd _ _ _ _ _ _ Hb Hr) as [-> Hs1]. eauto.
Qed.

(** The loop ends as soon as there are more rounds than unread bytes. *)
Lemma handle_ends ts fd data st o s :
  Forall (turn_quiet fd) ts -> fd_stream fd o = Some s -> length (sk_avail s) < length ts ->
  match handle hash nodes self ts fd data st o with
  | (e, _, (_, o')) => e <> Serving /\ fd ∈ os_open o'
  end.
Proof.
  intros Hts. revert data st o s. induction Hts as [|t ts Ht Hts IH]; intros data st o s E Hl;
    [simpl in Hl; lia|].
  destruct (recvMessage data s) as [[ok data1] s1] eqn:Er.
  destruct (recvMessage_consumes _ _ _ _ _ Er) as (_ & _ & _ & Hlt).
  destruct (handle_turn t ts fd data st o s ok data1 s1 Ht E Er) as (st1 & o2 & E2 & ->).
  assert (fd ∈ os_open o2) by by eapply fd_stream_is_open.
  destruct ok; cbn [negb]; [|done].
  destruct (handle_message _ _ _ t (text data1) st1 o2) as [[replies [st2 o3]]| |] eqn:Em; [|done..].
  destruct (message_stream fd t _ _ _ _ _ _ _ Ht E2 Em) as (s3 & oks & E3 & Ha3 & _).
  specialize (IH data1 st2 _ s3 E3). simpl in Hl. rewrite Ha3 in IH.
  specialize (IH ltac:(specialize (Hlt eq_refl); lia)).
  by destruct (handle _ _ _ ts fd data1 st2 _) as [[e tr] [st' o']].
Qed.

(** Whole frames in the receive buffer are served in order. *)
Lemma handle_frames ts fd data st o s msgs :
  Forall (turn_quiet fd) ts -> fd_stream fd o = Some s ->
  Forall (fun m => message_ok (chars m)) msgs ->
  sk_avail s = concat (frame ∘ chars <$> msgs) -> length msgs < length ts ->
  match handle hash nodes self ts fd data st o with
  | (e, tr, (_, o')) =>
      (e = Closed /\ tr.*1 = msgs \/
       (e = Threw \/ e = Crashed) /\ exists m rest, msgs = (tr.*1 ++ m :: rest)%list) /\
      exists s' oks, fd_stream fd o' = Some s' /\ sends s s' (concat tr.*2) oks
  end.
Proof.
  intros Hts. revert data st o s msgs.
  induction Hts as [|t ts Ht Hts IH]; intros data st o s msgs E Hok Ha Hl; [simpl in Hl; lia|].
  destruct Hok as [|m msgs Hm Hok].
  - destruct (recvMessage data s) as [[ok data1] s1] eqn:Er.
    assert (ok = false /\ sk_sent s1 = sk_sent s) as [-> Hsent].
    { destruct (recvMessage_consumes _ _ _ _ _ Er) as (_ & ? & _ & Hlt).
      destruct ok; [|done]. specialize (Hlt eq_refl). rewrite Ha in Hlt. simpl in Hlt. lia. }
    destruct (handle_turn t ts fd data st o s _ _ _ Ht E Er) as (st1 & o2 & E2 & ->).
    simpl. split; [by left|]. exists s1, []. split; [done|]. by apply sends_nil.
  - rewrite fmap_cons in Ha. simpl in Ha.
    destruct (recvMessage_frame data s (chars m) _ Hm Ha) as (s1 & Er & Ha1 & Hs1).
    destruct (handle_turn t ts fd data st o s _ _ _ Ht E Er) as (st1 & o2 & E2 & ->).
    cbn [negb]. rewrite text_chars.
    destruct (handle_message _ _ _ t m st1 o2) as [[replies [st2 o3]]| |] eqn:Em.
    + destruct (message_stream fd t _ _ _ _ _ _ _ Ht E2 Em) as (s3 & oks3 & E3 & Ha3 & Hsd3).
      rewrite <- Ha3 in Ha1. simpl in Hl.
      specialize (IH (chars m) st2 _ s3 msgs E3 Hok Ha1 ltac:(lia)).
      destruct (handle _ _ _ ts fd (chars m) st2 _) as [[e tr] [st' o']].
      destruct IH as [Hend (s' & oks & E' & Hsd)]. split.
      * destruct Hend as [[-> Hmsgs]|[He (m' & rest & ->)]]; [left|right].
        -- split; [done|]. rewrite fmap_cons. simpl. by rewrite Hmsgs.
        -- split; [done|]. by exists m', rest.
      * exists s', (oks3 ++ oks)%list. split; [done|]. simpl.
        apply (sends_app s s3 s'); [|done]. by eapply sends_from.
    + simpl. split; [right; split; [auto|by exists m, msgs]|].
      exists s1, []. split; [done|]. by apply sends_nil.
    + simpl. split; [right; split; [auto|by exists m, msgs]|].
      exists s1, []. split; [done|]. by apply sends_nil.
Qed.

(** Every message of the trace went through the switch. *)
Lemma handle_trace ts fd data st o s :
  Forall (turn_quiet fd) ts -> fd_stream fd o = Some s ->
  Forall (fun x => one_reply_at_most x.2 /\ exists t st1 st2,
            t ∈ ts /\ exists o1 o2,
            handle_message hash nodes self t x.1 st1 o1 = Ok (x.2, (st2, o2)))
    (handle hash nodes self ts fd data st o).1.2.
Proof.
  intros Hts. revert data st o s. induction Hts as [|t ts Ht Hts IH]; intros data st o s E; [done|].
  destruct (recvMessage data s) as [[ok data1] s1] eqn:Er.
  destruct (handle_turn t ts fd data st o s _ _ _ Ht E Er) as (st1 & o2 & E2 & ->).
  destruct ok; cbn [negb]; [|done].
  destruct (handle_message _ _ _ t (text data1) st1 o2) as [[replies [st2 o3]]| |] eqn:Em; [|done..].
  destruct (message_stream fd t _ _ _ _ _ _ _ Ht E2 Em) as (s3 & oks & E3 & _).
  specialize (IH data1 st2 _ s3 E3).
  destruct (handle _ _ _ ts fd data1 st2 _) as [[e tr] w]. constructor; simpl.
  - split; [|exists t, st1, st2; split; [apply list_elem_of_here|by exists o2, o3]].
    eapply (handle_message_frame hash nodes self ∅) in Em as (_ & ? & _); [done| |set_solver].
    intros o0. split; [apply Ht|set_solver].
  - eapply Forall_impl; [exact IH|]. intros x (H1 & t' & a & b & Hin & Hx).
    split; [done|]. exists t', a, b. split; [by apply list_elem_of_further|done].
Qed.
End loop.

(** ** A connection on which one request has arrived *)
Section one_request.
Context `{!Floats, !JsonText} {B : Type} `{!RocksDB B} {O : Type} `{!PoolOS O, !FdTable O nb_stream}.
Variable hash : string -> Z.
Variable nodes : list NodeInfo.
Variable self : string.

(** The round that serves it. *)
Lemma handle_request (t : turn B O) ts fd data st o msg room :
  tn_before t = id -> message_ok (chars msg) ->
  fd_stream fd o = Some (mkStream (frame (chars msg)) false [] room) ->
  handle hash nodes self (t :: ts) fd data st o =
    let o1 := fd_update fd (mkStream [] false [] room) o in
    match handle_message hash nodes self t msg st o1 with
    | Ok (replies, (st2, o3)) =>
        let '(e, tr, w) :=
          handle hash nodes self ts fd (chars msg) st2 (send_replies fd replies o3) in
        (e, (msg, replies) :: tr, w)
    | Throw => (Threw, [], (st, o1))
    | Crash => (Crashed, [], (st, o1))
    end.
Proof.
  intros Hb Hmsg E. cbn [handle]. rewrite Hb. cbn [id]. unfold fd_recvMessage. rewrite E.
  destruct (recvMessage_frame data (mkStream (frame (chars msg)) false [] room) (chars msg) [] Hmsg)
    as (s1 & Hr & Ha & Hs); [by rewrite app_nil_r|].
  destruct (recvMessage_consumes _ _ _ _ _ Hr) as (He & _).
  pose proof (recvMessage_room _ _ _ _ _ Hr) as Hroom.
  destruct s1 as [i1 e1 out1 room1]. simpl in Ha, Hs, He, Hroom. subst i1 e1 out1 room1.
  rewrite Hr. cbn [negb]. by rewrite text_chars.
Qed.

(** The round that finds nothing more. *)
Lemma handle_idle (t : turn B O) ts fd data st o s :
  tn_before t = id -> fd_stream fd o = Some s -> nb_in s = [] ->
  handle hash nodes self (t :: ts) fd data st o = (Closed, [], (st, fd_update fd s o)).
Proof.
  intros Hb E Hs. cbn [handle]. rewrite Hb. cbn [id]. unfold fd_recvMessage. rewrite E.
  unfold recvMessage, recvMessage_around. cbn [sk_recv nb_ops]. unfold nb_recv. rewrite Hs. by destruct (nb_eof s).
Qed.

(** A reply that fits the send buffer. *)
Lemma send_reply_fits fd o i e out reply :
  length (frame (chars reply)) <= 4096 -> fd_stream fd o = Some (mkStream i e out 4096) ->
  send_reply fd o (chars reply)
  = fd_update fd (mkStream i e (out ++ frame (chars reply)) (4096 - length (frame (chars reply)))) o.
Proof.
  intros Hfit E. unfold send_reply, fd_sendMessage. rewrite E, nb_sendMessage by done. done.
Qed.
End one_request.

(** ** The properties *)

(** C22. A connection ends: with nothing more arriving, the loop stops after at most
    one round more than there are unread bytes, whatever those bytes are, and
    whatever the handlers do and other threads change; and unless the process crashed,
    the client's descriptor is then closed, on the path of an exception
    as well. *)
Theorem serve_terminates `{!Floats, !JsonText} {B : Type} `{!RocksDB B} {O S : Type} `{!PoolOS O,
    !PoolOSLaws O, !FdTable O S, !SocketOps S, !SocketLaws S, !FdTableLaws O S}
    hash nodes self (ts : list (turn B O)) fd st (o : O) (s : S) :
  Forall (turn_quiet fd) ts -> (0 <= fd)%Z -> fd_stream fd o = Some s ->
  length (sk_avail s) < length ts ->
  match serve hash nodes self ts fd st o with
  | (e, _, (_, o')) => e = Crashed \/ (e = Closed \/ e = Threw) /\ fd ∉ os_open o'
  end.
Proof.
  intros Hts Hfd E Hl. pose proof (handle_ends hash nodes self ts fd [] st o s Hts E Hl) as Hend.
  unfold serve. destruct (handle hash nodes self ts fd [] st o) as [[e tr] [st' o']].
  destruct Hend as [He _]. rewrite (proj2 (Z.leb_le 0 fd)) by lia.
  assert (fd ∉ os_open (os_close fd o')) by (rewrite os_close_open; set_solver).
  destruct e; auto; done.
Qed.

(** C21. Requests that are already there are served in order and nothing else is:
    the messages handled are those framed in the receive buffer, first to last,
    up to one whose handler throws or crashes; each gets at most one reply, and
    the replies are sent in that order, each by one [sendMessage], so that the client is
    sent exactly their frames when the socket takes them all.  Then the loop ends, also for
    a client that has closed nothing and has only not sent its next request yet: the
    descriptors are non-blocking, and a read that finds nothing fails. *)
Theorem handle_serves_in_order `{!Floats, !JsonText} {B : Type} `{!RocksDB B} {O S : Type}
    `{!PoolOS O, !PoolOSLaws O, !FdTable O S, !SocketOps S, !SocketLaws S, !FdTableLaws O S}
    hash nodes self (ts : list (turn B O)) fd data st (o : O) (s : S) msgs :
  Forall (turn_quiet fd) ts -> fd_stream fd o = Some s ->
  Forall (fun m => message_ok (chars m)) msgs ->
  sk_avail s = concat (frame ∘ chars <$> msgs) -> length msgs < length ts ->
  match handle hash nodes self ts fd data st o with
  | (e, tr, (_, o')) =>
      (e = Closed /\ tr.*1 = msgs \/
       (e = Threw \/ e = Crashed) /\ exists m rest, msgs = (tr.*1 ++ m :: rest)%list) /\
      Forall (fun x => one_reply_at_most x.2 /\ exists t st1 st2,
                t ∈ ts /\ exists o1 o2,
                handle_message hash nodes self t x.1 st1 o1 = Ok (x.2, (st2, o2))) tr /\
      exists s' oks, fd_stream fd o' = Some s' /\ sends s s' (concat tr.*2) oks /\
        (Forall (fun ok => ok = true) oks ->
         sk_sent s' = (sk_sent s ++ concat (frame <$> concat tr.*2))%list)
  end.
Proof.
  intros Hts E Hok Ha Hl.
  pose proof (handle_frames hash nodes self ts fd data st o s msgs Hts E Hok Ha Hl) as Hend.
  pose proof (handle_trace hash nodes self ts fd data st o s Hts E) as Htr.
  destruct (handle hash nodes self ts fd data st o) as [[e tr] [st' o']].
  destruct Hend as [Hend (s' & oks & E' & Hs)]. split_and!; [done..|].
  exists s', oks. split_and!; [done..|]. by apply sends_all.
Qed.

(** What one message can change: whatever it is, and whichever handler takes it,
    the process has the same descriptors after it as before and the streams of those
    the network left alone are as they were; the store changes only
    with [STORE] and with appended entries, the Raft node only with the two Raft
    messages; and there is at most one reply. *)
Theorem message_effects `{!Floats, !JsonText} {B : Type} `{!RocksDB B} {O S : Type}
    `{!PoolOS O, !PoolOSLaws O, !FdTable O S, !SocketOps S, !FdTableLaws O S}
    hash nodes self fds (t : turn B O) msg st (o : O) replies st' o' :
  quiet_on fds (tn_relay t) -> fds ⊆ os_open o ->
  handle_message hash nodes self t msg st o = Ok (replies, (st', o')) ->
  kept fds o o' /\ one_reply_at_most replies /\
  (sv_db st' <> sv_db st ->
     parseCommand (getFirstToken msg) = STORE \/
     parseCommand (getFirstToken msg) = RAFT_APPEND_ENTRIES) /\
  (sv_raft st' <> sv_raft st ->
     parseCommand (getFirstToken msg) = RAFT_REQUEST_VOTE \/
     parseCommand (getFirstToken msg) = RAFT_APPEND_ENTRIES).
Proof. apply handle_message_frame. Qed.

(** ** Witnesses *)
Module Witness.
Import Storage.Memory Connection.Witness.

Definition quiet_turn : turn mem_db process :=
  mkTurn id id 0 0 (mkTimer 0 200).

(** A client has sent [PING] and an unknown word, and waits. *)
Definition client : process :=
  mkProcess {[ 3%Z := mkStream (frame (chars "PING") ++ frame (chars "HELLO")) false [] 4096 ]} [] 0.

Definition state0 : server_state mem_db := mkServerState empty_db None.

Lemma quiet_turns n : Forall (turn_quiet (B := mem_db) 3) (replicate n quiet_turn).
Proof. apply Forall_replicate. by split. Qed.

Lemma serve_terminates_witness :
  let '(e, _, (_, o')) := serve length_hash [node1] "node1" (replicate 20 quiet_turn) 3 state0 client in
  e = Closed /\ 3%Z ∉ os_open o'.
Proof.
  pose proof (@serve_terminates int_floats compact_text mem_db mem_rocksdb process nb_stream
    process_ops process_laws process_table nb_ops nb_laws process_table_laws
    length_hash [node1] "node1" (replicate 20 quiet_turn) 3 state0 client
    _ (quiet_turns 20) ltac:(lia) eq_refl ltac:(vm_compute; lia)) as H.
  destruct (serve length_hash [node1] "node1" (replicate 20 quiet_turn) 3 state0 client)
    as [[e tr] [st' o']] eqn:E.
  assert ((serve length_hash [node1] "node1" (replicate 20 quiet_turn) 3 state0 client).1.1
    = Closed) as He by (vm_compute; reflexivity).
  rewrite E in He. cbn [fst] in He. subst e.
  destruct H as [H|[_ H]]; [discriminate H|]. split; [reflexivity|exact H].
Defined.

Lemma handle_serves_in_order_witness :
  let '(e, tr, _) := handle length_hash [node1] "node1" (replicate 3 quiet_turn) 3 [] state0 client in
  e = Closed /\ tr.*1 = ["PING"; "HELLO"].
Proof.
  pose proof (@handle_serves_in_order int_floats compact_text mem_db mem_rocksdb process nb_stream
    process_ops process_laws process_table nb_ops nb_laws process_table_laws
    length_hash [node1] "node1" (replicate 3 quiet_turn) 3 [] state0 client
    _ ["PING"; "HELLO"] (quiet_turns 3) eq_refl
    ltac:(repeat constructor; vm_compute; discriminate) eq_refl ltac:(simpl; lia)) as H.
  destruct (handle length_hash [node1] "node1" (replicate 3 quiet_turn) 3 [] state0 client)
    as [[e tr] [st' o']] eqn:E.
  destruct H as [[[-> Htr]|[He _]] _]; [by split|].
  assert ((handle length_hash [node1] "node1" (replicate 3 quiet_turn) 3 [] state0 client).1.1
    = Closed) as Hc by (vm_compute; reflexivity).
  rewrite E in Hc. cbn [fst] in Hc. subst e. destruct He as [He|He]; discriminate He.
Defined.

Lemma message_effects_witness :
  handle_message length_hash [node1] "node1" quiet_turn "PING" state0 client
    = Ok ([chars "PONG"], (state0, client)) /\ one_reply_at_most [chars "PONG"].
Proof.
  assert (handle_message length_hash [node1] "node1" quiet_turn "PING" state0 client
    = Ok ([chars "PONG"], (state0, client))) as E by reflexivity.
  split; [exact E|].
  apply (message_effects length_hash [node1] "node1" ∅ quiet_turn "PING" state0 client
    [chars "PONG"] state0 client); [done|set_solver|exact E].
Defined.
End Witness.
