(* ===== verification/Network.v ===== *)
(** * A cluster over the program's own transport

    The members of a cluster as processes: each has its Raft node, its connection
    pool, its store and its descriptors.  A member that runs [startElection] or
    [heartbeatLoop] (src/raft/RaftNode.cpp) reaches the others through the pool, the
    sockets, the framing and the JSON of [RaftSend]; a member that is reached accepts
    the connection and serves it with the loop of [Session], which picks the Raft
    handlers by the first word of the message.

    When every answer arrives before it is read ([prompt_transport]), all this is
    transparent: a run of the processes is a run of the cluster of [RaftCluster], so
    that what is proved of the cluster is true of the processes.  When answers come
    late it is not: see [RaftStale]. *)
From S2P Require Import Prelude Socket Text Command Protocol Router ConnPool Descriptors.
From S2P Require Import Json JsonText RaftTypes RaftNode RaftInv RaftCluster RaftElection.
From S2P Require Import RaftCommit RaftTransports RaftRpc RaftSend Storage Session.

(** ** Members *)
Record member (B : Type) := mkMember {
  mb_node : RaftNode;
  mb_pool : RaftConnectionPool;
  mb_db : B;
  mb_proc : process;
}.
Arguments mkMember {B}.
Arguments mb_node {B}.
Arguments mb_pool {B}.
Arguments mb_db {B}.
Arguments mb_proc {B}.

Abbreviation network B := (gmap string (member B)).

(** The members a caller can reach, and the clock each of the coming requests meets. *)
Definition around (B : Type) : Type := network B * list Timer.

(** ** What the network does

    It takes what was sent on the connection [fd] to the [peer] at its other end, and brings
    the answer back, and the end of the connection; [ask] is what [peer] does with what it is
    sent. *)
Definition carry {X : Type} (ask : string -> list byte -> X -> list byte * X)
    (link : Z * string) (w : process * X) : process * X :=
  let '(fd, peer) := link in
  let '(proc, x) := w in
  match ps_streams proc !! fd with
  | None => (proc, x)
  | Some c =>
      let '(answer, x') := ask peer (nb_out c) x in
      (fd_update fd (mkStream (nb_in c ++ answer) true [] 4096) proc, x')
  end.

Section network.
Context `{!Floats, !JsonText} {B : Type} `{!RocksDB B}.
Variable hash : string -> Z.
Variable nodes : list NodeInfo.

(** Member [self] accepts a connection on which [request] has arrived, serves it until
    its loop ends and closes it: the bytes it has sent by then.  [None]: its
    process did not get so far. *)
Definition accept_and_serve (tm : Timer) (self : string) (request : list byte) (m : member B)
  : option (list byte * member B) :=
  let proc := mb_proc m in
  let fd := new_fd (ps_open proc) in
  let accepted := mkProcess (<[fd := mkStream request false [] 4096]> (ps_streams proc))
                    (ps_connects proc) (ps_now proc) in
  let round := mkTurn id id 0 0 tm in
  let '(e, _, (st, o)) :=
    handle hash nodes self [round; round] fd [] (mkServerState (mb_db m) (Some (mb_node m)))
      accepted in
  match e, sv_raft st, fd_stream fd o with
  | Closed, Some n, Some c => Some (nb_out c, mkMember n (mb_pool m) (sv_db st) (os_close fd o))
  | _, _, _ => None
  end.

(** What comes back from [peer]; nothing when it is not there or does not answer. *)
Definition at_peer (peer : string) (request : list byte) (x : around B)
  : list byte * around B :=
  let '(net, clocks) := x in
  match clocks with
  | [] => ([], x)
  | tm :: clocks' =>
      match m ← net !! peer; accept_and_serve tm peer request m with
      | Some (answer, m') => (answer, (<[peer := m']> net, clocks'))
      | None => ([], (net, clocks'))
      end
  end.

Definition serve_links (w : pooled_world (O := process * around B))
  : pooled_world (O := process * around B) :=
  (w.1, foldr (carry at_peer) w.2 (map_to_list (m_fdToPeerMap w.1))).

(** The transport of a member whose requests are answered before the answer is read. *)
Definition prompt_transport : RaftTransport (pooled_world (O := process * around B)) :=
  pool_transport serve_links.

(** [connect] as a schedule of exchanges has it: a connection is made at once, or
    fails at each of the three attempts. *)
Definition connects_of (sched : list (option Timer)) : list (option nb_stream) :=
  sched ≫= fun x => match x with Some _ => [Some idle_stream] | None => [None; None; None] end.

(** [m]'s process about to call; the others, with their clocks. *)
Definition calling (sched : list (option Timer)) (self : string) (m : member B) (net : network B)
  : pooled_world (O := process * around B) :=
  (mb_pool m, (mkProcess (ps_streams (mb_proc m)) (connects_of sched) (ps_now (mb_proc m)),
               (delete self net, omap id sched))).

(** ** What the members do *)
Inductive net_op :=
  | NetElection (self : string) (tm : Timer) (sched : list (option Timer))
  | NetHeartbeat (self : string) (sched : list (option Timer))
  | NetSubmit (self key value : string).

(** A turn of [electionLoop], a turn of [heartbeatLoop], or [submitLog], at one member. *)
Definition net_step (op : net_op) (net : network B) : option (network B) :=
  match op with
  | NetElection self tm sched =>
      m ← net !! self;
      '(n, (pool, (proc, (others, _)))) ←
        @electionLoop_turn _ prompt_transport tm (mb_node m) (calling sched self m net);
      Some (<[self := mkMember n pool (mb_db m) proc]> others)
  | NetHeartbeat self sched =>
      m ← net !! self;
      '(n, db, (pool, (proc, (others, _)))) ←
        @heartbeatLoop_turn _ _ _ prompt_transport (mb_node m) (mb_db m)
          (calling sched self m net);
      Some (<[self := mkMember n pool db proc]> others)
  | NetSubmit self key value =>
      m ← net !! self;
      '(_, n) ← submitLog key value (mb_node m);
      Some (<[self := mkMember n (mb_pool m) (mb_db m) (mb_proc m)]> net)
  end.

(** The member exists, there is a next term, and its vector can grow. *)
Definition op_ok (op : net_op) (net : network B) : Prop :=
  match op with
  | NetElection self _ _ =>
      exists m, net !! self = Some m /\ (m_currentTerm (mb_node m) < UINT64_MAX)%Z
  | NetHeartbeat self _ => is_Some (net !! self)
  | NetSubmit self _ _ => exists m, net !! self = Some m /\ room_for 1 (mb_node m)
  end.

(** The members as their constructors leave them. *)
Definition members (net : network B) : gmap string (RaftNode * B) :=
  (fun m => (mb_node m, mb_db m)) <$> net.

Definition net_start (ids : gset string) (net : network B) : Prop :=
  cluster_init ids (mkCluster (members net) ∅ [] []) /\
  forall p m, net !! p = Some m -> mb_pool m = pool_start RaftConnectionPool_new.

Inductive net_reach (ids : gset string) : network B -> Prop :=
  | net_reach_start net : net_start ids net -> net_reach ids net
  | net_reach_step op net net' :
      net_reach ids net -> op_ok op net -> net_step op net = Some net' -> net_reach ids net'.
End network.

(** ** One connection *)

(** A pool with nothing in it. *)
Definition pool_empty (p : RaftConnectionPool) : Prop :=
  (forall peer, queue_of p peer = []) /\ m_fdToPeerMap p = ∅.

Section connecting.
Context {X : Type}.

(** [createConnection] under a schedule. *)
Lemma createConnection_scheduled host port sched streams now (x : X) :
  createConnection host port (mkProcess streams (connects_of sched) now, x)
  = match sched with
    | Some _ :: rest =>
        let fd := new_fd (dom streams) in
        (fd, (mkProcess (<[fd := idle_stream]> streams) (connects_of rest) now, x))
    | None :: rest => ((-1)%Z, (mkProcess streams (connects_of rest) now, x))
    | [] => ((-1)%Z, (mkProcess streams [] now, x))
    end.
Proof.
  unfold createConnection. cbn [os_socket beside_os process_ops fst snd]. unfold ps_open.
  cbn [ps_streams ps_connects ps_now]. set (fd := new_fd (dom streams)).
  assert (0 <= fd)%Z as Hfd by apply new_fd_nonneg.
  assert (streams !! fd = None) as Hnew.
  { apply not_elem_of_dom. intros H%new_fd_above. unfold fd in H. lia. }
  rewrite (proj2 (Z.ltb_ge fd 0)) by lia. cbn [os_pton negb].
  destruct sched as [|[tm|] rest]; simpl.
  - by rewrite delete_insert_id.
  - rewrite decide_True; [by rewrite insert_insert_eq|].
    unfold ps_open. simpl. rewrite dom_insert_L. set_solver.
  - by rewrite delete_insert_id.
Qed.

Lemma getConnection_empty peer host port p (o : process * X) :
  pool_empty p ->
  getConnection peer host port p o =
    (let '(fd, o') := createConnection host port o in
     if (0 <=? fd)%Z
     then (fd, mkPool (m_connectionPools p) {[fd := peer]} (cp_running p), o')
     else ((-1)%Z, p, o')).
Proof.
  intros [Hq Hm]. unfold getConnection, reuse_front. specialize (Hq peer). unfold queue_of in Hq.
  destruct (m_connectionPools p !! peer) as [[|conn q]|]; [|done|]; by rewrite Hm.
Qed.
End connecting.

Section exchange.
Context `{!Floats, !JsonText, !JsonTextLaws} {B : Type} `{!RocksDB B}.
Variable hash : string -> Z.
Variable nodes : list NodeInfo.
#[local] Abbreviation serve_links := (serve_links hash nodes).
#[local] Abbreviation at_peer := (at_peer hash nodes).

(** A request that fits one send buffer. *)
Definition fits (msg : string) : Prop :=
  message_ok (chars msg) /\ length (frame (chars msg)) <= 4096.

(** What arrives for a reply, and when there is none. *)
Definition arrives (reply : option string) : list byte :=
  match reply with Some s => frame (chars s) | None => [] end.

Lemma arrives_read reply out room :
  (forall s, reply = Some s -> message_ok (chars s)) ->
  exists data s', recvMessage [] (mkStream (arrives reply) true out room)
    = (bool_decide (is_Some reply), data, s') /\
    (forall s, reply = Some s -> data = chars s) /\ sk_avail s' = [] /\ sk_eof s' = true.
Proof.
  intros Hok. destruct reply as [s|]; simpl.
  - destruct (recvMessage_frame [] (mkStream (frame (chars s)) true out room) (chars s) [])
      as (s' & Hr & Ha & _); [by apply Hok|by rewrite app_nil_r|].
    destruct (recvMessage_consumes _ _ _ _ _ Hr) as (He & _).
    exists (chars s), s'. rewrite Hr. split_and!; [done|by intros ? [= ->]|done|done].
  - eexists _, _. by split_and!.
Qed.

(** The exchange takes place. *)
Lemma prompt_exchange p streams now net tm rest peer host port msg reply x :
  pool_empty p -> fits msg ->
  at_peer peer (frame (chars msg)) (net, tm :: omap id rest) = (arrives reply, x) ->
  (forall s, reply = Some s -> message_ok (chars s)) ->
  exists p' proc',
    rpc_exchange serve_links peer host port (Ok msg)
      (p, (mkProcess streams (connects_of (Some tm :: rest)) now, (net, tm :: omap id rest)))
    = (Ok reply, (p', (proc', x))) /\
    pool_empty p' /\ ps_connects proc' = connects_of rest.
Proof.
  intros Hp [Hok Hfit] Hat Hreply. set (fd := new_fd (dom streams)).
  pose proof (new_fd_nonneg (dom streams)) as Hfd. fold fd in Hfd.
  set (o := (mkProcess streams (connects_of (Some tm :: rest)) now,
             (net, tm :: omap id rest)) : process * around B).
  set (o1 := (mkProcess (<[fd := idle_stream]> streams) (connects_of rest) now,
              (net, tm :: omap id rest)) : process * around B).
  set (p1 := mkPool (m_connectionPools p) {[fd := peer]} (cp_running p)).
  assert (getConnection peer host port p o = (fd, p1, o1)) as Eg.
  { rewrite getConnection_empty by done. unfold o. rewrite createConnection_scheduled.
    cbv beta iota zeta. fold fd. by rewrite (proj2 (Z.leb_le 0 fd)). }
  pose proof (nb_sendMessage (chars msg) [] false [] 4096 Hfit) as Hs. fold idle_stream in Hs.
  unfold rpc_exchange. rewrite Eg, (proj2 (Z.ltb_ge fd 0)) by lia.
  unfold fd_sendMessage at 1. unfold o1, p1.
  cbn [fd_stream beside_table process_table fst snd ps_streams].
  rewrite lookup_insert_eq, Hs. cbn [negb].
  unfold Network.serve_links. cbn [fst snd m_fdToPeerMap]. rewrite map_to_list_singleton.
  cbn [foldr]. unfold carry. cbn [fd_update process_table beside_table fst snd ps_streams].
  rewrite lookup_insert_eq. cbn [nb_out nb_in app]. rewrite Hat.
  destruct (arrives_read reply [] 4096 Hreply) as (data & s' & Hr & Hd & Ha & He).
  unfold fd_recvMessage. cbn [fd_stream beside_table process_table fst snd ps_streams].
  rewrite lookup_insert_eq, Hr.
  cbn [fd_update beside_table process_table fst snd ps_streams ps_connects ps_now].
  set (o4 := (mkProcess _ _ _, x)). fold p1.
  assert (releaseConnection peer fd p1 o4
    = (mkPool (m_connectionPools p) ∅ (cp_running p), os_close fd o4)) as Hrel.
  { unfold releaseConnection. cbn [p1 m_fdToPeerMap]. rewrite lookup_singleton_eq.
    rewrite bool_decide_true by done. cbn [negb].
    rewrite (valid_stream fd o4 s' Hfd), Ha, He; [|apply lookup_insert_eq].
    rewrite bool_decide_true by done. cbn [andb negb]. unfold p1. cbn [m_fdToPeerMap].
    by rewrite delete_singleton_eq. }
  exists (mkPool (m_connectionPools p) ∅ (cp_running p)).
  destruct reply as [s|].
  - rewrite bool_decide_true by eauto. cbn [negb]. rewrite Hrel, (Hd s eq_refl), text_chars.
    eexists. split; [done|]. split; [|done]. by split; [apply Hp|].
  - rewrite bool_decide_false by (by intros [? [=]]). cbn [negb]. rewrite Hrel.
    eexists. split; [done|]. split; [|done]. by split; [apply Hp|].
Qed.

(** The exchange fails: nobody can be connected to. *)
Lemma refused_exchange p streams now x sched peer host port msg :
  pool_empty p -> (forall tm rest, sched <> Some tm :: rest) ->
  exists proc',
    rpc_exchange serve_links peer host port (Ok msg)
      (p, (mkProcess streams (connects_of sched) now, x))
    = (Ok None, (p, (proc', x))) /\ ps_connects proc' = connects_of (tail sched).
Proof.
  intros Hp Hs. unfold rpc_exchange.
  rewrite getConnection_empty, createConnection_scheduled by done.
  destruct sched as [|[tm|] rest]; [|by destruct (Hs tm rest)|]; simpl; by eexists.
Qed.

(** A Raft message served by the member that accepts it. *)
Lemma accept_and_serve_message tm self (m : member B) msg reply n db :
  message_ok (chars msg) -> fits reply ->
  (forall o, handle_message hash nodes self (mkTurn id id 0 0 tm) msg
     (mkServerState (mb_db m) (Some (mb_node m))) o
   = Ok ([chars reply], (mkServerState db (Some n), o))) ->
  exists proc, accept_and_serve hash nodes tm self (frame (chars msg)) m
    = Some (frame (chars reply), mkMember n (mb_pool m) db proc).
Proof.
  intros Hmsg [Hreply Hfit] Hh. unfold accept_and_serve. set (fd := new_fd _).
  set (o := mkProcess _ _ _).
  rewrite (handle_request hash nodes self _ _ fd [] _ o msg 4096);
    [|done|done|apply lookup_insert_eq].
  cbv zeta. rewrite Hh. cbn [send_replies foldl].
  rewrite (send_reply_fits fd _ [] false [] reply Hfit); [|apply lookup_insert_eq].
  erewrite handle_idle; [|done|apply lookup_insert_eq|done].
  cbn [sv_raft sv_db fd_stream fd_update process_table ps_streams].
  rewrite lookup_insert_eq. by eexists.
Qed.
End exchange.

(** ** Texts of a bounded length *)
Section texts.
Context `{!Floats, !JsonText}.

(** Replies fit one send buffer, whatever their numbers. *)
Class ShortReplies : Prop := {
  short_vote_reply r s : is_u64 (rvr_term r) -> vote_reply_text r = Ok s -> fits s;
  short_append_reply r s : is_u64 (aer_term r) -> append_reply_text r = Ok s -> fits s;
}.

(** So do the requests that carry the id [i]. *)
Record id_ok (i : string) : Prop := mk_id_ok {
  id_utf8 : utf8_ok i = true;
  id_vote a m : rv_args_ok a -> rv_candidateId a = i -> vote_request a = Ok m -> fits m;
  id_append a m : ae_args_ok a -> ae_leaderId a = i -> ae_entries a = [] ->
    append_request a = Ok m -> fits m;
}.
End texts.

(** ** The transports agree *)
Section agreement.
Context `{!Floats, !JsonText, !JsonTextLaws, !ShortReplies} {B : Type} `{!RocksDB B}.
Variable hash : string -> Z.
Variable nodes : list NodeInfo.
Implicit Types (net : network B) (c : cluster B).

(** Every member is well-formed and keeps no connection. *)
Definition members_ok net : Prop :=
  forall p m, net !! p = Some m -> raft_wf (mb_node m) /\ pool_empty (mb_pool m).

(** The members but [i] are the nodes of the cluster. *)
Definition others_agree (i : string) net c : Prop :=
  forall p, p <> i -> members net !! p = cl_nodes c !! p.

(** [i]'s world during a call, and the cluster with its schedule. *)
Record calling_as (i : string) (w1 : pooled_world (O := process * around B))
    (w2 : cluster_world B) : Prop := mk_calling_as {
  ca_pool : pool_empty w1.1;
  ca_connects : ps_connects w1.2.1 = connects_of w2.2;
  ca_clocks : w1.2.2.2 = omap id w2.2;
  ca_self : w1.2.2.1 !! i = None;
  ca_others : others_agree i w1.2.2.1 w2.1;
  ca_members : members_ok w1.2.2.1;
  ca_idle : cl_elections w2.1 = ∅;
}.

Lemma members_lookup net p :
  members net !! p = (fun m => (mb_node m, mb_db m)) <$> (net !! p).
Proof. apply lookup_fmap. Qed.

(** Whom the next exchange reaches. *)
Definition met (p : string) c (sched : list (option Timer))
  : option (Timer * list (option Timer) * RaftNode * B) :=
  match sched with
  | Some tm :: rest => '(n, db) ← cl_nodes c !! p; Some (tm, rest, n, db)
  | _ => None
  end.

Lemma deliver_vote_met p a c sched :
  cl_elections c = ∅ ->
  deliver_request_vote p a (c, sched) =
    match met p c sched with
    | Some (tm, rest, n, db) =>
        match handleRequestVote tm a n with
        | Some (r, n') => (Some r, (add_votes (granted_vote p a r) (put_node p n' db c), rest))
        | None => (None, (c, rest))
        end
    | None => (None, (c, tail sched))
    end.
Proof.
  intros Hi. unfold deliver_request_vote, met. destruct sched as [|[tm|] rest]; [done| |done].
  rewrite Hi, lookup_empty. by destruct (cl_nodes c !! p) as [[n db]|].
Qed.

Lemma deliver_append_met p a c sched :
  cl_elections c = ∅ ->
  deliver_append_entries p a (c, sched) =
    match met p c sched with
    | Some (tm, rest, n, db) =>
        match handleAppendEntries tm a n db with
        | Some (r, n', db') => (Some r, (put_node p n' db' c, rest))
        | None => (None, (c, rest))
        end
    | None => (None, (c, tail sched))
    end.
Proof.
  intros Hi. unfold deliver_append_entries, met. destruct sched as [|[tm|] rest]; [done| |done].
  rewrite Hi, lookup_empty. by destruct (cl_nodes c !! p) as [[n db]|].
Qed.

(** A call that reaches nobody. *)
Lemma calling_missed i p msg host port w1 c sched :
  calling_as i w1 (c, sched) -> p <> i -> fits msg -> met p c sched = None ->
  exists w1',
    rpc_exchange (serve_links hash nodes) p host port (Ok msg) w1 = (Ok None, w1') /\
    calling_as i w1' (c, tail sched).
Proof.
  destruct w1 as [pool [[streams conns now] [net clocks]]].
  intros [Hp Hc Hcl Hs Ho Hm Hi] Hne Hfit Hmet. simpl in *. subst conns clocks.
  assert ((forall tm rest, sched <> Some tm :: rest) -> exists w1',
    rpc_exchange (serve_links hash nodes) p host port (Ok msg)
      (pool, (mkProcess streams (connects_of sched) now, (net, omap id sched))) = (Ok None, w1') /\
    (omap id sched = omap id (tail sched) -> calling_as i w1' (c, tail sched))) as Hrefused.
  { intros Hno. destruct (refused_exchange hash nodes pool streams now (net, omap id sched) sched p
      host port msg Hp Hno) as (proc' & Hx & Hc').
    exists (pool, (proc', (net, omap id sched))). split; [exact Hx|]. by constructor. }
  destruct sched as [|[tm|] rest]; [| |].
  - destruct Hrefused as (w1' & ? & Hca); [done|]. eauto.
  - assert (net !! p = None) as Hnet.
    { simpl in Hmet. specialize (Ho p Hne). rewrite members_lookup in Ho.
      destruct (cl_nodes c !! p) as [[n db]|]; [done|]. by apply fmap_None in Ho. }
    destruct (prompt_exchange hash nodes pool streams now net tm rest p host port msg None
      (net, omap id rest) Hp Hfit) as (pool' & proc' & Hx & Hp' & Hc'); [|done|].
    { simpl. by rewrite Hnet. }
    exists (pool', (proc', (net, omap id rest))). split; [exact Hx|]. by constructor.
  - destruct Hrefused as (w1' & ? & Hca); [done|]. eauto.
Qed.

(** A call that is served: the peer answers [s] and becomes [n']. *)
Lemma calling_served i p msg host port w1 c sched tm rest n db s n' db' :
  calling_as i w1 (c, sched) -> p <> i -> fits msg -> fits s ->
  met p c sched = Some (tm, rest, n, db) -> raft_wf n' ->
  (forall o, handle_message hash nodes p (mkTurn id id 0 0 tm) msg (mkServerState db (Some n)) o
   = Ok ([chars s], (mkServerState db' (Some n'), o))) ->
  exists w1',
    rpc_exchange (serve_links hash nodes) p host port (Ok msg) w1 = (Ok (Some s), w1') /\
    forall vs, calling_as i w1' (add_votes vs (put_node p n' db' c), rest).
Proof.
  destruct w1 as [pool [[streams conns now] [net clocks]]].
  intros [Hp Hc Hcl Hs Ho Hm Hi] Hne Hfit Hfits Hmet Hwf Hh. simpl in *. subst conns clocks.
  destruct sched as [|[tm0|] rest0]; [done| |done]. simpl in Hmet.
  apply bind_Some in Hmet as ([n0 db0] & Hn & [= -> -> -> ->]).
  pose proof (Ho p Hne) as Hpn. rewrite Hn, members_lookup in Hpn.
  apply fmap_Some in Hpn as (m & Em & [= -> ->]).
  destruct (accept_and_serve_message hash nodes tm p m msg s n' db' (proj1 Hfit) Hfits Hh)
    as (proc & Hserve).
  set (m' := mkMember n' (mb_pool m) db' proc) in *.
  destruct (prompt_exchange hash nodes pool streams now net tm rest p host port msg (Some s)
    (<[p := m']> net, omap id rest) Hp Hfit) as (pool' & proc' & Hx & Hp' & Hc').
  { unfold Network.at_peer. rewrite Em. cbn [mbind option_bind]. by rewrite Hserve. }
  { intros s' [= <-]. apply Hfits. }
  exists (pool', (proc', (<[p := m']> net, omap id rest))). split; [exact Hx|].
  intros vs. constructor; try done; simpl.
  - by rewrite lookup_insert_ne.
  - intros q Hq. rewrite members_lookup. simpl. destruct (decide (p = q)) as [<-|Hpq].
    + by rewrite !lookup_insert_eq.
    + rewrite !lookup_insert_ne by done. rewrite <- members_lookup. by apply Ho.
  - intros q mq. rewrite lookup_insert. case_decide as Eq; [|apply Hm].
    intros [= <-]. split; [done|]. apply (Hm p m Em).
Qed.

(** The member that is met is well-formed. *)
Lemma met_wf i p w1 c sched tm rest n db :
  calling_as i w1 (c, sched) -> p <> i -> met p c sched = Some (tm, rest, n, db) -> raft_wf n.
Proof.
  intros [_ _ _ _ Ho Hm _] Hne Hmet. destruct sched as [|[tm0|] rest0]; [done| |done].
  apply bind_Some in Hmet as ([n0 db0] & Hn & [= -> -> -> ->]).
  specialize (Ho p Hne). simpl in Ho. rewrite Hn, members_lookup in Ho.
  apply fmap_Some in Ho as (m & Em & [= -> ->]). by apply (Hm p m Em).
Qed.

(** A vote asked over the pool's transport and over the cluster's. *)
Lemma calling_vote i p host port a w1 w2 :
  id_ok i -> calling_as i w1 w2 -> p <> i -> rv_args_ok a -> rv_candidateId a = i ->
  exists reply w1' w2',
    @rpc_request_vote _ (prompt_transport hash nodes) p host port a w1 = (reply, w1') /\
    @rpc_request_vote _ cluster_transport p host port a w2 = (reply, w2') /\
    calling_as i w1' w2' /\ forall r, reply = Some r -> is_u64 (rvr_term r).
Proof.
  destruct w2 as [c sched]. intros Hid Hca Hne Ha Hci.
  pose proof (id_utf8 _ Hid) as Hu. rewrite <- Hci in Hu.
  cbn [rpc_request_vote prompt_transport pool_transport cluster_transport].
  rewrite deliver_vote_met by apply Hca. unfold request_vote_rpc.
  destruct (met p c sched) as [[[[tm rest] n] db]|] eqn:Hmet.
  - pose proof (met_wf _ _ _ _ _ _ _ _ _ Hca Hne Hmet) as Hwf.
    destruct (vote_rpc_parts tm a n Hwf Ha Hu) as (m & r & n' & s & Hreq & Hh & Hw & Hrh & Ht & Hr).
    destruct (wf_handleRequestVote tm a n Hwf Ha) as (r0 & n0 & Hh0 & Hwf').
    rewrite Hh in Hh0. injection Hh0 as <- <-.
    assert (is_u64 (rvr_term r)) as Hu64.
    { rewrite (vote_reply_term _ _ _ _ _ Hh). apply (wf_term _ Hwf'). }
    destruct (calling_served i p m host port w1 c sched tm rest n db s n' db Hca Hne
      (id_vote _ Hid a _ Ha Hci Hreq) (short_vote_reply _ _ Hu64 Ht) Hmet Hwf') as (w1' & Hx & Hca').
    { intros o. unfold handle_message. rewrite Hw. cbn [sv_raft tn_timer].  by rewrite Hrh. }
    rewrite Hreq, Hx, Hh. cbn [mbind result_bind]. rewrite Hr.
    eexists _, w1', _. split_and!; [done|done|apply Hca'|by intros ? [= <-]].
  - destruct (vote_request_read a Ha Hu) as (d & Hreq & _).
    destruct (calling_missed i p _ host port w1 c sched Hca Hne (id_vote _ Hid a _ Ha Hci Hreq) Hmet)
      as (w1' & Hx & Hca').
    rewrite Hreq, Hx. eexists None, w1', _. by split_and!.
Qed.

(** The same for an append message without entries. *)
Lemma calling_append i p host port a w1 w2 :
  id_ok i -> calling_as i w1 w2 -> p <> i -> ae_args_wf a -> ae_leaderId a = i ->
  ae_entries a = [] ->
  exists reply w1' w2',
    @rpc_append_entries _ (prompt_transport hash nodes) p host port a w1 = (reply, w1') /\
    @rpc_append_entries _ cluster_transport p host port a w2 = (reply, w2') /\
    calling_as i w1' w2' /\ forall r, reply = Some r -> is_u64 (aer_term r).
Proof.
  destruct w2 as [c sched]. intros Hid Hca Hne Ha Hl He.
  pose proof (id_utf8 _ Hid) as Hu. rewrite <- Hl in Hu.
  assert (entries_utf8 (ae_entries a)) as Hes by (rewrite He; apply Forall_nil_2).
  cbn [rpc_append_entries prompt_transport pool_transport cluster_transport].
  rewrite deliver_append_met by apply Hca. unfold append_entries_rpc.
  destruct (met p c sched) as [[[[tm rest] n] db]|] eqn:Hmet.
  - pose proof (met_wf _ _ _ _ _ _ _ _ _ Hca Hne Hmet) as Hwf.
    assert (room_for (length (ae_entries a)) n) as Hroom.
    { rewrite He. pose proof (wf_size _ Hwf). unfold room_for. simpl. lia. }
    destruct (append_rpc_parts tm a n db Hwf Ha Hroom Hu Hes)
      as (m & r & n' & db' & s & Hreq & Hh & Hw & Hrh & Ht & Hr).
    destruct (wf_handleAppendEntries tm a n db Hwf Ha Hroom) as (r0 & n0 & db0 & Hh0 & Hwf').
    rewrite Hh in Hh0. injection Hh0 as <- <- <-.
    assert (is_u64 (aer_term r)) as Hu64.
    { destruct (append_reply_term _ _ _ _ _ _ _ Hh) as [->| ->]; by apply wf_term. }
    destruct (calling_served i p m host port w1 c sched tm rest n db s n' db' Hca Hne
      (id_append _ Hid a _ (proj1 Ha) Hl He Hreq) (short_append_reply _ _ Hu64 Ht) Hmet Hwf')
      as (w1' & Hx & Hca').
    { intros o. unfold handle_message. rewrite Hw. cbn [sv_raft sv_db tn_timer]. by rewrite Hrh. }
    rewrite Hreq, Hx, Hh. cbn [mbind result_bind]. rewrite Hr.
    eexists _, w1', _. split_and!; [done|done|apply (Hca' [])|by intros ? [= <-]].
  - destruct (append_request_read a (proj1 Ha) Hu Hes) as (d & Hreq & _).
    destruct (calling_missed i p _ host port w1 c sched Hca Hne
      (id_append _ Hid a _ (proj1 Ha) Hl He Hreq) Hmet) as (w1' & Hx & Hca').
    rewrite Hreq, Hx. eexists None, w1', _. by split_and!.
Qed.

(** The pool's transport answers as the cluster's does. *)
Lemma prompt_transport_sim i :
  id_ok i ->
  transport_sim (prompt_transport hash nodes) (@cluster_transport B _) i (fun p => p <> i)
    (calling_as i).
Proof.
  intros Hid. constructor.
  - intros p h port a w1 w2 Hca Hne Ha Hc. by apply calling_vote.
  - intros p h port a w1 w2 Hca Hne Ha Hl He. by apply calling_append.
Qed.

(** ** Runs *)

(** The processes are the cluster's nodes; nobody is in the middle of an election. *)
Record net_as (ids : gset string) net c : Prop := mk_net_as {
  na_members : members net = cl_nodes c;
  na_idle : cl_elections c = ∅;
  na_ok : members_ok net;
  na_reach : cluster_reach_of sent_by_program ids c;
}.

Lemma net_as_start ids net : net_start ids net -> exists c, net_as ids net c.
Proof.
  intros [Hinit Hpool]. exists (mkCluster (members net) ∅ [] []). constructor; try done.
  - intros p m Em. rewrite (Hpool p m Em). split; [|by split].
    destruct Hinit as (_ & _ & _ & _ & Hn).
    destruct (Hn p (mb_node m) (mb_db m)) as (tm & peers & addrs & -> & _).
    { simpl. by rewrite members_lookup, Em. }
    destruct (RaftNode_new_wf p peers tm). by constructor.
  - by apply cluster_reach_init.
Qed.

(** What is known of a member. *)
Lemma net_as_member ids net c i m :
  ""%string ∉ ids -> net_as ids net c -> net !! i = Some m ->
  cl_nodes c !! i = Some (mb_node m, mb_db m) /\ idle i c /\ raft_wf (mb_node m) /\
  pool_empty (mb_pool m) /\ i ∈ ids /\ m_nodeId (mb_node m) = i /\
  (forall p, p ∈ m_peers (mb_node m) -> p <> i).
Proof.
  intros Hids [Hm Hi Hok Hr] Em.
  assert (cl_nodes c !! i = Some (mb_node m, mb_db m)) as Hn
    by (by rewrite <- Hm, members_lookup, Em).
  destruct (ci_nodes _ _ (inv_reach _ _ _ Hids Hr) _ _ _ Hn) as (Hin & Hid & _ & Hp & _).
  destruct (Hok i m Em). split_and!; try done.
  - unfold idle. by rewrite Hi.
  - intros p Hpp. apply (elem_of_list_to_set (C:=gset string)) in Hpp. rewrite Hp in Hpp. set_solver.
Qed.

(** Two members that lead the same term are one. *)
Lemma net_leader_unique ids net c i j mi mj :
  ""%string ∉ ids -> net_as ids net c -> net !! i = Some mi -> net !! j = Some mj ->
  m_state (mb_node mi) = Leader -> m_state (mb_node mj) = Leader ->
  m_currentTerm (mb_node mi) = m_currentTerm (mb_node mj) -> i = j.
Proof.
  intros Hids Hna Ei Ej Hli Hlj Ht.
  pose proof (inv_reach _ _ _ Hids (na_reach _ _ _ Hna)) as Hinv.
  destruct (net_as_member ids net c i mi Hids Hna Ei) as (Hi & _).
  destruct (net_as_member ids net c j mj Hids Hna Ej) as (Hj & _).
  pose proof (ci_state _ _ Hinv _ _ _ Hi Hli) as Hl1.
  pose proof (ci_state _ _ Hinv _ _ _ Hj Hlj) as Hl2. rewrite <- Ht in Hl2.
  by apply (inv_leader_unique ids c (m_currentTerm (mb_node mi))).
Qed.

(** A call begins with the others as the cluster has them, whatever is written
    of the caller. *)
Lemma calling_start ids net c i m sched n db vs :
  net_as ids net c -> net !! i = Some m -> pool_empty (mb_pool m) ->
  calling_as i (calling sched i m net) (add_votes vs (put_node i n db c), sched).
Proof.
  intros [Hm Hi Hok Hr] Em Hp. constructor; simpl; try done.
  - apply lookup_delete_eq.
  - intros p Hne. rewrite members_lookup. simpl.
    rewrite lookup_delete_ne, lookup_insert_ne by done. by rewrite <- members_lookup, Hm.
  - intros p mp. rewrite lookup_delete. case_decide; [done|]. apply Hok.
Qed.

(** It ends with the caller put back. *)
Lemma calling_end ids i pool proc others clocks c sched n db c' :
  calling_as i (pool, (proc, (others, clocks))) (c, sched) -> raft_wf n ->
  cl_nodes c' = <[i := (n, db)]> (cl_nodes c) -> cl_elections c' = ∅ ->
  cluster_reach_of sent_by_program ids c' ->
  net_as ids (<[i := mkMember n pool db proc]> others) c'.
Proof.
  intros [Hp _ _ _ Ho Hm Hi] Hwf Hn Hi' Hr. simpl in *. constructor; [|done| |done].
  - rewrite Hn. apply map_eq. intros q. rewrite members_lookup.
    destruct (decide (i = q)) as [<-|Hq]; [by rewrite !lookup_insert_eq|].
    rewrite !lookup_insert_ne by done. rewrite <- members_lookup. by apply Ho.
  - intros q mq. rewrite lookup_insert. case_decide; [|apply Hm]. by intros [= <-].
Qed.

(** A turn of [electionLoop] whose timeout is over. *)
Lemma net_stands ids net c i m tm sched :
  ""%string ∉ ids -> id_ok i -> net_as ids net c -> net !! i = Some m ->
  (m_currentTerm (mb_node m) < UINT64_MAX)%Z -> m_state (mb_node m) <> Leader ->
  (m_electionTimeoutMs (mb_node m) <= tm_now tm - m_lastHeartbeatTime (mb_node m))%Z ->
  exists net' m' c' w',
    net_step hash nodes (NetElection i tm sched) net = Some net' /\ net' !! i = Some m' /\
    startElection tm (mb_node m) ((candidacy i (mb_node m) (mb_db m) tm c, sched) : cluster_world B)
      = Some (mb_node m', w') /\
    net_as ids net' c'.
Proof.
  intros Hids Hid Hna Em Ht Hs Hto.
  destruct (net_as_member ids net c i m Hids Hna Em)
    as (Hn & Hidle & Hwf & Hp & Hin & Hni & Hpeers).
  unfold net_step. rewrite Em. cbn [mbind option_bind]. unfold electionLoop_turn.
  rewrite bool_decide_false, (proj2 (Z.leb_le _ _)) by done. cbn [negb andb].
  destruct (startElection_sim (prompt_transport_sim i Hid) tm (mb_node m) (calling sched i m net)
    (candidacy i (mb_node m) (mb_db m) tm c, sched) Hwf Ht Hni Hpeers
    (calling_start ids net c i m sched _ _ _ Hna Em Hp))
    as (n' & [pool [proc [others clocks]]] & [c' sched'] & -> & He & Hca & Hwf').
  cbn [mbind option_bind]. eexists _, _, (election_over i n' (mb_db m) c'), _.
  split_and!; [done|apply lookup_insert_eq|exact He|].
  eapply calling_end; [exact Hca|done|done| |].
  - pose proof (ca_idle _ _ _ Hca) as Hi. simpl in *. rewrite Hi. apply delete_empty.
  - eapply reach_steps; [apply Hna|].
    eapply startElection_steps; [exact Hn|exact Hidle|exact Hni| | | |exact He]; try done.
    intros Hi. by apply (Hpeers i).
Qed.

Lemma net_election ids net c i m tm sched :
  ""%string ∉ ids -> id_ok i -> net_as ids net c -> net !! i = Some m ->
  (m_currentTerm (mb_node m) < UINT64_MAX)%Z ->
  exists net' c', net_step hash nodes (NetElection i tm sched) net = Some net' /\ net_as ids net' c'.
Proof.
  intros Hids Hid Hna Em Ht.
  destruct (decide (m_state (mb_node m) = Leader \/
    (tm_now tm - m_lastHeartbeatTime (mb_node m) < m_electionTimeoutMs (mb_node m))%Z)) as [Hno|Hyes].
  2: { destruct (net_stands ids net c i m tm sched Hids Hid Hna Em Ht) as (net' & _ & c' & _ & H' & _ & _ & ?);
         [naive_solver|lia|eauto]. }
  destruct (net_as_member ids net c i m Hids Hna Em) as (Hn & _ & Hwf & Hp & _).
  unfold net_step. rewrite Em. cbn [mbind option_bind]. unfold electionLoop_turn.
  assert (negb (bool_decide (m_state (mb_node m) = Leader)) && (m_electionTimeoutMs (mb_node m)
    <=? tm_now tm - m_lastHeartbeatTime (mb_node m))%Z = false) as ->.
  { destruct Hno as [Hl|Hl]; [by rewrite bool_decide_true|].
    by rewrite (proj2 (Z.leb_gt _ _)), andb_false_r by lia. }
  cbn [mbind option_bind calling]. eexists _, c. split; [done|].
  eapply calling_end;
    [exact (calling_start ids net c i m sched (mb_node m) (mb_db m) [] Hna Em Hp)|done| |apply Hna..].
  simpl. by rewrite insert_insert_eq, insert_id.
Qed.

Lemma net_heartbeat ids net c i m sched :
  ""%string ∉ ids -> id_ok i -> net_as ids net c -> net !! i = Some m ->
  exists net' c', net_step hash nodes (NetHeartbeat i sched) net = Some net' /\ net_as ids net' c'.
Proof.
  intros Hids Hid Hna Em.
  destruct (net_as_member ids net c i m Hids Hna Em)
    as (Hn & Hidle & Hwf & Hp & Hin & Hni & Hpeers).
  unfold net_step. rewrite Em. cbn [mbind option_bind].
  pose proof (calling_start ids net c i m sched (mb_node m) (mb_db m) [] Hna Em Hp) as Hca0.
  rewrite put_node_same in Hca0 by done.
  change (add_votes [] c) with (mkCluster (cl_nodes c) (cl_elections c) (cl_votes c) (cl_leaders c)) in Hca0.
  replace (mkCluster _ _ _ _) with c in Hca0 by by destruct c.
  destruct (heartbeatLoop_turn_sim (prompt_transport_sim i Hid) (mb_node m) (mb_db m)
    (calling sched i m net) (c, sched) Hwf Hni Hpeers Hca0)
    as (n' & db' & [pool [proc [others clocks]]] & [c' sched'] & -> & He & Hca & Hwf').
  cbn [mbind option_bind]. eexists _, (put_node i n' db' c'). split; [done|].
  eapply calling_end; [exact Hca|done|done| |].
  - apply (ca_idle _ _ _ Hca).
  - eapply (op_heartbeat_reach (sent := sent_by_program)); [done|exact Hids|apply Hna|].
    unfold op_heartbeat. rewrite Hn. cbn [mbind option_bind].
    rewrite bool_decide_true by exact Hidle. rewrite He. done.
Qed.

Lemma net_submit ids net c i m key value :
  ""%string ∉ ids -> net_as ids net c -> net !! i = Some m -> room_for 1 (mb_node m) ->
  exists net' c', net_step hash nodes (NetSubmit i key value) net = Some net' /\ net_as ids net' c'.
Proof.
  intros Hids Hna Em Hroom.
  destruct (net_as_member ids net c i m Hids Hna Em) as (Hn & Hidle & Hwf & Hp & _).
  unfold net_step. rewrite Em. cbn [mbind option_bind].
  destruct (wf_submitLog key value (mb_node m) Hwf Hroom) as (b & n' & Hs & Hwf').
  rewrite Hs. cbn [mbind option_bind]. eexists _, (put_node i n' (mb_db m) c). split; [done|].
  destruct Hna as [Hm Hi Hok Hr]. constructor; simpl; [|done| |].
  - apply map_eq. intros q. rewrite members_lookup, !lookup_insert.
    case_decide; [done|]. by rewrite <- Hm, members_lookup.
  - intros q mq. rewrite lookup_insert. case_decide; [|apply Hok]. by intros [= <-].
  - eapply cluster_reach_step; [exact Hr|]. by eapply step_submit.
Qed.

Lemma net_as_step ids net c op :
  ""%string ∉ ids -> (forall i, i ∈ ids -> id_ok i) -> net_as ids net c -> op_ok op net ->
  exists net' c', net_step hash nodes op net = Some net' /\ net_as ids net' c'.
Proof.
  intros Hids Hid Hna Hop.
  assert (forall i m, net !! i = Some m -> id_ok i) as Hidm.
  { intros i m Em. destruct (net_as_member ids net c i m Hids Hna Em) as (_ & _ & _ & _ & Hin & _).
    by apply Hid. }
  destruct op as [i tm sched|i sched|i key value]; simpl in Hop.
  - destruct Hop as (m & Em & Ht). eapply net_election; eauto.
  - destruct Hop as [m Em]. eapply net_heartbeat; eauto.
  - destruct Hop as (m & Em & Hroom). eapply net_submit; eauto.
Qed.

Lemma net_as_reach ids net :
  ""%string ∉ ids -> (forall i, i ∈ ids -> id_ok i) ->
  net_reach hash nodes ids net -> exists c, net_as ids net c.
Proof.
  intros Hids Hid. induction 1 as [net Hs|op net net' Hr (c & IH) Hop Hstep].
  - by apply net_as_start.
  - destruct (net_as_step ids net c op Hids Hid IH Hop) as (net2 & c2 & E & Hna).
    rewrite Hstep in E. injection E as <-. eauto.
Qed.
End agreement.

(** ** The compact text is short *)
Lemma decimal_loop_length fuel z low :
  String.length (decimal_loop fuel z low) <= fuel + String.length low.
Proof.
  revert z low. induction fuel as [|fuel IH]; intros z low; cbn [decimal_loop]; [done|].
  case_match; [simpl; lia|]. etrans; [apply IH|]. simpl. lia.
Qed.

Lemma to_string_length z : is_u64 z -> String.length (to_string z) <= 64.
Proof.
  intros Hz. unfold to_string, is_u64 in *. rewrite (proj2 (Z.ltb_ge z 0)) by lia.
  etrans; [apply decimal_loop_length|]. unfold decimal_fuel. simpl.
  assert (Z.log2 z < 64)%Z; [|lia].
  destruct (decide (z = 0)%Z) as [->|]; [simpl; lia|]. apply Z.log2_lt_pow2; lia.
Qed.

Lemma chars_length s : length (chars s) = String.length s.
Proof.
  unfold chars, String.list_byte_of_string. rewrite length_map.
  induction s as [|c s IH]; [done|]. simpl. by rewrite IH.
Qed.

Lemma fits_short w d : String.length (w +:+ d) <= 4000 -> w <> ""%string -> fits (w +:+ d).
Proof.
  intros Hl Hw. unfold fits, message_ok, frame, MAX_MESSAGE_SIZE, vec_size.
  rewrite length_app, htonl_length.
  rewrite chars_length.
  destruct w as [|c w]; [done|]. simpl in *. lia.
Qed.

#[local] Arguments to_string : simpl never.

(** The length of a printed number as a bounded variable. *)
Ltac short_number H :=
  let Hl := fresh "Hl" in
  pose proof (to_string_length _ H) as Hl;
  match type of Hl with ?n <= _ => generalize dependent n end; intros ? Hl.

#[export] Instance compact_short : @ShortReplies int_floats compact_text.
Proof.
  constructor; intros r s Hr; unfold vote_reply_text, append_reply_text;
    rewrite ?vote_reply_json_eq, ?append_reply_json_eq;
    cbn [json_dump compact_text or_throw mbind result_bind]; intros [= <-];
    (apply fits_short; [|done]); rewrite !str_length_app;
    short_number Hr; match goal with |- context [if ?b then _ else _] => destruct b end; simpl; lia.
Qed.

(** An id whose quoted form is short. *)
Lemma compact_id_ok i :
  String.length (print_string i) <= 3000 -> @id_ok int_floats compact_text i.
Proof.
  intros Hi. constructor; [done| |].
  - intros a m (Ht & Hli & Hlt) Hc. unfold vote_request. rewrite vote_args_json_eq, Hc.
    cbn [json_dump compact_text or_throw mbind result_bind]. intros [= <-].
    apply fits_short; [|done].
    rewrite !str_length_app. generalize dependent (String.length (print_string i)). intros.
    short_number Ht. short_number Hli. short_number Hlt. simpl. lia.
  - intros a m (Ht & Hpi & Hpt & Hlc & _) Hc He. unfold append_request.
    rewrite append_args_json_eq, Hc, He.
    cbn [json_dump compact_text or_throw mbind result_bind fmap list_fmap]. intros [= <-].
    apply fits_short; [|done].
    rewrite !str_length_app. generalize dependent (String.length (print_string i)). intros.
    short_number Ht. short_number Hpi. short_number Hpt. short_number Hlc. simpl. lia.
Qed.

(** ** The properties *)

(** C3. A cluster of processes whose answers arrive in time is a Raft cluster: from
    the members' constructors, after any turns of the election and heartbeat loops and
    submissions, at whichever members, each exchange of which a peer answers or fails,
    over connection pools, framed JSON messages and the connection handlers, the members' nodes and stores
    are those of a reachable state of the cluster of state machines; every
    turn ends, whatever the peers answer; and two members that lead the same term are
    one. *)
Theorem prompt_network_refines `{!Floats, !JsonText, !JsonTextLaws, !ShortReplies}
    {B : Type} `{!RocksDB B} hash nodes (ids : gset string) (net : network B) :
  ""%string ∉ ids -> (forall i, i ∈ ids -> id_ok i) -> net_reach hash nodes ids net ->
  (exists c, cluster_reach_of sent_by_program ids c /\ members net = cl_nodes c) /\
  (forall op, op_ok op net -> is_Some (net_step hash nodes op net)) /\
  (forall i j mi mj, net !! i = Some mi -> net !! j = Some mj ->
     m_state (mb_node mi) = Leader -> m_state (mb_node mj) = Leader ->
     m_currentTerm (mb_node mi) = m_currentTerm (mb_node mj) -> i = j).
Proof.
  intros Hids Hid Hr. destruct (net_as_reach hash nodes ids net Hids Hid Hr) as (c & Hna).
  split_and!.
  - exists c. split; apply Hna.
  - intros op Hop. destruct (net_as_step hash nodes ids net c op Hids Hid Hna Hop) as (? & ? & -> & _).
    eauto.
  - intros i j mi mj. by eapply net_leader_unique.
Qed.

(** ** Three members *)
Module Three.
Import Example3 Storage.Memory.

Definition fresh_member (i : string) (peers : list string) : member mem_db :=
  mkMember (node i peers) (pool_start RaftConnectionPool_new) (mkMem ∅ false) (mkProcess ∅ [] 0).

Definition fresh_net : network mem_db :=
  {[ "a"%string := fresh_member "a" ["b"; "c"]; "b"%string := fresh_member "b" ["a"; "c"];
     "c"%string := fresh_member "c" ["a"; "b"] ]}.

(** The clock of [a]'s election, past its timeout. *)
Definition later : Timer := mkTimer 2000 200.

Definition any_hash (_ : string) : Z := 0%Z.

#[local] Abbreviation step :=
  (@net_step int_floats compact_text mem_db mem_rocksdb any_hash []).
#[local] Abbreviation reach :=
  (@net_reach int_floats compact_text mem_db mem_rocksdb any_hash []).

(** [a] stands; [b] answers and [c] cannot be connected to; [a] accepts an entry and
    sends heartbeats, which both answer. *)
Definition op1 : net_op := NetElection "a" later [Some tm; None].
Definition op2 : net_op := NetSubmit "a" "img" "first".
Definition op3 : net_op := NetHeartbeat "a" [Some tm; Some tm].

Definition net1 : option (network mem_db) := step op1 fresh_net.
Definition net2 : option (network mem_db) := net1 ≫= step op2.
Definition net3 : option (network mem_db) := net2 ≫= step op3.

Lemma fresh_net_start : net_start ids fresh_net.
Proof.
  split.
  - assert (members fresh_net = cl_nodes (fresh (mkMem ∅ false))) as ->; [|apply fresh_init].
    unfold members, fresh_net. by rewrite !fmap_insert, map_fmap_singleton.
  - intros p m Hm. unfold fresh_net in Hm.
    repeat (apply lookup_insert_Some in Hm as [[_ <-]|[_ Hm]]; [done|]).
    by apply lookup_singleton_Some in Hm as [_ <-].
Qed.

Lemma ids_short i : i ∈ ids -> @id_ok int_floats compact_text i.
Proof.
  intros Hi. apply compact_id_ok. unfold ids in Hi.
  apply elem_of_union in Hi as [Hi|Hi]; [apply elem_of_union in Hi as [Hi|Hi]|];
    apply elem_of_singleton in Hi as ->; simpl; lia.
Qed.

(** What is seen of the members. *)
Definition seen (net : network mem_db) : gmap string (RaftState * Z * Z * nat) :=
  (fun m => (m_state (mb_node m), m_currentTerm (mb_node m), m_commitIndex (mb_node m),
             length (m_logs (mb_node m)))) <$> net.

Lemma net3_reach net : net3 = Some net -> reach ids net.
Proof.
  unfold net3, net2, net1. intros (w2 & (w1 & E1 & E2)%bind_Some & E3)%bind_Some.
  assert (reach ids w1) as H1.
  { eapply net_reach_step; [apply net_reach_start, fresh_net_start| |exact E1].
    eexists. split; [reflexivity|]. reflexivity. }
  assert (seen <$> net1 = Some {[ "a"%string := (Leader, 1%Z, 0%Z, 1);
    "b"%string := (Follower, 1%Z, 0%Z, 1); "c"%string := (Follower, 0%Z, 0%Z, 1) ]}) as S1
    by (vm_compute; reflexivity).
  assert (seen <$> net2 = Some {[ "a"%string := (Leader, 1%Z, 0%Z, 2);
    "b"%string := (Follower, 1%Z, 0%Z, 1); "c"%string := (Follower, 0%Z, 0%Z, 1) ]}) as S2
    by (vm_compute; reflexivity).
  unfold net2, net1 in S2. unfold net1 in S1. rewrite E1 in S1, S2. cbn [mbind option_bind] in S2.
  rewrite E2 in S2. injection S1 as S1. injection S2 as S2.
  assert (reach ids w2) as H2.
  { eapply net_reach_step; [exact H1| |exact E2].
    assert (seen w1 !! "a"%string = Some (Leader, 1%Z, 0%Z, 1)) as Ha by by rewrite S1.
    unfold seen in Ha. rewrite lookup_fmap in Ha. apply fmap_Some in Ha as (m & Em & Hm).
    exists m. split; [exact Em|]. injection Hm as _ _ _ Hl. unfold room_for, vec_size.
    rewrite <- Hl. lia. }
  eapply net_reach_step; [exact H2| |exact E3].
  assert (seen w2 !! "a"%string = Some (Leader, 1%Z, 0%Z, 2)) as Ha by by rewrite S2.
  unfold seen in Ha. rewrite lookup_fmap in Ha. apply fmap_Some in Ha as (m & Em & _).
  by exists m.
Qed.
End Three.

(** ** Witnesses *)
Module Witness.
Import Example3 Storage.Memory Three.

Lemma prompt_network_refines_witness :
  exists net c m,
    net3 = Some net /\ cluster_reach_of sent_by_program ids c /\ members net = cl_nodes c /\
    net !! "a"%string = Some m /\ m_state (mb_node m) = Leader /\
    m_commitIndex (mb_node m) = 1%Z.
Proof.
  destruct net3 as [net|] eqn:E; [|vm_compute in E; discriminate E].
  assert (seen <$> net3 = Some {[ "a"%string := (Leader, 1%Z, 1%Z, 2);
    "b"%string := (Follower, 1%Z, 0%Z, 1); "c"%string := (Follower, 1%Z, 0%Z, 1) ]}) as Hs
    by (vm_compute; reflexivity).
  rewrite E in Hs. injection Hs as Hs.
  assert (seen net !! "a"%string = Some (Leader, 1%Z, 1%Z, 2)) as Ha by (rewrite Hs; reflexivity).
  unfold seen in Ha. rewrite lookup_fmap in Ha. apply fmap_Some in Ha as (m & Em & Hm).
  injection Hm as Hst _ Hci _.
  destruct (@prompt_network_refines int_floats compact_text compact_laws compact_short
    mem_db mem_rocksdb any_hash [] ids net ids_ok ids_short (net3_reach net E)) as [(c & Hr & Hn) _].
  exists net, c, m. split; [reflexivity|]. split; [exact Hr|]. split; [exact Hn|].
  split; [exact Em|]. split; [symmetry; exact Hst|symmetry; exact Hci].
Defined.
End Witness.
