(* ===== verification/NetworkElection.v ===== *)
(** * An election over the program's own transport that succeeds

    [RaftLiveness] says when a call of [startElection] (src/raft/RaftNode.cpp) is won over
    the cluster of state machines; here it is won over the connection pools and
    sockets of the processes of [Network]. *)
From S2P Require Import Prelude Socket ConnPool Descriptors Router Json JsonText.
From S2P Require Import RaftTypes RaftNode RaftInv RaftCluster RaftElection RaftLiveness RaftLocal.
From S2P Require Import Storage Session Network.

(** Member [p] would grant [args]. *)
Definition free_to_vote {B : Type} (args : RequestVoteArgs) (net : network B) (p : string) : Prop :=
  exists m, net !! p = Some m /\ (m_currentTerm (mb_node m) <= rv_term args)%Z /\
    up_to_date args (mb_node m) /\
    ((m_currentTerm (mb_node m) < rv_term args)%Z \/ m_votedFor (mb_node m) = ""%string \/
     m_votedFor (mb_node m) = rv_candidateId args).

(** Such a member is a willing node of the cluster at the candidacy of another. *)
Lemma free_is_willing {B : Type} `{!RocksDB B} ids (net : network B) c args i n db tm p :
  net_as ids net c -> p <> i -> free_to_vote args net p -> willing args (candidacy i n db tm c) p.
Proof.
  intros [Hm Hi Hok _] Hne (m & Em & Ht & Hu & Hf). exists (mb_node m), (mb_db m).
  split_and!; try done.
  - simpl. rewrite lookup_insert_ne by done. by rewrite <- Hm, members_lookup, Em.
  - unfold idle. simpl. by rewrite Hi.
  - by apply (Hok p m Em).
Qed.

(** C8. An election is won: in a cluster of processes whose answers arrive in time, a
    member that is not leader, whose timeout is over, that has an address for every peer and
    reaches members that are free to vote for it and are a majority with it, leaves its turn of
    [electionLoop] as the leader of the next term, and as its only one. *)
Theorem prompt_election_won `{!Floats, !JsonText, !JsonTextLaws, !ShortReplies}
    {B : Type} `{!RocksDB B} hash nodes (ids : gset string) (net : network B) i m tm sched args :
  ""%string ∉ ids -> (forall i, i ∈ ids -> id_ok i) -> net_reach hash nodes ids net ->
  net !! i = Some m -> (m_currentTerm (mb_node m) < UINT64_MAX)%Z ->
  m_state (mb_node m) <> Leader ->
  (m_electionTimeoutMs (mb_node m) <= tm_now tm - m_lastHeartbeatTime (mb_node m))%Z ->
  (forall p, p ∈ m_peers (mb_node m) -> is_Some (m_peerAddresses (mb_node m) !! p)) ->
  election_args (election_begin tm (mb_node m)) = Some args ->
  (forall p, p ∈ reached (m_peers (mb_node m)) sched -> free_to_vote args net p) ->
  (majority (mb_node m) <= 1 + vec_size (reached (m_peers (mb_node m)) sched))%Z ->
  exists net' m', net_step hash nodes (NetElection i tm sched) net = Some net' /\
    net' !! i = Some m' /\ m_state (mb_node m') = Leader /\
    m_currentTerm (mb_node m') = (m_currentTerm (mb_node m) + 1)%Z /\
    forall j mj, net' !! j = Some mj -> m_state (mb_node mj) = Leader ->
      m_currentTerm (mb_node mj) = m_currentTerm (mb_node m') -> j = i.
Proof.
  intros Hids Hid Hr Em Ht Hs Hto Hadr Ea Hfree Hmaj.
  destruct (net_as_reach hash nodes ids net Hids Hid Hr) as (c & Hna).
  destruct (net_as_member ids net c i m Hids Hna Em) as (Hn & _ & Hwf & _ & Hin & _ & Hpeers).
  destruct (ci_nodes _ _ (inv_reach _ _ _ Hids (na_reach _ _ _ Hna)) _ _ _ Hn) as (_ & _ & Hnd & _).
  destruct (net_stands hash nodes ids net c i m tm sched Hids (Hid i Hin) Hna Em Ht Hs Hto)
    as (net' & m' & c' & w' & Hstep & Em' & He & Hna').
  destruct (startElection_wins tm (mb_node m) (candidacy i (mb_node m) (mb_db m) tm c) sched args)
    as (n' & w2 & He2 & Hl & Hterm); try done.
  { intros p Hp. eapply free_is_willing; [exact Hna| |by apply Hfree].
    apply Hpeers. by eapply reached_subset. }
  rewrite He in He2. injection He2 as <- _. exists net', m'. split_and!; try done.
  intros j mj Ej Hlj Htj. symmetry.
  exact (net_leader_unique ids net' c' i j m' mj Hids Hna' Em' Ej Hl Hlj (eq_sym Htj)).
Qed.

(** ** Witnesses *)
Module Witness.
Import Example3 Storage.Memory Network.Three.

(** [a] stands against a member that nobody has asked before; the other one is not
    there. *)
Definition asked : RequestVoteArgs := mkRequestVoteArgs 1 "a" 0 0.

Lemma prompt_election_won_witness :
  exists net' m',
    @net_step int_floats compact_text mem_db mem_rocksdb any_hash [] op1 fresh_net = Some net' /\
    net' !! "a"%string = Some m' /\ m_state (mb_node m') = Leader /\
    m_currentTerm (mb_node m') = 1%Z.
Proof.
  destruct (@prompt_election_won int_floats compact_text compact_laws compact_short
    mem_db mem_rocksdb any_hash [] ids fresh_net "a" (fresh_member "a" ["b"; "c"]%string) later
    [Some tm; None] asked ids_ok ids_short) as (net' & m' & Hs & Em & Hl & Ht & _).
  - apply net_reach_start, fresh_net_start.
  - reflexivity.
  - reflexivity.
  - discriminate.
  - vm_compute. discriminate.
  - intros p Hp. repeat (apply elem_of_cons in Hp as [->|Hp]; [by eexists|]).
    by apply elem_of_nil in Hp.
  - reflexivity.
  - intros p Hp. apply list_elem_of_singleton in Hp as ->.
    exists (fresh_member "b" ["a"; "c"]%string). split; [reflexivity|].
    split; [vm_compute; discriminate|]. split; [|left; reflexivity].
    exists dummy_entry. split; [reflexivity|]. right. split; [reflexivity|vm_compute; discriminate].
  - vm_compute. discriminate.
  - exists net', m'. split; [exact Hs|]. split; [exact Em|]. split; [exact Hl|exact Ht].
Defined.
End Witness.
