(* ===== verification/Sharding.v ===== *)
(** * The servers of a cluster as one store

    Clients send [STORE] and [GET] to any server; the server that owns the frame by its
    router answers, the others forward (src/server/Connection.cpp: [handleStore],
    [handleGet], [forwardToNode]; src/cluster/ShardRouter.cpp: [pickNode]).  Here the servers
    are processes that reach each other by the host and port of their
    routers' entries: a request that is forwarded is accepted and served by the same
    loop ([handle] of [Session]) at the other end.

    The abstract specification is one map from image ids to frames ([spec_step]); the
    theorem is that the servers implement it, whichever server is asked.  As in
    [Network], a request is there when the loop reads, and the answer to a
    forwarded one is there before it is read: the descriptors are non-blocking and the
    program does not wait for either. *)
From S2P Require Import Prelude Socket Text Command Protocol Router ConnPool Descriptors.
From S2P Require Import Json JsonText Codec RaftTypes RaftNode RaftRpc Storage Connection.
From S2P Require Import Session Network.
Local Open Scope string_scope.

(** ** Servers that can reach each other *)

(** What stands beside the process of a server: the other servers, and who is at
    the other end of the connections it has made. *)
Record wires (B : Type) := mkWires {
  wr_others : network B;
  wr_ends : gmap Z string;
}.
Arguments mkWires {B}.
Arguments wr_others {B}.
Arguments wr_ends {B}.

(** Who listens at a host and port. *)
Class Addresses := listener : string -> Z -> option string.

Section reaching.
Context `{!Addresses} {B : Type}.

(** Whom a [connect] reaches: a server that runs. *)
Definition reached (host : string) (port : Z) (wr : wires B) : option string :=
  peer ← listener host port;
  guard (is_Some (wr_others wr !! peer));;
  Some peer.

#[export] Instance wired_os : PoolOS (process * wires B) := {|
  os_socket w := let '(fd, o) := os_socket w.1 in (fd, (o, w.2));
  os_pton := @os_pton process _;
  os_connect fd host port w :=
    match reached host port w.2, ps_streams w.1 !! fd with
    | Some peer, Some _ =>
        (true, (fd_update fd idle_stream w.1,
                mkWires (wr_others w.2) (<[fd := peer]> (wr_ends w.2))))
    | _, _ => (false, w)
    end;
  os_close fd w := (os_close fd w.1, mkWires (wr_others w.2) (delete fd (wr_ends w.2)));
  os_peek fd w := os_peek fd w.1;
  os_now w := os_now w.1;
|}.

#[export] Instance wired_table : FdTable (process * wires B) nb_stream := {|
  fd_stream fd w := fd_stream fd w.1;
  fd_update fd s w := (fd_update fd s w.1, w.2);
|}.

#[export] Instance wired_os_laws : PoolOSLaws (process * wires B).
Proof.
  refine {| os_open w := ps_open w.1 |}.
  - intros [o wr] fd [o' wr'] [= <- <- <-]. exact (os_socket_open o _ (os_socket o).2 eq_refl).
  - intros fd host port [o wr]. simpl. destruct (reached host port wr) as [peer|]; [|done].
    destruct (ps_streams o !! fd) as [s|] eqn:E; [|done].
    exact (fd_update_open fd idle_stream o (elem_of_dom_2 _ _ _ E)).
  - intros fd [o wr]. exact (os_close_open fd o).
  - intros fd fd' [o wr]. exact (os_close_peek fd fd' o).
Defined.

#[export] Instance wired_table_laws : FdTableLaws (process * wires B) nb_stream.
Proof.
  constructor.
  - intros fd [o wr]. exact (fd_stream_open fd o).
  - intros fd s [o wr]. exact (fd_update_same fd s o).
  - intros fd fd' s [o wr]. exact (fd_update_other fd fd' s o).
  - intros fd s [o wr]. exact (fd_update_open fd s o).
  - intros fd' [o wr] Hin. exact (fd_socket_stream fd' o Hin).
  - intros fd fd' host port [o wr] Hne. simpl. destruct (reached host port wr) as [peer|]; [|done].
    destruct (ps_streams o !! fd); [|done]. exact (fd_update_other fd fd' idle_stream o Hne).
  - intros fd fd' [o wr]. exact (fd_close_stream fd fd' o).
  - intros fd [o wr] s. exact (fd_peek_stream fd o s).
Defined.
End reaching.

Section serving.
Context `{!Addresses, !Floats, !JsonText} {B : Type} `{!RocksDB B}.
Variable hash : string -> Z.

(** The nodes each server's router holds. *)
Variable routers : string -> list NodeInfo.

(** What is not the client's to say: the uninitialised variables of [handleGet],
    and the Raft node's clock. *)
Record weather := mkWeather { we_width : Z; we_height : Z; we_timer : Timer }.

(** Server [m], named [self], accepts a connection on which [request] has arrived, serves
    it until its loop ends and closes it; [relay] is the network.  The bytes it has
    sent, and the servers afterwards. *)
Definition accept_request (relay : process * wires B -> process * wires B) (we : weather)
    (self : string) (request : list byte) (m : member B) (others : network B)
  : option (list byte * network B) :=
  let proc := mb_proc m in
  let fd := new_fd (ps_open proc) in
  let accepted := mkProcess (<[fd := mkStream request false [] 4096]> (ps_streams proc))
                    (ps_connects proc) (ps_now proc) in
  let round := mkTurn id relay (we_width we) (we_height we) (we_timer we) in
  let '(e, _, (st, o)) :=
    handle hash (routers self) self [round; round] fd []
      (mkServerState (mb_db m) (Some (mb_node m))) (accepted, mkWires others ∅) in
  match e, sv_raft st, fd_stream fd o with
  | (Closed | Threw), Some n, Some c =>
      let '(proc', wr) := os_close fd o in
      Some (nb_out c, <[self := mkMember n (mb_pool m) (sv_db st) proc']> (wr_others wr))
  | _, _, _ => None
  end.

(** What is brought to the servers at the other ends, and back. *)
Definition answered (ask : string -> list byte -> network B -> option (list byte * network B))
    (peer : string) (request : list byte) (wr : wires B) : list byte * wires B :=
  match ask peer request (wr_others wr) with
  | Some (answer, others) => (answer, mkWires others (wr_ends wr))
  | None => ([], wr)
  end.

Definition bring (ask : string -> list byte -> network B -> option (list byte * network B))
    (w : process * wires B) : process * wires B :=
  foldr (carry (answered ask)) w (map_to_list (wr_ends w.2)).

(** [request] is sent to server [self]; it may be forwarded [hops] times. *)
Fixpoint ask (hops : nat) (we : weather) (self : string) (request : list byte) (net : network B)
  : option (list byte * network B) :=
  m ← net !! self;
  accept_request (match hops with 0 => id | Datatypes.S n => bring (ask n we) end)
    we self request m (delete self net).

(** ** Requests and runs *)
Inductive request := RqStore (payload : string) | RqGet (id : string) | RqPing.

Definition request_text (rq : request) : string :=
  match rq with
  | RqStore payload => "STORE" +:+ String " " payload
  | RqGet id => "GET" +:+ String " " id
  | RqPing => "PING"
  end.

(** A client's visit to a server. *)
Record visit := mkVisit { vi_server : string; vi_request : request; vi_weather : weather }.

(** The answers the clients receive, one after the other. *)
Fixpoint run (hops : nat) (vs : list visit) (net : network B)
  : option (list (list byte) * network B) :=
  match vs with
  | [] => Some ([], net)
  | v :: vs' =>
      '(answer, net1) ←
        ask hops (vi_weather v) (vi_server v) (frame (chars (request_text (vi_request v)))) net;
      '(answers, net2) ← run hops vs' net1;
      Some (answer :: answers, net2)
  end.

(** ** The abstract store *)
Definition frame_text (f : YoloFrame) : option string :=
  match encode f with Ok v => Some v | _ => None end.

(** What a [GET] of an id that is not stored answers. *)
Definition missing_frame (we : weather) : YoloFrame :=
  mkYoloFrame "" "" [] (we_width we) (we_height we).

(** The frame of a [STORE]'s payload. *)
Definition read_frame (payload : string) : result YoloFrame :=
  or_throw (json_parse payload) ≫= frame_of_json.

(** One map from ids to frames.  A [GET] of an id that is not stored is answered with a
    frame without id and boxes; of a frame with a number that is not finite, with
    nothing. *)
Definition spec_step (we : weather) (rq : request) (m : gmap string YoloFrame)
  : option string * gmap string YoloFrame :=
  match rq with
  | RqStore payload =>
      match read_frame payload with
      | Ok f => (Some "STORE OK", <[image_id f := f]> m)
      | _ => (Some "ERROR invalid STORE payload", m)
      end
  | RqGet id =>
      let f := default (missing_frame we) (m !! id) in
      (if forallb box_finite (boxes f) then frame_text f else None, m)
  | RqPing => (Some "PONG", m)
  end.

Fixpoint spec_run (vs : list visit) (m : gmap string YoloFrame)
  : list (option string) * gmap string YoloFrame :=
  match vs with
  | [] => ([], m)
  | v :: vs' =>
      let '(reply, m1) := spec_step (vi_weather v) (vi_request v) m in
      let '(replies, m2) := spec_run vs' m1 in
      (reply :: replies, m2)
  end.
End serving.

(** ** One request at one server *)
Section one_server.
Context `{!Addresses, !Floats, !JsonText} {B : Type} `{!RocksDB B}.
Variable hash : string -> Z.
Variable routers : string -> list NodeInfo.
#[local] Abbreviation accept_request := (accept_request hash routers).
#[local] Abbreviation ask := (ask hash routers).
#[local] Abbreviation handle_message p := (handle_message hash (routers p) p).

(** A request that is forwarded: the connection is made, used and closed. *)
Lemma forwardToNode_served ask0 node msg (proc : process) (others others' : network B) p reply :
  listener (ni_host node) (u16 (ni_port node)) = Some p -> is_Some (others !! p) -> fits msg ->
  ask0 p (frame (chars msg)) others = Some (arrives reply, others') ->
  (forall s, reply = Some s -> message_ok (chars s)) ->
  forwardToNode (bring ask0) node msg (proc, mkWires others ∅)
  = (match reply with Some _ => OK | None => RECV_FAILED end, chars <$> reply,
     (proc, mkWires others' ∅)).
Proof.
  intros Hl Hp [_ Hfit] Ha Hreply. unfold forwardToNode.
  cbn [os_socket wired_os process_ops fst snd].
  set (fd := new_fd (ps_open proc)). pose proof (new_fd_nonneg (ps_open proc)) as Hfd. fold fd in Hfd.
  assert (ps_streams proc !! fd = None) as Hnew.
  { apply not_elem_of_dom. intros H'%new_fd_above. unfold fd, ps_open in H'. lia. }
  rewrite (proj2 (Z.ltb_ge fd 0)) by lia. cbn [os_pton wired_os process_ops negb connectWithRetry].
  cbn [os_connect wired_os fst snd ps_streams]. unfold reached. cbn [wr_others wr_ends]. rewrite Hl.
  cbn [mbind option_bind]. rewrite (option_guard_True (is_Some (others !! p))) by done.
  rewrite lookup_insert_eq. cbn [negb].
  pose proof (nb_sendMessage (chars msg) [] false [] 4096 Hfit) as Hs. fold idle_stream in Hs.
  unfold fd_sendMessage. cbn [fd_stream fd_update wired_table process_table fst snd ps_streams].
  rewrite lookup_insert_eq, Hs. unfold bring. cbn [snd wr_ends].
  rewrite insert_empty, map_to_list_singleton. cbn [foldr]. unfold carry.
  cbn [fst snd ps_streams fd_update process_table]. rewrite lookup_insert_eq. cbn [nb_out nb_in app].
  unfold answered. cbn [wr_others wr_ends]. rewrite Ha.
  destruct (arrives_read reply [] 4096 Hreply) as (data & s' & Hr & Hd & _).
  unfold fd_recvMessage. cbn [fd_stream fd_update wired_table process_table fst snd ps_streams].
  rewrite lookup_insert_eq, Hr.
  destruct proc as [streams conns now]. cbn [ps_streams ps_connects ps_now] in *.
  destruct reply as [s|].
  - rewrite bool_decide_true by eauto. cbn [negb]. rewrite (Hd s eq_refl).
    cbn [os_close wired_os process_ops fst snd ps_streams ps_connects ps_now wr_others wr_ends].
    by rewrite !insert_insert_eq, delete_insert_id, delete_singleton_eq.
  - rewrite bool_decide_false by (by intros [? [=]]). cbn [negb].
    cbn [os_close wired_os process_ops fst snd ps_streams ps_connects ps_now wr_others wr_ends].
    by rewrite !insert_insert_eq, delete_insert_id, delete_singleton_eq.
Qed.

(** A handler's replies: one, or none. *)
Definition replies_of (reply : option string) : list (list byte) :=
  match reply with Some s => [chars s] | None => [] end.

(** The loop around a request whose outcome is known. *)
Definition round_of (relay : process * wires B -> process * wires B) (we : weather)
  : turn B (process * wires B) :=
  mkTurn id relay (we_width we) (we_height we) (we_timer we).

Lemma accept_request_replies relay we self msg (m : member B) others reply db others' :
  message_ok (chars msg) -> (forall s, reply = Some s -> fits s) ->
  (forall proc, handle_message self (round_of relay we) msg
     (mkServerState (mb_db m) (Some (mb_node m))) (proc, mkWires others ∅)
   = Ok (replies_of reply,
         (mkServerState db (Some (mb_node m)), (proc, mkWires others' ∅)))) ->
  exists proc, accept_request relay we self (frame (chars msg)) m others
    = Some (arrives reply, <[self := mkMember (mb_node m) (mb_pool m) db proc]> others').
Proof.
  intros Hmsg Hreply Hh. unfold Sharding.accept_request. fold (round_of relay we).
  set (fd := new_fd _). set (o := (mkProcess _ _ _, mkWires others ∅)).
  rewrite (handle_request hash (routers self) self _ _ fd [] _ o msg 4096);
    [|done|done|apply lookup_insert_eq].
  cbv zeta. unfold o. cbn [fd_update wired_table process_table fst snd ps_streams ps_connects ps_now].
  rewrite Hh. destruct reply as [s|]; cbn [replies_of send_replies foldl].
  - rewrite (send_reply_fits fd _ [] false [] s (proj2 (Hreply s eq_refl))); [|apply lookup_insert_eq].
    erewrite handle_idle; [|done|apply lookup_insert_eq|done].
    cbn [sv_raft sv_db fd_stream fd_update wired_table process_table fst snd ps_streams].
    rewrite lookup_insert_eq. cbn [os_close wired_os fst snd wr_others nb_out app arrives]. by eexists.
  - erewrite handle_idle; [|done|apply lookup_insert_eq|done].
    cbn [sv_raft sv_db fd_stream fd_update wired_table process_table fst snd ps_streams].
    rewrite lookup_insert_eq. cbn [os_close wired_os fst snd wr_others nb_out app arrives]. by eexists.
Qed.

Lemma accept_request_throws relay we self msg (m : member B) others :
  message_ok (chars msg) ->
  (forall proc, handle_message self (round_of relay we) msg
     (mkServerState (mb_db m) (Some (mb_node m))) (proc, mkWires others ∅) = Throw) ->
  exists proc, accept_request relay we self (frame (chars msg)) m others
    = Some ([], <[self := mkMember (mb_node m) (mb_pool m) (mb_db m) proc]> others).
Proof.
  intros Hmsg Hh. unfold Sharding.accept_request. fold (round_of relay we).
  set (fd := new_fd _). set (o := (mkProcess _ _ _, mkWires others ∅)).
  rewrite (handle_request hash (routers self) self _ _ fd [] _ o msg 4096);
    [|done|done|apply lookup_insert_eq].
  cbv zeta. unfold o. cbn [fd_update wired_table process_table fst snd ps_streams ps_connects ps_now].
  rewrite Hh. cbn [sv_raft sv_db fd_stream wired_table process_table fst snd ps_streams].
  rewrite lookup_insert_eq. cbn [os_close wired_os fst snd wr_others nb_out]. by eexists.
Qed.

(** Server [p] deals with [msg] itself; without a reply its handler has thrown. *)
Definition serves_here (we : weather) (p msg : string) (m : member B) (reply : option string)
    (db : B) : Prop :=
  (forall relay o,
     handle_message p (round_of relay we) msg (mkServerState (mb_db m) (Some (mb_node m))) o
     = match reply with
       | Some s => Ok ([chars s], (mkServerState db (Some (mb_node m)), o))
       | None => Throw
       end) /\
  (reply = None -> db = mb_db m).

(** Server [p] passes [msg] on to [node]. *)
Definition passes_on (we : weather) (p msg : string) (node : NodeInfo) : Prop :=
  exists what, forall relay st o,
    handle_message p (round_of relay we) msg st o = on_store (forward relay node what msg) st o.

Lemma ask_here hops we p msg net m reply db :
  net !! p = Some m -> fits msg -> (forall s, reply = Some s -> fits s) ->
  serves_here we p msg m reply db ->
  exists proc, ask hops we p (frame (chars msg)) net
    = Some (arrives reply, <[p := mkMember (mb_node m) (mb_pool m) db proc]> net).
Proof.
  intros Em [Hmsg _] Hreply [Hh Hdb].
  set (relay := match hops with 0 => id | Datatypes.S n => bring (ask n we) end).
  assert (ask hops we p (frame (chars msg)) net
    = accept_request relay we p (frame (chars msg)) m (delete p net)) as ->.
  { destruct hops; cbn [Sharding.ask]; rewrite Em; done. }
  destruct reply as [s|].
  - destruct (accept_request_replies relay we p msg m (delete p net) (Some s) db (delete p net)
      Hmsg Hreply (fun proc => Hh relay _)) as (proc & ->).
    exists proc. by rewrite insert_delete_eq.
  - rewrite Hdb by done.
    destruct (accept_request_throws relay we p msg m (delete p net) Hmsg (fun proc => Hh relay _))
      as (proc & ->).
    exists proc. by rewrite insert_delete_eq.
Qed.

Lemma ask_elsewhere hops we self owner msg node net m mo reply db :
  net !! self = Some m -> net !! owner = Some mo -> self <> owner -> fits msg ->
  listener (ni_host node) (u16 (ni_port node)) = Some owner ->
  (forall s, reply = Some s -> fits s) ->
  passes_on we self msg node -> serves_here we owner msg mo reply db ->
  exists proc proc', ask (Datatypes.S hops) we self (frame (chars msg)) net
    = Some (arrives reply, <[self := mkMember (mb_node m) (mb_pool m) (mb_db m) proc]>
        (<[owner := mkMember (mb_node mo) (mb_pool mo) db proc']> (delete self net))).
Proof.
  intros Em Emo Hne Hfit Hl Hreply (what & Hh) Hserve. cbn [Sharding.ask]. rewrite Em.
  cbn [mbind option_bind].
  assert (delete self net !! owner = Some mo) as Eo by by rewrite lookup_delete_ne.
  destruct (ask_here hops we owner msg (delete self net) mo reply db Eo Hfit Hreply Hserve)
    as (proc' & Ha).
  destruct (accept_request_replies (bring (ask hops we)) we self msg m (delete self net) reply
    (mb_db m) (<[owner := mkMember (mb_node mo) (mb_pool mo) db proc']> (delete self net))
    (proj1 Hfit) Hreply) as (proc & ->); [|eauto].
  intros proc. rewrite Hh. unfold on_store, forward. cbn [sv_db sv_raft].
  rewrite (forwardToNode_served _ node msg proc (delete self net) _ owner reply Hl)
    by (eauto || (intros s Hs; apply (Hreply s Hs))).
  by destruct reply.
Qed.
End one_server.

(** ** The servers implement the map *)

(** A database that accepts every write and whose reads do not fail. *)
Class WorkingDB (B : Type) `{!RocksDB B} := {
  working : B -> Prop;
  working_put k v b : working b -> status_ok (rdb_put k v b).1 = true /\ working (rdb_put k v b).2;
  working_get k b : working b ->
    status_ok (rdb_get k b).1 || status_not_found (rdb_get k b).1 = true;
}.

Section implementing.
Context `{!Addresses, !Floats, !FloatLaws, !JsonText, !JsonTextLaws}.
Context {B : Type} `{!RocksDB B, !RocksDBLaws B, !WorkingDB B}.
Variable hash : string -> Z.
Variable routers : string -> list NodeInfo.
Implicit Types (net : network B) (m : gmap string YoloFrame) (mb : member B).
#[local] Abbreviation owns p := (owns hash (routers p) p).

(** The id a request is about. *)
Definition request_key (rq : request) : option string :=
  match rq with
  | RqStore payload => match read_frame payload with Ok f => Some (image_id f) | _ => None end
  | RqGet id => Some id
  | RqPing => None
  end.

(** What its owner's database becomes. *)
Definition db_step (rq : request) (db : B) : B :=
  match rq with
  | RqStore payload =>
      match read_frame payload with
      | Ok f => match frame_text f with Some v => (rdb_put (image_id f) v db).2 | None => db end
      | _ => db
      end
  | _ => db
  end.

(** A request whose texts and whose answers' texts fit one send buffer; the id of a
    [GET] is a word. *)
Definition request_ok (we : weather) (rq : request) : Prop :=
  fits (request_text rq) /\
  match rq with
  | RqStore payload =>
      read_frame payload <> Crash /\
      forall f s, read_frame payload = Ok f -> frame_text f = Some s -> fits s
  | RqGet id =>
      no_space id = true /\ id <> "" /\ is_i32 (we_width we) /\ is_i32 (we_height we) /\
      forall s, frame_text (missing_frame we) = Some s -> fits s
  | RqPing => True
  end.

(** Frames that can be stored, under their own ids. *)
Definition frames_ok m : Prop :=
  forall key f, m !! key = Some f ->
    image_id f = key /\ frame_ok f /\ forall s, frame_text f = Some s -> fits s.

(** A server's database holds the texts of the frames the server owns. *)
Definition holds (p : string) (db : B) m : Prop :=
  working db /\ forall key, owns p key -> rdb_contents db !! key = m !! key ≫= frame_text.

Lemma read_frame_ok payload f :
  read_frame payload = Ok f ->
  frame_ok f /\ exists j, json_parse payload = Some j /\ frame_of_json j = Ok f.
Proof.
  unfold read_frame. intros (j & Hj & Hf)%bind_Ok.
  destruct (json_parse payload) as [j'|] eqn:Ep; [|done]. injection Hj as ->.
  split; [|eauto]. eapply frame_of_json_ok; [by eapply parse_ok|exact Hf].
Qed.

Lemma frame_text_decode f :
  frame_ok f -> exists s, encode f = Ok s /\ frame_text f = Some s /\
    decode s = if forallb box_finite (boxes f) then Ok f else Throw.
Proof.
  intros Hf. destruct (decode_encode f Hf) as (s & Hs & Hd). exists s. split; [done|].
  split; [|done]. unfold frame_text. by rewrite Hs.
Qed.

Lemma missing_frame_ok we :
  is_i32 (we_width we) -> is_i32 (we_height we) -> frame_ok (missing_frame we).
Proof. intros Hw Hh. split_and!; try done; by apply utf8_ascii. Qed.

Lemma store_here we p payload mb m :
  request_ok we (RqStore payload) -> (forall key, request_key (RqStore payload) = Some key -> owns p key) ->
  serves_here hash routers we p (request_text (RqStore payload)) mb
    (spec_step we (RqStore payload) m).1 (db_step (RqStore payload) (mb_db mb)).
Proof.
  intros (_ & Hcrash & _) Hown. split; [|by simpl; destruct (read_frame payload)].
  intros relay o. unfold handle_message. cbn [request_text].
  change (parseCommand (getFirstToken ("STORE" +:+ String " " payload))) with STORE.
  cbn [request_key db_step spec_step] in *.
  unfold on_store, handleStore. destruct (store_cut payload) as [-> ->].
  destruct (read_frame payload) as [f| |] eqn:Er; [| |done].
  - destruct (read_frame_ok payload f Er) as (_ & j & Hp & Hf). cbn [fst sv_db sv_raft].
    destruct (store_payload_own hash (routers p) p (tn_relay (round_of relay we)) payload
      ("STORE" +:+ String " " payload) (mb_db mb) o j f Hp Hf (Hown _ eq_refl)) as (v & Hv & _ & Hst).
    rewrite Hst. unfold frame_text. by rewrite Hv.
  - by rewrite (store_payload_unread _ _ _ _ _ _ _ _ Er).
Qed.

Lemma get_here we p id mb m :
  request_ok we (RqGet id) -> owns p id -> frames_ok m -> holds p (mb_db mb) m ->
  serves_here hash routers we p (request_text (RqGet id)) mb
    (spec_step we (RqGet id) m).1 (db_step (RqGet id) (mb_db mb)).
Proof.
  intros (_ & Hs & Hne & Hw & Hh & _) Hown Hm [Hwork Hc]. split; [|done].
  intros relay o. unfold handle_message. cbn [request_text].
  change (parseCommand (getFirstToken ("GET" +:+ String " " id))) with GET.
  cbn [db_step spec_step fst]. unfold on_store. cbn [sv_db sv_raft].
  destruct (storage_get_contents id (mb_db mb)) as (r & Hr & _ & Hrc).
  rewrite Hrc, Hc in Hr by (done || by apply working_get).
  rewrite (handleGet_own _ _ _ _ _ _ _ _ _ _ Hs Hne Hown Hr).
  destruct (m !! id) as [f|] eqn:Ef; cbn [mbind option_bind from_option Datatypes.id].
  - destruct (Hm _ _ Ef) as (_ & Hf & _).
    destruct (frame_text_decode f Hf) as (s & He & -> & ->).
    destruct (forallb box_finite (boxes f)); [|done]. cbn [mbind result_bind].
    fold (encode f). by rewrite He.
  - destruct (frame_text_decode (missing_frame we) (missing_frame_ok we Hw Hh))
      as (s & He & Ht & _).
    cbn [mbind result_bind tn_width tn_height round_of boxes forallb].
    fold (missing_frame we). fold (encode (missing_frame we)). by rewrite He, Ht.
Qed.

(** A request that its server serves itself: it owns the key, or there is none. *)
Lemma request_here we p rq mb m :
  request_ok we rq -> (forall key, request_key rq = Some key -> owns p key) ->
  frames_ok m -> holds p (mb_db mb) m ->
  serves_here hash routers we p (request_text rq) mb (spec_step we rq m).1 (db_step rq (mb_db mb)).
Proof.
  intros Hok Hown Hm Hh. destruct rq as [payload|id|].
  - by apply store_here.
  - apply get_here; try done. by apply Hown.
  - by split.
Qed.

(** One that it does not. *)
Lemma request_elsewhere we p rq key node :
  request_ok we rq -> request_key rq = Some key ->
  pickNode hash (routers p) key = Some node -> ni_id node <> p ->
  passes_on hash routers we p (request_text rq) node.
Proof.
  intros Hok Hkey Hn Hne. apply String.eqb_neq in Hne. destruct rq as [payload|id|]; [| |done].
  - exists "STORE". intros relay st o. unfold handle_message. cbn [request_text].
    change (parseCommand (getFirstToken ("STORE" +:+ String " " payload))) with STORE.
    unfold on_store, handleStore. destruct (store_cut payload) as [-> ->].
    cbn [request_key] in Hkey. destruct (read_frame payload) as [f| |] eqn:Er; [|done..].
    injection Hkey as <-. destruct (read_frame_ok payload f Er) as (_ & j & Hp & Hf).
    unfold store_payload, pick. rewrite Hp. cbn [or_throw mbind result_bind]. rewrite Hf.
    cbn [mbind result_bind]. rewrite Hn. cbn [or_crash mbind result_bind]. rewrite Hne. cbn [negb].
    unfold forward. destruct (forwardToNode _ _ _ _) as [[[] reply] o']; done.
  - destruct Hok as (_ & Hs & Hne' & _). injection Hkey as ->.
    exists "GET". intros relay st o. unfold handle_message. cbn [request_text].
    change (parseCommand (getFirstToken ("GET" +:+ String " " key))) with GET.
    unfold on_store, handleGet. pose proof (get_tokens key Hs Hne') as Ht.
    destruct (read_token ("GET" +:+ String " " key)) as [cmd rest]. cbn [snd] in Ht.
    rewrite Ht. apply String.eqb_neq in Hne' as ->. unfold pick. rewrite Hn.
    cbn [or_crash mbind result_bind]. by rewrite Hne.
Qed.

(** *** One request at any server *)

(** All routers give [key] to [owner], with the address at which [owner] listens. *)
Definition routed (ids : gset string) (key owner : string) : Prop :=
  owner ∈ ids /\
  forall self, self ∈ ids -> exists node, pickNode hash (routers self) key = Some node /\
    ni_id node = owner /\ listener (ni_host node) (u16 (ni_port node)) = Some owner.

(** The servers' databases together hold the map. *)
Record implements net m : Prop := mk_implements {
  im_frames : frames_ok m;
  im_holds : forall p mb, net !! p = Some mb -> holds p (mb_db mb) m;
}.

(** [net'] is [net] after [p] has served [rq]. *)
Definition served_at (p : string) (rq : request) net net' : Prop :=
  dom net' = dom net /\
  forall q mb', net' !! q = Some mb' -> exists mb, net !! q = Some mb /\
    mb_db mb' = if decide (q = p) then db_step rq (mb_db mb) else mb_db mb.

(** A visit that is expected of a client. *)
Definition visit_ok (ids : gset string) (v : visit) : Prop :=
  vi_server v ∈ ids /\ request_ok (vi_weather v) (vi_request v) /\
  forall key, request_key (vi_request v) = Some key -> exists owner, routed ids key owner.

Lemma routed_owns ids key owner p : routed ids key owner -> p ∈ ids -> owns p key -> p = owner.
Proof.
  intros [_ Hr] Hp (node & Hn & Hid). destruct (Hr p Hp) as (node' & Hn' & <- & _). congruence.
Qed.

(** Storing a frame at its owner. *)
Lemma holds_store p q db m f v :
  frame_text f = Some v -> (owns q (image_id f) -> q = p) -> holds q db m ->
  holds q (if decide (q = p) then (rdb_put (image_id f) v db).2 else db) (<[image_id f := f]> m).
Proof.
  intros Hv Hq [Hw Hc]. destruct (working_put (image_id f) v db Hw) as [Hput Hw'].
  split; [by case_decide|]. intros key Hown. destruct (decide (key = image_id f)) as [->|Hne].
  - rewrite decide_True by auto. rewrite rdb_put_contents, Hput, !lookup_insert_eq. done.
  - rewrite lookup_insert_ne by done. rewrite <- Hc by done.
    case_decide; [|done]. by rewrite rdb_put_contents, Hput, lookup_insert_ne.
Qed.

Lemma implements_step net net' we rq m p :
  implements net m -> request_ok we rq -> served_at p rq net net' ->
  (forall key, request_key rq = Some key -> routed (dom net) key p) ->
  implements net' (spec_step we rq m).2.
Proof.
  intros [Hm Hh] Hok [_ Hs] Hr.
  assert ((forall db, db_step rq db = db) -> implements net' m) as Hsame.
  { intros Hdb. split; [done|]. intros q mb' (mb & Eq & ->)%Hs. rewrite Hdb.
    case_decide; by apply Hh. }
  destruct rq as [payload|id|]; [|by apply Hsame..].
  cbn [spec_step request_key db_step] in *.
  destruct (read_frame payload) as [f| |] eqn:Er; [|by apply Hsame..].
  destruct (read_frame_ok payload f Er) as [Hf _].
  destruct (frame_text_decode f Hf) as (v & _ & Hv & _). rewrite Hv in Hs.
  destruct Hok as (_ & _ & Hfit). specialize (Hr _ eq_refl). cbn [snd]. split.
  - intros key f'. rewrite lookup_insert. case_decide as Ek; [|apply Hm].
    intros [= <-]. split_and!; [done|done|]. intros s. by apply Hfit.
  - intros q mb' (mb & Eq & ->)%Hs. apply holds_store; [done| |by apply Hh].
    apply (routed_owns _ _ _ q Hr). by apply elem_of_dom_2 in Eq.
Qed.

Lemma spec_reply_fits we rq m s :
  request_ok we rq -> frames_ok m -> (spec_step we rq m).1 = Some s -> fits s.
Proof.
  assert (forall c, In c ["STORE OK"; "ERROR invalid STORE payload"; "PONG"] -> fits c) as Hc.
  { intros c [<-|[<-|[<-|[]]]]; (split; [split; vm_compute; discriminate|vm_compute; lia]). }
  intros Hok Hm. destruct rq as [payload|id|]; cbn [spec_step].
  - destruct (read_frame payload); intros [= <-]; apply Hc; simpl; auto.
  - destruct Hok as (_ & _ & _ & _ & _ & Hmiss). cbn [fst].
    destruct (m !! id) as [f|] eqn:Ef; cbn [from_option Datatypes.id].
    + destruct (forallb _ _); [|done]. by apply (Hm id f Ef).
    + cbn [missing_frame boxes forallb]. apply Hmiss.
  - intros [= <-]. apply Hc. simpl. auto.
Qed.

Lemma put_back (ids : gset string) a b :
  a ∈ ids -> b ∈ ids -> {[a]} ∪ ({[b]} ∪ ids ∖ {[a]}) = ids.
Proof. intros Ha Hb. apply set_eq. intros x. destruct (decide (x = a)); set_solver. Qed.

(** Where the key belongs, or where there is none. *)
Lemma ask_served_here hops net m self rq we :
  implements net m -> request_ok we rq -> self ∈ dom net ->
  (forall key, request_key rq = Some key -> routed (dom net) key self) ->
  exists net', ask hash routers hops we self (frame (chars (request_text rq))) net
      = Some (arrives (spec_step we rq m).1, net') /\ served_at self rq net net'.
Proof.
  intros [Hm Hh] Hok Hin Hr. pose proof Hin as [mb Em]%elem_of_dom.
  destruct (ask_here hash routers hops we self (request_text rq) net mb (spec_step we rq m).1
    (db_step rq (mb_db mb)) Em (proj1 Hok)) as (proc & ->).
  - intros s. by apply spec_reply_fits.
  - apply request_here; [done| |done|by apply Hh]. intros key Hk.
    destruct (Hr key Hk) as [_ Ha]. destruct (Ha self Hin) as (node & ? & ? & _). by exists node.
  - eexists. split; [done|]. split; [by rewrite dom_insert_lookup_L|].
    intros q mb'. rewrite lookup_insert. case_decide as Eq.
    + subst q. intros [= <-]. exists mb. by rewrite decide_True.
    + intros Eq'. exists mb'. by rewrite decide_False.
Qed.

(** Elsewhere: one hop. *)
Lemma ask_served_elsewhere hops net m self owner rq we key :
  implements net m -> request_ok we rq -> self ∈ dom net ->
  request_key rq = Some key -> routed (dom net) key owner -> owner <> self ->
  exists net', ask hash routers (Datatypes.S hops) we self (frame (chars (request_text rq))) net
      = Some (arrives (spec_step we rq m).1, net') /\ served_at owner rq net net'.
Proof.
  intros [Hm Hh] Hok Hin Hkey [Howner Ha] Hne.
  destruct (Ha self Hin) as (node & Hn & Hid & Hl).
  destruct (Ha owner Howner) as (node' & Hn' & Hid' & _).
  pose proof Hin as [mb Em]%elem_of_dom. pose proof Howner as [mo Emo]%elem_of_dom.
  destruct (ask_elsewhere hash routers hops we self owner (request_text rq) node net mb mo
    (spec_step we rq m).1 (db_step rq (mb_db mo)) Em Emo) as (proc & proc' & ->); try done.
  - apply Hok.
  - intros s. by apply spec_reply_fits.
  - eapply request_elsewhere; [done..|by rewrite Hid].
  - apply request_here; [done| |done|by apply Hh]. rewrite Hkey. intros ? [= <-]. by exists node'.
  - eexists. split; [done|]. split.
    + rewrite !dom_insert_L, dom_delete_L. by apply put_back.
    + intros q mb'. rewrite lookup_insert. destruct (decide (self = q)) as [<-|Hq].
      { intros [= <-]. exists mb. split; [exact Em|]. by rewrite decide_False. }
      rewrite lookup_insert. destruct (decide (owner = q)) as [<-|Hq'].
      { intros [= <-]. exists mo. split; [exact Emo|]. by rewrite decide_True. }
      rewrite lookup_delete_ne by done. intros Eq. exists mb'. split; [exact Eq|].
      by rewrite decide_False.
Qed.

(** A visit is a step of the map. *)
Lemma visit_step hops net m v :
  implements net m -> visit_ok (dom net) v ->
  exists net', ask hash routers (Datatypes.S hops) (vi_weather v) (vi_server v)
      (frame (chars (request_text (vi_request v)))) net
    = Some (arrives (spec_step (vi_weather v) (vi_request v) m).1, net') /\
    dom net' = dom net /\ implements net' (spec_step (vi_weather v) (vi_request v) m).2.
Proof.
  destruct v as [self rq we]. cbn [vi_server vi_request vi_weather].
  intros Him (Hin & Hok & Hkey). cbn [vi_server vi_request vi_weather] in *.
  assert (exists p net', ask hash routers (Datatypes.S hops) we self (frame (chars (request_text rq)))
      net = Some (arrives (spec_step we rq m).1, net') /\ served_at p rq net net' /\
    forall key, request_key rq = Some key -> routed (dom net) key p) as (p & net' & Ha & Hs & Hr).
  { destruct (request_key rq) as [key|] eqn:Ek.
    - destruct (Hkey key eq_refl) as [owner Hr]. exists owner.
      assert (exists net', ask hash routers (Datatypes.S hops) we self
          (frame (chars (request_text rq))) net
        = Some (arrives (spec_step we rq m).1, net') /\ served_at owner rq net net')
        as (net' & Ha & Hs).
      { destruct (decide (owner = self)) as [->|Hne].
        - apply ask_served_here; try done. rewrite Ek. by intros ? [= <-].
        - by eapply ask_served_elsewhere. }
      exists net'. split_and!; [exact Ha|exact Hs|by intros ? [= <-]].
    - destruct (ask_served_here (Datatypes.S hops) net m self rq we Him Hok Hin) as (net' & Ha & Hs);
        [by rewrite Ek|].
      by exists self, net'. }
  exists net'. split; [exact Ha|]. split; [apply Hs|]. by eapply implements_step.
Qed.

Lemma run_refines hops net m vs :
  implements net m -> Forall (visit_ok (dom net)) vs ->
  exists net', run hash routers (Datatypes.S hops) vs net
    = Some (arrives <$> (spec_run vs m).1, net') /\ implements net' (spec_run vs m).2.
Proof.
  revert net m. induction vs as [|v vs IH]; intros net m Him Hok; cbn [run spec_run]; [by exists net|].
  apply Forall_cons in Hok as [Hv Hvs].
  destruct (visit_step hops net m v Him Hv) as (net1 & -> & Hdom & Him1).
  cbn [mbind option_bind].
  destruct (spec_step (vi_weather v) (vi_request v) m) as [reply m1]. cbn [fst snd] in *.
  rewrite <- Hdom in Hvs. destruct (IH net1 m1 Him1 Hvs) as (net2 & -> & Him2).
  cbn [mbind option_bind]. destruct (spec_run vs m1) as [replies m2]. by exists net2.
Qed.

(** ** Routers with the same nodes *)

(** The routers hold the same nodes, in whatever order; all are healthy, run, and
    listen where the routers say. *)
Record same_nodes (all : list NodeInfo) (ids : gset string) : Prop := mk_same_nodes {
  sn_routers : forall self, self ∈ ids -> routers self ≡ₚ all;
  sn_some : all <> [];
  sn_nodes : forall n, n ∈ all -> ni_healthy n = true /\ ni_id n ∈ ids /\
    listener (ni_host n) (u16 (ni_port n)) = Some (ni_id n);
}.

(** No two nodes have the same score for [key]. *)
Definition no_tie (all : list NodeInfo) (key : string) : Prop :=
  forall a b, a ∈ all -> b ∈ all -> score hash key a = score hash key b -> a = b.

Lemma same_nodes_routed all ids key :
  same_nodes all ids -> no_tie all key -> exists owner, routed ids key owner.
Proof.
  intros [Hr Hsome Hn] Htie. destruct (pickNode hash all key) as [node|] eqn:E.
  - pose proof E as Hp. apply pickNode_picked, picked_in in Hp as [Hin _].
    destruct (Hn node Hin) as (_ & Hid & Hl). exists (ni_id node). split; [done|].
    intros self Hself. exists node. split; [|done]. rewrite <- E. symmetry.
    apply pickNode_order_independent; [by rewrite (Hr self Hself)|]. intros a b Ha Hb _ _. by apply Htie.
  - exfalso. rewrite pickNode_None in E. destruct all as [|n all]; [done|].
    destruct (Hn n) as [Hh _]; [apply list_elem_of_here|]. rewrite E in Hh; [done|apply list_elem_of_here].
Qed.

Lemma implements_empty net :
  (forall p mb, net !! p = Some mb -> working (mb_db mb) /\ rdb_contents (mb_db mb) = ∅) ->
  implements net ∅.
Proof.
  intros Hdb. split.
  - intros key f. by rewrite lookup_empty.
  - intros p mb Em. destruct (Hdb p mb Em) as [Hw Hc]. split; [done|]. intros key _.
    by rewrite Hc, !lookup_empty.
Qed.
End implementing.

(** ** The property *)

(** C4. The servers are one store: when all routers hold the same healthy nodes, in
    whatever order, and the keys asked for have no ties, any sequence of [STORE], [GET] and
    [PING] requests, each sent to whichever server, is answered as one map from image
    ids to frames answers it, with one forwarding at most, and the owners' databases
    hold that map afterwards; this when each request has arrived before it is read,
    and each answer, when the texts fit the message buffer, the ids are words and the JSON is none
    that crashes the reader ([request_ok]), and when the databases work ([WorkingDB]). *)
Theorem sharded_store_refines_map `{!Addresses, !Floats, !FloatLaws, !JsonText, !JsonTextLaws}
    {B : Type} `{!RocksDB B, !RocksDBLaws B, !WorkingDB B} hash routers hops all
    (net : network B) (m : gmap string YoloFrame) visits :
  same_nodes routers all (dom net) -> implements hash routers net m ->
  Forall (fun v => vi_server v ∈ dom net /\ request_ok (vi_weather v) (vi_request v) /\
    forall key, request_key (vi_request v) = Some key -> no_tie hash all key) visits ->
  exists net',
    run hash routers (Datatypes.S hops) visits net
      = Some (arrives <$> (spec_run visits m).1, net') /\
    implements hash routers net' (spec_run visits m).2.
Proof.
  intros Hn Him Hv. apply run_refines; [done|].
  eapply Forall_impl; [exact Hv|]. intros v (Hs & Hok & Hk). split_and!; [done|done|].
  intros key Hkey. eapply same_nodes_routed; [done|]. by apply Hk.
Qed.

(** ** Three servers *)
Module Three.
Import Storage.Memory.

Definition n_a : NodeInfo := mkNodeInfo "a" "10.0.0.1" 9001 true.
Definition n_b : NodeInfo := mkNodeInfo "b" "10.0.0.2" 9002 true.
Definition n_c : NodeInfo := mkNodeInfo "c" "10.0.0.3" 9003 true.

#[local] Instance addresses : Addresses := fun host port =>
  if String.eqb host "10.0.0.1" && (port =? 9001)%Z then Some "a"
  else if String.eqb host "10.0.0.2" && (port =? 9002)%Z then Some "b"
  else if String.eqb host "10.0.0.3" && (port =? 9003)%Z then Some "c"
  else None.

(** Every server has itself first. *)
Definition routers (self : string) : list NodeInfo :=
  if String.eqb self "a" then [n_a; n_b; n_c]
  else if String.eqb self "b" then [n_b; n_a; n_c]
  else [n_c; n_a; n_b].

(** A stand-in for [std::hash]. *)
Definition toy_hash (s : string) : Z :=
  let z := foldl (fun h b => (h * 31 + Z_of_byte b) mod 1009)%Z 7%Z (chars s) in
  (z * z mod 1009)%Z.

#[export] Instance mem_working : WorkingDB mem_db.
Proof.
  refine {| working b := mem_full b = false |}.
  - intros k v b Hb. simpl. rewrite Hb. by split.
  - intros k b _. simpl. by destruct (mem_map b !! k).
Defined.

Definition server (i : string) : member mem_db :=
  mkMember (RaftNode_new i [] (mkTimer 0 150)) (pool_start RaftConnectionPool_new) (mkMem ∅ false)
    (mkProcess ∅ [] 0).

Definition servers : network mem_db :=
  {[ "a"%string := server "a"; "b"%string := server "b"; "c"%string := server "c" ]}.

Definition calm : weather := mkWeather 17 (-3) (mkTimer 0 150).

(** A frame that [a] owns is stored through [b] and read through [c]; [a] is asked for one
    of [c]'s that is not there; [b] gets a payload that is none. *)
Definition visits : list visit :=
  [mkVisit "b" (RqStore Codec.Witness.frame_text) calm; mkVisit "c" (RqGet "img1") calm;
   mkVisit "a" (RqGet "img4") calm; mkVisit "b" (RqStore "{") calm; mkVisit "c" RqPing calm].

Definition all : list NodeInfo := [n_a; n_b; n_c].
Definition ids : gset string := {[ "a"; "b"; "c" ]}.

Lemma dom_servers : dom servers = ids.
Proof. unfold servers, ids. rewrite !dom_insert_L, dom_singleton_L. set_solver. Qed.

Lemma all_cases n : n ∈ all -> n = n_a \/ n = n_b \/ n = n_c.
Proof. unfold all. rewrite !elem_of_cons. intros [?|[?|[?|[]%elem_of_nil]]]; auto. Qed.

Lemma servers_same_nodes : same_nodes routers all (dom servers).
Proof.
  rewrite dom_servers. split; [|done|].
  - intros self Hs. unfold ids in Hs. rewrite !elem_of_union, !elem_of_singleton in Hs.
    destruct Hs as [[->| ->]| ->]; [done|apply perm_swap|].
    exact (Permutation_app_comm [n_c] [n_a; n_b]).
  - intros n [->|[->| ->]]%all_cases; (split_and!; [done|unfold ids; set_solver|done]).
Qed.

Lemma servers_empty : implements toy_hash routers servers ∅.
Proof.
  apply implements_empty. intros p mb Em. unfold servers in Em.
  repeat (apply lookup_insert_Some in Em as [[_ <-]|[_ Em]]; [done|]).
  by apply lookup_singleton_Some in Em as [_ <-].
Qed.

Lemma no_tie_by key :
  NoDup (score toy_hash key <$> all) -> no_tie toy_hash all key.
Proof.
  intros Hnd a b Ha Hb E. apply list_elem_of_lookup in Ha as [i Hi].
  apply list_elem_of_lookup in Hb as [j Hj].
  assert (i = j) as ->; [|congruence].
  eapply (NoDup_lookup (score toy_hash key <$> all)); [done|..]; rewrite list_lookup_fmap.
  - by rewrite Hi.
  - by rewrite Hj, E.
Qed.
End Three.

(** ** Witnesses *)
Module Witness.
Import Storage.Memory Three.


Ltac by_fits := split; [split; vm_compute; discriminate|vm_compute; lia].
Ltac by_computation := apply no_tie_by; apply (bool_decide_unpack _); vm_compute; exact I.

(** The answers of the map to the visits. *)
Lemma visits_spec :
  (@spec_run int_floats compact_text visits ∅).1
  = [Some "STORE OK"; Some Codec.Witness.frame_text;
     Some (requote "{'boxes':[],'height':-3,'image_hash':'','image_id':'','width':17}");
     Some "ERROR invalid STORE payload"; Some "PONG"].
Proof. vm_compute. reflexivity. Qed.

Lemma get_ok id :
  no_space id = true -> id <> "" -> String.length id <= 100 ->
  @request_ok int_floats compact_text calm (RqGet id).
Proof.
  intros Hs Hne Hl. split; [|split_and!; try done; try (unfold is_i32; simpl; lia)].
  - apply (fits_short "GET" (String " " id)); [|done]. rewrite str_length_app. simpl. lia.
  - intros s Hs'. vm_compute in Hs'. injection Hs' as <-. by_fits.
Qed.

Lemma frame_read :
  @read_frame int_floats compact_text Codec.Witness.frame_text = Ok (Codec.Witness.frame (Some 7%Z)).
Proof.
  unfold read_frame. rewrite Connection.Witness.frame_text_parses. cbn [or_throw mbind result_bind].
  apply (@frame_of_json_encode int_floats int_float_laws compact_text);
    [apply Codec.Witness.frame_wf|reflexivity].
Qed.

Lemma garbage_read : @read_frame int_floats compact_text "{" = Throw.
Proof.
  assert (match @read_frame int_floats compact_text "{" with Throw => true | _ => false end = true)
    as H by (vm_compute; reflexivity).
  by destruct (@read_frame int_floats compact_text "{").
Qed.

Lemma store_ok : @request_ok int_floats compact_text calm (RqStore Codec.Witness.frame_text).
Proof.
  split; [by_fits|]. rewrite frame_read. split; [intros E; discriminate E|].
  intros f s [= <-] Hs. vm_compute in Hs. injection Hs as <-. by_fits.
Qed.

Lemma garbage_ok : @request_ok int_floats compact_text calm (RqStore "{").
Proof.
  split; [by_fits|]. rewrite garbage_read. split; [intros E; discriminate E|].
  intros f s E. discriminate E.
Qed.

Lemma sharded_store_refines_map_witness :
  exists net', @run addresses int_floats compact_text mem_db mem_rocksdb toy_hash routers 1 visits servers
    = Some (arrives <$> [Some "STORE OK"; Some Codec.Witness.frame_text;
       Some (requote "{'boxes':[],'height':-3,'image_hash':'','image_id':'','width':17}");
       Some "ERROR invalid STORE payload"; Some "PONG"], net').
Proof.
  destruct (@sharded_store_refines_map addresses int_floats int_float_laws compact_text compact_laws
    mem_db mem_rocksdb mem_laws mem_working toy_hash routers 0 all servers ∅ visits)
    as (net' & Hrun & _).
  - exact servers_same_nodes.
  - exact servers_empty.
  - rewrite dom_servers. unfold visits, ids.
    repeat (apply Forall_cons; split); [..|apply Forall_nil_2]; cbn [vi_server vi_request vi_weather];
      (split; [set_solver|]).
    + split; [exact store_ok|]. intros key Hk. unfold request_key in Hk. rewrite frame_read in Hk.
      injection Hk as <-. by_computation.
    + split; [by apply get_ok; [..|simpl; lia]|]. intros key [= <-]. by_computation.
    + split; [by apply get_ok; [..|simpl; lia]|]. intros key [= <-]. by_computation.
    + split; [exact garbage_ok|]. intros key Hk. unfold request_key in Hk. rewrite garbage_read in Hk.
      discriminate Hk.
    + split; [|intros key Hk; discriminate Hk]. split; [by_fits|exact I].
  - exists net'. rewrite <- visits_spec. exact Hrun.
Defined.
End Witness.
