(* ===== verification/RaftStale.v ===== *)
(** * Elections when answers come late

    Three servers run elections over the transport the program has: the
    connection pool, non-blocking sockets, framing and JSON at the candidate's
    end ([RaftSend]), the loop of the connection at the other one ([Session]).
    An answer that is not there at the moment it is read stays in the socket of the
    pooled connection and answers the next request
    ([RaftSend.late_reply_answers_next_request]); [startElection]
    (src/raft/RaftNode.cpp) does not compare the term of an answer with its own. *)
From S2P Require Import Prelude Socket Protocol ConnPool Descriptors Json JsonText.
From S2P Require Import RaftTypes RaftNode RaftElection RaftSend Storage Session Network.
Import Example3 Storage.Memory Network.Three.
Local Open Scope string_scope.

Definition late_world : Type := network mem_db.

(** The transport of a server, when nothing arrives during its calls. *)
#[export] Instance late_transport : RaftTransport (pooled_world (O := process)) :=
  pool_transport id.

(** Server [i] runs [startElection]; every connection it asks for is made, and
    nothing arrives while it is at it. *)
Definition late_election (i : string) (w : late_world) : option late_world :=
  s ← w !! i;
  let reachable := (fun _ => Some idle_stream) <$> m_peers (mb_node s) in
  let proc := mkProcess (ps_streams (mb_proc s)) reachable (ps_now (mb_proc s)) in
  '(n, (pool, proc')) ← startElection tm (mb_node s) (mb_pool s, proc);
  Some (<[i := mkMember n pool (mb_db s) proc']> w).

(** What server [i] has sent on [fd] arrives at [peer], which has accepted the
    connection, serves it until its loop ends and closes it; the answers arrive
    at [i], too late for the call that asked.  On a connection that the peer has
    closed nothing arrives. *)
Definition deliver_one (i : string) (w : late_world) (link : Z * string) : late_world :=
  let '(fd, peer) := link in
  match w !! i, w !! peer with
  | Some s, Some sp =>
      match fd_stream fd (mb_proc s) with
      | Some c =>
          if nb_eof c then w else
          match accept_and_serve any_hash [] tm peer (nb_out c) sp with
          | Some (answers, sp') =>
              let proc := mkProcess (<[fd := mkStream (nb_in c ++ answers) true [] 4096]>
                                       (ps_streams (mb_proc s)))
                            (ps_connects (mb_proc s)) (ps_now (mb_proc s)) in
              <[peer := sp']> (<[i := mkMember (mb_node s) (mb_pool s) (mb_db s) proc]> w)
          | None => w
          end
      | None => w
      end
  | _, _ => w
  end.

Definition deliver_all (i : string) (w : late_world) : option late_world :=
  s ← w !! i;
  Some (foldl (deliver_one i) w (map_to_list (m_fdToPeerMap (mb_pool s)))).

(** [a] stands in term 1 and [c] in term 2; their requests arrive and are
    granted, and the answers arrive after the calls; then both stand in term 3. *)
Definition late_run : option late_world :=
  w1 ← late_election "a" fresh_net; w2 ← deliver_all "a" w1;
  w3 ← late_election "c" w2; w4 ← deliver_all "c" w3;
  w5 ← late_election "a" w4; late_election "c" w5.

(** What is seen of the nodes at the end. *)
Definition observe_late (w : late_world) : gmap string (RaftState * Z * string) :=
  (fun s => (m_state (mb_node s), m_currentTerm (mb_node s), m_votedFor (mb_node s))) <$> w.

Lemma observe_late_lookup w m i st t v :
  observe_late w = m -> m !! i = Some (st, t, v) ->
  exists s, w !! i = Some s /\ m_state (mb_node s) = st /\
    m_currentTerm (mb_node s) = t /\ m_votedFor (mb_node s) = v.
Proof.
  intros <-. unfold observe_late. rewrite lookup_fmap. intros (s & Hw & Hs)%fmap_Some.
  injection Hs as -> -> ->. eauto.
Qed.

(** C14. Over the program's own transport two servers lead the same term: [a]
    counts the votes it was given in term 1, and [c] those it was given in term 2, as votes
    of term 3, in which no request of either reached anyone: the third server is
    still in term 2 and has voted for [c] there.  [election_safety] needs a
    transport that matches answers to requests; the connection pool is none. *)
Theorem late_answers_elect_two_leaders :
  exists w sa sb sc,
    late_run = Some w /\ w !! "a" = Some sa /\ w !! "b" = Some sb /\ w !! "c" = Some sc /\
    m_state (mb_node sa) = Leader /\ m_state (mb_node sc) = Leader /\
    m_currentTerm (mb_node sa) = 3%Z /\ m_currentTerm (mb_node sc) = 3%Z /\
    m_currentTerm (mb_node sb) = 2%Z /\ m_votedFor (mb_node sb) = "c".
Proof.
  destruct late_run as [w|] eqn:E; [|vm_compute in E; discriminate E].
  assert (observe_late <$> late_run = Some {[ "a" := (Leader, 3%Z, "a");
    "b" := (Follower, 2%Z, "c"); "c" := (Leader, 3%Z, "c") ]}) as H by (vm_compute; reflexivity).
  rewrite E in H. injection H as H.
  destruct (observe_late_lookup _ _ "a" _ _ _ H eq_refl) as (sa & ? & ? & ? & _).
  destruct (observe_late_lookup _ _ "b" _ _ _ H eq_refl) as (sb & ? & _ & ? & ?).
  destruct (observe_late_lookup _ _ "c" _ _ _ H eq_refl) as (sc & ? & ? & ? & _).
  exists w, sa, sb, sc. by split_and!.
Qed.
