(* ===== verification/Health.v ===== *)
(** * The health check ([checkNodeHealth] of src/cluster/ShardRouter.cpp)

    The check a server makes of every other node before it takes the node into its
    router: connect, send the four bytes [PING], and expect [PONG].  Both
    ends are here, because the node that is asked runs the same program. *)
From S2P Require Import Prelude Socket Text Command Protocol ConnPool Descriptors Router.
From S2P Require Import Json JsonText Codec RaftTypes RaftNode Storage RaftRpc Connection Session.
Local Open Scope string_scope.

(** [std::string(buffer)]: the bytes before the first NUL; running off the end
    of the array is undefined behaviour. *)
Fixpoint c_string (buf : list byte) : option (list byte) :=
  match buf with
  | [] => None
  | b :: rest => if bool_decide (b = x00) then Some [] else cons b <$> c_string rest
  end.

Section check.
Context {O S : Type} `{!PoolOS O, !FdTable O S, !SocketOps S}.

(** [checkNodeHealth(node)]; [wait] is what the network does while the check waits
    for the answer, at most a second. *)
Definition checkNodeHealth (wait : O -> O) (node : NodeInfo) (o : O) : option (bool * O) :=
  let '(sock, o1) := os_socket o in
  if (sock <? 0)%Z then Some (false, o1)
  else if negb (os_pton (ni_host node)) then Some (false, os_close sock o1)
  else
    let '(connected, o2) := os_connect sock (ni_host node) (u16 (ni_port node)) o1 in
    if negb connected then Some (false, os_close sock o2)
    else
      let '(n, o3) := fd_send sock (chars "PING") o2 in
      if (n <? 0)%Z then Some (false, os_close sock o3)
      else
        let '(r, o4) := fd_recv sock 16 (wait o3) in
        match r with
        | RecvError _ | RecvBytes [] => Some (false, os_close sock o4)
        | RecvBytes bs =>
            response ← c_string (overwrite bs (replicate 16 x00));
            Some (bool_decide (text response = "PONG"), os_close sock o4)
        end.

(** The bytes that have arrived on the socket of the check when it reads: none,
    or the beginning of a message of the protocol. *)
Definition framed_answer `{!SocketLaws S} (wait : O -> O) (node : NodeInfo) (o : O) : Prop :=
  forall sock o1 o2 n o3 s,
    os_socket o = (sock, o1) ->
    os_connect sock (ni_host node) (u16 (ni_port node)) o1 = (true, o2) ->
    fd_send sock (chars "PING") o2 = (n, o3) ->
    fd_stream sock (wait o3) = Some s ->
    sk_avail s = [] \/
    exists data rest, message_ok data /\ sk_avail s = (frame data ++ rest)%list.
End check.

(** ** What the check opens it closes *)
Section frame.
Context {O S : Type} `{!PoolOS O, !PoolOSLaws O, !FdTable O S, !SocketOps S, !FdTableLaws O S}.

Lemma checkNodeHealth_frame fds wait node (o : O) b o' :
  quiet_on fds wait -> fds ⊆ os_open o ->
  checkNodeHealth wait node o = Some (b, o') -> kept fds o o'.
Proof.
  intros Hq Hsub. unfold checkNodeHealth. destruct (os_socket o) as [sock o1] eqn:Es.
  pose proof (temporary_socket fds o sock o1 Es Hsub) as Ht.
  destruct (sock <? 0)%Z; [by intros [= _ <-]|]. destruct Ht as [Hfd Hclose].
  destruct (os_pton (ni_host node)); cbn [negb]; [|intros [= _ <-]; by apply Hclose].
  assert (same_but sock o1 (os_connect sock (ni_host node) (u16 (ni_port node)) o1).2) as Hc.
  { split; [apply os_connect_open|]. intros fd' Hne. by apply fd_connect_stream. }
  apply (same_but_kept fds) in Hc; [|done].
  destruct (os_connect sock _ _ o1) as [[|] o2]; cbn [negb snd] in *;
    [|intros [= _ <-]; by apply Hclose].
  pose proof (fd_send_but sock (chars "PING") o2) as Hsend.
  destruct (fd_send sock (chars "PING") o2) as [n o3]. cbn [snd] in Hsend.
  apply (same_but_kept fds) in Hsend; [|done].
  assert (kept fds o1 o3) as H3 by by eapply kept_trans.
  destruct (n <? 0)%Z; [intros [= _ <-]; by apply Hclose|].
  pose proof (fd_recv_but sock 16 (wait o3)) as Hrecv.
  destruct (fd_recv sock 16 (wait o3)) as [r o4]. cbn [snd] in Hrecv.
  apply (same_but_kept fds) in Hrecv; [|done].
  assert (kept fds o (os_close sock o4)) as Hend.
  { apply Hclose. eapply kept_trans; [exact H3|]. by eapply kept_trans; [apply Hq|]. }
  destruct r as [[|b0 bs]|again]; [by intros [= _ <-]| |by intros [= _ <-]].
  intros (response & _ & [= _ <-])%bind_Some. done.
Qed.
End frame.

(** ** Why it cannot pass *)
Lemma frame_first_byte data :
  message_ok data -> exists bs, frame data = x00 :: bs.
Proof.
  intros Hok. unfold frame. rewrite message_ok_u32 by done. unfold htonl_bytes.
  destruct Hok as [Hlo Hhi]. unfold MAX_MESSAGE_SIZE in Hhi.
  assert (vec_size data / 2 ^ 24 = 0)%Z as -> by (apply Z.div_small; lia).
  eexists. reflexivity.
Qed.

(** The server's side: any part of [PING] is refused as the length of a message. *)
Lemma ping_refused {S : Type} `{!SocketOps S, !SocketLaws S} out (s : S) k :
  sk_avail s = take k (chars "PING") ->
  exists s', recvMessage out s = (false, out, s') /\ sk_sent s' = sk_sent s.
Proof.
  intros Ha. unfold recvMessage, recvMessage_around. destruct k as [|k].
  { rewrite sk_recv_none by (done || lia). exists s. by destruct (sk_eof s). }
  destruct (sk_recv_some 4 s) as (s' & -> & _ & Hs & _); [lia|by rewrite Ha|].
  exists s'. split; [|done]. rewrite Ha.
  by destruct k as [|[|[|k]]].
Qed.

Section both_ends.
Context `{!Floats, !JsonText} {B : Type} `{!RocksDB B}.
Context {O S : Type} `{!PoolOS O, !PoolOSLaws O, !FdTable O S, !SocketOps S, !SocketLaws S}.
Context `{!FdTableLaws O S}.

Lemma checkNodeHealth_framed wait node (o : O) :
  framed_answer wait node o -> exists o', checkNodeHealth wait node o = Some (false, o').
Proof.
  intros Hans. unfold framed_answer, checkNodeHealth in *.
  destruct (os_socket o) as [sock o1] eqn:Es. specialize (Hans sock o1).
  destruct (sock <? 0)%Z; [by eauto|]. destruct (os_pton (ni_host node)); [|by eauto]. simpl.
  destruct (os_connect sock _ _ o1) as [[|] o2] eqn:Ec; [|by eauto]. simpl.
  destruct (fd_send sock (chars "PING") o2) as [n o3] eqn:Ef.
  destruct (n <? 0)%Z; [by eauto|]. unfold fd_recv.
  destruct (fd_stream sock (wait o3)) as [s|] eqn:Est; [|by eauto].
  destruct (Hans o2 n o3 s eq_refl eq_refl Ef Est) as [Ha|(data & rest & Hok & Ha)].
  - rewrite sk_recv_none by (done || lia). by destruct (sk_eof s); eauto.
  - destruct (frame_first_byte data Hok) as [bs Hf]. rewrite Hf in Ha. simpl in Ha.
    destruct (sk_recv_some 16 s) as (s2 & -> & _); [lia|by rewrite Ha|].
    rewrite Ha. simpl. eauto.
Qed.

Variable hash : string -> Z.
Variable nodes : list NodeInfo.
Variable self : string.

(** The health check cannot pass between servers of this program.  The
    server that is asked refuses the four bytes [PING], however many of them have
    arrived, as the length of an over-long message, and ends the connection
    without sending anything; and the server that asks finds the other one not
    healthy whenever nothing arrives or what arrives is a message of the
    protocol, because that starts with a NUL byte.  The check closes what it opened. *)
Theorem health_check_cannot_pass :
  (forall ts t fd st st1 (o o1 : O) s k,
     tn_before t (st, o) = (st1, o1) -> fd_stream fd o1 = Some s ->
     sk_avail s = take k (chars "PING") ->
     exists o' s', handle (B := B) hash nodes self (t :: ts) fd [] st o = (Closed, [], (st1, o')) /\
       fd_stream fd o' = Some s' /\ sk_sent s' = sk_sent s) /\
  (forall wait node (o : O),
     framed_answer wait node o ->
     exists o', checkNodeHealth wait node o = Some (false, o') /\
       (quiet_on ∅ wait -> os_open o' = os_open o)).
Proof.
  split.
  - intros ts t fd st st1 o o1 s k Ht Es Ha. simpl. rewrite Ht.
    destruct (ping_refused [] s k Ha) as (s' & Hr & Hs).
    destruct (fd_recvMessage_eq fd _ _ _ _ _ _ Es Hr) as [-> Es']. simpl. eauto 10.
  - intros wait node o Hans. destruct (checkNodeHealth_framed wait node o Hans) as [o' Ho'].
    exists o'. split; [done|]. intros Hq. by eapply (checkNodeHealth_frame ∅).
Qed.
End both_ends.

(** ** Witnesses *)
Module Witness.
Import Storage.Memory Connection.Witness Session.Witness.

(** The checked server holds the bytes on descriptor 3; the checking server's
    socket is then found closed by it. *)
Definition pinged : process :=
  mkProcess {[ 3%Z := mkStream (chars "PING") false [] 4096 ]} [] 0.

Definition asking : process := mkProcess ∅ [Some (mkStream [] true [] 4096)] 0.

Definition node2 : NodeInfo := mkNodeInfo "node2" "127.0.0.1" 8081 false.

Lemma asking_framed : framed_answer id node2 asking.
Proof.
  intros sock o1 o2 n o3 s Hs Hc Hf Hst.
  vm_compute in Hs. injection Hs as <- <-. vm_compute in Hc. injection Hc as <-.
  vm_compute in Hf. injection Hf as <- <-. vm_compute in Hst. injection Hst as <-.
  by left.
Qed.

Lemma health_check_cannot_pass_witness :
  (exists o' s', handle length_hash [node1] "node1" [quiet_turn] 3 [] state0 pinged
      = (Closed, [], (state0, o')) /\ fd_stream 3 o' = Some s' /\ sk_sent s' = []) /\
  exists o', checkNodeHealth id node2 asking = Some (false, o') /\ os_open o' = ∅.
Proof.
  destruct (@health_check_cannot_pass int_floats compact_text mem_db mem_rocksdb process nb_stream
    process_ops process_laws process_table nb_ops nb_laws process_table_laws
    length_hash [node1] "node1") as [Hserver Hclient].
  split.
  - exact (Hserver [] quiet_turn 3%Z state0 state0 pinged pinged
      (mkStream (chars "PING") false [] 4096) 4 eq_refl eq_refl eq_refl).
  - destruct (Hclient id node2 asking asking_framed) as (o' & Hcheck & Ho).
    exists o'. split; [exact Hcheck|]. apply Ho. intros o. apply kept_refl.
Defined.
End Witness.
