(* ===== verification/Server.v ===== *)
(** * The server (src/server/Server.h, src/server/Server.cpp)

    Construction from the configuration (the router and the health checks), start
    (listening socket, store, Raft node), the accept loop, and stop. *)
From S2P Require Import Prelude Socket Text Protocol Router ConnPool Descriptors ThreadPool.
From S2P Require Import Config RaftTypes RaftNode Storage Json Health.
Local Open Scope string_scope.

(** ** The operating system, as a listening server uses it *)
Inductive epoll_result :=
  | EpollTimeout                     (* 0 *)
  | EpollError (eintr : bool)        (* -1 *)
  | EpollEvents (fds : list Z).      (* the events' [data.fd] *)

Inductive accept_result :=
  | Accepted (fd : Z)
  | AcceptError (again : bool).      (* -1; EAGAIN, or another error *)

Class ListenOS (O : Type) := {
  os_bind : Z -> Z -> O -> bool * O;         (* bind(fd, INADDR_ANY:port) >= 0 *)
  os_listen : Z -> O -> bool * O;            (* listen(fd, 128) >= 0 *)
  os_epoll_create : O -> Z * O;              (* epoll_create1(0) *)
  os_epoll_add : Z -> Z -> O -> bool * O;    (* epoll_ctl(epoll, ADD, fd, EPOLLIN) >= 0 *)
  os_epoll_wait : Z -> O -> epoll_result * O;
  os_accept : Z -> O -> accept_result * O;
}.

(** What these calls do to the descriptor table; a listening socket has a finite
    backlog. *)
Class ListenOSLaws (O : Type) `{!PoolOS O, !PoolOSLaws O, !ListenOS O} := {
  os_bind_open fd port o : os_open (os_bind fd port o).2 = os_open o;
  os_listen_open fd o : os_open (os_listen fd o).2 = os_open o;
  os_epoll_create_open o fd o' : os_epoll_create o = (fd, o') ->
    (fd < 0)%Z /\ os_open o' = os_open o \/
    (0 <= fd)%Z /\ fd ∉ os_open o /\ os_open o' = {[ fd ]} ∪ os_open o;
  os_epoll_add_open e fd o : os_open (os_epoll_add e fd o).2 = os_open o;
  os_epoll_wait_open e o : os_open (os_epoll_wait e o).2 = os_open o;
  os_backlog : Z -> O -> nat;
  os_accept_open fd o r o' : os_accept fd o = (r, o') ->
    match r with
    | Accepted c => (0 <= c)%Z /\ c ∉ os_open o /\ os_open o' = {[ c ]} ∪ os_open o /\
        os_backlog fd o' < os_backlog fd o
    | AcceptError _ => os_open o' = os_open o
    end;
}.

(** ** The state *)
Record Server := mkServer {
  srv_running : bool;
  srv_listen_fd : Z;
  srv_epoll_fd : Z;
  srv_port : Z;
  srv_self : NodeInfo;
  srv_router : list NodeInfo;
  srv_thread_pool : ThreadPool Z;       (* a task serves the client on a descriptor *)
  srv_raft_node : option RaftNode;
}.

Definition set_srv_fds (listen epoll : Z) (s : Server) : Server :=
  mkServer (srv_running s) listen epoll (srv_port s) (srv_self s) (srv_router s)
    (srv_thread_pool s) (srv_raft_node s).

(** ** Construction *)
Section construction.
Context {O S : Type} `{!PoolOS O, !FdTable O S, !SocketOps S}.

(** The configuration, and what the network does during a health check. *)
Variable conf : Config.
Variable wait : O -> O.

(** The node of one turn of the loop, before its health is known; [i] is the
    counter of the loop. *)
Definition config_node (i : Z) : NodeInfo :=
  let prefix := "node" +:+ to_string (u64 (i + 1)) in
  mkNodeInfo (getString (prefix +:+ ".id") "" conf) (getString (prefix +:+ ".host") "" conf)
    (getInt (prefix +:+ ".port") 0 conf) false.

Definition with_health (h : bool) (node : NodeInfo) : NodeInfo :=
  mkNodeInfo (ni_id node) (ni_host node) (ni_port node) h.

(** The turn: nodes that are not healthy are not added. *)
Definition load_node (self : string) (i : Z) (router : list NodeInfo) (o : O)
  : option (list NodeInfo * O) :=
  let node := config_node i in
  '(healthy, o1) ← (if String.eqb self (ni_id node) then Some (true, o)
                    else checkNodeHealth wait node o);
  if negb healthy then Some (router, o1)
  else Some ((insertNode (with_health true node) router).2, o1).

(** The loop over [node_count] nodes from [i] on. *)
Fixpoint load_nodes (count : nat) (self : string) (i : Z) (router : list NodeInfo) (o : O)
  : option (list NodeInfo * O) :=
  match count with
  | 0 => Some (router, o)
  | Datatypes.S count' =>
      '(router', o1) ← load_node self i router o;
      load_nodes count' self (u64 (i + 1)) router' o1
  end.

(** [Server()]; [hw] is [hardware_concurrency()], [h0] the uninitialised
    [m_self.healthy]. *)
Definition Server_new (hw : nat) (h0 : bool) (o : O) : option (Server * O) :=
  let port := getInt "server.port" 9000 conf in
  let self := mkNodeInfo (getString "server.id" "" conf) (getString "server.host" "" conf) port h0 in
  let node_count := u64 (getInt "nodes.count" 0 conf) in
  '(router, o1) ← load_nodes (Z.to_nat node_count) (ni_id self) 0 [] o;
  Some (mkServer false (-1) (-1) port self router (ThreadPool_new hw) None, o1).

(** The checks the loop makes: the node, and the process at that point. *)
Fixpoint health_checks (count : nat) (self : string) (i : Z) (o : O) : list (NodeInfo * O) :=
  match count with
  | 0 => []
  | Datatypes.S count' =>
      let node := config_node i in
      if String.eqb self (ni_id node) then health_checks count' self (u64 (i + 1)) o
      else (node, o) ::
        match checkNodeHealth wait node o with
        | Some (_, o1) => health_checks count' self (u64 (i + 1)) o1
        | None => []
        end
  end.
End construction.

(** ** Starting and stopping *)
Section lifecycle.
Context {O : Type} `{!PoolOS O, !ListenOS O} {B : Type} `{!RocksDB B}.

(** [setupSocket()] *)
Definition setupSocket (s : Server) (o : O) : bool * Server * O :=
  let '(listen, o1) := os_socket o in
  let s1 := set_srv_fds listen (srv_epoll_fd s) s in
  if (listen <? 0)%Z then (false, s1, o1)
  else
    let '(bound, o2) := os_bind listen (u16 (srv_port s)) o1 in
    if negb bound then (false, s1, o2)
    else
      let '(listening, o3) := os_listen listen o2 in
      if negb listening then (false, s1, o3)
      else
        let '(epoll, o4) := os_epoll_create o3 in
        let s2 := set_srv_fds listen epoll s in
        if (epoll <? 0)%Z then (false, s2, o4)
        else
          let '(added, o5) := os_epoll_add epoll listen o4 in
          if negb added then (false, s2, os_close epoll o5)
          else (true, s2, o5).

(** The Raft node of [start()]: the other nodes of the router are its peers. *)
Definition other_nodes (s : Server) : list NodeInfo :=
  filter (fun node => ni_id node <> ni_id (srv_self s)) (srv_router s).

Definition raft_of (tm : Timer) (s : Server) : RaftNode :=
  let n := RaftNode_new (ni_id (srv_self s)) (ni_id <$> other_nodes s) tm in
  (RaftNode.start (foldl (fun n node => setPeerAddress (ni_id node) (ni_host node) (ni_port node) n)
    n (other_nodes s))).2.

Definition set_started (n : RaftNode) (s : Server) : Server :=
  mkServer true (srv_listen_fd s) (srv_epoll_fd s) (srv_port s) (srv_self s) (srv_router s)
    (srv_thread_pool s) (Some n).

(** [start()] up to [acceptLoop()]; the exception of [open] leaves it, and nobody catches it.
    The files RocksDB opens are not sockets and are not in the table of descriptors. *)
Definition start_until_accept (tm : Timer) (s : Server) (st : RocksDBStorage B) (o : O)
  : result (bool * Server * RocksDBStorage B * O) :=
  let '(ok, s1, o1) := setupSocket s o in
  if negb ok then Ok (false, s1, st, o1)
  else
    match storage_open ("data/" +:+ ni_id (srv_self s1) +:+ "/rocksdb") st with
    | inl _ => Throw
    | inr (opened, st1) =>
        if negb opened then Ok (false, s1, st1, o1)
        else Ok (true, set_started (raft_of tm s1) s1, st1, o1)
    end.

(** [stop()], which the signal handler and the destructor call. *)
Definition server_stop (s : Server) (o : O) : Server * O :=
  if negb (srv_running s) then (s, o)
  else
    let raft := (fun n => (RaftNode.stop n).2) <$> srv_raft_node s in
    let o1 := if (0 <=? srv_epoll_fd s)%Z then os_close (srv_epoll_fd s) o else o in
    let epoll := if (0 <=? srv_epoll_fd s)%Z then (-1)%Z else srv_epoll_fd s in
    let o2 := if (0 <=? srv_listen_fd s)%Z then os_close (srv_listen_fd s) o1 else o1 in
    let listen := if (0 <=? srv_listen_fd s)%Z then (-1)%Z else srv_listen_fd s in
    (mkServer false listen epoll (srv_port s) (srv_self s) (srv_router s)
       (srv_thread_pool s) raft, o2).

(** [~Server()] *)
Definition Server_destroy (s : Server) (o : O) : Server * O :=
  if srv_running s then server_stop s o else (s, o).

(** [init()] and [isRunning()] *)
Definition server_init : bool := true.
Definition isRunning (s : Server) : bool := srv_running s.

(** [wait()]: whether it returns, by the values of [m_running] its turns read. *)
Fixpoint server_wait (reads : list bool) : bool :=
  match reads with
  | [] => false
  | running :: rest => if running then server_wait rest else true
  end.

(** ** Accepting *)

(** The inner [while (true)]: accept until an error; the clients submitted to
    the pool, and whether the loop was left. *)
Fixpoint accept_pending (fuel : nat) (listen : Z) (o : O) : bool * list Z * O :=
  match fuel with
  | 0 => (false, [], o)
  | Datatypes.S fuel' =>
      match os_accept listen o with
      | (AcceptError _, o1) => (true, [], o1)
      | (Accepted c, o1) =>
          let '(fin, cs, o2) := accept_pending fuel' listen o1 in (fin, c :: cs, o2)
      end
  end.

(** The [for] loop over the events. *)
Fixpoint accept_events (fuel : nat) (listen : Z) (events : list Z) (o : O) : bool * list Z * O :=
  match events with
  | [] => (true, [], o)
  | fd :: events' =>
      if (fd =? listen)%Z then
        let '(fin1, cs1, o1) := accept_pending fuel listen o in
        let '(fin2, cs2, o2) := accept_events fuel listen events' o1 in
        (fin1 && fin2, (cs1 ++ cs2)%list, o2)
      else accept_events fuel listen events' o
  end.

Inductive accept_end := Stopped | EpollFailed | Accepting | OutOfFuel.

(** [acceptLoop()]; [reads] are the values [m_running] has at the turns. *)
Fixpoint acceptLoop (fuel : nat) (reads : list bool) (s : Server) (o : O)
  : accept_end * list Z * O :=
  match reads with
  | [] => (Accepting, [], o)
  | running :: reads' =>
      if negb running then (Stopped, [], o)
      else
        match os_epoll_wait (srv_epoll_fd s) o with
        | (EpollTimeout, o1) | (EpollError true, o1) => acceptLoop fuel reads' s o1
        | (EpollError false, o1) => (EpollFailed, [], o1)
        | (EpollEvents events, o1) =>
            let '(fin, cs1, o2) := accept_events fuel (srv_listen_fd s) events o1 in
            if negb fin then (OutOfFuel, cs1, o2)
            else
              let '(e, cs2, o3) := acceptLoop fuel reads' s o2 in
              (e, (cs1 ++ cs2)%list, o3)
        end
  end.
End lifecycle.

(** ** The router that is built *)
Section router.
Context {O S : Type} `{!PoolOS O, !FdTable O S, !SocketOps S}.
Variable conf : Config.
Variable wait : O -> O.

(** A node of the configuration that is the server itself or passed the check. *)
Definition admitted_node (self : string) (node : NodeInfo) : Prop :=
  ni_healthy node = true /\
  exists i, is_u64 i /\ node = with_health true (config_node conf i) /\
    (ni_id node = self \/
     exists o o', checkNodeHealth wait (config_node conf i) o = Some (true, o')).

Definition router_ok (self : string) (router : list NodeInfo) : Prop :=
  NoDup (ni_id <$> router) /\ Forall (admitted_node self) router.

Lemma insertNode_cases node router :
  (insertNode node router).2 = if known_id (ni_id node) router then router else (router ++ [node])%list.
Proof. unfold insertNode. by destruct (known_id _ _). Qed.

Lemma load_node_ok self i router o router' o' :
  is_u64 i -> router_ok self router -> load_node conf wait self i router o = Some (router', o') ->
  router_ok self router' /\ router `prefix_of` router' /\
  (ni_id (config_node conf i) = self -> self ∈ ni_id <$> router').
Proof.
  intros Hi [Hnd Hall]. unfold load_node. intros ([h o1] & Hh & Hr)%bind_Some.
  destruct h; cbn [negb] in Hr; injection Hr as <- <-.
  - rewrite insertNode_cases. destruct (known_id _ router) eqn:Ek.
    + split_and!; [done..|]. intros <-. by apply known_id_spec in Ek.
    + apply not_true_iff_false in Ek. rewrite known_id_spec in Ek. split_and!.
      * split; [rewrite fmap_app; apply NoDup_app; split_and!; [done| |apply NoDup_singleton]|].
        { intros x Hx ->%list_elem_of_singleton. by apply Ek. }
        apply Forall_app. split; [done|]. apply Forall_singleton. split; [done|].
        exists i. split_and!; [done..|]. simpl. destruct (String.eqb_spec self (ni_id (config_node conf i)));
          [by left|right; by eexists _, _].
      * by exists [with_health true (config_node conf i)].
      * intros <-. rewrite fmap_app. apply elem_of_app. right. apply list_elem_of_here.
  - split_and!; [done..|]. intros E. rewrite E, String.eqb_refl in Hh. done.
Qed.

(** The loop visits the counters from [i] on, modulo 2^64. *)
Fixpoint counters (count : nat) (i : Z) : list Z :=
  match count with
  | 0 => []
  | Datatypes.S count' => i :: counters count' (u64 (i + 1))
  end.

Lemma load_nodes_ok count self i router o router' o' :
  is_u64 i -> router_ok self router -> load_nodes conf wait count self i router o = Some (router', o') ->
  router_ok self router' /\ router `prefix_of` router' /\
  forall k, k ∈ counters count i -> ni_id (config_node conf k) = self -> self ∈ ni_id <$> router'.
Proof.
  revert i router o. induction count as [|count IH]; intros i router o Hi Hok; cbn [load_nodes counters].
  { intros [= <- <-]. split_and!; [done..|]. intros k Hk. by apply elem_of_nil in Hk. }
  intros ([r1 o1] & H1 & H2)%bind_Some.
  destruct (load_node_ok self i router o r1 o1 Hi Hok H1) as (Hok1 & Hp1 & Hin1).
  destruct (IH (u64 (i + 1)) r1 o1 (u64_range _) Hok1 H2) as (Hok2 & Hp2 & Hin2).
  split_and!; [done|by etrans|]. intros k [->|Hk]%elem_of_cons Hself; [|by apply (Hin2 k)].
  destruct Hp2 as [l ->]. rewrite fmap_app, elem_of_app. left. by apply Hin1.
Qed.

Lemma Server_new_router hw h0 o s o' :
  Server_new conf wait hw h0 o = Some (s, o') ->
  router_ok (ni_id (srv_self s)) (srv_router s) /\
  forall i, i ∈ counters (Z.to_nat (u64 (getInt "nodes.count" 0 conf))) 0 ->
    ni_id (config_node conf i) = ni_id (srv_self s) -> ni_id (srv_self s) ∈ ni_id <$> srv_router s.
Proof.
  unfold Server_new. intros ([router o1] & Hr & [= <- <-])%bind_Some. cbn [srv_self srv_router ni_id] in *.
  apply load_nodes_ok in Hr as (Hok & _ & Hin); [done|by unfold is_u64|].
  split; [constructor|constructor].
Qed.
End router.

(** ** The accept loop *)
Section accepting.
Context {O : Type} `{!PoolOS O, !PoolOSLaws O, !ListenOS O, !ListenOSLaws O}.

(** [cs] are new descriptors, and all the new ones. *)
Definition new_clients (o : O) (cs : list Z) (o' : O) : Prop :=
  NoDup cs /\ Forall (fun c => 0 <= c)%Z cs /\ (forall c, c ∈ cs -> c ∉ os_open o) /\
  os_open o' = list_to_set cs ∪ os_open o.

Lemma new_clients_none o o' : os_open o' = os_open o -> new_clients o [] o'.
Proof.
  intros E. split_and!; [constructor|constructor|set_solver|]. rewrite E. set_solver.
Qed.

Lemma new_clients_app o1 cs1 o2 cs2 o3 :
  new_clients o1 cs1 o2 -> new_clients o2 cs2 o3 -> new_clients o1 (cs1 ++ cs2) o3.
Proof.
  intros (N1 & P1 & F1 & E1) (N2 & P2 & F2 & E2). rewrite E1 in F2. split_and!.
  - apply NoDup_app. split_and!; [done| |done]. intros c H1 H2. apply (F2 c H2). set_solver.
  - by apply Forall_app.
  - intros c [H|H]%elem_of_app; [by apply F1|]. specialize (F2 c H). set_solver.
  - rewrite E2, E1, list_to_set_app_L. set_solver.
Qed.

Lemma accept_pending_spec fuel listen o :
  let '(fin, cs, o') := accept_pending fuel listen o in
  new_clients o cs o' /\ (os_backlog listen o < fuel -> fin = true).
Proof.
  revert o. induction fuel as [|fuel IH]; intros o; simpl.
  { split; [by apply new_clients_none|lia]. }
  destruct (os_accept listen o) as [r o1] eqn:E. pose proof (os_accept_open _ _ _ _ E) as Ha.
  destruct r as [c|again]; [|split; [by apply new_clients_none|done]].
  destruct Ha as (Hc & Hnew & Ho & Hlt). specialize (IH o1).
  destruct (accept_pending fuel listen o1) as [[fin cs] o2]. destruct IH as [IH Hfin].
  split; [|intros ?; apply Hfin; lia].
  apply (new_clients_app o [c] o1 cs o2); [|done].
  split_and!; [apply NoDup_singleton|by apply Forall_singleton| |rewrite Ho; set_solver].
  by intros ? ->%list_elem_of_singleton.
Qed.

Lemma accept_events_spec fuel listen events o :
  let '(_, cs, o') := accept_events fuel listen events o in new_clients o cs o'.
Proof.
  revert o. induction events as [|fd events IH]; intros o; simpl; [by apply new_clients_none|].
  destruct (fd =? listen)%Z; [|apply IH].
  pose proof (accept_pending_spec fuel listen o) as H1.
  destruct (accept_pending fuel listen o) as [[fin1 cs1] o1]. specialize (IH o1).
  destruct (accept_events fuel listen events o1) as [[fin2 cs2] o2].
  eapply new_clients_app; [apply H1|done].
Qed.

Lemma acceptLoop_clients fuel reads s o :
  let '(_, cs, o') := acceptLoop fuel reads s o in new_clients o cs o'.
Proof.
  revert o. induction reads as [|running reads IH]; intros o; simpl; [by apply new_clients_none|].
  destruct running; simpl; [|by apply new_clients_none].
  pose proof (os_epoll_wait_open (srv_epoll_fd s) o) as Hw.
  destruct (os_epoll_wait (srv_epoll_fd s) o) as [r o1]. cbn [snd] in Hw.
  assert (new_clients o [] o1) as H1 by by apply new_clients_none.
  assert (let '(_, cs, o') := acceptLoop fuel reads s o1 in new_clients o cs o') as Hgo.
  { specialize (IH o1). destruct (acceptLoop fuel reads s o1) as [[e cs] o'].
    by apply (new_clients_app o [] o1 cs o'). }
  destruct r as [|[|]|events]; [done|done|done|].
  pose proof (accept_events_spec fuel (srv_listen_fd s) events o1) as H2.
  destruct (accept_events fuel (srv_listen_fd s) events o1) as [[fin cs1] o2].
  assert (new_clients o cs1 o2) as H12 by by apply (new_clients_app o [] o1 cs1 o2).
  destruct fin; simpl; [|done]. specialize (IH o2).
  destruct (acceptLoop fuel reads s o2) as [[e cs2] o3]. by eapply new_clients_app.
Qed.
End accepting.

(** ** A server among servers *)

(** Only the server itself is in the router. *)
Definition alone (self : string) (router : list NodeInfo) : Prop :=
  Forall (fun node => ni_id node = self /\ ni_healthy node = true) router.

Section alone.
Context {O S : Type} `{!PoolOS O, !PoolOSLaws O, !FdTable O S, !SocketOps S, !SocketLaws S}.
Context `{!FdTableLaws O S}.
Variable conf : Config.
Variable wait : O -> O.

Lemma load_nodes_alone count self i router (o : O) :
  (forall node o1, (node, o1) ∈ health_checks conf wait count self i o -> framed_answer wait node o1) ->
  alone self router ->
  exists router' o', load_nodes conf wait count self i router o = Some (router', o') /\
    alone self router' /\ (quiet_on ∅ wait -> os_open o' = os_open o).
Proof.
  revert i router o. induction count as [|count IH]; intros i router o Hc Hr.
  { by exists router, o. }
  cbn [load_nodes health_checks] in *. unfold load_node.
  destruct (String.eqb_spec self (ni_id (config_node conf i))) as [Hid|Hid].
  - cbn [mbind option_bind negb]. apply IH; [done|].
    rewrite insertNode_cases. destruct (known_id _ _); [done|].
    by apply Forall_app_2; [|apply Forall_singleton].
  - destruct (checkNodeHealth_framed wait (config_node conf i) o) as [o1 H1].
    { apply Hc. apply list_elem_of_here. }
    rewrite H1 in *. cbn [mbind option_bind negb].
    destruct (IH (u64 (i + 1)) router o1) as (router' & o' & Hl & Ha & Ho); [|done|].
    { intros node o2 Hin. apply Hc. by apply list_elem_of_further. }
    exists router', o'. split_and!; [done..|]. intros Hq. rewrite Ho by done.
    by eapply (checkNodeHealth_frame ∅).
Qed.
End alone.

Lemma alone_singleton self router :
  NoDup (ni_id <$> router) -> alone self router ->
  router = [] \/ exists node, router = [node] /\ ni_id node = self /\ ni_healthy node = true.
Proof.
  intros Hnd Hself. destruct router as [|n1 router]; [by left|right]. exists n1.
  apply Forall_cons in Hself as [[H1 H1'] Hself]. split_and!; [|done|done].
  destruct router as [|n2 router]; [done|exfalso].
  apply Forall_cons in Hself as [[H2 _] _]. rewrite !fmap_cons in Hnd.
  apply NoDup_cons in Hnd as [Hnd _]. apply Hnd. rewrite H1, <- H2. apply list_elem_of_here.
Qed.

Lemma other_nodes_self s :
  Forall (fun node => ni_id node = ni_id (srv_self s)) (srv_router s) -> other_nodes s = [].
Proof.
  unfold other_nodes. induction 1 as [|node l Hn Hl IH]; [done|].
  rewrite filter_cons, decide_False; [done|]. by intros H.
Qed.

(** A node without peers wins its first election by its own vote. *)
Lemma lonely_election {W : Type} `{!RaftTransport W} tm tm' id (w : W) :
  let n := (RaftNode.start (RaftNode_new id [] tm)).2 in
  (m_electionTimeoutMs n <= tm_now tm' - m_lastHeartbeatTime n)%Z ->
  exists n', electionLoop_turn tm' n w = Some (n', w) /\
    m_state n' = Leader /\ m_currentTerm n' = 1%Z /\ m_nodeId n' = id.
Proof.
  intros n Ht. unfold electionLoop_turn.
  replace (m_state n) with Follower by reflexivity. rewrite (proj2 (Z.leb_le _ _) Ht).
  eexists. split; [reflexivity|]. by split_and!.
Qed.

(** A descriptor that a call returned: none when it failed. *)
Definition returned_fd (fd : Z) : gset Z := if (0 <=? fd)%Z then {[ fd ]} else ∅.

(** Who is open after setting up the socket. *)
Lemma setupSocket_open {O : Type} `{!PoolOS O, !PoolOSLaws O, !ListenOS O, !ListenOSLaws O} s (o : O) :
  let '(ok, s', o') := setupSocket s o in
  srv_running s' = srv_running s /\
  if ok then
    (0 <= srv_listen_fd s')%Z /\ (0 <= srv_epoll_fd s')%Z /\
    srv_listen_fd s' <> srv_epoll_fd s' /\
    srv_listen_fd s' ∉ os_open o /\ srv_epoll_fd s' ∉ os_open o /\
    os_open o' = {[ srv_listen_fd s'; srv_epoll_fd s' ]} ∪ os_open o
  else
    srv_listen_fd s' = (os_socket o).1 /\
    os_open o' = returned_fd (os_socket o).1 ∪ os_open o /\ returned_fd (os_socket o).1 ## os_open o.
Proof.
  unfold setupSocket, returned_fd. destruct (os_socket o) as [listen o1] eqn:Es. cbn [fst].
  apply os_socket_open in Es as [[Hl Ho]|(Hl & Hnew & Ho)].
  { rewrite (proj2 (Z.ltb_lt listen 0)), (proj2 (Z.leb_gt 0 listen)) by lia. simpl.
    split_and!; [done|done|set_solver|set_solver]. }
  rewrite (proj2 (Z.ltb_ge listen 0)), (proj2 (Z.leb_le 0 listen)) by lia.
  assert ({[ listen ]} ## os_open o) as Hd by set_solver.
  pose proof (os_bind_open listen (u16 (srv_port s)) o1) as Hb.
  destruct (os_bind listen (u16 (srv_port s)) o1) as [[|] o2]; cbn [snd negb] in *;
    [|simpl; rewrite Hb, Ho; split_and!; done].
  pose proof (os_listen_open listen o2) as Hli.
  destruct (os_listen listen o2) as [[|] o3]; cbn [snd negb] in *; [|simpl; rewrite Hli, Hb, Ho; split_and!; done].
  destruct (os_epoll_create o3) as [epoll o4] eqn:Ee.
  apply os_epoll_create_open in Ee as [[He Ho4]|(He & Hnew4 & Ho4)].
  { rewrite (proj2 (Z.ltb_lt epoll 0)) by lia. simpl. rewrite Ho4, Hli, Hb, Ho. split_and!; done. }
  rewrite (proj2 (Z.ltb_ge epoll 0)) by lia. rewrite Hli, Hb, Ho in Hnew4, Ho4.
  pose proof (os_epoll_add_open epoll listen o4) as Ha.
  destruct (os_epoll_add epoll listen o4) as [[|] o5]; cbn [snd negb] in *; simpl; (split; [done|]).
  - rewrite Ha, Ho4. split_and!; [lia|lia|set_solver|done|set_solver|set_solver].
  - split_and!; [done| |done]. rewrite os_close_open, Ha, Ho4. set_solver.
Qed.

Lemma setupSocket_tasks {O : Type} `{!PoolOS O, !ListenOS O} s (o : O) :
  srv_thread_pool (setupSocket s o).1.2 = srv_thread_pool s.
Proof.
  unfold setupSocket. destruct (os_socket o) as [listen o1]. case_match; [done|].
  destruct (os_bind _ _ o1) as [[] o2]; [|done]. simpl.
  destruct (os_listen listen o2) as [[] o3]; [|done]. simpl.
  destruct (os_epoll_create o3) as [epoll o4]. case_match; [done|].
  by destruct (os_epoll_add epoll listen o4) as [[] o5].
Qed.

Lemma load_nodes_open {O S : Type} `{!PoolOS O, !PoolOSLaws O, !FdTable O S, !SocketOps S}
    `{!FdTableLaws O S} conf (wait : O -> O) count self i router o router' o' :
  quiet_on ∅ wait -> load_nodes conf wait count self i router o = Some (router', o') ->
  os_open o' = os_open o.
Proof.
  intros Hq. revert i router o. induction count as [|count IH]; intros i router o; cbn [load_nodes].
  { intros Hl. by simplify_eq. }
  intros ([r1 o2] & H1 & H2)%bind_Some. rewrite (IH _ _ _ H2). clear IH H2.
  unfold load_node in H1. apply bind_Some in H1 as ([h o3] & Hh & H1).
  assert (o2 = o3) as -> by (destruct h; cbn [negb] in H1; by injection H1).
  destruct (String.eqb self (ni_id (config_node conf i))); [by simplify_eq|].
  by eapply (checkNodeHealth_frame ∅).
Qed.

(** The constructor closes what its health checks open. *)
Lemma Server_new_open {O S : Type} `{!PoolOS O, !PoolOSLaws O, !FdTable O S, !SocketOps S}
    `{!FdTableLaws O S} conf (wait : O -> O) hw h0 o s o' :
  quiet_on ∅ wait -> Server_new conf wait hw h0 o = Some (s, o') ->
  os_open o' = os_open o /\ srv_thread_pool s = ThreadPool_new hw.
Proof.
  intros Hq. unfold Server_new. intros ([router o1] & Hl & [= <- <-])%bind_Some. split; [|done].
  by eapply load_nodes_open.
Qed.

(** ** The properties *)

(** The router a server starts with: ids are distinct and every node is one of
    the configured ones, marked healthy, and either the server itself or a node
    that passed the health check; and the server itself is in it when the
    configuration lists its id among the [nodes.count] nodes. *)
Theorem constructed_router {O S : Type} `{!PoolOS O, !FdTable O S, !SocketOps S}
    conf (wait : O -> O) hw h0 o s o' :
  Server_new conf wait hw h0 o = Some (s, o') ->
  NoDup (ni_id <$> srv_router s) /\
  Forall (admitted_node conf wait (ni_id (srv_self s))) (srv_router s) /\
  (forall i, i ∈ counters (Z.to_nat (u64 (getInt "nodes.count" 0 conf))) 0 ->
     ni_id (config_node conf i) = ni_id (srv_self s) ->
     ni_id (srv_self s) ∈ ni_id <$> srv_router s).
Proof. intros [[Hnd Hall] Hin]%Server_new_router. done. Qed.

(** C28. A server that cannot see the others: when the nodes that its
    constructor checks give no answer but messages of the protocol (servers of this program
    give none at all, [Health.health_check_cannot_pass]), the construction
    succeeds and leaves no descriptor open; the server's Raft node has no peers
    and becomes leader of term 1 at its first election without asking anyone;
    and if the configuration lists the server, it takes itself for the owner of every key. *)
Theorem isolated_server {O S : Type} `{!PoolOS O, !PoolOSLaws O, !FdTable O S, !SocketOps S}
    `{!SocketLaws S, !FdTableLaws O S} conf (wait : O -> O) hw h0 (o : O) :
  let count := Z.to_nat (u64 (getInt "nodes.count" 0 conf)) in
  let self := getString "server.id" "" conf in
  (forall node o1, (node, o1) ∈ health_checks conf wait count self 0 o -> framed_answer wait node o1) ->
  exists s o', Server_new conf wait hw h0 o = Some (s, o') /\
    (quiet_on ∅ wait -> os_open o' = os_open o) /\
    (forall tm tm' (W : Type) (T : RaftTransport W) (w : W),
       m_peers (raft_of tm s) = [] /\
       ((m_electionTimeoutMs (raft_of tm s) <= tm_now tm' - m_lastHeartbeatTime (raft_of tm s))%Z ->
        exists n', electionLoop_turn tm' (raft_of tm s) w = Some (n', w) /\
          m_state n' = Leader /\ m_currentTerm n' = 1%Z)) /\
    (forall i hash key, i ∈ counters count 0 -> ni_id (config_node conf i) = self ->
       exists node, pickNode hash (srv_router s) key = Some node /\ ni_id node = self).
Proof.
  intros count self Hc.
  destruct (load_nodes_alone conf wait count self 0 [] o Hc) as (router & o' & Hl & Ha & Ho).
  { apply Forall_nil_2. }
  set (s := mkServer false (-1) (-1) (getInt "server.port" 9000 conf)
    (mkNodeInfo self (getString "server.host" "" conf) (getInt "server.port" 9000 conf) h0)
    router (ThreadPool_new hw) None).
  assert (Server_new conf wait hw h0 o = Some (s, o')) as Hnew.
  { unfold Server_new. fold count self. cbn [ni_id]. rewrite Hl. reflexivity. }
  exists s, o'. split; [exact Hnew|]. split; [exact Ho|].
  apply Server_new_router in Hnew as [[Hnd _] Hin]. split.
  - intros tm tm' W T w. unfold raft_of. rewrite other_nodes_self.
    2: { eapply Forall_impl; [exact Ha|]. by intros node [Hid _]. }
    split; [done|]. intros Ht. destruct (lonely_election tm tm' self w Ht) as (n' & ? & ? & ? & _). eauto.
  - intros i hash key Hi Hself. specialize (Hin i Hi Hself).
    destruct (alone_singleton _ _ Hnd Ha) as [Hr|(node & Hr & Hid & Hhe)]; cbn [srv_router s] in *.
    + rewrite Hr in Hin. by apply elem_of_nil in Hin.
    + exists node. rewrite Hr. split; [|done].
      unfold pickNode, pick_turn, isNodeHealthy. simpl. by rewrite Hhe.
Qed.

(** C29. Descriptors from start to stop: a start that gets to accepting has opened two
    descriptors that were not open before, [stop] closes exactly these, the destructor as
    well, and a second [stop] does nothing.  A start that fails in [setupSocket] leaves the
    descriptor [socket] has returned open for good, whichever of [bind], [listen] and the
    epoll calls failed, and nothing else (nothing at all if [socket] itself failed): the server
    is not running, so neither [stop] nor the destructor closes anything. *)
Theorem start_stop_descriptors {O : Type} `{!PoolOS O, !PoolOSLaws O, !ListenOS O, !ListenOSLaws O}
    {B : Type} `{!RocksDB B} tm s (st : RocksDBStorage B) (o : O) ok s' st' o' :
  srv_running s = false -> start_until_accept tm s st o = Ok (ok, s', st', o') ->
  if ok then
    srv_running s' = true /\
    srv_listen_fd s' ∉ os_open o /\ srv_epoll_fd s' ∉ os_open o /\
    srv_listen_fd s' <> srv_epoll_fd s' /\
    os_open o' = {[ srv_listen_fd s'; srv_epoll_fd s' ]} ∪ os_open o /\
    os_open (server_stop s' o').2 = os_open o /\
    Server_destroy s' o' = server_stop s' o' /\
    server_stop (server_stop s' o').1 (server_stop s' o').2 = server_stop s' o'
  else
    let listen := (os_socket o).1 in
    srv_listen_fd s' = listen /\
    os_open o' = (if (0 <=? listen)%Z then {[ listen ]} else ∅) ∪ os_open o /\
    ((0 <= listen)%Z -> listen ∉ os_open o) /\
    server_stop s' o' = (s', o') /\ Server_destroy s' o' = (s', o').
Proof.
  intros Hrun. unfold start_until_accept. pose proof (setupSocket_open s o) as Hs.
  destruct (setupSocket s o) as [[ok1 s1] o1]. destruct Hs as [Hr Hs].
  destruct ok1; cbn [negb].
  - destruct (storage_open _ st) as [e|[[|] st1]] eqn:Eo; cbn [negb]; [done| |].
    + intros [= <- <- <- <-]. destruct Hs as (Hl & He & Hne & Hnl & Hnee & Ho).
      unfold Server_destroy, server_stop. simpl.
      rewrite (proj2 (Z.leb_le 0 (srv_listen_fd s1))) by lia.
      rewrite (proj2 (Z.leb_le 0 (srv_epoll_fd s1))) by lia. simpl.
      split_and!; [done|done|done|done|done| |done|done]. rewrite !os_close_open, Ho. set_solver.
    + unfold storage_open in Eo. by destruct (rdb_open _).
  - intros [= <- <- <- <-]. unfold Server_destroy, server_stop. rewrite Hr, Hrun. simpl.
    destruct Hs as (Hl & Ho & Hd). split_and!; [done|done| |done|done].
    intros H0. unfold returned_fd in Hd. rewrite (proj2 (Z.leb_le 0 _)) in Hd by done. set_solver.
Qed.

(** C30. The accept loop loses no client: however it ends, the descriptors it has
    submitted to the thread pool are distinct, were not open before, and are all
    that the loop has opened; and the inner loop ends after at most one turn more than
    there are connections waiting. *)
Theorem accepted_clients_submitted {O : Type} `{!PoolOS O, !PoolOSLaws O, !ListenOS O, !ListenOSLaws O}
    fuel reads s (o : O) :
  (let '(_, cs, o') := acceptLoop fuel reads s o in
   NoDup cs /\ (forall c, c ∈ cs -> (0 <= c)%Z /\ c ∉ os_open o) /\
   os_open o' = list_to_set cs ∪ os_open o) /\
  forall listen (o1 : O), os_backlog listen o1 < fuel ->
    (accept_pending fuel listen o1).1.1 = true.
Proof.
  split.
  - pose proof (acceptLoop_clients fuel reads s o) as Hc.
    destruct (acceptLoop fuel reads s o) as [[e cs] o']. destruct Hc as (H1 & H2 & H3 & H4).
    split_and!; [done| |done]. intros c Hin. split; [|by apply H3].
    rewrite Forall_forall in H2. by apply H2.
  - intros listen o1 Hb. pose proof (accept_pending_spec fuel listen o1) as Hp.
    destruct (accept_pending fuel listen o1) as [[fin cs] o2]. by apply Hp.
Qed.

(** The Raft node is made anew at every start: its addresses are set, and nothing else. *)
Lemma raft_of_fresh tm s :
  m_currentTerm (raft_of tm s) = 0%Z /\ m_votedFor (raft_of tm s) = "" /\
  m_logs (raft_of tm s) = [dummy_entry].
Proof.
  unfold raft_of. set (l := other_nodes s). generalize (ni_id <$> l) as peers. intros peers.
  set (n := RaftNode_new _ _ _).
  assert (m_currentTerm n = 0%Z /\ m_votedFor n = "" /\ m_logs n = [dummy_entry] /\
    m_running n = false) as Hn by done.
  clearbody n. clearbody l. revert n Hn. induction l as [|node l IH]; intros n Hn; simpl.
  - unfold RaftNode.start. destruct Hn as (? & ? & ? & ->). done.
  - apply IH. by destruct n.
Qed.

(** A restart forgets the vote: the term, the vote and the log are in memory only, so a
    server that has just started grants any candidate of a positive term its
    vote, also in a term in which it voted for another one before. *)
Theorem restarted_server_votes_again tm tm' s a :
  (0 < rv_term a)%Z -> (0 <= rv_lastLogTerm a)%Z -> (0 <= rv_lastLogIndex a)%Z ->
  exists n', handleRequestVote tm' a (raft_of tm s) = Some (mkRequestVoteReply (rv_term a) true, n') /\
    m_votedFor n' = rv_candidateId a.
Proof.
  intros Ht Hlt Hli. destruct (raft_of_fresh tm s) as (H1 & H2 & H3). unfold handleRequestVote.
  rewrite H1, (proj2 (Z.ltb_ge _ _)) by lia. rewrite (proj2 (Z.ltb_lt _ _)) by lia.
  cbn -[Z.ltb Z.leb Z.eqb vec_at vec_size]. rewrite H3.
  eexists. cbn -[Z.ltb Z.leb Z.eqb]. 
  destruct (rv_lastLogTerm a) eqn:E; try lia; cbn; [|done].
  rewrite (proj2 (Z.leb_le _ _)) by lia. done.
Qed.

(** ** The two configurations of the repository

    src/config/server_8080.conf and src/config/server_8081.conf, without the
    blank lines. *)
Definition conf_8080 : string :=
"# config/server.conf
server.port = 8080
server.id = node1
server.host = 127.0.0.1
log.level = info
log.file = ./logs/server.log
nodes.count = 2
node1.id = node1
node1.host = 127.0.0.1
node1.port = 8080
node2.id = node2
node2.host = 127.0.0.1
node2.port = 8081
".

Definition conf_8081 : string :=
"# config/server.conf
server.port = 8081
server.id = node2
server.host = 127.0.0.1
log.level = info
log.file = ./logs/server_2.log
nodes.count = 2
node1.id = node1
node1.host = 127.0.0.1
node1.port = 8080
node2.id = node2
node2.host = 127.0.0.1
node2.port = 8081
".

(** The other server accepts the connection of the health check and, finding an
    over-long length, closes it without a word. *)
Definition beside_peer : process := mkProcess ∅ [Some (mkStream [] true [] 4096)] 0.

Definition deployed (file : string) : option Server :=
  fst <$> Server_new (loadFromFile (Some file) ∅).2 id 8 false beside_peer.

(** The repository's own two-node deployment: started from its two configuration
    files, each server has only itself in the router and no peer, and after their first
    election timeouts both are leaders of term 1. *)
Theorem deployed_servers_both_lead {W : Type} `{!RaftTransport W} tm tm' (w : W) :
  (tm_draw tm <= tm_now tm' - tm_now tm)%Z ->
  exists s1 s2 n1 n2,
    deployed conf_8080 = Some s1 /\ deployed conf_8081 = Some s2 /\
    ni_id <$> srv_router s1 = ["node1"] /\ ni_id <$> srv_router s2 = ["node2"] /\
    electionLoop_turn tm' (raft_of tm s1) w = Some (n1, w) /\
    electionLoop_turn tm' (raft_of tm s2) w = Some (n2, w) /\
    m_nodeId n1 = "node1" /\ m_nodeId n2 = "node2" /\
    m_state n1 = Leader /\ m_state n2 = Leader /\
    m_currentTerm n1 = 1%Z /\ m_currentTerm n2 = 1%Z.
Proof.
  intros Ht.
  destruct (deployed conf_8080) as [s1|] eqn:E1; [|vm_compute in E1; discriminate].
  destruct (deployed conf_8081) as [s2|] eqn:E2; [|vm_compute in E2; discriminate].
  assert (srv_router s1 = [mkNodeInfo "node1" "127.0.0.1" 8080 true] /\
    ni_id (srv_self s1) = "node1") as [Hr1 Hi1] by (vm_compute in E1; by injection E1 as <-).
  assert (srv_router s2 = [mkNodeInfo "node2" "127.0.0.1" 8081 true] /\
    ni_id (srv_self s2) = "node2") as [Hr2 Hi2] by (vm_compute in E2; by injection E2 as <-).
  assert (raft_of tm s1 = (RaftNode.start (RaftNode_new "node1" [] tm)).2) as Hn1
    by (unfold raft_of, other_nodes; by rewrite Hr1, Hi1).
  assert (raft_of tm s2 = (RaftNode.start (RaftNode_new "node2" [] tm)).2) as Hn2
    by (unfold raft_of, other_nodes; by rewrite Hr2, Hi2).
  destruct (lonely_election tm tm' "node1" w Ht) as (n1 & H1 & ? & ? & Hv1).
  destruct (lonely_election tm tm' "node2" w Ht) as (n2 & H2 & ? & ? & Hv2).
  exists s1, s2, n1, n2. rewrite Hr1, Hr2, Hn1, Hn2. by split_and!.
Qed.

(** ** Witnesses *)
Module Witness.
Import Storage.Memory.

(** Clients wait in the list of connections of the process; the listening
    descriptor is reported while there are any. *)
#[export] Instance process_listen : ListenOS process := {|
  os_bind _ _ o := (true, o);
  os_listen _ o := (true, o);
  os_epoll_create := os_socket;
  os_epoll_add _ _ o := (true, o);
  os_epoll_wait _ o :=
    (match ps_connects o with [] => EpollTimeout | _ => EpollEvents (elements (ps_open o)) end, o);
  os_accept _ o :=
    match ps_connects o with
    | Some s :: rest =>
        (Accepted (new_fd (ps_open o)),
         mkProcess (<[new_fd (ps_open o) := s]> (ps_streams o)) rest (ps_now o))
    | None :: rest => (AcceptError false, mkProcess (ps_streams o) rest (ps_now o))
    | [] => (AcceptError true, o)
    end;
|}.

#[export] Instance process_listen_laws : ListenOSLaws process.
Proof.
  refine {| os_backlog _ o := length (ps_connects o) |}; try done.
  - intros o fd o' H. by apply (os_socket_open o).
  - intros fd o r o'. simpl. destruct (ps_connects o) as [|[s|] rest]; intros [= <- <-]; [done| |done].
    split_and!; [apply new_fd_nonneg| | |simpl; lia].
    + intros H%new_fd_above. lia.
    + unfold ps_open. simpl. by rewrite dom_insert_L.
Defined.

Definition first_timer : Timer := mkTimer 0 200.
Definition later_timer : Timer := mkTimer 250 180.

#[export] Instance no_transport : RaftTransport unit := {|
  rpc_request_vote _ _ _ _ w := (None, w);
  rpc_append_entries _ _ _ _ w := (None, w);
|}.

Lemma constructed_router_witness :
  exists s o', Server_new (loadFromFile (Some conf_8080) ∅).2 id 8 false beside_peer = Some (s, o') /\
    NoDup (ni_id <$> srv_router s).
Proof.
  destruct (Server_new (loadFromFile (Some conf_8080) ∅).2 id 8 false beside_peer) as [[s o']|] eqn:E;
    [|vm_compute in E; discriminate E].
  exists s, o'. split; [reflexivity|].
  apply (constructed_router (loadFromFile (Some conf_8080) ∅).2 id 8 false beside_peer s o' E).
Defined.

(** The check of the other node: what is connected is its silent, closed end. *)
Lemma beside_peer_framed node o1 :
  (node, o1) ∈ health_checks (loadFromFile (Some conf_8080) ∅).2 id 2 "node1" 0 beside_peer ->
  framed_answer id node o1.
Proof.
  replace (health_checks _ id 2 "node1" 0 beside_peer)
    with [(mkNodeInfo "node2" "127.0.0.1" 8081 false, beside_peer)] by (vm_compute; reflexivity).
  intros [= -> ->]%list_elem_of_singleton. exact Health.Witness.asking_framed.
Qed.

Lemma isolated_server_witness :
  exists s o', Server_new (loadFromFile (Some conf_8080) ∅).2 id 8 false beside_peer = Some (s, o') /\
    os_open o' = ∅ /\ m_peers (raft_of first_timer s) = [].
Proof.
  destruct (isolated_server (loadFromFile (Some conf_8080) ∅).2 id 8 false beside_peer)
    as (s & o' & Hnew & Ho & Hr & _).
  - replace (Z.to_nat (u64 (getInt "nodes.count" 0 (loadFromFile (Some conf_8080) ∅).2))) with 2
      by (vm_compute; reflexivity).
    replace (getString "server.id" "" (loadFromFile (Some conf_8080) ∅).2) with "node1"
      by (vm_compute; reflexivity).
    exact beside_peer_framed.
  - exists s, o'. split; [exact Hnew|]. split.
    + rewrite Ho; [vm_compute; reflexivity|]. intros o. apply kept_refl.
    + apply (Hr first_timer later_timer unit no_transport tt).
Defined.

(** A server of no configuration. *)
Definition idle_server : Server :=
  mkServer false (-1) (-1) 8080 (mkNodeInfo "node1" "127.0.0.1" 8080 true) [] (ThreadPool_new 8) None.

Definition three_open : process :=
  mkProcess {[ 0%Z := idle_stream; 1%Z := idle_stream; 2%Z := idle_stream ]}
    [Some idle_stream; Some idle_stream] 0.

(** The port is taken: [bind] fails. *)
Definition port_taken : ListenOS process := {|
  os_bind _ _ o := (false, o);
  os_listen := os_listen;
  os_epoll_create := os_epoll_create;
  os_epoll_add := os_epoll_add;
  os_epoll_wait := os_epoll_wait;
  os_accept := os_accept;
|}.

Lemma port_taken_laws : @ListenOSLaws process process_ops process_laws port_taken.
Proof.
  pose (L := process_listen_laws).
  exact (@Build_ListenOSLaws process process_ops process_laws port_taken
    (fun _ _ _ => eq_refl) (@os_listen_open _ _ _ _ L) (@os_epoll_create_open _ _ _ _ L)
    (@os_epoll_add_open _ _ _ _ L) (@os_epoll_wait_open _ _ _ _ L) (@os_backlog _ _ _ _ L)
    (@os_accept_open _ _ _ _ L)).
Defined.

(** A start that gets to accepting, and one that does not. *)
Lemma start_stop_descriptors_witness :
  (exists s' st' o',
    start_until_accept first_timer idle_server (RocksDBStorage_new (B := mem_db)) three_open
    = Ok (true, s', st', o') /\ os_open (server_stop s' o').2 = os_open three_open) /\
  (exists s' st' o',
    @start_until_accept process process_ops port_taken mem_db mem_rocksdb
      first_timer idle_server (RocksDBStorage_new (B := mem_db)) three_open
    = Ok (false, s', st', o') /\ os_open (Server_destroy s' o').2 = {[ 3%Z ]} ∪ os_open three_open).
Proof.
  split.
  - destruct (start_until_accept first_timer idle_server (RocksDBStorage_new (B := mem_db)) three_open)
      as [[[[ok s'] st'] o']| |] eqn:E; [|discriminate E|discriminate E].
    pose proof (start_stop_descriptors first_timer idle_server (RocksDBStorage_new (B := mem_db))
      three_open ok s' st' o' eq_refl E) as H.
    assert (ok = true) as -> by (cbn in E; injection E; intros; subst; reflexivity).
    exists s', st', o'. split; [reflexivity|]. apply H.
  - destruct (@start_until_accept process process_ops port_taken mem_db mem_rocksdb
      first_timer idle_server (RocksDBStorage_new (B := mem_db)) three_open)
      as [[[[ok s'] st'] o']| |] eqn:E; [|discriminate E|discriminate E].
    pose proof (@start_stop_descriptors process process_ops process_laws port_taken port_taken_laws
      mem_db mem_rocksdb first_timer idle_server (RocksDBStorage_new (B := mem_db))
      three_open ok s' st' o' eq_refl E) as H.
    assert (ok = false) as -> by (cbn in E; injection E; intros; subst; reflexivity).
    destruct H as (_ & Ho & _ & _ & Hd). exists s', st', o'. split; [reflexivity|].
    rewrite Hd. exact Ho.
Defined.

Lemma accepted_clients_submitted_witness :
  acceptLoop 3 [true; true; false] (set_srv_fds 2 9 idle_server) three_open
  = (Stopped, [3; 4]%Z,
     mkProcess (<[4%Z := idle_stream]> (<[3%Z := idle_stream]> (ps_streams three_open))) [] 0) /\
  NoDup [3; 4]%Z.
Proof.
  assert (acceptLoop 3 [true; true; false] (set_srv_fds 2 9 idle_server) three_open
    = (Stopped, [3; 4]%Z,
       mkProcess (<[4%Z := idle_stream]> (<[3%Z := idle_stream]> (ps_streams three_open))) [] 0))
    as E by (vm_compute; reflexivity).
  split; [exact E|].
  pose proof (proj1 (accepted_clients_submitted 3 [true; true; false]
    (set_srv_fds 2 9 idle_server) three_open)) as H.
  rewrite E in H. apply H.
Defined.

Lemma restarted_server_votes_again_witness :
  exists n', handleRequestVote later_timer (mkRequestVoteArgs 7 "node3" 4 6)
      (raft_of first_timer idle_server) = Some (mkRequestVoteReply 7 true, n') /\
    m_votedFor n' = "node3".
Proof.
  apply (restarted_server_votes_again first_timer later_timer idle_server
    (mkRequestVoteArgs 7 "node3" 4 6)); simpl; lia.
Defined.

Lemma deployed_servers_both_lead_witness :
  exists s1 s2, deployed conf_8080 = Some s1 /\ deployed conf_8081 = Some s2 /\
    exists n1 n2, electionLoop_turn later_timer (raft_of first_timer s1) tt = Some (n1, tt) /\
      electionLoop_turn later_timer (raft_of first_timer s2) tt = Some (n2, tt) /\
      m_state n1 = Leader /\ m_state n2 = Leader.
Proof.
  destruct (deployed_servers_both_lead first_timer later_timer tt)
    as (s1 & s2 & n1 & n2 & H1 & H2 & _ & _ & H3 & H4 & _ & _ & H5 & H6 & _);
    [simpl; lia|].
  exists s1, s2. split; [exact H1|split; [exact H2|]]. exists n1, n2.
  split; [exact H3|split; [exact H4|split; [exact H5|exact H6]]].
Defined.
End Witness.
