(* ===== verification/System.v ===== *)
(** * The running server

    All threads of a server over one process: the accept loop of the main thread and
    [stop] (src/server/Server.cpp), the workers with the sessions they run
    (src/common/thread/ThreadPool.cpp, src/server/Connection.cpp), the
    two threads of the Raft node and the users of its connection pool
    (src/raft/RaftNode.cpp, RaftConnectionPool.cpp).  A step is one event of the
    thread pool, one message of a session, one operation on the connection pool,
    one use of a borrowed connection, one turn of a Raft thread, one accept, a stop, or
    activity of the network; steps of different threads interleave freely. *)
From S2P Require Import Prelude Socket Text Protocol Router ConnPool Descriptors ThreadPool.
From S2P Require Import Config Json JsonText RaftTypes RaftNode Storage RaftRpc Connection Session.
From S2P Require Import Health Server.
Local Open Scope string_scope.

Record system (O B : Type) := mkSystem {
  sys_srv : Server;
  sys_conns : RaftConnectionPool;
  sys_lent : gmap Z string;          (* the connections the Raft threads have borrowed *)
  sys_db : B;
  sys_data : gmap nat (list byte);   (* [data] of the session each worker runs *)
  sys_accepted : list Z;             (* history: the clients accepted, in order *)
  sys_os : O;
}.
Arguments mkSystem {O B}.
Arguments sys_srv {O B}.
Arguments sys_conns {O B}.
Arguments sys_lent {O B}.
Arguments sys_db {O B}.
Arguments sys_data {O B}.
Arguments sys_accepted {O B}.
Arguments sys_os {O B}.

Definition set_tasks (tp : ThreadPool Z) (s : Server) : Server :=
  mkServer (srv_running s) (srv_listen_fd s) (srv_epoll_fd s) (srv_port s) (srv_self s)
    (srv_router s) tp (srv_raft_node s).

Definition set_raft (n : option RaftNode) (s : Server) : Server :=
  mkServer (srv_running s) (srv_listen_fd s) (srv_epoll_fd s) (srv_port s) (srv_self s)
    (srv_router s) (srv_thread_pool s) n.

Section system.
Context `{!Floats, !JsonText} {B : Type} `{!RocksDB B}.
Context {O S : Type} `{!PoolOS O, !PoolOSLaws O, !FdTable O S, !SocketOps S, !SocketLaws S}.
Context `{!ListenOS O}.
Variable hash : string -> Z.
Implicit Types y : system O B.

Definition tasks y : ThreadPool Z := srv_thread_pool (sys_srv y).

(** The clients that are accepted and whose session has not ended. *)
Definition clients y : list Z := in_flight (tasks y).

Definition put_tasks (tp : ThreadPool Z) y : system O B :=
  mkSystem (set_tasks tp (sys_srv y)) (sys_conns y) (sys_lent y) (sys_db y) (sys_data y)
    (sys_accepted y) (sys_os y).

Definition put_os (o : O) y : system O B :=
  mkSystem (sys_srv y) (sys_conns y) (sys_lent y) (sys_db y) (sys_data y) (sys_accepted y) o.

Definition put_data (i : nat) (data : list byte) y : system O B :=
  mkSystem (sys_srv y) (sys_conns y) (sys_lent y) (sys_db y) (<[i := data]> (sys_data y))
    (sys_accepted y) (sys_os y).

Definition put_accepted (c : Z) y : system O B :=
  mkSystem (sys_srv y) (sys_conns y) (sys_lent y) (sys_db y) (sys_data y)
    (sys_accepted y ++ [c])%list (sys_os y).

Definition put_conns (w : pool_world O) y : system O B :=
  mkSystem (sys_srv y) (pw_pool w) (pw_lent w) (sys_db y) (sys_data y) (sys_accepted y) (pw_os w).

(** What sessions share, and the state they leave. *)
Definition shared y : server_state B := mkServerState (sys_db y) (srv_raft_node (sys_srv y)).

Definition put_shared (st : server_state B) y : system O B :=
  mkSystem (set_raft (sv_raft st) (sys_srv y)) (sys_conns y) (sys_lent y) (sv_db st) (sys_data y)
    (sys_accepted y) (sys_os y).

Definition conn_world y : pool_world O := mkPoolWorld (sys_conns y) (sys_lent y) (sys_os y).

(** The read with which a round of the session of worker [i] begins. *)
Definition session_read (i : nat) (c : Z) y : bool * list byte * O :=
  fd_recvMessage c (default [] (sys_data y !! i)) (sys_os y).

Definition session_message (t : turn B O) (msg : string) y (o : O) : result (handled (B := B) (O := O)) :=
  handle_message hash (srv_router (sys_srv y)) (ni_id (srv_self (sys_srv y))) t msg (shared y) o.

(** A use of a borrowed connection: [Protocol::sendMessage], or [Protocol::recvMessage] into
    an empty vector. *)
Inductive conn_use := Sends (data : list byte) | Receives.

Definition use_connection (fd : Z) (u : conn_use) (o : O) : O :=
  match u with
  | Sends data => (fd_sendMessage fd data o).2
  | Receives => (fd_recvMessage fd [] o).2
  end.

(** Who takes a step, and for the connection pool and its users which. *)
Inductive actor :=
  | Network | MainThread | TaskPool | SessionOf (i : nat) | ConnectionPool (ev : pool_event)
  | ConnectionUser (fd : Z) (u : conn_use) | RaftThread | Stopper.

#[export] Instance session_of_dec i (a : actor) : Decision (a = SessionOf i).
Proof.
  destruct a as [| | |j| | | |]; try (right; discriminate).
  destruct (decide (j = i)) as [->|Hne]; [by left|right]. intros [= E]. by apply Hne.
Defined.

Inductive sys_step : actor -> system O B -> system O B -> Prop :=
  (** The network: bytes arrive, peers close; nothing is opened, closed or sent. *)
  | step_network y o' :
      network_moves (sys_os y) o' -> sys_step Network y (put_os o' y)
  (** The main thread, in [acceptLoop], accepts a client and enters [submit]; it
      is the only submitter, and the pool is not being destroyed. *)
  | step_accept y c o' tp :
      m_stopping (tasks y) = false -> tp_pushing (tasks y) = [] -> tp_notifying (tasks y) = 0 ->
      os_accept (srv_listen_fd (sys_srv y)) (sys_os y) = (Accepted c, o') ->
      tp_step (SubmitTest c) (tasks y) = Some tp ->
      sys_step MainThread y (put_accepted c (put_tasks tp (put_os o' y)))
  (** The thread pool, up to the start of a task ... *)
  | step_tasks y ev tp :
      moves_tasks ev = true -> tp_step ev (tasks y) = Some tp ->
      sys_step TaskPool y
        (put_tasks tp (match ev with Take i => put_data i [] y | _ => y end))
  (** ... the rounds of its session (what arrives for clients meanwhile is a step of
      the network before or after) ... *)
  | step_round y i c t data o1 replies st o2 :
      tp_workers (tasks y) !! i = Some (Running c) ->
      quiet_on (list_to_set (clients y)) (tn_relay t) ->
      (forall o, network_moves o (tn_relay t o)) ->
      session_read i c y = (true, data, o1) ->
      session_message t (text data) y o1 = Ok (replies, (st, o2)) ->
      sys_step (SessionOf i) y
        (put_shared st (put_data i data (put_os (send_replies c replies o2) y)))
  (** ... and its end: a read that fails, or an exception; the destructor closes. *)
  | step_end y i c data o1 tp :
      tp_workers (tasks y) !! i = Some (Running c) ->
      session_read i c y = (false, data, o1) ->
      tp_step (Finish i false) (tasks y) = Some tp ->
      sys_step (SessionOf i) y (put_tasks tp (put_os (os_close c o1) y))
  | step_threw y i c t data o1 tp :
      tp_workers (tasks y) !! i = Some (Running c) ->
      session_read i c y = (true, data, o1) ->
      session_message t (text data) y o1 = Throw ->
      tp_step (Finish i true) (tasks y) = Some tp ->
      sys_step (SessionOf i) y (put_tasks tp (put_os (os_close c o1) y))
  (** The connection pool: its users and its own thread. *)
  | step_conns y ev :
      pool_event_ok ev (conn_world y) ->
      sys_step (ConnectionPool ev) y (put_conns (pool_step ev (conn_world y)) y)
  (** A borrowed connection is sent on or read from. *)
  | step_use y fd peer u :
      sys_lent y !! fd = Some peer ->
      sys_step (ConnectionUser fd u) y (put_os (use_connection fd u (sys_os y)) y)
  (** A turn of a Raft thread: the node and the store. *)
  | step_election y n n' tm (W : Type) (T : RaftTransport W) (w w' : W) :
      srv_raft_node (sys_srv y) = Some n -> m_running n = true ->
      electionLoop_turn tm n w = Some (n', w') ->
      sys_step RaftThread y (put_shared (mkServerState (sys_db y) (Some n')) y)
  | step_heartbeats y n n' db' (W : Type) (T : RaftTransport W) (w w' : W) :
      srv_raft_node (sys_srv y) = Some n -> m_running n = true ->
      heartbeatLoop_turn n (sys_db y) w = Some (n', db', w') ->
      sys_step RaftThread y (put_shared (mkServerState db' (Some n')) y)
  (** [stop]: the Raft threads have been joined, so no connection is borrowed; the
      connection pool is stopped, then the server's descriptors are closed. *)
  | step_stop y order s' o' :
      sys_lent y = ∅ -> srv_running (sys_srv y) = true -> order_ok order (sys_conns y) ->
      server_stop (sys_srv y) (pool_stop order (sys_conns y) (sys_os y)).2 = (s', o') ->
      sys_step Stopper y
        (mkSystem s' (pool_stop order (sys_conns y) (sys_os y)).1 ∅ (sys_db y) (sys_data y)
        (sys_accepted y) o').

(** A server that has just started: constructed from a configuration and up to
    its accept loop, in a process with the descriptors [base]. *)
Inductive sys_reach (hw : nat) (base : gset Z) : system O B -> Prop :=
  | sys_init conf wait h0 o0 s0 o1 tm s1 st1 o2 db :
      os_open o0 = base -> quiet_on ∅ wait ->
      Server_new conf wait hw h0 o0 = Some (s0, o1) ->
      start_until_accept tm s0 RocksDBStorage_new o1 = Ok (true, s1, st1, o2) ->
      m_db st1 = Some db ->
      sys_reach hw base (mkSystem s1 (pool_start RaftConnectionPool_new) ∅ db ∅ [] o2)
  | sys_next a y y' : sys_reach hw base y -> sys_step a y y' -> sys_reach hw base y'.

(** A run, with who took its steps. *)
Inductive sys_path : system O B -> list actor -> system O B -> Prop :=
  | path_nil y : sys_path y [] y
  | path_cons a y y1 l y' : sys_step a y y1 -> sys_path y1 l y' -> sys_path y (a :: l) y'.

Lemma path_app y l1 y1 l2 y' :
  sys_path y l1 y1 -> sys_path y1 l2 y' -> sys_path y (l1 ++ l2)%list y'.
Proof. intros Hp Hq. induction Hp as [y|a y y0 l y1 Hs _ IH]; [done|]. eapply path_cons; eauto. Qed.

Lemma path_one a y y' : sys_step a y y' -> sys_path y [a] y'.
Proof. intros Hs. eapply path_cons; [exact Hs|apply path_nil]. Qed.

Lemma path_reach hw base y l y' : sys_reach hw base y -> sys_path y l y' -> sys_reach hw base y'.
Proof. intros Hr Hp. induction Hp as [y|a y y1 l y' Hs _ IH]; [done|]. by apply IH, (sys_next _ _ a y). Qed.
End system.

Lemma use_connection_but {O S : Type} `{!PoolOS O, !PoolOSLaws O, !FdTable O S, !SocketOps S,
    !FdTableLaws O S} fd u (o : O) : same_but fd o (use_connection fd u o).
Proof. destruct u; [apply fd_sendMessage_but|apply fd_recvMessage_but]. Qed.

(** ** Descriptors and their owners *)

(** The server's own descriptors. *)
Definition server_fds (s : Server) : gset Z :=
  (if (0 <=? srv_listen_fd s)%Z then {[ srv_listen_fd s ]} else ∅) ∪
  (if (0 <=? srv_epoll_fd s)%Z then {[ srv_epoll_fd s ]} else ∅).

(** A client comes, or goes. *)
Lemma owner_opened (A X : gset Z) c : {[ c ]} ∪ (A ∪ X) = A ∪ ({[ c ]} ∪ X).
Proof. set_solver. Qed.

Lemma owner_closed (A X : gset Z) c :
  c ∉ X -> {[ c ]} ∪ X ## A -> (A ∪ ({[ c ]} ∪ X)) ∖ {[ c ]} = A ∪ X /\ X ## A.
Proof. intros Hc Hd. split; set_solver. Qed.

Lemma owner_fresh (A X : gset Z) c :
  c ∉ A ∪ X -> X ## A -> {[ c ]} ∪ X ## A /\ c ∉ X.
Proof. intros Hc Hd. split; set_solver. Qed.

Lemma owner_own (A F X : gset Z) : F ⊆ A ∪ F ∪ X.
Proof. set_solver. Qed.

Lemma owner_stopped (A F X : gset Z) :
  A ## F -> X ## A ∪ F -> (A ∪ F ∪ X) ∖ F = A ∪ ∅ ∪ X.
Proof. set_solver. Qed.

Lemma disjoint_weaken (A F X : gset Z) : X ## A ∪ F -> X ## A.
Proof. set_solver. Qed.

Section foreign.
Context {O : Type} `{!PoolOS O, !PoolOSLaws O}.
Implicit Types p : RaftConnectionPool.

Lemma foreign_same p L (o o' : O) :
  pool_ok p L o -> os_open o' = os_open o -> pool_ok p L o' /\ foreign p L o' = foreign p L o.
Proof. intros [Hi Ho] E. unfold pool_ok, foreign. by rewrite E. Qed.

Lemma foreign_opened p L (o o' : O) c :
  pool_ok p L o -> c ∉ os_open o -> os_open o' = {[ c ]} ∪ os_open o ->
  pool_ok p L o' /\ foreign p L o' = {[ c ]} ∪ foreign p L o.
Proof. intros [Hi Ho] Hc E. unfold pool_ok, foreign. rewrite E. split; [split; [done|]|]; set_solver. Qed.

Lemma foreign_closed p L (o o' : O) X :
  pool_ok p L o -> X ⊆ foreign p L o -> os_open o' = os_open o ∖ X ->
  pool_ok p L o' /\ foreign p L o' = foreign p L o ∖ X.
Proof.
  unfold foreign. intros [Hi Ho] Hc E. unfold pool_ok. rewrite E.
  split; [split; [done|]|]; set_solver.
Qed.

(** [stop] closes the server's descriptors. *)
Lemma server_stop_fds (s : Server) (o : O) s' o' :
  srv_running s = true -> server_stop s o = (s', o') ->
  server_fds s' = ∅ /\ os_open o' = os_open o ∖ server_fds s /\
  srv_thread_pool s' = srv_thread_pool s.
Proof.
  intros Hr. unfold server_stop. rewrite Hr. cbn [negb]. intros [= <- <-].
  unfold server_fds. cbn [srv_listen_fd srv_epoll_fd srv_thread_pool].
  split; [|split; [|done]].
  - by destruct (0 <=? srv_listen_fd s)%Z eqn:El, (0 <=? srv_epoll_fd s)%Z eqn:Ee; rewrite ?El, ?Ee.
  - destruct (0 <=? srv_listen_fd s)%Z, (0 <=? srv_epoll_fd s)%Z;
      rewrite ?os_close_open; set_solver.
Qed.
End foreign.

Section invariant.
Context `{!Floats, !JsonText} {B : Type} `{!RocksDB B}.
Context {O S : Type} `{!PoolOS O, !PoolOSLaws O, !FdTable O S, !SocketOps S, !SocketLaws S}.
Context `{!FdTableLaws O S, !ListenOS O, !ListenOSLaws O}.
Variable hash : string -> Z.
Implicit Types y : system O B.

(** Every open descriptor has one owner: the process before the server, the
    server, a client's session, or the connection pool with its users. *)
Record sys_inv (hw : nat) (base : gset Z) y : Prop := mk_sys_inv {
  sy_tasks : tp_reach hw (tasks y);
  sy_conns : pool_ok (sys_conns y) (sys_lent y) (sys_os y);
  sy_foreign : foreign (sys_conns y) (sys_lent y) (sys_os y)
    = base ∪ server_fds (sys_srv y) ∪ list_to_set (clients y);
  sy_nodup : NoDup (clients y);
  sy_base : base ## server_fds (sys_srv y);
  sy_clients : list_to_set (clients y) ## base ∪ server_fds (sys_srv y);
  sy_order : sys_accepted y = (tp_accepted (tasks y) ++ tp_pushing (tasks y))%list;
  sy_one : length (tp_pushing (tasks y)) <= 1;
}.

Lemma clients_foreign hw base y c :
  sys_inv hw base y -> c ∈ clients y -> c ∈ foreign (sys_conns y) (sys_lent y) (sys_os y).
Proof. intros Hi Hc. rewrite (sy_foreign _ _ _ Hi). set_solver. Qed.

(** A step that keeps the open descriptors and everything the invariant names. *)
Lemma inv_same_open hw base y y' :
  sys_inv hw base y -> sys_conns y' = sys_conns y -> sys_lent y' = sys_lent y ->
  os_open (sys_os y') = os_open (sys_os y) -> server_fds (sys_srv y') = server_fds (sys_srv y) ->
  tasks y' = tasks y -> sys_accepted y' = sys_accepted y -> sys_inv hw base y'.
Proof.
  intros Hi Ep El Eo Es Et Ea. unfold clients. destruct Hi as [Ht Hc Hf Hn Hb Hcl Hor H1].
  destruct (foreign_same _ _ _ _ Hc Eo) as [Hc' Hf'].
  constructor; unfold clients; rewrite ?Ep, ?El, ?Es, ?Et, ?Ea; try done. by rewrite Hf'.
Qed.

Lemma send_replies_open fd replies (o : O) : os_open (send_replies fd replies o) = os_open o.
Proof.
  revert o. induction replies as [|r rs IH]; intros o; simpl; [done|].
  rewrite IH. unfold send_reply. by destruct (fd_sendMessage_but fd r o) as [Ho _].
Qed.

Lemma session_read_open i c y b data o1 :
  session_read (S := S) i c y = (b, data, o1) -> os_open o1 = os_open (sys_os y).
Proof.
  unfold session_read. intros E.
  destruct (fd_recvMessage_but (S := S) c (default [] (sys_data y !! i)) (sys_os y)) as [Ho _].
  by rewrite E in Ho.
Qed.

Lemma tasks_put tp y : tasks (put_tasks tp y) = tp.
Proof. done. Qed.

(** Tasks that move: the clients are the same. *)
Lemma inv_tasks hw base y ev tp :
  sys_inv hw base y -> moves_tasks ev = true -> tp_step ev (tasks y) = Some tp ->
  sys_inv hw base (put_tasks tp y).
Proof.
  intros [Ht Hc Hf Hn Hb Hcl Hor H1] Hm E. pose proof (in_flight_moves _ _ _ Hm E) as Hp.
  destruct (accepted_moves _ _ _ Hm E H1) as [Ha Hle].
  assert (list_to_set (in_flight tp) =@{gset Z} list_to_set (clients y)) as Hs by by rewrite Hp.
  constructor; unfold clients; rewrite ?tasks_put; simpl; try done.
  - by eapply tp_reach_step.
  - by rewrite Hs.
  - by rewrite Hp.
  - by rewrite Hs.
  - by rewrite Ha.
Qed.

(** A session's end: its client is closed. *)
Lemma inv_close hw base y i b c (o1 : O) tp :
  sys_inv hw base y -> tp_workers (tasks y) !! i = Some (Running c) ->
  os_open o1 = os_open (sys_os y) -> tp_step (Finish i b) (tasks y) = Some tp ->
  sys_inv hw base (put_tasks tp (put_os (os_close c o1) y)).
Proof.
  intros Hi Hw Ho E. pose proof (in_flight_finish _ _ _ _ _ Hw E) as Hp.
  destruct (accepted_finish _ _ _ _ E) as [Ea Ep].
  assert (c ∈ clients y) as Hin by (unfold clients; rewrite Hp; left).
  pose proof (clients_foreign _ _ _ _ Hi Hin) as Hfc.
  destruct Hi as [Ht Hc Hf Hn Hb Hcl Hor H1].
  destruct (foreign_closed _ _ _ (os_close c o1) {[ c ]} Hc) as [Hc' Hf'].
  { set_solver. }
  { by rewrite os_close_open, Ho. }
  unfold clients in *. rewrite Hp in Hn. apply NoDup_cons in Hn as [Hc1 Hn].
  assert (list_to_set (in_flight (tasks y)) =@{gset Z} {[ c ]} ∪ list_to_set (in_flight tp)) as Hs
    by by rewrite Hp.
  rewrite Hs in Hcl. rewrite <- (elem_of_list_to_set (C:=gset Z)) in Hc1.
  destruct (owner_closed _ _ _ Hc1 Hcl) as [Hclosed Hcl'].
  constructor; unfold clients; rewrite ?tasks_put; simpl; rewrite ?Ea, ?Ep; try done.
  - by eapply tp_reach_step.
  - by rewrite Hf', Hf, Hs, Hclosed.
Qed.

Lemma inv_accept hw base y c (o' : O) tp :
  sys_inv hw base y -> m_stopping (tasks y) = false -> tp_pushing (tasks y) = [] ->
  os_accept (srv_listen_fd (sys_srv y)) (sys_os y) = (Accepted c, o') ->
  tp_step (SubmitTest c) (tasks y) = Some tp ->
  sys_inv hw base (put_accepted c (put_tasks tp (put_os o' y))).
Proof.
  intros [Ht Hc Hf Hn Hb Hcl Hor H1] Hst Hpush Ha E.
  apply os_accept_open in Ha as (Hpos & Hnew & Ho & _).
  pose proof (in_flight_submit _ _ _ Hst E) as Hp.
  destruct (foreign_opened _ _ _ _ c Hc Hnew Ho) as [Hc' Hf'].
  assert (c ∉ base ∪ server_fds (sys_srv y) ∪ list_to_set (clients y)) as Hfresh.
  { rewrite <- Hf. unfold foreign. intros [Hin _]%elem_of_difference. by apply Hnew. }
  destruct (owner_fresh _ _ _ Hfresh Hcl) as [Hcl' Hc1].
  assert (list_to_set (in_flight tp) =@{gset Z} {[ c ]} ∪ list_to_set (clients y)) as Hs
    by by rewrite Hp.
  change (put_accepted c (put_tasks tp (put_os o' y)))
    with (put_tasks tp (put_accepted c (put_os o' y))).
  constructor; unfold clients in *; rewrite ?tasks_put; simpl; try done.
  - by eapply tp_reach_step.
  - by rewrite Hf', Hf, Hs, owner_opened.
  - rewrite Hp. apply NoDup_cons. split; [|done]. by rewrite <- (elem_of_list_to_set (C:=gset Z)).
  - by rewrite Hs.
  - simpl in E. unfold submit_test in E. rewrite Hst in E. injection E as <-. simpl.
    by rewrite Hor, Hpush, app_nil_r.
  - simpl in E. unfold submit_test in E. rewrite Hst in E. injection E as <-. simpl. by rewrite Hpush.
Qed.

Lemma inv_conns hw base y ev :
  sys_inv hw base y -> pool_event_ok ev (conn_world y) ->
  sys_inv hw base (put_conns (pool_step ev (conn_world y)) y).
Proof.
  intros [Ht Hc Hf Hn Hb Hcl Hor H1] Hev.
  destruct (pool_step_preserves ev (conn_world y) Hc Hev) as [Hc' Hf'].
  constructor; try done. etrans; [exact Hf'|exact Hf].
Qed.

Lemma inv_stop hw base y order s' (o' : O) :
  sys_inv hw base y -> sys_lent y = ∅ -> srv_running (sys_srv y) = true ->
  order_ok order (sys_conns y) ->
  server_stop (sys_srv y) (pool_stop order (sys_conns y) (sys_os y)).2 = (s', o') ->
  sys_inv hw base (mkSystem s' (pool_stop order (sys_conns y) (sys_os y)).1 ∅ (sys_db y)
    (sys_data y) (sys_accepted y) o').
Proof.
  intros [Ht Hc Hf Hn Hb Hcl Hor H1] Hl Hr Hord Hs. rewrite Hl in *.
  destruct (pool_stop order (sys_conns y) (sys_os y)) as [p' o1] eqn:Ep.
  destruct (pool_stop_preserves _ _ _ _ _ _ Hc Hord Ep) as [[Hc1 Hf1] _].
  destruct (server_stop_fds _ _ _ _ Hr Hs) as (Hfds & Ho & Htp).
  destruct (foreign_closed _ _ _ o' (server_fds (sys_srv y)) Hc1) as [Hc' Hf'].
  { rewrite Hf1, Hf. apply owner_own. }
  { done. }
  constructor; unfold clients, tasks in *; simpl; rewrite ?Htp; try done.
  - by rewrite Hf', Hf1, Hf, Hfds, owner_stopped.
  - rewrite Hfds. by apply disjoint_empty_r.
  - rewrite Hfds, union_empty_r_L. by eapply disjoint_weaken.
Qed.

Lemma inv_sys_step hw base a y y' :
  sys_inv hw base y -> sys_step hash a y y' -> sys_inv hw base y'.
Proof.
  intros Hi Hstep. destruct Hstep as
    [y o' [Ho _]|y c o' tp Hst Hpush Hnot Ha E|y ev tp Hm E|y i c t data o1 replies st o2 Hw Hq Hnm Hr Hh
    |y i c data o1 tp Hw Hr E|y i c t data o1 tp Hw Hr Hh E|y ev Hev|y fd peer u Hl
    |y n n' tm W T w w' Hn Hrun Hh|y n n' db' W T w w' Hn Hrun Hh|y order s' o' Hl Hr Hord Hs].
  - by eapply inv_same_open.
  - by eapply inv_accept.
  - apply (inv_tasks _ _ _ ev); [|done|by destruct ev].
    eapply inv_same_open; [exact Hi|by destruct ev..].
  - eapply inv_same_open; [exact Hi|done..| | | |done]; [|done|done].
    simpl. rewrite send_replies_open. apply session_read_open in Hr.
    assert (list_to_set (clients y) ⊆ os_open o1) as Hsub.
    { rewrite Hr. intros c' Hc'%elem_of_list_to_set.
      pose proof (clients_foreign _ _ _ _ Hi Hc') as Hf. unfold foreign in Hf. set_solver. }
    destruct (handle_message_frame _ _ _ _ t _ _ _ _ _ _ Hq Hsub Hh) as [[Ho _] _].
    congruence.
  - eapply inv_close; [done..|by eapply session_read_open|done].
  - eapply inv_close; [done..|by eapply session_read_open|done].
  - by apply inv_conns.
  - eapply inv_same_open; [exact Hi|done|done| |done..]. apply use_connection_but.
  - by eapply inv_same_open.
  - by eapply inv_same_open.
  - by apply inv_stop.
Qed.
Lemma start_opened tm s (st : RocksDBStorage B) (o : O) s' st' o' :
  srv_running s = false -> start_until_accept tm s st o = Ok (true, s', st', o') ->
  srv_thread_pool s' = srv_thread_pool s /\ server_fds s' ## os_open o /\
  os_open o' = server_fds s' ∪ os_open o.
Proof.
  intros Hrun. unfold start_until_accept. pose proof (setupSocket_open s o) as Hs.
  pose proof (setupSocket_tasks s o) as Htp.
  destruct (setupSocket s o) as [[ok s1] o1]. destruct Hs as [_ Hs]. cbn [fst snd] in Htp.
  destruct ok; cbn [negb]; [|done]. destruct Hs as (Hl & He & _ & Hnl & Hne & Ho).
  destruct (storage_open _ st) as [e|[[|] st1]]; cbn [negb]; [done| |done].
  intros [= <- _ <-]. split; [done|]. unfold server_fds. cbn [srv_listen_fd srv_epoll_fd set_started].
  rewrite (proj2 (Z.leb_le 0 (srv_listen_fd s1))), (proj2 (Z.leb_le 0 (srv_epoll_fd s1))) by lia.
  rewrite Ho. split; set_solver.
Qed.

Lemma inv_sys_init hw conf wait h0 (o0 : O) s0 o1 tm s1 (st1 : RocksDBStorage B) o2 db :
  quiet_on ∅ wait -> Server_new conf wait hw h0 o0 = Some (s0, o1) ->
  start_until_accept tm s0 RocksDBStorage_new o1 = Ok (true, s1, st1, o2) ->
  sys_inv hw (os_open o0)
    (mkSystem s1 (pool_start RaftConnectionPool_new) ∅ db ∅ [] o2).
Proof.
  intros Hq Hnew Hst. destruct (Server_new_open _ _ _ _ _ _ _ Hq Hnew) as [Ho Htp].
  assert (srv_running s0 = false) as Hrun.
  { unfold Server_new in Hnew. by apply bind_Some in Hnew as ([r o] & _ & [= <- _]). }
  destruct (start_opened _ _ _ _ _ _ _ Hrun Hst) as (Htp1 & Hd & Ho2). rewrite Ho in Hd, Ho2.
  set (y := mkSystem _ _ _ _ _ _ _).
  assert (tasks y = ThreadPool_new hw) as Et by (unfold tasks; simpl; congruence).
  assert (owned (pool_start RaftConnectionPool_new) ∅ = ∅) as Hown by (unfold owned; set_solver).
  constructor; unfold clients; rewrite ?Et, ?in_flight_new; simpl; try done.
  - apply tp_reach_new.
  - split; [|rewrite Hown; set_solver].
    apply inv_empty. intros fd peer Hl. by rewrite lookup_empty in Hl.
  - unfold foreign. rewrite Hown, Ho2. set_solver.
  - constructor.
  - lia.
Qed.

Lemma sys_reach_inv hw base y : sys_reach hash hw base y -> sys_inv hw base y.
Proof.
  induction 1 as [conf wait h0 o0 s0 o1 tm s1 st1 o2 db <- Hq Hnew Hst Hdb|a y y' _ IH Hstep].
  - by eapply inv_sys_init.
  - by eapply inv_sys_step.
Qed.
End invariant.

(** ** The properties *)

(** C16. Every descriptor of the running server has exactly one owner, however the
    threads interleave: the process's own before the server was made, the
    listening and the epoll descriptor, one client whose session has not ended
    (accepted, queued or served), or the connection pool with the Raft threads
    that borrow from it.  Nothing else is open: no descriptor leaks, none is closed
    twice or by another thread than its owner's, and a number is reused only after
    it was closed; after [stop], with the clients gone and the connection pool empty, the
    process has the descriptors it had before. *)
Theorem descriptors_have_one_owner `{!Floats, !JsonText} {B : Type} `{!RocksDB B} {O S : Type}
    `{!PoolOS O, !PoolOSLaws O, !FdTable O S, !SocketOps S, !SocketLaws S, !FdTableLaws O S}
    `{!ListenOS O, !ListenOSLaws O} hash hw base (y : system O B) :
  sys_reach hash hw base y ->
  os_open (sys_os y) = base ∪ server_fds (sys_srv y) ∪ list_to_set (clients y)
    ∪ owned (sys_conns y) (sys_lent y) /\
  base ## server_fds (sys_srv y) /\
  list_to_set (clients y) ## base ∪ server_fds (sys_srv y) /\
  owned (sys_conns y) (sys_lent y) ## base ∪ server_fds (sys_srv y) ∪ list_to_set (clients y) /\
  NoDup (clients y).
Proof.
  intros [Ht [Hc Ho] Hf Hn Hb Hcl _ _]%sys_reach_inv. unfold foreign in Hf.
  split_and!; [|done|done| |done].
  - rewrite <- Hf. rewrite difference_union_L. set_solver.
  - rewrite <- Hf. set_solver.
Qed.

(** C17. Clients are served in the order in which they were accepted, each by one
    session: those accepted are the ones a session was started for, then those
    queued, then the one in [submit]; a started session has ended or runs on exactly
    one worker, its client's descriptor stays open meanwhile, and the worker
    pool's size never changes. *)
Theorem clients_served_in_order `{!Floats, !JsonText} {B : Type} `{!RocksDB B} {O S : Type}
    `{!PoolOS O, !PoolOSLaws O, !FdTable O S, !SocketOps S, !SocketLaws S, !FdTableLaws O S}
    `{!ListenOS O, !ListenOSLaws O} hash hw base (y : system O B) :
  sys_reach hash hw base y ->
  sys_accepted y = (tp_started (tasks y) ++ m_tasks (tasks y) ++ tp_pushing (tasks y))%list /\
  tp_started (tasks y) ≡ₚ ((tp_finished (tasks y)).*1 ++ running (tasks y))%list /\
  tp_size (tasks y) = worker_count hw /\
  (forall i c, tp_workers (tasks y) !! i = Some (Running c) ->
     c ∈ os_open (sys_os y) /\
     forall j, tp_workers (tasks y) !! j = Some (Running c) -> j = i).
Proof.
  intros Hi%sys_reach_inv. pose proof (inv_tp_reach _ _ (sy_tasks _ _ _ Hi)) as Ht. split_and!.
  - rewrite (sy_order _ _ _ Hi), (ti_fifo _ _ Ht). by rewrite <- app_assoc.
  - apply Ht.
  - apply Ht.
  - intros i c Hw.
    assert (c ∈ running (tasks y)) as Hr.
    { apply list_elem_of_omap. exists (Running c). split; [|done]. by eapply list_elem_of_lookup_2. }
    split.
    + assert (c ∈ clients y) as Hin by (unfold clients, in_flight; set_solver).
      pose proof (clients_foreign _ _ _ _ Hi Hin) as Hfc. unfold foreign in Hfc. set_solver.
    + intros j Hj. destruct (decide (j = i)) as [|Hne]; [done|exfalso].
      pose proof (sy_nodup _ _ _ Hi) as Hnd. unfold clients, in_flight in Hnd.
      apply NoDup_app in Hnd as (_ & _ & Hnd). apply NoDup_app in Hnd as (_ & _ & Hnd).
      unfold running in Hnd.
      pose proof (running_end _ i (@WantsLock Z) c Hw eq_refl) as Hp.
      rewrite Hp in Hnd. apply NoDup_cons in Hnd as [Hnd _]. apply Hnd.
      apply list_elem_of_omap. exists (Running c). split; [|done].
      apply (list_elem_of_lookup_2 _ j). by rewrite list_lookup_insert_ne.
Qed.

(** ** Witnesses *)
Module Witness.
Import Storage.Memory Connection.Witness Server.Witness.

#[local] Notation reach := (@sys_reach int_floats compact_text mem_db mem_rocksdb process nb_stream
  process_ops process_laws process_table nb_ops nb_laws process_listen length_hash 2 {[ 0; 1; 2 ]}%Z).

(** A process with three descriptors; the other server closes the connection of
    the health check, and then a client connects. *)
Definition before : process :=
  mkProcess {[ 0%Z := idle_stream; 1%Z := idle_stream; 2%Z := idle_stream ]}
    [Some (mkStream [] true [] 4096); Some (mkStream (frame (chars "PING")) false [] 4096)] 0.

Definition started : option (system process mem_db) :=
  '(s0, o1) ← Server_new (loadFromFile (Some conf_8080) ∅).2 id 2 false before;
  match start_until_accept first_timer s0 RocksDBStorage_new o1 with
  | Ok (true, s1, st1, o2) =>
      db ← m_db st1; Some (mkSystem s1 (pool_start RaftConnectionPool_new) ∅ db ∅ [] o2)
  | _ => None
  end.

Definition accept_client (y : system process mem_db) : option (system process mem_db) :=
  match m_stopping (tasks y), tp_pushing (tasks y), tp_notifying (tasks y),
        os_accept (srv_listen_fd (sys_srv y)) (sys_os y) with
  | false, [], 0, (Accepted c, o') =>
      tp ← tp_step (SubmitTest c) (tasks y);
      Some (put_accepted c (put_tasks tp (put_os o' y)))
  | _, _, _, _ => None
  end.

Definition task_event (ev : tp_event Z) (y : system process mem_db)
  : option (system process mem_db) :=
  if moves_tasks ev then
    tp ← tp_step ev (tasks y);
    Some (put_tasks tp (match ev with Take i => put_data i [] y | _ => y end))
  else None.

Definition task_events (evs : list (tp_event Z)) (y : option (system process mem_db))
  : option (system process mem_db) :=
  foldl (fun r ev => y ← r; task_event ev y) y evs.

(** A worker is about to serve the client. *)
Definition serving : option (system process mem_db) :=
  task_events [SubmitPush 0; SubmitNotify None; Lock 1; Test 1; Take 1]
    (y ← started; accept_client y).

Lemma started_reach y : started = Some y -> reach y.
Proof.
  unfold started. intros ([s0 o1] & Hnew & Hst)%bind_Some.
  destruct (start_until_accept _ _ _ _) as [[[[[|] s1] st1] o2]| |] eqn:E; [|discriminate Hst..].
  apply bind_Some in Hst as (db & Hdb & [= <-]).
  refine (sys_init length_hash 2 _ _ id false before s0 o1 first_timer s1 st1 o2 db _ _ Hnew E Hdb).
  - vm_compute. reflexivity.
  - intros o. apply kept_refl.
Qed.

Lemma accept_client_reach y y' : reach y -> accept_client y = Some y' -> reach y'.
Proof.
  unfold accept_client. intros Hr E.
  destruct (m_stopping (tasks y)) eqn:E1; [discriminate E|].
  destruct (tp_pushing (tasks y)) eqn:E2; [|discriminate E].
  destruct (tp_notifying (tasks y)) eqn:E3; [|discriminate E].
  destruct (os_accept _ _) as [[c|] o'] eqn:E4; [|discriminate E].
  apply bind_Some in E as (tp & E5 & [= <-]).
  exact (sys_next length_hash _ _ _ _ _ Hr (step_accept length_hash y c o' tp E1 E2 E3 E4 E5)).
Qed.

Lemma task_events_reach evs r y :
  (forall y0, r = Some y0 -> reach y0) -> task_events evs r = Some y -> reach y.
Proof.
  revert r. induction evs as [|ev evs IH]; intros r Hr; simpl; [apply Hr|]. apply IH.
  intros y1 (y0 & E0 & E)%bind_Some. unfold task_event in E.
  destruct (moves_tasks ev) eqn:Em; [|discriminate E].
  apply bind_Some in E as (tp & Et & [= <-]).
  exact (sys_next length_hash _ _ _ _ _ (Hr y0 E0) (step_tasks length_hash y0 ev tp Em Et)).
Qed.

Lemma serving_reach y : serving = Some y -> reach y.
Proof.
  apply task_events_reach. intros y0 (y1 & E1 & E)%bind_Some.
  by eapply accept_client_reach; [apply started_reach|].
Qed.

Lemma serving_runs : exists y, serving = Some y /\ clients y = [5%Z] /\
  tp_workers (tasks y) !! 1 = Some (Running 5%Z) /\ sys_accepted y = [5%Z] /\
  server_fds (sys_srv y) = {[ 3; 4 ]}%Z.
Proof.
  destruct serving as [y|] eqn:E; [|vm_compute in E; discriminate E].
  exists y. split; [reflexivity|].
  assert ((fun y => (clients y, tp_workers (tasks y) !! 1, sys_accepted y, server_fds (sys_srv y)))
    <$> serving = Some ([5%Z], Some (Running 5%Z), [5%Z], {[ 3; 4 ]}%Z)) as H
    by (vm_compute; reflexivity).
  rewrite E in H.
  change (Some (clients y, tp_workers (tasks y) !! 1, sys_accepted y, server_fds (sys_srv y))
    = Some ([5%Z], Some (Running 5%Z), [5%Z], {[ 3; 4 ]}%Z)) in H.
  injection H as H1 H2 H3 H4. split; [exact H1|]. split; [exact H2|]. split; [exact H3|exact H4].
Qed.

Lemma descriptors_have_one_owner_witness :
  exists y, reach y /\ clients y = [5%Z] /\
    os_open (sys_os y)
    = {[ 0; 1; 2 ]}%Z ∪ {[ 3; 4 ]}%Z ∪ {[ 5 ]}%Z ∪ owned (sys_conns y) (sys_lent y).
Proof.
  destruct serving_runs as (y & E & Hc & _ & _ & Hs). exists y.
  pose proof (serving_reach y E) as Hr. split; [exact Hr|]. split; [exact Hc|].
  destruct (descriptors_have_one_owner length_hash 2 {[ 0; 1; 2 ]}%Z y Hr) as [Ho _].
  rewrite Ho, Hc, Hs. reflexivity.
Defined.

Lemma clients_served_in_order_witness :
  exists y, reach y /\ sys_accepted y = [5%Z] /\ 5%Z ∈ os_open (sys_os y).
Proof.
  destruct serving_runs as (y & E & _ & Hw & Ha & _). exists y.
  pose proof (serving_reach y E) as Hr. split; [exact Hr|]. split; [exact Ha|].
  destruct (clients_served_in_order length_hash 2 {[ 0; 1; 2 ]}%Z y Hr) as (_ & _ & _ & Hrun).
  exact (proj1 (Hrun 1 5%Z Hw)).
Defined.
End Witness.
