(* ===== verification/SystemRaft.v ===== *)
(** * The Raft threads inside the running server

    [System] lets the connection pool, the users of its connections and the two Raft
    threads step on their own: a turn of [electionLoop] or [heartbeatLoop]
    (src/raft/RaftNode.cpp) is one step that brings the node's new state, whatever
    it was answered.  Here the turn is run over the server's own pool and process:
    each of its calls borrows a connection, sends, waits for the network, reads and gives the
    connection back, and all this is a sequence of the steps of [System]. *)
From S2P Require Import Prelude Socket Protocol ConnPool Descriptors ThreadPool.
From S2P Require Import Json JsonText RaftTypes RaftNode RaftInv RaftRpc RaftSend.
From S2P Require Import Storage Session Server System.

(** ** What a call does, by the labels of its steps *)

(** One call to [peer]: [getConnection] fails, or the request is not sent, or it is
    sent and an answer is read after the network has moved; what was borrowed is the one
    descriptor that is used and given back. *)
Inductive call_labels (peer host : string) (port : Z) (msg : string) : list actor -> Prop :=
  | call_refused : call_labels peer host port msg [ConnectionPool (PoolGet peer host port)]
  | call_unsent fd : call_labels peer host port msg
      [ConnectionPool (PoolGet peer host port); ConnectionUser fd (Sends (chars msg));
       ConnectionPool (PoolRelease peer fd)]
  | call_waited fd : call_labels peer host port msg
      [ConnectionPool (PoolGet peer host port); ConnectionUser fd (Sends (chars msg)); Network;
       ConnectionUser fd Receives; ConnectionPool (PoolRelease peer fd)].

Section labels.
Context `{!Floats, !JsonText}.

(** The peers a turn calls, in its order: those with an address. *)
Definition addressed (n : RaftNode) (ps : list string) : list string :=
  filter (fun p => is_Some (m_peerAddresses n !! p)) ps.

(** A call of an election: the request is the candidate's. *)
Definition election_call (tm : Timer) (n : RaftNode) (c : string * list actor) : Prop :=
  exists host port args msg,
    m_peerAddresses n !! c.1 = Some (host, port) /\
    election_args (election_begin tm n) = Some args /\ vote_request args = Ok msg /\
    call_labels c.1 host port msg c.2.

(** A heartbeat: the request is the leader's, of its term and without entries. *)
Definition heartbeat_call (n : RaftNode) (c : string * list actor) : Prop :=
  exists host port args msg,
    m_peerAddresses n !! c.1 = Some (host, port) /\
    ae_term args = m_currentTerm n /\ ae_leaderId args = m_nodeId n /\ ae_entries args = [] /\
    append_request args = Ok msg /\ call_labels c.1 host port msg c.2.
End labels.

Lemma addressed_cons n p ps :
  addressed n (p :: ps)
  = (if m_peerAddresses n !! p then [p] else []) ++ addressed n ps.
Proof.
  unfold addressed. rewrite filter_cons. destruct (m_peerAddresses n !! p).
  - by rewrite decide_True.
  - by rewrite decide_False by (by intros [? [=]]).
Qed.

(** What a turn of the heartbeats leaves alone while it goes on. *)
Definition same_leader (n n' : RaftNode) : Prop :=
  m_state n' = Leader /\ m_peers n' = m_peers n /\ m_nodeId n' = m_nodeId n /\
  m_peerAddresses n' = m_peerAddresses n /\ m_currentTerm n' = m_currentTerm n.

Section heartbeats.
Context {D : Type} `{!KVStore D}.

Lemma commit_step_leader n (db : D) n' db' :
  m_state n = Leader -> commit_step n db = Some (n', db') -> same_leader n n'.
Proof.
  unfold commit_step. intros Hs (c & _ & Hc)%bind_Some.
  destruct (m_commitIndex n <? c)%Z; [|by simplify_eq].
  apply bind_Some in Hc as (e & _ & Hc).
  destruct (le_term e =? m_currentTerm n)%Z; [|by simplify_eq].
  by apply apply_loop_frame in Hc as [a ->].
Qed.

Lemma heartbeat_reply_leader p nx reply n (db : D) n' db' :
  raft_wf n -> m_state n = Leader -> (1 <= nx <= vec_size (m_logs n))%Z ->
  heartbeat_reply p nx (drop (Z.to_nat nx) (m_logs n)) reply n db = Some (false, n', db') ->
  same_leader n n'.
Proof.
  intros Hwf Hs Hr. unfold heartbeat_reply. destruct reply as [r|]; [|by intros [= <- <-]].
  destruct (aer_success r).
  - rewrite heartbeat_success_eq by done. intros ([n1 db1] & Hc & [= <- <-])%bind_Some.
    by apply commit_step_leader in Hc.
  - destruct (m_currentTerm n <? aer_term r)%Z; [done|]. destruct (map_index _ _) as [cur m].
    by destruct (1 <? cur)%Z; intros [= <- <-].
Qed.

(** A reply that does not end the turn leaves a well-formed leader, whatever its term. *)
Lemma heartbeat_reply_goes_on p nx reply n (db : D) n' db' :
  raft_wf n -> m_state n = Leader -> p ∈ m_peers n ->
  m_nextIndex n !! p = Some nx -> (1 <= nx <= vec_size (m_logs n))%Z ->
  heartbeat_reply p nx (drop (Z.to_nat nx) (m_logs n)) reply n db = Some (false, n', db') ->
  raft_wf n' /\ same_leader n n'.
Proof.
  intros Hwf Hs Hp Hnx Hr E. split; [|by eapply heartbeat_reply_leader].
  pose proof (wf_term _ Hwf) as Ht. unfold is_u64 in Ht.
  set (reply0 := (fun r => mkAppendEntriesReply 0 (aer_success r)) <$> reply).
  assert (heartbeat_reply p nx (drop (Z.to_nat nx) (m_logs n)) reply0 n db = Some (false, n', db'))
    as E0.
  { rewrite <- E. unfold heartbeat_reply, reply0 in *. destruct reply as [r|]; [|done]. simpl in *.
    destruct (aer_success r); [done|].
    destruct (m_currentTerm n <? aer_term r)%Z; [done|].
    by rewrite (proj2 (Z.ltb_ge (m_currentTerm n) 0)) by lia. }
  destruct (wf_heartbeat_reply p nx reply0 n db Hwf Hs Hp Hnx Hr) as (brk & n1 & db1 & E1 & Hwf1 & _).
  { intros r. unfold reply0. destruct reply; [|done]. intros [= <-]. unfold is_u64. simpl. lia. }
  rewrite E0 in E1. by injection E1 as _ <- _.
Qed.
End heartbeats.

(** ** The turns over the server's pool and process *)
Section calls.
Context `{!Floats, !JsonText, !JsonTextLaws} {B : Type} `{!RocksDB B}.
Context {O S : Type} `{!PoolOS O, !PoolOSLaws O, !FdTable O S, !SocketOps S, !SocketLaws S}.
Context `{!FdTableLaws O S, !ListenOS O}.
Variable hash : string -> Z.
Implicit Types y : system O B.

(** What the network does while a call waits for its answer. *)
Variable wait : O -> O.
Hypothesis wait_moves : forall o, network_moves o (wait o).

(** The pool and the process as a transport, the network acting meanwhile. *)
Definition meanwhile (w : pooled_world (O := O)) : pooled_world (O := O) := (w.1, wait w.2).

Definition server_transport : RaftTransport (pooled_world (O := O)) := pool_transport meanwhile.

(** [y] with another pool and process. *)
Definition at_world y (w : pooled_world (O := O)) (lent : gmap Z string) : system O B :=
  put_conns (mkPoolWorld w.1 lent w.2) y.

Definition world_ok (w : pooled_world (O := O)) (lent : gmap Z string) : Prop :=
  pool_ok w.1 lent w.2.

Lemma conns_step y w lent ev :
  pool_event_ok ev (mkPoolWorld w.1 lent w.2) ->
  sys_step hash (ConnectionPool ev) (at_world y w lent)
    (put_conns (pool_step ev (mkPoolWorld w.1 lent w.2)) y).
Proof. intros Hev. exact (step_conns hash (at_world y w lent) ev Hev). Qed.

Lemma use_step y p o u lent fd peer :
  lent !! fd = Some peer ->
  sys_step hash (ConnectionUser fd u) (at_world y (p, o) lent)
    (at_world y (p, use_connection fd u o) lent).
Proof. intros Hl. exact (step_use hash (at_world y (p, o) lent) fd peer u Hl). Qed.

Lemma wait_step y p o lent :
  sys_step hash Network (at_world y (p, o) lent) (at_world y (p, wait o) lent).
Proof. exact (step_network hash (at_world y (p, o) lent) (wait o) (wait_moves o)). Qed.

Lemma release_step y p o lent fd peer :
  lent !! fd = None ->
  sys_step hash (ConnectionPool (PoolRelease peer fd)) (at_world y (p, o) (<[fd := peer]> lent))
    (at_world y (releaseConnection peer fd p o) lent).
Proof.
  intros Hn.
  pose proof (conns_step y (p, o) (<[fd := peer]> lent) (PoolRelease peer fd)
    (lookup_insert_eq _ _ _)) as Hs. simpl in Hs.
  destruct (releaseConnection peer fd p o). by rewrite delete_insert_id in Hs.
Qed.

Lemma meanwhile_preserves p1 B1 o1 :
  pool_ok p1 B1 o1 -> preserves p1 B1 o1 (meanwhile (p1, o1)).1 B1 (meanwhile (p1, o1)).2.
Proof.
  intros Hok. destruct (wait_moves o1) as [Ho _]. simpl.
  apply preserves_same_open; [apply Hok|done|done|done].
Qed.

(** One call. *)
Lemma exchange_path y peer host port msg w lent :
  world_ok w lent ->
  let w' := (rpc_exchange meanwhile peer host port (Ok msg) w).2 in
  world_ok w' lent /\
  exists l, call_labels peer host port msg l /\
    sys_path hash (at_world y w lent) l (at_world y w' lent).
Proof.
  destruct w as [p o]. intros Hok. cbv zeta.
  pose proof (rpc_exchange_preserves meanwhile peer host port msg p lent o meanwhile_preserves Hok)
    as Hpres.
  assert (world_ok (rpc_exchange meanwhile peer host port (Ok msg) (p, o)).2 lent) as Hok'.
  { destruct (rpc_exchange meanwhile peer host port (Ok msg) (p, o)) as [r [p' o']]. apply Hpres. }
  split; [exact Hok'|]. clear Hpres Hok'. unfold rpc_exchange.
  pose proof (conns_step y (p, o) lent (PoolGet peer host port) I) as Hget. simpl in Hget.
  destruct (getConnection peer host port p o) as [[fd p1] o1] eqn:Eg.
  destruct (getConnection_preserves _ _ _ _ _ _ _ _ _ Hok Eg) as (_ & Hn & _). unfold lend in Hget.
  destruct (Z.ltb_spec fd 0) as [Hneg|Hfd].
  { rewrite (proj2 (Z.leb_gt 0 fd)) in Hget by lia. eexists. split; [apply call_refused|].
    by apply path_one. }
  rewrite (proj2 (Z.leb_le 0 fd)) in Hget by lia. set (lent1 := <[fd:=peer]> lent) in *.
  assert (lent1 !! fd = Some peer) as Hl by apply lookup_insert_eq.
  pose proof (use_step y p1 o1 (Sends (chars msg)) lent1 fd peer Hl) as Hsend. simpl in Hsend.
  destruct (fd_sendMessage fd (chars msg) o1) as [sent o2]. cbn [snd] in Hsend.
  destruct sent; cbn [negb].
  - cbn [meanwhile fst snd].
    pose proof (use_step y p1 (wait o2) Receives lent1 fd peer Hl) as Hrecv. simpl in Hrecv.
    destruct (fd_recvMessage fd [] (wait o2)) as [[ok response] o4]. cbn [snd] in Hrecv.
    eexists. split; [apply (call_waited _ _ _ _ fd)|].
    eapply path_cons; [exact Hget|]. eapply path_cons; [exact Hsend|].
    eapply path_cons; [apply wait_step|]. eapply path_cons; [exact Hrecv|].
    by destruct ok; apply path_one, release_step.
  - eexists. split; [apply (call_unsent _ _ _ _ fd)|].
    eapply path_cons; [exact Hget|]. eapply path_cons; [exact Hsend|]. by apply path_one, release_step.
Qed.

#[local] Existing Instance server_transport.

Lemma vote_path y n peer args msg w lent :
  world_ok w lent -> vote_request args = Ok msg ->
  let w' := (sendRequestVote n peer args w).2 in
  world_ok w' lent /\
  match m_peerAddresses n !! peer with
  | Some (host, port) => exists l, call_labels peer host port msg l /\
      sys_path hash (at_world y w lent) l (at_world y w' lent)
  | None => w' = w
  end.
Proof.
  intros Hok Hm. unfold sendRequestVote. destruct (m_peerAddresses n !! peer) as [[h port]|]; [|done].
  cbn [rpc_request_vote server_transport pool_transport]. unfold request_vote_rpc. rewrite Hm.
  pose proof (exchange_path y peer h port msg w lent Hok) as Hx.
  by destruct (rpc_exchange meanwhile peer h port (Ok msg) w).
Qed.

Lemma append_path y n peer args msg w lent :
  world_ok w lent -> append_request args = Ok msg ->
  let w' := (sendAppendEntries n peer args w).2 in
  world_ok w' lent /\
  match m_peerAddresses n !! peer with
  | Some (host, port) => exists l, call_labels peer host port msg l /\
      sys_path hash (at_world y w lent) l (at_world y w' lent)
  | None => w' = w
  end.
Proof.
  intros Hok Hm. unfold sendAppendEntries. destruct (m_peerAddresses n !! peer) as [[h port]|]; [|done].
  cbn [rpc_append_entries server_transport pool_transport]. unfold append_entries_rpc. rewrite Hm.
  pose proof (exchange_path y peer h port msg w lent Hok) as Hx.
  by destruct (rpc_exchange meanwhile peer h port (Ok msg) w).
Qed.

(** The calls of a turn, and the way they take the system from one world to another. *)
Definition calls_path y (call : string * list actor -> Prop) (calls : list (string * list actor))
    (w w' : pooled_world (O := O)) (lent : gmap Z string) : Prop :=
  Forall call calls /\ world_ok w' lent /\
  sys_path hash (at_world y w lent) (concat calls.*2) (at_world y w' lent).

Lemma calls_none y call w lent : world_ok w lent -> calls_path y call [] w w lent.
Proof. intros Hok. split; [constructor|]. split; [exact Hok|apply path_nil]. Qed.

Lemma calls_cons y (call : string * list actor -> Prop) p l calls w w1 w' lent :
  call (p, l) -> sys_path hash (at_world y w lent) l (at_world y w1 lent) ->
  calls_path y call calls w1 w' lent -> calls_path y call ((p, l) :: calls) w w' lent.
Proof.
  intros Hc Hp (Hcs & Hok & Hps). split; [by constructor|]. split; [exact Hok|].
  simpl. by eapply path_app.
Qed.

Lemma election_loop_path y tm n args msg ps votes w lent r w' :
  world_ok w lent ->
  election_args (election_begin tm n) = Some args -> vote_request args = Ok msg ->
  election_loop args ps votes (election_begin tm n) w = (r, w') ->
  exists calls, calls_path y (election_call tm n) calls w w' lent /\
    calls.*1 `prefix_of` addressed n ps /\
    match r with
    | inl _ => calls.*1 = addressed n ps
    | inr n' => m_state n' = Follower
    end.
Proof.
  intros Hok Ha Hm. revert votes w Hok. induction ps as [|p ps IH]; intros votes w Hok; simpl.
  { intros [= <- <-]. exists []. split; [by apply calls_none|]. done. }
  destruct (vote_path y (election_begin tm n) p args msg w lent Hok Hm) as [Hok1 Hp].
  change (m_peerAddresses (election_begin tm n)) with (m_peerAddresses n) in Hp.
  destruct (sendRequestVote (election_begin tm n) p args w) as [reply w1]. cbn [snd] in *.
  assert (forall calls w2, calls_path y (election_call tm n) calls w1 w2 lent ->
    exists calls0, calls_path y (election_call tm n) (calls0 ++ calls) w w2 lent /\
      calls0.*1 = if m_peerAddresses n !! p then [p] else []) as Hcall.
  { intros calls w2 Hc. destruct (m_peerAddresses n !! p) as [[host port]|] eqn:Ep.
    - destruct Hp as (l & Hl & Hpath). exists [(p, l)]. split; [|done].
      eapply calls_cons; [|exact Hpath|exact Hc]. exists host, port, args, msg. done.
    - exists []. split; [|done]. by rewrite <- Hp. }
  rewrite addressed_cons.
  destruct (election_collect reply votes (election_begin tm n)) as [[v1 n1]|n1] eqn:Ec.
  - assert (n1 = election_begin tm n) as ->.
    { unfold election_collect in Ec. repeat case_match; by simplify_eq. }
    intros E. destruct (IH v1 w1 Hok1 E) as (calls & Hc & Hpre & Hr).
    destruct (Hcall calls w' Hc) as (calls0 & Hc' & E0).
    exists (calls0 ++ calls). rewrite fmap_app, E0. split; [exact Hc'|].
    split; [by apply prefix_app|]. destruct r; [by rewrite Hr|done].
  - intros [= <- <-]. destruct (Hcall [] w1 (calls_none _ _ _ _ Hok1)) as (calls0 & Hc' & E0).
    exists calls0. rewrite app_nil_r in Hc'. split; [exact Hc'|].
    rewrite E0. split; [by apply prefix_app_r|].
    unfold election_collect in Ec. repeat case_match; by simplify_eq.
Qed.

Lemma election_turn_path y tm n w lent n' w' :
  raft_wf n -> utf8_ok (m_nodeId n) = true -> (m_currentTerm n < UINT64_MAX)%Z ->
  world_ok w lent -> electionLoop_turn tm n w = Some (n', w') ->
  exists calls, calls_path y (election_call tm n) calls w w' lent /\
    calls.*1 `prefix_of` addressed n (m_peers n) /\
    (m_state n = Leader -> calls = []) /\
    (m_state n' <> Follower -> m_currentTerm n' <> m_currentTerm n ->
     calls.*1 = addressed n (m_peers n)).
Proof.
  intros Hwf Hu Ht Hok. unfold electionLoop_turn.
  destruct (negb (bool_decide (m_state n = Leader)) && _) eqn:Ec.
  2: { intros [= <- <-]. exists []. split; [by apply calls_none|]. split; [apply prefix_nil|]. done. }
  apply andb_true_iff in Ec as [Ec%negb_true_iff%bool_decide_eq_false _].
  unfold startElection. intros (args & Ha & [= Hrun])%bind_Some.
  pose proof (wf_election_begin tm n Hwf Ht) as Hwf1.
  assert (rv_args_ok args /\ rv_candidateId args = m_nodeId n) as [Hargs Hid].
  { split; [by eapply election_args_ok|].
    destruct (election_args_eq _ Hwf1) as (e & _ & Ha'). rewrite Ha in Ha'. by injection Ha' as ->. }
  destruct (vote_request_read args Hargs) as (d & Hm & _); [by rewrite Hid|].
  match type of Hrun with (let '(_, _) := ?loop in _) = _ =>
    destruct loop as [r w2] eqn:El end.
  destruct (election_loop_path y tm n args _ _ _ w lent r w2 Hok Ha Hm El) as (calls & Hc & Hpre & Hr).
  exists calls. assert (w2 = w') as -> by (destruct r as [[v m]|m]; by injection Hrun).
  split; [exact Hc|]. split; [exact Hpre|]. split; [done|]. intros Hs _.
  destruct r as [[v m]|m]; [exact Hr|]. injection Hrun as ->. done.
Qed.

Lemma heartbeat_peers_path y n0 ps n (db : B) w lent n' db' w' :
  same_leader n0 n -> raft_wf n -> utf8_ok (m_nodeId n) = true ->
  (forall p, p ∈ ps -> p ∈ m_peers n) -> world_ok w lent ->
  heartbeat_peers ps n db w = Some (n', db', w') ->
  exists calls, calls_path y (heartbeat_call n0) calls w w' lent /\
    calls.*1 `prefix_of` addressed n0 ps /\
    (m_state n' = Leader -> calls.*1 = addressed n0 ps).
Proof.
  revert n db w. induction ps as [|p ps IH]; intros n db w Hsame Hwf Hu Hps Hok; simpl.
  { intros [= _ _ <-]. exists []. split; [by apply calls_none|]. done. }
  intros ([[[brk n1] db1] w1] & Hp & Hrest)%bind_Some.
  assert (p ∈ m_peers n) as Hin by (apply Hps; left).
  pose proof Hsame as (Hs & Hpe & Hid & Had & Ht).
  unfold heartbeat_peer in Hp. apply bind_Some in Hp as ([[[args nx] es] nx0] & Ha & Hp).
  destruct (heartbeat_args_wf p n args nx es nx0 Hwf Hs Hin Ha) as (Haw & Hlid & Hes).
  destruct (heartbeat_args_eq p n Hwf Hs Hin) as (nx1 & prev & Hnx & Hr & _ & Ha').
  rewrite Ha in Ha'. injection Ha' as Eargs -> -> ->.
  destruct (append_request_read args) as (d & Hm & _).
  { apply Haw. } { by rewrite Hlid. } { rewrite Hes. constructor. }
  destruct (append_path y n p args _ w lent Hok Hm) as [Hok1 Hpath]. rewrite Had in Hpath.
  destruct (sendAppendEntries n p args w) as [reply w0]. cbn [snd] in *.
  apply bind_Some in Hp as ([[brk' n2] db2] & Hre & Hp). injection Hp as -> -> -> ->.
  assert (forall calls w2, calls_path y (heartbeat_call n0) calls w1 w2 lent ->
    exists calls0, calls_path y (heartbeat_call n0) (calls0 ++ calls) w w2 lent /\
      calls0.*1 = if m_peerAddresses n0 !! p then [p] else []) as Hcall.
  { intros calls w2 Hc. destruct (m_peerAddresses n0 !! p) as [[host port]|] eqn:Ep.
    - destruct Hpath as (l & Hl & Hpath). exists [(p, l)]. split; [|done].
      eapply calls_cons; [|exact Hpath|exact Hc]. eexists host, port, args, _.
      split_and!; [exact Ep| | |exact Hes|exact Hm|exact Hl].
      + rewrite Eargs. exact Ht.
      + by rewrite Hlid.
    - exists []. split; [|done]. by rewrite <- Hpath. }
  rewrite addressed_cons. destruct brk.
  - injection Hrest as <- _ <-.
    destruct (Hcall [] w1 (calls_none _ _ _ _ Hok1)) as (calls0 & Hc' & E0).
    exists calls0. rewrite app_nil_r in Hc'. split; [exact Hc'|].
    rewrite E0. split; [by apply prefix_app_r|]. intros Hl.
    unfold heartbeat_reply in Hre. exfalso. destruct reply as [r|]; [|done].
    destruct (aer_success r); [by apply bind_Some in Hre as ([? ?] & _ & [=])|].
    destruct (m_currentTerm n <? aer_term r)%Z; [by simplify_eq|].
    destruct (map_index _ _) as [cur m]. by destruct (1 <? cur)%Z.
  - destruct (heartbeat_reply_goes_on p nx1 reply n db n1 db1 Hwf Hs Hin Hnx Hr Hre)
      as (Hwf1 & Hs1 & Hpe1 & Hid1 & Had1 & Ht1).
    destruct (IH n1 db1 w1) as (calls & Hc & Hpre & Hall); [| | | |exact Hok1|exact Hrest|].
    + unfold same_leader. split_and!; congruence.
    + exact Hwf1.
    + congruence.
    + intros q Hq. rewrite Hpe1. apply Hps. by right.
    + destruct (Hcall calls w' Hc) as (calls0 & Hc' & E0).
      exists (calls0 ++ calls). rewrite fmap_app, E0. split; [exact Hc'|].
      split; [by apply prefix_app|]. intros Hl. by rewrite Hall.
Qed.

Lemma heartbeat_turn_path y n (db : B) w lent n' db' w' :
  raft_wf n -> utf8_ok (m_nodeId n) = true -> world_ok w lent ->
  heartbeatLoop_turn n db w = Some (n', db', w') ->
  exists calls, calls_path y (heartbeat_call n) calls w w' lent /\
    calls.*1 `prefix_of` addressed n (m_peers n) /\
    (m_state n <> Leader -> calls = []) /\
    (m_state n = Leader -> m_state n' = Leader -> calls.*1 = addressed n (m_peers n)).
Proof.
  intros Hwf Hu Hok. unfold heartbeatLoop_turn. case_bool_decide as Hs.
  - intros E. destruct (heartbeat_peers_path y n (m_peers n) n db w lent n' db' w')
      as (calls & Hc & Hpre & Hall); [done|done|done|done|done|exact E|].
    exists calls. split_and!; [exact Hc|exact Hpre|done|]. intros _. exact Hall.
  - intros [= _ _ <-]. exists []. split; [by apply calls_none|].
    split; [apply prefix_nil|]. done.
Qed.
End calls.

(** ** The property *)


(** ** Witnesses *)
Module Witness.
Import Storage.Memory Connection.Witness Server.Witness System.Witness.

#[local] Abbreviation turn_of tm n y :=
  (@electionLoop_turn _ (@server_transport int_floats compact_text process nb_stream
     process_ops process_table nb_ops id) tm n (sys_conns y, sys_os y)).

#[local] Abbreviation path := (@sys_path int_floats compact_text mem_db mem_rocksdb process nb_stream
  process_ops process_laws process_table nb_ops nb_laws process_listen length_hash).

(** A server whose node has two peers: one accepts the connection and answers
    nothing that could be read as a vote, the other one is not there. *)
Definition candidate : RaftNode :=
  (RaftNode.start (RaftElection.Example3.node "a" ["b"; "c"]%string)).2.

Definition with_peers (y : system process mem_db) : system process mem_db :=
  put_shared (mkServerState (sys_db y) (Some candidate)) y.

Lemma candidate_wf : raft_wf candidate.
Proof.
  constructor; try done. split; [done|]. intros [|i] e He; simpl in He; by simplify_eq.
Qed.

Definition stands : option (RaftState * Z * list string) :=
  y ← started; '(n', (p', _)) ← turn_of (mkTimer 2000 200) candidate y;
  Some (m_state n', m_currentTerm n', (map_to_list (m_fdToPeerMap p')).*2).

End Witness.
