(* ===== verification/Isolation.v ===== *)
(** * Sessions are isolated

    In the running server of [System] the socket of a client changes only by what
    the network does and by the client's own session: no other session, and neither the
    connection pool nor its users, the accept loop or [stop], touches it. *)
From S2P Require Import Prelude Socket Text Protocol Router ConnPool Descriptors PoolStreams ThreadPool.
From S2P Require Import Json JsonText RaftTypes RaftNode Storage Connection Session Server System.

(** [accept] and the calls around it leave other descriptors' streams alone. *)
Class ListenTable (O S : Type) `{!PoolOS O, !PoolOSLaws O, !FdTable O S, !ListenOS O} := {
  accept_stream listen fd r (o o' : O) :
    os_accept listen o = (r, o') -> fd ∈ os_open o -> fd_stream fd o' = fd_stream fd o;
}.

(** ** A step and the clients it is not about *)
Section isolation.
Context `{!Floats, !JsonText} {B : Type} `{!RocksDB B}.
Context {O S : Type} `{!PoolOS O, !PoolOSLaws O, !FdTable O S, !SocketOps S, !SocketLaws S}.
Context `{!FdTableLaws O S, !ListenOS O, !ListenOSLaws O, !ListenTable O S}.
Variable hash : string -> Z.
Implicit Types y : system O B.

(** The clients whose sessions actor [a] does not run. *)
Definition others (a : actor) y (c : Z) : Prop :=
  c ∈ clients y /\ forall i, a = SessionOf i -> tp_workers (tasks y) !! i <> Some (Running c).

Lemma server_stop_kept (X : gset Z) (s : Server) (o : O) :
  X ## server_fds s -> streams_kept (S := S) X o (server_stop s o).2.
Proof.
  intros HX. unfold server_stop. destruct (srv_running s); cbn [negb]; [|done]. simpl.
  unfold server_fds in HX.
  assert (forall fd (o1 : O), (if (0 <=? fd)%Z then {[ fd ]} else ∅) ## X ->
    streams_kept (S := S) X o1 (if (0 <=? fd)%Z then os_close fd o1 else o1)) as Hclose.
  { intros fd o1 Hd. case_match; [|done]. apply close_kept. set_solver. }
  eapply streams_kept_trans; apply Hclose; set_solver.
Qed.

Lemma send_replies_kept (X : gset Z) fd replies (o : O) :
  fd ∉ X -> streams_kept (S := S) X o (send_replies fd replies o).
Proof.
  intros Hfd. revert o. induction replies as [|r rs IH]; intros o; [done|]. simpl.
  eapply streams_kept_trans; [|apply IH]. intros fd' Hfd'. unfold send_reply.
  destruct (fd_sendMessage_but fd r o) as [_ Hs]. apply Hs. by intros ->.
Qed.

(** The session of worker [i] reads on its own client's socket. *)
Lemma session_read_kept (X : gset Z) i c y b data (o1 : O) :
  c ∉ X -> session_read (S := S) i c y = (b, data, o1) -> streams_kept (S := S) X (sys_os y) o1.
Proof.
  intros Hc E fd Hfd. unfold session_read in E.
  destruct (fd_recvMessage_but (S := S) c (default [] (sys_data y !! i)) (sys_os y)) as [_ Hs].
  rewrite E in Hs. apply Hs. by intros ->.
Qed.

(** Where a client's descriptor is not. *)
Lemma client_apart hw base y c :
  sys_inv hw base y -> c ∈ clients y ->
  c ∈ os_open (sys_os y) /\ c ∉ owned (sys_conns y) (sys_lent y) /\ c ∉ server_fds (sys_srv y).
Proof.
  intros Hi Hc. pose proof (clients_foreign _ _ _ _ Hi Hc) as Hf. unfold foreign in Hf.
  pose proof (sy_clients _ _ _ Hi) as Hd.
  assert (c ∈ (list_to_set (clients y) : gset Z)) as Hc' by by apply elem_of_list_to_set.
  split_and!; [set_solver|set_solver|]. intros Hs. apply (Hd c Hc'). set_solver.
Qed.

Lemma isolated_round hw base y i c0 t data o1 replies st o2 c :
  sys_inv hw base y -> others (SessionOf i) y c ->
  tp_workers (tasks y) !! i = Some (Running c0) ->
  quiet_on (list_to_set (clients y)) (tn_relay t) ->
  session_read i c0 y = (true, data, o1) ->
  session_message hash t (text data) y o1 = Ok (replies, (st, o2)) ->
  fd_stream c (send_replies (S := S) c0 replies o2) = fd_stream c (sys_os y).
Proof.
  intros Hi [Hc Hne] Hw Hq Hr Hm. apply kept_singleton.
  assert (c0 ∉ ({[ c ]} : gset Z)) as Hc0.
  { intros ->%elem_of_singleton. by apply (Hne i). }
  pose proof (session_read_open i c0 y _ _ _ Hr) as Ho1.
  assert (list_to_set (clients y) ⊆ os_open o1) as Hsub.
  { rewrite Ho1. intros c' Hc'%elem_of_list_to_set. by apply (client_apart _ _ _ _ Hi). }
  destruct (handle_message_frame _ _ _ _ t _ _ _ _ _ _ Hq Hsub Hm) as [[_ Hk] _].
  eapply streams_kept_trans; [by eapply session_read_kept|].
  eapply streams_kept_trans; [|by apply send_replies_kept].
  apply kept_singleton, Hk. by apply elem_of_list_to_set.
Qed.

Lemma isolated_end hw base y i b c0 data o1 (bl : bool) tp c :
  sys_inv hw base y -> others (SessionOf i) y c ->
  tp_workers (tasks y) !! i = Some (Running c0) ->
  session_read (S := S) i c0 y = (bl, data, o1) ->
  tp_step (Finish i b) (tasks y) = Some tp ->
  c ∈ in_flight tp /\ fd_stream c (os_close c0 o1) = fd_stream c (sys_os y).
Proof.
  intros Hi [Hc Hne] Hw Hr E.
  assert (c0 ∉ ({[ c ]} : gset Z)) as Hc0.
  { intros ->%elem_of_singleton. by apply (Hne i). }
  split.
  - unfold clients in Hc. rewrite (in_flight_finish _ _ _ _ _ Hw E) in Hc.
    apply elem_of_cons in Hc as [->|Hc]; [set_solver|done].
  - apply kept_singleton. eapply streams_kept_trans; [by eapply session_read_kept|].
    by apply close_kept.
Qed.

Lemma isolated_step hw base a y y' c :
  sys_inv hw base y -> sys_step hash a y y' -> a <> Network -> others a y c ->
  c ∈ clients y' /\ fd_stream c (sys_os y') = fd_stream c (sys_os y).
Proof.
  intros Hi Hstep Hnet Ho. pose proof Ho as [Hc _].
  destruct (client_apart _ _ _ _ Hi Hc) as (Hopen & Hown & Hsrv).
  destruct Hstep as
    [y o' Hop|y c0 o' tp Hst Hpush Hnot Ha E|y ev tp Hm E|y i c0 t data o1 replies st o2 Hw Hq Hnm Hr Hh
    |y i c0 data o1 tp Hw Hr E|y i c0 t data o1 tp Hw Hr Hh E|y ev Hev|y fd peer u Hl
    |y n n' tm W T w w' Hn Hrun Hh|y n n' db' W T w w' Hn Hrun Hh|y order s' o' Hl Hr Hord Hs].
  - done.
  - split; [|by eapply accept_stream].
    change (c ∈ in_flight tp). rewrite (in_flight_submit _ _ _ Hst E). by right.
  - split; [|by destruct ev]. change (c ∈ in_flight tp). by rewrite (in_flight_moves _ _ _ Hm E).
  - split; [exact Hc|by eapply isolated_round].
  - by eapply isolated_end.
  - by eapply isolated_end.
  - split; [exact Hc|]. apply kept_singleton.
    apply (pool_step_kept {[ c ]} ev (conn_world y)); [apply Hi|done|set_solver|set_solver].
  - split; [exact Hc|]. apply (use_connection_but fd u). intros ->. apply Hown, owned_spec. right. eauto.
  - done.
  - done.
  - pose proof (server_stop_fds (sys_srv y) _ _ _ Hr Hs) as (_ & _ & Htp).
    split; [unfold clients, tasks; simpl; by rewrite Htp|]. apply kept_singleton.
    eapply streams_kept_trans.
    + apply (pool_stop_kept {[ c ]} order). eapply pool_ok_apart; [apply Hi|set_solver].
    + replace o' with (server_stop (sys_srv y) (pool_stop order (sys_conns y) (sys_os y)).2).2
        by by rewrite Hs.
      apply server_stop_kept. set_solver.
Qed.
End isolation.

(** ** The sessions of the running server are runs of [handle] *)
Section sessions.
Context `{!Floats, !JsonText} {B : Type} `{!RocksDB B}.
Context {O S : Type} `{!PoolOS O, !PoolOSLaws O, !FdTable O S, !SocketOps S, !SocketLaws S}.
Context `{!FdTableLaws O S, !ListenOS O, !ListenOSLaws O}.
Variable hash : string -> Z.
Implicit Types y : system O B.

Definition serves (i : nat) (c : Z) y : Prop := tp_workers (tasks y) !! i = Some (Running c).

(** A step, of whatever thread, during which worker [i] serves [c]. *)
Definition session_step (i : nat) (c : Z) y y' : Prop :=
  (exists a, sys_step hash a y y') /\ serves i c y /\ serves i c y'.

(** A step of another thread, while the session goes on. *)
Definition other_step (i : nat) (c : Z) y y' : Prop :=
  (exists a, a <> SessionOf i /\ sys_step hash a y y') /\ serves i c y /\ serves i c y'.

(** One round of the session of worker [i]: the system just before its read, the message,
    the replies, and the system after them. *)
Record session_round := mkRound {
  rd_before : system O B;
  rd_message : string;
  rd_replies : list (list byte);
  rd_after : system O B;
}.

Definition round_step (i : nat) (c : Z) (r : session_round) : Prop :=
  sys_step hash (SessionOf i) (rd_before r) (rd_after r) /\
  serves i c (rd_before r) /\ serves i c (rd_after r) /\
  exists t data o1 st o2,
    quiet_on (list_to_set (clients (rd_before r))) (tn_relay t) /\
    rd_message r = text data /\
    session_read i c (rd_before r) = (true, data, o1) /\
    session_message hash t (rd_message r) (rd_before r) o1 = Ok (rd_replies r, (st, o2)) /\
    rd_after r = put_shared st (put_data i data (put_os (send_replies c (rd_replies r) o2) (rd_before r))).

(** The session between [y] and [y']: its rounds, and before each the steps of the others. *)
Inductive session_run (i : nat) (c : Z) : system O B -> list session_round -> system O B -> Prop :=
  | run_waits y y' : rtc (other_step i c) y y' -> session_run i c y [] y'
  | run_round y r rs y' :
      rtc (other_step i c) y (rd_before r) -> round_step i c r ->
      session_run i c (rd_after r) rs y' -> session_run i c y (r :: rs) y'.

(** Messages and replies; where the session stands when it begins to wait, and where at its reads. *)
Definition rounds_trace (rs : list session_round) : trace :=
  (fun r => (rd_message r, rd_replies r)) <$> rs.
Definition waits_from y (rs : list session_round) : list (system O B) := y :: (rd_after <$> rs).
Definition reads_at (rs : list session_round) y' : list (system O B) := (rd_before <$> rs) ++ [y'].

(** What [handle] sees of the system. *)
Definition world y : server_state B * O := (shared y, sys_os y).

(** The session ends: its read fails, or an exception leaves the handler. *)
Definition session_ends (i : nat) (c : Z) (t : turn B O) (e : ending) (o1 : O) y : Prop :=
  match session_read i c y with
  | (false, _, o') => e = Closed /\ o1 = o'
  | (true, data, o') => session_message hash t (text data) y o' = Throw /\ e = Threw /\ o1 = o'
  end.

(** [handle] in the state of the system. *)
Definition handle_in (ts : list (turn B O)) (i : nat) (c : Z) y
  : ending * trace * (server_state B * O) :=
  handle hash (srv_router (sys_srv y)) (ni_id (srv_self (sys_srv y))) ts c
    (default [] (sys_data y !! i)) (shared y) (sys_os y).

Lemma step_keeps_config a y y' :
  sys_step hash a y y' ->
  srv_router (sys_srv y') = srv_router (sys_srv y) /\ srv_self (sys_srv y') = srv_self (sys_srv y).
Proof.
  intros Hstep. destruct Hstep as
    [| |y ev tp Hm E| | | | | | | |y order s' o' Hl Hr Hord Hs]; try done.
  - by destruct ev.
  - simpl. unfold server_stop in Hs. rewrite Hr in Hs. by injection Hs as <- _.
Qed.

Lemma serves_client i c y : serves i c y -> c ∈ clients y.
Proof.
  intros Hi. unfold clients, in_flight. apply elem_of_app. right. apply elem_of_app. right.
  apply list_elem_of_omap. exists (Running c). split; [|done]. by eapply list_elem_of_lookup_2.
Qed.

(** A step of the session's own worker that does not end the session is a round. *)
Lemma session_step_round i c y y' :
  sys_step hash (SessionOf i) y y' -> serves i c y -> serves i c y' ->
  exists r, rd_before r = y /\ rd_after r = y' /\ round_step i c r.
Proof.
  intros Hstep Hi Hi'. remember (SessionOf i) as a eqn:Ea. pose proof Hstep as Hs.
  destruct Hstep as
    [| | |y j c0 t data o1 replies st o2 Hw Hq Hnm Hr Hh|y j c0 data o1 tp Hw Hr E
    |y j c0 t data o1 tp Hw Hr Hh E| | | | |]; try discriminate Ea; injection Ea as ->.
  - unfold serves in Hi. rewrite Hw in Hi. injection Hi as ->.
    exists (mkRound y (text data) replies
      (put_shared st (put_data i data (put_os (send_replies c replies o2) y)))).
    split; [done|]. split; [done|]. split; [exact Hs|]. split; [exact Hw|]. split; [exact Hi'|].
    exists t, data, o1, st, o2. done.
  - exfalso. eapply finish_idle; [exact E|exact Hi'].
  - exfalso. eapply finish_idle; [exact E|exact Hi'].
Qed.

(** The others leave the session's buffer alone. *)
Lemma other_step_data i c y y' : other_step i c y y' -> sys_data y' !! i = sys_data y !! i.
Proof.
  intros [[a [Hne Hstep]] [Hi Hi']]. unfold serves in *. destruct Hstep as
    [|y c0 o' tp|y ev tp Hm E|y j c0 t data o1 replies st o2 Hw Hq Hnm Hr Hh| | | | | | |]; try done.
  - destruct ev as [u|k|k|k|k|k|k|k b|k| | |]; try done. simpl.
    destruct (decide (k = i)) as [->|Hk]; [|by rewrite lookup_insert_ne].
    simpl in E. unfold worker_take in E. by rewrite Hi in E.
  - simpl. rewrite lookup_insert_ne; [done|]. by intros ->.
Qed.

Lemma other_steps_keep i c y y1 :
  rtc (other_step i c) y y1 ->
  srv_router (sys_srv y1) = srv_router (sys_srv y) /\ srv_self (sys_srv y1) = srv_self (sys_srv y) /\
  sys_data y1 !! i = sys_data y !! i.
Proof.
  induction 1 as [y|y y1 y2 Ho _ (IH1 & IH2 & IH3)]; [done|].
  pose proof (other_step_data _ _ _ _ Ho) as Hd. destruct Ho as [[a [_ Ha]] _].
  destruct (step_keeps_config _ _ _ Ha) as [Er Es]. split_and!; congruence.
Qed.

Lemma session_run_other i c y y1 rs y' :
  other_step i c y y1 -> session_run i c y1 rs y' -> session_run i c y rs y'.
Proof.
  intros Ho Hrun. destruct Hrun as [y1 y' Hw|y1 r rs y' Hw Hr Hrun].
  - apply run_waits. by eapply rtc_l.
  - eapply run_round; [by eapply rtc_l|done..].
Qed.

(** Every run of the system during a session is a run of the session. *)
Lemma session_steps_run i c y y' :
  rtc (session_step i c) y y' -> exists rs, session_run i c y rs y'.
Proof.
  induction 1 as [y|y y1 y' Hstep _ [rs IH]]; [by exists []; apply run_waits, rtc_refl|].
  destruct Hstep as [[a Hstep] [Hi Hi']]. destruct (decide (a = SessionOf i)) as [->|Hne].
  - destruct (session_step_round i c y y1 Hstep Hi Hi') as (r & <- & <- & Hr).
    exists (r :: rs). by apply run_round; [apply rtc_refl|..].
  - exists rs. eapply session_run_other; [|exact IH]. split; [by exists a|by split].
Qed.

(** The turn of [handle] for a round: the others have brought the system to [y1]. *)
Definition turn_at y1 (t : turn B O) : turn B O :=
  mkTurn (fun _ => world y1) (tn_relay t) (tn_width t) (tn_height t) (tn_timer t).

Lemma session_message_turn t msg y o y1 :
  session_message hash (turn_at y1 t) msg y o = session_message hash t msg y o.
Proof. done. Qed.

(** One round of [handle] is one round of the session. *)
Lemma handle_round i c y r :
  rtc (other_step i c) y (rd_before r) -> round_step i c r ->
  exists t, tn_before t (world y) = world (rd_before r) /\ quiet_on {[ c ]} (tn_relay t) /\
    forall ts, handle_in (t :: ts) i c y =
      (let '(e, tr, w) := handle_in ts i c (rd_after r) in
       (e, (rd_message r, rd_replies r) :: tr, w)).
Proof.
  destruct r as [y1 msg replies y2]. intros Hw (_ & Hs & _ & t & data & o1 & st & o2 & Hq & E & Hr & Hm & E2).
  simpl in *. subst msg y2. exists (turn_at y1 t). split; [done|]. split.
  { intros o. destruct (Hq o) as [H1 H2]. split; [done|].
    intros fd ->%elem_of_singleton. apply H2, elem_of_list_to_set. by eapply serves_client. }
  intros ts. destruct (other_steps_keep _ _ _ _ Hw) as (Er & Es & Ed).
  unfold handle_in at 1. rewrite <- Er, <- Es, <- Ed. simpl.
  unfold session_read in Hr. rewrite Hr. cbn [negb].
  rewrite <- (session_message_turn t (text data) y1 o1 y1) in Hm. unfold session_message in Hm.
  rewrite Hm. unfold handle_in. simpl. rewrite lookup_insert_eq. simpl.
  by destruct st.
Qed.

(** ... and its end is the session's. *)
Lemma handle_end i c y y' t e o1 :
  rtc (other_step i c) y y' -> session_ends i c t e o1 y' ->
  handle_in [turn_at y' t] i c y = (e, [], (shared y', o1)).
Proof.
  intros Hw Hend. destruct (other_steps_keep _ _ _ _ Hw) as (Er & Es & Ed).
  unfold handle_in. rewrite <- Er, <- Es, <- Ed. simpl. unfold session_ends in Hend.
  unfold session_read in Hend.
  destruct (fd_recvMessage c (default [] (sys_data y' !! i)) (sys_os y')) as [[[|] data] o']; cbn [negb].
  - destruct Hend as (Hm & -> & ->). rewrite <- (session_message_turn t _ y' o' y') in Hm.
    unfold session_message in Hm. by rewrite Hm.
  - by destruct Hend as [-> ->].
Qed.

Lemma session_handle i c y rs y' t0 e o1 :
  session_run i c y rs y' -> session_ends i c t0 e o1 y' ->
  exists ts, length ts = Datatypes.S (length rs) /\
    (forall k s b t, waits_from y rs !! k = Some s -> reads_at rs y' !! k = Some b ->
       ts !! k = Some t ->
       rtc (other_step i c) s b /\ tn_before t (world s) = world b /\
       (k < length rs -> quiet_on {[ c ]} (tn_relay t)) /\
       handle_in (take k ts) i c y = (Serving, take k (rounds_trace rs), world s)) /\
    handle_in ts i c y = (e, rounds_trace rs, (shared y', o1)).
Proof.
  intros Hrun Hend. induction Hrun as [y y' Hw|y r rs y' Hw Hr Hrun IH].
  - exists [turn_at y' t0]. split; [done|]. split; [|by apply handle_end].
    intros [|k] s b t Hs Hb Ht; [|done]. simpl in *. injection Hs as <-. injection Hb as <-.
    injection Ht as <-. split_and!; [done|done|lia|done].
  - destruct (IH Hend) as (ts & Hl & Hts & Hh). clear IH Hend Hrun.
    destruct (handle_round i c y r Hw Hr) as (t1 & Hb1 & Hq1 & Hround).
    exists (t1 :: ts). split; [simpl; congruence|]. split; [|by rewrite Hround, Hh].
    intros [|k] s b t Hs Hb Ht.
    + simpl in *. injection Hs as <-. injection Hb as <-. injection Ht as <-. by split_and!.
    + destruct (Hts k s b t Hs Hb Ht) as (H1 & H2 & H3 & H4).
      split_and!; [done|done|simpl; intros; apply H3; lia|].
      cbn [take]. rewrite Hround, H4. done.
Qed.
End sessions.

(** ** The properties *)

(** C19. Isolation of sessions: in the running server, whatever the other threads do, a
    client whose session has not ended stays accepted, and its socket (what has
    arrived, what was sent, whether it is open) changes only by the network and by the
    session of this very client; another session, the connection pool and its users,
    the accept loop, a Raft thread or [stop] leaves it as it is. *)
Theorem sessions_isolated `{!Floats, !JsonText} {B : Type} `{!RocksDB B} {O S : Type}
    `{!PoolOS O, !PoolOSLaws O, !FdTable O S, !SocketOps S, !SocketLaws S, !FdTableLaws O S}
    `{!ListenOS O, !ListenOSLaws O, !ListenTable O S} hash hw base a (y y' : system O B) c :
  sys_reach hash hw base y -> sys_step hash a y y' ->
  a <> Network -> c ∈ clients y ->
  (forall i, a = SessionOf i -> tp_workers (tasks y) !! i <> Some (Running c)) ->
  c ∈ clients y' /\ fd_stream c (sys_os y') = fd_stream c (sys_os y).
Proof. intros Hi%sys_reach_inv Hstep Hnet Hc Hne. by eapply isolated_step. Qed.

(** C20. A session of the running server is a run of [Connection::handle].  Take any
    steps of all threads during which a worker serves a client, up to the end of the session (a
    read that fails, or an exception of the handler).  They are rounds of the session, in order,
    with steps of the other threads before each read.  [handle] on the client's
    descriptor, with exactly these interferences between its rounds, follows the system all
    the way: after [k] rounds it has served the same messages with the same replies and
    is in the very state (store, node and process) the system is in after the session's [k]-th
    round; before its next read the others bring it where they bring the system; and it ends, the
    same way, in the state the system is in then. *)
Theorem session_refines_handle `{!Floats, !JsonText} {B : Type} `{!RocksDB B} {O S : Type}
    `{!PoolOS O, !PoolOSLaws O, !FdTable O S, !SocketOps S, !SocketLaws S, !FdTableLaws O S}
    `{!ListenOS O, !ListenOSLaws O} hash i c (y y' : system O B) t0 e o1 :
  rtc (session_step hash i c) y y' -> session_ends hash i c t0 e o1 y' ->
  exists rounds ts,
    Forall (round_step hash i c) rounds /\ length ts = Datatypes.S (length rounds) /\
    (forall k s b t, waits_from y rounds !! k = Some s -> reads_at rounds y' !! k = Some b ->
       ts !! k = Some t ->
       rtc (other_step hash i c) s b /\
       tn_before t (shared s, sys_os s) = (shared b, sys_os b) /\
       (k < length rounds -> quiet_on {[ c ]} (tn_relay t)) /\
       handle hash (srv_router (sys_srv y)) (ni_id (srv_self (sys_srv y))) (take k ts) c
         (default [] (sys_data y !! i)) (shared y) (sys_os y)
       = (Serving, take k (rounds_trace rounds), (shared s, sys_os s))) /\
    handle hash (srv_router (sys_srv y)) (ni_id (srv_self (sys_srv y))) ts c
      (default [] (sys_data y !! i)) (shared y) (sys_os y)
    = (e, rounds_trace rounds, (shared y', o1)).
Proof.
  intros [rs Hrun]%session_steps_run Hend.
  destruct (session_handle _ _ _ _ _ _ _ _ _ Hrun Hend) as (ts & Hl & Hts & Hh).
  exists rs, ts. split; [|by split_and!]. clear -Hrun. induction Hrun; by constructor.
Qed.

(** ** Witness *)
Module Witness.
Import Storage.Memory Connection.Witness Server.Witness System.Witness.

#[export] Instance process_listen_table : ListenTable process nb_stream.
Proof.
  constructor. intros listen fd r o o'. simpl.
  destruct (ps_connects o) as [|[s|] rest]; intros [= <- <-] Hfd; [done| |done].
  simpl. rewrite lookup_insert_ne; [done|]. intros <-.
  apply new_fd_above in Hfd. lia.
Qed.

(** While the client on descriptor 5 is served, a connection to a peer is made. *)
Lemma sessions_isolated_witness :
  exists y, serving = Some y /\
    fd_stream 5%Z (pw_os (pool_step (PoolGet "node2" "127.0.0.1" 8081) (conn_world y)))
    = fd_stream (S := nb_stream) 5%Z (sys_os y).
Proof.
  destruct serving_runs as (y & E & Hc & _). exists y. split; [exact E|].
  apply (@sessions_isolated int_floats compact_text mem_db mem_rocksdb process nb_stream
    process_ops process_laws process_table nb_ops nb_laws process_table_laws process_listen
    process_listen_laws process_listen_table length_hash 2 {[ 0; 1; 2 ]}%Z
    (ConnectionPool (PoolGet "node2" "127.0.0.1" 8081)) y
    (put_conns (pool_step (PoolGet "node2" "127.0.0.1" 8081) (conn_world y)) y) 5%Z).
  - exact (serving_reach y E).
  - apply (step_conns length_hash y (PoolGet "node2" "127.0.0.1" 8081)). exact I.
  - discriminate.
  - rewrite Hc. left.
  - intros i Hi. discriminate Hi.
Defined.

(** One round of the session: [PING] is answered. *)
Definition answered : option (system process mem_db) :=
  y ← serving;
  match session_read 1 5 y with
  | (true, data, o1) =>
      match @session_message int_floats compact_text mem_db mem_rocksdb process nb_stream
              process_ops process_table nb_ops length_hash Session.Witness.quiet_turn (text data) y o1 with
      | Ok (replies, (st, o2)) =>
          Some (put_shared st (put_data 1 data (put_os (send_replies 5 replies o2) y)))
      | _ => None
      end
  | _ => None
  end.

Lemma answered_step y y' :
  serving = Some y -> answered = Some y' -> serves 1 5%Z y ->
  @session_step int_floats compact_text mem_db mem_rocksdb process nb_stream process_ops process_laws
    process_table nb_ops nb_laws process_listen length_hash 1 5%Z y y'.
Proof.
  unfold answered. intros E. rewrite E. cbn [mbind option_bind]. intros Ha Hs.
  destruct (session_read 1 5 y) as [[[|] data] o1] eqn:Er; [|discriminate Ha].
  destruct (session_message _ _ _ _ _) as [[replies [st o2]]| |] eqn:Em; [|discriminate Ha..].
  injection Ha as <-. split; [|by split]. exists (SessionOf 1).
  apply (step_round length_hash y 1 5%Z Session.Witness.quiet_turn data o1 replies st o2 Hs);
    [|intros o; apply network_moves_refl|exact Er|exact Em].
  intros o. apply kept_refl.
Qed.

(** The client has been sent [PONG] by the run of [handle]. *)
Lemma session_refines_handle_witness :
  exists y y' o1 tr ts s, serving = Some y /\ answered = Some y' /\
    @handle int_floats compact_text mem_db mem_rocksdb process nb_stream process_ops process_table
      nb_ops length_hash (srv_router (sys_srv y)) (ni_id (srv_self (sys_srv y))) ts 5
      (default [] (sys_data y !! 1)) (shared y) (sys_os y) = (Closed, tr, (shared y', o1)) /\
    fd_stream 5%Z o1 = Some s /\ nb_out s = frame (chars "PONG").
Proof.
  destruct serving_runs as (y & E & _ & Hw & _).
  destruct answered as [y'|] eqn:Ea; [|vm_compute in Ea; discriminate Ea].
  assert ((fun y => ((session_read 1 5 y).1.1, nb_out <$> fd_stream 5%Z (session_read 1 5 y).2))
    <$> answered = Some (false, Some (frame (chars "PONG")))) as H by (vm_compute; reflexivity).
  rewrite Ea in H. cbn [fmap option_fmap option_map] in H. injection H as Hb Hs.
  destruct (session_read 1 5 y') as [[b data] o1] eqn:Er. cbn [fst snd] in Hb, Hs. rewrite Hb in Er.
  destruct (@session_refines_handle int_floats compact_text mem_db mem_rocksdb process nb_stream
    process_ops process_laws process_table nb_ops nb_laws process_table_laws process_listen
    process_listen_laws length_hash 1 5%Z y y' Session.Witness.quiet_turn Closed o1)
    as (rounds & ts & _ & _ & _ & Hh).
  - apply rtc_once. exact (answered_step y y' E Ea Hw).
  - unfold session_ends. rewrite Er. split; reflexivity.
  - assert (nb_out <$> fd_stream 5%Z o1 = Some (frame (chars "PONG"))) as Hs' by exact Hs.
    apply fmap_Some in Hs' as (s & Es & Hs').
    exists y, y', o1, (rounds_trace rounds), ts, s. split; [exact E|]. split; [reflexivity|].
    split; [exact Hh|]. split; [exact Es|symmetry; exact Hs'].
Defined.
End Witness.
