(* ===== verification/Main.v ===== *)
(** * The entry point (src/main.cpp)

    The command line, and how a run of the process ends. *)
From S2P Require Import Prelude Socket Text ConnPool Descriptors Config RaftNode Storage Json Server.
Local Open Scope string_scope.

(** The loop of [parseConfigPath] from one argument on. *)
Fixpoint config_arg (args : list string) (config_path : string) : string :=
  match args with
  | [] => config_path
  | arg :: rest =>
      match rest with
      | next :: _ => if String.eqb arg "--config" then next else config_arg rest config_path
      | [] => config_arg rest config_path
      end
  end.

(** [parseConfigPath(argc, argv)]; [argv] includes the program's name. *)
Definition parseConfigPath (argv : list string) : string :=
  config_arg (tail argv) "./config/server.conf".

(** [handleSignal(sig)] *)
Definition handleSignal {O : Type} `{!PoolOS O, !ListenOS O} (g_server : option Server) (o : O)
  : option Server * O :=
  match g_server with
  | Some s => let '(s', o') := server_stop s o in (Some s', o')
  | None => (None, o)
  end.

(** How [main] ends: with a code, by an exception or by undefined behaviour, or not
    yet. *)
Inductive run_end := ExitCode (code : Z) | Terminated | Running.

(** [main(argc, argv)]: [file] is what the configuration path holds, [reads] the
    values of [m_running] at the turns of the accept loop, and [waits] at those of [wait()]. *)
Definition main {S O B : Type} `{!SocketOps S, !PoolOS O, !FdTable O S, !ListenOS O, !RocksDB B}
    (argv : list string) (file : string -> option string) (wait : O -> O)
    (hw : nat) (h0 : bool) (tm : Timer) (fuel : nat) (reads waits : list bool)
    (o : O) : run_end :=
  let config_path := parseConfigPath argv in
  let '(loaded, conf) := loadFromFile (file config_path) ∅ in
  if negb loaded then ExitCode 1
  else
    match Server_new conf wait hw h0 o with
    | None => Terminated
    | Some (s, o0) =>
        match start_until_accept tm s (RocksDBStorage_new (B := B)) o0 with
        | Ok (false, _, _, _) => ExitCode (-1)
        | Ok (true, s1, _, o1) =>
            match acceptLoop fuel reads s1 o1 with
            | (Accepting, _, _) | (OutOfFuel, _, _) => Running
            | (Stopped, _, _) => ExitCode 0
            | (EpollFailed, _, _) => if server_wait waits then ExitCode 0 else Running
            end
        | _ => Terminated
        end
    end.

(** The path is the argument after the first [--config] that has one. *)
Lemma config_arg_spec before path after d :
  "--config" ∉ before ->
  config_arg (before ++ "--config" :: path :: after) d = path.
Proof.
  induction before as [|a before IH]; intros Hn; [done|].
  apply not_elem_of_cons in Hn as [Ha Hn]. specialize (IH Hn).
  assert (String.eqb a "--config" = false) as Hne by (apply String.eqb_neq; congruence).
  destruct before as [|b before]; simpl in *; by rewrite Hne.
Qed.

Theorem parseConfigPath_spec prog before path after :
  "--config" ∉ before ->
  parseConfigPath (prog :: (before ++ "--config" :: path :: after)) = path /\
  parseConfigPath (prog :: before) = "./config/server.conf" /\
  parseConfigPath (prog :: (before ++ ["--config"])%list) = "./config/server.conf".
Proof.
  intros Hn. split; [by apply config_arg_spec|]. unfold parseConfigPath. simpl.
  induction before as [|a before IH]; [done|].
  apply not_elem_of_cons in Hn as [Ha Hn]. specialize (IH Hn).
  assert (String.eqb a "--config" = false) as Hne by (apply String.eqb_neq; congruence).
  destruct before as [|b before]; simpl in *; by rewrite ?Hne.
Qed.
